(* ===== verification/_CoqProject ===== *)
-Q . S2P
Prelude.v
ByteFields.v
Errors.v
CheckedMath.v
Checksum.v
Prog.v
SeqLogic.v
Concur.v
ProcIdentity.v
OwnerSnapshot.v
ShmObject.v
Clock.v
ChannelLayout.v
ChannelSegment.v
SlotProtocol.v
ChannelAbi.v
ControlLock.v
Producer.v
Consumer.v
FdBroker.v
ProducerCreate.v
ConsumerOpen.v
Observer.v
ChannelProtocol.v
ChannelSteps.v
ConsumerSafety.v
ConsumerOps.v
ProducerSafety.v
ProducerOps.v
ChannelClient.v
ChannelHolds.v
ChannelTakeover.v
ChannelRuns.v
ChannelTheorems.v
TypedChannel.v
ChannelProgress.v
ChannelFrames.v
ChannelCreate.v
JournalTheorems.v
GenerationRestart.v
ProcessSpawn.v
Supervisor.v
ChildTrace.v
BrokerTheorems.v
SupervisorSafety.v
SupervisorPolicy.v
SupervisorExhaustion.v
ProcTheorems.v
PoolLayout.v
SharedBufferPool.v
PoolProtocol.v
PoolSafety.v
PoolClient.v
PoolTheorems.v
PoolCreate.v
MpmcLayout.v
MpmcQueue.v
MpmcApi.v
MpmcProgress.v
MpmcProtocol.v
MpmcSafety.v
MpmcSnapshot.v
MpmcSequential.v
MpmcClient.v
MpmcCreate.v
MpmcTheorems.v
MpmcBenchPayload.v
PoolBenchPayload.v
ToolCommon.v
ShmCtl.v
ShmCtlTheorems.v
MpmcBench.v
MpmcBenchTheorems.v
Failpoint.v
