(* ===== verification/Prelude.v ===== *)
(** EdgeRuntime (SelfIPCs) in Rocq.

    EdgeRuntime is a C++ library for processes on one machine that exchange data
    through shared memory without a server. This development models its channel, its
    queue, its buffer pool, the supervisor of producers and the layers below them,
    and proves that they do what they promise to processes that run concurrently and
    may crash at any point.

    * The program

    - [common], [utility]: error codes and [Result], checked 64-bit arithmetic, the
      FNV-1a checksum, randomness.
    - [sync]: atomics on mapped memory, futexes, clocks, and the owner protocol, by
      which a process that takes a lock word leaves its identity behind and others
      read it without tearing.
    - [process]: who a process is (pid, start time, boot id) and whether it is still
      alive; starting a child; the supervisor, which starts a producer's program,
      watches its channel and restarts it.
    - [transport]: shared-memory objects and their names; the broker that passes the
      descriptor of an unnamed segment over a socket.
    - [queue]: a bounded multi-producer multi-consumer queue of fixed-size messages.
      One gate (a lock word with an owner) per end, one state machine per slot.
    - [buffer]: a pool of large blocks; a block is written, published under a
      generation, read once and freed.
    - [channel]: a latest-value channel with one producer and one consumer: three
      slots, a ticket that names the latest sample, loans for both sides, a control
      lock with a journal for creation and removal, takeover from dead processes.

    - [tools], [examples]: the diagnostic tool [edge_shm_ctl], the benchmarks with their
      self-checking payloads, and a demonstration.

    The channel, the queue and the pool use everything below them and not each other;
    the supervisor looks at a channel through the read-only observer. The tools are clients
    of the library; [edge_shm_ctl] works on the objects and journals themselves.

    * How the code becomes Rocq

    A function that touches no shared memory is a Rocq function. A function that
    does is a [Prog.prog]: the tree of the atomic accesses and system calls it makes
    in the code's order, ending in the value it returns. C++ names are kept; a
    fallible function returns [Errors.Result]; an early return is a branch that
    ends; integers are [Z] with the wrap-around of their width written where the
    code relies on it. A segment is a function from locations to values: the
    locations are the fields and bytes of the ABI structures, and
    [mpmc_layout_sound] and [pool_layout_sound] show that this is faithful (no two
    locations overlap and all are mapped). The memory of the channel code
    ([ChannelSegment.chloc]) holds the objects under their device and inode, the
    bytes of the lock files, and the fields of handles that several threads use.

    A [prog] has two meanings. [Prog.run] executes it alone, with any model of the
    operating system ([SeqLogic.swp] reasons about it). [Concur.cstep] interleaves
    any number of threads of any number of processes, one access at a time, with
    every answer of the operating system possible; a thread that is never scheduled
    again has crashed there. [Concur.wp] is a rely-guarantee logic for it: the
    [Protocol] class is the contract between the users of one segment, and
    [client_reachable] and [client_past] turn per-operation proofs against the
    contract into facts about all reachable configurations. Two more readings of the
    tree need no memory at all: [Prog.leaves], what can be returned whatever is read
    and answered; [ChildTrace.lawful], which processes are signalled and waited for;
    and [SeqLogic.run_trace] and [BrokerTheorems.steps], the accesses and system calls of a
    run with their answers.

    A tool is a [ToolCommon.tool]: a [prog] that also prints lines and may end with an exit
    status. The workers of the benchmark are functions of what happens to them round by round.

    * The files

    - [Prelude]: machine integers, bytes, memories as functions, list lemmas.
      [ByteFields]: numbers and byte arrays at fixed offsets.
    - [Errors], [CheckedMath], [Checksum]: [common/error], [common/result],
      [utility/checked_math], [utility/checksum].
    - [Prog], [SeqLogic], [Concur]: programs, their semantics and logics;
      [sync/shared_atomic] and [sync/futex] are the primitive events.
    - [ProcIdentity], [OwnerSnapshot], [ShmObject], [Clock]:
      [process/process_identity], [sync/owner_snapshot], [transport/shm_object] with
      [utility/random], [sync/clock]. [ProcTheorems]: their theorems.
    - [ChannelLayout], [ChannelSegment], [SlotProtocol], [ChannelAbi], [ControlLock]:
      [channel/channel_layout], [channel/slot_protocol], [channel/channel_abi],
      [channel/control_lock]. [Producer], [ProducerCreate]: [channel/producer_impl];
      [Consumer], [ConsumerOpen]: [channel/consumer_impl]; the loans of
      [channel/loan.cpp] are with them. [FdBroker]: [transport/fd_broker];
      [Observer]: [channel/channel_observer].
    - [ChannelProtocol]: the contract of a channel and its history (the log of the
      samples, who has the use flags, what each consumer has read);
      [ChannelSteps]: the writes that keep it; [ConsumerSafety], [ConsumerOps],
      [ProducerSafety], [ProducerOps]: every operation keeps it; [ChannelClient],
      [ChannelHolds]: threads that call the operations and keep loans in variables;
      [ChannelTakeover]: a new process in the place of a dead consumer;
      [ChannelRuns], [ChannelTheorems], [ChannelProgress]: runs and theorems.
      [TypedChannel]: the templates [Producer] and [Consumer] over a class of codecs, with
      the codecs of the benchmark and of the demonstration as instances.
    - [ChannelFrames], [ChannelCreate]: what creating and opening write, and that they
      lead to the state a run starts from; [JournalTheorems]: the journal's bytes and
      checksum; [GenerationRestart]: recovery and the generation; [BrokerTheorems]: to
      whom the broker sends the descriptor.
    - [ProcessSpawn], [Supervisor]: [process/process_spawn], [LivenessWatch] and
      [process/supervisor_impl], one definition for each phase of the loop.
      [ChildTrace], [SupervisorSafety]: the child processes; [SupervisorPolicy]: the
      restart policy; [SupervisorExhaustion]: a run that should end and does not.
    - [PoolLayout], [SharedBufferPool]: [buffer/shared_buffer_pool_layout.hpp] and
      [buffer/shared_buffer_pool.cpp]. [PoolProtocol]: the contract of a pool;
      [PoolSafety]: every operation keeps it; [PoolClient]: threads that call the
      operations on buffers they keep in variables; [PoolTheorems], [PoolCreate]:
      the theorems.
    - [MpmcLayout], [MpmcQueue], [MpmcApi]: [queue/mpmc_layout.hpp] and
      [queue/mpmc_queue.cpp]. [MpmcProgress]: bounds and waiting; [MpmcProtocol],
      [MpmcSafety], [MpmcSnapshot]: contract and operations; [MpmcSequential]: one
      user at a time; [MpmcClient], [MpmcCreate], [MpmcTheorems]: the theorems.
    - [MpmcBenchPayload], [PoolBenchPayload]: the payloads of the two benchmarks.
      [ToolCommon], [ShmCtl]: [tool_common.hpp] and [edge_shm_ctl.cpp]; [ShmCtlTheorems]: what
      [remove] may remove. [MpmcBench]: the reports, the workers and the verdict of
      [edge_mpmc_bench.cpp]; [MpmcBenchTheorems]: what the verdict means.
    - [Failpoint]: [utility/failpoint] and the trace of [sync/futex], which only builds for
      fault injection have.

    * What is proved

    Channel, any interleaving and any crash: the segment is always well formed
    ([channel_well_formed]); nothing torn is read ([channel_read_untorn]);
    publications have their own numbers ([channel_publish_once]); the account of
    missed samples is exact ([channel_missed_exact]); reads are fresh
    ([channel_read_fresh]); calls fail only for a reason, and the producer always
    finds a slot ([channel_errors_justified]). The operations that do not wait are
    wait-free, commit and abort of a write loan on POSIX shared memory only
    ([channel_wait_free]). A dead consumer that had finished its opening is replaced
    ([channel_crash_recovery]) unless it died between the two stores of a release, which
    can happen; one that died while it wrote its identity blocks later openings. Values come through typed handles unchanged ([typed_channel_roundtrip]).

    Around the channel, whatever the kernel answers: creating and opening a channel lead
    to a state from which all this holds ([channel_create_open]); the journal gives back
    what was written and detects every damaged byte ([journal_durable]); the broker
    gives the descriptor only to a process of the same user that asked for this channel,
    with its schema or with none, while it was ready ([broker_descriptor_guarded]). After a creator died before it had
    an object, generations that were in use come again, counted from the old generation of
    the record or from the object found under the name ([generation_restarts]).

    Supervisor, whatever the kernel, the channel and the child do: it signals and
    waits for its own child and nothing else, unless it is run again after a run that
    failed and left its child ([supervisor_signals_own_child]); it
    keeps to its limits and its results mean what they say ([supervisor_policy]);
    its delay is the capped power of the options ([backoff_delay_exact]). Starts
    that fail after a stable child are not counted ([failed_starts_never_exhaust]).

    Queue, any interleaving and any crash: one global first-in first-out sequence of
    messages ([mpmc_fifo]), nothing lost, duplicated or altered
    ([mpmc_conservation], [mpmc_order]); observers never see a torn owner or
    inconsistent positions ([mpmc_owner_untorn], [mpmc_positions_consistent]).
    Progress: the try operations are wait-free and the waiting ones return at their
    deadline ([mpmc_progress]). Alone, the queue refines a
    bounded list, error results included ([mpmc_sequential_refinement]). Creation leaves an empty queue that
    [open] accepts, a corrupted header is refused, only the creator removes
    ([mpmc_create_fresh], [mpmc_corrupt_header_refused], [mpmc_remove_only_creator]).

    Pool, any interleaving and any crash: a reader sees the bytes that were
    published under its descriptor ([pool_reader_sees_publication]), a publication
    is read at most once and a descriptor never names two publications
    ([pool_read_once]), a buffer is the exclusive right to its block
    ([pool_exclusive]); and creation, opening, corruption and removal as for the
    queue ([pool_create_fresh], [pool_corrupt_header_refused], [pool_remove_guarded]).

    Tools: [edge_shm_ctl remove] takes away no channel in service and only what the caller
    expected ([ctl_remove_guarded]); the benchmarks' messages detect every changed byte
    ([bench_payloads_self_check]), and the queue's benchmark passes exactly when every message
    was delivered once and the 64-bit sum of the errors is 0, which for reports of the workers
    is that nothing failed ([mpmc_bench_verdict]); a failpoint fires at its count and the
    futex trace, used by any number of threads, accounts for every event ([injection_exact]).

    Below: layouts ([mpmc_layout_sound], [pool_layout_sound]), arithmetic
    ([checked_math_exact]), error names ([error_names_one_to_one]), tickets
    ([ticket_roundtrip]), names ([channel_name_safe]), start times
    ([stat_starttime_robust]), liveness ([probe_liveness_verdict]) and checked
    unlinking ([shm_unlink_checked_spec]).

    * Assumptions and bounds

    - Memory is sequentially consistent: acquire, release and relaxed accesses are
      the same event as sequentially consistent ones, and plain accesses to the
      payload are atomic per byte. Reorderings that C++ allows for weaker orders are
      not covered.
    - The release build is modelled: failpoints are empty, except in [Failpoint]. Closing descriptors and
      unmapping at the end of a scope is left out; it does not touch the segment.
      The text of [strerror] is empty.
    - A header field that does not change after creation is loaded once where the
      code reads it again through the pointer.
    - The operating system is arbitrary. Where a theorem needs it to answer in a
      certain way ([probe_liveness_verdict], [shm_unlink_checked_spec],
      [ctl_remove_guarded]) the documented answers are a hypothesis, with a concrete kernel as
      witness. [names_kernel] is what the calls about names promise, whichever of them fail,
      when no other process changes the names meanwhile; [names_answer] is such a kernel on
      which none fails and the objects are the user's.
      [lawful] assumes of the kernel that a process it starts has a positive number
      and that waiting for a child, when it does not fail, answers its number, or 0
      without blocking.
    - Fuel: [random_bytes] makes at most [kRandomFuel] rounds, and running out is the
      failure the code reports when [getrandom] fails; whole reads and writes through
      a descriptor make at most [kIoFuel] rounds, more than a record has bytes. The
      waiting loops of the queue have a fuel argument; [mpmc_progress] says
      how much is enough. The waiting loops of the
      channel, the loops of the broker and the rounds of the supervisor have one too,
      and running out is a result of its own or, in the broker, the result of its
      deadline; the theorems hold for every amount. Everything else recurses on its
      data.
    - [kSeqOps], 2^60 calls, bounds the sequential refinement so that the owner
      epochs, 64-bit counters that grow by two per operation, do not run out. The
      concurrent theorems have no such bound.
    - In the theorems about the pool's users, every thread has its own handle and its
      own buffer variables; a thread may hold any number of buffers and pass any
      descriptor. Exclusivity is stated for threads between calls.
    - In the theorems about the channel's users there is one producer handle and, at
      a time, one consumer handle, each used by any number of threads. A run starts
      with a channel just created and opened, as [channel_create_open] says. When the consumer's process is gone, a
      thread of another one runs [replace_dead_consumer], under the control lock that
      keeps two processes from doing so at once; the use flag of the dead process counts as
      taken. That is what [open_locked] runs ([take_consumer_place]) once it has found the
      recorded identity valid, the state active and the process gone
      ([ChannelTakeover.take_place_replaces]); these three tests read and probe only, and the
      runs begin after them.
    - The supervisor's handle is used by the thread that runs it; the fields that
      [request_stop] shares with it are memory. The mutex around the stop descriptor
      is left out. Calls of the event callback are a log in the handle.

    * Not modelled

    The tools that run a producer, a consumer or a supervisor, the other benchmarks, the crash
    matrix and the flows of the examples: they start processes, handle signals, sleep, print
    and measure around the library. Of the queue's benchmark, the starting and reaping of the
    children and the output of tables. Of the codecs, the checks at compile time other than
    the size. The lines of the futex trace are their lengths, and its counters are updated
    one event after the other.
    Modelled without a theorem of their own so far: the client's side of the broker,
    the observer's statistics, reconnecting, what [inspect] prints. *)
From stdpp Require Export prelude strings.

#[global] Open Scope Z_scope.

(** * Machine integers *)

(** The fixed-width unsigned integers of the shared-memory ABI are modelled as
    [Z] with their wrap-around written out. *)
Definition UINT64_MAX : Z := 18446744073709551615.
Definition UINT32_MAX : Z := 4294967295.
Definition INT32_MAX : Z := 2147483647.
Definition INT64_MAX : Z := 9223372036854775807.

Definition u64 (z : Z) : Z := z mod 18446744073709551616.
Definition u32 (z : Z) : Z := z mod 4294967296.
Definition u8 (z : Z) : Z := z mod 256.

(** [is_u64 z], [is_u32 z]: [z] is a value of the type. *)
Definition is_u64 (z : Z) : Prop := 0 <= z <= UINT64_MAX.
Definition is_u32 (z : Z) : Prop := 0 <= z <= UINT32_MAX.
Definition is_byte (z : Z) : Prop := 0 <= z < 256.

#[global] Hint Unfold is_u64 is_u32 is_byte UINT64_MAX UINT32_MAX INT32_MAX
  INT64_MAX : machine.

(** [mlia]: [lia] after unfolding the width constants. *)
Ltac mlia := autounfold with machine in *; lia.

Lemma u64_small z : is_u64 z -> u64 z = z.
Proof. unfold u64. intros. apply Z.mod_small. mlia. Qed.

Lemma u64_range z : is_u64 (u64 z).
Proof.
  unfold u64. pose proof (Z.mod_pos_bound z 18446744073709551616). mlia.
Qed.

Lemma u32_small z : is_u32 z -> u32 z = z.
Proof. unfold u32. intros. apply Z.mod_small. mlia. Qed.

Lemma u32_range z : is_u32 (u32 z).
Proof. unfold u32. pose proof (Z.mod_pos_bound z 4294967296). mlia. Qed.

Create HintDb machine_db.
#[global] Hint Resolve u64_range u32_range : machine_db.
#[global] Hint Rewrite u64_small u32_small using mlia : machine.

(** * Arithmetic modulo the ring capacity *)

(** Two tickets less than one lap apart never share a ring slot. *)
Lemma ring_slot_inj n a b :
  0 < n -> a mod n = b mod n -> - n < a - b < n -> a = b.
Proof.
  intros Hn Hab Hlap.
  pose proof (Z.div_mod a n ltac:(lia)). pose proof (Z.div_mod b n ltac:(lia)).
  assert (a / n = b / n) by nia. nia.
Qed.

Lemma ring_slot_next_lap n a : 0 < n -> (a + n) mod n = a mod n.
Proof. intros. rewrite <- (Z.mul_1_l n) at 1. apply Z_mod_plus_full. Qed.

(** * Words as little-endian bytes *)

(** The [n] low bytes of [z], least significant first: the object representation
    of an unsigned integer on the little-endian targets the ABI is fixed for
    ([kMpmcEndianMarker] and its siblings reject any other). *)
Fixpoint le_bytes (n : nat) (z : Z) : list Z :=
  match n with
  | O => []
  | S n' => z mod 256 :: le_bytes n' (z / 256)
  end.

Fixpoint le_value (bs : list Z) : Z :=
  match bs with
  | [] => 0
  | b :: bs' => b + 256 * le_value bs'
  end.

Lemma le_bytes_length n z : length (le_bytes n z) = n.
Proof. revert z. induction n; intros; simpl; auto. Qed.

Lemma le_bytes_are_bytes n z : Forall is_byte (le_bytes n z).
Proof.
  revert z. induction n; intros; simpl; constructor; auto.
  pose proof (Z.mod_pos_bound z 256). unfold is_byte. lia.
Qed.

Lemma le_value_bytes n z :
  0 <= z < 256 ^ Z.of_nat n -> le_value (le_bytes n z) = z.
Proof.
  revert z. induction n as [|n IH]; intros z Hz; simpl.
  - simpl in Hz. lia.
  - rewrite Nat2Z.inj_succ, Z.pow_succ_r in Hz by lia.
    rewrite IH.
    + pose proof (Z.div_mod z 256). lia.
    + split; [apply Z.div_pos; lia | apply Z.div_lt_upper_bound; lia].
Qed.

Lemma le_bytes_inj n a b :
  0 <= a < 256 ^ Z.of_nat n -> 0 <= b < 256 ^ Z.of_nat n ->
  le_bytes n a = le_bytes n b -> a = b.
Proof.
  intros Ha Hb H. rewrite <- (le_value_bytes n a), <- (le_value_bytes n b) by done.
  by rewrite H.
Qed.

(** * Total maps *)

(** A memory is a total map from locations; [upd] writes one location. *)
Definition upd `{EqDecision K} {V} (k : K) (v : V) (m : K -> V) : K -> V :=
  fun k' => if decide (k' = k) then v else m k'.

Section upd_lemmas.
Context `{EqDecision K} {V : Type}.
Implicit Types (m : K -> V) (k : K).

Lemma upd_eq k v m : upd k v m k = v.
Proof. unfold upd. by rewrite decide_True. Qed.

Lemma upd_ne k k' v m : k' <> k -> upd k v m k' = m k'.
Proof. intros. unfold upd. by rewrite decide_False. Qed.

Lemma upd_same k m k' : upd k (m k) m k' = m k'.
Proof. unfold upd. by case_decide; subst. Qed.
End upd_lemmas.

(** * Lists *)

Section list_lemmas.
Context {A : Type}.
Implicit Types l : list A.

Lemma prefix_lookup l1 l2 i x :
  l1 `prefix_of` l2 -> l1 !! i = Some x -> l2 !! i = Some x.
Proof. intros [k ->] H. by apply lookup_app_l_Some. Qed.

Lemma prefix_length_eq l1 l2 :
  l1 `prefix_of` l2 -> length l2 = length l1 -> l2 = l1.
Proof.
  intros [k ->] H. rewrite length_app in H.
  destruct k; simpl in *; [by rewrite app_nil_r | lia].
Qed.
End list_lemmas.

Lemma zip_prefix {A B} (l : list A) (k1 k2 : list B) :
  (length l <= length k1)%nat -> k1 `prefix_of` k2 -> zip l k1 = zip l k2.
Proof.
  intros Hl [k ->]. revert k1 Hl. induction l as [|x l IH]; intros [|y k1] Hl;
    simpl in *; try done; try lia.
  f_equal. apply IH. lia.
Qed.

Lemma zip_snoc {A B} (l : list A) (k : list B) x y :
  k !! length l = Some y -> zip (l ++ [x]) k = zip l k ++ [(x, y)].
Proof.
  revert k. induction l as [|z l IH]; intros [|w k] H; simpl in *; try done.
  - by simplify_eq.
  - f_equal. by apply IH.
Qed.

(** * Proof automation shared by the components *)

(** [deex]: open the existentials and conjunctions of the context. *)
Ltac deex :=
  repeat match goal with
  | H : _ /\ _ |- _ => destruct H
  | H : exists _, _ |- _ => destruct H
  end.

(** [bdestr b]: case analysis on a boolean comparison with the comparison as an
    arithmetic fact. *)
Ltac bprop :=
  repeat match goal with
  | H : (_ && _)%bool = true |- _ => apply andb_true_iff in H; destruct H
  | H : (_ && _)%bool = false |- _ => apply andb_false_iff in H
  | H : (_ || _)%bool = true |- _ => apply orb_true_iff in H
  | H : (_ || _)%bool = false |- _ => apply orb_false_iff in H; destruct H
  | H : negb _ = true |- _ => apply negb_true_iff in H
  | H : negb _ = false |- _ => apply negb_false_iff in H
  | H : (_ =? _) = true |- _ => apply Z.eqb_eq in H
  | H : (_ =? _) = false |- _ => apply Z.eqb_neq in H
  | H : (_ <=? _) = true |- _ => apply Z.leb_le in H
  | H : (_ <=? _) = false |- _ => apply Z.leb_gt in H
  | H : (_ <? _) = true |- _ => apply Z.ltb_lt in H
  | H : (_ <? _) = false |- _ => apply Z.ltb_ge in H
  end.

Tactic Notation "bdestr" constr(b) :=
  let E := fresh "E" in destruct b eqn:E; bprop.

(** * Byte ranges *)

(** An offset and a width. *)
Definition ranges_disjoint (a b : Z * Z) : Prop := a.1 + a.2 <= b.1 \/ b.1 + b.2 <= a.1.

#[global] Instance ranges_disjoint_dec a b : Decision (ranges_disjoint a b).
Proof. unfold ranges_disjoint. apply _. Defined.
