(* ===== verification/ByteFields.v ===== *)
(** Fields in a sequence of bytes: the little-endian numbers and the byte arrays that a
    structure of the ABI has at fixed offsets. *)
From S2P Require Import Prelude.

(** [width] bytes at [offset], as a number and as bytes. *)
Definition field_at (bs : list Z) (offset width : nat) : Z := le_value (take width (drop offset bs)).
Definition bytes_at (bs : list Z) (offset width : nat) : list Z := take width (drop offset bs).

Lemma bytes_at_skip a b offset width :
  (length a <= offset)%nat -> bytes_at (a ++ b) offset width = bytes_at b (offset - length a) width.
Proof. intros H. unfold bytes_at. by rewrite drop_app_ge. Qed.
Lemma field_at_skip a b offset width :
  (length a <= offset)%nat -> field_at (a ++ b) offset width = field_at b (offset - length a) width.
Proof. intros H. unfold field_at. by rewrite drop_app_ge. Qed.
Lemma bytes_at_here a b width : length a = width -> bytes_at (a ++ b) 0 width = a.
Proof. intros <-. unfold bytes_at. by rewrite drop_0, take_app_length. Qed.
Lemma bytes_at_all a width : length a = width -> bytes_at a 0 width = a.
Proof. intros <-. unfold bytes_at. by rewrite drop_0, firstn_all. Qed.
Lemma field_at_here n z b :
  0 <= z < 256 ^ Z.of_nat n -> field_at (le_bytes n z ++ b) 0 n = z.
Proof.
  intros Hz. unfold field_at. rewrite drop_0, take_app_length' by by rewrite le_bytes_length.
  by apply le_value_bytes.
Qed.

Ltac seek := repeat first
  [ rewrite field_at_skip by (rewrite ?le_bytes_length; lia)
  | rewrite bytes_at_skip by (rewrite ?le_bytes_length; lia) ];
  rewrite ?le_bytes_length.

(** The other way round: the bytes of a value that was read from bytes. *)
Lemma le_value_of_bytes bs : Forall is_byte bs -> le_bytes (length bs) (le_value bs) = bs.
Proof.
  induction 1 as [|b bs Hb Hbs IH]; [done|]. cbn [length le_value le_bytes]. f_equal.
  - rewrite (Z.mul_comm 256), Z.mod_add by lia. apply Z.mod_small. unfold is_byte in Hb. lia.
  - rewrite (Z.mul_comm 256), Z.div_add by lia. rewrite Z.div_small by (unfold is_byte in Hb; lia).
    exact IH.
Qed.

Lemma le_value_inj a b :
  Forall is_byte a -> Forall is_byte b -> length a = length b -> le_value a = le_value b -> a = b.
Proof.
  intros Ha Hb Hl He. rewrite <- (le_value_of_bytes a), <- (le_value_of_bytes b) by done. congruence.
Qed.

Lemma field_bytes bs offset width :
  Forall is_byte bs -> (offset + width <= length bs)%nat ->
  le_bytes width (field_at bs offset width) = bytes_at bs offset width.
Proof.
  intros Hb Hl. unfold field_at, bytes_at.
  assert (length (take width (drop offset bs)) = width) as Hw by (rewrite length_take, length_drop; lia).
  rewrite <- Hw at 1. apply le_value_of_bytes. by apply Forall_take, Forall_drop.
Qed.

Lemma bytes_at_split bs offset w1 w2 :
  bytes_at bs offset w1 ++ bytes_at bs (offset + w1) w2 = bytes_at bs offset (w1 + w2).
Proof. unfold bytes_at. by rewrite <- take_take_drop, drop_drop. Qed.
