(* ===== verification/Errors.v ===== *)
(** Errors and results: [include/edge_runtime/common/error.hpp],
    [include/edge_runtime/common/result.hpp] and
    [src/edge_runtime/common/error.cpp].

    [ErrorCode] is the frozen enum, [Error] the fixed-size error payload,
    [Result] the value-or-error wrapper every operation of the library returns.
    The lemmas show that the code table is a bijection onto [0, 37] and that the
    name table is injective, so a code printed by a tool identifies the error. *)
From S2P Require Import Prelude.

Inductive ErrorCode : Type :=
| kInvalidName
| kInvalidOptions
| kNotFound
| kPermissionDenied
| kAlreadyOwned
| kConsumerAlreadyOwned
| kInitializationIncomplete
| kCorruptHeader
| kAbiMismatch
| kSchemaMismatch
| kUnsupportedPlatform
| kNoNewSample
| kNoWritableSlot
| kReadContention
| kTimeout
| kDataStale
| kProducerOffline
| kRecoveryBlocked
| kStaleHandle
| kPayloadCorrupt
| kPayloadEncodeFailed
| kPayloadDecodeFailed
| kCorruptSlot
| kNameRaceDetected
| kClockAnomaly
| kSequenceExhausted
| kConcurrentHandleUse
| kSystemError
| kProducerStalled
| kTransportFailed
| kSupervisionExhausted
| kQueueFull
| kQueueEmpty
| kQueueContention
| kBufferPoolFull
| kBufferPoolContention
| kBufferInvalidHandle
| kBufferStateMismatch.

#[global] Instance ErrorCode_eq_dec : EqDecision ErrorCode.
Proof. solve_decision. Defined.

(** The table [kErrorNames], indexed by the enum's value. *)
Definition kErrorNames : list string :=
  [ "InvalidName"; "InvalidOptions"; "NotFound"; "PermissionDenied";
    "AlreadyOwned"; "ConsumerAlreadyOwned"; "InitializationIncomplete";
    "CorruptHeader"; "AbiMismatch"; "SchemaMismatch"; "UnsupportedPlatform";
    "NoNewSample"; "NoWritableSlot"; "ReadContention"; "Timeout"; "DataStale";
    "ProducerOffline"; "RecoveryBlocked"; "StaleHandle"; "PayloadCorrupt";
    "PayloadEncodeFailed"; "PayloadDecodeFailed"; "CorruptSlot";
    "NameRaceDetected"; "ClockAnomaly"; "SequenceExhausted";
    "ConcurrentHandleUse"; "SystemError"; "ProducerStalled"; "TransportFailed";
    "SupervisionExhausted"; "QueueFull"; "QueueEmpty"; "QueueContention";
    "BufferPoolFull"; "BufferPoolContention"; "BufferInvalidHandle";
    "BufferStateMismatch" ]%string.

(** [static_cast<uint32_t>(code)]: the enumerators count up from zero. *)
Definition error_value (c : ErrorCode) : Z :=
  match c with
  | kInvalidName => 0 | kInvalidOptions => 1 | kNotFound => 2
  | kPermissionDenied => 3 | kAlreadyOwned => 4 | kConsumerAlreadyOwned => 5
  | kInitializationIncomplete => 6 | kCorruptHeader => 7 | kAbiMismatch => 8
  | kSchemaMismatch => 9 | kUnsupportedPlatform => 10 | kNoNewSample => 11
  | kNoWritableSlot => 12 | kReadContention => 13 | kTimeout => 14
  | kDataStale => 15 | kProducerOffline => 16 | kRecoveryBlocked => 17
  | kStaleHandle => 18 | kPayloadCorrupt => 19 | kPayloadEncodeFailed => 20
  | kPayloadDecodeFailed => 21 | kCorruptSlot => 22 | kNameRaceDetected => 23
  | kClockAnomaly => 24 | kSequenceExhausted => 25 | kConcurrentHandleUse => 26
  | kSystemError => 27 | kProducerStalled => 28 | kTransportFailed => 29
  | kSupervisionExhausted => 30 | kQueueFull => 31 | kQueueEmpty => 32
  | kQueueContention => 33 | kBufferPoolFull => 34 | kBufferPoolContention => 35
  | kBufferInvalidHandle => 36 | kBufferStateMismatch => 37
  end.

(** [to_string] on the raw 32-bit value an [ErrorCode] object holds, which may
    be outside the enumerators. *)
Definition to_string_value (index : Z) : string :=
  if error_value kBufferStateMismatch <? index then "UnknownError"%string
  else default "UnknownError"%string (kErrorNames !! Z.to_nat index).

Definition to_string (c : ErrorCode) : string := to_string_value (error_value c).

(** The errno values the code distinguishes (Linux). *)
Definition EPERM : Z := 1.
Definition ENOENT : Z := 2.
Definition ESRCH : Z := 3.
Definition EINTR : Z := 4.
Definition EAGAIN : Z := 11.
Definition EACCES : Z := 13.
Definition EEXIST : Z := 17.
Definition ETIMEDOUT : Z := 110.

Definition classify_errno (errno_value : Z) : ErrorCode :=
  if errno_value =? ENOENT then kNotFound
  else if errno_value =? EEXIST then kAlreadyOwned
  else if (errno_value =? EACCES) || (errno_value =? EPERM) then kPermissionDenied
  else kSystemError.

(** [operation] is a static C string, [context] a 64-byte buffer filled by
    [snprintf], so it keeps at most 63 characters. *)
Record Error : Type := mkError {
  err_code : ErrorCode;
  err_errno : Z;
  err_operation : string;
  err_context : string
}.

Definition snprintf_context (ctx : string) : string := String.substring 0 63 ctx.

Definition make_error (c : ErrorCode) (op ctx : string) : Error :=
  mkError c 0 op (snprintf_context ctx).

Definition make_errno_error (saved_errno : Z) (op ctx : string) : Error :=
  mkError (classify_errno saved_errno) saved_errno op (snprintf_context ctx).

Definition make_errno_error_as (c : ErrorCode) (saved_errno : Z)
    (op ctx : string) : Error :=
  mkError c saved_errno op (snprintf_context ctx).

Inductive Result (A : Type) : Type :=
| Ok (a : A)
| Err (e : Error).
Arguments Ok {A} a.
Arguments Err {A} e.

Definition has_value {A} (r : Result A) : bool :=
  match r with Ok _ => true | Err _ => false end.

(** The error code of a result, when it is one. *)
Definition result_code {A} (r : Result A) : option ErrorCode :=
  match r with Ok _ => None | Err e => Some (err_code e) end.

(** * Facts *)

Lemma error_value_range c : 0 <= error_value c <= 37.
Proof. destruct c; simpl; lia. Qed.

(** The enumerators in declaration order. *)
Definition all_error_codes : list ErrorCode :=
  [ kInvalidName; kInvalidOptions; kNotFound; kPermissionDenied; kAlreadyOwned;
    kConsumerAlreadyOwned; kInitializationIncomplete; kCorruptHeader;
    kAbiMismatch; kSchemaMismatch; kUnsupportedPlatform; kNoNewSample;
    kNoWritableSlot; kReadContention; kTimeout; kDataStale; kProducerOffline;
    kRecoveryBlocked; kStaleHandle; kPayloadCorrupt; kPayloadEncodeFailed;
    kPayloadDecodeFailed; kCorruptSlot; kNameRaceDetected; kClockAnomaly;
    kSequenceExhausted; kConcurrentHandleUse; kSystemError; kProducerStalled;
    kTransportFailed; kSupervisionExhausted; kQueueFull; kQueueEmpty;
    kQueueContention; kBufferPoolFull; kBufferPoolContention;
    kBufferInvalidHandle; kBufferStateMismatch ].

Lemma all_error_codes_lookup c :
  all_error_codes !! Z.to_nat (error_value c) = Some c.
Proof. by destruct c. Qed.

Lemma error_value_inj : Inj (=) (=) error_value.
Proof.
  intros c1 c2 H. pose proof (all_error_codes_lookup c1) as H1.
  rewrite H, all_error_codes_lookup in H1. congruence.
Qed.

Lemma kErrorNames_NoDup : NoDup kErrorNames.
Proof. apply (bool_decide_unpack _). by vm_compute. Qed.

Lemma to_string_lookup c :
  kErrorNames !! Z.to_nat (error_value c) = Some (to_string c).
Proof. by destruct c. Qed.

Lemma to_string_inj : Inj (=) (=) to_string.
Proof.
  intros c1 c2 H. apply error_value_inj.
  pose proof (to_string_lookup c1) as H1. rewrite H in H1.
  pose proof (NoDup_lookup _ _ _ _ kErrorNames_NoDup H1 (to_string_lookup c2)).
  pose proof (error_value_range c1). pose proof (error_value_range c2). lia.
Qed.

(** Every errno but the four the runtime singles out becomes [kSystemError]. *)
Lemma classify_errno_system e :
  classify_errno e = kSystemError <->
  e <> ENOENT /\ e <> EEXIST /\ e <> EACCES /\ e <> EPERM.
Proof.
  unfold classify_errno, ENOENT, EEXIST, EACCES, EPERM.
  repeat (case_match; bprop); intuition (try lia; try discriminate).
Qed.

(** Error codes and their names correspond one to one: the table has one
    name per enumerator, at the enumerator's value, no two codes print alike, and
    a value outside the enumeration prints the fallback instead of reading past
    the table. *)
Theorem error_names_one_to_one :
  length kErrorNames = length all_error_codes /\
  (forall c, kErrorNames !! Z.to_nat (error_value c) = Some (to_string c)) /\
  (forall c c', to_string c = to_string c' -> c = c') /\
  (forall v, ~ (exists c, error_value c = v) -> 0 <= v ->
     forall c, to_string_value v <> to_string c).
Proof.
  split; [done|]. split; [apply to_string_lookup|]. split; [intros c c'; apply to_string_inj|].
  intros v Hv Hpos c. unfold to_string_value. case_match eqn:E.
  - by destruct c.
  - intros Heq. apply Hv.
    assert (exists c', all_error_codes !! Z.to_nat v = Some c') as [c' Hc'].
    { apply lookup_lt_is_Some_2. bprop. simpl in *. lia. }
    exists c'. clear -Hc' Hpos. pose proof (all_error_codes_lookup c') as H'.
    assert (NoDup all_error_codes) as Hnd by (apply (bool_decide_unpack _); by vm_compute).
    pose proof (NoDup_lookup _ _ _ _ Hnd H' Hc') as He. pose proof (error_value_range c'). lia.
Qed.
