(* ===== verification/CheckedMath.v ===== *)
(** Overflow-checked arithmetic: [src/edge_runtime/utility/checked_math.hpp].

    A C++ function that returns [bool] and writes an out-parameter is an
    [option]; the additions, products and differences are taken modulo [2^64] as
    the code computes them, and the lemmas show that the guards make the
    wrap-around unreachable. *)
From S2P Require Import Prelude.

Definition checked_add_u64 (a b : Z) : option Z :=
  if u64 (UINT64_MAX - a) <? b then None else Some (u64 (a + b)).

Definition checked_mul_u64 (a b : Z) : option Z :=
  if negb (a =? 0) && (UINT64_MAX / a <? b) then None else Some (u64 (a * b)).

Definition saturating_mul_u64 (a b : Z) : Z :=
  match checked_mul_u64 a b with Some out => out | None => UINT64_MAX end.

Definition elapsed_exceeds (now then_ limit : Z) : bool :=
  (then_ <=? now) && (limit <? u64 (now - then_)).

Definition round_up_to_multiple_u64 (v align : Z) : option Z :=
  if align =? 0 then None
  else
    let rem := v mod align in
    if rem =? 0 then Some v
    else
      let delta := u64 (align - rem) in
      if u64 (UINT64_MAX - delta) <? v then None else Some (u64 (v + delta)).

(** * Specifications *)

(** The checked sum is the exact sum, and it is refused exactly on overflow. *)
Lemma checked_add_u64_spec a b :
  is_u64 a -> is_u64 b ->
  checked_add_u64 a b = if decide (a + b <= UINT64_MAX) then Some (a + b) else None.
Proof.
  intros Ha Hb. unfold checked_add_u64.
  rewrite (u64_small (_ - _)) by mlia.
  case_decide; bdestr (UINT64_MAX - a <? b); try mlia; try done.
  by rewrite u64_small by mlia.
Qed.

Lemma checked_add_u64_Some a b c :
  is_u64 a -> is_u64 b -> checked_add_u64 a b = Some c ->
  c = a + b /\ a + b <= UINT64_MAX.
Proof.
  intros Ha Hb. rewrite checked_add_u64_spec by done. case_decide; naive_solver.
Qed.

Lemma checked_add_u64_ok a b :
  is_u64 a -> is_u64 b -> a + b <= UINT64_MAX -> checked_add_u64 a b = Some (a + b).
Proof. intros. rewrite checked_add_u64_spec by done. by rewrite decide_True. Qed.

Lemma checked_mul_u64_spec a b :
  is_u64 a -> is_u64 b ->
  checked_mul_u64 a b = if decide (a * b <= UINT64_MAX) then Some (a * b) else None.
Proof.
  intros Ha Hb. unfold checked_mul_u64.
  destruct (decide (a = 0)) as [->|Hz].
  - rewrite decide_True by mlia. simpl. by rewrite u64_small by mlia.
  - replace (negb (a =? 0)) with true by (symmetry; apply negb_true_iff, Z.eqb_neq, Hz).
    simpl. case_decide as Hle; bdestr (UINT64_MAX / a <? b); try done.
    + assert (b <= UINT64_MAX / a) by (apply Z.div_le_lower_bound; mlia). mlia.
    + f_equal. apply u64_small. mlia.
    + assert (a * b <= UINT64_MAX); [|lia].
      transitivity (a * (UINT64_MAX / a)); [|apply Z.mul_div_le; mlia].
      apply Z.mul_le_mono_nonneg_l; mlia.
Qed.

Lemma checked_mul_u64_ok a b :
  is_u64 a -> is_u64 b -> a * b <= UINT64_MAX -> checked_mul_u64 a b = Some (a * b).
Proof. intros. rewrite checked_mul_u64_spec by done. by rewrite decide_True. Qed.

Lemma saturating_mul_u64_spec a b :
  is_u64 a -> is_u64 b -> saturating_mul_u64 a b = Z.min (a * b) UINT64_MAX.
Proof.
  intros. unfold saturating_mul_u64. rewrite checked_mul_u64_spec by done.
  case_decide; lia.
Qed.

Lemma elapsed_exceeds_spec now then_ limit :
  is_u64 now -> is_u64 then_ ->
  elapsed_exceeds now then_ limit = bool_decide (then_ + limit < now /\ then_ <= now).
Proof.
  intros. unfold elapsed_exceeds.
  bdestr (then_ <=? now); simpl.
  - rewrite u64_small by mlia.
    bdestr (limit <? now - then_); symmetry;
      [apply bool_decide_eq_true | apply bool_decide_eq_false]; lia.
  - symmetry. apply bool_decide_eq_false. lia.
Qed.

(** Rounding up gives the least multiple of [align] that is not below [v]. *)
Lemma round_up_Some v align r :
  is_u64 v -> 0 < align <= UINT64_MAX ->
  round_up_to_multiple_u64 v align = Some r ->
  v <= r < v + align /\ r mod align = 0 /\ r <= UINT64_MAX.
Proof.
  intros Hv Ha. unfold round_up_to_multiple_u64.
  pose proof (Z.mod_pos_bound v align ltac:(lia)) as Hm.
  bdestr (align =? 0); [mlia|]. bdestr (v mod align =? 0).
  - intros [= <-]. repeat split; mlia.
  - rewrite (u64_small (align - _)) by mlia. rewrite (u64_small (_ - _)) by mlia.
    bdestr (UINT64_MAX - (align - v mod align) <? v); [done|].
    intros [= <-]. rewrite u64_small by mlia.
    split; [lia|]. split; [|lia].
    rewrite (Z.div_mod v align) at 1 by lia.
    replace (align * (v / align) + v mod align + (align - v mod align))
      with ((v / align + 1) * align) by ring.
    apply Z_mod_mult.
Qed.

Lemma round_up_ok v align :
  is_u64 v -> 0 < align <= UINT64_MAX -> v + align <= UINT64_MAX ->
  exists r, round_up_to_multiple_u64 v align = Some r.
Proof.
  intros Hv Ha Hsum. unfold round_up_to_multiple_u64.
  pose proof (Z.mod_pos_bound v align ltac:(lia)) as Hm.
  bdestr (align =? 0); [mlia|]. bdestr (v mod align =? 0); [eauto|].
  rewrite (u64_small (align - _)) by mlia. rewrite (u64_small (_ - _)) by mlia.
  bdestr (UINT64_MAX - (align - v mod align) <? v); [mlia|eauto].
Qed.

(** The 64-bit arithmetic of the library is exact or refuses. For all 64-bit
    operands, the checked sum and product are the mathematical ones and are
    refused exactly when they do not fit; the saturating product is the product
    or the maximum; a rounding that succeeds is the least multiple not below the
    value; and [elapsed_exceeds] is not fooled by a clock that went backwards. *)
Theorem checked_math_exact a b limit align r :
  is_u64 a -> is_u64 b -> 0 < align <= UINT64_MAX ->
  checked_add_u64 a b = (if decide (a + b <= UINT64_MAX) then Some (a + b) else None) /\
  checked_mul_u64 a b = (if decide (a * b <= UINT64_MAX) then Some (a * b) else None) /\
  saturating_mul_u64 a b = Z.min (a * b) UINT64_MAX /\
  elapsed_exceeds a b limit = bool_decide (b + limit < a /\ b <= a) /\
  (round_up_to_multiple_u64 a align = Some r ->
     a <= r < a + align /\ r mod align = 0 /\ r <= UINT64_MAX).
Proof.
  intros Ha Hb Hal. split; [by apply checked_add_u64_spec|].
  split; [by apply checked_mul_u64_spec|]. split; [by apply saturating_mul_u64_spec|].
  split; [by apply elapsed_exceeds_spec|]. by apply round_up_Some.
Qed.

Lemma checked_math_exact_witness :
  checked_mul_u64 4294967296 4294967296 = None /\ round_up_to_multiple_u64 65 64 = Some 128 /\
  65 <= 128 < 65 + 64.
Proof.
  destruct (checked_math_exact 4294967296 4294967296 0 64 0) as (_ & Hm & _);
    [unfold is_u64, UINT64_MAX; lia..|].
  destruct (checked_math_exact 65 0 0 64 128) as (_ & _ & _ & _ & Hr);
    [unfold is_u64, UINT64_MAX; lia..|].
  split; [exact Hm|]. split; [reflexivity|]. apply Hr. reflexivity.
Defined.
