(* ===== verification/Checksum.v ===== *)
(** The FNV-1a hashes: [src/edge_runtime/utility/checksum.cpp] ([fnv1a64]), the
    32-bit [channel_name_hash] of [src/edge_runtime/channel/control_lock.cpp]
    and the pair of boot-id hashes of
    [src/edge_runtime/process/process_identity.cpp] ([fnv_hash_bytes]).

    The multiplications wrap at the width of the hash. The main lemma is that
    every FNV-1a round is a bijection of the hash state for a fixed byte, which
    gives the error-detection guarantee the payload and header checks rely on:
    two messages of equal length that differ in exactly one byte never collide. *)
From S2P Require Import Prelude.

Definition kOffsetBasis : Z := 14695981039346656037.
Definition kPrime : Z := 1099511628211.

(** One round: [hash ^= byte; hash *= kPrime]. *)
Definition fnv_step (hash byte : Z) : Z := u64 (Z.lxor hash (u8 byte) * kPrime).

Definition fnv1a64 (data : list Z) : Z := foldl fnv_step kOffsetBasis data.

Definition fnv32_step (hash byte : Z) : Z := u32 (Z.lxor hash (u8 byte) * 16777619).

Definition channel_name_hash (name : list Z) : Z := foldl fnv32_step 2166136261 name.

(** The two hashes of the boot id; the second hashes [byte + 1u] truncated to a
    [uint8_t]. *)
Definition fnv_hash_bytes (data : list Z) (h0 h1 : Z) : Z * Z :=
  foldl (fun '(a, b) byte => (u64 (Z.lxor a (u8 byte) * kPrime),
                              u64 (Z.lxor b (u8 (byte + 1)) * kPrime)))
        (h0, h1) data.

(** * Range *)

Lemma fnv_step_range h b : is_u64 (fnv_step h b).
Proof. apply u64_range. Qed.

Lemma fnv_fold_range h data : is_u64 h -> is_u64 (foldl fnv_step h data).
Proof.
  revert h. induction data as [|b data IH]; intros h Hh; simpl; [done|].
  apply IH, fnv_step_range.
Qed.

Lemma fnv1a64_range data : is_u64 (fnv1a64 data).
Proof. apply fnv_fold_range. unfold kOffsetBasis. mlia. Qed.

(** * Each round is invertible *)

(** The inverse of the prime modulo [2^64]. *)
Definition kPrimeInv : Z := 14886173955864302971.

Lemma kPrimeInv_spec : (kPrime * kPrimeInv) mod 18446744073709551616 = 1.
Proof. by vm_compute. Qed.

Lemma mul_prime_inj a b :
  is_u64 a -> is_u64 b -> u64 (a * kPrime) = u64 (b * kPrime) -> a = b.
Proof.
  intros Ha Hb H. apply (f_equal (fun z => u64 (z * kPrimeInv))) in H.
  unfold u64 in H. rewrite !Zmult_mod_idemp_l in H.
  rewrite <- !Z.mul_assoc in H.
  rewrite <- (Zmult_mod_idemp_r _ a), <- (Zmult_mod_idemp_r _ b) in H.
  rewrite kPrimeInv_spec, !Z.mul_1_r in H.
  rewrite !Z.mod_small in H by mlia. done.
Qed.

Lemma lxor_u64 a b : is_u64 a -> is_byte b -> is_u64 (Z.lxor a b).
Proof.
  intros Ha Hb. split; [apply Z.lxor_nonneg; mlia|].
  destruct (decide (Z.lxor a b = 0)) as [->|Hn]; [mlia|].
  assert (0 <= Z.lxor a b) by (apply Z.lxor_nonneg; mlia).
  assert (Z.log2 (Z.lxor a b) < 64); [|enough (Z.lxor a b < 2 ^ 64) by mlia;
    apply Z.log2_lt_pow2; lia].
  pose proof (Z.log2_lxor a b ltac:(mlia) ltac:(mlia)).
  assert (Z.log2 a < 64) by
    (destruct (decide (a = 0)) as [->|]; [simpl; lia|apply Z.log2_lt_pow2; mlia]).
  assert (Z.log2 b < 64) by
    (destruct (decide (b = 0)) as [->|]; [simpl; lia|apply Z.log2_lt_pow2; mlia]).
  lia.
Qed.

Lemma u8_byte b : is_byte (u8 b).
Proof. unfold u8, is_byte. pose proof (Z.mod_pos_bound b 256). lia. Qed.

Lemma u8_small b : is_byte b -> u8 b = b.
Proof. intros. unfold u8. by apply Z.mod_small. Qed.

Lemma lxor_cancel_l a b c : Z.lxor a b = Z.lxor a c -> b = c.
Proof.
  intros H. apply (f_equal (Z.lxor a)) in H.
  by rewrite <- !Z.lxor_assoc, Z.lxor_nilpotent, !Z.lxor_0_l in H.
Qed.

(** Injective in the hash for a fixed byte. *)
Lemma fnv_step_inj_hash h1 h2 b :
  is_u64 h1 -> is_u64 h2 -> fnv_step h1 b = fnv_step h2 b -> h1 = h2.
Proof.
  intros H1 H2 H. apply mul_prime_inj in H; [|by apply lxor_u64, u8_byte..].
  rewrite (Z.lxor_comm h1), (Z.lxor_comm h2) in H. by apply lxor_cancel_l in H.
Qed.

(** Injective in the byte for a fixed hash. *)
Lemma fnv_step_inj_byte h b1 b2 :
  is_u64 h -> is_byte b1 -> is_byte b2 -> fnv_step h b1 = fnv_step h b2 -> b1 = b2.
Proof.
  intros H B1 B2 E. apply mul_prime_inj in E; [|by apply lxor_u64, u8_byte..].
  apply lxor_cancel_l in E. by rewrite !u8_small in E.
Qed.

Lemma fnv_fold_inj h1 h2 data :
  is_u64 h1 -> is_u64 h2 -> foldl fnv_step h1 data = foldl fnv_step h2 data -> h1 = h2.
Proof.
  revert h1 h2. induction data as [|b data IH]; intros h1 h2 H1 H2 H; simpl in *; [done|].
  apply IH in H; [|apply fnv_step_range..]. eauto using fnv_step_inj_hash.
Qed.

Lemma fnv1a64_app d1 d2 : fnv1a64 (d1 ++ d2) = foldl fnv_step (fnv1a64 d1) d2.
Proof. unfold fnv1a64. by rewrite foldl_app. Qed.

(** Changing exactly one byte always changes the 64-bit checksum. *)
Lemma fnv1a64_single_byte pre b1 b2 post :
  is_byte b1 -> is_byte b2 -> b1 <> b2 ->
  fnv1a64 (pre ++ b1 :: post) <> fnv1a64 (pre ++ b2 :: post).
Proof.
  intros B1 B2 Hne H. rewrite !fnv1a64_app in H. simpl in H.
  apply fnv_fold_inj in H; [|apply fnv_step_range..].
  apply fnv_step_inj_byte in H; auto using fnv1a64_range.
Qed.
