(* ===== verification/Prog.v ===== *)
(** Programs over shared memory.

    Every operation of the library that touches a mapped segment is a [prog]: a
    tree whose nodes are the atomic accesses and system calls the C++ code makes,
    in the code's order, and whose leaves are the value it returns. The
    wrappers of [src/edge_runtime/sync/shared_atomic.hpp] are the primitive
    nodes.

    A program has two meanings:
    - [run] executes it alone against a memory and a model of the operating
      system (sequential semantics, executable);
    - [Concur.cstep] interleaves any number of threads, of any number of processes, one
      access at a time, with every answer of the operating system possible
      (concurrent semantics). A thread that is never scheduled again is a
      process that crashed at that point, so the safety theorems cover a crash
      between any two accesses.

    Memory is sequentially consistent: the acquire, release and relaxed variants
    are the same node as the [seq_cst] one. Reorderings that C++ allows for the
    weaker orders are not modelled.

    This file has the sequential semantics; [Concur] has the interleavings and the
    program logic for them. *)
From S2P Require Import Prelude Errors.

(** * Events *)

(** The outcome of a system call: a value, or an [errno]. *)
Inductive sysres (A : Type) : Type :=
| SysOk (a : A)
| SysErr (errno : Z).
Arguments SysOk {A} a.
Arguments SysErr {A} errno.

(** The fields of [struct stat] and [struct statx] the code reads. *)
Record stat_buf : Type := mkStat {
  st_mode : Z; st_uid : Z; st_dev : Z; st_ino : Z; st_size : Z; st_nlink : Z
}.
Record statx_buf : Type := mkStatx {
  stx_mask : Z; stx_mode : Z; stx_uid : Z; stx_ino : Z;
  stx_dev_major : Z; stx_dev_minor : Z
}.

(** What [recvmsg] delivers: the bytes, the ancillary messages (level, type,
    length, the bytes of the control buffer from its header to the end of the
    message, the integers in its data) and the flags. *)
Record cmsg : Type := mkCmsg {
  cmsg_level : Z; cmsg_type : Z; cmsg_len : Z; cmsg_available : Z; cmsg_ints : list Z
}.
Record recv_msg : Type := mkRecvMsg {
  rm_bytes : list Z; rm_control : list cmsg; rm_flags : Z
}.

(** The calls of the C library that prepare a [posix_spawn]. *)
Inductive spawn_setup : Type :=
| sargv_build (** the vector of the arguments; it fails when memory is short *)
| sa_init
| sa_addclose (fd : Z)
| sa_adddup2 (fd newfd : Z)
| sattr_init
| sattr_setsigmask
| sattr_setflags.

(** The system calls the modelled code makes, with their answers. [sys_pread] and
    [sys_pwrite] answer the number of bytes transferred; the bytes themselves are
    locations of the memory, because a file's pages are the pages its mappings
    see. *)
Inductive sys : Type -> Type :=
| sys_getpid : sys Z
| sys_getuid : sys Z
| sys_geteuid : sys Z
| sys_steady_now : sys Z
| sys_getrandom (count : Z) : sys (sysres (list Z))
| sys_shm_open (name : string) (create_exclusive : bool) : sys (sysres Z)
| sys_shm_unlink (name : string) : sys (sysres unit)
| sys_ftruncate (fd size : Z) : sys (sysres unit)
| sys_mmap (fd size : Z) (writable : bool) : sys (sysres Z)
| sys_fstat (fd : Z) : sys (sysres stat_buf)
| sys_statx (fd : Z) : sys (sysres statx_buf)
| sys_open (path : string) : sys (sysres Z)
| sys_read (fd : Z) (count : Z) : sys (sysres (list Z))
| sys_close (fd : Z) : sys unit
| sys_pidfd_open (pid : Z) : sys (sysres Z)
| sys_poll (fd events timeout_ms : Z) : sys (sysres (Z * Z))
| sys_clock_gettime (clock_id : Z) : sys (sysres (Z * Z))
| sys_futex_wait (expected sec nsec : Z) : sys (sysres Z)
| sys_futex_wake (count : Z) : sys (sysres Z)
| sys_pread (fd count offset : Z) : sys (sysres Z)
| sys_pwrite (fd count offset : Z) : sys (sysres Z)
| sys_mkdir (path : string) (mode : Z) : sys (sysres unit)
| sys_open_create (path : string) (mode : Z) : sys (sysres Z)
| sys_flock (fd operation : Z) : sys (sysres unit)
| sys_fdatasync (fd : Z) : sys (sysres unit)
| sys_stat (path : string) : sys (sysres unit)
| sys_access (path : string) : sys (sysres unit)
| sys_unlink (path : string) : sys (sysres unit)
| sys_chmod (path : string) (mode : Z) : sys (sysres unit)
| sys_fchmod (fd mode : Z) : sys (sysres unit)
| sys_memfd_create (name : string) : sys (sysres Z)
| sys_fcntl (fd cmd arg : Z) : sys (sysres Z)
| sys_socket : sys (sysres Z)
| sys_bind (fd : Z) (path : string) : sys (sysres unit)
| sys_listen (fd backlog : Z) : sys (sysres unit)
| sys_connect (fd : Z) (path : string) : sys (sysres unit)
| sys_accept (fd : Z) : sys (sysres Z)
| sys_shutdown (fd : Z) : sys (sysres unit)
| sys_peer_uid (fd : Z) : sys (sysres Z)
| sys_so_error (fd : Z) : sys (sysres Z)
| sys_send (fd : Z) (bytes : list Z) : sys (sysres Z)
| sys_recv (fd count : Z) : sys (sysres (list Z))
| sys_sendmsg (fd : Z) (bytes : list Z) (payload_fd : Z) : sys (sysres Z)
| sys_recvmsg (fd count : Z) : sys (sysres recv_msg)
| sys_nanosleep (sec nsec : Z) : sys (sysres unit)
| sys_clock_nanosleep (clock_id sec nsec : Z) : sys (sysres unit)
| sys_thread_start : sys (sysres unit)
| sys_epoll_create : sys (sysres Z)
| sys_epoll_add (epoll_fd fd : Z) : sys (sysres unit)
| sys_epoll_wait (epoll_fd max_events timeout_ms : Z) : sys (sysres (list Z))
| sys_eventfd : sys (sysres Z)
| sys_signalfd : sys (sysres Z)
| sys_sigmask_block : sys (sysres unit)
| sys_sigmask_restore : sys (sysres unit)
| sys_write (fd count : Z) : sys (sysres Z)
| sys_pipe2 : sys (sysres (Z * Z))
| sys_spawn_setup (step : spawn_setup) : sys (sysres unit)
| sys_posix_spawn (path : string) (argv : list string) (read_end write_end : Z) : sys (sysres Z)
| sys_kill (pid sig : Z) : sys (sysres unit)
| sys_waitpid (pid : Z) (nohang : bool) : sys (sysres (Z * Z)).

(** Every call has some answer. *)
Definition sys_default {X} (c : sys X) : X :=
  match c with
  | sys_getpid | sys_getuid | sys_geteuid | sys_steady_now => 0
  | sys_close _ => tt
  | sys_getrandom _ | sys_shm_open _ _ | sys_shm_unlink _ | sys_ftruncate _ _ | sys_mmap _ _ _
  | sys_fstat _ | sys_statx _ | sys_open _ | sys_read _ _ | sys_pidfd_open _ | sys_poll _ _ _
  | sys_clock_gettime _ | sys_futex_wait _ _ _ | sys_futex_wake _ | sys_pread _ _ _
  | sys_pwrite _ _ _ | sys_mkdir _ _ | sys_open_create _ _ | sys_flock _ _ | sys_fdatasync _
  | sys_stat _ | sys_access _ | sys_unlink _ | sys_chmod _ _ | sys_fchmod _ _ | sys_memfd_create _
  | sys_fcntl _ _ _ | sys_socket | sys_bind _ _ | sys_listen _ _ | sys_connect _ _
  | sys_accept _ | sys_shutdown _ | sys_peer_uid _ | sys_so_error _ | sys_send _ _
  | sys_recv _ _ | sys_sendmsg _ _ _ | sys_recvmsg _ _ | sys_nanosleep _ _
  | sys_clock_nanosleep _ _ _ | sys_thread_start | sys_epoll_create | sys_epoll_add _ _
  | sys_epoll_wait _ _ _ | sys_eventfd | sys_signalfd | sys_sigmask_block | sys_sigmask_restore
  | sys_write _ _ | sys_pipe2 | sys_spawn_setup _ | sys_posix_spawn _ _ _ _ | sys_kill _ _
  | sys_waitpid _ _ => SysErr 0
  end.

(** The accesses to a memory with locations [L]. *)
Inductive ev (L : Type) : Type -> Type :=
| Load (l : L) : ev L Z
| Store (l : L) (v : Z) : ev L unit
| Cas (l : L) (expected desired : Z) : ev L bool
| FetchAdd (modulus : Z) (l : L) (v : Z) : ev L Z
| FutexWait (l : L) (expected sec nsec : Z) : ev L (sysres Z)
| FutexWake (l : L) (count : Z) : ev L (sysres Z)
| Sys {X : Type} (c : sys X) : ev L X.
Arguments Load {L} l.
Arguments Store {L} l v.
Arguments Cas {L} l expected desired.
Arguments FetchAdd {L} modulus l v.
Arguments FutexWait {L} l expected sec nsec.
Arguments FutexWake {L} l count.
Arguments Sys {L X} c.

Inductive prog (L : Type) (A : Type) : Type :=
| Ret (a : A)
| Vis {X : Type} (e : ev L X) (k : X -> prog L A).
Arguments Ret {L A} a.
Arguments Vis {L A X} e k.

Fixpoint bind {L A B} (p : prog L A) (f : A -> prog L B) : prog L B :=
  match p with
  | Ret a => f a
  | Vis e k => Vis e (fun x => bind (k x) f)
  end.

Definition trigger {L X} (e : ev L X) : prog L X := Vis e Ret.

Declare Scope prog_scope.
Delimit Scope prog_scope with prog.

Notation "'let!' x := c 'in' k" := (bind c (fun x => k))
  (at level 200, x pattern, c at level 200, k at level 200) : prog_scope.
Notation "'do!' c ';' k" := (bind c (fun _ => k))
  (at level 200, c at level 200, k at level 200) : prog_scope.
(** [let? x := c in k]: [if (!r) return r.error();] and go on with the value. *)
Notation "'let?' x := c 'in' k" :=
  (bind c (fun r => match r with Ok x => k | Err e => Ret (Err e) end))
  (at level 200, x pattern, c at level 200, k at level 200) : prog_scope.

#[global] Open Scope prog_scope.

(** A pure fallible computation inside a program. *)
Definition lift {L A} (r : Result A) : prog L (Result A) := Ret r.

(** [return make_error(...)]. *)
Definition fail {L A} (c : ErrorCode) (op ctx : string) : prog L (Result A) :=
  Ret (Err (make_error c op ctx)).

(** * The shared atomics *)

Definition shared_load_acquire {L} (l : L) : prog L Z := trigger (Load l).
Definition shared_load_relaxed {L} (l : L) : prog L Z := trigger (Load l).
Definition shared_load_seq_cst {L} (l : L) : prog L Z := trigger (Load l).
Definition shared_store_release {L} (l : L) (v : Z) : prog L unit := trigger (Store l v).
Definition shared_store_relaxed {L} (l : L) (v : Z) : prog L unit := trigger (Store l v).
Definition shared_store_seq_cst {L} (l : L) (v : Z) : prog L unit := trigger (Store l v).
Definition shared_cas_acquire {L} (l : L) (expected desired : Z) : prog L bool :=
  trigger (Cas l expected desired).
Definition shared_cas_seq_cst {L} (l : L) (expected desired : Z) : prog L bool :=
  trigger (Cas l expected desired).
Definition shared_cas_release {L} (l : L) (expected desired : Z) : prog L bool :=
  trigger (Cas l expected desired).
(** [T] is [uint32_t] at the [notify_epoch] fields and [uint64_t] at the
    counters; the sum wraps at that width. *)
Definition shared_fetch_add_relaxed_u32 {L} (l : L) (v : Z) : prog L Z :=
  trigger (FetchAdd 4294967296 l v).
Definition shared_fetch_add_relaxed_u64 {L} (l : L) (v : Z) : prog L Z :=
  trigger (FetchAdd 18446744073709551616 l v).
(** A plain (non-atomic) access to a mapped field. *)
Definition plain_load {L} (l : L) : prog L Z := trigger (Load l).
Definition plain_store {L} (l : L) (v : Z) : prog L unit := trigger (Store l v).
Definition syscall {L X} (c : sys X) : prog L X := trigger (Sys c).

(** [futex_wait] and [futex_wake] of [src/edge_runtime/sync/futex.cpp] without
    the tracing of a failpoint build. *)
Definition futex_wait {L} (addr : L) (expected sec nsec : Z) : prog L (sysres Z) :=
  trigger (FutexWait addr expected sec nsec).
Definition futex_wake {L} (addr : L) (count : Z) : prog L (sysres Z) :=
  trigger (FutexWake addr count).

(** [memcpy] out of and into a segment, byte by byte. *)
Fixpoint load_list {L} (ls : list L) : prog L (list Z) :=
  match ls with
  | [] => Ret []
  | l :: ls' =>
      let! v := plain_load l in
      let! vs := load_list ls' in
      Ret (v :: vs)
  end.
Fixpoint store_list {L} (ls : list (L * Z)) : prog L unit :=
  match ls with
  | [] => Ret tt
  | (l, v) :: ls' => do! plain_store l v; store_list ls'
  end.

(** * Monad laws *)

Lemma bind_ret_l {L A B} (a : A) (f : A -> prog L B) : bind (Ret a) f = f a.
Proof. done. Qed.

(** * Sequential semantics *)

(** An operating-system model answers every call and threads its own state. *)
Definition os_model (OS : Type) : Type := forall X, sys X -> OS -> X * OS.

Record world (L OS : Type) : Type := mkWorld { w_mem : L -> Z; w_os : OS }.
Arguments mkWorld {L OS} w_mem w_os.
Arguments w_mem {L OS} w.
Arguments w_os {L OS} w.

Section Run.
Context {L : Type} `{EqDecision L} {OS : Type} (os : os_model OS).

Definition set_mem (m : L -> Z) (w : world L OS) : world L OS := mkWorld m (w_os w).
Definition set_os {X} (r : X * OS) (w : world L OS) : X * world L OS :=
  (fst r, mkWorld (w_mem w) (snd r)).

(** [FUTEX_WAIT] answers [EAGAIN] when the word no longer holds the expected
    value, whatever the operating-system model says. *)
Definition run_ev {X} (e : ev L X) (w : world L OS) : X * world L OS :=
  match e in ev _ Y return Y * world L OS with
  | Load l => (w_mem w l, w)
  | Store l v => (tt, set_mem (upd l v (w_mem w)) w)
  | Cas l expected desired =>
      if w_mem w l =? expected then (true, set_mem (upd l desired (w_mem w)) w)
      else (false, w)
  | FetchAdd modulus l v =>
      (w_mem w l, set_mem (upd l ((w_mem w l + v) mod modulus) (w_mem w)) w)
  | FutexWait l expected sec nsec =>
      if w_mem w l =? expected then set_os (os _ (sys_futex_wait expected sec nsec) (w_os w)) w
      else (SysErr EAGAIN, w)
  | FutexWake l count => set_os (os _ (sys_futex_wake count) (w_os w)) w
  | Sys c => set_os (os _ c (w_os w)) w
  end.

Fixpoint run {A} (p : prog L A) (w : world L OS) : A * world L OS :=
  match p with
  | Ret a => (a, w)
  | Vis e k => let '(x, w') := run_ev e w in run (k x) w'
  end.

Lemma run_bind {A B} (p : prog L A) (f : A -> prog L B) w :
  run (bind p f) w = let '(a, w') := run p w in run (f a) w'.
Proof.
  revert w. induction p as [a|X e k IH]; intros w; simpl; [done|].
  destruct (run_ev e w) as [x w']. apply IH.
Qed.
End Run.

(** * Read-only programs *)

(** A read-only program loads fields and makes system calls but never writes. *)
Definition ev_readonly {L X} (e : ev L X) : Prop :=
  match e with Store _ _ | Cas _ _ _ | FetchAdd _ _ _ => False | _ => True end.

Fixpoint readonly {L A} (p : prog L A) : Prop :=
  match p with
  | Ret _ => True
  | Vis e k => ev_readonly e /\ forall x, readonly (k x)
  end.

Lemma readonly_bind {L A B} (p : prog L A) (f : A -> prog L B) :
  readonly p -> (forall a, readonly (f a)) -> readonly (bind p f).
Proof.
  induction p as [a|X e k IH]; simpl; intros Hp Hf; [done|].
  destruct Hp as [He Hk]. split; [done|]. intros x. by apply IH.
Qed.

(** [tree_depth n p]: [p] makes at most [n] accesses, whatever they answer. *)
Fixpoint tree_depth {L A} (n : nat) (p : prog L A) : Prop :=
  match p with
  | Ret _ => True
  | Vis e k => match n with O => False | S n' => forall x, tree_depth n' (k x) end
  end.

Lemma tree_depth_mono {L A} n m (p : prog L A) :
  (n <= m)%nat -> tree_depth n p -> tree_depth m p.
Proof.
  revert n m. induction p as [a|X e k IH]; intros [|n] [|m] Hle; simpl; try done; try lia.
  intros H x. eapply IH; [|apply H]. lia.
Qed.

Lemma tree_depth_bind {L A B} n m (p : prog L A) (f : A -> prog L B) :
  tree_depth n p -> (forall a, tree_depth m (f a)) -> tree_depth (n + m) (bind p f).
Proof.
  revert n. induction p as [a|X e k IH]; intros n Hp Hf; simpl.
  - eapply tree_depth_mono; [|apply Hf]. lia.
  - destruct n as [|n]; simpl in *; [done|]. intros x. by apply IH.
Qed.

Lemma tree_depth_seq {L A B} a n (p : prog L A) (f : A -> prog L B) :
  tree_depth a p -> (a <= n)%nat -> (forall x, tree_depth (n - a) (f x)) ->
  tree_depth n (bind p f).
Proof.
  intros Hp Hle Hf. replace n with (a + (n - a))%nat by lia. by apply tree_depth_bind.
Qed.

Lemma tree_depth_trigger {L X} (e : ev L X) : tree_depth 1 (trigger e).
Proof. by intros x. Qed.

Lemma tree_depth_ret {L A} n (a : A) : @tree_depth L A n (Ret a).
Proof. by destruct n. Qed.

Lemma tree_depth_load_list {L} (ls : list L) : tree_depth (length ls) (load_list ls).
Proof.
  induction ls as [|l ls IH]; simpl; [done|]. intros x.
  rewrite <- (Nat.add_0_r (length ls)). apply tree_depth_bind; [done|].
  intros v. apply tree_depth_ret.
Qed.

Lemma tree_depth_store_list {L} (ls : list (L * Z)) : tree_depth (length ls) (store_list ls).
Proof. by induction ls as [|[l v] ls IH]; simpl. Qed.

(** [solve_depth]: goals [tree_depth n p] for straight-line code; the calls it
    makes have their own bounds in [depth_db]. *)
Create HintDb depth_db.
#[global] Hint Resolve tree_depth_trigger : depth_db.

Ltac solve_depth_step :=
  match goal with
  | |- tree_depth _ (bind _ _) =>
      eapply tree_depth_seq; [solve [eauto with depth_db]|lia|intros ?]
  | |- tree_depth _ (bind (Ret ?a) ?f) => change (bind (Ret a) f) with (f a); cbv beta
  | |- tree_depth _ (bind (match ?x with _ => _ end) _) => destruct x
  | |- tree_depth _ (Ret _) => apply tree_depth_ret
  | |- tree_depth _ (fail _ _ _) => apply tree_depth_ret
  | |- tree_depth _ (match ?x with _ => _ end) => destruct x
  | |- tree_depth _ (if ?x then _ else _) => destruct x
  | |- tree_depth _ (let _ := _ in _) => cbv zeta
  | |- tree_depth _ _ => eapply tree_depth_mono; [|solve [eauto with depth_db]]; lia
  end.
Ltac solve_depth := repeat solve_depth_step.

Lemma readonly_ret {L A} (a : A) : @readonly L A (Ret a).
Proof. done. Qed.

Lemma readonly_fail {L A} c op ctx : @readonly L (Result A) (fail c op ctx).
Proof. done. Qed.

Lemma readonly_trigger {L X} (e : ev L X) : ev_readonly e -> readonly (trigger e).
Proof. by intros. Qed.

Create HintDb prog_db.
#[global] Hint Resolve readonly_ret readonly_fail : prog_db.

(** [solve_readonly]: goals [readonly p] for straight-line code, by the hints of
    [prog_db] for the calls it makes. *)
Ltac solve_readonly_step :=
  match goal with
  | |- readonly (bind _ _) => apply readonly_bind; [|intros ?]
  | |- readonly (Ret _) => exact I
  | |- readonly (Vis _ _) => split; [exact I|intros ?]
  | |- readonly (match ?x with _ => _ end) => destruct x
  | |- readonly (if ?x then _ else _) => destruct x
  | |- readonly (let _ := _ in _) => cbv zeta
  | |- readonly _ => solve [auto with prog_db]
  | |- readonly _ => apply readonly_trigger; exact I
  end.
Ltac solve_readonly := repeat solve_readonly_step.

Lemma load_list_readonly {L} (ls : list L) : readonly (load_list ls).
Proof. induction ls as [|l ls IH]; cbn [load_list]; solve_readonly. Qed.
#[global] Hint Resolve load_list_readonly : prog_db.

(** ** Programs that write certain fields only *)

Definition ev_writes_in {L X} (W : L -> Prop) (e : ev L X) : Prop :=
  match e with Store l _ | Cas l _ _ | FetchAdd _ l _ => W l | _ => True end.

Fixpoint writes_in {L A} (W : L -> Prop) (p : prog L A) : Prop :=
  match p with
  | Ret _ => True
  | Vis e k => ev_writes_in W e /\ forall x, writes_in W (k x)
  end.

Lemma writes_in_bind {L A B} (W : L -> Prop) (p : prog L A) (f : A -> prog L B) :
  writes_in W p -> (forall a, writes_in W (f a)) -> writes_in W (bind p f).
Proof.
  induction p as [a|X e k IH]; simpl; intros Hp Hf; [done|].
  destruct Hp as [He Hk]. split; [done|]. intros x. by apply IH.
Qed.

Lemma readonly_writes_in {L A} (W : L -> Prop) (p : prog L A) : readonly p -> writes_in W p.
Proof.
  induction p as [a|X e k IH]; simpl; [done|]. intros [He Hk]. split; [by destruct e|auto].
Qed.

Lemma store_list_writes_in {L} (W : L -> Prop) (ls : list (L * Z)) :
  Forall (fun lv => W lv.1) ls -> writes_in W (store_list ls).
Proof. by induction 1 as [|[l v] ls Hl Hls IH]; simpl. Qed.

(** [solve_writes]: goals [writes_in W p]; the stores are left. *)
Ltac solve_writes_step :=
  match goal with
  | |- writes_in _ (bind _ _) => apply writes_in_bind; [|intros ?]
  | |- writes_in _ (Ret _) => exact I
  | |- writes_in _ (match ?x with _ => _ end) => destruct x
  | |- writes_in _ (if ?x then _ else _) => destruct x
  | |- writes_in _ (let _ := _ in _) => cbv zeta
  | |- writes_in _ _ => solve [auto with prog_db]
  | |- writes_in _ _ => apply readonly_writes_in; solve [solve_readonly]
  end.
Ltac solve_writes := repeat solve_writes_step.

(** ** Programs that only load *)

(** No store and no system call. *)
Fixpoint loads_only {L A} (p : prog L A) : Prop :=
  match p with
  | Ret _ => True
  | Vis e k => match e with Load _ => True | _ => False end /\ forall x, loads_only (k x)
  end.

Lemma loads_only_bind {L A B} (p : prog L A) (f : A -> prog L B) :
  loads_only p -> (forall a, loads_only (f a)) -> loads_only (bind p f).
Proof.
  induction p as [a|X e k IH]; simpl; intros Hp Hf; [done|].
  destruct Hp as [He Hk]. split; [done|]. intros x. by apply IH.
Qed.

(** They leave the memory and the operating system alone. *)
Lemma loads_only_run {L OS A} `{EqDecision L} (os : os_model OS) (p : prog L A) w :
  loads_only p -> (run os p w).2 = w.
Proof.
  revert w. induction p as [a|X e k IH]; simpl; intros w Hp; [done|].
  destruct Hp as [He Hk]. destruct e; try done. simpl. by apply IH.
Qed.

Lemma loads_only_load {L} (l : L) : loads_only (trigger (Load l)).
Proof. by split. Qed.

Create HintDb loads_db.

Ltac solve_loads_step :=
  match goal with
  | |- loads_only (bind _ _) => apply loads_only_bind; [|intros ?]
  | |- loads_only (Ret _) => exact I
  | |- loads_only (fail _ _ _) => exact I
  | |- loads_only (match ?x with _ => _ end) => destruct x
  | |- loads_only (if ?x then _ else _) => destruct x
  | |- loads_only (let _ := _ in _) => cbv zeta
  | |- loads_only _ => solve [auto with loads_db]
  | |- loads_only _ => apply loads_only_load
  end.
Ltac solve_loads := repeat solve_loads_step.

(** * What a program can return *)

(** [leaves phi p]: every value [p] may return satisfies [phi], whatever its
    accesses answer. *)
Fixpoint leaves {L A} (phi : A -> Prop) (p : prog L A) : Prop :=
  match p with
  | Ret a => phi a
  | Vis e k => forall x, leaves phi (k x)
  end.

Lemma leaves_bind {L A B} (phi : A -> Prop) (psi : B -> Prop) (p : prog L A) (f : A -> prog L B) :
  leaves phi p -> (forall a, phi a -> leaves psi (f a)) -> leaves psi (bind p f).
Proof.
  induction p as [a|X e k IH]; simpl; intros Hp Hf; [by apply Hf|]. intros x. by apply IH.
Qed.

Lemma tree_depth_seq_leaves {L A B} (phi : A -> Prop) a n (p : prog L A) (f : A -> prog L B) :
  tree_depth a p -> leaves phi p -> (a <= n)%nat ->
  (forall x, phi x -> tree_depth (n - a) (f x)) -> tree_depth n (bind p f).
Proof.
  intros Hp Hl Hle Hf. revert a n Hp Hle Hf. induction p as [x|X e k IH]; intros a n Hp Hle Hf; simpl.
  - eapply tree_depth_mono; [|by apply Hf]. lia.
  - destruct a as [|a]; [done|]. destruct n as [|n]; [lia|]. intros x. simpl in *.
    apply (IH x (Hl x) a); [apply Hp|lia|exact Hf].
Qed.

Lemma leaves_true {L A} (p : prog L A) : leaves (fun _ => True) p.
Proof. by induction p. Qed.

(** Continuations that always satisfy [psi]. *)
Lemma leaves_bind_any {L A B} (psi : B -> Prop) (p : prog L A) (f : A -> prog L B) :
  (forall a, leaves psi (f a)) -> leaves psi (bind p f).
Proof. intros Hf. eapply leaves_bind; [apply leaves_true|auto]. Qed.

Lemma leaves_mono {L A} (phi psi : A -> Prop) (p : prog L A) :
  (forall a, phi a -> psi a) -> leaves phi p -> leaves psi p.
Proof. intros H. induction p as [a|X e k IH]; simpl; auto. Qed.

Definition is_err {A} (r : Result A) : Prop := exists e, r = Err e.

Lemma is_err_err {A} e : is_err (@Err A e).
Proof. by exists e. Qed.

Lemma leaves_and {L A} (phi psi : A -> Prop) (p : prog L A) :
  leaves phi p -> leaves psi p -> leaves (fun a => phi a /\ psi a) p.
Proof. induction p as [a|X e k IH]; simpl; auto. Qed.

Lemma leaves_err_fail {L A} c op ctx : leaves is_err (@fail L A c op ctx).
Proof. by eexists. Qed.
#[global] Hint Resolve is_err_err leaves_err_fail : prog_db.

(** [solve_leaves]: goals [leaves is_err p] for code that only fails. *)
Ltac solve_leaves_step :=
  match goal with
  | |- leaves _ (bind _ _) => apply leaves_bind_any; intros ?
  | |- leaves _ (match ?x with _ => _ end) => destruct x
  | |- leaves _ (if ?x then _ else _) => destruct x
  | |- leaves _ (let _ := _ in _) => cbv zeta
  | |- leaves _ _ => solve [auto with prog_db]
  | |- leaves _ (Ret _) => apply is_err_err
  end.
Ltac solve_leaves := repeat solve_leaves_step.
