(* ===== verification/SeqLogic.v ===== *)
(** A program logic for one program that runs alone.

    [swp p Q m]: from memory [m], whatever the operating system answers, [p] ends
    with a value and a memory that satisfy [Q]. [swp_run] makes it a statement
    about [Prog.run] under every operating-system model. [hwp] is the same with the
    trace of what happened. *)
From S2P Require Import Prelude Errors Prog.

Section Swp.
Context {L : Type} `{EqDecision L}.
Implicit Types (m : L -> Z).

Definition sev {X} (e : ev L X) m : (X -> (L -> Z) -> Prop) -> Prop :=
  match e in ev _ Y return (Y -> (L -> Z) -> Prop) -> Prop with
  | Load l => fun K => K (m l) m
  | Store l v => fun K => K tt (upd l v m)
  | Cas l expected desired => fun K =>
      if m l =? expected then K true (upd l desired m) else K false m
  | FetchAdd modulus l v => fun K => K (m l) (upd l ((m l + v) mod modulus) m)
  | FutexWait _ _ _ _ => fun K => forall r, K r m
  | FutexWake _ _ => fun K => forall r, K r m
  | Sys _ => fun K => forall x, K x m
  end.

Fixpoint swp {A} (p : prog L A) (Q : A -> (L -> Z) -> Prop) m : Prop :=
  match p with
  | Ret a => Q a m
  | Vis e k => sev e m (fun x m' => swp (k x) Q m')
  end.

Lemma sev_mono {X} (e : ev L X) m (K K' : X -> (L -> Z) -> Prop) :
  (forall x m', K x m' -> K' x m') -> sev e m K -> sev e m K'.
Proof. intros HK. destruct e; simpl; auto. destruct (_ =? _); auto. Qed.

Lemma swp_mono {A} (p : prog L A) (Q Q' : A -> (L -> Z) -> Prop) m :
  swp p Q m -> (forall a m', Q a m' -> Q' a m') -> swp p Q' m.
Proof.
  intros Hp HQ. revert m Hp. induction p as [a|X e k IH]; simpl; intros m Hp; [auto|].
  eapply sev_mono; [|exact Hp]. auto.
Qed.

Lemma swp_bind {A B} (p : prog L A) (f : A -> prog L B) Q m :
  swp p (fun a m' => swp (f a) Q m') m -> swp (bind p f) Q m.
Proof.
  revert m. induction p as [a|X e k IH]; simpl; intros m Hp; [done|].
  eapply sev_mono; [|exact Hp]. auto.
Qed.

(** Sequencing. *)
Lemma swp_seq {A B} (p : prog L A) (f : A -> prog L B) Q1 Q m :
  swp p Q1 m -> (forall a m', Q1 a m' -> swp (f a) Q m') -> swp (bind p f) Q m.
Proof. intros Hp Hf. apply swp_bind. eapply swp_mono; eauto. Qed.

(** A call that returns [a] and leaves the memory alone. *)
Lemma swp_seq_value {A B} (p : prog L A) (f : A -> prog L B) a Q m :
  swp p (fun a' m' => a' = a /\ m' = m) m -> swp (f a) Q m -> swp (bind p f) Q m.
Proof. intros Hp Hf. eapply swp_seq; [exact Hp|]. by intros ? ? [-> ->]. Qed.

Lemma run_ev_sev {OS X} (os : os_model OS) (e : ev L X) m o K :
  sev e m K -> K (run_ev os e (mkWorld m o)).1 (w_mem (run_ev os e (mkWorld m o)).2).
Proof. destruct e; simpl; try done; destruct (_ =? _); done. Qed.

Lemma swp_run {OS A} (os : os_model OS) (p : prog L A) Q m o :
  swp p Q m -> Q (run os p (mkWorld m o)).1 (w_mem (run os p (mkWorld m o)).2).
Proof.
  revert m o. induction p as [a|X e k IH]; simpl; intros m o Hp; [done|].
  pose proof (run_ev_sev os e m o _ Hp) as Hx. simpl in Hx.
  destruct (run_ev os e (mkWorld m o)) as [x [m' o']]. by apply IH.
Qed.

(** A read-only program leaves the memory alone. *)
Lemma swp_readonly {A} (p : prog L A) m : readonly p -> swp p (fun _ m' => m' = m) m.
Proof.
  induction p as [a|X e k IH]; simpl; [done|]. intros [He Hk].
  destruct e; simpl in *; try done; intros; apply IH; auto.
Qed.

Lemma swp_leaves {A} (phi : A -> Prop) (p : prog L A) m :
  leaves phi p -> swp p (fun a _ => phi a) m.
Proof.
  revert m. induction p as [a|X e k IH]; simpl; intros m Hl; [done|].
  destruct e; simpl; auto. destruct (_ =? _); auto.
Qed.

Lemma swp_and {A} (p : prog L A) Q1 Q2 m :
  swp p Q1 m -> swp p Q2 m -> swp p (fun a m' => Q1 a m' /\ Q2 a m') m.
Proof.
  revert m. induction p as [a|X e k IH]; simpl; intros m; [done|].
  destruct e; simpl; auto. destruct (_ =? _); auto.
Qed.

(** A program leaves alone what it does not write. *)
Lemma swp_frame {A} (W : L -> Prop) (p : prog L A) m :
  writes_in W p -> swp p (fun _ m' => forall l, ~ W l -> m' l = m l) m.
Proof.
  revert m. induction p as [a|X e k IH]; simpl; intros m; [done|]. intros [He Hk].
  assert (forall l v, W l -> forall m', (forall l', ~ W l' -> m' l' = upd l v m l') ->
    forall l', ~ W l' -> m' l' = m l') as Hup.
  { intros l v Hl m' Hm' l' Hn. rewrite Hm' by done. apply upd_ne. congruence. }
  destruct e; simpl in *; try (intros; by apply IH);
    try (eapply swp_mono; [by apply IH|]; intros a m' Hm; exact (Hup _ _ He m' Hm)).
  destruct (_ =? _); [|by apply IH]. eapply swp_mono; [by apply IH|]. intros a m' Hm. exact (Hup _ _ He m' Hm).
Qed.

Lemma swp_any {A} (p : prog L A) (Q : A -> (L -> Z) -> Prop) m :
  (forall a m', Q a m') -> swp p Q m.
Proof. intros HQ. eapply swp_mono; [apply swp_leaves, leaves_true|]. auto. Qed.

(** [memcpy] out of the segment. *)
Lemma swp_load_list (ls : list L) m :
  swp (load_list ls) (fun vs m' => vs = map m ls /\ m' = m) m.
Proof.
  induction ls as [|l ls IH]; simpl; [done|].
  eapply swp_seq; [exact IH|]. by intros vs m' [-> ->].
Qed.

(** [memcpy] into distinct locations. *)
Lemma swp_store_list (ls : list L) (vs : list Z) m :
  NoDup ls -> length vs = length ls ->
  swp (store_list (zip ls vs)) (fun _ m' =>
    map m' ls = vs /\ forall l, l ∉ ls -> m' l = m l) m.
Proof.
  revert vs m. induction ls as [|l ls IH]; intros [|v vs] m Hnd Hlen; simpl in *; try done.
  apply NoDup_cons in Hnd as [Hl Hnd].
  eapply swp_mono; [apply (IH vs); [done|lia]|]. intros _ m' [Hm Hf]. split.
  - rewrite Hm, Hf by done. by rewrite upd_eq.
  - intros l' Hn. apply not_elem_of_cons in Hn as [Hne Hn]. rewrite Hf by done. by rewrite upd_ne.
Qed.

(** [memset] to zero. *)
Lemma swp_zero (ls : list L) m :
  swp (store_list (map (fun l => (l, 0)) ls)) (fun _ m' =>
    (forall l, l ∈ ls -> m' l = 0) /\ (forall l, l ∉ ls -> m' l = m l)) m.
Proof.
  revert m. induction ls as [|l ls IH]; intros m; simpl.
  { split; [|done]. intros l Hl. by apply elem_of_nil in Hl. }
  eapply swp_mono; [apply IH|]. intros _ m' [H1 H2].
  assert (forall l', l' ∉ ls -> m' l' = if decide (l' = l) then 0 else m l') as H3 by auto.
  split; intros l' Hl'.
  - destruct (decide (l' ∈ ls)); [by apply H1|]. rewrite H3 by done.
    apply elem_of_cons in Hl' as [->|]; [by rewrite decide_True|done].
  - apply not_elem_of_cons in Hl' as [Hne Hn]. rewrite H3 by done. by rewrite decide_False.
Qed.

(** A refusal, where acceptance is [P]. *)
Lemma seq_refuse c op ctx (P : Prop) m :
  ~ P -> swp (fail c op ctx) (fun r m' => (r = @Ok unit tt <-> P) /\ m' = m) m.
Proof. intros HP. split; [|done]. by split. Qed.
End Swp.

(** ** Traces *)

(** An access or a system call, and its answer. *)
Inductive happened (L : Type) : Type :=
| Happened {X : Type} (e : ev L X) (x : X).
Arguments Happened {L X} e x.

Section Traces.
Context {L : Type} `{EqDecision L}.
Implicit Types (m : L -> Z) (tr : list (happened L)).

(** A run of the sequential semantics as a trace. *)
Fixpoint run_trace {OS A} (os : os_model OS) (c : prog L A) (w : world L OS) : list (happened L) :=
  match c with
  | Ret _ => []
  | Vis e k => let r := run_ev os e w in Happened e r.1 :: run_trace os (k r.1) r.2
  end.

(** [hwp p Q m tr]: from memory [m], when [tr] has happened, and whatever the operating
    system answers, [p] ends with a value, a memory and a trace that satisfy [Q]. *)
Fixpoint hwp {A} (p : prog L A) (Q : A -> (L -> Z) -> list (happened L) -> Prop) m tr : Prop :=
  match p with
  | Ret a => Q a m tr
  | Vis e k => sev e m (fun x m' => hwp (k x) Q m' (tr ++ [Happened e x]))
  end.

Lemma hwp_mono {A} (p : prog L A) (Q Q' : A -> (L -> Z) -> list (happened L) -> Prop) m tr :
  hwp p Q m tr -> (forall a m' tr', Q a m' tr' -> Q' a m' tr') -> hwp p Q' m tr.
Proof.
  intros Hp HQ. revert m tr Hp. induction p as [a|X e k IH]; simpl; intros m tr Hp; [auto|].
  eapply sev_mono; [|exact Hp]. auto.
Qed.

Lemma hwp_seq {A B} (p : prog L A) (f : A -> prog L B) Q1 Q m tr :
  hwp p Q1 m tr -> (forall a m' tr', Q1 a m' tr' -> hwp (f a) Q m' tr') -> hwp (bind p f) Q m tr.
Proof.
  intros Hp Hf. revert m tr Hp. induction p as [a|X e k IH]; simpl; intros m tr Hp; [auto|].
  eapply sev_mono; [|exact Hp]. auto.
Qed.

(** What is known without the trace, which only grows. *)
Lemma hwp_swp {A} (p : prog L A) Q m tr :
  swp p Q m -> hwp p (fun a m' tr' => Q a m' /\ tr `prefix_of` tr') m tr.
Proof.
  revert m tr. induction p as [a|X e k IH]; simpl; intros m tr Hp; [done|].
  eapply sev_mono; [|exact Hp]. simpl. intros x m' Hx.
  eapply hwp_mono; [by apply IH|]. simpl. intros a m2 tr2 [HQ Ht]. split; [done|].
  etrans; [|exact Ht]. by eexists.
Qed.

Lemma hwp_run {OS A} (os : os_model OS) (p : prog L A) Q m tr o :
  hwp p Q m tr ->
  Q (run os p (mkWorld m o)).1 (w_mem (run os p (mkWorld m o)).2)
    (tr ++ run_trace os p (mkWorld m o)).
Proof.
  revert m tr o. induction p as [a|X e k IH]; intros m tr o Hp.
  { simpl. by rewrite app_nil_r. }
  cbn [run run_trace]. cbn [hwp] in Hp. pose proof (run_ev_sev os e m o _ Hp) as Hx. simpl in Hx.
  destruct (run_ev os e (mkWorld m o)) as [x [m' o']]. cbn [fst snd w_mem] in *.
  specialize (IH x m' _ o' Hx). by rewrite <- app_assoc in IH.
Qed.
End Traces.

(** Steps through the checks of a header: [refuse] a header that is not accepted,
    branch on the next condition, make the next loads. *)
Ltac refuse := apply seq_refuse; intros [].
Ltac cond E := match goal with |- swp (if ?b then _ else _) _ _ => destruct b eqn:E end.
Ltac loads := cbn [bind plain_load shared_load_acquire trigger swp sev].

(** [upd_simpl]: look up the updates of a memory at the locations of the goal. *)
Ltac upd_simpl :=
  repeat first [ rewrite upd_eq | rewrite upd_ne by congruence ].
