(* ===== verification/Concur.v ===== *)
(** Interleavings of shared-memory programs and a rely-guarantee logic for them.

    A [Protocol] is the contract between the threads that share one segment: the
    history variables the proof adds to the memory ([p_ghost], updated by the
    thread's writes and never read by a program), the invariant [p_inv] of the
    segment, and [p_rely t], what thread [t] may assume of the steps the other
    threads take. [wp t p Q s] says that thread [t], running [p] from [s] among
    threads that keep the contract, keeps it too at every access and ends in [Q].
    [client_reachable] is the adequacy theorem: threads that call operations with
    proved [wp]s, in any order and interleaving, stay inside the contract
    forever. *)
From S2P Require Import Prelude Errors Prog.

Definition tid := nat.

(** Memory with history variables. *)
Record cst (L G : Type) : Type := mkCst { c_mem : L -> Z; c_gh : G }.
Arguments mkCst {L G} c_mem c_gh.
Arguments c_mem {L G} c.
Arguments c_gh {L G} c.

Class Protocol (L G : Type) `{EqDecision L} : Type := {
  (** [p_ghost t l v m g]: the history after thread [t] writes [v] to [l] in
      memory [m]. *)
  p_ghost : tid -> L -> Z -> (L -> Z) -> G -> G;
  p_inv : cst L G -> Prop;
  p_rely : tid -> cst L G -> cst L G -> Prop;
  p_rely_refl : forall t s, p_rely t s s;
  p_rely_trans : forall t s1 s2 s3, p_rely t s1 s2 -> p_rely t s2 s3 -> p_rely t s1 s3
}.

Section Concur.
Context {L G : Type} `{EqDecision L} {P : Protocol L G}.
Implicit Types (s : cst L G) (t u : tid).

Definition write t (l : L) (v : Z) s : cst L G :=
  mkCst (upd l v (c_mem s)) (p_ghost t l v (c_mem s) (c_gh s)).

(** One access by thread [t]: [estep t e s x s'] when [e] answers [x]. A failed
    compare-and-swap writes nothing; the operating system may answer anything. *)
Definition estep t {X} (e : ev L X) s (x : X) (s' : cst L G) : Prop :=
  match e in ev _ Y return Y -> Prop with
  | Load l => fun y => y = c_mem s l /\ s' = s
  | Store l v => fun _ => s' = write t l v s
  | Cas l expected desired => fun y =>
      (y = true /\ c_mem s l = expected /\ s' = write t l desired s) \/
      (y = false /\ c_mem s l <> expected /\ s' = s)
  | FetchAdd modulus l v => fun y =>
      y = c_mem s l /\ s' = write t l ((c_mem s l + v) mod modulus) s
  | FutexWait _ _ _ _ => fun _ => s' = s
  | FutexWake _ _ => fun _ => s' = s
  | Sys _ => fun _ => s' = s
  end x.

(** What a step of [t] owes the others: the invariant and everybody's rely. *)
Definition guarantee t s s' : Prop :=
  p_inv s' /\ forall u, u <> t -> p_rely u s s'.

Lemma guarantee_refl t s : p_inv s -> guarantee t s s.
Proof. split; [done|]. intros. apply p_rely_refl. Qed.

Fixpoint wp {A} t (p : prog L A) (Q : A -> cst L G -> Prop) (s : cst L G) : Prop :=
  match p with
  | Ret a => forall s1, p_rely t s s1 -> p_inv s1 -> Q a s1
  | Vis e k => forall s1, p_rely t s s1 -> p_inv s1 ->
      forall x s2, estep t e s1 x s2 -> guarantee t s1 s2 /\ wp t (k x) Q s2
  end.

Lemma wp_rely {A} t (p : prog L A) Q s s1 :
  p_rely t s s1 -> wp t p Q s -> wp t p Q s1.
Proof.
  intros Hr. destruct p as [a|X e k]; simpl; intros H s2 Hr2;
    apply H; eapply p_rely_trans; eauto.
Qed.

Lemma wp_mono {A} t (p : prog L A) (Q Q' : A -> cst L G -> Prop) s :
  (forall a s', p_inv s' -> Q a s' -> Q' a s') -> wp t p Q s -> wp t p Q' s.
Proof.
  intros HQ. revert s. induction p as [a|X e k IH]; simpl; intros s H s1 Hr Hi.
  - apply HQ; auto.
  - intros x s2 Hs. destruct (H s1 Hr Hi x s2 Hs) as [Hg Hw]. split; [done|]. by apply IH.
Qed.

Lemma wp_bind {A B} t (p : prog L A) (f : A -> prog L B) Q s :
  wp t p (fun a s' => wp t (f a) Q s') s -> wp t (bind p f) Q s.
Proof.
  revert s. induction p as [a|X e k IH]; simpl; intros s H.
  - destruct (f a) as [b|Y e k]; simpl; intros s1 Hr Hi.
    + specialize (H s1 Hr Hi). simpl in H. apply H; [apply p_rely_refl|done].
    + specialize (H s1 Hr Hi). simpl in H. apply H; [apply p_rely_refl|done].
  - intros s1 Hr Hi x s2 Hs. destruct (H s1 Hr Hi x s2 Hs) as [Hg Hw].
    split; [done|]. by apply IH.
Qed.

(** * Stable assertions *)

Definition stable t (R : cst L G -> Prop) : Prop :=
  forall s s', R s -> p_rely t s s' -> p_inv s' -> R s'.

Lemma stable_and t R1 R2 :
  stable t R1 -> stable t R2 -> stable t (fun s => R1 s /\ R2 s).
Proof. intros H1 H2 s s' [] ? ?. split; eauto. Qed.

Lemma stable_or t R1 R2 :
  stable t R1 -> stable t R2 -> stable t (fun s => R1 s \/ R2 s).
Proof. intros H1 H2 s s' [] ? ?; [left|right]; eauto. Qed.

Lemma stable_pure t (R : Prop) : stable t (fun _ => R).
Proof. by intros s s' ?. Qed.

Lemma wp_ret {A} t (a : A) R (Q : A -> cst L G -> Prop) s :
  stable t R -> R s -> (forall s', p_inv s' -> R s' -> Q a s') -> wp t (Ret a) Q s.
Proof. intros HR Hs HQ s1 Hr Hi. eauto. Qed.

(** A load: the continuation starts in a state where the stable facts and the
    invariant still hold, with the value that state has. *)
Lemma wp_load {A} t l (k : Z -> prog L A) R Q s :
  stable t R -> R s ->
  (forall s', p_inv s' -> R s' -> wp t (k (c_mem s' l)) Q s') ->
  wp t (Vis (Load l) k) Q s.
Proof.
  intros HR Hs Hk s1 Hr Hi x s2 [-> ->]. split; [by apply guarantee_refl|]. eauto.
Qed.

Lemma wp_store {A} t l v (k : unit -> prog L A) R Q s :
  stable t R -> R s ->
  (forall s', p_inv s' -> R s' ->
     guarantee t s' (write t l v s') /\ wp t (k tt) Q (write t l v s')) ->
  wp t (Vis (Store l v) k) Q s.
Proof.
  intros HR Hs Hk s1 Hr Hi [] s2 Hs2. simpl in Hs2. subst s2. eauto.
Qed.

Lemma wp_cas {A} t l e d (k : bool -> prog L A) R Q s :
  stable t R -> R s ->
  (forall s', p_inv s' -> R s' -> c_mem s' l = e ->
     guarantee t s' (write t l d s') /\ wp t (k true) Q (write t l d s')) ->
  (forall s', p_inv s' -> R s' -> c_mem s' l <> e -> wp t (k false) Q s') ->
  wp t (Vis (Cas l e d) k) Q s.
Proof.
  intros HR Hs Ht Hf s1 Hr Hi x s2 [(-> & He & ->)|(-> & Hne & ->)].
  - eauto.
  - split; [by apply guarantee_refl|]. eauto.
Qed.

Lemma wp_fetch_add {A} t m l v (k : Z -> prog L A) R Q s :
  stable t R -> R s ->
  (forall s', p_inv s' -> R s' ->
     let s'' := write t l ((c_mem s' l + v) mod m) s' in
     guarantee t s' s'' /\ wp t (k (c_mem s' l)) Q s'') ->
  wp t (Vis (FetchAdd m l v) k) Q s.
Proof. intros HR Hs Hk s1 Hr Hi x s2 [-> ->]. eauto. Qed.

(** A read-only program keeps every stable fact and changes nothing. *)
Lemma wp_readonly {A} t (p : prog L A) R Q s :
  readonly p -> stable t R -> R s ->
  (forall a s', p_inv s' -> R s' -> Q a s') -> wp t p Q s.
Proof.
  intros Hp HR Hs HQ. revert s Hs Hp.
  induction p as [a|X e k IH]; simpl; intros s Hs Hp s1 Hr Hi; [eauto|].
  destruct Hp as [He Hk]. intros x s2 Hstep.
  assert (s2 = s1) as -> by (destruct e; simpl in *; destruct_and?; done).
  split; [by apply guarantee_refl|]. apply IH; eauto.
Qed.

(** The same with what the program can return. *)
Lemma wp_readonly_leaves {A} t (p : prog L A) (phi : A -> Prop) R Q s :
  readonly p -> leaves phi p -> stable t R -> R s ->
  (forall a s', p_inv s' -> phi a -> R s' -> Q a s') -> wp t p Q s.
Proof.
  intros Hp Hl HR Hs HQ. revert s Hs Hp Hl.
  induction p as [a|X e k IH]; simpl; intros s Hs Hp Hl s1 Hr Hi; [eauto|].
  destruct Hp as [He Hk]. intros x s2 Hstep.
  assert (s2 = s1) as -> by (destruct e; simpl in *; destruct_and?; done).
  split; [by apply guarantee_refl|]. apply IH; eauto.
Qed.

Lemma wp_readonly_bind {A B} t (p : prog L A) (f : A -> prog L B) R Q s :
  readonly p -> stable t R -> R s ->
  (forall a s', p_inv s' -> R s' -> wp t (f a) Q s') -> wp t (bind p f) Q s.
Proof. intros. apply wp_bind. eapply wp_readonly; eauto. Qed.

(** A program that writes only where no one looks keeps every stable fact. *)
Lemma wp_writes_in {A} t (W : L -> Prop) (p : prog L A) R Q s :
  (forall l v s, W l -> p_inv s -> guarantee t s (write t l v s) /\ p_rely t s (write t l v s)) ->
  writes_in W p -> stable t R -> R s ->
  (forall a s', p_inv s' -> R s' -> Q a s') -> wp t p Q s.
Proof.
  intros HW Hp HR Hs HQ. revert s Hs Hp.
  induction p as [a|X e k IH]; simpl; intros s Hs Hp s1 Hr Hi; [eauto|].
  destruct Hp as [He Hk]. intros x s2 Hstep.
  assert (guarantee t s1 s2 /\ R s2) as [Hg H2]; [|split; [done|by apply IH]].
  assert (R s1) as H1 by eauto.
  assert (s2 = s1 \/ exists l v, W l /\ s2 = write t l v s1) as [->|(l & v & Hl & ->)].
  { destruct e; simpl in *; destruct_and?; subst; try (by left); try (right; eauto; done).
    destruct Hstep as [(_ & _ & ->)|(_ & _ & ->)]; [right; eauto|by left]. }
  - split; [by apply guarantee_refl|done].
  - destruct (HW l v s1 Hl Hi) as [Hg Hy]. split; [done|]. eapply HR; [done|done|apply Hg].
Qed.

(** Sequencing. *)
Lemma wp_seq {A B} t (p : prog L A) (f : A -> prog L B) Q1 Q s :
  wp t p Q1 s -> (forall a s', p_inv s' -> Q1 a s' -> wp t (f a) Q s') ->
  wp t (bind p f) Q s.
Proof. intros Hp Hf. apply wp_bind. eapply wp_mono; [|done]. auto. Qed.

Lemma wp_trigger_load t l R s :
  stable t R -> R s ->
  wp t (trigger (Load l)) (fun v s' => R s' /\
    exists s0, p_rely t s0 s' /\ p_inv s0 /\ R s0 /\ v = c_mem s0 l) s.
Proof.
  intros HR Hs. unfold trigger. eapply (wp_load _ _ _ R); [done..|]. intros s0 Hi Hs0.
  intros s1 Hr Hi1. split; [eauto|]. by exists s0.
Qed.

(** A load of a location the invariant fixes. *)
Lemma wp_trigger_load_const t l v R s :
  (forall s', p_inv s' -> c_mem s' l = v) -> stable t R -> R s ->
  wp t (trigger (Load l)) (fun v' s' => v' = v /\ R s') s.
Proof.
  intros Hv HR Hs. unfold trigger. eapply (wp_load _ _ _ R); [done..|]. intros s0 Hi Hs0.
  rewrite (Hv s0 Hi). intros s1 Hr Hi1. eauto.
Qed.

Lemma wp_trigger_store t l v R R' s :
  stable t R -> stable t R' -> R s ->
  (forall s', p_inv s' -> R s' -> guarantee t s' (write t l v s') /\ R' (write t l v s')) ->
  wp t (trigger (Store l v)) (fun _ s' => R' s') s.
Proof.
  intros HR HR' Hs H. eapply (wp_store _ _ _ _ R); [done..|]. intros s' Hi Hs'.
  destruct (H s' Hi Hs') as [Hg H']. split; [done|]. intros s1 Hr Hi1. eauto.
Qed.

Lemma wp_trigger_cas t l e d R Rt Rf s :
  stable t R -> stable t Rt -> stable t Rf -> R s ->
  (forall s', p_inv s' -> R s' -> c_mem s' l = e ->
     guarantee t s' (write t l d s') /\ Rt (write t l d s')) ->
  (forall s', p_inv s' -> R s' -> c_mem s' l <> e -> Rf s') ->
  wp t (trigger (Cas l e d)) (fun ok s' => if (ok : bool) then Rt s' else Rf s') s.
Proof.
  intros HR HRt HRf Hs Ht Hf. eapply (wp_cas _ _ _ _ _ R); [done..| |].
  - intros s' Hi Hs' He. destruct (Ht s' Hi Hs' He). split; [done|]. intros s1 Hr Hi1. eauto.
  - intros s' Hi Hs' He s1 Hr Hi1. eauto.
Qed.

Lemma wp_trigger_fetch_add t m l v R R' s :
  stable t R -> stable t R' -> R s ->
  (forall s', p_inv s' -> R s' ->
     let s'' := write t l ((c_mem s' l + v) mod m) s' in guarantee t s' s'' /\ R' s'') ->
  wp t (trigger (FetchAdd m l v)) (fun _ s' => R' s') s.
Proof.
  intros HR HR' Hs H. eapply (wp_fetch_add _ _ _ _ _ R); [done..|]. intros s' Hi Hs'.
  destruct (H s' Hi Hs') as [Hg H']. split; [done|]. intros s1 Hr Hi1. eauto.
Qed.

(** The same for the first access of a sequence. [R'] is what the access leaves. *)
Lemma wp_bind_load {A} t l (f : Z -> prog L A) R (R' : Z -> cst L G -> Prop) Q s :
  stable t R -> (forall v, stable t (R' v)) -> R s ->
  (forall s', p_inv s' -> R s' -> R' (c_mem s' l) s') ->
  (forall v s', p_inv s' -> R' v s' -> wp t (f v) Q s') -> wp t (bind (trigger (Load l)) f) Q s.
Proof.
  intros HR HR' Hs H Hf. eapply wp_seq; [by apply (wp_trigger_load _ _ R)|].
  intros v s' Hi [_ (s0 & Hr & Hi0 & H0 & ->)]. apply Hf; [done|]. eapply HR'; eauto.
Qed.

Lemma wp_bind_store {A} t l v (f : unit -> prog L A) R R' Q s :
  stable t R -> stable t R' -> R s ->
  (forall s', p_inv s' -> R s' -> guarantee t s' (write t l v s') /\ R' (write t l v s')) ->
  (forall s', p_inv s' -> R' s' -> wp t (f tt) Q s') ->
  wp t (bind (trigger (Store l v)) f) Q s.
Proof.
  intros HR HR' Hs H Hf. eapply wp_seq; [by apply (wp_trigger_store _ _ _ R R')|].
  intros [] s' Hi. by apply Hf.
Qed.

Lemma wp_bind_cas {A} t l e d (f : bool -> prog L A) R Rt Rf Q s :
  stable t R -> stable t Rt -> stable t Rf -> R s ->
  (forall s', p_inv s' -> R s' -> c_mem s' l = e ->
     guarantee t s' (write t l d s') /\ Rt (write t l d s')) ->
  (forall s', p_inv s' -> R s' -> c_mem s' l <> e -> Rf s') ->
  (forall s', p_inv s' -> Rt s' -> wp t (f true) Q s') ->
  (forall s', p_inv s' -> Rf s' -> wp t (f false) Q s') ->
  wp t (bind (trigger (Cas l e d)) f) Q s.
Proof.
  intros HR HRt HRf Hs H1 H2 Hft Hff.
  eapply wp_seq; [by apply (wp_trigger_cas _ _ _ _ R Rt Rf)|].
  intros [] s' Hi; [by apply Hft|by apply Hff].
Qed.

Lemma wp_bind_fetch_add {A} t m l v (f : Z -> prog L A) R R' Q s :
  stable t R -> stable t R' -> R s ->
  (forall s', p_inv s' -> R s' ->
     let s'' := write t l ((c_mem s' l + v) mod m) s' in guarantee t s' s'' /\ R' s'') ->
  (forall x s', p_inv s' -> R' s' -> wp t (f x) Q s') ->
  wp t (bind (trigger (FetchAdd m l v)) f) Q s.
Proof.
  intros HR HR' Hs H Hf. eapply wp_seq; [by apply (wp_trigger_fetch_add _ _ _ _ R R')|].
  intros x s' Hi. by apply Hf.
Qed.

Lemma wp_bind_known {A} t l x (f : Z -> prog L A) R Q s :
  stable t R -> R s -> (forall s', p_inv s' -> R s' -> c_mem s' l = x) ->
  (forall s', p_inv s' -> R s' -> wp t (f x) Q s') -> wp t (bind (trigger (Load l)) f) Q s.
Proof.
  intros HR Hs Hx Hf. eapply (wp_bind_load _ _ _ R (fun v s' => v = x /\ R s')); [done|..].
  - intros v s1 s2 [? ?] ? ?. eauto.
  - done.
  - intros s' Hi H. by rewrite Hx.
  - intros v s' Hi [-> H]. auto.
Qed.

(** Loading locations that stay as they are while [R] holds. *)
Lemma wp_load_list t ls vs R s :
  stable t R -> R s -> (forall s', p_inv s' -> R s' -> map (c_mem s') ls = vs) ->
  wp t (load_list ls) (fun x s' => x = vs /\ R s') s.
Proof.
  intros HR. revert vs s. induction ls as [|l ls IH]; intros vs s Hs Hv.
  - intros s1 Hr Hi. assert (R s1) as H1 by eauto. split; [|done]. by rewrite <- (Hv s1 Hi H1).
  - cbn [load_list]. eapply (wp_load _ _ _ R); [done..|]. intros s1 Hi H1.
    pose proof (Hv s1 Hi H1) as Hvs. cbn [map] in Hvs. subst vs.
    eapply wp_seq; [apply (IH (map (c_mem s1) ls) s1 H1)|].
    + intros s' Hi' Hs'. specialize (Hv s' Hi' Hs'). cbn [map] in Hv. by injection Hv.
    + intros a s' Hi' [-> Hs']. eapply (wp_ret _ _ R); eauto.
Qed.

Lemma wp_bind_load_list {A} t ls vs (f : list Z -> prog L A) R Q s :
  stable t R -> R s -> (forall s', p_inv s' -> R s' -> map (c_mem s') ls = vs) ->
  (forall s', p_inv s' -> R s' -> wp t (f vs) Q s') -> wp t (bind (load_list ls) f) Q s.
Proof.
  intros HR Hs Hv Hf. eapply wp_seq; [by apply wp_load_list|]. intros a s' Hi [-> H]. auto.
Qed.

(** A thread can always go on: every access has an answer. *)
Lemma estep_total t {X} (e : ev L X) s : exists x s', estep t e s x s'.
Proof.
  destruct e as [l|l v|l e d|m l v|l e sec ns|l n|X c]; simpl.
  - by exists (c_mem s l), s.
  - by eexists tt, _.
  - destruct (decide (c_mem s l = e)).
    + eexists true, _. by left.
    + exists false, s. by right.
  - by eexists _, _.
  - by exists (SysErr 0), s.
  - by exists (SysErr 0), s.
  - by exists (sys_default c), s.
Qed.

(** Run alone from here, the program ends in its postcondition. *)
Lemma wp_final {A} t (p : prog L A) Q s (Mono : cst L G -> cst L G -> Prop) :
  (forall s', Mono s' s') -> (forall s1 s2 s3, Mono s1 s2 -> Mono s2 s3 -> Mono s1 s3) ->
  (forall X (e : ev L X) x s1 s2, estep t e s1 x s2 -> Mono s1 s2) ->
  p_inv s -> wp t p Q s -> exists a s', Q a s' /\ Mono s s'.
Proof.
  intros Hrefl Htrans Hstep. revert s. induction p as [a|X e k IH]; simpl; intros s Hi H.
  - exists a, s. split; [|done]. apply H; [apply p_rely_refl|done].
  - destruct (estep_total t e s) as (x & s1 & He).
    destruct (H s (p_rely_refl t s) Hi x s1 He) as [[Hi1 _] Hw].
    destruct (IH x s1 Hi1 Hw) as (a & s2 & HQ & Hm). exists a, s2. eauto.
Qed.

(** A fact that no step undoes holds at the end if it holds at the start. *)
Lemma wp_keep {A} t (p : prog L A) Q R s :
  stable t R -> (forall s s', guarantee t s s' -> R s -> R s') -> R s -> wp t p Q s ->
  wp t p (fun a s' => Q a s' /\ R s') s.
Proof.
  intros HR Hg. revert s. induction p as [a|X e k IH]; simpl; intros s Hs H s1 Hr Hi; [eauto|].
  intros x s2 He. destruct (H s1 Hr Hi x s2 He) as [H1 H2]. split; [done|].
  apply IH; [|done]. eapply Hg; [done|]. by eapply HR.
Qed.

(** Two [wp]s of one program conjoin. *)
Lemma wp_and {A} t (p : prog L A) Q1 Q2 s :
  wp t p Q1 s -> wp t p Q2 s -> wp t p (fun a s' => Q1 a s' /\ Q2 a s') s.
Proof.
  revert s. induction p as [a|X e k IH]; simpl; intros s H1 H2 s1 Hr Hi; [by eauto|].
  intros x s2 Hs. destruct (H1 s1 Hr Hi x s2 Hs) as [Hg Hw1].
  destruct (H2 s1 Hr Hi x s2 Hs) as [_ Hw2]. split; [done|]. by apply IH.
Qed.

Lemma wp_leaves {A} t (p : prog L A) (phi : A -> Prop) Q s :
  leaves phi p -> wp t p Q s -> wp t p (fun a _ => phi a) s.
Proof.
  revert s. induction p as [a|X e k IH]; simpl; intros s Hl H s1 Hr Hi; [done|].
  intros x s2 Hs. destruct (H s1 Hr Hi x s2 Hs) as [Hg Hw]. split; [done|]. by apply IH.
Qed.

(** * Clients *)

(** Each thread runs operations one after the other, forever if it likes;
    [th_hist] is the sequence of calls it made with their results. What a call
    runs may depend on them: a thread acts on the objects earlier calls gave
    it. *)
Section Clients.
Context {Op Res : Type} (impl : tid -> list (Op * Res) -> Op -> prog L Res).

Record thread : Type := mkThread {
  th_run : option (Op * prog L Res);
  th_hist : list (Op * Res)
}.

Record config : Type := mkConfig {
  cf_st : cst L G;
  cf_threads : tid -> thread
}.

Inductive cstep : config -> config -> Prop :=
| cstep_call c t op h :
    cf_threads c t = mkThread None h ->
    cstep c (mkConfig (cf_st c)
      (upd t (mkThread (Some (op, impl t h op)) h) (cf_threads c)))
| cstep_access c t op h X (e : ev L X) k x s' :
    cf_threads c t = mkThread (Some (op, Vis e k)) h ->
    estep t e (cf_st c) x s' ->
    cstep c (mkConfig s' (upd t (mkThread (Some (op, k x)) h) (cf_threads c)))
| cstep_return c t op h r :
    cf_threads c t = mkThread (Some (op, Ret r)) h ->
    cstep c (mkConfig (cf_st c)
      (upd t (mkThread None (h ++ [(op, r)])) (cf_threads c))).

(** Configurations reachable from [s0] with no call made yet. *)
Definition initial s0 : config := mkConfig s0 (fun _ => mkThread None []).
Definition reachable s0 : config -> Prop := rtc cstep (initial s0).

(** [Idle t h s]: what is known of thread [t] between two calls when it has made
    the calls [h]. *)
Context (Idle : tid -> list (Op * Res) -> cst L G -> Prop).

Definition thread_ok t (th : thread) s : Prop :=
  match th_run th with
  | None => Idle t (th_hist th) s
  | Some (op, p) => wp t p (fun r s' => Idle t (th_hist th ++ [(op, r)]) s') s
  end.

Definition config_ok (c : config) : Prop :=
  p_inv (cf_st c) /\ forall t, thread_ok t (cf_threads c t) (cf_st c).

Hypothesis idle_stable : forall t h, stable t (Idle t h).
Hypothesis op_wp : forall t op h s, p_inv s -> Idle t h s ->
  wp t (impl t h op) (fun r s' => Idle t (h ++ [(op, r)]) s') s.

Lemma thread_ok_rely t th s s' :
  thread_ok t th s -> p_rely t s s' -> p_inv s' -> thread_ok t th s'.
Proof.
  unfold thread_ok. destruct (th_run th) as [[op p]|]; intros H Hr Hi.
  - by eapply wp_rely.
  - by eapply idle_stable.
Qed.

Lemma cstep_ok c c' : config_ok c -> cstep c c' -> config_ok c'.
Proof.
  intros [Hi Ht] Hs. inversion Hs as
    [? t op h Heq|? t op h X e k x s' Heq He|? t op h r Heq]; subst; split; simpl.
  - done.
  - intros u. unfold upd. case_decide; [subst u|apply Ht].
    specialize (Ht t). rewrite Heq in Ht. by apply op_wp.
  - specialize (Ht t). rewrite Heq in Ht. unfold thread_ok in Ht. simpl in Ht.
    by destruct (Ht (cf_st c) (p_rely_refl t _) Hi x s' He) as [[? ?] ?].
  - intros u. pose proof (Ht t) as Htt. rewrite Heq in Htt. unfold thread_ok in Htt.
    simpl in Htt. destruct (Htt (cf_st c) (p_rely_refl t _) Hi x s' He) as [[Hi' Hg] Hw].
    unfold upd. case_decide as Hu; [by subst u|].
    eapply thread_ok_rely; eauto.
  - done.
  - intros u. unfold upd. case_decide; [subst u|apply Ht].
    specialize (Ht t). rewrite Heq in Ht. unfold thread_ok in *. simpl in *.
    apply Ht; [apply p_rely_refl|done].
Qed.

(** Adequacy: from a good initial state every reachable configuration satisfies
    the invariant and every thread's assertion. *)
Lemma client_reachable s0 c :
  p_inv s0 -> (forall t, Idle t [] s0) -> reachable s0 c -> config_ok c.
Proof.
  intros Hi H0 Hr. unfold reachable in Hr.
  assert (config_ok (initial s0)) as Hok by (split; [done|intros t; apply H0]).
  remember (initial s0) as c0 eqn:E. clear E.
  induction Hr as [c|c1 c2 c3 Hs Hr IH]; [done|]. apply IH. by eapply cstep_ok.
Qed.

(** What holds of a thread's finished calls also while it is inside a call, or
    after it stopped for good in the middle of one. *)
Context (Past : tid -> list (Op * Res) -> cst L G -> Prop).
Hypothesis idle_past : forall t h s, Idle t h s -> Past t h s.
Hypothesis past_step : forall t u h X (e : ev L X) x s s',
  estep u e s x s' -> guarantee u s s' -> Past t h s -> Past t h s'.

Lemma client_past s0 c :
  p_inv s0 -> (forall t, Idle t [] s0) -> reachable s0 c ->
  forall t, Past t (th_hist (cf_threads c t)) (cf_st c).
Proof.
  intros Hi H0 Hr. unfold reachable in Hr.
  assert (config_ok (initial s0)) as Hok by (split; [done|intros t; apply H0]).
  assert (forall t, Past t (th_hist (cf_threads (initial s0) t)) (cf_st (initial s0))) as HP
    by (intros t; apply idle_past, H0).
  remember (initial s0) as c0 eqn:E. clear E.
  induction Hr as [c|c1 c2 c3 Hs Hr IH]; [done|].
  pose proof (cstep_ok _ _ Hok Hs) as Hok2. apply IH; [done|].
  inversion Hs as [? t op h Heq|? t op h X e k x s' Heq He|? t op h r Heq]; subst; simpl;
    intros u.
  - unfold upd. case_decide as Hu; [|apply HP]. subst u. specialize (HP t). by rewrite Heq in HP.
  - assert (guarantee t (cf_st c1) s') as Hg.
    { destruct Hok as [Hi1 Ht]. specialize (Ht t). rewrite Heq in Ht.
      by destruct (Ht (cf_st c1) (p_rely_refl t _) Hi1 x s' He). }
    unfold upd. case_decide as Hu; [|by eapply past_step].
    subst u. specialize (HP t). rewrite Heq in HP. by eapply past_step.
  - unfold upd. case_decide as Hu; [|apply HP]. subst u. apply idle_past.
    destruct Hok2 as [_ Ht]. specialize (Ht t). simpl in Ht. unfold upd in Ht.
    by rewrite decide_True in Ht.
Qed.
End Clients.
End Concur.

Arguments mkThread {L Op Res} th_run th_hist.
Arguments th_run {L Op Res} t.
Arguments th_hist {L Op Res} t.
Arguments mkConfig {L G Op Res} cf_st cf_threads.
Arguments cf_st {L G Op Res} c.
Arguments cf_threads {L G Op Res} c t.

(** * A thread running alone *)

(** [solo os t p s o] lets thread [t] run [p] to its end with the answers of the
    operating-system model [os]; [solo_reachable] makes it a run of the
    interleaving semantics. *)
Section Solo.
Context {L G : Type} `{EqDecision L} {P : Protocol L G} {OS : Type} (os : os_model OS).

Definition solo_ev (t : tid) {X} (e : ev L X) (s : cst L G) (o : OS) : X * cst L G * OS :=
  match e in ev _ Y return Y * cst L G * OS with
  | Load l => (c_mem s l, s, o)
  | Store l v => (tt, write t l v s, o)
  | Cas l expected desired =>
      if decide (c_mem s l = expected) then (true, write t l desired s, o) else (false, s, o)
  | FetchAdd modulus l v => (c_mem s l, write t l ((c_mem s l + v) mod modulus) s, o)
  | FutexWait l expected sec nsec =>
      let '(x, o') := os _ (sys_futex_wait expected sec nsec) o in (x, s, o')
  | FutexWake l count => let '(x, o') := os _ (sys_futex_wake count) o in (x, s, o')
  | Sys c => let '(x, o') := os _ c o in (x, s, o')
  end.

Fixpoint solo {A} (t : tid) (p : prog L A) (s : cst L G) (o : OS) : A * cst L G * OS :=
  match p with
  | Ret a => (a, s, o)
  | Vis e k => let '(x, s', o') := solo_ev t e s o in solo t (k x) s' o'
  end.

(** The first [n] accesses of [p]: what is left of it, the state and the
    operating system after them. *)
Fixpoint solo_n {A} (n : nat) (t : tid) (p : prog L A) (s : cst L G) (o : OS)
    : prog L A * cst L G :=
  match n, p with
  | S n', Vis e k => let '(x, s', o') := solo_ev t e s o in solo_n n' t (k x) s' o'
  | _, _ => (p, s)
  end.

Lemma solo_ev_estep t X (e : ev L X) s o :
  estep t e s (solo_ev t e s o).1.1 (solo_ev t e s o).1.2.
Proof.
  destruct e; simpl; try done; try (by destruct (os _ _ _)).
  case_decide; [by left|by right].
Qed.

Section SoloReachable.
Context {Op Res : Type} (impl : tid -> list (Op * Res) -> Op -> prog L Res).

Lemma solo_steps t op h (p : prog L Res) c o :
  cf_threads c t = mkThread (Some (op, p)) h ->
  exists c', rtc (cstep impl) c c' /\ cf_st c' = (solo t p (cf_st c) o).1.2 /\
    cf_threads c' t = mkThread None (h ++ [(op, (solo t p (cf_st c) o).1.1)]) /\
    forall u, u <> t -> cf_threads c' u = cf_threads c u.
Proof.
  revert c o. induction p as [a|X e k IH]; intros c o Hc; simpl.
  - eexists. split; [eapply rtc_once, cstep_return, Hc|]. simpl.
    split; [done|]. split; [by rewrite upd_eq|]. intros u Hu. by rewrite upd_ne.
  - pose proof (solo_ev_estep t X e (cf_st c) o) as He.
    destruct (solo_ev t e (cf_st c) o) as [[x s1] o1]. simpl in He.
    set (c1 := mkConfig s1 (upd t (mkThread (Some (op, k x)) h) (cf_threads c))).
    destruct (IH x c1 o1) as (c' & Hr & Hst & Ht & Hu).
    { simpl. by rewrite upd_eq. }
    exists c'. split; [eapply rtc_l; [eapply cstep_access; [exact Hc|exact He]|exact Hr]|].
    split; [exact Hst|]. split; [exact Ht|]. intros u Hne. rewrite Hu by done. simpl.
    by rewrite upd_ne.
Qed.

Lemma solo_call_steps c t op h o :
  cf_threads c t = mkThread None h ->
  exists c', rtc (cstep impl) c c' /\ cf_st c' = (solo t (impl t h op) (cf_st c) o).1.2 /\
    cf_threads c' t = mkThread None (h ++ [(op, (solo t (impl t h op) (cf_st c) o).1.1)]) /\
    forall u, u <> t -> cf_threads c' u = cf_threads c u.
Proof.
  intros Hc.
  set (c1 := mkConfig (cf_st c) (upd t (mkThread (Some (op, impl t h op)) h) (cf_threads c))).
  destruct (solo_steps t op h (impl t h op) c1 o) as (c' & Hr' & Hst & Ht & Hu).
  { simpl. by rewrite upd_eq. }
  exists c'. split; [eapply rtc_l; [by eapply cstep_call|exact Hr']|].
  split; [exact Hst|]. split; [exact Ht|]. intros u Hne. rewrite Hu by done. simpl.
  by rewrite upd_ne.
Qed.

Lemma solo_reachable s0 c t op h o :
  reachable impl s0 c -> cf_threads c t = mkThread None h ->
  exists c', reachable impl s0 c' /\ cf_st c' = (solo t (impl t h op) (cf_st c) o).1.2 /\
    cf_threads c' t = mkThread None (h ++ [(op, (solo t (impl t h op) (cf_st c) o).1.1)]) /\
    forall u, u <> t -> cf_threads c' u = cf_threads c u.
Proof.
  intros Hr Hc. destruct (solo_call_steps c t op h o Hc) as (c' & Hs & H). exists c'.
  split; [by unfold reachable in *; etrans|done].
Qed.

(** A call that stops after [n] accesses. *)
Lemma solo_n_steps n t op h (p : prog L Res) c o :
  cf_threads c t = mkThread (Some (op, p)) h ->
  exists c', rtc (cstep impl) c c' /\ cf_st c' = (solo_n n t p (cf_st c) o).2 /\
    cf_threads c' t = mkThread (Some (op, (solo_n n t p (cf_st c) o).1)) h /\
    forall u, u <> t -> cf_threads c' u = cf_threads c u.
Proof.
  revert p c o. induction n as [|n IH]; intros p c o Hc; [by exists c|].
  destruct p as [a|X e k]; simpl; [by exists c|].
  pose proof (solo_ev_estep t X e (cf_st c) o) as He.
  destruct (solo_ev t e (cf_st c) o) as [[x s1] o1]. simpl in He.
  destruct (IH (k x) (mkConfig s1 (upd t (mkThread (Some (op, k x)) h) (cf_threads c))) o1)
    as (c' & Hr & Hst & Ht & Hu); [simpl; by rewrite upd_eq|].
  exists c'. split; [eapply rtc_l; [by eapply cstep_access|exact Hr]|].
  split; [exact Hst|]. split; [exact Ht|]. intros u Hne. rewrite Hu by done. simpl.
  by rewrite upd_ne.
Qed.

Lemma solo_n_call_steps n c t op h o :
  cf_threads c t = mkThread None h ->
  exists c', rtc (cstep impl) c c' /\ cf_st c' = (solo_n n t (impl t h op) (cf_st c) o).2 /\
    th_hist (cf_threads c' t) = h /\
    forall u, u <> t -> cf_threads c' u = cf_threads c u.
Proof.
  intros Hc.
  set (c1 := mkConfig (cf_st c) (upd t (mkThread (Some (op, impl t h op)) h) (cf_threads c))).
  destruct (solo_n_steps n t op h (impl t h op) c1 o) as (c' & Hr' & Hst & Ht & Hu).
  { simpl. by rewrite upd_eq. }
  exists c'. split; [eapply rtc_l; [by eapply cstep_call|exact Hr']|].
  split; [exact Hst|]. split; [by rewrite Ht|]. intros u Hne. rewrite Hu by done. simpl.
  by rewrite upd_ne.
Qed.

Lemma solo_n_reachable n s0 c t op h o :
  reachable impl s0 c -> cf_threads c t = mkThread None h ->
  exists c', reachable impl s0 c' /\ cf_st c' = (solo_n n t (impl t h op) (cf_st c) o).2 /\
    th_hist (cf_threads c' t) = h /\
    forall u, u <> t -> cf_threads c' u = cf_threads c u.
Proof.
  intros Hr Hc. destruct (solo_n_call_steps n c t op h o Hc) as (c' & Hs & H). exists c'.
  split; [by unfold reachable in *; etrans|done].
Qed.

(** Calls one after the other, each by its thread, with the history of every
    thread. *)
Fixpoint script (calls : list (tid * Op)) (s : cst L G) (hs : tid -> list (Op * Res)) (o : OS)
    : cst L G * (tid -> list (Op * Res)) :=
  match calls with
  | [] => (s, hs)
  | (t, op) :: calls' =>
      let '(r, s', o') := solo t (impl t (hs t) op) s o in
      script calls' s' (upd t (hs t ++ [(op, r)]) hs) o'
  end.

Lemma script_steps calls c hs o :
  (forall t, cf_threads c t = mkThread None (hs t)) ->
  exists c', rtc (cstep impl) c c' /\ cf_st c' = (script calls (cf_st c) hs o).1 /\
    forall t, cf_threads c' t = mkThread None ((script calls (cf_st c) hs o).2 t).
Proof.
  revert c hs o. induction calls as [|[t op] calls IH]; intros c hs o Hc; simpl; [by exists c|].
  destruct (solo_call_steps c t op (hs t) o (Hc t)) as (c' & Hr' & Hst & Ht & Hu).
  destruct (solo t (impl t (hs t) op) (cf_st c) o) as [[r s'] o']. simpl in Hst, Ht.
  destruct (IH c' (upd t (hs t ++ [(op, r)]) hs) o') as (c2 & Hr2 & Hst2 & Ht2).
  { intros u. unfold upd. case_decide as Hd; [by subst u|]. by rewrite Hu. }
  rewrite Hst in Hst2, Ht2. exists c2. split; [by etrans|done].
Qed.

Lemma script_reachable s0 calls o :
  exists c, reachable impl s0 c /\ cf_st c = (script calls s0 (fun _ => []) o).1 /\
    forall t, cf_threads c t = mkThread None ((script calls s0 (fun _ => []) o).2 t).
Proof. by apply (script_steps calls (initial s0)). Qed.
End SoloReachable.
End Solo.

#[global] Hint Resolve stable_and stable_or stable_pure : prog_db.
