(* ===== verification/ProcIdentity.v ===== *)
(** Process identity and liveness:
    [src/edge_runtime/process/process_identity.{hpp,cpp}].

    A process is identified by its pid, its start time in ticks
    ([/proc/<pid>/stat], field 22) and two hashes of the boot id. The parser of
    the stat line, the boot-id check and the liveness probe are modelled
    branch by branch; the kernel is the system calls of [Prog.sys]. *)
From stdpp Require Import pretty.
From S2P Require Import Prelude Errors Checksum Prog.

Record ProcessIdentity : Type := mkIdentity {
  pid : Z;
  proc_start_ticks : Z;
  boot_id_hash_hi : Z;
  boot_id_hash_lo : Z
}.

#[global] Instance ProcessIdentity_eq_dec : EqDecision ProcessIdentity.
Proof. solve_decision. Defined.

(** [ProcessIdentity{}]. *)
Definition zero_identity : ProcessIdentity := mkIdentity 0 0 0 0.

Inductive Liveness : Type := kAlive | kExited | kPidReused | kUnverifiable.

#[global] Instance Liveness_eq_dec : EqDecision Liveness.
Proof. solve_decision. Defined.

Definition kMaxInterruptedAttempts : nat := 8.

(** The loops of this file that repeat a call while it fails with [EINTR], at
    most [n] times; [last] is the result of the previous attempt. *)
Fixpoint retry_eintr {L X} (n : nat) (c : sys (sysres X)) (last : sysres X)
    : prog L (sysres X) :=
  match n with
  | O => Ret last
  | S n' =>
      let! r := syscall c in
      match r with
      | SysErr e => if e =? EINTR then retry_eintr n' c r else Ret r
      | SysOk _ => Ret r
      end
  end.

(** * C string functions on byte lists *)

(** The bytes of a buffer up to its terminating NUL. *)
Fixpoint c_string (buf : list Z) : list Z :=
  match buf with
  | [] => []
  | b :: buf' => if b =? 0 then [] else b :: c_string buf'
  end.

(** [strchr(s, c)]: the suffix that starts at the first [c]. *)
Fixpoint strchr (c : Z) (s : list Z) : option (list Z) :=
  match s with
  | [] => None
  | b :: s' => if b =? c then Some s else strchr c s'
  end.

(** [strrchr(s, c)]: the suffix that starts at the last [c]. *)
Fixpoint strrchr (c : Z) (s : list Z) : option (list Z) :=
  match s with
  | [] => None
  | b :: s' =>
      match strrchr c s' with
      | Some r => Some r
      | None => if b =? c then Some s else None
      end
  end.

Definition is_digit (b : Z) : bool := (48 <=? b) && (b <=? 57).

(** The digits at the start of [s] and what follows them: what
    [strtoull(s, &end, 10)] reads when [s] starts with a digit. *)
Fixpoint span_digits (s : list Z) : list Z * list Z :=
  match s with
  | [] => ([], [])
  | b :: s' => if is_digit b then let '(d, r) := span_digits s' in (b :: d, r) else ([], s)
  end.

Definition dec_value (ds : list Z) : Z := foldl (fun acc d => 10 * acc + (d - 48)) 0 ds.

(** [p = strchr(p, ' '); if (p == nullptr) fail; ++p;], [n] times. *)
Fixpoint skip_fields (n : nat) (p : list Z) : option (list Z) :=
  match n with
  | O => Some p
  | S n' =>
      match strchr 32 p with
      | None => None
      | Some q => skip_fields n' (tail q)
      end
  end.

(** The part of [proc_stat_starttime] after the read: the comm field may hold
    any byte, so the scan starts at the last closing parenthesis. *)
Definition parse_stat_starttime (buf : list Z) : Result Z :=
  match strrchr 41 (c_string buf) with
  | None => Err (make_error kRecoveryBlocked "proc_stat_starttime"
                   "malformed stat (no close paren)")
  | Some close_paren =>
      let p := tail close_paren in
      let p := match p with b :: p' => if b =? 32 then p' else p | [] => p end in
      match skip_fields 19 p with
      | None => Err (make_error kRecoveryBlocked "proc_stat_starttime"
                       "malformed stat (too short)")
      | Some p =>
          let '(ds, endp) := span_digits p in
          let value := dec_value ds in
          let bad := Err (make_error kRecoveryBlocked "proc_stat_starttime"
                            "malformed stat (starttime)") in
          if match ds with [] => true | _ => false end then bad
          else if (UINT64_MAX <? value) || (value =? 0) then bad
          else match endp with
               | b :: _ => if (b =? 32) || (b =? 10) then Ok value else bad
               | [] => bad
               end
      end
  end.

(** [std::strerror] is the C library's table: a parameter of the error text
    only, so the model keeps the number and leaves the text empty. *)
Definition strerror_text : string := "".

Definition proc_stat_path (p : Z) : string := ("/proc/" +:+ pretty p +:+ "/stat")%string.

Definition proc_stat_starttime {L} (p : Z) : prog L (Result Z) :=
  let path := proc_stat_path p in
  if 64 <=? Z.of_nat (String.length path) then
    fail kSystemError "proc_stat_starttime" "path too long"
  else
    let! fd := retry_eintr kMaxInterruptedAttempts (sys_open path) (SysErr 0) in
    match fd with
    | SysErr e => Ret (Err (make_errno_error e "proc_stat_starttime" strerror_text))
    | SysOk fd =>
        let! n := retry_eintr kMaxInterruptedAttempts (sys_read fd 4095) (SysErr 0) in
        do! syscall (sys_close fd);
        match n with
        | SysErr e => Ret (Err (make_errno_error e "proc_stat_starttime" strerror_text))
        | SysOk [] => fail kRecoveryBlocked "proc_stat_starttime" "empty or unreadable stat"
        | SysOk buf => Ret (parse_stat_starttime buf)
        end
    end.

Definition is_hex (b : Z) : bool :=
  ((48 <=? b) && (b <=? 57)) || ((97 <=? b) && (b <=? 102)) || ((65 <=? b) && (b <=? 70)).

(** The check of one byte of the boot id at its index. *)
Definition boot_id_byte_ok (index : nat) (b : Z) : bool :=
  let separator := bool_decide (index ∈ [8; 13; 18; 23]%nat) in
  if separator then b =? 45 else is_hex b.

(** The part of [current_boot_id_hash] after the read. *)
Definition parse_boot_id (buf : list Z) : Result (Z * Z) :=
  let n := length buf in
  let bad := Err (make_error kRecoveryBlocked "current_boot_id_hash" "invalid boot id") in
  if negb (bool_decide (n = 36%nat))
     && (negb (bool_decide (n = 37%nat)) || negb (default 0 (buf !! 36%nat) =? 10)) then bad
  else if negb (forallb (fun '(i, b) => boot_id_byte_ok i b)
                  (zip (seq 0 36) (take 36 buf))) then bad
  else
    let '(h0, h1) :=
      fnv_hash_bytes buf kOffsetBasis (Z.lxor kOffsetBasis 11400714819323198485) in
    if (h0 =? 0) || (h1 =? 0) then
      Err (make_error kRecoveryBlocked "current_boot_id_hash" "invalid boot hash")
    else Ok (h0, h1).

Definition current_boot_id_hash {L} : prog L (Result (Z * Z)) :=
  let! fd := retry_eintr kMaxInterruptedAttempts
               (sys_open "/proc/sys/kernel/random/boot_id") (SysErr 0) in
  match fd with
  | SysErr e => Ret (Err (make_errno_error_as kRecoveryBlocked e "current_boot_id_hash"
                            "boot identity unreadable"))
  | SysOk fd =>
      let! n := retry_eintr kMaxInterruptedAttempts (sys_read fd 63) (SysErr 0) in
      do! syscall (sys_close fd);
      match n with
      | SysErr e => Ret (Err (make_errno_error_as kRecoveryBlocked e "current_boot_id_hash"
                                "boot identity unreadable"))
      | SysOk buf => Ret (parse_boot_id buf)
      end
  end.

Definition process_identity_valid (id : ProcessIdentity) : bool :=
  negb (pid id =? 0) && (pid id <=? INT32_MAX) && negb (proc_start_ticks id =? 0)
  && negb (boot_id_hash_hi id =? 0) && negb (boot_id_hash_lo id =? 0).

Definition read_current_process_identity {L} : prog L (Result ProcessIdentity) :=
  let! self := syscall sys_getpid in
  let! again := syscall sys_getpid in
  let! start := proc_stat_starttime again in
  match start with
  | Err e => Ret (Err (make_errno_error_as kRecoveryBlocked (err_errno e)
                         "current_process_identity" "process identity unreadable"))
  | Ok ticks =>
      let? (hi, lo) := current_boot_id_hash in
      Ret (Ok (mkIdentity self ticks hi lo))
  end.

Definition POLLIN : Z := 1.

Definition probe_liveness {L} (p expected_start_ticks : Z) : prog L Liveness :=
  if (p =? 0) || (INT32_MAX <? p) || (expected_start_ticks =? 0) then Ret kUnverifiable
  else
    let! pidfd := syscall (sys_pidfd_open p) in
    match pidfd with
    | SysErr e => Ret (if e =? ESRCH then kExited else kUnverifiable)
    | SysOk pidfd =>
        let! rc := retry_eintr kMaxInterruptedAttempts (sys_poll pidfd POLLIN 0) (SysErr 0) in
        do! syscall (sys_close pidfd);
        match rc with
        | SysErr _ => Ret kUnverifiable
        | SysOk (rc, revents) =>
            if 0 <? rc then
              Ret (if negb (Z.land revents POLLIN =? 0) then kExited else kUnverifiable)
            else
              let! start := proc_stat_starttime p in
              match start with
              | Err _ => Ret kUnverifiable
              | Ok ticks =>
                  Ret (if ticks =? expected_start_ticks then kAlive else kPidReused)
              end
        end
    end.

Definition identity_matches_current {L} (id : ProcessIdentity) : prog L bool :=
  if negb (process_identity_valid id) then Ret false
  else
    let! self := syscall sys_getpid in
    if negb (pid id =? self) then Ret false
    else
      let! again := syscall sys_getpid in
      let! start := proc_stat_starttime again in
      match start with
      | Err _ => Ret false
      | Ok ticks =>
          if negb (ticks =? proc_start_ticks id) then Ret false
          else
            let! boot := current_boot_id_hash in
            match boot with
            | Err _ => Ret false
            | Ok (hi, lo) => Ret ((hi =? boot_id_hash_hi id) && (lo =? boot_id_hash_lo id))
            end
      end.

(** * The probes only read *)

Lemma retry_eintr_readonly {L X} n (c : sys (sysres X)) last :
  @readonly L _ (retry_eintr n c last).
Proof.
  revert last. induction n as [|n IH]; intros last; [done|].
  cbn [retry_eintr]. solve_readonly.
Qed.
#[global] Hint Resolve retry_eintr_readonly : prog_db.

Lemma proc_stat_starttime_readonly {L} p : @readonly L _ (proc_stat_starttime p).
Proof. unfold proc_stat_starttime. solve_readonly. Qed.
#[global] Hint Resolve proc_stat_starttime_readonly : prog_db.

Lemma probe_liveness_readonly {L} p ticks : @readonly L _ (probe_liveness p ticks).
Proof. unfold probe_liveness. solve_readonly. Qed.
#[global] Hint Resolve probe_liveness_readonly : prog_db.

(** * Bounds on the probes *)

Lemma retry_eintr_depth {L X} n (c : sys (sysres X)) last :
  @tree_depth L _ n (retry_eintr n c last).
Proof.
  revert last. induction n as [|n IH]; intros last; [done|]. simpl. intros [x|e]; [by destruct n|].
  destruct (e =? EINTR); [apply IH|by destruct n].
Qed.
#[global] Hint Resolve retry_eintr_depth : depth_db.

Lemma proc_stat_starttime_depth {L} p : @tree_depth L _ 17 (proc_stat_starttime p).
Proof. unfold proc_stat_starttime, kMaxInterruptedAttempts. solve_depth. Qed.
#[global] Hint Resolve proc_stat_starttime_depth : depth_db.

Lemma probe_liveness_depth {L} p ticks : @tree_depth L _ 27 (probe_liveness p ticks).
Proof. unfold probe_liveness, kMaxInterruptedAttempts. solve_depth. Qed.
#[global] Hint Resolve probe_liveness_depth : depth_db.
