(* ===== verification/OwnerSnapshot.v ===== *)
(** The owner protocol: [src/edge_runtime/sync/owner_snapshot.hpp].

    A gate of the queue, a queue slot and a pool block each carry a state word,
    an owner identity of four 64-bit fields and an owner epoch. A claimant makes
    the epoch odd, writes the four fields one by one and commits the next even
    epoch; a reader takes the fields between two reads of the same even epoch. *)
From S2P Require Import Prelude Errors Prog ProcIdentity.

Inductive OwnerSnapshotKind : Type :=
| osk_Inactive | osk_Claiming | osk_Stable | osk_Unstable | osk_Corrupt
| osk_EpochExhausted.

#[global] Instance OwnerSnapshotKind_eq_dec : EqDecision OwnerSnapshotKind.
Proof. solve_decision. Defined.

Inductive OwnerStateKind : Type :=
| st_Inactive | st_Claiming | st_Owned | st_EpochExhausted | st_ProtocolFault
| st_Unexpected.

#[global] Instance OwnerStateKind_eq_dec : EqDecision OwnerStateKind.
Proof. solve_decision. Defined.

(** [MpmcOwnerAbi] and [BufferPoolOwnerAbi] have the fields of
    [ProcessIdentity]; one record models the three. *)
Abbreviation OwnerAbi := ProcessIdentity (only parsing).

Inductive owner_field : Type := of_pid | of_start | of_boot_hi | of_boot_lo.

#[global] Instance owner_field_eq_dec : EqDecision owner_field.
Proof. solve_decision. Defined.

Definition owner_get (o : ProcessIdentity) (f : owner_field) : Z :=
  match f with
  | of_pid => pid o
  | of_start => proc_start_ticks o
  | of_boot_hi => boot_id_hash_hi o
  | of_boot_lo => boot_id_hash_lo o
  end.

Record OwnerSnapshot : Type := mkSnapshot {
  os_kind : OwnerSnapshotKind;
  os_state : Z;
  os_owner : ProcessIdentity;
  os_epoch : Z
}.

(** Where one owner protocol instance lives in the segment. *)
Record owner_locs (L : Type) : Type := mkOwnerLocs {
  ol_state : L;
  ol_epoch : L;
  ol_owner : owner_field -> L
}.
Arguments mkOwnerLocs {L} ol_state ol_epoch ol_owner.
Arguments ol_state {L} o.
Arguments ol_epoch {L} o.
Arguments ol_owner {L} o f.

Definition load_owner_seq_cst {L} (owner : owner_field -> L) : prog L ProcessIdentity :=
  let! p := shared_load_seq_cst (owner of_pid) in
  let! start := shared_load_seq_cst (owner of_start) in
  let! hi := shared_load_seq_cst (owner of_boot_hi) in
  let! lo := shared_load_seq_cst (owner of_boot_lo) in
  Ret (mkIdentity p start hi lo).

Definition store_owner_seq_cst {L} (owner : owner_field -> L) (value : ProcessIdentity)
    : prog L unit :=
  do! shared_store_seq_cst (owner of_pid) (pid value);
  do! shared_store_seq_cst (owner of_start) (proc_start_ticks value);
  do! shared_store_seq_cst (owner of_boot_hi) (boot_id_hash_hi value);
  shared_store_seq_cst (owner of_boot_lo) (boot_id_hash_lo value).

Definition kOwnerSnapshotRetries : nat := 4.
Definition kMaxCommittedOwnerEpoch : Z := UINT64_MAX - 1.

Inductive OwnerCommitResult : Type := oc_Ready | oc_EpochExhausted | oc_Corrupt.

#[global] Instance OwnerCommitResult_eq_dec : EqDecision OwnerCommitResult.
Proof. solve_decision. Defined.

(** [(e & 1u) != 0u]. *)
Definition epoch_odd (e : Z) : bool := negb (Z.land e 1 =? 0).

(** [*committed_epoch] is the [Z] returned with [oc_Ready]. *)
Definition begin_owner_commit {L} (epoch : L) (reserve_after_commit : Z)
    : prog L (OwnerCommitResult * Z) :=
  let! current := shared_load_seq_cst epoch in
  if epoch_odd current || (kMaxCommittedOwnerEpoch <? current) then Ret (oc_Corrupt, 0)
  else if u64 (kMaxCommittedOwnerEpoch - current) <? reserve_after_commit then
    Ret (oc_EpochExhausted, 0)
  else
    let! ok := shared_cas_seq_cst epoch current (u64 (current + 1)) in
    if negb ok then Ret (oc_Corrupt, 0) else Ret (oc_Ready, u64 (current + 2)).

Definition owner_epoch_capacity {L} (epoch : L) (reserve_after_commit : Z)
    : prog L OwnerCommitResult :=
  let! current := shared_load_seq_cst epoch in
  if epoch_odd current || (kMaxCommittedOwnerEpoch <? current) then Ret oc_Corrupt
  else Ret (if reserve_after_commit <=? u64 (kMaxCommittedOwnerEpoch - current)
            then oc_Ready else oc_EpochExhausted).

Section Snapshot.
Context {L : Type} (locs : owner_locs L).
Context (classify : Z -> OwnerStateKind) (valid : ProcessIdentity -> bool).

(** The code after the last retry. *)
Definition snapshot_final : prog L OwnerSnapshot :=
  let! final_state := shared_load_seq_cst (ol_state locs) in
  match classify final_state with
  | st_EpochExhausted =>
      let! e := shared_load_seq_cst (ol_epoch locs) in
      Ret (mkSnapshot osk_EpochExhausted final_state zero_identity e)
  | st_ProtocolFault | st_Unexpected =>
      let! e := shared_load_seq_cst (ol_epoch locs) in
      Ret (mkSnapshot osk_Corrupt final_state zero_identity e)
  | _ =>
      let! e := shared_load_seq_cst (ol_epoch locs) in
      Ret (mkSnapshot osk_Unstable final_state zero_identity e)
  end.

(** [snapshot_owner_seq_cst] with [attempts] retries left; the failpoint hooks
    are empty in a release build. *)
Fixpoint snapshot_owner_loop (attempts : nat) : prog L OwnerSnapshot :=
  match attempts with
  | O => snapshot_final
  | S attempts' =>
      let! state_before := shared_load_seq_cst (ol_state locs) in
      match classify state_before with
      | st_Inactive =>
          let! epoch_before := shared_load_seq_cst (ol_epoch locs) in
          let! state_after := shared_load_seq_cst (ol_state locs) in
          let! epoch_after := shared_load_seq_cst (ol_epoch locs) in
          let stable_inactive := (state_after =? state_before) && (epoch_before =? epoch_after) in
          if stable_inactive then
            if epoch_odd epoch_after || (kMaxCommittedOwnerEpoch <? epoch_after) then
              Ret (mkSnapshot osk_Corrupt state_after zero_identity epoch_after)
            else Ret (mkSnapshot osk_Inactive state_after zero_identity epoch_after)
          else
            match classify state_after with
            | st_Claiming => Ret (mkSnapshot osk_Claiming state_after zero_identity epoch_after)
            | st_EpochExhausted =>
                Ret (mkSnapshot osk_EpochExhausted state_after zero_identity epoch_after)
            | st_ProtocolFault | st_Unexpected =>
                Ret (mkSnapshot osk_Corrupt state_after zero_identity epoch_after)
            | _ => snapshot_owner_loop attempts'
            end
      | st_Claiming =>
          let! e := shared_load_seq_cst (ol_epoch locs) in
          Ret (mkSnapshot osk_Claiming state_before zero_identity e)
      | st_EpochExhausted =>
          let! e := shared_load_seq_cst (ol_epoch locs) in
          Ret (mkSnapshot osk_EpochExhausted state_before zero_identity e)
      | st_ProtocolFault | st_Unexpected =>
          let! e := shared_load_seq_cst (ol_epoch locs) in
          Ret (mkSnapshot osk_Corrupt state_before zero_identity e)
      | st_Owned =>
          let! epoch_before := shared_load_seq_cst (ol_epoch locs) in
          if epoch_odd epoch_before then snapshot_owner_loop attempts'
          else
            let! candidate := load_owner_seq_cst (ol_owner locs) in
            let! epoch_after_fields := shared_load_seq_cst (ol_epoch locs) in
            let! state_after := shared_load_seq_cst (ol_state locs) in
            let! epoch_after_state := shared_load_seq_cst (ol_epoch locs) in
            match classify state_after with
            | st_Owned =>
                if (epoch_before =? epoch_after_fields)
                   && (epoch_after_fields =? epoch_after_state)
                   && negb (epoch_odd epoch_after_state) then
                  if valid candidate then
                    Ret (mkSnapshot osk_Stable state_after candidate epoch_after_state)
                  else Ret (mkSnapshot osk_Corrupt state_after candidate epoch_after_state)
                else snapshot_owner_loop attempts'
            | st_EpochExhausted =>
                Ret (mkSnapshot osk_EpochExhausted state_after zero_identity epoch_after_state)
            | st_ProtocolFault | st_Unexpected =>
                Ret (mkSnapshot osk_Corrupt state_after zero_identity epoch_after_state)
            | _ => snapshot_owner_loop attempts'
            end
      end
  end.

Definition snapshot_owner_seq_cst : prog L OwnerSnapshot :=
  snapshot_owner_loop kOwnerSnapshotRetries.

Lemma snapshot_owner_loop_readonly n : readonly (snapshot_owner_loop n).
Proof.
  induction n as [|n IH]; cbn [snapshot_owner_loop]; unfold snapshot_final,
    load_owner_seq_cst; solve_readonly.
Qed.

Lemma snapshot_owner_readonly : readonly snapshot_owner_seq_cst.
Proof. apply snapshot_owner_loop_readonly. Qed.

Lemma snapshot_owner_loads : loads_only snapshot_owner_seq_cst.
Proof.
  unfold snapshot_owner_seq_cst. generalize kOwnerSnapshotRetries. intros n.
  induction n as [|n IH]; cbn [snapshot_owner_loop]; unfold snapshot_final,
    load_owner_seq_cst; solve_loads.
Qed.
End Snapshot.

Lemma owner_epoch_capacity_readonly {L} (epoch : L) r :
  readonly (owner_epoch_capacity epoch r).
Proof. unfold owner_epoch_capacity. solve_readonly. Qed.

#[global] Hint Resolve snapshot_owner_readonly owner_epoch_capacity_readonly : prog_db.
#[global] Hint Resolve snapshot_owner_loads : loads_db.

(** * Parity *)

Lemma epoch_odd_spec e : epoch_odd e = Z.odd e.
Proof.
  unfold epoch_odd. change 1 with (Z.ones 1) at 1. rewrite Z.land_ones by lia.
  rewrite Zmod_odd. by destruct (Z.odd e).
Qed.

Lemma epoch_odd_false e : epoch_odd e = false <-> Z.even e = true.
Proof. rewrite epoch_odd_spec, <- Z.negb_even. by destruct (Z.even e). Qed.
