(* ===== verification/ShmObject.v ===== *)
(** Shared-memory objects: [src/edge_runtime/transport/shm_object.{hpp,cpp}] and
    [src/edge_runtime/utility/random.hpp].

    Opening, sizing, mapping and identity-checked unlinking of a POSIX shared
    memory object, as programs over the system calls. The closing of a
    descriptor or a mapping by the destructors of [UniqueFd] and [MappedRegion]
    has no effect on a segment and is left out. *)
From S2P Require Import Prelude Errors Prog ProcIdentity.

(** [ShmObject] without the descriptor and the mapping, which the programs of
    one segment do not name. *)
Record ShmObject : Type := mkShmObject {
  so_name : string;
  so_fd : Z;
  so_dev : Z;
  so_ino : Z;
  so_size : Z
}.

Definition kExpectedShmMode : Z := 384. (* S_IRUSR | S_IWUSR = 0600 *)

Definition S_IFMT : Z := 61440.
Definition S_IFREG : Z := 32768.
Definition S_ISREG (mode : Z) : bool := Z.land mode S_IFMT =? S_IFREG.

(** [bounded_fstat] retries [EINTR] at most [kMaxInterruptedAttempts] times. *)
Definition bounded_fstat {L} (fd : Z) : prog L (sysres stat_buf) :=
  retry_eintr kMaxInterruptedAttempts (sys_fstat fd) (SysErr 0).

Definition shm_open_create {L} (posix_name : string) : prog L (Result Z) :=
  let! fd := syscall (sys_shm_open posix_name true) in
  Ret match fd with
      | SysErr e => Err (make_errno_error e "shm_open_create" strerror_text)
      | SysOk fd => Ok fd
      end.

Definition shm_open_existing {L} (posix_name : string) : prog L (Result Z) :=
  let! fd := syscall (sys_shm_open posix_name false) in
  Ret match fd with
      | SysErr e => Err (make_errno_error e "shm_open_existing" strerror_text)
      | SysOk fd => Ok fd
      end.

Definition shm_truncate {L} (fd size : Z) : prog L (Result unit) :=
  if INT64_MAX <? size then fail kInvalidOptions "shm_truncate" "size exceeds off_t"
  else
    let! r := syscall (sys_ftruncate fd size) in
    Ret match r with
        | SysErr e => Err (make_errno_error e "shm_truncate" strerror_text)
        | SysOk _ => Ok tt
        end.

(** [size_t] is 64 bits wide, so [size > SIZE_MAX] never holds of a [uint64_t]. *)
Definition mmap_region {L} (fd size : Z) : prog L (Result Z) :=
  if UINT64_MAX <? size then fail kInvalidOptions "mmap_region" "size exceeds size_t"
  else
    let! r := syscall (sys_mmap fd size true) in
    Ret match r with
        | SysErr e => Err (make_errno_error e "mmap_region" strerror_text)
        | SysOk addr => Ok addr
        end.

Definition mmap_region_readonly {L} (fd size : Z) : prog L (Result Z) :=
  if UINT64_MAX <? size then
    fail kInvalidOptions "mmap_region_readonly" "size exceeds size_t"
  else
    let! r := syscall (sys_mmap fd size false) in
    Ret match r with
        | SysErr e => Err (make_errno_error e "mmap_region_readonly" strerror_text)
        | SysOk addr => Ok addr
        end.

(** Returns [(dev, ino, size)]. *)
Definition shm_fstat_and_capture {L} (fd : Z) : prog L (Result (Z * Z * Z)) :=
  let! st := bounded_fstat fd in
  match st with
  | SysErr e => Ret (Err (make_errno_error e "shm_fstat_and_capture" strerror_text))
  | SysOk st =>
      if negb (S_ISREG (st_mode st)) then
        fail kCorruptHeader "shm_fstat_and_capture" "not a regular file"
      else
        let! euid := syscall sys_geteuid in
        if negb (st_uid st =? euid) then
          fail kPermissionDenied "shm_fstat_and_capture" "owner uid mismatch"
        else if negb (Z.land (st_mode st) 511 =? kExpectedShmMode) then
          fail kPermissionDenied "shm_fstat_and_capture" "unexpected mode"
        else Ret (Ok (st_dev st, st_ino st, st_size st))
  end.

(** [STATX_TYPE | STATX_MODE | STATX_UID | STATX_INO]. *)
Definition kRequired : Z := 267.

(** glibc's [makedev]. *)
Definition makedev (major minor : Z) : Z :=
  u64 (Z.lor (Z.lor (Z.land minor 255) (Z.shiftl (Z.land major 4095) 8))
             (Z.lor (Z.shiftl (Z.land minor 4294967040) 12)
                    (Z.shiftl (Z.land major 4294963200) 32))).

Definition shm_capture_created_identity {L} (fd : Z) : prog L (Result (Z * Z)) :=
  let! r := retry_eintr kMaxInterruptedAttempts (sys_statx fd) (SysErr 0) in
  match r with
  | SysErr e => Ret (Err (make_errno_error_as kRecoveryBlocked e
                            "shm_capture_created_identity"
                            "created object retained; identity unavailable"))
  | SysOk st =>
      let bad := fail kRecoveryBlocked "shm_capture_created_identity"
                   "created object retained; invalid identity" in
      if negb (Z.land (stx_mask st) kRequired =? kRequired) || negb (S_ISREG (stx_mode st))
      then bad
      else
        let! euid := syscall sys_geteuid in
        if negb (stx_uid st =? euid)
           || negb (Z.land (stx_mode st) 511 =? kExpectedShmMode) || (stx_ino st =? 0)
        then bad
        else Ret (Ok (makedev (stx_dev_major st) (stx_dev_minor st), stx_ino st))
  end.

(** Group and other write and execute bits. *)
Definition memfd_forbidden : Z := 27.

Definition memfd_fstat_and_capture {L} (fd : Z) : prog L (Result (Z * Z * Z)) :=
  let! st := bounded_fstat fd in
  match st with
  | SysErr e => Ret (Err (make_errno_error e "memfd_fstat_and_capture" strerror_text))
  | SysOk st =>
      if negb (S_ISREG (st_mode st)) then
        fail kCorruptHeader "memfd_fstat_and_capture" "not a regular file"
      else
        let! euid := syscall sys_geteuid in
        if negb (st_uid st =? euid) then
          fail kPermissionDenied "memfd_fstat_and_capture" "owner uid mismatch"
        else if negb (Z.land (st_mode st) memfd_forbidden =? 0) then
          fail kPermissionDenied "memfd_fstat_and_capture" "unexpected mode"
        else Ret (Ok (st_dev st, st_ino st, st_size st))
  end.

(** Unlink [posix_name] only while it still names the expected inode, and fail
    when another object shows up under the name afterwards. *)
Definition shm_unlink_checked {L} (posix_name : string) (expected_dev expected_ino : Z)
    : prog L (Result unit) :=
  let? re := shm_open_existing posix_name in
  let! fst_ := shm_fstat_and_capture re in
  let! id := match fst_ with
             | Ok (dev, ino, _) => Ret (Ok (dev, ino))
             | Err _ => shm_capture_created_identity re
             end in
  match id with
  | Err e => Ret (Err e)
  | Ok (dev, ino) =>
      if negb (dev =? expected_dev) || negb (ino =? expected_ino) then
        fail kNameRaceDetected "shm_unlink_checked" "inode changed before unlink"
      else
        let! un := syscall (sys_shm_unlink posix_name) in
        match un with
        | SysErr e => Ret (Err (make_errno_error e "shm_unlink_checked" strerror_text))
        | SysOk _ =>
            let! probe := syscall (sys_shm_open posix_name false) in
            match probe with
            | SysOk fd =>
                do! syscall (sys_close fd);
                fail kNameRaceDetected "shm_unlink_checked" "new object appeared after unlink"
            | SysErr e =>
                if negb (e =? ENOENT) then
                  Ret (Err (make_errno_error e "shm_unlink_checked" strerror_text))
                else Ret (Ok tt)
            end
        end
  end.

(** [getrandom] answers requests of up to 256 bytes in full and without being
    interrupted, so one round of [random_bytes] is enough; the bound leaves room
    for a kernel that is less generous. *)
Definition kRandomFuel : nat := 8.

(** [random_bytes]: [getrandom] until [size] bytes arrived, repeating [EINTR]; the
    [errno] when it fails, [EINTR] when the [fuel] rounds are used up. *)
Fixpoint random_bytes {L} (fuel : nat) (size : nat) (got : list Z)
    : prog L (sysres (list Z)) :=
  if bool_decide (size <= length got)%nat then Ret (SysOk got)
  else
    match fuel with
    | O => Ret (SysErr EINTR)
    | S fuel' =>
        let! n := syscall (sys_getrandom (Z.of_nat (size - length got))) in
        match n with
        | SysErr e => if e =? EINTR then random_bytes fuel' size got else Ret (SysErr e)
        | SysOk bs => random_bytes fuel' size (got ++ bs)
        end
    end.

(** * None of them touches a segment *)

Lemma shm_fstat_and_capture_readonly {L} fd : @readonly L _ (shm_fstat_and_capture fd).
Proof. unfold shm_fstat_and_capture, bounded_fstat. solve_readonly. Qed.
Lemma shm_capture_created_identity_readonly {L} fd :
  @readonly L _ (shm_capture_created_identity fd).
Proof. unfold shm_capture_created_identity. solve_readonly. Qed.
#[global] Hint Resolve shm_fstat_and_capture_readonly shm_capture_created_identity_readonly
  : prog_db.

Lemma shm_unlink_checked_readonly {L} name dev ino :
  @readonly L _ (shm_unlink_checked name dev ino).
Proof. unfold shm_unlink_checked, shm_open_existing. solve_readonly. Qed.
#[global] Hint Resolve shm_unlink_checked_readonly : prog_db.

Lemma random_bytes_readonly {L} fuel size got : @readonly L _ (random_bytes fuel size got).
Proof.
  revert got. induction fuel as [|fuel IH]; intros got; cbn [random_bytes]; solve_readonly.
Qed.
#[global] Hint Resolve random_bytes_readonly : prog_db.
