(* ===== verification/Clock.v ===== *)
(** The clock wrappers: [src/edge_runtime/sync/clock.cpp].

    A clock that cannot be read is the value zero, which every caller turns into
    [kClockAnomaly]; deadlines saturate instead of wrapping. *)
From S2P Require Import Prelude Errors Prog.

Definition CLOCK_MONOTONIC : Z := 1.
Definition CLOCK_BOOTTIME : Z := 7.

Definition clock_ns_or_zero {L} (id : Z) : prog L Z :=
  let! r := syscall (sys_clock_gettime id) in
  Ret match r with
      | SysErr _ => 0
      | SysOk (tv_sec, tv_nsec) =>
          let sec := u64 tv_sec in
          let nsec := u64 tv_nsec in
          if UINT64_MAX / 1000000000 <? sec then 0 else u64 (sec * 1000000000 + nsec)
      end.

Definition boottime_now_ns {L} : prog L Z := clock_ns_or_zero CLOCK_BOOTTIME.
Definition monotonic_now_ns {L} : prog L Z := clock_ns_or_zero CLOCK_MONOTONIC.

Definition monotonic_deadline_ns {L} (timeout_ns : Z) : prog L Z :=
  let! now := monotonic_now_ns in
  Ret (if now =? 0 then 0
       else if u64 (UINT64_MAX - timeout_ns) <? now then UINT64_MAX
       else u64 (now + timeout_ns)).

Definition remaining_time_ns {L} (deadline_ns : Z) : prog L Z :=
  let! now := monotonic_now_ns in
  Ret (if now =? 0 then 0
       else if deadline_ns <=? now then 0 else u64 (deadline_ns - now)).

(** * They only read *)

Lemma clock_ns_readonly {L} id : @readonly L _ (clock_ns_or_zero id).
Proof. unfold clock_ns_or_zero. solve_readonly. Qed.
#[global] Hint Resolve clock_ns_readonly : prog_db.

Lemma boottime_now_readonly {L} : @readonly L _ boottime_now_ns.
Proof. apply clock_ns_readonly. Qed.
Lemma monotonic_deadline_readonly {L} timeout : @readonly L _ (monotonic_deadline_ns timeout).
Proof. unfold monotonic_deadline_ns, monotonic_now_ns. solve_readonly. Qed.
Lemma remaining_time_readonly {L} deadline : @readonly L _ (remaining_time_ns deadline).
Proof. unfold remaining_time_ns, monotonic_now_ns. solve_readonly. Qed.
#[global] Hint Resolve boottime_now_readonly monotonic_deadline_readonly
  remaining_time_readonly : prog_db.

(** * Ranges *)

Lemma clock_ns_range {L} id : leaves is_u64 (@clock_ns_or_zero L id).
Proof.
  unfold clock_ns_or_zero. apply leaves_bind_any. intros [[sec nsec]|e]; simpl; [|mlia].
  case_match; [mlia|apply u64_range].
Qed.

Lemma deadline_range {L} timeout : leaves is_u64 (@monotonic_deadline_ns L timeout).
Proof.
  unfold monotonic_deadline_ns. apply leaves_bind_any. intros now. simpl.
  repeat case_match; [mlia|mlia|apply u64_range].
Qed.

Lemma remaining_range {L} deadline : leaves is_u64 (@remaining_time_ns L deadline).
Proof.
  unfold remaining_time_ns. apply leaves_bind_any. intros now. simpl.
  repeat case_match; [mlia|mlia|apply u64_range].
Qed.
