(* ===== verification/ChannelLayout.v ===== *)
(** The channel segment layout: [src/edge_runtime/channel/channel_layout.{hpp,cpp}].

    The names a channel may have, the paths and segment names they give, the
    tickets that name a sample and its slot, and the byte layout of the
    three-slot segment. The lemmas show that accepted names cannot escape the
    runtime directory, that tickets round-trip over the whole range of sample
    sequences and that the slots are disjoint and inside the mapping. *)
From stdpp Require Import pretty.
From S2P Require Import Prelude Errors CheckedMath Prog.

Definition kBootstrapMagic : string := "EDGBOOT1".
Definition kChannelHeaderMagic : string := "EDGERT01".
Definition kAbiMajor : Z := 1.
Definition kAbiMinor : Z := 0.
Definition kAbiMinorMax : Z := 1.
Definition kHeartbeatStallFactor : Z := 3.
Definition kEndianMarker : Z := 16909060.
Definition kSlotCount : Z := 3.
Definition kMaxPayloadSize : Z := 65536.
Definition kMaxChannelNameLen : Z := 64.
Definition kMaxSampleSequence : Z := Z.shiftl 1 62 - 1.
Definition kInvalidSlot : Z := 4294967295.
Definition kBootstrapHeaderOffset : Z := 0.
Definition kChannelHeaderOffset : Z := 128.
Definition kFirstSlotOffset : Z := 128 + 320.
Definition kSlotHeaderSize : Z := 64.

Definition is_kEmpty : Z := 0.
Definition is_kInitializing : Z := 1.
Definition is_kReady : Z := 2.
Definition is_kAborted : Z := 3.

Definition es_kOffline : Z := 0.
Definition es_kOnline : Z := 1.
Definition es_kStopping : Z := 2.
Definition es_kFault : Z := 3.

(** * Tickets *)

Definition make_ticket (sequence slot_index : Z) : Z :=
  Z.lor (u64 (Z.shiftl sequence 2)) (Z.land slot_index 3).
Definition ticket_slot (ticket : Z) : Z := u32 (Z.land ticket 3).
Definition ticket_sequence (ticket : Z) : Z := Z.shiftr ticket 2.

(** * Layout *)

Definition mapping_size_for_payload (payload_size : Z) : option Z :=
  slot_stride ← round_up_to_multiple_u64 (u64 (kSlotHeaderSize + payload_size)) 64;
  slots_total ← checked_mul_u64 kSlotCount slot_stride;
  checked_add_u64 kFirstSlotOffset slots_total.

Definition slot_byte_offset (slot_index slot_stride : Z) : option Z :=
  if kSlotCount <=? slot_index then None
  else
    out ← checked_mul_u64 slot_index slot_stride;
    checked_add_u64 kFirstSlotOffset out.

(** * Names *)

Definition ascii_code (a : Ascii.ascii) : Z := Z.of_nat (Ascii.nat_of_ascii a).
Definition string_codes (s : string) : list Z := map ascii_code (String.list_ascii_of_string s).

Definition name_char_ok (c : Z) : bool :=
  ((97 <=? c) && (c <=? 122)) || ((65 <=? c) && (c <=? 90))
  || ((48 <=? c) && (c <=? 57)) || (c =? 95) || (c =? 46) || (c =? 45).

Fixpoint has_dot_dot (s : list Z) : bool :=
  match s with
  | a :: ((b :: _) as s') => ((a =? 46) && (b =? 46)) || has_dot_dot s'
  | _ => false
  end.

Definition validate_channel_name (name : string) : bool :=
  let len := Z.of_nat (String.length name) in
  if (len <? 1) || (kMaxChannelNameLen <? len) then false
  else forallb name_char_ok (string_codes name) && negb (has_dot_dot (string_codes name)).

Definition channel_shm_name {L} (channel_name : string) : prog L string :=
  let! uid := syscall sys_getuid in
  Ret ("/edgeruntime." +:+ pretty uid +:+ "." +:+ channel_name)%string.
Definition channel_lock_path {L} (channel_name : string) : prog L string :=
  let! uid := syscall sys_getuid in
  Ret ("/run/user/" +:+ pretty uid +:+ "/edgeruntime/" +:+ channel_name +:+ ".lock")%string.
Definition channel_socket_path {L} (channel_name : string) : prog L string :=
  let! uid := syscall sys_getuid in
  Ret ("/run/user/" +:+ pretty uid +:+ "/edgeruntime/" +:+ channel_name +:+ ".sock")%string.

(** * Facts *)

Lemma land3_mod v : Z.land v 3 = v mod 4.
Proof. change 3 with (Z.ones 2). by rewrite Z.land_ones by lia. Qed.

Lemma make_ticket_eq sequence slot_index :
  0 <= sequence <= kMaxSampleSequence -> 0 <= slot_index < 4 ->
  make_ticket sequence slot_index = 4 * sequence + slot_index.
Proof.
  intros Hs Hi. unfold make_ticket, kMaxSampleSequence in *.
  change (Z.shiftl 1 62) with 4611686018427387904 in Hs.
  rewrite Z.shiftl_mul_pow2 by lia. change (2 ^ 2) with 4.
  rewrite u64_small by mlia. rewrite land3_mod, (Z.mod_small slot_index) by lia.
  assert (Z.land (sequence * 4) slot_index = 0) as Hz.
  { replace slot_index with (Z.land slot_index 3)
      by (rewrite land3_mod; apply Z.mod_small; lia).
    rewrite (Z.land_comm slot_index), Z.land_assoc, land3_mod, Z_mod_mult.
    apply Z.land_0_l. }
  pose proof (Z.add_lor_land (sequence * 4) slot_index). lia.
Qed.

Lemma ticket_slot_make sequence slot_index :
  0 <= sequence <= kMaxSampleSequence -> 0 <= slot_index < 4 ->
  ticket_slot (make_ticket sequence slot_index) = slot_index.
Proof.
  intros. rewrite make_ticket_eq by done. unfold ticket_slot. rewrite land3_mod.
  pose proof (Z.mod_pos_bound (4 * sequence + slot_index) 4 ltac:(lia)).
  rewrite u32_small by mlia. rewrite Z.add_comm, Z.mul_comm, Z_mod_plus_full.
  apply Z.mod_small. lia.
Qed.

Lemma ticket_sequence_make sequence slot_index :
  0 <= sequence <= kMaxSampleSequence -> 0 <= slot_index < 4 ->
  ticket_sequence (make_ticket sequence slot_index) = sequence.
Proof.
  intros. rewrite make_ticket_eq by done. unfold ticket_sequence.
  rewrite Z.shiftr_div_pow2 by lia. change (2 ^ 2) with 4.
  rewrite Z.add_comm, Z.mul_comm, Z.div_add by lia. rewrite Z.div_small; lia.
Qed.

Lemma validate_channel_name_true name :
  validate_channel_name name = true ->
  1 <= Z.of_nat (String.length name) <= kMaxChannelNameLen /\
  Forall (fun c => name_char_ok c = true) (string_codes name) /\
  has_dot_dot (string_codes name) = false.
Proof.
  unfold validate_channel_name. cbv zeta. case_match eqn:E; [done|].
  apply orb_false_iff in E as [E1 E2]. bprop.
  rewrite andb_true_iff, negb_true_iff. intros [Hf Hd].
  repeat split; try lia; [|done].
  apply Forall_forall. intros c Hc. rewrite forallb_forall in Hf.
  apply Hf. by apply list_elem_of_In.
Qed.

(** [SchemaDescriptor] of [include/edge_runtime/common/schema.hpp]; the debug
    name is only printed. *)
Record SchemaDescriptor : Type := mkSchema {
  sd_fingerprint : list Z;
  sd_version : Z
}.

Lemma make_ticket_of ticket :
  is_u64 ticket -> make_ticket (ticket_sequence ticket) (ticket_slot ticket) = ticket.
Proof.
  intros Ht. unfold ticket_sequence, ticket_slot. rewrite land3_mod, Z.shiftr_div_pow2 by lia.
  change (2 ^ 2) with 4. pose proof (Z.mod_pos_bound ticket 4 ltac:(lia)).
  pose proof (Z.div_mod ticket 4 ltac:(lia)). rewrite u32_small by mlia.
  rewrite make_ticket_eq; [lia| |lia]. unfold kMaxSampleSequence, is_u64, UINT64_MAX in *.
  change (Z.shiftl 1 62) with 4611686018427387904. lia.
Qed.

(** A ticket is its sequence number and its slot, without loss: for every
    sequence number up to [kMaxSampleSequence] and every slot index the two are
    recovered from the ticket, every 64-bit ticket is the ticket of its parts, and
    tickets of a later sequence number are larger whatever the slots. *)
Theorem ticket_roundtrip sequence slot_index sequence' slot_index' ticket :
  0 <= sequence <= kMaxSampleSequence -> 0 <= slot_index < 4 ->
  0 <= sequence' <= kMaxSampleSequence -> 0 <= slot_index' < 4 -> is_u64 ticket ->
  ticket_sequence (make_ticket sequence slot_index) = sequence /\
  ticket_slot (make_ticket sequence slot_index) = slot_index /\
  is_u64 (make_ticket sequence slot_index) /\
  make_ticket (ticket_sequence ticket) (ticket_slot ticket) = ticket /\
  (sequence < sequence' ->
     make_ticket sequence slot_index < make_ticket sequence' slot_index').
Proof.
  intros H1 H2 H1' H2' Ht. split; [by apply ticket_sequence_make|].
  split; [by apply ticket_slot_make|]. split; [|split; [by apply make_ticket_of|]].
  - rewrite make_ticket_eq by done. unfold kMaxSampleSequence, is_u64, UINT64_MAX in *.
    change (Z.shiftl 1 62) with 4611686018427387904 in *. lia.
  - rewrite !make_ticket_eq by done. lia.
Qed.

Lemma ticket_roundtrip_witness :
  ticket_sequence (make_ticket 4611686018427387903 2) = 4611686018427387903 /\
  make_ticket (ticket_sequence 11) (ticket_slot 11) = 11 /\ make_ticket 4 3 < make_ticket 5 0.
Proof.
  destruct (ticket_roundtrip 4611686018427387903 2 0 0 11) as (H & _ & _ & H' & _);
    [vm_compute; split; discriminate|lia|vm_compute; split; discriminate|lia|
     unfold is_u64, UINT64_MAX; lia|].
  destruct (ticket_roundtrip 4 3 5 0 0) as (_ & _ & _ & _ & Hlt);
    [vm_compute; split; discriminate|lia|vm_compute; split; discriminate|lia|
     unfold is_u64, UINT64_MAX; lia|].
  split; [exact H|]. split; [exact H'|]. apply Hlt. lia.
Defined.

Lemma has_dot_dot_spec s :
  has_dot_dot s = true <-> exists pre post, s = pre ++ [46; 46] ++ post.
Proof.
  induction s as [|a s IH].
  { split; [done|]. intros ([|] & post & ?); discriminate. }
  destruct s as [|b s].
  { split; [done|]. intros ([|? [|]] & post & ?); discriminate. }
  cbn [has_dot_dot] in *. rewrite orb_true_iff, andb_true_iff, !Z.eqb_eq, IH. split.
  - intros [[-> ->]|(pre & post & ->)]; [by exists [], s|by exists (a :: pre), post].
  - intros ([|x pre] & post & E); simplify_eq/=; [by left|right; by exists pre, post].
Qed.

(** A name is accepted exactly when it is safe in a path: one to 64
    characters, all letters, digits, underscore, dot or dash, and no two dots in a
    row anywhere. In particular an accepted name holds no slash and no NUL, so the
    object, lock and socket paths built from it stay in their directory. *)
Theorem channel_name_safe name :
  (validate_channel_name name = true <->
     1 <= Z.of_nat (String.length name) <= kMaxChannelNameLen /\
     Forall (fun c => 97 <= c <= 122 \/ 65 <= c <= 90 \/ 48 <= c <= 57 \/
                      c = 95 \/ c = 46 \/ c = 45) (string_codes name) /\
     ~ exists pre post, string_codes name = pre ++ [46; 46] ++ post) /\
  (validate_channel_name name = true -> 47 ∉ string_codes name /\ 0 ∉ string_codes name).
Proof.
  assert (forall c, name_char_ok c = true <-> 97 <= c <= 122 \/ 65 <= c <= 90 \/
    48 <= c <= 57 \/ c = 95 \/ c = 46 \/ c = 45) as Hc.
  { intros c. unfold name_char_ok. rewrite !orb_true_iff, !andb_true_iff, !Z.leb_le, !Z.eqb_eq.
    lia. }
  assert (validate_channel_name name = true <->
     1 <= Z.of_nat (String.length name) <= kMaxChannelNameLen /\
     Forall (fun c => 97 <= c <= 122 \/ 65 <= c <= 90 \/ 48 <= c <= 57 \/
                      c = 95 \/ c = 46 \/ c = 45) (string_codes name) /\
     ~ exists pre post, string_codes name = pre ++ [46; 46] ++ post) as Hiff.
  { rewrite <- has_dot_dot_spec, not_true_iff_false. split.
    - intros (Hl & Hf & Hd)%validate_channel_name_true. split; [done|]. split; [|done].
      eapply Forall_impl; [exact Hf|]. intros c. apply Hc.
    - intros (Hl & Hf & Hd). unfold validate_channel_name. cbv zeta.
      bdestr (Z.of_nat (String.length name) <? 1); [lia|].
      bdestr (kMaxChannelNameLen <? Z.of_nat (String.length name)); [lia|]. cbn [orb].
      rewrite Hd, andb_true_r. apply forallb_forall. intros c Hin.
      apply Hc. rewrite Forall_forall in Hf. apply Hf. by apply list_elem_of_In. }
  split; [done|]. intros (_ & Hf & _)%Hiff. rewrite Forall_forall in Hf.
  split; intros Hin%Hf; lia.
Qed.
