(* ===== verification/ChannelSegment.v ===== *)
(** The memory of a channel: the structures of
    [src/edge_runtime/channel/channel_layout.hpp] as locations.

    A channel object holds a bootstrap header, a channel header and three slots;
    [cloc] names their fields and bytes. [chloc] is the memory the channel code
    works on: the objects, each under the device and inode that identify it
    (whoever maps or reads an object sees the same bytes), the bytes of the lock
    files, and the fields of the handles that change after the handle is made. *)
From S2P Require Import Prelude Errors CheckedMath Prog ChannelLayout.

(** [sizeof(BootstrapHeaderAbi)], [sizeof(ChannelHeaderAbi)]. *)
Definition kBootstrapHeaderSize : Z := 128.
Definition kChannelHeaderSize : Z := 320.

Inductive boot_field : Type :=
| bf_abi_major | bf_abi_minor | bf_header_size | bf_expected_mapping_size
| bf_creator_nonce_hi | bf_creator_nonce_lo | bf_creator_pid | bf_creator_proc_start_ticks
| bf_creator_boot_id_hash_hi | bf_creator_boot_id_hash_lo | bf_init_state | bf_reserved0
| bf_bootstrap_checksum.

#[global] Instance boot_field_eq_dec : EqDecision boot_field.
Proof. solve_decision. Defined.

Inductive head_field : Type :=
| ch_abi_major | ch_abi_minor | ch_header_size | ch_endian_marker | ch_slot_count
| ch_payload_size | ch_max_payload_size | ch_schema_version | ch_mapping_size | ch_generation
| ch_instance_nonce_hi | ch_instance_nonce_lo | ch_latest_ticket | ch_notify_epoch
| ch_init_state | ch_producer_state | ch_consumer_state | ch_publish_count | ch_read_count
| ch_last_publish_boot_ns | ch_heartbeat_boot_ns | ch_producer_heartbeat_interval_ns.

#[global] Instance head_field_eq_dec : EqDecision head_field.
Proof. solve_decision. Defined.

(** The two [ProcessIdentityAbi] of the header. *)
Inductive role : Type := r_producer | r_consumer.

#[global] Instance role_eq_dec : EqDecision role.
Proof. solve_decision. Defined.

Inductive ident_field : Type :=
| id_role_epoch | id_pid | id_proc_start_ticks | id_boot_id_hash_hi | id_boot_id_hash_lo.

#[global] Instance ident_field_eq_dec : EqDecision ident_field.
Proof. solve_decision. Defined.

(** [HeadPadding] is what the compiler leaves before [mapping_size] and before
    [producer]. *)
Inductive cloc : Type :=
| BootMagic (i : nat)
| Boot (f : boot_field)
| BootReserved (i : nat)
| HeadMagic (i : nat)
| Head (f : head_field)
| HeadFingerprint (i : nat)
| HeadPadding (i : nat)
| Ident (r : role) (f : ident_field)
| IdentReserved (r : role) (i : nat)
| SlotState (slot : Z)
| SlotPayloadSize (slot : Z)
| SlotSequence (slot : Z)
| SlotPublishNs (slot : Z)
| SlotChecksum (slot : Z)
| SlotReader (slot : Z)
| SlotReserved (slot : Z) (i : nat)
| SlotPayload (slot : Z) (j : nat).

#[global] Instance cloc_eq_dec : EqDecision cloc.
Proof. solve_decision. Defined.

(** The fields of a [ProducerHandle] or [ConsumerHandle] that change after it is
    made. *)
Inductive handle_field : Type :=
| hl_operation_in_use | hl_shutdown_pending | hl_shutdown_started | hl_serve_stop
| hl_socket_unlinked | hl_last_sequence | hl_first_sample_in_generation.

#[global] Instance handle_field_eq_dec : EqDecision handle_field.
Proof. solve_decision. Defined.

(** The fields of a [SupervisorHandle] other threads use. *)
Inductive supervisor_field : Type := sl_stop_requested | sl_running | sl_stop_evfd.

#[global] Instance supervisor_field_eq_dec : EqDecision supervisor_field.
Proof. solve_decision. Defined.

(** [PHnd h], [CHnd h], [SHnd h]: the producer, consumer or supervisor handle number
    [h]; [Jrn path i]: byte [i] of the lock file. *)
Inductive chloc : Type :=
| Obj (dev ino : Z) (l : cloc)
| Jrn (path : string) (i : nat)
| PHnd (handle : nat) (f : handle_field)
| CHnd (handle : nat) (f : handle_field)
| SHnd (handle : nat) (f : supervisor_field).

#[global] Instance chloc_eq_dec : EqDecision chloc.
Proof. solve_decision. Defined.

Abbreviation cprog := (prog chloc).

(** * Byte ranges *)

Definition boot_field_range (f : boot_field) : Z * Z :=
  match f with
  | bf_abi_major => (8, 2) | bf_abi_minor => (10, 2) | bf_header_size => (12, 4)
  | bf_expected_mapping_size => (16, 8) | bf_creator_nonce_hi => (24, 8)
  | bf_creator_nonce_lo => (32, 8) | bf_creator_pid => (40, 8)
  | bf_creator_proc_start_ticks => (48, 8) | bf_creator_boot_id_hash_hi => (56, 8)
  | bf_creator_boot_id_hash_lo => (64, 8) | bf_init_state => (72, 4) | bf_reserved0 => (76, 4)
  | bf_bootstrap_checksum => (80, 8)
  end.

Definition head_field_range (f : head_field) : Z * Z :=
  match f with
  | ch_abi_major => (8, 2) | ch_abi_minor => (10, 2) | ch_header_size => (12, 4)
  | ch_endian_marker => (16, 4) | ch_slot_count => (20, 4) | ch_payload_size => (24, 4)
  | ch_max_payload_size => (28, 4) | ch_schema_version => (32, 4) | ch_mapping_size => (40, 8)
  | ch_generation => (80, 8) | ch_instance_nonce_hi => (88, 8) | ch_instance_nonce_lo => (96, 8)
  | ch_latest_ticket => (256, 8) | ch_notify_epoch => (264, 4) | ch_init_state => (268, 4)
  | ch_producer_state => (272, 4) | ch_consumer_state => (276, 4) | ch_publish_count => (280, 8)
  | ch_read_count => (288, 8) | ch_last_publish_boot_ns => (296, 8)
  | ch_heartbeat_boot_ns => (304, 8) | ch_producer_heartbeat_interval_ns => (312, 8)
  end.

Definition role_offset (r : role) : Z := match r with r_producer => 128 | r_consumer => 192 end.

Definition ident_field_offset (f : ident_field) : Z :=
  match f with
  | id_role_epoch => 0 | id_pid => 8 | id_proc_start_ticks => 16 | id_boot_id_hash_hi => 24
  | id_boot_id_hash_lo => 32
  end.

Definition cloc_range (stride : Z) (l : cloc) : Z * Z :=
  let slot k := kFirstSlotOffset + k * stride in
  match l with
  | BootMagic i => (Z.of_nat i, 1)
  | Boot f => boot_field_range f
  | BootReserved i => (88 + Z.of_nat i, 1)
  | HeadMagic i => (kChannelHeaderOffset + Z.of_nat i, 1)
  | Head f => (kChannelHeaderOffset + (head_field_range f).1, (head_field_range f).2)
  | HeadFingerprint i => (kChannelHeaderOffset + 48 + Z.of_nat i, 1)
  | HeadPadding i =>
      (kChannelHeaderOffset + (if (i <? 4)%nat then 36 + Z.of_nat i else 100 + Z.of_nat i), 1)
  | Ident r f => (kChannelHeaderOffset + role_offset r + ident_field_offset f, 8)
  | IdentReserved r i => (kChannelHeaderOffset + role_offset r + 40 + Z.of_nat i, 1)
  | SlotState k => (slot k, 4)
  | SlotPayloadSize k => (slot k + 4, 4)
  | SlotSequence k => (slot k + 8, 8)
  | SlotPublishNs k => (slot k + 16, 8)
  | SlotChecksum k => (slot k + 24, 8)
  | SlotReader k => (slot k + 32, 8)
  | SlotReserved k i => (slot k + 40 + Z.of_nat i, 1)
  | SlotPayload k j => (slot k + kSlotHeaderSize + Z.of_nat j, 1)
  end.

Definition cloc_valid (payload_size : Z) (l : cloc) : Prop :=
  match l with
  | BootMagic i | HeadMagic i => (i < 8)%nat
  | BootReserved i => (i < 40)%nat
  | HeadFingerprint i => (i < 32)%nat
  | HeadPadding i => (i < 28)%nat
  | IdentReserved _ i => (i < 24)%nat
  | Boot _ | Head _ | Ident _ _ => True
  | SlotState k | SlotPayloadSize k | SlotSequence k | SlotPublishNs k | SlotChecksum k
  | SlotReader k => 0 <= k < kSlotCount
  | SlotReserved k i => 0 <= k < kSlotCount /\ (i < 24)%nat
  | SlotPayload k j => 0 <= k < kSlotCount /\ Z.of_nat j < payload_size
  end.

Definition boot_fields : list boot_field :=
  [ bf_abi_major; bf_abi_minor; bf_header_size; bf_expected_mapping_size;
    bf_creator_nonce_hi; bf_creator_nonce_lo; bf_creator_pid; bf_creator_proc_start_ticks;
    bf_creator_boot_id_hash_hi; bf_creator_boot_id_hash_lo; bf_init_state; bf_reserved0;
    bf_bootstrap_checksum ].
Definition head_fields : list head_field :=
  [ ch_abi_major; ch_abi_minor; ch_header_size; ch_endian_marker; ch_slot_count;
    ch_payload_size; ch_max_payload_size; ch_schema_version; ch_mapping_size; ch_generation;
    ch_instance_nonce_hi; ch_instance_nonce_lo; ch_latest_ticket; ch_notify_epoch;
    ch_init_state; ch_producer_state; ch_consumer_state; ch_publish_count; ch_read_count;
    ch_last_publish_boot_ns; ch_heartbeat_boot_ns; ch_producer_heartbeat_interval_ns ].
Definition ident_fields : list ident_field :=
  [id_role_epoch; id_pid; id_proc_start_ticks; id_boot_id_hash_hi; id_boot_id_hash_lo].

Definition boot_locs : list cloc :=
  map BootMagic (seq 0 8) ++ map Boot boot_fields ++ map BootReserved (seq 0 40).
Definition ident_locs (r : role) : list cloc :=
  map (Ident r) ident_fields ++ map (IdentReserved r) (seq 0 24).
Definition head_locs : list cloc :=
  map HeadMagic (seq 0 8) ++ map Head head_fields ++ map HeadFingerprint (seq 0 32) ++
  map HeadPadding (seq 0 28) ++ ident_locs r_producer ++ ident_locs r_consumer.
Definition slot_payload_locs (payload_size k : Z) : list cloc :=
  map (SlotPayload k) (seq 0 (Z.to_nat payload_size)).
Definition slot_locs (payload_size k : Z) : list cloc :=
  [SlotState k; SlotPayloadSize k; SlotSequence k; SlotPublishNs k; SlotChecksum k;
   SlotReader k] ++ map (SlotReserved k) (seq 0 24) ++ slot_payload_locs payload_size k.

(** [0; 1; 2], the values of the loops over the slots. *)
Definition slot_indices : list Z := [0; 1; 2].

(** Everything after the bootstrap header; the bytes between the end of a payload
    and the next slot are never read. *)
Definition body_locs (payload_size : Z) : list cloc :=
  head_locs ++ concat (map (slot_locs payload_size) slot_indices).

(** [round_up_to_multiple_u64(kSlotHeaderSize + payload_size, 64, &stride)]. *)
Definition slot_stride (payload_size : Z) : option Z :=
  round_up_to_multiple_u64 (u64 (kSlotHeaderSize + payload_size)) 64.

(** * Sizes *)

Lemma slot_stride_spec ps :
  0 < ps <= kMaxPayloadSize ->
  exists stride, slot_stride ps = Some stride /\ kSlotHeaderSize + ps <= stride < 128 + ps.
Proof.
  unfold kMaxPayloadSize, kSlotHeaderSize. intros Hp. unfold slot_stride, kSlotHeaderSize.
  rewrite u64_small by mlia.
  destruct (round_up_ok (64 + ps) 64) as [r Hr]; [mlia..|]. exists r. split; [done|].
  apply round_up_Some in Hr; [lia|mlia..].
Qed.

Lemma slot_byte_offset_spec stride k :
  0 <= k -> 0 <= stride <= 131072 ->
  slot_byte_offset k stride = if k <? kSlotCount then Some (kFirstSlotOffset + k * stride) else None.
Proof.
  unfold kSlotCount, kFirstSlotOffset. intros Hk Hs. unfold slot_byte_offset, kSlotCount.
  bdestr (3 <=? k); bdestr (k <? 3); try lia; [done|].
  assert (0 <= k * stride <= 3 * 131072) by nia.
  rewrite checked_mul_u64_ok by mlia. cbn [mbind option_bind]. unfold kFirstSlotOffset.
  by rewrite checked_add_u64_ok by mlia.
Qed.

Lemma mapping_size_spec ps stride :
  0 < ps <= kMaxPayloadSize -> slot_stride ps = Some stride ->
  mapping_size_for_payload ps = Some (kFirstSlotOffset + 3 * stride).
Proof.
  intros Hp Hs. destruct (slot_stride_spec ps Hp) as (st & Hs' & Hr).
  unfold mapping_size_for_payload. fold (slot_stride ps).
  assert (st = stride) as -> by congruence. rewrite Hs. cbn [mbind option_bind].
  unfold kMaxPayloadSize, kSlotHeaderSize, kSlotCount, kFirstSlotOffset in *.
  rewrite checked_mul_u64_ok by mlia. cbn [mbind option_bind].
  by rewrite checked_add_u64_ok by mlia.
Qed.

(** * Locations do not overlap *)

(** The slot a location belongs to; [None] for the headers. *)
Definition cloc_slot (l : cloc) : option Z :=
  match l with
  | SlotState k | SlotPayloadSize k | SlotSequence k | SlotPublishNs k | SlotChecksum k
  | SlotReader k | SlotReserved k _ | SlotPayload k _ => Some k
  | _ => None
  end.

Definition header_locs : list cloc := boot_locs ++ head_locs.

Lemma elem_of_map_seq {A} (f : nat -> A) n i : (i < n)%nat -> f i ∈ map f (seq 0 n).
Proof. intros. apply list_elem_of_fmap. exists i. split; [done|]. apply elem_of_seq. lia. Qed.

Lemma channel_header_locs_complete ps l : cloc_valid ps l -> cloc_slot l = None -> l ∈ header_locs.
Proof.
  intros Hv Hs. unfold header_locs, boot_locs, head_locs, ident_locs. rewrite !elem_of_app.
  destruct l as [i|f|i|i|f|i|i|r f|r i| | | | | | | |]; simpl in Hs; try done; simpl in Hv;
    try (rewrite <- ?or_assoc; destruct f; try destruct r;
         repeat first [left; apply (bool_decide_unpack _); by vm_compute
                      |apply (bool_decide_unpack _); by vm_compute|right]; fail);
    pose proof (elem_of_map_seq BootMagic 8 i); pose proof (elem_of_map_seq BootReserved 40 i);
    pose proof (elem_of_map_seq HeadMagic 8 i); pose proof (elem_of_map_seq HeadFingerprint 32 i);
    pose proof (elem_of_map_seq HeadPadding 28 i).
  all: try tauto.
  pose proof (elem_of_map_seq (IdentReserved r) 24 i). destruct r; tauto.
Qed.

Lemma header_locs_apart :
  Forall (fun l1 => Forall (fun l2 =>
    l1 = l2 \/ ranges_disjoint (cloc_range 0 l1) (cloc_range 0 l2)) header_locs) header_locs.
Proof. apply (bool_decide_unpack _). by vm_compute. Qed.

Lemma channel_header_locs_bound :
  Forall (fun l => 0 <= (cloc_range 0 l).1 /\
                   (cloc_range 0 l).1 + (cloc_range 0 l).2 <= kFirstSlotOffset) header_locs.
Proof. apply (bool_decide_unpack _). by vm_compute. Qed.

Lemma cloc_range_header stride l : cloc_slot l = None -> cloc_range stride l = cloc_range 0 l.
Proof. by destruct l. Qed.

Lemma cloc_range_slot ps stride l k :
  cloc_valid ps l -> cloc_slot l = Some k -> 0 < ps ->
  let base := kFirstSlotOffset + k * stride in
  0 <= k < kSlotCount /\ base <= (cloc_range stride l).1 /\
  (cloc_range stride l).1 + (cloc_range stride l).2 <= base + kSlotHeaderSize + ps.
Proof.
  intros Hv Hs Hp. unfold kSlotHeaderSize.
  destruct l; simpl in *; try done; injection Hs as ->; unfold kSlotHeaderSize; lia.
Qed.

Lemma cloc_apart_same_slot ps stride l1 l2 k :
  cloc_valid ps l1 -> cloc_valid ps l2 -> cloc_slot l1 = Some k -> cloc_slot l2 = Some k ->
  l1 <> l2 -> ranges_disjoint (cloc_range stride l1) (cloc_range stride l2).
Proof.
  intros V1 V2 H1 H2 Hne. unfold ranges_disjoint.
  destruct l1 as [| | | | | | | | |?|?|?|?|?|?|? i1|? j1]; simpl in H1; try done;
    injection H1 as ->;
    destruct l2 as [| | | | | | | | |?|?|?|?|?|?|? i2|? j2]; simpl in H2; try done;
    injection H2 as ->; try done; simpl in *; unfold kSlotHeaderSize; try lia.
  - assert (i1 <> i2) by congruence. lia.
  - assert (j1 <> j2) by congruence. lia.
Qed.

Lemma cloc_header_below ps stride l1 l2 k :
  cloc_valid ps l1 -> cloc_valid ps l2 -> cloc_slot l1 = None -> cloc_slot l2 = Some k ->
  0 < ps -> 0 <= stride ->
  (cloc_range stride l1).1 + (cloc_range stride l1).2 <= (cloc_range stride l2).1.
Proof.
  intros V1 V2 H1 H2 Hp Hs. destruct (cloc_range_slot _ stride _ _ V2 H2 Hp) as (? & ? & _).
  rewrite (cloc_range_header _ l1) by done. pose proof channel_header_locs_bound as Hf.
  rewrite Forall_forall in Hf. specialize (Hf l1 (channel_header_locs_complete _ _ V1 H1)). nia.
Qed.

Lemma cloc_apart ps stride l1 l2 :
  0 < ps -> kSlotHeaderSize + ps <= stride -> cloc_valid ps l1 -> cloc_valid ps l2 -> l1 <> l2 ->
  ranges_disjoint (cloc_range stride l1) (cloc_range stride l2).
Proof.
  intros Hp Hst V1 V2 Hne. assert (0 <= stride) by (unfold kSlotHeaderSize in *; lia).
  destruct (cloc_slot l1) as [k|] eqn:H1, (cloc_slot l2) as [k'|] eqn:H2.
  - destruct (decide (k = k')) as [->|Hk]; [by eapply cloc_apart_same_slot|].
    destruct (cloc_range_slot _ stride _ _ V1 H1 Hp) as (? & ? & ?).
    destruct (cloc_range_slot _ stride _ _ V2 H2 Hp) as (? & ? & ?).
    unfold ranges_disjoint, kSlotHeaderSize in *. destruct (decide (k < k')); [left|right]; nia.
  - right. by eapply cloc_header_below.
  - left. by eapply cloc_header_below.
  - rewrite !(cloc_range_header stride) by done. pose proof header_locs_apart as Hd.
    rewrite Forall_forall in Hd. specialize (Hd l1 (channel_header_locs_complete _ _ V1 H1)).
    rewrite Forall_forall in Hd. by destruct (Hd l2 (channel_header_locs_complete _ _ V2 H2)).
Qed.

(** The segment of a channel is laid out soundly for every payload size that is
    accepted: sizes and offsets are computed without overflow, every location lies
    inside the mapping and two different locations never share a byte. *)
Theorem channel_layout_sound ps :
  0 < ps <= kMaxPayloadSize ->
  exists stride size, slot_stride ps = Some stride /\ mapping_size_for_payload ps = Some size /\
    (forall k, 0 <= k < kSlotCount ->
       slot_byte_offset k stride = Some (cloc_range stride (SlotState k)).1) /\
    (forall l, cloc_valid ps l ->
       0 <= (cloc_range stride l).1 /\
       (cloc_range stride l).1 + (cloc_range stride l).2 <= size) /\
    (forall l1 l2, cloc_valid ps l1 -> cloc_valid ps l2 -> l1 <> l2 ->
       ranges_disjoint (cloc_range stride l1) (cloc_range stride l2)).
Proof.
  intros Hp. destruct (slot_stride_spec ps Hp) as (stride & Hs & Hr).
  unfold kMaxPayloadSize, kSlotHeaderSize in *.
  eexists stride, _. split; [done|]. split; [by apply mapping_size_spec|]. split; [|split].
  - intros k Hk. rewrite slot_byte_offset_spec by lia.
    bdestr (k <? kSlotCount); [done|lia].
  - intros l Hv. destruct (cloc_slot l) as [k|] eqn:Hl.
    + destruct (cloc_range_slot _ stride _ _ Hv Hl ltac:(lia)) as (? & ? & ?).
      unfold kFirstSlotOffset, kSlotCount, kSlotHeaderSize in *. nia.
    + rewrite cloc_range_header by done. pose proof channel_header_locs_bound as Hf.
      rewrite Forall_forall in Hf. specialize (Hf l (channel_header_locs_complete _ _ Hv Hl)). lia.
  - intros l1 l2. apply cloc_apart; unfold kSlotHeaderSize; lia.
Qed.
