(* ===== verification/SlotProtocol.v ===== *)
(** The slots of a channel: [src/edge_runtime/channel/slot_protocol.{hpp,cpp}].

    A slot is free, being written, published, or claimed and read by the consumer;
    [base] is the mapping it lies in. *)
From S2P Require Import Prelude Errors Prog ChannelLayout ChannelSegment.

Definition ss_kFree : Z := 0.
Definition ss_kWriting : Z := 1.
Definition ss_kPublished : Z := 2.
Definition ss_kReadingClaiming : Z := 3.
Definition ss_kReading : Z := 4.

Definition checked_next_sequence (current_ticket : Z) : option Z :=
  let current_seq := ticket_sequence current_ticket in
  if kMaxSampleSequence <=? current_seq then None else Some (u64 (current_seq + 1)).

Definition saturated_gap (last_sequence current_sequence : Z) : Z :=
  if current_sequence <=? last_sequence then 0
  else u64 (current_sequence - last_sequence - 1).

Section Slots.
Context {L : Type} (base : cloc -> L).

Definition slot_claim_writable (slot observed_state : Z) : prog L bool :=
  shared_cas_acquire (base (SlotState slot)) observed_state ss_kWriting.

Definition slot_publish (slot : Z) : prog L unit :=
  shared_store_release (base (SlotState slot)) ss_kPublished.

Definition slot_abort_write (slot : Z) : prog L unit :=
  shared_store_relaxed (base (SlotState slot)) ss_kFree.

Definition slot_claim_readable (slot : Z) : prog L bool :=
  shared_cas_acquire (base (SlotState slot)) ss_kPublished ss_kReadingClaiming.

Definition slot_mark_reading (slot consumer_role_epoch : Z) : prog L unit :=
  do! shared_store_relaxed (base (SlotReader slot)) consumer_role_epoch;
  shared_store_release (base (SlotState slot)) ss_kReading.

Definition slot_release_read (slot : Z) : prog L unit :=
  do! shared_store_relaxed (base (SlotReader slot)) 0;
  shared_store_release (base (SlotState slot)) ss_kPublished.
End Slots.

(** * Facts *)

Lemma checked_next_sequence_spec ticket :
  is_u64 ticket ->
  checked_next_sequence ticket =
  if decide (ticket_sequence ticket < kMaxSampleSequence)
  then Some (ticket_sequence ticket + 1) else None.
Proof.
  intros Ht. unfold checked_next_sequence.
  assert (0 <= ticket_sequence ticket) by (apply Z.shiftr_nonneg; mlia).
  assert (kMaxSampleSequence < UINT64_MAX) by by vm_compute.
  case_decide; bdestr (kMaxSampleSequence <=? ticket_sequence ticket); try lia; [|done].
  by rewrite u64_small by mlia.
Qed.

Lemma saturated_gap_spec last current :
  is_u64 last -> is_u64 current -> saturated_gap last current = Z.max 0 (current - last - 1).
Proof.
  intros Hl Hc. unfold saturated_gap. bdestr (current <=? last); [lia|].
  rewrite u64_small by mlia. lia.
Qed.
