(* ===== verification/ChannelAbi.v ===== *)
(** The channel's shared structures: [src/edge_runtime/channel/channel_abi.{hpp,cpp}]
    and the option and status records of [include/edge_runtime/channel].

    Reading and writing the identity of an endpoint, checking a bootstrap header
    and a channel header, transferring whole structures through a descriptor, the
    status of a channel. *)
From S2P Require Import Prelude Errors CheckedMath Checksum Prog ProcIdentity OwnerSnapshot.
From S2P Require Import ChannelLayout ChannelSegment.

(** * Options *)

Inductive Transport : Type := tr_kPosixShm | tr_kMemfdFdPass.

#[global] Instance Transport_eq_dec : EqDecision Transport.
Proof. solve_decision. Defined.

Definition transport_value (t : Transport) : Z :=
  match t with tr_kPosixShm => 0 | tr_kMemfdFdPass => 1 end.

(** The durations are their counts, in milliseconds and nanoseconds. *)
Record ChannelOptions : Type := mkChannelOptions {
  co_name : string;
  co_stale_timeout : Z;
  co_reconnect_timeout : Z;
  co_enable_payload_checksum : bool;
  co_transport : Transport;
  co_heartbeat_interval : Z
}.

Definition validate_channel_option_contract (options : ChannelOptions) (operation : string)
    : Result unit :=
  if negb (co_enable_payload_checksum options) then
    Err (make_error kInvalidOptions operation "payload checksum is mandatory")
  else if negb (co_stale_timeout options =? 100) then
    Err (make_error kInvalidOptions operation "stale_timeout is deprecated; retain 100ms")
  else Ok tt.

(** * Endpoint identities *)

(** [ProcessIdentityAbi] without its reserved words. *)
Record ProcessIdentityAbi : Type := mkIdentityAbi {
  ia_role_epoch : Z;
  ia_pid : Z;
  ia_proc_start_ticks : Z;
  ia_boot_id_hash_hi : Z;
  ia_boot_id_hash_lo : Z
}.

#[global] Instance ProcessIdentityAbi_eq_dec : EqDecision ProcessIdentityAbi.
Proof. solve_decision. Defined.

(** [{abi.pid, abi.proc_start_ticks, abi.boot_id_hash_hi, abi.boot_id_hash_lo}]. *)
Definition identity_of_abi (a : ProcessIdentityAbi) : ProcessIdentity :=
  mkIdentity (ia_pid a) (ia_proc_start_ticks a) (ia_boot_id_hash_hi a) (ia_boot_id_hash_lo a).
Definition abi_of_identity (p : ProcessIdentity) : ProcessIdentityAbi :=
  mkIdentityAbi 0 (pid p) (proc_start_ticks p) (boot_id_hash_hi p) (boot_id_hash_lo p).

Definition kIdentitySnapshotRetries : nat := 8.

Section Identity.
Context {L : Type} (abi : ident_field -> L).

Fixpoint identity_snapshot_loop (attempts : nat) : prog L (Result ProcessIdentityAbi) :=
  match attempts with
  | O => fail kRecoveryBlocked "identity_snapshot_read" "identity epoch unstable"
  | S attempts' =>
      let! before := shared_load_acquire (abi id_role_epoch) in
      if epoch_odd before then identity_snapshot_loop attempts'
      else
      let! p := shared_load_relaxed (abi id_pid) in
      let! ticks := shared_load_relaxed (abi id_proc_start_ticks) in
      let! hi := shared_load_relaxed (abi id_boot_id_hash_hi) in
      let! lo := shared_load_relaxed (abi id_boot_id_hash_lo) in
      let! after := shared_load_acquire (abi id_role_epoch) in
      if epoch_odd after then identity_snapshot_loop attempts'
      else if negb (after =? before) then identity_snapshot_loop attempts'
      else Ret (Ok (mkIdentityAbi after p ticks hi lo))
  end.

Definition identity_snapshot_read : prog L (Result ProcessIdentityAbi) :=
  identity_snapshot_loop kIdentitySnapshotRetries.

Definition identity_snapshot_write (snap : ProcessIdentityAbi) : prog L (Result Z) :=
  let! cur := shared_load_relaxed (abi id_role_epoch) in
  if epoch_odd cur then fail kRecoveryBlocked "identity_snapshot_write" "identity epoch busy"
  else if UINT64_MAX - 2 <? cur then
    fail kRecoveryBlocked "identity_snapshot_write" "identity epoch exhausted"
  else
  do! shared_store_relaxed (abi id_role_epoch) (u64 (cur + 1));
  do! shared_store_relaxed (abi id_pid) (ia_pid snap);
  do! shared_store_relaxed (abi id_proc_start_ticks) (ia_proc_start_ticks snap);
  do! shared_store_relaxed (abi id_boot_id_hash_hi) (ia_boot_id_hash_hi snap);
  do! shared_store_relaxed (abi id_boot_id_hash_lo) (ia_boot_id_hash_lo snap);
  do! shared_store_release (abi id_role_epoch) (u64 (cur + 2));
  Ret (Ok (u64 (cur + 2))).
End Identity.

(** * The bootstrap header *)

Record BootstrapHeaderAbi : Type := mkBootstrap {
  bo_magic : list Z;
  bo_abi_major : Z;
  bo_abi_minor : Z;
  bo_header_size : Z;
  bo_expected_mapping_size : Z;
  bo_creator_nonce_hi : Z;
  bo_creator_nonce_lo : Z;
  bo_creator_pid : Z;
  bo_creator_proc_start_ticks : Z;
  bo_creator_boot_id_hash_hi : Z;
  bo_creator_boot_id_hash_lo : Z;
  bo_init_state : Z;
  bo_reserved0 : Z;
  bo_bootstrap_checksum : Z;
  bo_reserved : list Z
}.

#[global] Instance BootstrapHeaderAbi_eq_dec : EqDecision BootstrapHeaderAbi.
Proof. solve_decision. Defined.

(** The 128 bytes of the structure. *)
Definition bootstrap_bytes (b : BootstrapHeaderAbi) : list Z :=
  bo_magic b ++ le_bytes 2 (bo_abi_major b) ++ le_bytes 2 (bo_abi_minor b) ++
  le_bytes 4 (bo_header_size b) ++ le_bytes 8 (bo_expected_mapping_size b) ++
  le_bytes 8 (bo_creator_nonce_hi b) ++ le_bytes 8 (bo_creator_nonce_lo b) ++
  le_bytes 8 (bo_creator_pid b) ++ le_bytes 8 (bo_creator_proc_start_ticks b) ++
  le_bytes 8 (bo_creator_boot_id_hash_hi b) ++ le_bytes 8 (bo_creator_boot_id_hash_lo b) ++
  le_bytes 4 (bo_init_state b) ++ le_bytes 4 (bo_reserved0 b) ++
  le_bytes 8 (bo_bootstrap_checksum b) ++ bo_reserved b.

Definition bootstrap_checksum_of (b : BootstrapHeaderAbi) : Z :=
  fnv1a64 (bootstrap_bytes
    (mkBootstrap (bo_magic b) (bo_abi_major b) (bo_abi_minor b) (bo_header_size b)
       (bo_expected_mapping_size b) (bo_creator_nonce_hi b) (bo_creator_nonce_lo b)
       (bo_creator_pid b) (bo_creator_proc_start_ticks b) (bo_creator_boot_id_hash_hi b)
       (bo_creator_boot_id_hash_lo b) 0 (bo_reserved0 b) 0 (bo_reserved b))).

Definition validate_bootstrap_parse (boot : BootstrapHeaderAbi) (shm_size : Z) : Result unit :=
  let op := "validate_bootstrap_parse" in
  if negb (bool_decide (bo_magic boot = string_codes kBootstrapMagic)) then
    Err (make_error kCorruptHeader op "bootstrap magic")
  else if negb (bo_abi_major boot =? kAbiMajor) || (kAbiMinorMax <? bo_abi_minor boot) then
    Err (make_error kAbiMismatch op "bootstrap abi")
  else if negb (bo_header_size boot =? kBootstrapHeaderSize) then
    Err (make_error kCorruptHeader op "bootstrap header size")
  else if bo_expected_mapping_size boot =? 0 then
    Err (make_error kCorruptHeader op "bootstrap mapping size")
  else if negb (bootstrap_checksum_of boot =? bo_bootstrap_checksum boot) then
    Err (make_error kCorruptHeader op "bootstrap checksum")
  else if negb (shm_size =? 0) && (shm_size <? kBootstrapHeaderSize) then
    Err (make_error kInitializationIncomplete op "segment too small")
  else Ok tt.

(** A copy of the structure out of an object and into it. *)
Definition load_bootstrap {L} (base : cloc -> L) : prog L BootstrapHeaderAbi :=
  let! magic := load_list (map (fun i => base (BootMagic i)) (seq 0 8)) in
  let! abi_major := plain_load (base (Boot bf_abi_major)) in
  let! abi_minor := plain_load (base (Boot bf_abi_minor)) in
  let! header_size := plain_load (base (Boot bf_header_size)) in
  let! mapping := plain_load (base (Boot bf_expected_mapping_size)) in
  let! nonce_hi := plain_load (base (Boot bf_creator_nonce_hi)) in
  let! nonce_lo := plain_load (base (Boot bf_creator_nonce_lo)) in
  let! p := plain_load (base (Boot bf_creator_pid)) in
  let! ticks := plain_load (base (Boot bf_creator_proc_start_ticks)) in
  let! hi := plain_load (base (Boot bf_creator_boot_id_hash_hi)) in
  let! lo := plain_load (base (Boot bf_creator_boot_id_hash_lo)) in
  let! init := plain_load (base (Boot bf_init_state)) in
  let! reserved0 := plain_load (base (Boot bf_reserved0)) in
  let! checksum := plain_load (base (Boot bf_bootstrap_checksum)) in
  let! reserved := load_list (map (fun i => base (BootReserved i)) (seq 0 40)) in
  Ret (mkBootstrap magic abi_major abi_minor header_size mapping nonce_hi nonce_lo p ticks
         hi lo init reserved0 checksum reserved).

Definition bootstrap_stores {L} (base : cloc -> L) (b : BootstrapHeaderAbi) : list (L * Z) :=
  zip (map (fun i => base (BootMagic i)) (seq 0 8)) (bo_magic b) ++
  [ (base (Boot bf_abi_major), bo_abi_major b); (base (Boot bf_abi_minor), bo_abi_minor b);
    (base (Boot bf_header_size), bo_header_size b);
    (base (Boot bf_expected_mapping_size), bo_expected_mapping_size b);
    (base (Boot bf_creator_nonce_hi), bo_creator_nonce_hi b);
    (base (Boot bf_creator_nonce_lo), bo_creator_nonce_lo b);
    (base (Boot bf_creator_pid), bo_creator_pid b);
    (base (Boot bf_creator_proc_start_ticks), bo_creator_proc_start_ticks b);
    (base (Boot bf_creator_boot_id_hash_hi), bo_creator_boot_id_hash_hi b);
    (base (Boot bf_creator_boot_id_hash_lo), bo_creator_boot_id_hash_lo b);
    (base (Boot bf_init_state), bo_init_state b); (base (Boot bf_reserved0), bo_reserved0 b);
    (base (Boot bf_bootstrap_checksum), bo_bootstrap_checksum b) ] ++
  zip (map (fun i => base (BootReserved i)) (seq 0 40)) (bo_reserved b).

(** * Transfers through a descriptor *)

(** The rounds of the transfer loops. Every round moves at least one byte or was
    interrupted; when they are used up the model reports the interruption, where
    the code would try again. The largest structure has 320 bytes. *)
Definition kIoFuel : nat := 1024.

(** The loop of [pread_full] and of [ControlLock::read_journal]: how much was read
    before the end of the file. *)
Fixpoint pread_loop {L} (fuel : nat) (op : string) (fd size offset got : Z) : prog L (Result Z) :=
  if size <=? got then Ret (Ok got)
  else
    match fuel with
    | O => Ret (Err (make_errno_error EINTR op strerror_text))
    | S fuel' =>
        let! n := syscall (sys_pread fd (size - got) (offset + got)) in
        match n with
        | SysErr e =>
            if e =? EINTR then pread_loop fuel' op fd size offset got
            else Ret (Err (make_errno_error e op strerror_text))
        | SysOk n =>
            if n =? 0 then Ret (Ok got) else pread_loop fuel' op fd size offset (got + n)
        end
    end.

(** What is read is what the object holds: the caller loads the structure. *)
Definition pread_full {L} (fd size offset : Z) : prog L (Result unit) :=
  let? got := pread_loop kIoFuel "pread_full" fd size offset 0 in
  if negb (got =? size) then fail kInitializationIncomplete "pread_full" "short read"
  else Ret (Ok tt).

Fixpoint pwrite_loop {L} (fuel : nat) (op : string) (fd size offset written : Z)
    : prog L (Result unit) :=
  if size <=? written then Ret (Ok tt)
  else
    match fuel with
    | O => Ret (Err (make_errno_error EINTR op strerror_text))
    | S fuel' =>
        let! n := syscall (sys_pwrite fd (size - written) (offset + written)) in
        match n with
        | SysErr e =>
            if e =? EINTR then pwrite_loop fuel' op fd size offset written
            else Ret (Err (make_errno_error e op strerror_text))
        | SysOk n => pwrite_loop fuel' op fd size offset (written + n)
        end
    end.

(** [stores] is the structure the bytes make up; a transfer that fails stores
    nothing (the code then unlinks the object it was writing to). *)
Definition pwrite_full {L} (fd size offset : Z) (stores : list (L * Z)) : prog L (Result unit) :=
  let? _ := pwrite_loop kIoFuel "pwrite_full" fd size offset 0 in
  do! store_list stores;
  Ret (Ok tt).

(** * The channel header *)

Section Header.
Context {L : Type} (base : cloc -> L).

(** The checks that [validate_header_parse] and [validate_header_shape] share:
    magic, version, size, endianness, slot count. *)
Definition validate_header_start (op : string) : prog L (Result unit) :=
  let! magic := load_list (map (fun i => base (HeadMagic i)) (seq 0 8)) in
  if negb (bool_decide (magic = string_codes kChannelHeaderMagic)) then
    fail kCorruptHeader op "header magic"
  else
  let! abi_major := plain_load (base (Head ch_abi_major)) in
  let! abi_minor := plain_load (base (Head ch_abi_minor)) in
  if negb (abi_major =? kAbiMajor) || (kAbiMinorMax <? abi_minor) then
    fail kAbiMismatch op "header abi"
  else
  let! header_size := plain_load (base (Head ch_header_size)) in
  if negb (header_size =? kChannelHeaderSize) then fail kCorruptHeader op "header size"
  else
  let! endian_marker := plain_load (base (Head ch_endian_marker)) in
  if negb (endian_marker =? kEndianMarker) then fail kCorruptHeader op "endian marker"
  else
  let! slot_count := plain_load (base (Head ch_slot_count)) in
  if negb (slot_count =? kSlotCount) then fail kCorruptHeader op "slot count"
  else Ret (Ok tt).

Definition validate_header_parse (schema : SchemaDescriptor) (payload_size : Z)
    : prog L (Result unit) :=
  let op := "validate_header_parse" in
  let? _ := validate_header_start op in
  let! h_payload_size := plain_load (base (Head ch_payload_size)) in
  if negb (h_payload_size =? payload_size) then fail kSchemaMismatch op "payload size"
  else
  let! schema_version := plain_load (base (Head ch_schema_version)) in
  if negb (schema_version =? sd_version schema) then fail kSchemaMismatch op "schema version"
  else
  let! fingerprint := load_list (map (fun i => base (HeadFingerprint i)) (seq 0 32)) in
  if negb (bool_decide (fingerprint = sd_fingerprint schema)) then
    fail kSchemaMismatch op "schema fingerprint"
  else
  let! mapping_size := plain_load (base (Head ch_mapping_size)) in
  if mapping_size <? kChannelHeaderOffset + kSlotHeaderSize then
    fail kCorruptHeader op "mapping too small"
  else
  let! generation := plain_load (base (Head ch_generation)) in
  if generation =? 0 then fail kCorruptHeader op "zero generation"
  else
  let! nonce_hi := plain_load (base (Head ch_instance_nonce_hi)) in
  let! nonce_lo := plain_load (base (Head ch_instance_nonce_lo)) in
  if (nonce_hi =? 0) && (nonce_lo =? 0) then fail kCorruptHeader op "zero instance nonce"
  else Ret (Ok tt).

Definition validate_header_shape : prog L (Result unit) :=
  let op := "validate_header_shape" in
  let? _ := validate_header_start op in
  let! mapping_size := plain_load (base (Head ch_mapping_size)) in
  if mapping_size <? kChannelHeaderOffset + kSlotHeaderSize then
    fail kCorruptHeader op "mapping too small"
  else
  let! generation := plain_load (base (Head ch_generation)) in
  if generation =? 0 then fail kCorruptHeader op "zero generation"
  else Ret (Ok tt).
End Header.

(** * Status *)

Record ChannelStatus : Type := mkChannelStatus {
  cs_ready : bool;
  cs_init_state : Z;
  cs_producer_state : Z;
  cs_consumer_state : Z;
  cs_abi_major : Z;
  cs_abi_minor : Z;
  cs_slot_count : Z;
  cs_payload_size : Z;
  cs_mapping_size : Z;
  cs_generation : Z;
  cs_instance_nonce_hi : Z;
  cs_instance_nonce_lo : Z;
  cs_publish_count : Z;
  cs_read_count : Z;
  cs_last_publish_boot_ns : Z;
  cs_producer_pid : Z;
  cs_consumer_pid : Z;
  cs_producer_alive : bool;
  cs_consumer_alive : bool;
  cs_heartbeat_boot_ns : Z;
  cs_producer_heartbeat_interval_ns : Z
}.

(** The pid of an endpoint and whether it is alive; zero and [false] when the
    identity cannot be read. *)
Definition endpoint_status {L} (abi : ident_field -> L) : prog L (Z * bool) :=
  let! p := identity_snapshot_read abi in
  match p with
  | Err _ => Ret (0, false)
  | Ok p =>
      let! liveness := probe_liveness (ia_pid p) (ia_proc_start_ticks p) in
      Ret (ia_pid p, bool_decide (liveness = kAlive))
  end.

Definition read_channel_status {L} (base : cloc -> L) : prog L (Result ChannelStatus) :=
  let! ready := shared_load_acquire (base (Head ch_init_state)) in
  let! init_state := shared_load_acquire (base (Head ch_init_state)) in
  let! producer_state := shared_load_acquire (base (Head ch_producer_state)) in
  let! consumer_state := shared_load_acquire (base (Head ch_consumer_state)) in
  let! abi_major := plain_load (base (Head ch_abi_major)) in
  let! abi_minor := plain_load (base (Head ch_abi_minor)) in
  let! slot_count := plain_load (base (Head ch_slot_count)) in
  let! payload_size := plain_load (base (Head ch_payload_size)) in
  let! mapping_size := plain_load (base (Head ch_mapping_size)) in
  let! generation := plain_load (base (Head ch_generation)) in
  let! nonce_hi := plain_load (base (Head ch_instance_nonce_hi)) in
  let! nonce_lo := plain_load (base (Head ch_instance_nonce_lo)) in
  let! publish_count := shared_load_acquire (base (Head ch_publish_count)) in
  let! read_count := shared_load_acquire (base (Head ch_read_count)) in
  let! last_publish := shared_load_acquire (base (Head ch_last_publish_boot_ns)) in
  let! heartbeat := shared_load_acquire (base (Head ch_heartbeat_boot_ns)) in
  let! interval := shared_load_acquire (base (Head ch_producer_heartbeat_interval_ns)) in
  let! (producer_pid, producer_alive) := endpoint_status (fun f => base (Ident r_producer f)) in
  let! (consumer_pid, consumer_alive) := endpoint_status (fun f => base (Ident r_consumer f)) in
  Ret (Ok (mkChannelStatus (ready =? is_kReady) init_state producer_state consumer_state
             abi_major abi_minor slot_count payload_size mapping_size generation nonce_hi
             nonce_lo publish_count read_count last_publish producer_pid consumer_pid
             producer_alive consumer_alive heartbeat interval)).

(** * Read-only parts *)

Lemma identity_snapshot_loop_readonly {L} (abi : ident_field -> L) n :
  readonly (identity_snapshot_loop abi n).
Proof. induction n as [|n IH]; cbn [identity_snapshot_loop]; solve_readonly. Qed.
Lemma identity_snapshot_readonly {L} (abi : ident_field -> L) :
  readonly (identity_snapshot_read abi).
Proof. apply identity_snapshot_loop_readonly. Qed.
#[global] Hint Resolve identity_snapshot_readonly : prog_db.

Lemma validate_header_start_readonly {L} (base : cloc -> L) op :
  readonly (validate_header_start base op).
Proof. unfold validate_header_start. solve_readonly. Qed.
#[global] Hint Resolve validate_header_start_readonly : prog_db.
Lemma validate_header_parse_readonly {L} (base : cloc -> L) schema ps :
  readonly (validate_header_parse base schema ps).
Proof. unfold validate_header_parse. solve_readonly. Qed.

Lemma endpoint_status_readonly {L} (abi : ident_field -> L) : readonly (endpoint_status abi).
Proof. unfold endpoint_status. solve_readonly. Qed.
#[global] Hint Resolve endpoint_status_readonly : prog_db.
Lemma read_channel_status_readonly {L} (base : cloc -> L) : readonly (read_channel_status base).
Proof. unfold read_channel_status. solve_readonly. Qed.
#[global] Hint Resolve read_channel_status_readonly : prog_db.
