(* ===== verification/ControlLock.v ===== *)
(** The control lock and its journal:
    [src/edge_runtime/channel/control_lock.{hpp,cpp}] with the journal functions of
    [src/edge_runtime/channel/channel_abi.cpp].

    Creating, replacing and removing a channel happens under a file lock; the lock
    file holds one 256-byte record that says which of these was under way. The
    bytes of the file are the locations [Jrn path i]. *)
From S2P Require Import Prelude ByteFields Errors Checksum Prog ProcIdentity.
From S2P Require Import ChannelLayout ChannelSegment ChannelAbi.

(** [JournalState]. *)
Definition js_kIdle : Z := 0.
Definition js_kCreatingPreObject : Z := 1.
Definition js_kCreatingObject : Z := 2.
Definition js_kReplacing : Z := 3.
Definition js_kRemoving : Z := 4.

Definition kJournalMagic : string := "EDGJRN1".
Definition kJournalVersion : Z := 1.
Definition kJournalRecordSize : Z := 256.

(** [cj_creator_reserved] and [cj_padding] are the reserved words of the creator
    and what the compiler leaves before it (it is aligned to 64 bytes). *)
Record ControlJournalV1 : Type := mkJournal {
  cj_magic : list Z;
  cj_version : Z;
  cj_channel_hash : Z;
  cj_state : Z;
  cj_reserved0 : Z;
  cj_target_dev : Z;
  cj_target_ino : Z;
  cj_old_generation : Z;
  cj_new_generation : Z;
  cj_old_nonce_hi : Z;
  cj_old_nonce_lo : Z;
  cj_new_nonce_hi : Z;
  cj_new_nonce_lo : Z;
  cj_padding : list Z;
  cj_creator : ProcessIdentityAbi;
  cj_creator_reserved : list Z;
  cj_record_checksum : Z;
  cj_transport : Z;
  cj_reserved : list Z
}.

#[global] Instance ControlJournalV1_eq_dec : EqDecision ControlJournalV1.
Proof. solve_decision. Defined.

(** [ControlJournalV1{}]. *)
Definition empty_journal : ControlJournalV1 :=
  mkJournal (replicate 8 0) 0 0 0 0 0 0 0 0 0 0 0 0 (replicate 40 0)
    (mkIdentityAbi 0 0 0 0 0) (replicate 24 0) 0 0 (replicate 52 0).

(** The 256 bytes of the record. *)
Definition journal_bytes (j : ControlJournalV1) : list Z :=
  cj_magic j ++ le_bytes 4 (cj_version j) ++ le_bytes 4 (cj_channel_hash j) ++
  le_bytes 4 (cj_state j) ++ le_bytes 4 (cj_reserved0 j) ++ le_bytes 8 (cj_target_dev j) ++
  le_bytes 8 (cj_target_ino j) ++ le_bytes 8 (cj_old_generation j) ++
  le_bytes 8 (cj_new_generation j) ++ le_bytes 8 (cj_old_nonce_hi j) ++
  le_bytes 8 (cj_old_nonce_lo j) ++ le_bytes 8 (cj_new_nonce_hi j) ++
  le_bytes 8 (cj_new_nonce_lo j) ++ cj_padding j ++
  le_bytes 8 (ia_role_epoch (cj_creator j)) ++ le_bytes 8 (ia_pid (cj_creator j)) ++
  le_bytes 8 (ia_proc_start_ticks (cj_creator j)) ++
  le_bytes 8 (ia_boot_id_hash_hi (cj_creator j)) ++
  le_bytes 8 (ia_boot_id_hash_lo (cj_creator j)) ++ cj_creator_reserved j ++
  le_bytes 8 (cj_record_checksum j) ++ le_bytes 4 (cj_transport j) ++ cj_reserved j.

Definition journal_of_bytes (bs : list Z) : ControlJournalV1 :=
  mkJournal (bytes_at bs 0 8) (field_at bs 8 4) (field_at bs 12 4) (field_at bs 16 4)
    (field_at bs 20 4) (field_at bs 24 8) (field_at bs 32 8) (field_at bs 40 8)
    (field_at bs 48 8) (field_at bs 56 8) (field_at bs 64 8) (field_at bs 72 8)
    (field_at bs 80 8) (bytes_at bs 88 40)
    (mkIdentityAbi (field_at bs 128 8) (field_at bs 136 8) (field_at bs 144 8)
       (field_at bs 152 8) (field_at bs 160 8))
    (bytes_at bs 168 24) (field_at bs 192 8) (field_at bs 200 4) (bytes_at bs 204 52).

Definition with_checksum (j : ControlJournalV1) (checksum : Z) : ControlJournalV1 :=
  mkJournal (cj_magic j) (cj_version j) (cj_channel_hash j) (cj_state j) (cj_reserved0 j)
    (cj_target_dev j) (cj_target_ino j) (cj_old_generation j) (cj_new_generation j)
    (cj_old_nonce_hi j) (cj_old_nonce_lo j) (cj_new_nonce_hi j) (cj_new_nonce_lo j)
    (cj_padding j) (cj_creator j) (cj_creator_reserved j) checksum (cj_transport j)
    (cj_reserved j).

Definition journal_checksum (j : ControlJournalV1) : Z :=
  fnv1a64 (journal_bytes (with_checksum j 0)).

(** Field updates of the code: [j.transport = ...], [j.target_dev = ...; j.target_ino =
    ...;] and the reset of a recovered record. *)
Definition with_transport (j : ControlJournalV1) (t : Z) : ControlJournalV1 :=
  mkJournal (cj_magic j) (cj_version j) (cj_channel_hash j) (cj_state j) (cj_reserved0 j)
    (cj_target_dev j) (cj_target_ino j) (cj_old_generation j) (cj_new_generation j)
    (cj_old_nonce_hi j) (cj_old_nonce_lo j) (cj_new_nonce_hi j) (cj_new_nonce_lo j)
    (cj_padding j) (cj_creator j) (cj_creator_reserved j) (cj_record_checksum j) t
    (cj_reserved j).
Definition with_target (j : ControlJournalV1) (dev ino : Z) : ControlJournalV1 :=
  mkJournal (cj_magic j) (cj_version j) (cj_channel_hash j) (cj_state j) (cj_reserved0 j)
    dev ino (cj_old_generation j) (cj_new_generation j)
    (cj_old_nonce_hi j) (cj_old_nonce_lo j) (cj_new_nonce_hi j) (cj_new_nonce_lo j)
    (cj_padding j) (cj_creator j) (cj_creator_reserved j) (cj_record_checksum j)
    (cj_transport j) (cj_reserved j).
Definition with_state (j : ControlJournalV1) (state : Z) : ControlJournalV1 :=
  mkJournal (cj_magic j) (cj_version j) (cj_channel_hash j) state (cj_reserved0 j)
    (cj_target_dev j) (cj_target_ino j) (cj_old_generation j) (cj_new_generation j)
    (cj_old_nonce_hi j) (cj_old_nonce_lo j) (cj_new_nonce_hi j) (cj_new_nonce_lo j)
    (cj_padding j) (cj_creator j) (cj_creator_reserved j) (cj_record_checksum j)
    (cj_transport j) (cj_reserved j).
Definition with_new (j : ControlJournalV1) (generation nonce_hi nonce_lo : Z)
    : ControlJournalV1 :=
  mkJournal (cj_magic j) (cj_version j) (cj_channel_hash j) (cj_state j) (cj_reserved0 j)
    (cj_target_dev j) (cj_target_ino j) (cj_old_generation j) generation
    (cj_old_nonce_hi j) (cj_old_nonce_lo j) nonce_hi nonce_lo
    (cj_padding j) (cj_creator j) (cj_creator_reserved j) (cj_record_checksum j)
    (cj_transport j) (cj_reserved j).

Definition next_generation_from_journal (j : ControlJournalV1) : option Z :=
  let last := if cj_state j =? js_kIdle
              then Z.max (cj_old_generation j) (cj_new_generation j) else 0 in
  if UINT64_MAX - 1 <=? last then None else Some (u64 (last + 1)).

Definition make_control_journal (channel_name : string) (state old_gen new_gen old_nonce_hi
    old_nonce_lo new_nonce_hi new_nonce_lo : Z) (creator : ProcessIdentity) : ControlJournalV1 :=
  mkJournal (string_codes kJournalMagic ++ [0]) kJournalVersion
    (channel_name_hash (string_codes channel_name)) state 0 0 0 old_gen new_gen old_nonce_hi
    old_nonce_lo new_nonce_hi new_nonce_lo (replicate 40 0) (abi_of_identity creator)
    (replicate 24 0) 0 0 (replicate 52 0).

(** * The lock *)

Record ControlLock : Type := mkControlLock { cl_fd : Z; cl_path : string }.

Definition LOCK_EX : Z := 2.
Definition LOCK_UN : Z := 8.

(** [lock_path.rfind('/')] and [substr(0, slash)]: the directory part of a path. *)
Fixpoint dir_of (path : string) : option string :=
  match path with
  | EmptyString => None
  | String c rest =>
      match dir_of rest with
      | Some d => Some (String c d)
      | None => if ascii_code c =? 47 then Some EmptyString else None
      end
  end.

Definition control_lock_acquire {L} (lock_path : string) : prog L (Result ControlLock) :=
  let op := "control_lock_acquire" in
  match dir_of lock_path with
  | None | Some EmptyString => fail kInvalidOptions op "lock path has no directory"
  | Some dir =>
      let! made := syscall (sys_mkdir dir 448) in
      if match made with SysErr e => negb (e =? EEXIST) | SysOk _ => false end then
        Ret (Err (make_errno_error (match made with SysErr e => e | SysOk _ => 0 end) op dir))
      else
      let! fd := syscall (sys_open_create lock_path 384) in
      match fd with
      | SysErr e => Ret (Err (make_errno_error e op strerror_text))
      | SysOk fd =>
          let! st := syscall (sys_fstat fd) in
          match st with
          | SysErr e => Ret (Err (make_errno_error e op strerror_text))
          | SysOk st =>
              let! euid := syscall sys_geteuid in
              if negb (st_uid st =? euid) then fail kPermissionDenied op "lock owner uid mismatch"
              else if negb (st_nlink st =? 1) then
                fail kPermissionDenied op "lock link count != 1"
              else
              let! locked := syscall (sys_flock fd LOCK_EX) in
              match locked with
              | SysErr e => Ret (Err (make_errno_error e op "flock"))
              | SysOk _ => Ret (Ok (mkControlLock fd lock_path))
              end
          end
      end
  end.

Definition control_lock_release {L} (lock : ControlLock) : prog L unit :=
  do! if 0 <=? cl_fd lock then
        let! _ := syscall (sys_flock (cl_fd lock) LOCK_UN) in Ret tt
      else Ret tt;
  syscall (sys_close (cl_fd lock)).

Definition journal_locs (lock : ControlLock) : list chloc :=
  map (Jrn (cl_path lock)) (seq 0 256).

Definition read_journal (lock : ControlLock) : cprog (Result ControlJournalV1) :=
  let op := "control_lock_read_journal" in
  let? got := pread_loop kIoFuel op (cl_fd lock) kJournalRecordSize 0 0 in
  if got =? 0 then Ret (Ok empty_journal)
  else if negb (got =? kJournalRecordSize) then
    fail kRecoveryBlocked op "partial journal record"
  else
  let! bytes := load_list (journal_locs lock) in
  let journal := journal_of_bytes bytes in
  if forallb (fun b => b =? 0) bytes then Ret (Ok journal)
  else if negb (bool_decide (take 7 (cj_magic journal) = string_codes kJournalMagic)) then
    fail kRecoveryBlocked op "journal magic mismatch"
  else if negb (cj_version journal =? kJournalVersion) then
    fail kRecoveryBlocked op "journal version mismatch"
  else if negb (journal_checksum journal =? cj_record_checksum journal) then
    fail kRecoveryBlocked op "journal checksum mismatch"
  else Ret (Ok journal).

(** The loop of [write_journal]: [n] bytes arrive at every round. *)
Fixpoint journal_write_loop (fuel : nat) (op : string) (lock : ControlLock)
    (stores : list (chloc * Z)) (written : Z) : cprog (Result unit) :=
  if kJournalRecordSize <=? written then Ret (Ok tt)
  else
    match fuel with
    | O => Ret (Err (make_errno_error EINTR op strerror_text))
    | S fuel' =>
        let! n := syscall (sys_pwrite (cl_fd lock) (kJournalRecordSize - written) written) in
        match n with
        | SysErr e =>
            if e =? EINTR then journal_write_loop fuel' op lock stores written
            else Ret (Err (make_errno_error e op strerror_text))
        | SysOk n =>
            do! store_list (take (Z.to_nat n) stores);
            journal_write_loop fuel' op lock (drop (Z.to_nat n) stores) (written + n)
        end
    end.

Definition write_journal (lock : ControlLock) (journal : ControlJournalV1)
    : cprog (Result unit) :=
  let op := "control_lock_write_journal" in
  if negb (cj_state journal =? js_kIdle)
     && negb (process_identity_valid (identity_of_abi (cj_creator journal))) then
    fail kRecoveryBlocked op "invalid creator"
  else
  let rec := with_checksum journal (journal_checksum journal) in
  let? _ := journal_write_loop kIoFuel op lock (zip (journal_locs lock) (journal_bytes rec)) 0 in
  let! synced := syscall (sys_fdatasync (cl_fd lock)) in
  match synced with
  | SysErr e => Ret (Err (make_errno_error e op "fdatasync"))
  | SysOk _ => Ret (Ok tt)
  end.
