(* ===== verification/Producer.v ===== *)
(** The producer of a channel on its open segment:
    [src/edge_runtime/channel/producer_impl.{hpp,cpp}] without creation and removal
    (which are in [ProducerCreate]), and the write loans of
    [src/edge_runtime/channel/loan.cpp].

    A handle belongs to one process; [operation_in_use] keeps its threads from
    using it at the same time, and a write loan keeps it in use between [loan] and
    [commit] or [abort]. *)
From S2P Require Import Prelude Errors CheckedMath Checksum Prog ProcIdentity ShmObject Clock.
From S2P Require Import ChannelLayout ChannelSegment SlotProtocol ChannelAbi ControlLock.

Record ProducerHandle : Type := mkProducerHandle {
  pd_id : nat;
  pd_shm : ShmObject;
  pd_channel_name : string;
  pd_generation : Z;
  pd_role_epoch : Z;
  pd_instance_nonce_hi : Z;
  pd_instance_nonce_lo : Z;
  pd_schema : SchemaDescriptor;
  pd_payload_size : Z;
  pd_self : ProcessIdentity;
  pd_transport : Transport;
  pd_channel_hash : Z;
  pd_socket_path : string;
  pd_listen_fd : Z;
  pd_heartbeat_interval_ns : Z
}.

(** [handle->shm.mapping.get()]. *)
Definition pd_base (handle : ProducerHandle) : cloc -> chloc :=
  Obj (so_dev (pd_shm handle)) (so_ino (pd_shm handle)).

Record PublishInfo : Type := mkPublishInfo {
  pi_generation : Z;
  pi_sequence : Z;
  pi_publish_boot_ns : Z
}.

(** [slot_] and [data_] point to the header and to the payload of the slot with
    that index. *)
Record WriteLoan : Type := mkWriteLoan {
  wl_handle : option ProducerHandle;
  wl_slot : option Z;
  wl_data : option Z;
  wl_size : Z;
  wl_slot_index : Z;
  wl_sequence : Z;
  wl_active : bool
}.

(** * The use flag *)

(** [flag.exchange(true)] of an [std::atomic<bool>]: the old value, [true] from
    now on. *)
Definition exchange_true (flag : chloc) : cprog bool :=
  let! was_false := trigger (Cas flag 0 1) in
  Ret (negb was_false).

(** [ProducerUseGuard] and [ConsumerUseGuard] around [body]. *)
Definition with_use {A} (flag : chloc) (operation : string) (body : cprog (Result A))
    : cprog (Result A) :=
  let! in_use := exchange_true flag in
  if (in_use : bool) then fail kConcurrentHandleUse operation "concurrent handle use"
  else
  let! r := body in
  do! shared_store_release flag 0;
  Ret r.

(** * Shutdown *)

Definition mark_producer_offline (handle : ProducerHandle) : cprog unit :=
  let base := pd_base handle in
  let! pid_res := identity_snapshot_read (fun f => base (Ident r_producer f)) in
  match pid_res with
  | Err _ => Ret tt
  | Ok p =>
      if negb (ia_role_epoch p =? pd_role_epoch handle) then Ret tt
      else
      do! shared_store_release (base (Head ch_producer_state)) es_kOffline;
      let! socket_unlinked := plain_load (PHnd (pd_id handle) hl_socket_unlinked) in
      if negb (bool_decide (pd_transport handle = tr_kMemfdFdPass))
         || negb (socket_unlinked =? 0) then Ret tt
      else
      do! shared_store_relaxed (PHnd (pd_id handle) hl_serve_stop) 1;
      do! if 0 <=? pd_listen_fd handle then
            let! _ := syscall (sys_shutdown (pd_listen_fd handle)) in Ret tt
          else Ret tt;
      let! lock_path := channel_lock_path (pd_channel_name handle) in
      let! lock_res := control_lock_acquire lock_path in
      match lock_res with
      | Err _ => Ret tt
      | Ok lock =>
          let! jr := read_journal lock in
          do! match jr with
              | Ok j =>
                  if (cj_new_generation j =? pd_generation handle)
                     && (cj_new_nonce_hi j =? pd_instance_nonce_hi handle)
                     && (cj_new_nonce_lo j =? pd_instance_nonce_lo handle) then
                    let! _ := syscall (sys_unlink (pd_socket_path handle)) in
                    plain_store (PHnd (pd_id handle) hl_socket_unlinked) 1
                  else Ret tt
              | Err _ => Ret tt
              end;
          control_lock_release lock
      end
  end.

Definition service_producer_shutdown (handle : ProducerHandle) : cprog unit :=
  let! pending := shared_load_acquire (PHnd (pd_id handle) hl_shutdown_pending) in
  if pending =? 0 then Ret tt
  else
  let! idle := trigger (Cas (PHnd (pd_id handle) hl_operation_in_use) 0 1) in
  if negb idle then Ret tt
  else
  let! first := trigger (Cas (PHnd (pd_id handle) hl_shutdown_started) 0 1) in
  do! if (first : bool) then mark_producer_offline handle else Ret tt;
  shared_store_release (PHnd (pd_id handle) hl_operation_in_use) 0.

Definition release_producer_loan_operation (handle : ProducerHandle) : cprog unit :=
  do! shared_store_release (PHnd (pd_id handle) hl_operation_in_use) 0;
  service_producer_shutdown handle.

Definition producer_shutdown_impl (handle : ProducerHandle) : cprog unit :=
  do! shared_store_release (PHnd (pd_id handle) hl_shutdown_pending) 1;
  service_producer_shutdown handle.

(** * Publishing *)

Definition verify_handle_ownership (handle : ProducerHandle) (operation : string)
    : cprog (Result unit) :=
  let base := pd_base handle in
  let! boot_init := shared_load_acquire (base (Boot bf_init_state)) in
  let! init := shared_load_acquire (base (Head ch_init_state)) in
  if negb (boot_init =? is_kReady) || negb (init =? is_kReady) then
    fail kStaleHandle operation "instance not ready"
  else
  let! generation := plain_load (base (Head ch_generation)) in
  let! nonce_hi := plain_load (base (Head ch_instance_nonce_hi)) in
  let! nonce_lo := plain_load (base (Head ch_instance_nonce_lo)) in
  if negb (generation =? pd_generation handle) || negb (nonce_hi =? pd_instance_nonce_hi handle)
     || negb (nonce_lo =? pd_instance_nonce_lo handle) then
    fail kStaleHandle operation "instance replaced"
  else
  let! pid_res := identity_snapshot_read (fun f => base (Ident r_producer f)) in
  if match pid_res with
     | Err _ => true
     | Ok p => negb (ia_role_epoch p =? pd_role_epoch handle)
     end then fail kStaleHandle operation "producer role changed"
  else
  let! state := shared_load_acquire (base (Head ch_producer_state)) in
  if negb (state =? es_kOnline) then fail kProducerOffline operation "producer offline"
  else Ret (Ok tt).

(** The loop over the slots: the first one that is not the current one and could
    be claimed. *)
Fixpoint choose_slot (base : cloc -> chloc) (stride current_slot : Z) (slots : list Z)
    : cprog (option Z) :=
  match slots with
  | [] => Ret None
  | i :: slots' =>
      if i =? current_slot then choose_slot base stride current_slot slots'
      else
        match slot_byte_offset i stride with
        | None => choose_slot base stride current_slot slots'
        | Some _ =>
            let! observed := shared_load_relaxed (base (SlotState i)) in
            if negb (observed =? ss_kFree) && negb (observed =? ss_kPublished) then
              choose_slot base stride current_slot slots'
            else
              let! claimed := slot_claim_writable base i observed in
              if (claimed : bool) then Ret (Some i)
              else choose_slot base stride current_slot slots'
        end
  end.

(** What [publish] and [commit] do after the payload is in place: the ticket, the
    counters and the wake-up. *)
Definition announce_sample (base : cloc -> chloc) (sequence slot publish_boot_ns : Z)
    : cprog unit :=
  do! shared_store_release (base (Head ch_latest_ticket)) (make_ticket sequence slot);
  let! _ := shared_fetch_add_relaxed_u64 (base (Head ch_publish_count)) 1 in
  do! shared_store_relaxed (base (Head ch_last_publish_boot_ns)) publish_boot_ns;
  let! _ := shared_fetch_add_relaxed_u32 (base (Head ch_notify_epoch)) 1 in
  let! _ := futex_wake (base (Head ch_notify_epoch)) 1 in
  Ret tt.

Definition payload_locs (base : cloc -> chloc) (size slot : Z) : list chloc :=
  map base (slot_payload_locs size slot).

(** [encoded_size] is the length of [encoded]. *)
Definition publish_unlocked (handle : ProducerHandle) (encoded : list Z)
    : cprog (Result PublishInfo) :=
  let op := "Producer::publish" in
  let base := pd_base handle in
  let encoded_size := Z.of_nat (length encoded) in
  if negb (encoded_size =? pd_payload_size handle) then
    fail kPayloadEncodeFailed op "codec size drift"
  else
  let? _ := verify_handle_ownership handle op in
  let! current := shared_load_acquire (base (Head ch_latest_ticket)) in
  match checked_next_sequence current with
  | None => fail kSequenceExhausted op "sequence exhausted"
  | Some next_sequence =>
      let! publish_boot_ns := boottime_now_ns in
      if publish_boot_ns =? 0 then fail kClockAnomaly op "boottime unavailable"
      else
      let checksum := fnv1a64 encoded in
      match slot_stride (pd_payload_size handle) with
      | None => fail kInvalidOptions op "stride overflow"
      | Some stride =>
          let current_slot := if current =? 0 then kInvalidSlot else ticket_slot current in
          let! chosen := choose_slot base stride current_slot slot_indices in
          match chosen with
          | None => fail kNoWritableSlot op "all slots busy"
          | Some i =>
              do! shared_store_relaxed (base (SlotPayloadSize i)) encoded_size;
              do! shared_store_relaxed (base (SlotSequence i)) next_sequence;
              do! shared_store_relaxed (base (SlotPublishNs i)) publish_boot_ns;
              do! store_list (zip (payload_locs base encoded_size i) encoded);
              do! shared_store_relaxed (base (SlotChecksum i)) checksum;
              do! slot_publish base i;
              do! announce_sample base next_sequence i publish_boot_ns;
              Ret (Ok (mkPublishInfo (pd_generation handle) next_sequence publish_boot_ns))
          end
      end
  end.

Definition producer_publish_impl (handle : ProducerHandle) (encoded : list Z)
    : cprog (Result PublishInfo) :=
  with_use (PHnd (pd_id handle) hl_operation_in_use) "Producer::publish"
    (publish_unlocked handle encoded).

Definition producer_generation_impl (handle : option ProducerHandle) : Z :=
  match handle with Some h => pd_generation h | None => 0 end.

(** [Producer::status] and [Consumer::status]: the name must still lead to the
    object of the handle. *)
Definition status_of_object (operation channel_name : string) (transport : Transport)
    (shm : ShmObject) : cprog (Result ChannelStatus) :=
  let base := Obj (so_dev shm) (so_ino shm) in
  if bool_decide (transport = tr_kPosixShm) then
    let! shm_name := channel_shm_name channel_name in
    let! re := shm_open_existing shm_name in
    match re with
    | Err _ => fail kStaleHandle operation "channel name gone"
    | Ok fd =>
        let? (dev, ino, _) := shm_fstat_and_capture fd in
        if negb (dev =? so_dev shm) || negb (ino =? so_ino shm) then
          fail kStaleHandle operation "instance replaced under name"
        else read_channel_status base
    end
  else read_channel_status base.

Definition producer_status_impl (handle : ProducerHandle) : cprog (Result ChannelStatus) :=
  with_use (PHnd (pd_id handle) hl_operation_in_use) "Producer::status"
    (status_of_object "Producer::status" (pd_channel_name handle) (pd_transport handle)
       (pd_shm handle)).

Definition heartbeat_unlocked (handle : ProducerHandle) : cprog (Result unit) :=
  let op := "Producer::heartbeat" in
  if pd_heartbeat_interval_ns handle =? 0 then Ret (Ok tt)
  else
  let? _ := verify_handle_ownership handle op in
  let! now := boottime_now_ns in
  if now =? 0 then fail kClockAnomaly op "boottime unavailable"
  else
  do! shared_store_release (pd_base handle (Head ch_heartbeat_boot_ns)) now;
  Ret (Ok tt).

Definition producer_heartbeat_impl (handle : ProducerHandle) : cprog (Result unit) :=
  with_use (PHnd (pd_id handle) hl_operation_in_use) "Producer::heartbeat"
    (heartbeat_unlocked handle).

(** * Write loans *)

(** The part of [producer_loan_impl] between taking the flag and returning; the
    flag stays taken with a loan and is given back with an error. *)
Definition loan_unlocked (handle : ProducerHandle) : cprog (Result WriteLoan) :=
  let op := "Producer::loan" in
  let base := pd_base handle in
  let? _ := verify_handle_ownership handle op in
  let! current := shared_load_acquire (base (Head ch_latest_ticket)) in
  match checked_next_sequence current with
  | None => fail kSequenceExhausted op "sequence exhausted"
  | Some next_sequence =>
      match slot_stride (pd_payload_size handle) with
      | None => fail kInvalidOptions op "stride overflow"
      | Some stride =>
          let current_slot := if current =? 0 then kInvalidSlot else ticket_slot current in
          let! chosen := choose_slot base stride current_slot slot_indices in
          match chosen with
          | None => fail kNoWritableSlot op "all slots busy"
          | Some i =>
              Ret (Ok (mkWriteLoan (Some handle) (Some i) (Some i) (pd_payload_size handle) i
                         next_sequence true))
          end
      end
  end.

Definition producer_loan_impl (handle : ProducerHandle) : cprog (Result WriteLoan) :=
  let flag := PHnd (pd_id handle) hl_operation_in_use in
  let! in_use := exchange_true flag in
  if (in_use : bool) then
    fail kConcurrentHandleUse "Producer::loan" "concurrent handle use"
  else
  let! r := loan_unlocked handle in
  match r with
  | Ok loan => Ret (Ok loan)
  | Err e => do! shared_store_release flag 0; Ret (Err e)
  end.

(** [loan->active_ = false; loan->slot_ = nullptr; loan->data_ = nullptr;
    loan->handle_.reset();]. *)
Definition write_loan_reset (loan : WriteLoan) : WriteLoan :=
  mkWriteLoan None None None (wl_size loan) (wl_slot_index loan) (wl_sequence loan) false.

(** The loan after the call is returned with the result. *)
Definition producer_commit_loan_impl (loan : WriteLoan)
    : cprog (Result PublishInfo * WriteLoan) :=
  let op := "WriteLoan::commit" in
  match wl_handle loan, wl_slot loan, wl_active loan with
  | Some handle, Some slot, true =>
      let base := pd_base handle in
      let fail_ error :=
        do! slot_abort_write base slot;
        do! release_producer_loan_operation handle;
        Ret (Err error, write_loan_reset loan) in
      let! verified := verify_handle_ownership handle op in
      match verified with
      | Err e => fail_ e
      | Ok _ =>
          let! publish_boot_ns := boottime_now_ns in
          if publish_boot_ns =? 0 then
            fail_ (make_error kClockAnomaly op "boottime unavailable")
          else
          let! payload := load_list (payload_locs base (wl_size loan) slot) in
          let checksum := fnv1a64 payload in
          do! shared_store_relaxed (base (SlotPayloadSize slot)) (wl_size loan);
          do! shared_store_relaxed (base (SlotSequence slot)) (wl_sequence loan);
          do! shared_store_relaxed (base (SlotPublishNs slot)) publish_boot_ns;
          do! shared_store_relaxed (base (SlotChecksum slot)) checksum;
          do! slot_publish base slot;
          do! announce_sample base (wl_sequence loan) (wl_slot_index loan) publish_boot_ns;
          let info :=
            mkPublishInfo (pd_generation handle) (wl_sequence loan) publish_boot_ns in
          do! release_producer_loan_operation handle;
          Ret (Ok info, write_loan_reset loan)
      end
  | _, _, _ => Ret (Err (make_error kInvalidOptions op "loan inactive"), loan)
  end.

Definition producer_abort_loan_impl (loan : WriteLoan) : cprog WriteLoan :=
  match wl_handle loan, wl_active loan with
  | Some handle, true =>
      do! match wl_slot loan with
          | Some slot => slot_abort_write (pd_base handle) slot
          | None => Ret tt
          end;
      do! release_producer_loan_operation handle;
      Ret (write_loan_reset loan)
  | _, _ => Ret loan
  end.

(** [WriteLoan(WriteLoan&&)]: the new loan and what is left of the old one. *)
Definition write_loan_move (other : WriteLoan) : WriteLoan * WriteLoan :=
  (other, mkWriteLoan None None None 0 0 0 false).

(** [operator=(WriteLoan&&)] between two different objects: the loan held before
    is aborted. *)
Definition write_loan_assign (this other : WriteLoan) : cprog (WriteLoan * WriteLoan) :=
  let! _ := producer_abort_loan_impl this in
  Ret (write_loan_move other).

(** Encoding into the loaned slot: the caller writes [bytes] through [data()]. *)
Definition fill_loan (loan : WriteLoan) (bytes : list Z) : cprog unit :=
  match wl_handle loan, wl_data loan with
  | Some handle, Some slot =>
      store_list (zip (payload_locs (pd_base handle) (wl_size loan) slot) bytes)
  | _, _ => Ret tt
  end.

(** * Facts *)

Lemma status_of_object_readonly op name tr shm : readonly (status_of_object op name tr shm).
Proof.
  unfold status_of_object, channel_shm_name, shm_open_existing, shm_fstat_and_capture, bounded_fstat.
  solve_readonly.
Qed.
