(* ===== verification/Consumer.v ===== *)
(** The consumer of a channel on its open segment:
    [src/edge_runtime/channel/consumer_impl.{hpp,cpp}] without opening (which is in
    [ConsumerOpen]), and the read loans of [src/edge_runtime/channel/loan.cpp].

    A read claims the slot the latest ticket names, checks that the ticket still
    names the sample in it, and gives the slot back after copying or, with a read
    loan, when the loan is released. *)
From S2P Require Import Prelude Errors CheckedMath Checksum Prog ProcIdentity ShmObject Clock.
From S2P Require Import ChannelLayout ChannelSegment SlotProtocol ChannelAbi Producer.

Record ConsumerHandle : Type := mkConsumerHandle {
  cd_id : nat;
  cd_shm : ShmObject;
  cd_channel_name : string;
  cd_transport : Transport;
  cd_generation : Z;
  cd_role_epoch : Z;
  cd_instance_nonce_hi : Z;
  cd_instance_nonce_lo : Z;
  cd_schema : SchemaDescriptor;
  cd_payload_size : Z;
  cd_self : ProcessIdentity;
  cd_reconnect_timeout_ms : Z
}.

Definition cd_base (handle : ConsumerHandle) : cloc -> chloc :=
  Obj (so_dev (cd_shm handle)) (so_ino (cd_shm handle)).

Record ReadSnapshot : Type := mkReadSnapshot {
  rs_encoded_size : Z;
  rs_checksum_ok : bool;
  rs_sample_sequence : Z;
  rs_publish_boot_ns : Z;
  rs_receive_boot_ns : Z;
  rs_generation : Z;
  rs_instance_nonce : list Z;
  rs_missed_samples : Z
}.

Record ReadLoan : Type := mkReadLoan {
  rl_handle : option ConsumerHandle;
  rl_slot : option Z;
  rl_data : option Z;
  rl_size : Z;
  rl_generation : Z;
  rl_instance_nonce : list Z;
  rl_sequence : Z;
  rl_publish_boot_ns : Z;
  rl_receive_boot_ns : Z;
  rl_missed_samples : Z;
  rl_active : bool
}.

(** * Shutdown *)

Definition mark_consumer_offline (handle : ConsumerHandle) : cprog unit :=
  let base := cd_base handle in
  let! cid_res := identity_snapshot_read (fun f => base (Ident r_consumer f)) in
  match cid_res with
  | Err _ => Ret tt
  | Ok c =>
      if negb (ia_role_epoch c =? cd_role_epoch handle) then Ret tt
      else shared_store_release (base (Head ch_consumer_state)) es_kOffline
  end.

Definition service_consumer_shutdown (handle : ConsumerHandle) : cprog unit :=
  let! pending := shared_load_acquire (CHnd (cd_id handle) hl_shutdown_pending) in
  if pending =? 0 then Ret tt
  else
  let! idle := trigger (Cas (CHnd (cd_id handle) hl_operation_in_use) 0 1) in
  if negb idle then Ret tt
  else
  let! first := trigger (Cas (CHnd (cd_id handle) hl_shutdown_started) 0 1) in
  do! if (first : bool) then mark_consumer_offline handle else Ret tt;
  shared_store_release (CHnd (cd_id handle) hl_operation_in_use) 0.

Definition release_consumer_loan_operation (handle : ConsumerHandle) : cprog unit :=
  do! shared_store_release (CHnd (cd_id handle) hl_operation_in_use) 0;
  service_consumer_shutdown handle.

Definition consumer_shutdown_impl (handle : ConsumerHandle) : cprog unit :=
  do! shared_store_release (CHnd (cd_id handle) hl_shutdown_pending) 1;
  service_consumer_shutdown handle.

(** * Claiming the latest sample *)

Definition kMaxReadRetries : nat := 8.

Definition pack_nonce (handle : ConsumerHandle) : list Z :=
  le_bytes 8 (cd_instance_nonce_hi handle) ++ le_bytes 8 (cd_instance_nonce_lo handle).

Record ClaimedRead : Type := mkClaimedRead {
  cr_slot : Z;
  cr_payload : Z;
  cr_snapshot : ReadSnapshot
}.

(** The claimed slot holds the latest sample: check it and move the cursor. *)
Definition read_claimed_slot (handle : ConsumerHandle) (operation : string) (slot : Z)
    : cprog (Result ClaimedRead) :=
  let base := cd_base handle in
  let! slot_payload_size := plain_load (base (SlotPayloadSize slot)) in
  let! sample_sequence := plain_load (base (SlotSequence slot)) in
  let! publish_boot_ns := plain_load (base (SlotPublishNs slot)) in
  let! expected_checksum := plain_load (base (SlotChecksum slot)) in
  if negb (slot_payload_size =? cd_payload_size handle) then
    do! slot_release_read base slot;
    fail kPayloadCorrupt operation "payload size mismatch"
  else
  let! receive_boot_ns := boottime_now_ns in
  if receive_boot_ns =? 0 then
    do! slot_release_read base slot;
    fail kClockAnomaly operation "monotonic clock unavailable"
  else
  let! payload := load_list (payload_locs base slot_payload_size slot) in
  if negb (fnv1a64 payload =? expected_checksum) then
    do! slot_release_read base slot;
    fail kPayloadCorrupt operation "checksum mismatch"
  else
  let! first := plain_load (CHnd (cd_id handle) hl_first_sample_in_generation) in
  let! last_sequence := plain_load (CHnd (cd_id handle) hl_last_sequence) in
  let missed_samples :=
    if negb (first =? 0) then 0 else saturated_gap last_sequence sample_sequence in
  do! plain_store (CHnd (cd_id handle) hl_last_sequence) sample_sequence;
  do! plain_store (CHnd (cd_id handle) hl_first_sample_in_generation) 0;
  let! _ := shared_fetch_add_relaxed_u64 (base (Head ch_read_count)) 1 in
  Ret (Ok (mkClaimedRead slot slot
             (mkReadSnapshot slot_payload_size true sample_sequence publish_boot_ns
                receive_boot_ns (cd_generation handle) (pack_nonce handle) missed_samples))).

Fixpoint claim_latest_loop (handle : ConsumerHandle) (operation : string) (stride : Z)
    (attempts : nat) : cprog (Result ClaimedRead) :=
  let base := cd_base handle in
  match attempts with
  | O => fail kReadContention operation "retry bound exceeded"
  | S attempts' =>
      let! ticket := shared_load_acquire (base (Head ch_latest_ticket)) in
      let! last_sequence := plain_load (CHnd (cd_id handle) hl_last_sequence) in
      if (ticket =? 0) || (ticket_sequence ticket <=? last_sequence) then
        fail kNoNewSample operation "no new sample"
      else
      let slot_index := ticket_slot ticket in
      match slot_byte_offset slot_index stride with
      | None => fail kCorruptSlot operation "ticket slot out of range"
      | Some _ =>
          let! claimed := slot_claim_readable base slot_index in
          if negb claimed then claim_latest_loop handle operation stride attempts'
          else
          do! slot_mark_reading base slot_index (cd_role_epoch handle);
          let! sample_sequence := plain_load (base (SlotSequence slot_index)) in
          let claimed_ticket := make_ticket sample_sequence slot_index in
          let! latest := shared_load_acquire (base (Head ch_latest_ticket)) in
          if negb (latest =? claimed_ticket) then
            do! slot_release_read base slot_index;
            claim_latest_loop handle operation stride attempts'
          else read_claimed_slot handle operation slot_index
      end
  end.

Definition claim_latest_unlocked (handle : ConsumerHandle) (operation : string)
    : cprog (Result ClaimedRead) :=
  match slot_stride (cd_payload_size handle) with
  | None => fail kInvalidOptions operation "stride overflow"
  | Some stride => claim_latest_loop handle operation stride kMaxReadRetries
  end.

(** The bytes copied to [encoded_out] are returned with the snapshot. *)
Definition try_read_latest_unlocked (handle : ConsumerHandle) (encoded_cap : Z)
    : cprog (Result (ReadSnapshot * list Z)) :=
  let op := "Consumer::try_read_latest" in
  let base := cd_base handle in
  let? claimed := claim_latest_unlocked handle op in
  let snapshot := cr_snapshot claimed in
  if encoded_cap <? rs_encoded_size snapshot then
    do! slot_release_read base (cr_slot claimed);
    fail kPayloadCorrupt op "output capacity too small"
  else
  let! bytes := load_list (payload_locs base (rs_encoded_size snapshot) (cr_payload claimed)) in
  do! slot_release_read base (cr_slot claimed);
  Ret (Ok (snapshot, bytes)).

Definition consumer_try_read_latest_impl (handle : ConsumerHandle) (encoded_cap : Z)
    : cprog (Result (ReadSnapshot * list Z)) :=
  with_use (CHnd (cd_id handle) hl_operation_in_use) "Consumer::try_read_latest"
    (try_read_latest_unlocked handle encoded_cap).

(** * Waiting *)

(** [pstate] is online, stopping or faulty. *)
Definition actively_owned (state : Z) : bool :=
  (state =? es_kOnline) || (state =? es_kStopping) || (state =? es_kFault).

(** The condition under which a producer that is alive counts as stalled. *)
Definition producer_stalled (interval now last_publish last_beat : Z) : bool :=
  let stall_limit := saturating_mul_u64 interval kHeartbeatStallFactor in
  negb (interval =? 0) && negb (now =? 0)
  && ((last_publish =? 0) || elapsed_exceeds now last_publish interval)
  && ((last_beat =? 0) || elapsed_exceeds now last_beat stall_limit).

(** Always an error. *)
Definition classify_wait_timeout (base : cloc -> chloc) (operation : string) : cprog Error :=
  let! pstate := shared_load_acquire (base (Head ch_producer_state)) in
  if negb (actively_owned pstate) then
    Ret (make_error kProducerOffline operation "producer offline on wait timeout")
  else
  let! pid_res := identity_snapshot_read (fun f => base (Ident r_producer f)) in
  match pid_res with
  | Err _ => Ret (make_error kRecoveryBlocked operation "producer identity unreadable")
  | Ok pid_abi =>
      if ia_pid pid_abi =? 0 then
        Ret (make_error kRecoveryBlocked operation "producer identity unknown")
      else
      let! liveness := probe_liveness (ia_pid pid_abi) (ia_proc_start_ticks pid_abi) in
      match liveness with
      | kAlive =>
          let! interval := shared_load_acquire (base (Head ch_producer_heartbeat_interval_ns)) in
          let! now := boottime_now_ns in
          let! last_publish := shared_load_acquire (base (Head ch_last_publish_boot_ns)) in
          let! last_beat := shared_load_acquire (base (Head ch_heartbeat_boot_ns)) in
          Ret (if producer_stalled interval now last_publish last_beat then
                 make_error kProducerStalled operation "producer alive, heartbeat stale"
               else make_error kDataStale operation "producer alive but no new sample")
      | kExited => Ret (make_error kProducerOffline operation "producer exited")
      | kPidReused | kUnverifiable =>
          Ret (make_error kRecoveryBlocked operation "producer identity unverifiable")
      end
  end.

(** What a round of a waiting loop does after a read that found nothing: go round
    again, or end with an error. *)
Definition wait_round (handle : ConsumerHandle) (operation : string) (deadline : Z)
    : cprog (option Error) :=
  let base := cd_base handle in
  let! expected := shared_load_acquire (base (Head ch_notify_epoch)) in
  let! ticket := shared_load_acquire (base (Head ch_latest_ticket)) in
  let! last_sequence := plain_load (CHnd (cd_id handle) hl_last_sequence) in
  if negb (ticket =? 0) && (last_sequence <? ticket_sequence ticket) then Ret None
  else
  let! remaining := remaining_time_ns deadline in
  if remaining =? 0 then
    let! e := classify_wait_timeout base operation in Ret (Some e)
  else
  let! rc := futex_wait (base (Head ch_notify_epoch)) expected (remaining / 1000000000)
               (remaining mod 1000000000) in
  match rc with
  | SysOk _ => Ret None
  | SysErr e =>
      if (e =? EAGAIN) || (e =? EINTR) then Ret None
      else if e =? ETIMEDOUT then
        let! e := classify_wait_timeout base operation in Ret (Some e)
      else Ret (Some (make_errno_error_as kSystemError e operation "futex_wait failed"))
  end.

(** [ec != kNoNewSample && ec != kReadContention]. *)
Definition wait_final (code : ErrorCode) : bool :=
  negb (bool_decide (code = kNoNewSample)) && negb (bool_decide (code = kReadContention)).

(** The loop of [consumer_wait_latest_impl] and of [consumer_wait_loan_latest_impl],
    at most [fuel] rounds; [None] when they are used up. *)
Fixpoint wait_loop {A} (fuel : nat) (handle : ConsumerHandle) (operation : string)
    (deadline : Z) (attempt : cprog (Result A)) : cprog (option (Result A)) :=
  match fuel with
  | O => Ret None
  | S fuel' =>
      let! read := attempt in
      match read with
      | Ok a => Ret (Some (Ok a))
      | Err e =>
          if wait_final (err_code e) then Ret (Some (Err e))
          else
          let! stop := wait_round handle operation deadline in
          match stop with
          | Some e => Ret (Some (Err e))
          | None => wait_loop fuel' handle operation deadline attempt
          end
      end
  end.

Definition consumer_wait_latest_impl (fuel : nat) (handle : ConsumerHandle)
    (encoded_cap timeout_ns : Z) : cprog (option (Result (ReadSnapshot * list Z))) :=
  let op := "Consumer::wait_latest" in
  let flag := CHnd (cd_id handle) hl_operation_in_use in
  let! in_use := exchange_true flag in
  if (in_use : bool) then
    Ret (Some (Err (make_error kConcurrentHandleUse op "concurrent handle use")))
  else
  let! deadline := monotonic_deadline_ns timeout_ns in
  if deadline =? 0 then
    do! shared_store_release flag 0;
    Ret (Some (Err (make_error kClockAnomaly op "monotonic clock unavailable")))
  else
  let! r := wait_loop fuel handle op deadline (try_read_latest_unlocked handle encoded_cap) in
  match r with
  | None => Ret None
  | Some r => do! shared_store_release flag 0; Ret (Some r)
  end.

(** * Read loans *)

Definition read_loan_of (handle : ConsumerHandle) (claimed : ClaimedRead) : ReadLoan :=
  let snap := cr_snapshot claimed in
  mkReadLoan (Some handle) (Some (cr_slot claimed)) (Some (cr_payload claimed))
    (rs_encoded_size snap) (rs_generation snap) (rs_instance_nonce snap)
    (rs_sample_sequence snap) (rs_publish_boot_ns snap) (rs_receive_boot_ns snap)
    (rs_missed_samples snap) true.

Definition consumer_try_loan_latest_impl (handle : ConsumerHandle) : cprog (Result ReadLoan) :=
  let op := "Consumer::try_loan_latest" in
  let! in_use := exchange_true (CHnd (cd_id handle) hl_operation_in_use) in
  if (in_use : bool) then fail kConcurrentHandleUse op "concurrent handle use"
  else
  let! claimed := claim_latest_unlocked handle op in
  match claimed with
  | Err e => do! release_consumer_loan_operation handle; Ret (Err e)
  | Ok claimed => Ret (Ok (read_loan_of handle claimed))
  end.

Definition consumer_wait_loan_latest_impl (fuel : nat) (handle : ConsumerHandle)
    (timeout_ns : Z) : cprog (option (Result ReadLoan)) :=
  let op := "Consumer::wait_loan_latest" in
  let! in_use := exchange_true (CHnd (cd_id handle) hl_operation_in_use) in
  if (in_use : bool) then
    Ret (Some (Err (make_error kConcurrentHandleUse op "concurrent handle use")))
  else
  let! deadline := monotonic_deadline_ns timeout_ns in
  if deadline =? 0 then
    do! release_consumer_loan_operation handle;
    Ret (Some (Err (make_error kClockAnomaly op "monotonic clock unavailable")))
  else
  let! r := wait_loop fuel handle op deadline (claim_latest_unlocked handle op) in
  match r with
  | None => Ret None
  | Some (Ok claimed) => Ret (Some (Ok (read_loan_of handle claimed)))
  | Some (Err e) => do! release_consumer_loan_operation handle; Ret (Some (Err e))
  end.

Definition read_loan_reset (loan : ReadLoan) : ReadLoan :=
  mkReadLoan None None None (rl_size loan) (rl_generation loan) (rl_instance_nonce loan)
    (rl_sequence loan) (rl_publish_boot_ns loan) (rl_receive_boot_ns loan)
    (rl_missed_samples loan) false.

Definition consumer_release_loan_impl (loan : ReadLoan) : cprog ReadLoan :=
  match rl_handle loan, rl_active loan with
  | Some handle, true =>
      do! match rl_slot loan with
          | Some slot => slot_release_read (cd_base handle) slot
          | None => Ret tt
          end;
      do! release_consumer_loan_operation handle;
      Ret (read_loan_reset loan)
  | _, _ => Ret loan
  end.

(** [ReadLoan(ReadLoan&&)] and [operator=(ReadLoan&&)]. *)
Definition read_loan_move (other : ReadLoan) : ReadLoan * ReadLoan :=
  (other, mkReadLoan None None None 0 0 (replicate 16 0) 0 0 0 0 false).
Definition read_loan_assign (this other : ReadLoan) : cprog (ReadLoan * ReadLoan) :=
  let! _ := consumer_release_loan_impl this in
  Ret (read_loan_move other).

(** Reading through [data()]. *)
Definition look_at_loan (loan : ReadLoan) : cprog (list Z) :=
  match rl_handle loan, rl_data loan with
  | Some handle, Some slot => load_list (payload_locs (cd_base handle) (rl_size loan) slot)
  | _, _ => Ret []
  end.

Definition consumer_status_impl (handle : ConsumerHandle) : cprog (Result ChannelStatus) :=
  with_use (CHnd (cd_id handle) hl_operation_in_use) "Consumer::status"
    (status_of_object "Consumer::status" (cd_channel_name handle) (cd_transport handle)
       (cd_shm handle)).

(** * Taking over from a dead consumer *)

Fixpoint reclaim_slots (base : cloc -> chloc) (old_role_epoch stride : Z) (slots : list Z)
    : cprog (Result unit) :=
  let op := "Consumer::open" in
  match slots with
  | [] => Ret (Ok tt)
  | i :: slots' =>
      match slot_byte_offset i stride with
      | None => fail kCorruptSlot op "slot offset overflow"
      | Some _ =>
          let! st := shared_load_relaxed (base (SlotState i)) in
          if st =? ss_kReadingClaiming then
            let! epoch := shared_load_relaxed (base (SlotReader i)) in
            if negb (epoch =? 0) && negb (epoch =? old_role_epoch) then
              fail kRecoveryBlocked op "claiming slot epoch unknown"
            else
              do! slot_release_read base i;
              reclaim_slots base old_role_epoch stride slots'
          else if st =? ss_kReading then
            let! epoch := shared_load_relaxed (base (SlotReader i)) in
            if negb (epoch =? old_role_epoch) then
              fail kRecoveryBlocked op "reading slot epoch unknown"
            else
              do! slot_release_read base i;
              reclaim_slots base old_role_epoch stride slots'
          else reclaim_slots base old_role_epoch stride slots'
      end
  end.

Definition reclaim_dead_consumer_slots (base : cloc -> chloc) (old_role_epoch payload_size : Z)
    : cprog (Result unit) :=
  match slot_stride payload_size with
  | None => fail kInvalidOptions "Consumer::open" "stride overflow"
  | Some stride => reclaim_slots base old_role_epoch stride slot_indices
  end.
