(* ===== verification/FdBroker.v ===== *)
(** The descriptor broker: [src/edge_runtime/transport/fd_broker.{hpp,cpp}].

    A producer whose segment has no name in the file system hands out its
    descriptor over a Unix socket: fixed-size checksummed frames, one exchange per
    connection, every wait bounded by a deadline.

    The loops of the file end when their deadline has passed or the broker is
    stopped. The model gives each of them [fuel] rounds; a loop that uses them up
    ends as it does at the deadline, so a run of the code whose loops stay below
    [fuel] rounds is a run of the model. *)
From stdpp Require Import pretty.
From S2P Require Import Prelude ByteFields Errors CheckedMath Checksum Prog ProcIdentity ShmObject Clock.
From S2P Require Import ChannelLayout ChannelSegment ControlLock.

Definition kFdBrokerRequestMagic : string := "EDGRQ1".
Definition kFdBrokerReplyMagic : string := "EDGRP1".
Definition kFdBrokerVersion : Z := 1.
Definition kFdBrokerRequestSize : Z := 64.
Definition kFdBrokerReplySize : Z := 64.
Definition kFdBrokerFlagReadonly : Z := 1.
Definition kFdBrokerSingleAttemptTimeoutMs : Z := 20.
Definition kFdBrokerPeerIoTimeoutMs : Z := 100.
Definition kListenBacklog : Z := 4.
Definition kConnectRetryIntervalNs : Z := 10000000.
Definition kServePollIntervalNs : Z := 10000000.

Definition fb_kOk : Z := 0.
Definition fb_kNotReady : Z := 1.
Definition fb_kChannelMismatch : Z := 2.
Definition fb_kRefused : Z := 3.
Definition fb_kSystem : Z := 4.

Definition EADDRINUSE : Z := 98.
Definition ECONNREFUSED : Z := 111.
Definition EALREADY : Z := 114.
Definition EINPROGRESS : Z := 115.
Definition POLLOUT : Z := 4.
Definition POLLERR : Z := 8.
Definition POLLHUP : Z := 16.
Definition SOL_SOCKET : Z := 1.
Definition SCM_RIGHTS : Z := 1.
Definition MSG_CTRUNC : Z := 8.
Definition MSG_TRUNC : Z := 32.
Definition F_GETFD : Z := 1.
Definition F_SETFD : Z := 2.
Definition FD_CLOEXEC : Z := 1.
Definition F_DUPFD_CLOEXEC : Z := 1030.
(** [sizeof(sockaddr_un::sun_path)] and [CMSG_LEN(0)]. *)
Definition kSunPathSize : Z := 108.
Definition kCmsgHeader : Z := 16.

(** * Frames *)

Record FdBrokerRequestAbi : Type := mkRequest {
  rq_magic : list Z;
  rq_version : Z;
  rq_flags : Z;
  rq_channel_hash : Z;
  rq_reserved0 : Z;
  rq_schema_fingerprint : list Z;
  rq_checksum : Z
}.

Record FdBrokerReplyAbi : Type := mkReply {
  rp_magic : list Z;
  rp_status : Z;
  rp_reserved0 : Z;
  rp_mapping_size : Z;
  rp_generation : Z;
  rp_nonce_hi : Z;
  rp_nonce_lo : Z;
  rp_abi_major : Z;
  rp_abi_minor : Z;
  rp_reserved1 : Z;
  rp_checksum : Z
}.

Definition request_bytes (r : FdBrokerRequestAbi) : list Z :=
  rq_magic r ++ le_bytes 4 (rq_version r) ++ le_bytes 4 (rq_flags r) ++
  le_bytes 4 (rq_channel_hash r) ++ le_bytes 4 (rq_reserved0 r) ++
  rq_schema_fingerprint r ++ le_bytes 8 (rq_checksum r).

Definition request_of_bytes (bs : list Z) : FdBrokerRequestAbi :=
  mkRequest (bytes_at bs 0 8) (field_at bs 8 4) (field_at bs 12 4) (field_at bs 16 4)
    (field_at bs 20 4) (bytes_at bs 24 32) (field_at bs 56 8).

Definition reply_bytes (r : FdBrokerReplyAbi) : list Z :=
  rp_magic r ++ le_bytes 4 (rp_status r) ++ le_bytes 4 (rp_reserved0 r) ++
  le_bytes 8 (rp_mapping_size r) ++ le_bytes 8 (rp_generation r) ++
  le_bytes 8 (rp_nonce_hi r) ++ le_bytes 8 (rp_nonce_lo r) ++ le_bytes 2 (rp_abi_major r) ++
  le_bytes 2 (rp_abi_minor r) ++ le_bytes 4 (rp_reserved1 r) ++ le_bytes 8 (rp_checksum r).

Definition reply_of_bytes (bs : list Z) : FdBrokerReplyAbi :=
  mkReply (bytes_at bs 0 8) (field_at bs 8 4) (field_at bs 12 4) (field_at bs 16 8)
    (field_at bs 24 8) (field_at bs 32 8) (field_at bs 40 8) (field_at bs 48 2)
    (field_at bs 50 2) (field_at bs 52 4) (field_at bs 56 8).

Definition request_with_checksum (r : FdBrokerRequestAbi) (c : Z) : FdBrokerRequestAbi :=
  mkRequest (rq_magic r) (rq_version r) (rq_flags r) (rq_channel_hash r) (rq_reserved0 r)
    (rq_schema_fingerprint r) c.
Definition reply_with_checksum (r : FdBrokerReplyAbi) (c : Z) : FdBrokerReplyAbi :=
  mkReply (rp_magic r) (rp_status r) (rp_reserved0 r) (rp_mapping_size r) (rp_generation r)
    (rp_nonce_hi r) (rp_nonce_lo r) (rp_abi_major r) (rp_abi_minor r) (rp_reserved1 r) c.

Definition reply_checksum_of (r : FdBrokerReplyAbi) : Z :=
  fnv1a64 (reply_bytes (reply_with_checksum r 0)).
Definition request_checksum_of (r : FdBrokerRequestAbi) : Z :=
  fnv1a64 (request_bytes (request_with_checksum r 0)).

Definition request_fingerprint_set (r : FdBrokerRequestAbi) : bool :=
  existsb (fun b => negb (b =? 0)) (rq_schema_fingerprint r).

(** The last eight bytes of the record are the checksum. *)
Definition fd_broker_checksum (record : option (list Z)) : Z :=
  match record with
  | None => 0
  | Some record =>
      let size := Z.of_nat (length record) in
      if (size <? 8) || (kFdBrokerReplySize <? size) then 0
      else fnv1a64 (take (length record - 8) record ++ replicate 8 0)
  end.

(** [FdBrokerReplyAbi{}] with the magic and a status. *)
Definition new_reply (status : Z) : FdBrokerReplyAbi :=
  mkReply (string_codes kFdBrokerReplyMagic ++ [0; 0]) status 0 0 0 0 0 0 0 0 0.
Definition sealed_reply (r : FdBrokerReplyAbi) : FdBrokerReplyAbi :=
  reply_with_checksum r (reply_checksum_of r).

Definition make_request (readonly : bool) (channel_hash : Z) (schema : SchemaDescriptor)
    : FdBrokerRequestAbi :=
  let request :=
    mkRequest (string_codes kFdBrokerRequestMagic ++ [0; 0]) kFdBrokerVersion
      (if readonly then kFdBrokerFlagReadonly else 0) channel_hash 0 (sd_fingerprint schema) 0 in
  request_with_checksum request (request_checksum_of request).

(** * Bounded socket operations *)

Record IoBudget : Type := mkIoBudget { bg_deadline_ns : Z; bg_stop : option chloc }.

Definition budget_available (budget : IoBudget) : cprog bool :=
  let! stopped := match bg_stop budget with
                  | None => Ret 0
                  | Some stop => shared_load_relaxed stop
                  end in
  if negb (stopped =? 0) then Ret false
  else
  let! remaining := remaining_time_ns (bg_deadline_ns budget) in
  Ret (negb (remaining =? 0)).

Fixpoint wait_socket (fuel : nat) (fd events : Z) (budget : IoBudget) : cprog bool :=
  match fuel with
  | O => Ret false
  | S fuel' =>
      let! available := budget_available budget in
      if negb available then Ret false
      else
      let! remaining := remaining_time_ns (bg_deadline_ns budget) in
      let remaining := match bg_stop budget with
                       | Some _ => Z.min remaining kServePollIntervalNs
                       | None => remaining
                       end in
      let remaining := Z.min remaining 1000000000 in
      let! ready := syscall (sys_poll fd events ((remaining + 999999) / 1000000)) in
      match ready with
      | SysErr e => if e =? EINTR then wait_socket fuel' fd events budget else Ret false
      | SysOk (ready, revents) =>
          if ready =? 0 then wait_socket fuel' fd events budget
          else
          let! available := budget_available budget in
          Ret (available
               && negb (Z.land revents (Z.lor events (Z.lor POLLHUP POLLERR)) =? 0))
      end
  end.

Fixpoint retry_pause_loop (fuel : nat) (until : Z) (budget : IoBudget) : cprog bool :=
  match fuel with
  | O => Ret false
  | S fuel' =>
      let! available := budget_available budget in
      if negb available then Ret false
      else
      let! result := syscall (sys_clock_nanosleep CLOCK_MONOTONIC (until / 1000000000)
                                (until mod 1000000000)) in
      match result with
      | SysOk _ => budget_available budget
      | SysErr e => if negb (e =? EINTR) then Ret false else retry_pause_loop fuel' until budget
      end
  end.

Definition retry_pause (fuel : nat) (budget : IoBudget) : cprog bool :=
  let! remaining := remaining_time_ns (bg_deadline_ns budget) in
  if remaining =? 0 then Ret false
  else
  let pause_end :=
    u64 (bg_deadline_ns budget - remaining + Z.min remaining kConnectRetryIntervalNs) in
  retry_pause_loop fuel pause_end budget.

(** [Some bytes] when all [size] arrived. *)
Fixpoint recv_full (fuel : nat) (fd size : Z) (got : list Z) (budget : IoBudget)
    : cprog (option (list Z)) :=
  if size <=? Z.of_nat (length got) then
    let! available := budget_available budget in
    Ret (if (available : bool) then Some got else None)
  else
    match fuel with
    | O => Ret None
    | S fuel' =>
        let! readable := wait_socket fuel' fd POLLIN budget in
        if negb readable then Ret None
        else
        let! n := syscall (sys_recv fd (size - Z.of_nat (length got))) in
        match n with
        | SysErr e =>
            if (e =? EINTR) || (e =? EAGAIN) then recv_full fuel' fd size got budget else Ret None
        | SysOk [] => Ret None
        | SysOk bytes => recv_full fuel' fd size (got ++ bytes) budget
        end
    end.

Fixpoint send_full (fuel : nat) (fd : Z) (buf : list Z) (budget : IoBudget) : cprog bool :=
  match buf, fuel with
  | [], _ => budget_available budget
  | _, O => Ret false
  | _, S fuel' =>
      let! available := budget_available budget in
      if negb available then Ret false
      else
      let! n := syscall (sys_send fd buf) in
      match n with
      | SysErr e =>
          if e =? EINTR then send_full fuel' fd buf budget
          else if e =? EAGAIN then
            let! writable := wait_socket fuel' fd POLLOUT budget in
            if negb writable then Ret false else send_full fuel' fd buf budget
          else Ret false
      | SysOk n => if n =? 0 then Ret false else send_full fuel' fd (drop (Z.to_nat n) buf) budget
      end
  end.

Definition peer_is_same_uid (fd : Z) : cprog bool :=
  let! uid := syscall (sys_peer_uid fd) in
  match uid with
  | SysErr _ => Ret false
  | SysOk uid => let! euid := syscall sys_geteuid in Ret (uid =? euid)
  end.

Definition socket_path_fits (path : string) : bool :=
  Z.of_nat (String.length path) <? kSunPathSize.

Definition socket_has_live_peer (path : string) : cprog bool :=
  let! fd := syscall sys_socket in
  match fd with
  | SysErr _ => Ret true
  | SysOk fd =>
      if negb (socket_path_fits path) then Ret false
      else
      let! rc := syscall (sys_connect fd path) in
      Ret match rc with
          | SysOk _ => true
          | SysErr e => negb (e =? ECONNREFUSED) && negb (e =? ENOENT)
          end
  end.

(** The [errno] of a failure. *)
Definition unlink_socket (path : string) : cprog (option Z) :=
  let! rc := syscall (sys_unlink path) in
  Ret match rc with
      | SysOk _ => None
      | SysErr e => if e =? ENOENT then None else Some e
      end.

Fixpoint send_reply_with_fd (fuel : nat) (conn_fd : Z) (reply : FdBrokerReplyAbi)
    (payload_fd : Z) (budget : IoBudget) : cprog bool :=
  match fuel with
  | O => Ret false
  | S fuel' =>
      let! available := budget_available budget in
      if negb available then Ret false
      else
      let! sent := syscall (sys_sendmsg conn_fd (reply_bytes reply) payload_fd) in
      match sent with
      | SysOk sent =>
          if negb (sent =? kFdBrokerReplySize) then Ret false else budget_available budget
      | SysErr e =>
          if e =? EINTR then send_reply_with_fd fuel' conn_fd reply payload_fd budget
          else if negb (e =? EAGAIN) then Ret false
          else
          let! writable := wait_socket fuel' conn_fd POLLOUT budget in
          if negb writable then Ret false
          else send_reply_with_fd fuel' conn_fd reply payload_fd budget
      end
  end.

(** * Receiving a descriptor *)

(** The descriptors of one message: the first is kept, the others are closed. *)
Fixpoint take_fds (received : Z) (fds : list Z) : cprog Z :=
  match fds with
  | [] => Ret received
  | passed_fd :: fds' =>
      if received <? 0 then take_fds passed_fd fds'
      else do! syscall (sys_close passed_fd); take_fds received fds'
  end.

(** The loop over the ancillary messages: the descriptor kept, how many there were,
    whether the control data was well formed. *)
Fixpoint take_control (received fd_count : Z) (valid_control : bool) (control : list cmsg)
    : cprog (Z * Z * bool) :=
  match control with
  | [] => Ret (received, fd_count, valid_control)
  | ancillary :: control' =>
      if negb (cmsg_level ancillary =? SOL_SOCKET) || negb (cmsg_type ancillary =? SCM_RIGHTS)
      then take_control received fd_count false control'
      else if cmsg_len ancillary <? kCmsgHeader then
        take_control received fd_count false control'
      else
      let payload_size := u64 (Z.min (cmsg_len ancillary) (cmsg_available ancillary)
                               - kCmsgHeader) in
      let malformed := (cmsg_available ancillary <? cmsg_len ancillary)
                       || negb (payload_size mod 4 =? 0) in
      let passed := take (Z.to_nat (payload_size / 4)) (cmsg_ints ancillary) in
      let! received := take_fds received passed in
      take_control received (fd_count + Z.of_nat (length passed))
        (valid_control && negb malformed) control'
  end.

(** The reply and the descriptor that came with it (negative when there was none). *)
Fixpoint receive_reply (fuel : nat) (fd : Z) (budget : IoBudget)
    : cprog (option (FdBrokerReplyAbi * Z)) :=
  match fuel with
  | O => Ret None
  | S fuel' =>
      let! readable := wait_socket fuel' fd POLLIN budget in
      if negb readable then Ret None
      else
      let! message := syscall (sys_recvmsg fd kFdBrokerReplySize) in
      match message with
      | SysErr e =>
          if (e =? EINTR) || (e =? EAGAIN) then receive_reply fuel' fd budget else Ret None
      | SysOk message =>
          let! (received_fd, fd_count, valid_control) :=
            take_control (-1) 0 true (rm_control message) in
          if negb (Z.of_nat (length (rm_bytes message)) =? kFdBrokerReplySize)
             || negb valid_control || (1 <? fd_count)
             || negb (Z.land (rm_flags message) (Z.lor MSG_TRUNC MSG_CTRUNC) =? 0)
          then Ret None
          else
          let! available := budget_available budget in
          Ret (if (available : bool)
               then Some (reply_of_bytes (rm_bytes message), received_fd) else None)
      end
  end.

(** ["/proc/self/fd/%d"]. *)
Definition proc_fd_path (fd : Z) : string := ("/proc/self/fd/" +:+ pretty fd)%string.

(** A read-only request gets a new open file description of the same object. *)
Definition hand_out_fd (shm_fd : Z) (readonly : bool) : cprog (sysres Z) :=
  if negb readonly then syscall (sys_fcntl shm_fd F_DUPFD_CLOEXEC 0)
  else syscall (sys_open (proc_fd_path shm_fd)).

(** * The broker's side *)

Definition memfd_create_object (channel_name : string) : cprog (Result Z) :=
  let op := "memfd_create_object" in
  let! fd := syscall (sys_memfd_create ("edgeruntime." +:+ channel_name)) in
  match fd with
  | SysErr e => Ret (Err (make_errno_error e op strerror_text))
  | SysOk fd =>
      let! rc := syscall (sys_fchmod fd kExpectedShmMode) in
      Ret match rc with
          | SysErr e => Err (make_errno_error e op strerror_text)
          | SysOk _ => Ok fd
          end
  end.

(** [chmod] and [listen] on a bound socket, which is unlinked when one fails. *)
Definition open_bound_socket (fd : Z) (socket_path : string) : cprog (Result Z) :=
  let op := "fd_broker_bind" in
  let! mode := syscall (sys_chmod socket_path kExpectedShmMode) in
  match mode with
  | SysErr e =>
      let! _ := syscall (sys_unlink socket_path) in
      Ret (Err (make_errno_error e op strerror_text))
  | SysOk _ =>
      let! listening := syscall (sys_listen fd kListenBacklog) in
      match listening with
      | SysErr e =>
          let! _ := syscall (sys_unlink socket_path) in
          Ret (Err (make_errno_error e op strerror_text))
      | SysOk _ => Ret (Ok fd)
      end
  end.

Definition fd_broker_bind (socket_path : string) : cprog (Result Z) :=
  let op := "fd_broker_bind" in
  let! fd := syscall sys_socket in
  match fd with
  | SysErr e => Ret (Err (make_errno_error e op strerror_text))
  | SysOk fd =>
      if negb (socket_path_fits socket_path) then fail kInvalidName op "socket path too long"
      else
      let! rc := syscall (sys_bind fd socket_path) in
      match rc with
      | SysOk _ => open_bound_socket fd socket_path
      | SysErr e =>
          if negb (e =? EADDRINUSE) then Ret (Err (make_errno_error e op strerror_text))
          else
          let! live := socket_has_live_peer socket_path in
          if (live : bool) then fail kAlreadyOwned op "live broker socket under path"
          else
          let! unlinked := unlink_socket socket_path in
          match unlinked with
          | Some e => Ret (Err (make_errno_error e op strerror_text))
          | None =>
              let! rc := syscall (sys_bind fd socket_path) in
              match rc with
              | SysErr e => Ret (Err (make_errno_error e op strerror_text))
              | SysOk _ => open_bound_socket fd socket_path
              end
          end
      end
  end.

(** The status of the answer to a well-formed request. *)
Definition request_status (base : cloc -> chloc) (req : FdBrokerRequestAbi) (channel_hash : Z)
    (schema_fingerprint : list Z) : cprog Z :=
  if negb (rq_channel_hash req =? channel_hash) then Ret fb_kChannelMismatch
  else if request_fingerprint_set req
          && negb (bool_decide (rq_schema_fingerprint req = schema_fingerprint))
  then Ret fb_kChannelMismatch
  else
  let! boot_init := shared_load_acquire (base (Boot bf_init_state)) in
  if negb (boot_init =? is_kReady) then Ret fb_kNotReady
  else
  let! init := shared_load_acquire (base (Head ch_init_state)) in
  Ret (if negb (init =? is_kReady) then fb_kNotReady else fb_kOk).

(** The answer with the descriptor, or with [kSystem] when it cannot be duplicated. *)
Definition send_descriptor (fuel : nat) (conn shm_fd : Z) (base : cloc -> chloc)
    (req : FdBrokerRequestAbi) (budget : IoBudget) : cprog unit :=
  let! mapping := plain_load (base (Boot bf_expected_mapping_size)) in
  let! generation := plain_load (base (Head ch_generation)) in
  let! nonce_hi := plain_load (base (Head ch_instance_nonce_hi)) in
  let! nonce_lo := plain_load (base (Head ch_instance_nonce_lo)) in
  let! abi_major := plain_load (base (Head ch_abi_major)) in
  let! abi_minor := plain_load (base (Head ch_abi_minor)) in
  let reply status :=
    mkReply (rp_magic (new_reply status)) status 0 mapping generation nonce_hi nonce_lo abi_major
      abi_minor 0 0 in
  let readonly := negb (Z.land (rq_flags req) kFdBrokerFlagReadonly =? 0) in
  let! out_fd := hand_out_fd shm_fd readonly in
  match out_fd with
  | SysErr _ =>
      let! _ := send_full fuel conn (reply_bytes (sealed_reply (reply fb_kSystem))) budget in
      Ret tt
  | SysOk out_fd =>
      let! _ := send_reply_with_fd fuel conn (sealed_reply (reply fb_kOk)) out_fd budget in
      Ret tt
  end.

(** One accepted connection. *)
Definition serve_connection (fuel : nat) (conn shm_fd : Z) (base : cloc -> chloc)
    (channel_hash : Z) (schema_fingerprint : list Z) (stop : chloc) : cprog unit :=
  let! deadline := monotonic_deadline_ns (kFdBrokerPeerIoTimeoutMs * 1000000) in
  let budget := mkIoBudget deadline (Some stop) in
  if deadline =? 0 then Ret tt
  else
  let! same_uid := peer_is_same_uid conn in
  if negb same_uid then
    let! _ := send_full fuel conn (reply_bytes (sealed_reply (new_reply fb_kRefused))) budget in
    Ret tt
  else
  let! bytes := recv_full fuel conn kFdBrokerRequestSize [] budget in
  match bytes with
  | None => Ret tt
  | Some bytes =>
      let req := request_of_bytes bytes in
      if negb (bool_decide (take 6 (rq_magic req) = string_codes kFdBrokerRequestMagic)) then
        Ret tt
      else if negb (rq_version req =? kFdBrokerVersion)
              || negb (request_checksum_of req =? rq_checksum req) then Ret tt
      else
      let! status := request_status base req channel_hash schema_fingerprint in
      if status =? fb_kOk then send_descriptor fuel conn shm_fd base req budget
      else
      let! _ := send_full fuel conn (reply_bytes (sealed_reply (new_reply status))) budget in
      Ret tt
  end.

(** The server thread, at most [rounds] times round its loop. *)
Fixpoint fd_broker_serve_loop (rounds fuel : nat) (listen_fd shm_fd : Z) (base : cloc -> chloc)
    (channel_hash : Z) (schema_fingerprint : list Z) (stop : chloc) : cprog unit :=
  match rounds with
  | O => Ret tt
  | S rounds' =>
      let again := fd_broker_serve_loop rounds' fuel listen_fd shm_fd base channel_hash
                     schema_fingerprint stop in
      let! stopped := shared_load_relaxed stop in
      if negb (stopped =? 0) then Ret tt
      else
      let! prc := syscall (sys_poll listen_fd POLLIN (kServePollIntervalNs / 1000000)) in
      match prc with
      | SysErr e => if e =? EINTR then again else Ret tt
      | SysOk (ready, revents) =>
          if ready =? 0 then again
          else
          let! stopped := shared_load_relaxed stop in
          if negb (stopped =? 0) || (Z.land revents POLLIN =? 0) then Ret tt
          else
          let! conn := syscall (sys_accept listen_fd) in
          match conn with
          | SysErr e => if (e =? EINTR) || (e =? EAGAIN) then again else Ret tt
          | SysOk conn =>
              do! serve_connection fuel conn shm_fd base channel_hash schema_fingerprint stop;
              again
          end
      end
  end.

(** * The client's side *)

(** What an exchange over one connection leads to. *)
Inductive exchange : Type :=
| ex_return (r : Result (Z * FdBrokerReplyAbi))
| ex_break
| ex_retry.

(** [connect_error]: zero once the socket is connected. *)
Definition connect_socket (fuel : nat) (fd : Z) (socket_path : string) (budget : IoBudget)
    : cprog Z :=
  let! rc := syscall (sys_connect fd socket_path) in
  match rc with
  | SysOk _ => Ret 0
  | SysErr e =>
      if (e =? EINPROGRESS) || (e =? EALREADY) || (e =? EINTR) then
        let! writable := wait_socket fuel fd POLLOUT budget in
        if (writable : bool) then
          let! so := syscall (sys_so_error fd) in
          Ret match so with SysOk e => e | SysErr e => e end
        else Ret EAGAIN
      else Ret e
  end.

(** What a valid reply means. *)
Definition accept_reply (reply : FdBrokerReplyAbi) (received_fd : Z) (budget : IoBudget)
    : cprog exchange :=
  let op := "fd_broker_request_fd" in
  let fcntl_failed e :=
    Ret (ex_return (Err (make_errno_error_as kTransportFailed e op
                           "fcntl on received fd failed"))) in
  if (rp_status reply =? fb_kOk) && (0 <=? received_fd) then
    let! flags := syscall (sys_fcntl received_fd F_GETFD 0) in
    match flags with
    | SysErr e => fcntl_failed e
    | SysOk flags =>
        let! set := syscall (sys_fcntl received_fd F_SETFD (Z.lor flags FD_CLOEXEC)) in
        match set with
        | SysErr e => fcntl_failed e
        | SysOk _ =>
            let! available := budget_available budget in
            Ret (if negb available then ex_break else ex_return (Ok (received_fd, reply)))
        end
    end
  else if (received_fd <? 0) && (rp_status reply =? fb_kChannelMismatch) then
    Ret (ex_return (Err (make_error kSchemaMismatch op "broker rejected channel/schema")))
  else if (received_fd <? 0) && (rp_status reply =? fb_kRefused) then
    Ret (ex_return (Err (make_error kPermissionDenied op "broker refused peer")))
  else Ret ex_retry.

Definition exchange_once (fuel : nat) (socket_path : string) (request : FdBrokerRequestAbi)
    (budget : IoBudget) : cprog exchange :=
  let op := "fd_broker_request_fd" in
  let! fd := syscall sys_socket in
  match fd with
  | SysErr e =>
      Ret (ex_return (Err (make_errno_error_as kTransportFailed e op strerror_text)))
  | SysOk fd =>
      let! connect_error := connect_socket fuel fd socket_path budget in
      if negb (connect_error =? 0) then
        Ret (if negb (connect_error =? ECONNREFUSED) && negb (connect_error =? ENOENT)
                && negb (connect_error =? EAGAIN) && negb (connect_error =? EINTR)
                && negb (connect_error =? EINPROGRESS) && negb (connect_error =? EALREADY)
             then ex_return (Err (make_errno_error_as kTransportFailed connect_error op
                                    strerror_text))
             else ex_retry)
      else
      let! sent := send_full fuel fd (request_bytes request) budget in
      if negb sent then Ret ex_retry
      else
      let! received := receive_reply fuel fd budget in
      match received with
      | None => Ret ex_retry
      | Some (reply, received_fd) =>
          if negb (bool_decide (take 6 (rp_magic reply) = string_codes kFdBrokerReplyMagic))
             || negb (reply_checksum_of reply =? rp_checksum reply) then Ret ex_retry
          else accept_reply reply received_fd budget
      end
  end.

Fixpoint request_loop (rounds fuel : nat) (socket_path : string) (request : FdBrokerRequestAbi)
    (budget : IoBudget) (allow_retry : bool) : cprog (Result (Z * FdBrokerReplyAbi)) :=
  let failed := fail kProducerOffline "fd_broker_request_fd"
                  "broker exchange failed (total budget exhausted)" in
  match rounds with
  | O => failed
  | S rounds' =>
      let! available := budget_available budget in
      if negb available then failed
      else
      let! ex := exchange_once fuel socket_path request budget in
      match ex with
      | ex_return r => Ret r
      | ex_break => failed
      | ex_retry =>
          if negb allow_retry then failed
          else
          let! paused := retry_pause fuel budget in
          if negb paused then failed
          else request_loop rounds' fuel socket_path request budget allow_retry
      end
  end.

(** The descriptor with the reply ([*reply_out]). *)
Definition fd_broker_request_fd_until (fuel : nat) (socket_path : string) (channel_hash : Z)
    (schema : SchemaDescriptor) (readonly : bool) (deadline_ns : Z) (allow_retry : bool)
    : cprog (Result (Z * FdBrokerReplyAbi)) :=
  let op := "fd_broker_request_fd" in
  if negb (socket_path_fits socket_path) then fail kInvalidName op "socket path too long"
  else if deadline_ns =? 0 then fail kClockAnomaly op "monotonic clock unavailable"
  else
  request_loop fuel fuel socket_path (make_request readonly channel_hash schema)
    (mkIoBudget deadline_ns None) allow_retry.

Definition fd_broker_request_fd (fuel : nat) (socket_path : string) (channel_hash : Z)
    (schema : SchemaDescriptor) (readonly : bool) (retry_ms : Z)
    : cprog (Result (Z * FdBrokerReplyAbi)) :=
  let op := "fd_broker_request_fd" in
  match checked_mul_u64 retry_ms 1000000 with
  | None => fail kInvalidOptions op "retry timeout out of range"
  | Some retry_ns =>
      let retry_ns :=
        if retry_ms =? 0 then kFdBrokerSingleAttemptTimeoutMs * 1000000 else retry_ns in
      let! deadline := monotonic_deadline_ns retry_ns in
      if deadline =? 0 then fail kClockAnomaly op "monotonic clock unavailable"
      else
      fd_broker_request_fd_until fuel socket_path channel_hash schema readonly deadline
        (negb (retry_ms =? 0))
  end.
