(* ===== verification/ProducerCreate.v ===== *)
(** Creating and removing a channel:
    [producer_create_impl], [producer_remove_if_owner_impl] and the recovery of an
    unfinished transaction, of [src/edge_runtime/channel/producer_impl.cpp].

    Everything happens under the channel's control lock. A journal record in the
    lock file says what is being done, so that a later creator can tell what a
    crashed one left behind; the destructors of [JournalGuard] and
    [CreatedObjectGuard] undo the work of a creation that fails. A handle is named
    by the number its creator passes. *)
From S2P Require Import Prelude Errors CheckedMath Checksum Prog ProcIdentity ShmObject Clock.
From S2P Require Import ChannelLayout ChannelSegment ChannelAbi ControlLock Producer Consumer FdBroker.

Definition fingerprint_set (schema : SchemaDescriptor) : bool :=
  existsb (fun b => negb (b =? 0)) (sd_fingerprint schema).

Definition channel_name_ok (name : string) : bool :=
  negb (Z.of_nat (String.length name) =? 0)
  && (Z.of_nat (String.length name) <=? kMaxChannelNameLen) && validate_channel_name name.

Definition payload_and_schema_valid (options : ChannelOptions) (schema : SchemaDescriptor)
    (payload_size : Z) : bool :=
  if negb (channel_name_ok (co_name options)) then false
  else if (payload_size =? 0) || (kMaxPayloadSize <? payload_size) then false
  else fingerprint_set schema.

(** * Recovery of an unfinished transaction *)

(** Unlink an object of size zero that a creator left before it could record it. *)
Definition reconcile_pre_object (shm_name : string) : cprog (Result unit) :=
  let op := "Producer::create" in
  let! existing := shm_open_existing shm_name in
  match existing with
  | Err e => if negb (bool_decide (err_code e = kNotFound)) then Ret (Err e) else Ret (Ok tt)
  | Ok fd =>
      let? (dev, ino, size) := shm_fstat_and_capture fd in
      if negb (size =? 0) then
        fail kRecoveryBlocked op "object under name after preobject crash"
      else shm_unlink_checked shm_name dev ino
  end.

(** The object of the journal: committed when its bootstrap is ready (then its
    generation and nonce are the journal's), unlinked otherwise. *)
Definition reconcile_object (journal reset : ControlJournalV1) (shm_name : string)
    : cprog (Result ControlJournalV1) :=
  let op := "Producer::create" in
  let! existing := shm_open_existing shm_name in
  match existing with
  | Err e => if negb (bool_decide (err_code e = kNotFound)) then Ret (Err e) else Ret (Ok reset)
  | Ok fd =>
      let? (dev, ino, size) := shm_fstat_and_capture fd in
      if negb (dev =? cj_target_dev journal) || negb (ino =? cj_target_ino journal) then
        fail kNameRaceDetected op "object inode differs from journal target"
      else
      let base := Obj dev ino in
      let! rboot := pread_full fd kBootstrapHeaderSize 0 in
      match rboot with
      | Err _ => fail kRecoveryBlocked op "bootstrap unreadable after object crash"
      | Ok _ =>
          let! boot := load_bootstrap base in
          match validate_bootstrap_parse boot size with
          | Err _ => fail kRecoveryBlocked op "bootstrap corrupt after object crash"
          | Ok _ =>
              if negb (bo_creator_nonce_hi boot =? cj_new_nonce_hi journal)
                 || negb (bo_creator_nonce_lo boot =? cj_new_nonce_lo journal) then
                fail kRecoveryBlocked op "creator nonce does not bind to journal"
              else if bo_init_state boot =? is_kReady then
                let! rh := pread_full fd kChannelHeaderSize kChannelHeaderOffset in
                match rh with
                | Err _ => fail kRecoveryBlocked op "committed header unreadable"
                | Ok _ =>
                    let! generation := plain_load (base (Head ch_generation)) in
                    let! nonce_hi := plain_load (base (Head ch_instance_nonce_hi)) in
                    let! nonce_lo := plain_load (base (Head ch_instance_nonce_lo)) in
                    Ret (Ok (with_new reset generation nonce_hi nonce_lo))
                end
              else
                let? _ := shm_unlink_checked shm_name dev ino in
                Ret (Ok reset)
          end
      end
  end.

(** A removal that was cut short: the object, when it is still there, must be the
    one that was being removed. *)
Definition reconcile_removing (journal : ControlJournalV1) (shm_name : string)
    : cprog (Result unit) :=
  let op := "Producer::create" in
  let! existing := shm_open_existing shm_name in
  match existing with
  | Err e => if negb (bool_decide (err_code e = kNotFound)) then Ret (Err e) else Ret (Ok tt)
  | Ok fd =>
      let? (dev, ino, _) := shm_fstat_and_capture fd in
      if negb (dev =? cj_target_dev journal) || negb (ino =? cj_target_ino journal) then
        fail kNameRaceDetected op "object inode differs from removal target"
      else Ret (Ok tt)
  end.

Definition reconcile_stale_journal (lock : ControlLock) (journal : ControlJournalV1)
    (shm_name : string) : cprog (Result ControlJournalV1) :=
  let op := "Producer::create" in
  let state := cj_state journal in
  if state =? js_kIdle then Ret (Ok journal)
  else if negb (process_identity_valid (identity_of_abi (cj_creator journal))) then
    fail kRecoveryBlocked op "invalid prior creator"
  else
  let! creator_liv :=
    probe_liveness (ia_pid (cj_creator journal)) (ia_proc_start_ticks (cj_creator journal)) in
  match creator_liv with
  | kAlive | kUnverifiable =>
      fail kRecoveryBlocked op "prior transaction owned or unverifiable"
  | kExited | kPidReused =>
      let reset :=
        with_new (with_target (with_state journal js_kIdle) 0 0) (cj_old_generation journal)
          (cj_old_nonce_hi journal) (cj_old_nonce_lo journal) in
      let? reset :=
        if state =? js_kCreatingPreObject then
          let? _ := reconcile_pre_object shm_name in Ret (Ok reset)
        else if (state =? js_kCreatingObject) || (state =? js_kReplacing) then
          reconcile_object journal reset shm_name
        else if state =? js_kRemoving then
          let? _ := reconcile_removing journal shm_name in Ret (Ok reset)
        else Ret (Ok reset) in
      let? _ := write_journal lock reset in
      Ret (Ok reset)
  end.

(** * Creating *)

(** The journal to start from: the recorded one, a fresh one for a new lock file,
    or what recovery made of an unfinished transaction. *)
Definition create_journal (lock : ControlLock) (options : ChannelOptions) (shm_name : string)
    (name_hash : Z) : cprog (Result ControlJournalV1) :=
  let op := "Producer::create" in
  let? journal := read_journal lock in
  if negb (cj_channel_hash journal =? 0) && negb (cj_channel_hash journal =? name_hash) then
    fail kRecoveryBlocked op "journal channel mismatch"
  else
  let journal :=
    if cj_version journal =? 0 then
      make_control_journal (co_name options) js_kIdle 0 0 0 0 0 0 (mkIdentity 0 0 0 0)
    else journal in
  if negb (cj_state journal =? js_kIdle) then reconcile_stale_journal lock journal shm_name
  else Ret (Ok journal).

(** The previous owner may use another transport, which has no object under the
    name. *)
Definition check_previous_transport (options : ChannelOptions) (journal : ControlJournalV1)
    : cprog (Result unit) :=
  let op := "Producer::create" in
  if negb (cj_transport journal =? transport_value (co_transport options))
     && negb (ia_pid (cj_creator journal) =? 0) then
    let! prev :=
      probe_liveness (ia_pid (cj_creator journal)) (ia_proc_start_ticks (cj_creator journal)) in
    match prev with
    | kAlive => fail kAlreadyOwned op "previous owner alive under other transport"
    | kUnverifiable => fail kRecoveryBlocked op "cannot verify previous owner transport"
    | kExited | kPidReused => Ret (Ok tt)
    end
  else Ret (Ok tt).

(** The producer of the object under the name must not be alive. *)
Definition check_old_producer (base : cloc -> chloc) : cprog (Result unit) :=
  let op := "Producer::create" in
  let! pid_res := identity_snapshot_read (fun f => base (Ident r_producer f)) in
  match pid_res with
  | Err _ => fail kRecoveryBlocked op "old producer identity unreadable"
  | Ok opid =>
      let! pstate := shared_load_acquire (base (Head ch_producer_state)) in
      if actively_owned pstate && negb (process_identity_valid (identity_of_abi opid)) then
        fail kRecoveryBlocked op "invalid old producer"
      else if negb (ia_pid opid =? 0) then
        let! liv := probe_liveness (ia_pid opid) (ia_proc_start_ticks opid) in
        if bool_decide (liv = kAlive) && actively_owned pstate then
          fail kAlreadyOwned op "producer alive"
        else if bool_decide (liv = kUnverifiable) && actively_owned pstate then
          fail kRecoveryBlocked op "cannot verify old producer"
        else Ret (Ok tt)
      else Ret (Ok tt)
  end.

(** Unlink the object of a dead producer; the new generation is one more than its
    own. *)
Definition retire_existing (journal : ControlJournalV1) (shm_name : string) (fd : Z)
    : cprog (Result Z) :=
  let op := "Producer::create" in
  let? (edev, eino, esize) := shm_fstat_and_capture fd in
  if esize <? kBootstrapHeaderSize then
    fail kInitializationIncomplete op "existing object below bootstrap size"
  else
  let? _ := mmap_region fd esize in
  let base := Obj edev eino in
  let! boot := load_bootstrap base in
  match validate_bootstrap_parse boot esize with
  | Err _ => fail kRecoveryBlocked op "existing bootstrap corrupt; use edge_shm_ctl"
  | Ok _ =>
      let! init := shared_load_acquire (base (Boot bf_init_state)) in
      if negb (init =? is_kReady) then
        fail kInitializationIncomplete op "existing instance not ready"
      else
      let! magic := load_list (map (fun i => base (HeadMagic i)) (seq 0 8)) in
      let! abi_major := plain_load (base (Head ch_abi_major)) in
      if negb (bool_decide (magic = string_codes kChannelHeaderMagic))
         || negb (abi_major =? kAbiMajor) then
        fail kCorruptHeader op "existing header invalid"
      else
      let? _ := check_old_producer base in
      let! generation := plain_load (base (Head ch_generation)) in
      if negb (cj_new_generation journal =? 0) && negb (cj_new_generation journal =? generation)
      then fail kRecoveryBlocked op "journal and segment generations disagree"
      else if generation =? UINT64_MAX then fail kSequenceExhausted op "generation wrap"
      else
      let? _ := shm_unlink_checked shm_name edev eino in
      Ret (Ok (generation + 1))
  end.

Definition choose_generation (options : ChannelOptions) (journal : ControlJournalV1)
    (shm_name : string) : cprog (Result Z) :=
  let op := "Producer::create" in
  match next_generation_from_journal journal with
  | None => fail kSequenceExhausted op "generation exhausted"
  | Some generation =>
      let? _ := check_previous_transport options journal in
      let! existing := shm_open_existing shm_name in
      match existing with
      | Ok fd => retire_existing journal shm_name fd
      | Err e => if negb (bool_decide (err_code e = kNotFound)) then Ret (Err e)
                 else Ret (Ok generation)
      end
  end.

(** The destructors of [CreatedObjectGuard] and [JournalGuard], in that order: the
    object is unlinked, and the journal is reset unless that failed. *)
Definition undo_create (lock : ControlLock) (created : option (string * Z * Z))
    (reset_to : option ControlJournalV1) : cprog unit :=
  let! kept := match created with
               | None => Ret false
               | Some (name, dev, ino) =>
                   let! removed := shm_unlink_checked name dev ino in
                   Ret match removed with
                       | Err e => negb (bool_decide (err_code e = kNotFound))
                       | Ok _ => false
                       end
               end in
  match reset_to with
  | Some journal =>
      if (kept : bool) then Ret tt else let! _ := write_journal lock journal in Ret tt
  | None => Ret tt
  end.

(** Making the object; with the result, whether the journal is to be reset if the
    creation fails here. *)
Definition create_object (lock : ControlLock) (options : ChannelOptions) (shm_name : string)
    (j0 : ControlJournalV1) : cprog (Result (Z * Z * Z) * bool) :=
  let op := "Producer::create" in
  if bool_decide (co_transport options = tr_kMemfdFdPass) then
    let! mfd := memfd_create_object (co_name options) in
    match mfd with
    | Err e => Ret (Err e, true)
    | Ok fd =>
        let! cst := memfd_fstat_and_capture fd in
        Ret match cst with
            | Err e => (Err e, true)
            | Ok (dev, ino, _) => (Ok (fd, dev, ino), true)
            end
    end
  else
  let! fd_res := shm_open_create shm_name in
  match fd_res with
  | Err e =>
      if bool_decide (err_code e = kAlreadyOwned) then
        Ret (Err (make_error kNameRaceDetected op "object appeared under name"), true)
      else Ret (Err e, true)
  | Ok fd =>
      let! cst := shm_fstat_and_capture fd in
      match cst with
      | Ok (dev, ino, _) => Ret (Ok (fd, dev, ino), true)
      | Err e =>
          let! captured := shm_capture_created_identity fd in
          let (dev, ino) := match captured with Ok id => id | Err _ => (0, 0) end in
          let! retained :=
            write_journal lock (with_target (with_state j0 js_kCreatingObject) dev ino) in
          match retained, captured with
          | Err e', _ => Ret (Err e', false)
          | Ok _, Err e' => Ret (Err e', false)
          | Ok _, Ok _ =>
              let! removed := shm_unlink_checked shm_name dev ino in
              match removed with
              | Err e' =>
                  if negb (bool_decide (err_code e' = kNotFound)) then Ret (Err e', false)
                  else Ret (Err e, true)
              | Ok _ => Ret (Err e, true)
              end
          end
      end
  end.

(** [options.heartbeat_interval.count()], zero when it is not positive. *)
Definition heartbeat_interval_of (options : ChannelOptions) : Z :=
  if 0 <? co_heartbeat_interval options then u64 (co_heartbeat_interval options) else 0.

(** The bootstrap header of a new object. *)
Definition new_bootstrap (abi_minor mapping nonce_hi nonce_lo : Z) (self : ProcessIdentity)
    : BootstrapHeaderAbi :=
  let boot checksum :=
    mkBootstrap (string_codes kBootstrapMagic) kAbiMajor abi_minor kBootstrapHeaderSize mapping
      nonce_hi nonce_lo (pid self) (proc_start_ticks self) (boot_id_hash_hi self)
      (boot_id_hash_lo self) is_kInitializing 0 checksum (replicate 40 0) in
  boot (bootstrap_checksum_of (boot 0)).

(** The stores to the channel header before the producer's identity. *)
Definition init_channel_header (base : cloc -> chloc) (schema : SchemaDescriptor)
    (payload_size abi_minor mapping generation nonce_hi nonce_lo interval : Z) : cprog unit :=
  do! store_list (map (fun l => (base l, 0)) (body_locs payload_size));
  do! store_list (zip (map (fun i => base (HeadMagic i)) (seq 0 8))
                    (string_codes kChannelHeaderMagic));
  do! plain_store (base (Head ch_abi_major)) kAbiMajor;
  do! plain_store (base (Head ch_abi_minor)) abi_minor;
  do! plain_store (base (Head ch_header_size)) kChannelHeaderSize;
  do! plain_store (base (Head ch_endian_marker)) kEndianMarker;
  do! plain_store (base (Head ch_slot_count)) kSlotCount;
  do! plain_store (base (Head ch_payload_size)) payload_size;
  do! plain_store (base (Head ch_max_payload_size)) kMaxPayloadSize;
  do! plain_store (base (Head ch_schema_version)) (sd_version schema);
  do! store_list (zip (map (fun i => base (HeadFingerprint i)) (seq 0 32))
                    (sd_fingerprint schema));
  do! plain_store (base (Head ch_mapping_size)) mapping;
  do! plain_store (base (Head ch_generation)) generation;
  do! plain_store (base (Head ch_instance_nonce_hi)) nonce_hi;
  do! plain_store (base (Head ch_instance_nonce_lo)) nonce_lo;
  plain_store (base (Head ch_producer_heartbeat_interval_ns)) interval.

(** From the journal record of the new object to the final one: the role epoch, the
    mapping size and the listening socket (negative without one). *)
Definition initialise_object (lock : ControlLock) (options : ChannelOptions)
    (schema : SchemaDescriptor) (payload_size : Z) (self : ProcessIdentity)
    (socket_path : string) (record : Z -> ControlJournalV1) (fd dev ino generation nonce_hi
    nonce_lo : Z) : cprog (Result (Z * Z * Z)) :=
  let op := "Producer::create" in
  let base := Obj dev ino in
  let fd_mode := bool_decide (co_transport options = tr_kMemfdFdPass) in
  let? _ := write_journal lock (with_target (record js_kCreatingObject) dev ino) in
  let interval := heartbeat_interval_of options in
  let abi_minor := if 0 <? interval then kAbiMinorMax else kAbiMinor in
  match mapping_size_for_payload payload_size with
  | None => fail kInvalidOptions op "mapping size overflow"
  | Some mapping =>
      let boot := new_bootstrap abi_minor mapping nonce_hi nonce_lo self in
      let? _ := pwrite_full fd kBootstrapHeaderSize 0 (bootstrap_stores base boot) in
      let? _ := shm_truncate fd mapping in
      let? _ := mmap_region fd mapping in
      do! init_channel_header base schema payload_size abi_minor mapping generation nonce_hi
            nonce_lo interval;
      let? role_epoch :=
        identity_snapshot_write (fun f => base (Ident r_producer f)) (abi_of_identity self) in
      do! shared_store_relaxed (base (Head ch_init_state)) is_kInitializing;
      do! shared_store_relaxed (base (Head ch_producer_state)) es_kOnline;
      let? listen_fd := if (fd_mode : bool) then fd_broker_bind socket_path else Ret (Ok (-1)) in
      do! shared_store_release (base (Head ch_init_state)) is_kReady;
      do! shared_store_release (base (Boot bf_init_state)) is_kReady;
      let! done := write_journal lock (with_target (record js_kIdle) dev ino) in
      match done with
      | Err e =>
          do! if (fd_mode : bool) then
                let! _ := syscall (sys_unlink socket_path) in Ret tt
              else Ret tt;
          Ret (Err e)
      | Ok _ => Ret (Ok (role_epoch, mapping, listen_fd))
      end
  end.

(** The members of a new handle that are not set: the flags are clear. *)
Definition init_producer_handle (id : nat) : cprog unit :=
  store_list (map (fun f => (PHnd id f, 0))
    [hl_operation_in_use; hl_shutdown_pending; hl_shutdown_started; hl_serve_stop;
     hl_socket_unlinked]).

(** After the control lock was taken. *)
Definition create_locked (id : nat) (lock : ControlLock) (options : ChannelOptions)
    (schema : SchemaDescriptor) (payload_size : Z) (self : ProcessIdentity)
    (shm_name socket_path : string) (name_hash : Z) : cprog (Result ProducerHandle) :=
  let op := "Producer::create" in
  let fd_mode := bool_decide (co_transport options = tr_kMemfdFdPass) in
  let? journal := create_journal lock options shm_name name_hash in
  let? generation := choose_generation options journal shm_name in
  let! nonce := random_bytes kRandomFuel 16 [] in
  match nonce with
  | SysErr e => Ret (Err (make_errno_error_as kSystemError e op "getrandom"))
  | SysOk nonce_bytes =>
      let nonce_hi := le_value (take 8 nonce_bytes) in
      let nonce_lo := le_value (take 8 (drop 8 nonce_bytes)) in
      let record state :=
        with_transport
          (make_control_journal (co_name options) state (cj_old_generation journal) generation
             (cj_old_nonce_hi journal) (cj_old_nonce_lo journal) nonce_hi nonce_lo self)
          (transport_value (co_transport options)) in
      let? _ := write_journal lock (record js_kCreatingPreObject) in
      let! (object, armed) :=
        create_object lock options shm_name (record js_kCreatingPreObject) in
      match object with
      | Err e =>
          do! undo_create lock None (if (armed : bool) then Some journal else None);
          Ret (Err e)
      | Ok (fd, dev, ino) =>
          let! made := initialise_object lock options schema payload_size self socket_path record
                         fd dev ino generation nonce_hi nonce_lo in
          match made with
          | Err e =>
              do! undo_create lock (if fd_mode then None else Some (shm_name, dev, ino))
                    (Some journal);
              Ret (Err e)
          | Ok (role_epoch, mapping, listen_fd) =>
              do! init_producer_handle id;
              let handle :=
                mkProducerHandle id (mkShmObject (co_name options) fd dev ino mapping)
                  (co_name options) generation role_epoch nonce_hi nonce_lo schema payload_size
                  self (co_transport options) name_hash (if fd_mode then socket_path else "")
                  listen_fd (heartbeat_interval_of options) in
              if fd_mode then
                let! started := syscall sys_thread_start in
                match started with
                | SysErr _ =>
                    let! _ := syscall (sys_unlink socket_path) in
                    fail kSystemError op "serving thread start failed"
                | SysOk _ => Ret (Ok handle)
                end
              else Ret (Ok handle)
          end
      end
  end.

Definition producer_create_impl (id : nat) (options : ChannelOptions) (schema : SchemaDescriptor)
    (payload_size : Z) : cprog (Result ProducerHandle) :=
  let op := "Producer::create" in
  if negb (payload_and_schema_valid options schema payload_size) then
    fail kInvalidOptions op "name/schema/payload invalid"
  else
  let? _ := lift (validate_channel_option_contract options op) in
  let? self := read_current_process_identity in
  let! shm_name := channel_shm_name (co_name options) in
  let! lock_path := channel_lock_path (co_name options) in
  let! socket_path := channel_socket_path (co_name options) in
  let name_hash := channel_name_hash (string_codes (co_name options)) in
  let? lock := control_lock_acquire lock_path in
  let! r := create_locked id lock options schema payload_size self shm_name socket_path
              name_hash in
  do! control_lock_release lock;
  Ret r.

(** * Removing *)

(** The handle still belongs to the instance in its mapping. *)
Definition check_removal (handle : ProducerHandle) : cprog (Result unit) :=
  let op := "Producer::remove_if_owner" in
  let base := pd_base handle in
  let! generation := plain_load (base (Head ch_generation)) in
  let! nonce_hi := plain_load (base (Head ch_instance_nonce_hi)) in
  let! nonce_lo := plain_load (base (Head ch_instance_nonce_lo)) in
  if negb (generation =? pd_generation handle) || negb (nonce_hi =? pd_instance_nonce_hi handle)
     || negb (nonce_lo =? pd_instance_nonce_lo handle) then
    fail kStaleHandle op "instance changed"
  else
  let? p := identity_snapshot_read (fun f => base (Ident r_producer f)) in
  if negb (ia_role_epoch p =? pd_role_epoch handle) then
    fail kStaleHandle op "producer role changed"
  else Ret (Ok tt).

(** With the [kRemoving] record written: unlink, and record the end. *)
Definition remove_recorded (handle : ProducerHandle) (lock : ControlLock) (shm_name : string)
    (dev ino : Z) (done : ControlJournalV1) : cprog (Result unit) :=
  let? _ :=
    if bool_decide (pd_transport handle = tr_kMemfdFdPass) then
      let! unlinked := plain_load (PHnd (pd_id handle) hl_socket_unlinked) in
      if unlinked =? 0 then
        let! _ := syscall (sys_unlink (pd_socket_path handle)) in
        do! plain_store (PHnd (pd_id handle) hl_socket_unlinked) 1;
        Ret (Ok tt)
      else Ret (Ok tt)
    else shm_unlink_checked shm_name dev ino in
  write_journal lock done.

Definition remove_locked (handle : ProducerHandle) (lock : ControlLock) (shm_name : string)
    : cprog (Result unit) :=
  let op := "Producer::remove_if_owner" in
  let fd_mode := bool_decide (pd_transport handle = tr_kMemfdFdPass) in
  let? journal := read_journal lock in
  let? (dev, ino) :=
    if (fd_mode : bool) then Ret (Ok (0, 0))
    else
      let? re := shm_open_existing shm_name in
      let? (dev, ino, _) := shm_fstat_and_capture re in
      if negb (dev =? so_dev (pd_shm handle)) || negb (ino =? so_ino (pd_shm handle)) then
        fail kNameRaceDetected op "inode changed"
      else Ret (Ok (dev, ino)) in
  let? _ := check_removal handle in
  do! if fd_mode then
        do! shared_store_relaxed (PHnd (pd_id handle) hl_serve_stop) 1;
        if 0 <=? pd_listen_fd handle then
          let! _ := syscall (sys_shutdown (pd_listen_fd handle)) in Ret tt
        else Ret tt
      else Ret tt;
  let record state new_gen new_nonce_hi new_nonce_lo :=
    with_target
      (with_transport
         (make_control_journal (pd_channel_name handle) state (pd_generation handle) new_gen
            (pd_instance_nonce_hi handle) (pd_instance_nonce_lo handle) new_nonce_hi new_nonce_lo
            (pd_self handle))
         (transport_value (pd_transport handle)))
      dev ino in
  let? _ := write_journal lock (record js_kRemoving 0 0 0) in
  let done := record js_kIdle (pd_generation handle) (pd_instance_nonce_hi handle)
                (pd_instance_nonce_lo handle) in
  let! r := remove_recorded handle lock shm_name dev ino done in
  match r with
  | Ok _ => Ret (Ok tt)
  | Err e => do! undo_create lock None (Some journal); Ret (Err e)
  end.

Definition producer_remove_if_owner_impl (handle : ProducerHandle) : cprog (Result unit) :=
  with_use (PHnd (pd_id handle) hl_operation_in_use) "Producer::remove_if_owner"
    (let! shm_name := channel_shm_name (pd_channel_name handle) in
     let! lock_path := channel_lock_path (pd_channel_name handle) in
     let? lock := control_lock_acquire lock_path in
     let! r := remove_locked handle lock shm_name in
     do! control_lock_release lock;
     Ret r).

(** [~ProducerHandle]: a running server thread is stopped and joined. *)
Definition destroy_producer_handle (handle : ProducerHandle) (server_running : bool)
    : cprog unit :=
  if server_running then
    do! shared_store_relaxed (PHnd (pd_id handle) hl_serve_stop) 1;
    if 0 <=? pd_listen_fd handle then
      let! _ := syscall (sys_shutdown (pd_listen_fd handle)) in Ret tt
    else Ret tt
  else Ret tt.
