(* ===== verification/ConsumerOpen.v ===== *)
(** Opening a channel as its consumer: [consumer_open_impl] and
    [consumer_reconnect_impl] of [src/edge_runtime/channel/consumer_impl.cpp].

    The segment is checked before it is mapped and again in the mapping; under the
    control lock the previous consumer must be gone or dead, and the slots a dead
    one held are given back. [fuel] bounds the loops of the broker's client. *)
From S2P Require Import Prelude Errors CheckedMath Checksum Prog ProcIdentity ShmObject Clock.
From S2P Require Import ChannelLayout ChannelSegment ChannelAbi ControlLock Producer Consumer FdBroker ProducerCreate.

Definition validate_open_options (options : ChannelOptions) (schema : SchemaDescriptor)
    (payload_size : Z) : Result unit :=
  let op := "Consumer::open" in
  if negb (channel_name_ok (co_name options)) then
    Err (make_error kInvalidName op (co_name options))
  else if (payload_size =? 0) || (kMaxPayloadSize <? payload_size) then
    Err (make_error kInvalidOptions op "payload size out of range")
  else
    match validate_channel_option_contract options op with
    | Err e => Err e
    | Ok _ =>
        if (co_reconnect_timeout options <? 0)
           || (UINT64_MAX / 1000000 <? u64 (co_reconnect_timeout options)) then
          Err (make_error kInvalidOptions op "reconnect timeout out of range")
        else if negb (fingerprint_set schema) then
          Err (make_error kInvalidOptions op "schema fingerprint unset")
        else Ok tt
    end.

(** The descriptor, identity and size of the object, with the broker's reply when
    it came from there. *)
Definition open_object (fuel : nat) (options : ChannelOptions) (schema : SchemaDescriptor)
    (shm_name socket_path : string) (name_hash : Z)
    : cprog (Result (Z * (Z * Z * Z) * option FdBrokerReplyAbi)) :=
  let op := "Consumer::open" in
  if bool_decide (co_transport options = tr_kMemfdFdPass) then
    let? (fd, reply) := fd_broker_request_fd fuel socket_path name_hash schema false
                          (co_reconnect_timeout options) in
    let? id := memfd_fstat_and_capture fd in
    Ret (Ok (fd, id, Some reply))
  else
  let! fd_res := shm_open_existing shm_name in
  match fd_res with
  | Err e =>
      if bool_decide (err_code e = kNotFound) then
        let! st := syscall (sys_stat socket_path) in
        match st with
        | SysOk _ => fail kInvalidOptions op "channel is fd-pass; use Transport::kMemfdFdPass"
        | SysErr _ => Ret (Err e)
        end
      else Ret (Err e)
  | Ok fd =>
      let? id := shm_fstat_and_capture fd in
      Ret (Ok (fd, id, None))
  end.

(** The checks on the object before the lock: bootstrap, boot, mapping, header. *)
Definition check_object (schema : SchemaDescriptor) (payload_size : Z) (self : ProcessIdentity)
    (fd dev ino size : Z) : cprog (Result unit) :=
  let op := "Consumer::open" in
  let base := Obj dev ino in
  if size <? kBootstrapHeaderSize then
    fail kInitializationIncomplete op "segment below bootstrap size"
  else
  let? _ := pread_full fd kBootstrapHeaderSize 0 in
  let! boot := load_bootstrap base in
  let? _ := lift (validate_bootstrap_parse boot size) in
  if negb (bo_expected_mapping_size boot =? size) then
    fail kInitializationIncomplete op "mapping size mismatch (producer still initializing?)"
  else if negb (bo_init_state boot =? is_kReady) then
    fail kInitializationIncomplete op "producer not ready"
  else if negb (bo_creator_boot_id_hash_hi boot =? boot_id_hash_hi self)
          || negb (bo_creator_boot_id_hash_lo boot =? boot_id_hash_lo self) then
    fail kCorruptHeader op "segment from previous boot"
  else
  let? _ := mmap_region fd size in
  let! init := shared_load_acquire (base (Boot bf_init_state)) in
  if negb (init =? is_kReady) then fail kInitializationIncomplete op "not ready on recheck"
  else validate_header_parse base schema payload_size.

(** The name still leads to the object, or the broker's reply is about it. *)
Definition confirm_object (shm_name : string) (reply : option FdBrokerReplyAbi) (dev ino : Z)
    : cprog (Result unit) :=
  let op := "Consumer::open" in
  let base := Obj dev ino in
  match reply with
  | None =>
      let? again := shm_open_existing shm_name in
      let? (adev, aino, _) := shm_fstat_and_capture again in
      if negb (adev =? dev) || negb (aino =? ino) then
        fail kNameRaceDetected op "instance replaced during open"
      else Ret (Ok tt)
  | Some reply =>
      let! generation := plain_load (base (Head ch_generation)) in
      let! nonce_hi := plain_load (base (Head ch_instance_nonce_hi)) in
      let! nonce_lo := plain_load (base (Head ch_instance_nonce_lo)) in
      let! mapping_size := plain_load (base (Head ch_mapping_size)) in
      if negb (rp_generation reply =? generation) || negb (rp_nonce_hi reply =? nonce_hi)
         || negb (rp_nonce_lo reply =? nonce_lo) || negb (rp_mapping_size reply =? mapping_size)
      then fail kTransportFailed op "broker reply disagrees with header"
      else Ret (Ok tt)
  end.

(** The previous consumer: refuse while it is alive or in doubt, give its slots back
    when it is dead. *)
Definition take_over_consumer (base : cloc -> chloc) (payload_size : Z) : cprog (Result unit) :=
  let op := "Consumer::open" in
  let! old := identity_snapshot_read (fun f => base (Ident r_consumer f)) in
  match old with
  | Err _ => fail kRecoveryBlocked op "consumer identity unreadable"
  | Ok old_cid =>
      let! old_state := shared_load_acquire (base (Head ch_consumer_state)) in
      if negb (old_state =? es_kOffline)
         && negb (process_identity_valid (identity_of_abi old_cid)) then
        fail kRecoveryBlocked op "invalid old consumer"
      else if ia_pid old_cid =? 0 then Ret (Ok tt)
      else
      let! cstate := shared_load_acquire (base (Head ch_consumer_state)) in
      if negb (actively_owned cstate) then Ret (Ok tt)
      else
      let! liv := probe_liveness (ia_pid old_cid) (ia_proc_start_ticks old_cid) in
      match liv with
      | kAlive => fail kConsumerAlreadyOwned op "consumer alive"
      | kUnverifiable => fail kRecoveryBlocked op "cannot verify old consumer"
      | kExited | kPidReused =>
          reclaim_dead_consumer_slots base (ia_role_epoch old_cid) payload_size
      end
  end.

(** [make_shared<ConsumerHandle>()], in the order of the members. *)
Definition init_consumer_handle (id : nat) : cprog unit :=
  store_list
    [(CHnd id hl_last_sequence, 0); (CHnd id hl_first_sample_in_generation, 1);
     (CHnd id hl_operation_in_use, 0); (CHnd id hl_shutdown_pending, 0);
     (CHnd id hl_shutdown_started, 0)].

(** The new consumer's identity, its state and its handle: the role epoch. *)
Definition install_consumer (id : nat) (base : cloc -> chloc) (self : ProcessIdentity)
    : cprog (Result Z) :=
  let? role_epoch :=
    identity_snapshot_write (fun f => base (Ident r_consumer f)) (abi_of_identity self) in
  do! shared_store_release (base (Head ch_consumer_state)) es_kOnline;
  do! init_consumer_handle id;
  Ret (Ok role_epoch).

(** The consumer's place: recovered from the previous consumer, then taken. *)
Definition take_consumer_place (id : nat) (base : cloc -> chloc) (payload_size : Z)
    (self : ProcessIdentity) : cprog (Result Z) :=
  let? _ := take_over_consumer base payload_size in
  install_consumer id base self.

(** After the control lock was taken. *)
Definition open_locked (id : nat) (lock : ControlLock) (options : ChannelOptions)
    (schema : SchemaDescriptor) (payload_size : Z) (self : ProcessIdentity) (shm_name : string)
    (name_hash : Z) (reply : option FdBrokerReplyAbi) (fd dev ino size : Z)
    : cprog (Result ConsumerHandle) :=
  let op := "Consumer::open" in
  let base := Obj dev ino in
  let? journal := read_journal lock in
  if negb (cj_channel_hash journal =? 0) && negb (cj_channel_hash journal =? name_hash) then
    fail kRecoveryBlocked op "journal channel mismatch"
  else
  let? _ := confirm_object shm_name reply dev ino in
  let? role_epoch := take_consumer_place id base payload_size self in
  let! generation := plain_load (base (Head ch_generation)) in
  let! nonce_hi := plain_load (base (Head ch_instance_nonce_hi)) in
  let! nonce_lo := plain_load (base (Head ch_instance_nonce_lo)) in
  Ret (Ok (mkConsumerHandle id (mkShmObject (co_name options) fd dev ino size) (co_name options)
             (co_transport options) generation role_epoch nonce_hi nonce_lo schema payload_size
             self (co_reconnect_timeout options))).

Definition consumer_open_impl (fuel id : nat) (options : ChannelOptions)
    (schema : SchemaDescriptor) (payload_size : Z) : cprog (Result ConsumerHandle) :=
  let? _ := lift (validate_open_options options schema payload_size) in
  let! shm_name := channel_shm_name (co_name options) in
  let? self := read_current_process_identity in
  let! lock_path := channel_lock_path (co_name options) in
  let! socket_path := channel_socket_path (co_name options) in
  let name_hash := channel_name_hash (string_codes (co_name options)) in
  let? (fd, (dev, ino, size), reply) :=
    open_object fuel options schema shm_name socket_path name_hash in
  let? _ := check_object schema payload_size self fd dev ino size in
  let? lock := control_lock_acquire lock_path in
  let! r := open_locked id lock options schema payload_size self shm_name name_hash reply fd dev
              ino size in
  do! control_lock_release lock;
  Ret r.

(** [take_consumer_place] on the path where the previous consumer's recorded identity
    is valid, its state is an active one and the kernel says that its process is gone;
    [ChannelTakeover.take_place_replaces] is that it is this path. *)
Definition replace_dead_consumer (id : nat) (base : cloc -> chloc) (payload_size : Z)
    (self : ProcessIdentity) : cprog (Result Z) :=
  let! old := identity_snapshot_read (fun f => base (Ident r_consumer f)) in
  match old with
  | Err _ => fail kRecoveryBlocked "Consumer::open" "consumer identity unreadable"
  | Ok old_cid =>
      let? _ := reclaim_dead_consumer_slots base (ia_role_epoch old_cid) payload_size in
      install_consumer id base self
  end.

(** * Reconnecting *)

Record ReconnectInfo : Type := mkReconnectInfo {
  ri_old_generation : Z;
  ri_new_generation : Z;
  ri_old_instance_nonce : list Z;
  ri_new_instance_nonce : list Z;
  ri_schema_changed : bool
}.

(** The handle takes over everything of the fresh one but its flags, and its cursor
    starts again. The handle after the call is returned with the result; [fresh_id]
    is the temporary one. *)
Definition reconnect_unlocked (fuel fresh_id : nat) (handle : ConsumerHandle)
    : cprog (Result ReconnectInfo * ConsumerHandle) :=
  let options :=
    mkChannelOptions (cd_channel_name handle) 100 (cd_reconnect_timeout_ms handle) true
      (cd_transport handle) 0 in
  let! opened := consumer_open_impl fuel fresh_id options (cd_schema handle)
                   (cd_payload_size handle) in
  match opened with
  | Err e => Ret (Err e, handle)
  | Ok fresh =>
      let info :=
        mkReconnectInfo (cd_generation handle) (cd_generation fresh) (pack_nonce handle)
          (pack_nonce fresh)
          (negb (bool_decide (sd_fingerprint (cd_schema handle) = sd_fingerprint (cd_schema fresh)))
           || negb (sd_version (cd_schema handle) =? sd_version (cd_schema fresh))) in
      do! mark_consumer_offline handle;
      do! plain_store (CHnd (cd_id handle) hl_last_sequence) 0;
      do! plain_store (CHnd (cd_id handle) hl_first_sample_in_generation) 1;
      Ret (Ok info,
           mkConsumerHandle (cd_id handle) (cd_shm fresh) (cd_channel_name fresh)
             (cd_transport fresh) (cd_generation fresh) (cd_role_epoch fresh)
             (cd_instance_nonce_hi fresh) (cd_instance_nonce_lo fresh) (cd_schema fresh)
             (cd_payload_size fresh) (cd_self fresh) (cd_reconnect_timeout_ms fresh))
  end.

Definition consumer_reconnect_impl (fuel fresh_id : nat) (handle : ConsumerHandle)
    : cprog (Result ReconnectInfo * ConsumerHandle) :=
  let flag := CHnd (cd_id handle) hl_operation_in_use in
  let! in_use := exchange_true flag in
  if (in_use : bool) then
    Ret (Err (make_error kConcurrentHandleUse "Consumer::reconnect" "concurrent handle use"),
         handle)
  else
  let! r := reconnect_unlocked fuel fresh_id handle in
  do! shared_store_release flag 0;
  Ret r.
