(* ===== verification/Observer.v ===== *)
(** The read-only view of a channel: [src/edge_runtime/channel/channel_observer.{hpp,cpp}].

    A supervisor opens the segment without write access and judges from its header
    whether the producer makes progress. *)
From S2P Require Import Prelude Errors CheckedMath Checksum Prog ProcIdentity ShmObject Clock.
From S2P Require Import ChannelLayout ChannelSegment ChannelAbi ControlLock Producer Consumer FdBroker.

Definition kRetryIntervalNs : Z := 10000000.

Record ChannelObserverView : Type := mkObserverView {
  ov_channel_name : string;
  ov_transport : Transport;
  ov_fd : Z;
  ov_dev : Z;
  ov_ino : Z;
  ov_size : Z
}.

(** [observer_header]. *)
Definition ov_base (view : ChannelObserverView) : cloc -> chloc :=
  Obj (ov_dev view) (ov_ino view).

(** The descriptor, identity and size, with the broker's reply. *)
Definition observer_open_object (fuel : nat) (channel_name : string) (transport : Transport)
    (deadline_ns : Z) (allow_retry : bool)
    : cprog (Result (Z * (Z * Z * Z) * option FdBrokerReplyAbi)) :=
  match transport with
  | tr_kMemfdFdPass =>
      let! socket_path := channel_socket_path channel_name in
      let? (fd, reply) :=
        fd_broker_request_fd_until fuel socket_path
          (channel_name_hash (string_codes channel_name)) (mkSchema (replicate 32 0) 0) true
          deadline_ns allow_retry in
      let? id := memfd_fstat_and_capture fd in
      Ret (Ok (fd, id, Some reply))
  | tr_kPosixShm =>
      let! shm_name := channel_shm_name channel_name in
      let? fd := shm_open_existing shm_name in
      let? id := shm_fstat_and_capture fd in
      Ret (Ok (fd, id, None))
  end.

(** The mapped header is the header of the instance the bootstrap [boot] was read
    from, and the one the broker's reply is about. *)
Definition observer_check_mapping (size : Z) (boot : BootstrapHeaderAbi)
    (reply : option FdBrokerReplyAbi) (base : cloc -> chloc) : cprog (Result unit) :=
  let op := "open_channel_readonly" in
  let! boot_init := shared_load_acquire (base (Boot bf_init_state)) in
  let! init := shared_load_acquire (base (Head ch_init_state)) in
  if negb (boot_init =? is_kReady) || negb (init =? is_kReady) then
    fail kInitializationIncomplete op "mapped bootstrap/header not ready"
  else
  let! mapped_boot := load_bootstrap base in
  let? _ := lift (validate_bootstrap_parse mapped_boot size) in
  let? _ := validate_header_shape base in
  let! mapping_size := plain_load (base (Head ch_mapping_size)) in
  let! abi_major := plain_load (base (Head ch_abi_major)) in
  let! abi_minor := plain_load (base (Head ch_abi_minor)) in
  let! nonce_hi := plain_load (base (Head ch_instance_nonce_hi)) in
  let! nonce_lo := plain_load (base (Head ch_instance_nonce_lo)) in
  let! generation := plain_load (base (Head ch_generation)) in
  if negb (mapping_size =? size) || negb (bo_expected_mapping_size mapped_boot =? size)
     || negb (abi_major =? bo_abi_major mapped_boot)
     || negb (abi_minor =? bo_abi_minor mapped_boot)
     || ((nonce_hi =? 0) && (nonce_lo =? 0))
     || negb (nonce_hi =? bo_creator_nonce_hi mapped_boot)
     || negb (nonce_lo =? bo_creator_nonce_lo mapped_boot)
     || negb (bo_creator_nonce_hi boot =? bo_creator_nonce_hi mapped_boot)
     || negb (bo_creator_nonce_lo boot =? bo_creator_nonce_lo mapped_boot) then
    fail kCorruptHeader op "bootstrap/header instance disagreement"
  else
  match reply with
  | None => Ret (Ok tt)
  | Some reply =>
      if negb (rp_generation reply =? generation) || negb (rp_nonce_hi reply =? nonce_hi)
         || negb (rp_nonce_lo reply =? nonce_lo) || negb (rp_mapping_size reply =? mapping_size)
         || negb (rp_abi_major reply =? abi_major) || negb (rp_abi_minor reply =? abi_minor)
      then fail kTransportFailed op "broker reply disagrees with mapped instance"
      else Ret (Ok tt)
  end.

Definition open_once (fuel : nat) (channel_name : string) (transport : Transport)
    (deadline_ns : Z) (allow_retry : bool) : cprog (Result ChannelObserverView) :=
  let op := "open_channel_readonly" in
  let? (fd, (dev, ino, size), reply) :=
    observer_open_object fuel channel_name transport deadline_ns allow_retry in
  let base := Obj dev ino in
  let? _ := pread_full fd kBootstrapHeaderSize 0 in
  let! boot := load_bootstrap base in
  let? _ := lift (validate_bootstrap_parse boot size) in
  if negb (bo_expected_mapping_size boot =? size) then
    fail kInitializationIncomplete op "mapping size mismatch (mid-create?)"
  else if negb (bo_init_state boot =? is_kReady) then
    fail kInitializationIncomplete op "bootstrap not ready"
  else if size <? kChannelHeaderOffset + kChannelHeaderSize then
    fail kCorruptHeader op "mapping below header size"
  else
  let? _ := mmap_region_readonly fd size in
  let? _ := observer_check_mapping size boot reply base in
  Ret (Ok (mkObserverView channel_name transport fd dev ino size)).

Definition retryable (code : ErrorCode) : bool :=
  bool_decide (code = kNotFound) || bool_decide (code = kInitializationIncomplete)
  || bool_decide (code = kProducerOffline).

(** The loop of [open_channel_readonly], at most [rounds] times; it ends like the
    budget when they are used up. *)
Fixpoint open_readonly_loop (rounds fuel : nat) (channel_name : string) (transport : Transport)
    (retry_ms deadline : Z) : cprog (Result ChannelObserverView) :=
  let exhausted := fail kTimeout "open_channel_readonly" "retry budget exhausted" in
  let out_of_time :=
    if retry_ms =? 0 then Ret false
    else let! remaining := remaining_time_ns deadline in Ret (remaining =? 0) in
  match rounds with
  | O => exhausted
  | S rounds' =>
      let! late := out_of_time in
      if (late : bool) then exhausted
      else
      let! view := open_once fuel channel_name transport deadline (negb (retry_ms =? 0)) in
      match view with
      | Ok view => let! late := out_of_time in if (late : bool) then exhausted else Ret (Ok view)
      | Err e =>
          if negb (retryable (err_code e)) then Ret (Err e)
          else
          let! remaining := remaining_time_ns deadline in
          if (retry_ms =? 0) || (remaining =? 0) then exhausted
          else
          let! _ := syscall (sys_nanosleep 0 (Z.min remaining kRetryIntervalNs)) in
          open_readonly_loop rounds' fuel channel_name transport retry_ms deadline
      end
  end.

Definition open_channel_readonly (fuel : nat) (channel_name : string) (transport : Transport)
    (retry_ms : Z) : cprog (Result ChannelObserverView) :=
  let op := "open_channel_readonly" in
  match checked_mul_u64 retry_ms 1000000 with
  | None => fail kInvalidOptions op "retry timeout out of range"
  | Some retry_ns =>
      let retry_ns :=
        if bool_decide (transport = tr_kMemfdFdPass) && (retry_ms =? 0)
        then kFdBrokerSingleAttemptTimeoutMs * 1000000 else retry_ns in
      let! deadline := monotonic_deadline_ns retry_ns in
      if deadline =? 0 then fail kClockAnomaly op "monotonic clock unavailable"
      else open_readonly_loop fuel fuel channel_name transport retry_ms deadline
  end.

(** * Progress of the producer *)

Inductive StallClass : Type :=
| sc_kNotReady | sc_kIdentityMismatch | sc_kNotApplicable | sc_kFresh | sc_kStalled.

#[global] Instance StallClass_eq_dec : EqDecision StallClass.
Proof. solve_decision. Defined.

Definition classify_stall (base : cloc -> chloc) (now_boot_ns expected_pid
    expected_start_ticks : Z) : cprog StallClass :=
  let! init := shared_load_acquire (base (Head ch_init_state)) in
  if negb (init =? is_kReady) then Ret sc_kNotReady
  else
  let! pid_res := identity_snapshot_read (fun f => base (Ident r_producer f)) in
  match pid_res with
  | Err _ => Ret sc_kIdentityMismatch
  | Ok p =>
      if negb (ia_pid p =? expected_pid) || negb (ia_proc_start_ticks p =? expected_start_ticks)
      then Ret sc_kIdentityMismatch
      else
      let! interval := shared_load_acquire (base (Head ch_producer_heartbeat_interval_ns)) in
      if interval =? 0 then Ret sc_kNotApplicable
      else
      let! last_publish := shared_load_acquire (base (Head ch_last_publish_boot_ns)) in
      let! last_beat := shared_load_acquire (base (Head ch_heartbeat_boot_ns)) in
      if now_boot_ns =? 0 then Ret sc_kNotApplicable
      else if negb (last_publish =? 0) && negb (elapsed_exceeds now_boot_ns last_publish interval)
      then Ret sc_kFresh
      else
      let stall_limit := saturating_mul_u64 interval kHeartbeatStallFactor in
      Ret (if (last_beat =? 0) || elapsed_exceeds now_boot_ns last_beat stall_limit
           then sc_kStalled else sc_kFresh)
  end.

Definition observer_generation (base : cloc -> chloc) : cprog Z :=
  shared_load_acquire (base (Head ch_generation)).
