(* ===== verification/ChannelProtocol.v ===== *)
(** The contract between the threads and processes that share a channel.

    The history variables are the log of all samples published so far, the threads
    that have taken the use flags of the producer handle and of the consumer
    handle, the position of the log at the last release of a slot by the consumer,
    the number of consumers that died and were replaced, and the sequence numbers
    each consumer handle has read. [cinv] ties them to the memory: the ticket names
    the last sample of the log, whose slot holds exactly that sample; at most one
    slot is being read, and it held a sample that was the latest after the last
    release; [crely t] says what the others leave alone while [t] has a use flag. *)
From S2P Require Import Prelude Errors Prog Concur Checksum ChannelLayout ChannelSegment SlotProtocol.

(** A published sample. Its sequence number is its position in the log, from 1. *)
Record sample : Type := mkSample {
  sp_slot : Z;
  sp_ns : Z;
  sp_bytes : list Z;
  sp_author : tid
}.

(** What the producer writes to a slot. *)
Record content : Type := mkContent {
  sl_size : Z;
  sl_seq : Z;
  sl_ns : Z;
  sl_sum : Z;
  sl_payload : list Z
}.

Record chghost : Type := mkChGhost {
  cg_log : list sample;
  cg_pown : option tid;
  cg_cown : option tid;
  cg_lo : Z;
  cg_inc : nat;
  cg_open : bool;
  cg_reads : nat -> list Z
}.

Abbreviation chst := (cst chloc chghost).

(** What a location is for the contract. *)
Inductive kind : Type :=
| kd_ticket | kd_state (k : Z) | kd_reader (k : Z) | kd_content (k : Z) | kd_puse
| kd_cuse (n : nat) | kd_last (n : nat) | kd_first (n : nat) | kd_epoch | kd_other.

#[global] Instance kind_eq_dec : EqDecision kind.
Proof. solve_decision. Defined.

Definition is_slot (k : Z) : Prop := 0 <= k < kSlotCount.

(** The role epoch of the [n]-th consumer. *)
Definition epoch_of (n : nat) : Z := 2 * (Z.of_nat n + 1).

Definition log_ticket (log : list sample) : Z :=
  match last log with
  | None => 0
  | Some e => make_ticket (Z.of_nat (length log)) (sp_slot e)
  end.

(** Sample number [q] of a log. *)
Definition entry (log : list sample) (q : Z) (e : sample) : Prop :=
  1 <= q /\ log !! Z.to_nat (q - 1) = Some e.

Lemma entry_len log q e : entry log q e -> 1 <= q <= Z.of_nat (length log).
Proof. intros [H1 H2]. apply lookup_lt_Some in H2. lia. Qed.

Definition last_read (reads : list Z) : Z := default 0 (last reads).

Lemma slot_offset_ok ps stride k :
  0 < ps <= kMaxPayloadSize -> slot_stride ps = Some stride -> is_slot k ->
  is_Some (slot_byte_offset k stride).
Proof.
  intros ps_ok Hst Hk. destruct (slot_stride_spec ps ps_ok) as (r & Hr & Hb).
  rewrite Hst in Hr. injection Hr as <-. unfold kMaxPayloadSize, kSlotHeaderSize, is_slot in *.
  rewrite slot_byte_offset_spec by lia. bdestr (k <? kSlotCount); [by eexists|lia].
Qed.

Section Protocol.
Context (dev ino ps : Z) (ph : nat) (inc : tid -> nat).

Definition kind_of (l : chloc) : kind :=
  match l with
  | Obj d i l' =>
      if decide (d = dev /\ i = ino) then
        match l' with
        | Head ch_latest_ticket => kd_ticket
        | SlotState k => kd_state k
        | SlotReader k => kd_reader k
        | SlotPayloadSize k | SlotSequence k | SlotPublishNs k | SlotChecksum k
        | SlotPayload k _ => kd_content k
        | Ident r_consumer id_role_epoch => kd_epoch
        | _ => kd_other
        end
      else kd_other
  | PHnd h hl_operation_in_use => if decide (h = ph) then kd_puse else kd_other
  | CHnd n hl_operation_in_use => kd_cuse n
  | CHnd n hl_last_sequence => kd_last n
  | CHnd n hl_first_sample_in_generation => kd_first n
  | _ => kd_other
  end.

(** * What the contract sees of the memory *)

Definition m_ticket (m : chloc -> Z) : Z := m (Obj dev ino (Head ch_latest_ticket)).
Definition m_state (m : chloc -> Z) (k : Z) : Z := m (Obj dev ino (SlotState k)).
Definition m_reader (m : chloc -> Z) (k : Z) : Z := m (Obj dev ino (SlotReader k)).
Definition m_payload (m : chloc -> Z) (k : Z) : list Z :=
  map (fun j => m (Obj dev ino (SlotPayload k j))) (seq 0 (Z.to_nat ps)).
Definition m_content (m : chloc -> Z) (k : Z) : content :=
  mkContent (m (Obj dev ino (SlotPayloadSize k))) (m (Obj dev ino (SlotSequence k)))
    (m (Obj dev ino (SlotPublishNs k))) (m (Obj dev ino (SlotChecksum k))) (m_payload m k).
Definition m_puse (m : chloc -> Z) : Z := m (PHnd ph hl_operation_in_use).
Definition m_cuse (m : chloc -> Z) (n : nat) : Z := m (CHnd n hl_operation_in_use).
Definition m_last (m : chloc -> Z) (n : nat) : Z := m (CHnd n hl_last_sequence).
Definition m_first (m : chloc -> Z) (n : nat) : Z := m (CHnd n hl_first_sample_in_generation).
Definition m_epoch (m : chloc -> Z) : Z := m (Obj dev ino (Ident r_consumer id_role_epoch)).

Definition tick (s : chst) : Z := m_ticket (c_mem s).
Definition st (s : chst) : Z -> Z := m_state (c_mem s).
Definition rd (s : chst) : Z -> Z := m_reader (c_mem s).
Definition ct (s : chst) : Z -> content := m_content (c_mem s).
Definition puse (s : chst) : Z := m_puse (c_mem s).
Definition cuse (s : chst) : nat -> Z := m_cuse (c_mem s).
Definition lst (s : chst) : nat -> Z := m_last (c_mem s).
Definition fst_ (s : chst) : nat -> Z := m_first (c_mem s).
Definition epo (s : chst) : Z := m_epoch (c_mem s).
Definition glog (s : chst) : list sample := cg_log (c_gh s).
Definition len (s : chst) : Z := Z.of_nat (length (glog s)).
Definition pown (s : chst) : option tid := cg_pown (c_gh s).
Definition cown (s : chst) : option tid := cg_cown (c_gh s).
Definition lo (s : chst) : Z := cg_lo (c_gh s).
Definition ginc (s : chst) : nat := cg_inc (c_gh s).
Definition gopen (s : chst) : bool := cg_open (c_gh s).
Definition reads (s : chst) : nat -> list Z := cg_reads (c_gh s).

Definition sample_content (e : sample) (q : Z) : content :=
  mkContent ps q (sp_ns e) (fnv1a64 (sp_bytes e)) (sp_bytes e).

(** * History *)

Definition cghost_step (t : tid) (l : chloc) (v : Z) (m : chloc -> Z) (g : chghost) : chghost :=
  match kind_of l with
  | kd_ticket =>
      let k := ticket_slot v in
      mkChGhost (cg_log g ++ [mkSample k (sl_ns (m_content m k)) (m_payload m k) t]) (cg_pown g)
        (cg_cown g) (cg_lo g) (cg_inc g) (cg_open g) (cg_reads g)
  | kd_state _ =>
      if (v =? ss_kPublished) && (ss_kReadingClaiming <=? m l) then
        mkChGhost (cg_log g) (cg_pown g) (cg_cown g) (Z.of_nat (length (cg_log g))) (cg_inc g)
          (cg_open g) (cg_reads g)
      else g
  | kd_puse =>
      mkChGhost (cg_log g) (if v =? 0 then None else Some t) (cg_cown g) (cg_lo g) (cg_inc g)
        (cg_open g) (cg_reads g)
  | kd_cuse n =>
      if decide (n = cg_inc g) then
        mkChGhost (cg_log g) (cg_pown g) (if v =? 0 then None else Some t) (cg_lo g) (cg_inc g)
          (cg_open g || (v =? 0)) (cg_reads g)
      else g
  | kd_last n =>
      if v =? 0 then g
      else
        mkChGhost (cg_log g) (cg_pown g) (cg_cown g) (cg_lo g) (cg_inc g) (cg_open g)
          (upd n (cg_reads g n ++ [v]) (cg_reads g))
  | _ => g
  end.

(** * Invariant *)

(** The ticket and the log. *)
Record inv_log (s : chst) : Prop := {
  i_len : len s <= kMaxSampleSequence;
  i_tick : tick s = log_ticket (glog s);
  i_log : Forall (fun e => is_slot (sp_slot e) /\ length (sp_bytes e) = Z.to_nat ps) (glog s);
  i_latest : forall e, last (glog s) = Some e ->
    2 <= st s (sp_slot e) /\ ct s (sp_slot e) = sample_content e (len s);
  i_seq : forall k, is_slot k -> 0 <= sl_seq (ct s k) <= kMaxSampleSequence
}.

(** The producer's flag and the slots being written. *)
Record inv_prod (s : chst) : Prop := {
  i_state : forall k, is_slot k -> 0 <= st s k <= 4;
  i_writing : forall k, is_slot k -> st s k = 1 -> is_Some (pown s);
  i_puse : puse s = 0 <-> pown s = None
}.

(** The consumer's flag and the slot being read. *)
Record inv_cons (s : chst) : Prop := {
  i_reading : forall k, is_slot k -> 3 <= st s k -> is_Some (cown s) /\
    exists q e, lo s <= q /\ entry (glog s) q e /\ sp_slot e = k;
  i_one : forall k k', is_slot k -> is_slot k' -> 3 <= st s k -> 3 <= st s k' -> k = k';
  i_cuse : forall n, cuse s n = 0 <-> n = ginc s /\ cown s = None;
  i_cown : forall t, cown s = Some t -> inc t = ginc s;
  i_lo : lo s <= len s
}.

(** The marks a consumer leaves for its successor. *)
Record inv_mark (s : chst) : Prop := {
  i_unmarked : forall k, is_slot k -> st s k <= 2 -> rd s k = 0;
  i_marked : gopen s = true -> forall k, is_slot k ->
    rd s k = 0 \/ rd s k = epoch_of (ginc s);
  i_epoch : gopen s = true -> epo s = epoch_of (ginc s)
}.

(** The read cursors. *)
Record inv_cursor (s : chst) : Prop := {
  i_cursor : cown s = None -> gopen s = true /\
    lst s (ginc s) = last_read (reads s (ginc s)) /\
    (fst_ s (ginc s) = 0 <-> reads s (ginc s) <> []);
  i_sorted : forall n i j a b, reads s n !! i = Some a -> reads s n !! j = Some b ->
    (i < j)%nat -> a < b;
  i_range : forall n q, q ∈ reads s n -> 1 <= q <= len s;
  i_future : forall n, (ginc s < n)%nat -> reads s n = []
}.

Record cinv (s : chst) : Prop := {
  inv_of_log : inv_log s;
  inv_of_prod : inv_prod s;
  inv_of_cons : inv_cons s;
  inv_of_mark : inv_mark s;
  inv_of_cursor : inv_cursor s
}.

(** * Rely *)

(** What the thread with the producer's flag finds unchanged. *)
Record keep_prod (t : tid) (s s' : chst) : Prop := {
  kp_own : pown s' = Some t;
  kp_log : glog s' = glog s;
  kp_content : forall k, is_slot k -> ct s' k = ct s k;
  kp_writing : forall k, is_slot k -> (st s' k = 1 <-> st s k = 1);
  kp_free : forall k, is_slot k -> st s k = 0 -> st s' k = 0;
  kp_published : forall k, is_slot k -> 2 <= st s k -> 2 <= st s' k;
  kp_reading : forall k, is_slot k -> 3 <= st s k -> 3 <= st s' k \/ len s <= lo s'
}.

(** What the thread with the consumer's flag finds unchanged. *)
Record keep_cons (t : tid) (s s' : chst) : Prop := {
  kc_own : cown s' = Some t;
  kc_lo : lo s' = lo s;
  kc_inc : ginc s' = ginc s;
  kc_open : gopen s' = gopen s;
  kc_reads : reads s' (ginc s) = reads s (ginc s);
  kc_last : lst s' (ginc s) = lst s (ginc s);
  kc_first : fst_ s' (ginc s) = fst_ s (ginc s);
  kc_epoch : epo s' = epo s;
  kc_reading : forall k, is_slot k -> (3 <= st s' k <-> 3 <= st s k);
  kc_held : forall k, is_slot k -> 3 <= st s k ->
    st s' k = st s k /\ ct s' k = ct s k /\ rd s' k = rd s k
}.

Record crely (t : tid) (s s' : chst) : Prop := {
  r_log : glog s `prefix_of` glog s';
  r_lo : lo s <= lo s';
  r_inc : (ginc s <= ginc s')%nat;
  r_reads : forall n, reads s n `prefix_of` reads s' n;
  r_prod : pown s = Some t -> keep_prod t s s';
  r_cons : cown s = Some t -> keep_cons t s s'
}.

Lemma keep_prod_refl t s : pown s = Some t -> keep_prod t s s.
Proof. by split; auto. Qed.
Lemma keep_cons_refl t s : cown s = Some t -> keep_cons t s s.
Proof. by split. Qed.

Lemma crely_refl t s : crely t s s.
Proof. split; auto using keep_prod_refl, keep_cons_refl with lia. Qed.

Lemma keep_prod_trans t s1 s2 s3 :
  lo s2 <= lo s3 -> keep_prod t s1 s2 -> keep_prod t s2 s3 -> keep_prod t s1 s3.
Proof.
  intros Hlo [O1 L1 C1 W1 F1 P1 R1] [O2 L2 C2 W2 F2 P2 R2]. split; [done|congruence|..].
  - intros k Hk. rewrite C2, C1 by done. done.
  - intros k Hk. rewrite W2, W1 by done. done.
  - intros k Hk H. auto.
  - intros k Hk H. auto.
  - intros k Hk H. destruct (R1 k Hk H) as [H'|H']; [|right; lia].
    destruct (R2 k Hk H') as [|H3]; [by left|right]. unfold len in *. rewrite L1 in H3. done.
Qed.

Lemma keep_cons_trans t s1 s2 s3 :
  keep_cons t s1 s2 -> keep_cons t s2 s3 -> keep_cons t s1 s3.
Proof.
  intros [O1 L1 I1 P1 R1 S1 F1 E1 G1 H1] [O2 L2 I2 P2 R2 S2 F2 E2 G2 H2].
  rewrite I1 in R2, S2, F2.
  split; try congruence; [intros k Hk; by rewrite G2, G1|].
  intros k Hk Hr. destruct (H1 k Hk Hr) as (? & ? & ?).
  destruct (H2 k Hk) as (? & ? & ?); [by apply G1|]. split; [congruence|split; congruence].
Qed.

Lemma crely_trans t s1 s2 s3 : crely t s1 s2 -> crely t s2 s3 -> crely t s1 s3.
Proof.
  intros [L1 O1 I1 R1 P1 C1] [L2 O2 I2 R2 P2 C2]. split; try lia.
  - by etrans.
  - intros n. by etrans; [apply R1|apply R2].
  - intros H. pose proof (P1 H) as K. eapply keep_prod_trans; [done..|]. apply P2, K.
  - intros H. pose proof (C1 H) as K. eapply keep_cons_trans; [done|]. apply C2, K.
Qed.

Definition channel_protocol : Protocol chloc chghost :=
  {| p_ghost := cghost_step; p_inv := cinv; p_rely := crely;
     p_rely_refl := crely_refl; p_rely_trans := crely_trans |}.
End Protocol.
