(* ===== verification/ChannelSteps.v ===== *)
(** The steps of the channel contract: one lemma for every kind of write the code
    makes, with what the writing thread has before and after it. *)
From S2P Require Import Prelude Errors Prog Concur Checksum ChannelLayout ChannelSegment SlotProtocol ChannelProtocol.

Section Steps.
Context (dev ino ps : Z) (ph : nat) (inc : tid -> nat).

Abbreviation kind_of := (kind_of dev ino ph).
Abbreviation tick := (tick dev ino).
Abbreviation st := (st dev ino).
Abbreviation rd := (rd dev ino).
Abbreviation ct := (ct dev ino ps).
Abbreviation puse := (puse ph).
Abbreviation epo := (epo dev ino).
Abbreviation cinv := (cinv dev ino ps ph inc).
Abbreviation crely := (crely dev ino ps).
Abbreviation keep_prod := (keep_prod dev ino ps).
Abbreviation keep_cons := (keep_cons dev ino ps).
Abbreviation sample_content := (sample_content ps).
#[local] Hint Extern 0 (Protocol chloc chghost) =>
  exact (channel_protocol dev ino ps ph inc) : typeclass_instances.

Implicit Types (s : chst) (t : tid) (l : chloc) (v : Z).

(** * Memory *)

Ltac mem_case :=
  let H := fresh "H" in let H' := fresh "H'" in
  case_decide as H; case_decide as H'; try done; exfalso;
  [subst; apply H'; simpl; rewrite ?decide_True by done; done
  |apply H; unfold ChannelProtocol.kind_of in H'; repeat case_match; simplify_eq/=; deex; by subst].

Lemma m_ticket_upd l v m :
  m_ticket dev ino (upd l v m) = if decide (kind_of l = kd_ticket) then v else m_ticket dev ino m.
Proof. unfold m_ticket, upd. mem_case. Qed.
Lemma m_state_upd l v m k :
  m_state dev ino (upd l v m) k =
  if decide (kind_of l = kd_state k) then v else m_state dev ino m k.
Proof. unfold m_state, upd. mem_case. Qed.
Lemma m_reader_upd l v m k :
  m_reader dev ino (upd l v m) k =
  if decide (kind_of l = kd_reader k) then v else m_reader dev ino m k.
Proof. unfold m_reader, upd. mem_case. Qed.
Lemma m_puse_upd l v m :
  m_puse ph (upd l v m) = if decide (kind_of l = kd_puse) then v else m_puse ph m.
Proof. unfold m_puse, upd. mem_case. Qed.
Lemma m_cuse_upd l v m n :
  m_cuse (upd l v m) n = if decide (kind_of l = kd_cuse n) then v else m_cuse m n.
Proof. unfold m_cuse, upd. mem_case. Qed.
Lemma m_last_upd l v m n :
  m_last (upd l v m) n = if decide (kind_of l = kd_last n) then v else m_last m n.
Proof. unfold m_last, upd. mem_case. Qed.
Lemma m_first_upd l v m n :
  m_first (upd l v m) n = if decide (kind_of l = kd_first n) then v else m_first m n.
Proof. unfold m_first, upd. mem_case. Qed.
Lemma m_epoch_upd l v m :
  m_epoch dev ino (upd l v m) = if decide (kind_of l = kd_epoch) then v else m_epoch dev ino m.
Proof. unfold m_epoch, upd. mem_case. Qed.

Lemma m_content_upd l v m k :
  kind_of l <> kd_content k -> m_content dev ino ps (upd l v m) k = m_content dev ino ps m k.
Proof.
  intros Hl. unfold m_content, m_payload.
  assert (forall l', kind_of l' = kd_content k -> upd l v m l' = m l') as Hne
    by (intros l' Hl'; rewrite upd_ne; congruence).
  rewrite !Hne by (simpl; by rewrite decide_True). f_equal.
  apply map_ext. intros j. apply Hne. simpl. by rewrite decide_True.
Qed.

(** * A write *)

Section Write.
Context t l v s.
Abbreviation s' := (write t l v s).

Lemma tick_write : tick s' = if decide (kind_of l = kd_ticket) then v else tick s.
Proof. apply m_ticket_upd. Qed.
Lemma st_write k : st s' k = if decide (kind_of l = kd_state k) then v else st s k.
Proof. apply m_state_upd. Qed.
Lemma rd_write k : rd s' k = if decide (kind_of l = kd_reader k) then v else rd s k.
Proof. apply m_reader_upd. Qed.
Lemma puse_write : puse s' = if decide (kind_of l = kd_puse) then v else puse s.
Proof. apply m_puse_upd. Qed.
Lemma cuse_write n : cuse s' n = if decide (kind_of l = kd_cuse n) then v else cuse s n.
Proof. apply m_cuse_upd. Qed.
Lemma lst_write n : lst s' n = if decide (kind_of l = kd_last n) then v else lst s n.
Proof. apply m_last_upd. Qed.
Lemma fst_write n : fst_ s' n = if decide (kind_of l = kd_first n) then v else fst_ s n.
Proof. apply m_first_upd. Qed.
Lemma epo_write : epo s' = if decide (kind_of l = kd_epoch) then v else epo s.
Proof. apply m_epoch_upd. Qed.
Lemma ct_write k : kind_of l <> kd_content k -> ct s' k = ct s k.
Proof. apply m_content_upd. Qed.
Lemma gh_write : c_gh s' = cghost_step dev ino ps ph t l v (c_mem s) (c_gh s).
Proof. done. Qed.
End Write.

(** * Frames *)

Lemma inv_log_frame s s' :
  glog s' = glog s -> tick s' = tick s -> (forall k, is_slot k -> ct s' k = ct s k) ->
  (forall k, is_slot k -> 2 <= st s k -> 2 <= st s' k) ->
  inv_log dev ino ps s -> inv_log dev ino ps s'.
Proof.
  intros Hl Ht Hc Hs [I1 I2 I3 I4 I5]. unfold len in *. split; unfold len; rewrite ?Hl; try done.
  - congruence.
  - intros e He. assert (is_slot (sp_slot e)) as Hk.
    { rewrite Forall_forall in I3. apply (I3 e). by apply last_Some_elem_of. }
    destruct (I4 e He). rewrite Hc by done. auto.
  - intros k Hk. rewrite Hc by done. auto.
Qed.

Lemma inv_prod_frame s s' :
  pown s' = pown s -> puse s' = puse s -> (forall k, is_slot k -> 0 <= st s' k <= 4) ->
  (forall k, is_slot k -> st s' k = 1 -> st s k = 1) ->
  inv_prod dev ino ph s -> inv_prod dev ino ph s'.
Proof. intros Ho Hu Hr Hw [I1 I2 I3]. split; rewrite ?Ho, ?Hu; eauto. Qed.

Lemma entry_prefix log log' q e : log `prefix_of` log' -> entry log q e -> entry log' q e.
Proof. intros Hp [Hq He]. split; [done|]. by eapply prefix_lookup. Qed.

Lemma inv_cons_frame s s' :
  cown s' = cown s -> ginc s' = ginc s -> (forall n, cuse s' n = cuse s n) -> lo s' = lo s ->
  glog s `prefix_of` glog s' -> (forall k, is_slot k -> 3 <= st s' k -> 3 <= st s k) ->
  inv_cons dev ino inc s -> inv_cons dev ino inc s'.
Proof.
  intros Ho Hi Hu Hlo Hp Hs [I1 I2 I3 I4 I5]. split; rewrite ?Ho, ?Hi, ?Hlo; try done.
  - intros k Hk H. destruct (I1 k Hk (Hs k Hk H)) as (? & q & e & ? & ? & ?).
    split; [done|]. exists q, e. eauto using entry_prefix.
  - intros k k' Hk Hk' H H'. eauto.
  - intros n. by rewrite Hu.
  - apply prefix_length in Hp. unfold len in *. lia.
Qed.

Lemma inv_mark_frame s s' :
  gopen s' = gopen s -> ginc s' = ginc s -> epo s' = epo s ->
  (forall k, is_slot k -> rd s' k = rd s k) ->
  (forall k, is_slot k -> st s' k <= 2 -> st s k <= 2) ->
  inv_mark dev ino s -> inv_mark dev ino s'.
Proof.
  intros Ho Hi He Hr Hs [I1 I2 I3]. split; rewrite ?Ho, ?Hi, ?He; try done.
  - intros k Hk H. rewrite Hr by done. auto.
  - intros H k Hk. rewrite Hr by done. auto.
Qed.

Lemma inv_cursor_frame s s' :
  (cown s' = None -> cown s = None) -> gopen s' = gopen s -> ginc s' = ginc s ->
  (forall n, reads s' n = reads s n) -> lst s' (ginc s) = lst s (ginc s) ->
  fst_ s' (ginc s) = fst_ s (ginc s) -> len s <= len s' -> inv_cursor s -> inv_cursor s'.
Proof.
  intros Ho Hop Hi Hr Hl Hf Hn [I1 I2 I3 I4]. split.
  - rewrite Hop, Hi, Hl, Hf, Hr. auto.
  - intros n i j a b. rewrite Hr. eauto.
  - intros n q. rewrite Hr. intros H. specialize (I3 n q H). lia.
  - intros n. rewrite Hi, Hr. auto.
Qed.

(** A step that leaves the log, the positions and the cursors alone. *)
Lemma crely_frame u s s' :
  glog s' = glog s -> lo s' = lo s -> ginc s' = ginc s -> (forall n, reads s' n = reads s n) ->
  (pown s = Some u -> keep_prod u s s') -> (cown s = Some u -> keep_cons u s s') ->
  crely u s s'.
Proof.
  intros Hl Ho Hi Hr Hp Hc. split; try done; rewrite ?Hl, ?Ho, ?Hi; try done. intros n. by rewrite Hr.
Qed.

(** Rewrite everything the contract sees of a written state, given the kind [K] of
    the location. *)
Ltac see K :=
  unfold len in *; unfold glog, pown, cown, lo, ginc, gopen, reads in *;
  rewrite ?gh_write in *; unfold cghost_step in *;
  repeat (rewrite ?tick_write, ?puse_write, ?epo_write, ?st_write, ?rd_write, ?cuse_write,
            ?lst_write, ?fst_write in *);
  rewrite ?K in *;
  repeat match goal with
  | |- context [decide (?a = ?b)] => rewrite (decide_False (P := (a = b))) by discriminate
  | H : context [decide (?a = ?b)] |- _ =>
      rewrite (decide_False (P := (a = b))) in H by discriminate
  end.

(** Prove a part of the invariant by its frame lemma. *)
Ltac frame lem I K := eapply lem; [..|exact I]; intros; see K; try first [done|lia].

Lemma step_other t l v s :
  kind_of l = kd_other -> cinv s ->
  guarantee t s (write t l v s) /\
  (forall u, crely u s (write t l v s)).
Proof.
  intros K Hi.
  assert (forall u, crely u s (write t l v s)) as Hr.
  { intros u. apply crely_frame; try (by see K); intros Hu; split; intros; see K; try done.
    - rewrite ct_write; congruence.
    - by left.
    - rewrite ct_write; [done|congruence]. }
  split; [|done]. split; [|intros u _; apply Hr]. destruct Hi as [I1 I2 I3 I4 I5]. split.
  - frame inv_log_frame I1 K. rewrite ct_write; congruence.
  - frame inv_prod_frame I2 K. by apply I2.
  - frame inv_cons_frame I3 K.
  - frame inv_mark_frame I4 K.
  - frame inv_cursor_frame I5 K.
Qed.

(** * What a thread has *)

(** [t] has the producer's flag, and [w] is the slot it writes. *)
Definition PO (t : tid) (w : option Z) (s : chst) : Prop :=
  pown s = Some t /\ forall k, is_slot k -> (st s k = 1 <-> w = Some k).

(** [t] has the consumer's flag, and [h] is the slot it reads. *)
Definition CO (t : tid) (h : option Z) (s : chst) : Prop :=
  cown s = Some t /\ forall k, is_slot k -> (3 <= st s k <-> h = Some k).

Lemma PO_rely t w s s' : PO t w s -> crely t s s' -> PO t w s'.
Proof.
  intros [Ho Hw] Hr. destruct (r_prod _ _ _ _ _ _ Hr Ho). split; [done|].
  intros k Hk. rewrite kp_writing by done. auto.
Qed.

Lemma CO_rely t h s s' : CO t h s -> crely t s s' -> CO t h s'.
Proof.
  intros [Ho Hw] Hr. destruct (r_cons _ _ _ _ _ _ Hr Ho). split; [done|].
  intros k Hk. rewrite kc_reading by done. auto.
Qed.

Lemma kind_state k : kind_of (Obj dev ino (SlotState k)) = kd_state k.
Proof. simpl. by rewrite decide_True. Qed.
Lemma kind_reader k : kind_of (Obj dev ino (SlotReader k)) = kd_reader k.
Proof. simpl. by rewrite decide_True. Qed.
Lemma kind_ticket : kind_of (Obj dev ino (Head ch_latest_ticket)) = kd_ticket.
Proof. simpl. by rewrite decide_True. Qed.
Lemma kind_puse : kind_of (PHnd ph hl_operation_in_use) = kd_puse.
Proof. simpl. by rewrite decide_True. Qed.

(** A step leaves alone what thread [u] has as the producer, or as the consumer;
    also for the thread that takes the step, when it has both flags. *)
Definition keepsP (u : tid) (s s' : chst) : Prop := pown s = Some u -> keep_prod u s s'.
Definition keepsC (u : tid) (s s' : chst) : Prop := cown s = Some u -> keep_cons u s s'.

(** ** The producer *)

(** The parts of the contract that a write by the producer leaves alone. *)
Ltac producer_frames K I1 I2 I3 I4 I5 :=
  split; [try (frame inv_log_frame I1 K; by apply ct_write)
         |try (frame inv_prod_frame I2 K; by apply I2)
         |try (frame inv_cons_frame I3 K)
         |try (frame inv_mark_frame I4 K)
         |try (frame inv_cursor_frame I5 K)].

Lemma step_pacquire t s :
  cinv s -> puse s = 0 ->
  let s' := write t (PHnd ph hl_operation_in_use) 1 s in
  guarantee t s s' /\ keepsC t s s' /\ PO t None s' /\ glog s' = glog s.
Proof.
  intros Hi Hu s'. subst s'. pose proof kind_puse as K. destruct Hi as [I1 I2 I3 I4 I5].
  assert (pown s = None) as Hp by (by apply (i_puse _ _ _ _ I2)).
  assert (forall u, keepsC u s (write t (PHnd ph hl_operation_in_use) 1 s)) as HC
    by (intros u Hu'; split; intros; see K; done).
  split; [split|split; [done|]].
  - producer_frames K I1 I2 I3 I4 I5. split; intros; see K; try done. by apply I2.
  - intros u Hne. apply crely_frame; try (by see K); [congruence|apply HC].
  - split; [|by see K]. split; [by see K|]. intros k Hk. see K. split; [|done]. intros H1.
    destruct (i_writing _ _ _ _ I2 k Hk H1) as [? ?]. unfold pown in *. congruence.
Qed.

Lemma step_prelease t s :
  cinv s -> PO t None s ->
  let s' := write t (PHnd ph hl_operation_in_use) 0 s in
  guarantee t s s' /\ keepsC t s s' /\ glog s' = glog s.
Proof.
  intros Hi [Hp Hw] s'. subst s'. pose proof kind_puse as K. destruct Hi as [I1 I2 I3 I4 I5].
  assert (forall u, keepsC u s (write t (PHnd ph hl_operation_in_use) 0 s)) as HC
    by (intros u Hu'; split; intros; see K; done).
  split; [|split; [done|by see K]]. split.
  - producer_frames K I1 I2 I3 I4 I5. split; intros; see K; try done; [by apply I2|].
    by apply Hw in H0.
  - intros u Hne. apply crely_frame; try (by see K); [congruence|apply HC].
Qed.
Lemma st_slot t k v s k' :
  st (write t (Obj dev ino (SlotState k)) v s) k' = if decide (k' = k) then v else st s k'.
Proof.
  rewrite st_write, kind_state. destruct (decide (k' = k)) as [->|Hne].
  - by rewrite decide_True.
  - rewrite decide_False; [done|]. congruence.
Qed.

(** The producer's thread claims a slot, publishes it or gives it up. *)
Lemma step_pstate t w k v s :
  cinv s -> PO t w s -> is_slot k -> st s k <= 2 -> 0 <= v <= 2 ->
  (forall e, last (glog s) = Some e -> sp_slot e = k -> 2 <= v) ->
  let s' := write t (Obj dev ino (SlotState k)) v s in
  guarantee t s s' /\ keepsC t s s' /\ c_gh s' = c_gh s /\ (forall k', ct s' k' = ct s k').
Proof.
  intros Hi [Hp Hw] Hk Hs Hv Hlatest s'. subst s'. pose proof (kind_state k) as K.
  assert (c_gh (write t (Obj dev ino (SlotState k)) v s) = c_gh s) as Hg.
  { rewrite gh_write. unfold cghost_step. rewrite K. change (c_mem s _) with (st s k).
    bdestr (ss_kReadingClaiming <=? st s k); [unfold ss_kReadingClaiming in *; lia|].
    by rewrite andb_false_r. }
  assert (forall k', ct (write t (Obj dev ino (SlotState k)) v s) k' = ct s k') as Hc
    by (intros k'; apply ct_write; congruence).
  assert (forall u, keepsC u s (write t (Obj dev ino (SlotState k)) v s)) as HC.
  { intros u Hu. split; unfold cown, lo, ginc, gopen, reads; rewrite ?Hg; try done;
      rewrite ?lst_write, ?fst_write, ?epo_write, ?K; try done.
    - intros k' Hk'. rewrite st_slot. case_decide; [subst; lia|done].
    - intros k' Hk' Hr. rewrite st_slot, Hc, rd_write, K. case_decide; [subst; lia|done]. }
  split; [|done]. destruct Hi as [I1 I2 I3 I4 I5]. split; [split|].
  - destruct I1 as [J1 J2 J3 J4 J5]. split; unfold len, glog in *; rewrite ?Hg; try done.
    + by rewrite tick_write, K.
    + intros e He. rewrite Hc, st_slot. destruct (J4 e He) as [? ?].
      split; [|congruence]. case_decide; [|done]. by apply (Hlatest e).
    + intros k' Hk'. rewrite Hc. auto.
  - split.
    + intros k' Hk'. rewrite st_slot. case_decide; [lia|by apply I2].
    + intros k' Hk' _. unfold pown in *. rewrite Hg. by exists t.
    + unfold pown. rewrite puse_write, K, Hg. cbn. apply I2.
  - eapply inv_cons_frame; [..|exact I3]; unfold cown, ginc, lo, glog; rewrite ?Hg; try done.
    intros k' Hk'. rewrite st_slot. case_decide; [lia|done].
  - eapply inv_mark_frame; [..|exact I4]; unfold gopen, ginc; rewrite ?Hg; try done.
    + by rewrite epo_write, K.
    + intros k' Hk'. by rewrite rd_write, K.
    + intros k' Hk'. rewrite st_slot. case_decide; [by subst|done].
  - eapply inv_cursor_frame; [..|exact I5]; unfold cown, gopen, ginc, reads, len, glog; rewrite ?Hg;
      try done; by rewrite ?lst_write, ?fst_write, ?K.
  - intros u Hne. apply crely_frame; unfold glog, lo, ginc, reads; rewrite ?Hg; try done.
    + intros Hu. unfold pown in *. congruence.
    + apply HC.
Qed.

(** The producer's thread writes to the slot it has claimed. *)
Lemma step_pcontent t k l v s :
  cinv s -> PO t (Some k) s -> is_slot k -> kind_of l = kd_content k ->
  0 <= sl_seq (ct (write t l v s) k) <= kMaxSampleSequence ->
  let s' := write t l v s in
  guarantee t s s' /\ keepsC t s s' /\ PO t (Some k) s' /\ c_gh s' = c_gh s.
Proof.
  intros Hi [Hp Hw] Hk K Hseq s'. subst s'.
  assert (st s k = 1) as Hst by (by apply Hw).
  assert (forall k', k' <> k -> ct (write t l v s) k' = ct s k') as Hc
    by (intros k' Hne; apply ct_write; congruence).
  assert (forall k', st (write t l v s) k' = st s k') as Hs by (intros; by see K).
  assert (forall u, keepsC u s (write t l v s)) as HC.
  { intros u Hu. split; try (by see K).
    - intros k' Hk'. by rewrite Hs.
    - intros k' Hk' Hr. rewrite Hs, Hc; [see K; done|]. intros ->. lia. }
  split; [|split; [done|split; [split; [by see K|intros k' Hk'; rewrite Hs; auto]|by see K]]].
  destruct Hi as [I1 I2 I3 I4 I5]. split; [split|].
  - destruct I1 as [J1 J2 J3 J4 J5]. split; try (see K; done).
    + intros e He. assert (last (glog s) = Some e) as He' by (see K; done).
      destruct (J4 e He') as [? Hce]. rewrite Hs. split; [done|].
      rewrite Hc; [see K; done|]. intros E. rewrite E in *. lia.
    + intros k' Hk'. destruct (decide (k' = k)) as [->|Hne]; [done|]. rewrite Hc; auto.
  - frame inv_prod_frame I2 K. by apply I2.
  - frame inv_cons_frame I3 K.
  - frame inv_mark_frame I4 K.
  - frame inv_cursor_frame I5 K.
  - intros u Hne. apply crely_frame; try (by see K); [intros Hu; see K; congruence|apply HC].
Qed.
Lemma keep_cons_eq u s s' :
  cown s = Some u -> cown s' = cown s -> lo s' = lo s -> ginc s' = ginc s ->
  gopen s' = gopen s -> (forall n, reads s' n = reads s n) -> (forall n, lst s' n = lst s n) ->
  (forall n, fst_ s' n = fst_ s n) -> epo s' = epo s -> (forall k, st s' k = st s k) ->
  (forall k, is_slot k -> 3 <= st s k -> ct s' k = ct s k) ->
  (forall k, rd s' k = rd s k) -> keep_cons u s s'.
Proof.
  intros H1 H2 H3 H4 H5 H6 H7 H8 H9 H10 H11 H12.
  split; auto; [congruence|intros k Hk; by rewrite H10].
Qed.

(** The producer's thread announces the sample in slot [k]. *)
Lemma step_ticket t k s :
  cinv s -> PO t None s -> is_slot k -> 2 <= st s k -> len s < kMaxSampleSequence ->
  (let c := ct s k in c = mkContent ps (len s + 1) (sl_ns c) (fnv1a64 (sl_payload c)) (sl_payload c)) ->
  let s' := write t (Obj dev ino (Head ch_latest_ticket)) (make_ticket (len s + 1) k) s in
  guarantee t s s' /\ keepsC t s s' /\ PO t None s' /\
  glog s' = glog s ++ [mkSample k (sl_ns (ct s k)) (sl_payload (ct s k)) t].
Proof.
  intros Hi [Hp Hw] Hk Hs Hlen Hct s'. subst s'. set (l := Obj dev ino (Head ch_latest_ticket)).
  set (v := make_ticket (len s + 1) k). pose proof kind_ticket as K. fold l in K.
  assert (ticket_slot v = k) as Hv
    by (apply ticket_slot_make; unfold is_slot, kSlotCount, len in *; lia).
  assert (glog (write t l v s) = glog s ++ [mkSample k (sl_ns (ct s k)) (sl_payload (ct s k)) t])
    as Hl by (unfold glog; rewrite gh_write; unfold cghost_step; rewrite K, Hv; done).
  assert (len (write t l v s) = len s + 1) as Hlen'
    by (unfold len; rewrite Hl, length_app; simpl; lia).
  assert (forall k', ct (write t l v s) k' = ct s k') as Hc by (intros k'; apply ct_write; congruence).
  assert (forall k', st (write t l v s) k' = st s k') as Hst by (intros k'; by rewrite st_write, K).
  assert (forall u, keepsC u s (write t l v s)) as HC
    by (intros u Hu; apply keep_cons_eq; intros; try done; by see K).
  split; [|split; [done|split; [split; [by see K|intros k' Hk'; rewrite Hst; auto]|done]]].
  destruct Hi as [I1 I2 I3 I4 I5]. split; [split|].
  - destruct I1 as [J1 J2 J3 J4 J5]. split; rewrite ?Hlen', ?Hl; try lia.
    + rewrite tick_write, K. cbn. unfold log_ticket. rewrite last_snoc, length_app. simpl.
      subst v. unfold len. f_equal. lia.
    + apply Forall_app. split; [done|]. apply Forall_singleton. split; [done|].
      cbn. unfold m_payload. by rewrite length_map, length_seq.
    + intros e. rewrite last_snoc. intros [= <-]. cbn [sp_slot]. rewrite Hst, Hc. done.
    + intros k' Hk'. rewrite Hc. auto.
  - frame inv_prod_frame I2 K. by apply I2.
  - eapply inv_cons_frame; [..|exact I3]; try (intros; see K; done).
    rewrite Hl. by apply prefix_app_r.
  - frame inv_mark_frame I4 K.
  - eapply inv_cursor_frame; [..|exact I5]; try (intros; see K; done). lia.
  - intros u Hne. split; try (see K; done).
    + rewrite Hl. by apply prefix_app_r.
    + intros Hu. congruence.
    + apply HC.
Qed.

(** ** The consumer *)

Lemma step_cacquire t s :
  cinv s -> cuse s (inc t) = 0 ->
  let s' := write t (CHnd (inc t) hl_operation_in_use) 1 s in
  guarantee t s s' /\ keepsP t s s' /\ CO t None s' /\ ginc s' = inc t /\ gopen s' = true /\
  reads s' (inc t) = reads s (inc t) /\ lst s' (inc t) = last_read (reads s (inc t)) /\
  (fst_ s' (inc t) = 0 <-> reads s (inc t) <> []) /\ glog s' = glog s.
Proof.
  intros Hi Hu s'. subst s'. set (n := inc t) in *. assert (kind_of (CHnd n hl_operation_in_use) = kd_cuse n) as K by done.
  destruct Hi as [I1 I2 I3 I4 I5].
  apply (i_cuse _ _ _ _ I3) in Hu as [Hn Ho]. destruct (i_cursor _ I5 Ho) as (Hop & Hl & Hf).
  assert (c_gh (write t (CHnd n hl_operation_in_use) 1 s) =
          mkChGhost (glog s) (pown s) (Some t) (lo s) (ginc s) (gopen s) (reads s)) as Hg.
  { rewrite gh_write. unfold cghost_step. rewrite K. rewrite decide_True by done. cbn.
    by rewrite orb_false_r. }
  assert (forall u, keepsP u s (write t (CHnd n hl_operation_in_use) 1 s)) as HP.
  { intros u Hu. split; intros; unfold pown, glog; rewrite ?Hg; try done. by left. }
  split; [split; [split|]|split; [done|]].
  - eapply inv_log_frame; [..|exact I1]; unfold glog; rewrite ?Hg; try done.
  - eapply inv_prod_frame; [..|exact I2]; unfold pown; rewrite ?Hg; try done. apply I2.
  - split; unfold cown, lo, len, glog, ginc; rewrite ?Hg; cbn [cg_cown cg_lo cg_log cg_inc].
    + intros k Hk Hr. destruct (i_reading _ _ _ _ I3 k Hk Hr) as [_ H]. split; [by exists t|done].
    + apply I3.
    + intros n'. rewrite cuse_write, K. destruct (decide (n' = n)) as [->|Hne].
      * rewrite decide_True by done. split; [done|]. by intros [_ ?].
      * rewrite decide_False by congruence. rewrite (i_cuse _ _ _ _ I3). split; [|by intros [_ ?]].
        intros [? _]. congruence.
    + intros t' [= <-]. done.
    + apply I3.
  - eapply inv_mark_frame; [..|exact I4]; unfold gopen, ginc; rewrite ?Hg; try done.
  - eapply inv_cursor_frame; [..|exact I5]; unfold cown, gopen, ginc, reads, len, glog; rewrite ?Hg;
      try done; by rewrite ?lst_write, ?fst_write, ?K.
  - intros u Hne. apply crely_frame; unfold glog, lo, ginc, reads; rewrite ?Hg; try done.
    + apply HP.
    + unfold cown in *. congruence.
  - rewrite lst_write, fst_write, K. unfold CO, cown, ginc, gopen, reads, glog. rewrite Hg.
    cbn [cg_cown cg_inc cg_open cg_reads cg_log]. split; [split; [done|]|].
    + intros k Hk. split; [|done]. intros Hr. rewrite st_write, K in Hr.
      destruct (i_reading _ _ _ _ I3 k Hk Hr) as [[? ?] _]. unfold cown in *. congruence.
    + rewrite <- Hn in *. done.
Qed.
Lemma keep_prod_eq u s s' :
  pown s = Some u -> pown s' = pown s -> glog s' = glog s ->
  (forall k, is_slot k -> ct s' k = ct s k) -> (forall k, is_slot k -> st s' k = st s k) ->
  keep_prod u s s'.
Proof.
  intros H1 H2 H3 H4 H5.
  split; auto; [congruence|..]; intros k Hk; rewrite ?H5 by done; try done. by left.
Qed.

(** The consumer's thread gives the flag back; the cursor is in order. *)
Lemma step_crelease t s :
  cinv s -> CO t None s -> epo s = epoch_of (ginc s) ->
  lst s (ginc s) = last_read (reads s (ginc s)) ->
  (fst_ s (ginc s) = 0 <-> reads s (ginc s) <> []) ->
  let s' := write t (CHnd (ginc s) hl_operation_in_use) 0 s in
  guarantee t s s' /\ keepsP t s s' /\ glog s' = glog s /\ ginc s' = ginc s /\
  forall n, reads s' n = reads s n.
Proof.
  intros Hi [Ho Hh] He Hl Hf s'. subst s'. set (n := ginc s) in *.
  assert (kind_of (CHnd n hl_operation_in_use) = kd_cuse n) as K by done.
  assert (c_gh (write t (CHnd n hl_operation_in_use) 0 s) =
          mkChGhost (glog s) (pown s) None (lo s) (ginc s) true (reads s)) as Hg.
  { rewrite gh_write. unfold cghost_step. rewrite K, decide_True by done. cbn.
    by rewrite orb_true_r. }
  destruct Hi as [I1 I2 I3 I4 I5].
  assert (forall u, keepsP u s (write t (CHnd n hl_operation_in_use) 0 s)) as HP.
  { intros u Hu. apply keep_prod_eq; unfold pown, glog; rewrite ?Hg; done. }
  split; [|split; [done|unfold glog, ginc, reads; by rewrite Hg]]. split; [split|].
  - eapply inv_log_frame; [..|exact I1]; unfold glog; rewrite ?Hg; try done.
  - eapply inv_prod_frame; [..|exact I2]; unfold pown; rewrite ?Hg; try done. apply I2.
  - split; unfold cown, lo, len, glog, ginc; rewrite ?Hg; cbn [cg_cown cg_lo cg_log cg_inc].
    + intros k Hk Hr. rewrite st_write, K in Hr. cbn in Hr. by apply Hh in Hr.
    + apply I3.
    + intros n'. rewrite cuse_write, K. destruct (decide (n' = n)) as [->|Hne].
      * by rewrite decide_True.
      * rewrite decide_False by congruence. rewrite (i_cuse _ _ _ _ I3). split; [|by intros [? _]].
        intros [? _]. by destruct Hne.
    + done.
    + apply I3.
  - split; unfold gopen, ginc; rewrite ?Hg; cbn [cg_open cg_inc].
    + apply I4.
    + intros _ k Hk. left. rewrite rd_write, K. cbn. apply (i_unmarked _ _ _ I4 k Hk).
      destruct (decide (3 <= st s k)) as [H|]; [by apply Hh in H|lia].
    + intros _. by rewrite epo_write, K.
  - split; unfold cown, gopen, ginc, reads, len, glog; rewrite ?Hg;
      cbn [cg_cown cg_open cg_inc cg_reads cg_log];
      [|apply I5..]. intros _. split; [done|]. by rewrite lst_write, fst_write, K.
  - intros u Hne. apply crely_frame; unfold glog, lo, ginc, reads; rewrite ?Hg; try done.
    + apply HP.
    + congruence.
Qed.

(** A write by the consumer's thread that changes no history and no slot the
    producer can see. *)
Lemma keepsP_consumer u s s' :
  c_gh s' = c_gh s -> (forall k, is_slot k -> ct s' k = ct s k) ->
  (forall k, is_slot k -> st s' k = st s k \/ 2 <= st s k /\ 3 <= st s' k) -> keepsP u s s'.
Proof.
  intros Hg Hc Hs Hu. split; unfold pown, len, glog, lo; rewrite ?Hg; try done;
    intros k Hk; destruct (Hs k Hk) as [->|[? ?]]; try lia; done.
Qed.

Lemma crely_consumer t u s s' :
  cown s = Some t -> u <> t -> c_gh s' = c_gh s -> keepsP u s s' -> crely u s s'.
Proof.
  intros Ho Hne Hg HP. apply crely_frame; unfold glog, lo, ginc, reads; rewrite ?Hg; try done.
  congruence.
Qed.

(** The consumer's thread claims a slot, or marks the one it has claimed. *)
Lemma step_cstate t h k v s :
  cinv s -> CO t h s -> is_slot k -> 3 <= v <= 4 ->
  h = Some k \/
    h = None /\ st s k = 2 /\ (exists q e, lo s <= q /\ entry (glog s) q e /\ sp_slot e = k) ->
  let s' := write t (Obj dev ino (SlotState k)) v s in
  guarantee t s s' /\ keepsP t s s' /\ CO t (Some k) s' /\ c_gh s' = c_gh s /\
  (forall k', ct s' k' = ct s k').
Proof.
  intros Hi [Ho Hh] Hk Hv Hcase s'. subst s'. pose proof (kind_state k) as K.
  assert (c_gh (write t (Obj dev ino (SlotState k)) v s) = c_gh s) as Hg.
  { rewrite gh_write. unfold cghost_step. rewrite K.
    bdestr (v =? ss_kPublished); [unfold ss_kPublished in *; lia|done]. }
  assert (forall k', ct (write t (Obj dev ino (SlotState k)) v s) k' = ct s k') as Hc
    by (intros k'; apply ct_write; congruence).
  assert (2 <= st s k) as H2.
  { destruct Hcase as [->|(_ & ? & _)]; [|lia]. assert (3 <= st s k) by (by apply Hh). lia. }
  assert (forall k', is_slot k' -> 3 <= st s k' -> k' = k) as Hothers.
  { intros k' Hk' Hr. apply Hh in Hr; [|done]. destruct Hcase as [->|(-> & _)]; congruence. }
  assert (forall u, keepsP u s (write t (Obj dev ino (SlotState k)) v s)) as HP.
  { intros u. apply keepsP_consumer; auto. intros k' Hk'. rewrite st_slot.
    case_decide; [subst; right; lia|by left]. }
  destruct Hi as [I1 I2 I3 I4 I5]. split; [split; [split|]|split; [done|]].
  - eapply inv_log_frame; [..|exact I1]; unfold glog; rewrite ?Hg; try done.
    + by rewrite tick_write, K.
    + intros k' Hk' H. rewrite st_slot. case_decide; lia.
  - eapply inv_prod_frame; [..|exact I2]; unfold pown; rewrite ?Hg; try done.
    + intros k' Hk'. rewrite st_slot. case_decide; [lia|by apply I2].
    + intros k' Hk'. rewrite st_slot. case_decide; [lia|done].
  - split; unfold cown, lo, len, glog, ginc; rewrite ?Hg; try apply I3.
    + intros k' Hk' Hr. rewrite st_slot in Hr. split; [by exists t|].
      destruct (decide (k' = k)) as [->|Hne]; [|by apply I3].
      destruct Hcase as [->|(_ & _ & H)]; [|done]. apply I3; [done|]. by apply Hh.
    + intros k1 k2 H1 H2'. rewrite !st_slot. repeat case_decide; intros; subst; try done.
      * symmetry. by apply Hothers.
      * by apply Hothers.
      * by apply I3.
  - eapply inv_mark_frame; [..|exact I4]; unfold gopen, ginc; rewrite ?Hg; try done.
    + by rewrite epo_write, K.
    + intros k' Hk'. by rewrite rd_write, K.
    + intros k' Hk'. rewrite st_slot. case_decide; [lia|done].
  - eapply inv_cursor_frame; [..|exact I5]; unfold cown, gopen, ginc, reads, len, glog; rewrite ?Hg;
      try done; by rewrite ?lst_write, ?fst_write, ?K.
  - intros u Hne. by eapply crely_consumer.
  - split; [|done]. split; [unfold cown in *; by rewrite Hg|]. intros k' Hk'. rewrite st_slot.
    case_decide; [subst; split; [done|lia]|]. split; [|congruence].
    intros Hr. apply Hothers in Hr; [done|done].
Qed.
(** The consumer's thread gives its slot back. *)
Lemma step_cslot_release t k s :
  cinv s -> CO t (Some k) s -> is_slot k -> rd s k = 0 ->
  let s' := write t (Obj dev ino (SlotState k)) ss_kPublished s in
  guarantee t s s' /\ keepsP t s s' /\ CO t None s' /\ glog s' = glog s /\ lo s' = len s /\
  ginc s' = ginc s /\ gopen s' = gopen s /\ (forall n, reads s' n = reads s n).
Proof.
  intros Hi [Ho Hh] Hk Hrd s'. subst s'. pose proof (kind_state k) as K.
  assert (3 <= st s k) as H3 by (by apply Hh).
  set (s' := write t (Obj dev ino (SlotState k)) ss_kPublished s).
  assert (c_gh s' = mkChGhost (glog s) (pown s) (cown s) (len s) (ginc s) (gopen s) (reads s))
    as Hg.
  { subst s'. rewrite gh_write. unfold cghost_step. rewrite K. change (c_mem s _) with (st s k).
    bdestr (ss_kReadingClaiming <=? st s k); [done|unfold ss_kReadingClaiming in *; lia]. }
  assert (forall k', ct s' k' = ct s k') as Hc by (intros k'; apply ct_write; congruence).
  assert (forall k', st s' k' = if decide (k' = k) then 2 else st s k') as Hst
    by (intros; apply st_slot).
  assert (forall k', is_slot k' -> ~ 3 <= st s' k') as Hnone.
  { intros k' Hk'. rewrite Hst. case_decide; [lia|]. intros Hr. apply Hh in Hr; [|done]. congruence. }
  assert (forall u, keepsP u s s') as HP.
  { intros u Hu. split; unfold pown, len, glog, lo; rewrite ?Hg; try done; intros k' Hk'.
    - rewrite Hst. case_decide; [subst|done]. split; [done|lia].
    - rewrite Hst. case_decide; [subst; lia|done].
    - rewrite Hst. case_decide; [lia|done].
    - by right. }
  destruct Hi as [I1 I2 I3 I4 I5]. split; [split; [split|]|split; [done|]].
  - eapply inv_log_frame; [..|exact I1]; unfold glog; rewrite ?Hg; try done.
    + subst s'. by rewrite tick_write, K.
    + intros k' Hk' H. rewrite Hst. case_decide; lia.
  - eapply inv_prod_frame; [..|exact I2]; unfold pown; rewrite ?Hg; try done.
    + intros k' Hk'. rewrite Hst. case_decide; [lia|by apply I2].
    + intros k' Hk'. rewrite Hst. case_decide; [lia|done].
  - split.
    + intros k' Hk' Hr. by apply Hnone in Hr.
    + intros k1 k2 H1 H2 Hr. by apply Hnone in Hr.
    + unfold ginc, cown. rewrite Hg. apply I3.
    + unfold ginc, cown. rewrite Hg. apply I3.
    + unfold lo, len, glog. rewrite Hg. done.
  - split; unfold gopen, ginc; rewrite ?Hg; cbn [cg_open cg_inc].
    + intros k' Hk'. subst s'. rewrite Hst, rd_write, K. cbn [decide]. case_decide; [by subst|].
      by apply I4.
    + intros H k' Hk'. subst s'. rewrite rd_write, K. by apply I4.
    + subst s'. rewrite epo_write, K. apply I4.
  - eapply inv_cursor_frame; [..|exact I5]; unfold cown, gopen, ginc, reads, len, glog; rewrite ?Hg;
      try done; subst s'; by rewrite ?lst_write, ?fst_write, ?K.
  - intros u Hne. split; unfold glog, lo, ginc, reads; rewrite ?Hg; try done.
    + apply I3.
    + apply HP.
    + unfold cown in *. congruence.
  - unfold glog, lo, ginc, gopen, reads. rewrite Hg. split; [|done].
    split; [unfold cown; by rewrite Hg|]. intros k' Hk'. split; [|done]. intros Hr.
    by apply Hnone in Hr.
Qed.

(** The consumer's thread writes its mark, its cursor or its role epoch. *)
Lemma step_creader t k v s :
  cinv s -> CO t (Some k) s -> is_slot k -> v = 0 \/ gopen s = true /\ v = epoch_of (ginc s) ->
  let s' := write t (Obj dev ino (SlotReader k)) v s in
  guarantee t s s' /\ keepsP t s s' /\ CO t (Some k) s' /\ c_gh s' = c_gh s.
Proof.
  intros Hi [Ho Hh] Hk Hv s'. subst s'. pose proof (kind_reader k) as K.
  assert (3 <= st s k) as H3 by (by apply Hh).
  assert (forall u, keepsP u s (write t (Obj dev ino (SlotReader k)) v s)) as HP.
  { intros u. apply keepsP_consumer; [by see K| |intros k' Hk'; left; by see K].
    intros k' Hk'. apply ct_write; congruence. }
  destruct Hi as [I1 I2 I3 I4 I5]. split; [split; [split|]|split].
  - frame inv_log_frame I1 K. apply ct_write; congruence.
  - frame inv_prod_frame I2 K. by apply I2.
  - frame inv_cons_frame I3 K.
  - split.
    + intros k' Hk' H. see K. case_decide; [simplify_eq; lia|by apply I4].
    + intros H k' Hk'. see K. case_decide; [|by apply I4]. destruct Hv as [->|[_ ->]]; auto.
    + see K. apply I4.
  - frame inv_cursor_frame I5 K.
  - intros u Hne. eapply crely_consumer; [done..|by see K|apply HP].
  - apply HP.
  - split; [split; [by see K|intros k' Hk'; see K; auto]|by see K].
Qed.

Lemma step_cfirst t h n v s :
  cinv s -> CO t h s -> ginc s = n ->
  let s' := write t (CHnd n hl_first_sample_in_generation) v s in
  guarantee t s s' /\ keepsP t s s' /\ CO t h s' /\ c_gh s' = c_gh s.
Proof.
  intros Hi [Ho Hh] Hn s'. subst s'. assert (kind_of (CHnd n hl_first_sample_in_generation) = kd_first n) as K by done.
  assert (forall u, keepsP u s (write t (CHnd n hl_first_sample_in_generation) v s)) as HP
    by (intros u; apply keepsP_consumer; [done..|by left]).
  destruct Hi as [I1 I2 I3 I4 I5]. split; [split; [split|]|split].
  - frame inv_log_frame I1 K.
  - frame inv_prod_frame I2 K. by apply I2.
  - frame inv_cons_frame I3 K.
  - frame inv_mark_frame I4 K.
  - split; unfold len; see K; try apply I5. unfold cown in Ho. congruence.
  - intros u Hne. eapply crely_consumer; [done..|by see K|apply HP].
  - apply HP.
  - split; [split; [by see K|intros k' Hk'; see K; auto]|by see K].
Qed.

Lemma step_cepoch t h v s :
  cinv s -> CO t h s -> gopen s = false ->
  let s' := write t (Obj dev ino (Ident r_consumer id_role_epoch)) v s in
  guarantee t s s' /\ keepsP t s s' /\ CO t h s' /\ c_gh s' = c_gh s.
Proof.
  intros Hi [Ho Hh] Hop s'. subst s'.
  assert (kind_of (Obj dev ino (Ident r_consumer id_role_epoch)) = kd_epoch) as K
    by (simpl; by rewrite decide_True).
  assert (forall u, keepsP u s (write t (Obj dev ino (Ident r_consumer id_role_epoch)) v s)) as HP.
  { intros u. apply keepsP_consumer; [by see K| |intros k' Hk'; left; by see K].
    intros k' Hk'. apply ct_write; congruence. }
  destruct Hi as [I1 I2 I3 I4 I5]. split; [split; [split|]|split].
  - frame inv_log_frame I1 K. apply ct_write; congruence.
  - frame inv_prod_frame I2 K. by apply I2.
  - frame inv_cons_frame I3 K.
  - split; [intros k Hk; see K; by apply I4|see K; congruence..].
  - frame inv_cursor_frame I5 K.
  - intros u Hne. eapply crely_consumer; [done..|by see K|apply HP].
  - apply HP.
  - split; [split; [by see K|intros k' Hk'; see K; auto]|by see K].
Qed.
Lemma last_read_max (l : list Z) i a :
  (forall i j a b, l !! i = Some a -> l !! j = Some b -> (i < j)%nat -> a < b) ->
  l !! i = Some a -> a <= last_read l.
Proof.
  intros Hs Hi. pose proof (lookup_lt_Some _ _ _ Hi) as Hlt. unfold last_read.
  rewrite last_lookup. destruct (l !! pred (length l)) as [b|] eqn:Hb.
  - simpl. destruct (decide (i = pred (length l))) as [->|Hne]; [rewrite Hi in Hb; simplify_eq; lia|].
    specialize (Hs i (pred (length l)) a b Hi Hb). lia.
  - apply lookup_ge_None in Hb. lia.
Qed.

Lemma sorted_snoc (l : list Z) v :
  (forall i j a b, l !! i = Some a -> l !! j = Some b -> (i < j)%nat -> a < b) ->
  last_read l < v ->
  forall i j a b, (l ++ [v]) !! i = Some a -> (l ++ [v]) !! j = Some b -> (i < j)%nat -> a < b.
Proof.
  intros Hs Hv i j a b Hi Hj Hij.
  apply lookup_app_Some in Hj as [Hj|[Hj1 Hj2]].
  - pose proof (lookup_lt_Some _ _ _ Hj). rewrite lookup_app_l in Hi by lia. eauto.
  - apply list_lookup_singleton_Some in Hj2 as [Hj2 ->].
    rewrite lookup_app_l in Hi by lia. pose proof (last_read_max _ _ _ Hs Hi). lia.
Qed.

Lemma step_clast t h n v s :
  cinv s -> CO t h s -> ginc s = n -> v = 0 \/ last_read (reads s n) < v /\ 1 <= v <= len s ->
  let s' := write t (CHnd n hl_last_sequence) v s in
  guarantee t s s' /\ keepsP t s s' /\ CO t h s' /\ glog s' = glog s /\ lo s' = lo s /\
  ginc s' = n /\ gopen s' = gopen s /\ reads s' n = (if v =? 0 then reads s n else reads s n ++ [v]).
Proof.
  intros Hi [Ho Hh] Hn Hv s'. subst s'. set (l := CHnd n hl_last_sequence).
  assert (kind_of l = kd_last n) as K by done. set (s' := write t l v s).
  assert (c_gh s' = mkChGhost (glog s) (pown s) (cown s) (lo s) (ginc s) (gopen s)
            (if v =? 0 then reads s else upd n (reads s n ++ [v]) (reads s))) as Hg.
  { subst s'. rewrite gh_write. unfold cghost_step. rewrite K.
    destruct (v =? 0); [by destruct s as [? []]|done]. }
  assert (forall n', reads s' n' = if decide (n' = n /\ v <> 0) then reads s n ++ [v] else reads s n')
    as Hrd.
  { intros n'. unfold reads. rewrite Hg. cbn [cg_reads]. unfold upd.
    bdestr (v =? 0); destruct (decide (n' = n /\ v <> 0)) as [[-> ?]|]; try done.
    - by rewrite decide_True.
    - rewrite decide_False; [done|tauto]. }
  assert (forall u, keepsP u s s') as HP
    by (intros u Hu; apply keep_prod_eq; unfold pown, glog; rewrite ?Hg; done).
  destruct Hi as [I1 I2 I3 I4 I5]. split; [split; [split|]|split; [done|]].
  - eapply inv_log_frame; [..|exact I1]; unfold glog; rewrite ?Hg; done.
  - eapply inv_prod_frame; [..|exact I2]; unfold pown; rewrite ?Hg; try done. apply I2.
  - eapply inv_cons_frame; [..|exact I3]; unfold cown, ginc, lo, glog; rewrite ?Hg; try done.
    intros n'. subst s'. by rewrite cuse_write, K.
  - eapply inv_mark_frame; [..|exact I4]; unfold gopen, ginc; rewrite ?Hg; done.
  - destruct I5 as [J1 J2 J3 J4]. assert (len s' = len s) as Hl by (unfold len, glog; by rewrite Hg).
    split.
    + unfold cown in *. rewrite Hg. cbn. congruence.
    + intros n'. rewrite Hrd. destruct (decide (n' = n /\ v <> 0)) as [[-> Hv0]|]; [|apply J2].
      apply sorted_snoc; [apply J2|lia].
    + intros n' q. rewrite Hrd, Hl. destruct (decide (n' = n /\ v <> 0)) as [[-> Hv0]|]; [|apply J3].
      rewrite elem_of_app, list_elem_of_singleton. intros [Hq| ->]; [by eapply J3|lia].
    + intros n'. rewrite Hrd. unfold ginc at 1. rewrite Hg. cbn. intros H.
      destruct (decide (n' = n /\ v <> 0)); [lia|auto].
  - intros u Hne. split; unfold glog, lo, ginc; rewrite ?Hg; try done.
    + intros n'. rewrite Hrd. destruct (decide (n' = n /\ v <> 0)) as [[-> _]|]; [|done].
      by apply prefix_app_r.
    + apply HP.
    + congruence.
  - unfold CO, glog, lo, ginc, gopen, cown. rewrite Hrd, Hg.
    cbn [cg_log cg_lo cg_inc cg_open cg_cown]. split; [done|]. repeat (split; [done|]).
    bdestr (v =? 0); destruct (decide (n = n /\ v <> 0)); try done; tauto.
Qed.
(** * What survives the steps of the other role *)

(** The history only grows. *)
Record mono (s s' : chst) : Prop := {
  mo_log : glog s `prefix_of` glog s';
  mo_lo : lo s <= lo s';
  mo_inc : (ginc s <= ginc s')%nat;
  mo_reads : forall n, reads s n `prefix_of` reads s' n
}.

Lemma crely_mono t s s' : crely t s s' -> mono s s'.
Proof. by intros []. Qed.
Lemma guarantee_mono t s s' : guarantee t s s' -> mono s s'.
Proof. intros [_ H]. apply (crely_mono (S t)), H. lia. Qed.
Lemma mono_len s s' : mono s s' -> len s <= len s'.
Proof. intros [H _ _ _]. apply prefix_length in H. unfold len. lia. Qed.

(** Kept by steps as the consumer, and by steps as the producer. *)
Definition stableP (t : tid) (F : chst -> Prop) : Prop :=
  forall s s', F s -> mono s s' -> keepsP t s s' -> F s'.
Definition stableC (t : tid) (F : chst -> Prop) : Prop :=
  forall s s', F s -> mono s s' -> keepsC t s s' -> F s'.

Lemma stableP_stable t F : stableP t F -> stable t F.
Proof. intros H s s' HF [] _. eapply H; [done|by split|done]. Qed.
Lemma stableC_stable t F : stableC t F -> stable t F.
Proof. intros H s s' HF [] _. eapply H; [done|by split|done]. Qed.

(** * The ticket *)

Lemma log_entry_last log e : last log = Some e -> entry log (Z.of_nat (length log)) e.
Proof.
  intros H. assert (log <> []) as Hne by (intros ->; done).
  destruct log as [|e0 log0]; [done|]. clear Hne. split; [simpl; lia|].
  rewrite last_lookup in H. rewrite <- H. f_equal. simpl. lia.
Qed.

Lemma tick_cases s :
  cinv s ->
  (tick s = 0 /\ glog s = []) \/
  exists e, last (glog s) = Some e /\ entry (glog s) (len s) e /\ is_slot (sp_slot e) /\
    ticket_sequence (tick s) = len s /\ ticket_slot (tick s) = sp_slot e /\ tick s <> 0 /\
    1 <= len s <= kMaxSampleSequence.
Proof.
  intros [[J1 J2 J3 J4 J5] _ _ _ _]. rewrite J2. unfold log_ticket.
  destruct (last (glog s)) as [e|] eqn:He; [right|left; by apply last_None in He].
  exists e. assert (is_slot (sp_slot e)) as Hk.
  { rewrite Forall_forall in J3. apply (J3 e). by apply last_Some_elem_of. }
  assert (1 <= len s) as H1.
  { unfold len. destruct (glog s); [done|simpl; lia]. }
  change (Z.of_nat (length (glog s))) with (len s).
  assert (0 <= sp_slot e < 4) by (unfold is_slot, kSlotCount in Hk; lia).
  rewrite ticket_sequence_make, ticket_slot_make by lia.
  repeat split; try done; try apply Hk; try lia; [by apply log_entry_last|].
  rewrite make_ticket_eq by lia. lia.
Qed.

(** The ticket names the sample in slot [k]. *)
Lemma tick_names s k :
  cinv s -> is_slot k -> 1 <= len s -> tick s = make_ticket (sl_seq (ct s k)) k ->
  exists e, entry (glog s) (len s) e /\ sp_slot e = k /\ ct s k = sample_content e (len s) /\
    sl_seq (ct s k) = len s /\ length (sp_bytes e) = Z.to_nat ps.
Proof.
  intros Hi Hk Hlen Ht. pose proof Hi as [[J1 J2 J3 J4 J5] _ _ _ _].
  destruct (tick_cases s Hi) as [[_ Hl]|(e & He & Hen & Hs & Hq & Hts & _ & _)].
  { unfold len in Hlen. rewrite Hl in Hlen. simpl in Hlen. lia. }
  exists e. specialize (J5 k Hk). assert (0 <= k < 4) by (unfold is_slot, kSlotCount in Hk; lia).
  rewrite Ht in Hq, Hts. rewrite ticket_sequence_make in Hq by done.
  rewrite ticket_slot_make in Hts by done. destruct (J4 e He) as [_ Hc].
  rewrite <- Hts in Hc. repeat split; try done; [apply Hen..|].
  rewrite Forall_forall in J3. apply (J3 e). by apply last_Some_elem_of.
Qed.
End Steps.
