(* ===== verification/ConsumerSafety.v ===== *)
(** The consumer's operations keep the channel contract.

    [C0 rs]: the thread has the consumer's flag and reads no slot; [CK k c rs]: it
    reads slot [k], which holds [c]. [rs] are the sequence numbers the handle has
    read. [F] is whatever else the thread knows that its steps as the consumer do
    not touch, among it that [n0] samples were published before the call. *)
From S2P Require Import Prelude Errors CheckedMath Prog Concur Checksum ProcIdentity ShmObject Clock.
From S2P Require Import ChannelLayout ChannelSegment SlotProtocol ChannelAbi Producer Consumer.
From S2P Require Import ChannelProtocol ChannelSteps.

Section ConsumerSafety.
Context (dev ino ps : Z) (ph : nat) (inc : tid -> nat).

Abbreviation tick := (tick dev ino).
Abbreviation st := (st dev ino).
Abbreviation rd := (rd dev ino).
Abbreviation ct := (ct dev ino ps).
Abbreviation cinv := (cinv dev ino ps ph inc).
Abbreviation crely := (crely dev ino ps).
Abbreviation CO := (CO dev ino).
Abbreviation sample_content := (sample_content ps).
#[local] Hint Extern 0 (Protocol chloc chghost) =>
  exact (channel_protocol dev ino ps ph inc) : typeclass_instances.

Context (t : tid) (h : ConsumerHandle).
Hypothesis h_id : cd_id h = inc t.
Hypothesis h_base : cd_base h = Obj dev ino.
Hypothesis h_ps : cd_payload_size h = ps.
Hypothesis h_epoch : cd_role_epoch h = epoch_of (inc t).
Hypothesis ps_ok : 0 < ps <= kMaxPayloadSize.

Context (F : chst -> Prop) (n0 : Z).
Hypothesis F_stable : stableP dev ino ps t F.
Hypothesis F_len : forall s, F s -> n0 <= len s.

Definition cursor (rs : list Z) (s : chst) : Prop :=
  ginc s = inc t /\ gopen s = true /\ reads s (inc t) = rs /\ lst s (inc t) = last_read rs /\
  (fst_ s (inc t) = 0 <-> rs <> []).

Definition C0 (rs : list Z) (s : chst) : Prop := CO t None s /\ cursor rs s /\ F s.
Definition CK (k : Z) (c : content) (rs : list Z) (s : chst) : Prop :=
  CO t (Some k) s /\ cursor rs s /\ is_slot k /\ ct s k = c /\ F s.

Lemma cursor_rely rs s s' : cown s = Some t -> cursor rs s -> crely t s s' -> cursor rs s'.
Proof.
  intros Ho (H1 & H2 & H3 & H4 & H5) Hr. destruct (r_cons _ _ _ _ _ _ Hr Ho).
  unfold cursor. rewrite H1 in *. rewrite kc_inc, kc_open, kc_reads, kc_last, kc_first. done.
Qed.

Lemma F_rely s s' : F s -> crely t s s' -> F s'.
Proof. intros HF [? ? ? ? ? ?]. by eapply F_stable. Qed.

Ltac as_rely H := match type of H with p_rely ?t ?a ?b => change (crely t a b) in H end.

Lemma C0_stable rs : stable t (C0 rs).
Proof.
  intros s s' (H1 & H2 & H3) Hr _. as_rely Hr. split; [by eapply CO_rely|].
  split; [eapply cursor_rely; [apply H1|done..]|by eapply F_rely].
Qed.

Lemma CK_stable k c rs : stable t (CK k c rs).
Proof.
  intros s s' (H1 & H2 & Hk & H3 & H4) Hr _. as_rely Hr. split; [by eapply CO_rely|].
  split; [eapply cursor_rely; [apply H1|done..]|]. split; [done|].
  split; [|by eapply F_rely]. destruct H1 as [Ho Hh].
  destruct (r_cons _ _ _ _ _ _ Hr Ho). destruct (kc_held k Hk) as (_ & Hc & _); [by apply Hh|].
  congruence.
Qed.

(** Facts about the log. *)
Lemma entry_stable q e : stable t (fun s => entry (glog s) q e).
Proof. intros s s' H Hr _. as_rely Hr. eapply entry_prefix; [apply Hr|done]. Qed.

(** A sample that was the latest after the last release. *)
Definition seen_ticket (rs : list Z) (q : Z) (e : sample) (s : chst) : Prop :=
  C0 rs s /\ lo s <= q /\ entry (glog s) q e.
Lemma seen_ticket_stable rs q e : stable t (seen_ticket rs q e).
Proof.
  intros s s' (H1 & H2 & H3) Hr Hi. as_rely Hr. split; [by eapply C0_stable|].
  split; [|by eapply entry_stable]. destruct H1 as [[Ho _] _].
  destruct (r_cons _ _ _ _ _ _ Hr Ho). by rewrite kc_lo.
Qed.

Lemma held_stable k rs : stable t (fun s => exists c, CK k c rs s).
Proof. intros s s' [c H] Hr Hi. as_rely Hr. exists c. by eapply CK_stable. Qed.

(** * Steps *)

Lemma cursor_gh rs s s' :
  c_gh s' = c_gh s -> lst s' (inc t) = lst s (inc t) -> fst_ s' (inc t) = fst_ s (inc t) ->
  cursor rs s -> cursor rs s'.
Proof. intros Hg Hl Hf. unfold cursor, ginc, gopen, reads. by rewrite Hg, Hl, Hf. Qed.

Lemma F_step s s' : F s -> guarantee t s s' -> keepsP dev ino ps t s s' -> F s'.
Proof. intros HF Hg Hk. eapply F_stable; [done|by eapply guarantee_mono|done]. Qed.

Lemma claim_step rs q e s :
  cinv s -> seen_ticket rs q e s -> is_slot (sp_slot e) -> st s (sp_slot e) = 2 ->
  let s' := write t (Obj dev ino (SlotState (sp_slot e))) ss_kReadingClaiming s in
  guarantee t s s' /\ exists c, CK (sp_slot e) c rs s'.
Proof.
  intros Hi ((Hco & Hcu & HF) & Hlo & Hen) Hk Hs s'.
  destruct (step_cstate dev ino ps ph inc t None (sp_slot e) ss_kReadingClaiming s Hi Hco Hk
    ltac:(unfold ss_kReadingClaiming; lia)) as (Hg & HP & Hco' & Hgh & Hct).
  { right. split; [done|]. split; [done|]. by exists q, e. }
  split; [done|]. exists (ct s' (sp_slot e)). split; [done|].
  split; [eapply cursor_gh; [done..|exact Hcu]|]. split; [done|]. split; [done|]. by eapply F_step.
Qed.

Lemma mark_step k c rs s :
  cinv s -> CK k c rs s ->
  let s' := write t (Obj dev ino (SlotReader k)) (epoch_of (inc t)) s in
  guarantee t s s' /\ CK k c rs s'.
Proof.
  intros Hi (Hco & Hcu & Hk & Hc & HF) s'. pose proof Hcu as (Hn & Hop & _).
  destruct (step_creader dev ino ps ph inc t k (epoch_of (inc t)) s Hi Hco Hk) as (Hg & HP & Hco' & Hgh).
  { right. by rewrite Hn. }
  split; [done|]. split; [done|]. split; [eapply cursor_gh; [done..|exact Hcu]|].
  split; [done|]. split; [|by eapply F_step]. rewrite <- Hc. apply ct_write. simpl.
  by rewrite decide_True.
Qed.

Lemma reading_step k c rs s :
  cinv s -> CK k c rs s ->
  let s' := write t (Obj dev ino (SlotState k)) ss_kReading s in
  guarantee t s s' /\ CK k c rs s'.
Proof.
  intros Hi (Hco & Hcu & Hk & Hc & HF) s'.
  destruct (step_cstate dev ino ps ph inc t (Some k) k ss_kReading s Hi Hco Hk
    ltac:(unfold ss_kReading; lia) ltac:(by left)) as (Hg & HP & Hco' & Hgh & Hct).
  split; [done|]. split; [done|]. split; [eapply cursor_gh; [done..|exact Hcu]|].
  split; [done|]. split; [|by eapply F_step]. subst s'. by rewrite Hct.
Qed.

(** The mark is cleared, the slot still held. *)
Definition CZ (k : Z) (rs : list Z) (s : chst) : Prop :=
  (exists c, CK k c rs s) /\ rd s k = 0.
Lemma CZ_stable k rs : stable t (CZ k rs).
Proof.
  intros s s' [H1 H2] Hr Hi. as_rely Hr. split; [by eapply held_stable|]. destruct H1 as [c ([Ho Hh] & _ & Hk & _)].
  destruct (r_cons _ _ _ _ _ _ Hr Ho). destruct (kc_held k Hk) as (_ & _ & Hrd); [by apply Hh|].
  congruence.
Qed.

Lemma unmark_step k c rs s :
  cinv s -> CK k c rs s ->
  let s' := write t (Obj dev ino (SlotReader k)) 0 s in guarantee t s s' /\ CZ k rs s'.
Proof.
  intros Hi (Hco & Hcu & Hk & Hc & HF) s'.
  destruct (step_creader dev ino ps ph inc t k 0 s Hi Hco Hk ltac:(by left)) as (Hg & HP & Hco' & Hgh).
  split; [done|]. split; [|subst s'; by rewrite (rd_write dev ino ps ph inc), kind_reader, decide_True].
  exists (ct s' k). split; [done|]. split; [eapply cursor_gh; [done..|exact Hcu]|].
  split; [done|]. split; [done|by eapply F_step].
Qed.

Lemma release_step k rs s :
  cinv s -> CZ k rs s ->
  let s' := write t (Obj dev ino (SlotState k)) ss_kPublished s in guarantee t s s' /\ C0 rs s'.
Proof.
  intros Hi [[c (Hco & Hcu & Hk & Hc & HF)] Hz] s'.
  destruct (step_cslot_release dev ino ps ph inc t k s Hi Hco Hk Hz)
    as (Hg & HP & Hco' & Hl & Hlo & Hn & Hop & Hr).
  split; [done|]. split; [done|]. split; [|by eapply F_step]. destruct Hcu as (H1 & H2 & H3 & H4 & H5).
  subst s'. unfold cursor. rewrite Hn, Hop, Hr, (lst_write dev ino ps ph inc), (fst_write dev ino ps ph inc), kind_state. done.
Qed.
(** The cursor after its first store. *)
Definition CL (k : Z) (c : content) (rs : list Z) (q : Z) (s : chst) : Prop :=
  CO t (Some k) s /\ is_slot k /\ ct s k = c /\ F s /\ ginc s = inc t /\ gopen s = true /\
  reads s (inc t) = rs ++ [q] /\ lst s (inc t) = q.
Lemma CL_stable k c rs q : stable t (CL k c rs q).
Proof.
  intros s s' (H1 & Hk & Hc & HF & Hn & Hop & Hrs & Hl) Hr _. as_rely Hr.
  split; [by eapply CO_rely|]. split; [done|]. destruct H1 as [Ho Hh].
  pose proof (F_rely _ _ HF Hr) as HF'.
  destruct (r_cons _ _ _ _ _ _ Hr Ho). destruct (kc_held k Hk) as (_ & Hct & _); [by apply Hh|].
  rewrite Hn in *. repeat split; congruence || done.
Qed.

Lemma last_step k c rs q s :
  cinv s -> CK k c rs s -> last_read rs < q -> 1 <= q <= len s ->
  let s' := write t (CHnd (inc t) hl_last_sequence) q s in guarantee t s s' /\ CL k c rs q s'.
Proof.
  intros Hi (Hco & (Hn & Hop & Hrs & Hl & Hf) & Hk & Hc & HF) Hlt Hq s'.
  destruct (step_clast dev ino ps ph inc t (Some k) (inc t) q s Hi Hco Hn)
    as (Hg & HP & Hco' & Hgl & Hlo & Hn' & Hop' & Hr').
  { right. rewrite Hrs. split; [done|lia]. }
  split; [done|]. split; [done|]. split; [done|].
  split; [rewrite <- Hc; by apply ct_write|]. split; [by eapply F_step|]. split; [done|].
  subst s'. split; [congruence|]. rewrite Hr', Hrs. bdestr (q =? 0); [lia|]. split; [done|].
  rewrite (lst_write dev ino ps ph inc). simpl. by rewrite decide_True.
Qed.

Lemma first_step k c rs q s :
  cinv s -> CL k c rs q s ->
  let s' := write t (CHnd (inc t) hl_first_sample_in_generation) 0 s in
  guarantee t s s' /\ CK k c (rs ++ [q]) s'.
Proof.
  intros Hi (Hco & Hk & Hc & HF & Hn & Hop & Hrs & Hl) s'.
  destruct (step_cfirst dev ino ps ph inc t (Some k) (inc t) 0 s Hi Hco Hn) as (Hg & HP & Hco' & Hgh).
  split; [done|]. split; [done|]. split; [|split; [done|split; [rewrite <- Hc; by apply ct_write|by eapply F_step]]].
  subst s'. unfold cursor, ginc, gopen, reads, last_read in *. rewrite Hgh, Hrs, last_snoc.
  rewrite (lst_write dev ino ps ph inc), (fst_write dev ino ps ph inc). simpl.
  rewrite decide_True by done. repeat split; try done. intros _. by destruct rs.
Qed.

(** * Programs *)

Lemma wp_consumer_release_read {A} k c rs (f : unit -> cprog A) Q s :
  CK k c rs s -> (forall s', cinv s' -> C0 rs s' -> wp t (f tt) Q s') ->
  wp t (bind (slot_release_read (Obj dev ino) k) f) Q s.
Proof.
  intros Hs Hf. eapply wp_seq with (Q1 := fun _ => C0 rs); [|intros [] s' Hi; by apply Hf].
  unfold slot_release_read, shared_store_relaxed, shared_store_release.
  eapply (wp_bind_store _ _ _ _ (CK k c rs) (CZ k rs)); [apply CK_stable|apply CZ_stable|done|..].
  - intros s' Hi H. by eapply unmark_step.
  - intros s' Hi H. eapply (wp_trigger_store _ _ _ (CZ k rs)); [apply CZ_stable|apply C0_stable|done|].
    intros s2 Hi2 H2. by apply release_step.
Qed.

(** The slot is held and at least [n] samples were published. *)
Definition CN (k : Z) (c : content) (rs : list Z) (n : Z) (s : chst) : Prop :=
  CK k c rs s /\ n <= len s.
Lemma CN_stable k c rs n : stable t (CN k c rs n).
Proof.
  apply stable_and; [apply CK_stable|]. intros s1 s2 H1 Hr _. as_rely Hr.
  apply crely_mono, mono_len in Hr. lia.
Qed.
Lemma CN_step k c c' rs rs' n s s' :
  CN k c rs n s -> guarantee t s s' -> CK k c' rs' s' -> CN k c' rs' n s'.
Proof. intros [_ Hn] Hg H. split; [done|]. apply guarantee_mono, mono_len in Hg. lia. Qed.

Lemma wp_mark_reading {A} k c rs n (f : unit -> cprog A) Q s :
  CN k c rs n s -> (forall s', cinv s' -> CN k c rs n s' -> wp t (f tt) Q s') ->
  wp t (bind (slot_mark_reading (Obj dev ino) k (cd_role_epoch h)) f) Q s.
Proof.
  intros Hs Hf. eapply wp_seq with (Q1 := fun _ => CN k c rs n); [|intros [] s' Hi; by apply Hf].
  unfold slot_mark_reading, shared_store_relaxed, shared_store_release. rewrite h_epoch.
  eapply (wp_bind_store _ _ _ _ (CN k c rs n) (CN k c rs n)); [apply CN_stable|apply CN_stable|done|..].
  - intros s' Hi H. destruct (mark_step k c rs s' Hi (proj1 H)) as [Hg H'].
    split; [done|]. by eapply CN_step.
  - intros s' Hi H.
    eapply (wp_trigger_store _ _ _ (CN k c rs n)); [apply CN_stable|apply CN_stable|done|].
    intros s2 Hi2 H2. destruct (reading_step k c rs s2 Hi2 (proj1 H2)) as [Hg H'].
    split; [done|]. by eapply CN_step.
Qed.

(** What [missed_samples] counts. *)
Definition gap (rs : list Z) (q : Z) : Z := if decide (rs = []) then 0 else q - last_read rs - 1.

(** A claimed sample: it is in the log, its slot is held with its content, and the
    cursor has moved to it. *)
Definition claimed (rs : list Z) (cr : ClaimedRead) (e : sample) (s : chst) : Prop :=
  let snap := cr_snapshot cr in
  let q := rs_sample_sequence snap in
  CK (cr_slot cr) (sample_content e q) (rs ++ [q]) s /\ entry (glog s) q e /\
  length (sp_bytes e) = Z.to_nat ps /\ cr_payload cr = cr_slot cr /\
  last_read rs < q /\ n0 <= q /\ rs_encoded_size snap = ps /\ rs_checksum_ok snap = true /\
  rs_publish_boot_ns snap = sp_ns e /\ rs_missed_samples snap = gap rs q /\
  rs_generation snap = cd_generation h.

Definition read_failed (rs : list Z) (e : Error) (s : chst) : Prop :=
  C0 rs s /\
  (err_code e = kNoNewSample /\ n0 <= last_read rs \/ err_code e = kReadContention \/
   err_code e = kClockAnomaly).

Definition claim_post (rs : list Z) (r : Result ClaimedRead) (s : chst) : Prop :=
  match r with Ok cr => exists e, claimed rs cr e s | Err e => read_failed rs e s end.

Lemma last_read_nonneg rs s : cinv s -> cursor rs s -> 0 <= last_read rs.
Proof.
  intros [_ _ _ _ I5] (_ & _ & Hrs & _ & _). unfold last_read.
  destruct (last rs) as [a|] eqn:Ha; simpl; [|done].
  assert (1 <= a <= len s); [|lia].
  apply (i_range _ I5 (inc t)). rewrite Hrs. by apply last_Some_elem_of.
Qed.

Lemma gap_spec rs v q :
  (v = 0 <-> rs <> []) -> 0 <= last_read rs -> last_read rs < q <= kMaxSampleSequence ->
  (if negb (v =? 0) then 0 else saturated_gap (last_read rs) q) = gap rs q.
Proof.
  intros Hf Hl Hq. unfold gap. assert (kMaxSampleSequence < UINT64_MAX) by by vm_compute.
  bdestr (v =? 0); cbn [negb].
  - apply Hf in E. rewrite decide_False by done. rewrite saturated_gap_spec by mlia. lia.
  - destruct (decide (rs = [])) as [|Hne]; [done|]. by apply Hf in Hne.
Qed.

Lemma payload_locs_load k c s :
  ct s k = c -> map (c_mem s) (payload_locs (Obj dev ino) ps k) = sl_payload c.
Proof.
  intros <-. unfold payload_locs, slot_payload_locs. rewrite !map_map. done.
Qed.
(** The slot is held and holds sample [q] of the log. *)
Definition holding (k q : Z) (e : sample) (rs : list Z) (s : chst) : Prop :=
  CK k (sample_content e q) rs s /\ entry (glog s) q e.
Lemma holding_stable k q e rs : stable t (holding k q e rs).
Proof. apply stable_and; [apply CK_stable|apply entry_stable]. Qed.

Lemma holding_mem k q e rs s :
  holding k q e rs s ->
  c_mem s (Obj dev ino (SlotPayloadSize k)) = ps /\ c_mem s (Obj dev ino (SlotSequence k)) = q /\
  c_mem s (Obj dev ino (SlotPublishNs k)) = sp_ns e /\
  c_mem s (Obj dev ino (SlotChecksum k)) = fnv1a64 (sp_bytes e).
Proof. intros [(_ & _ & _ & Hc & _) _]. by injection Hc. Qed.

(** The end of a read: the two cursor stores and the counter. *)
Lemma wp_advance_cursor {A} rs k q e (r : A) (Q : A -> chst -> Prop) s :
  holding k q e rs s -> last_read rs < q ->
  (forall s', cinv s' -> holding k q e (rs ++ [q]) s' -> Q r s') ->
  wp t (do! plain_store (CHnd (inc t) hl_last_sequence) q;
        do! plain_store (CHnd (inc t) hl_first_sample_in_generation) 0;
        let! _ := shared_fetch_add_relaxed_u64 (Obj dev ino (Head ch_read_count)) 1 in Ret r) Q s.
Proof.
  intros Hs Hlt HQ. set (R := fun s => CL k (sample_content e q) rs q s /\ entry (glog s) q e).
  assert (stable t R) as HR by (apply stable_and; [apply CL_stable|apply entry_stable]).
  eapply (wp_bind_store _ _ _ _ (holding k q e rs) R); [apply holding_stable|done|done|..].
  { intros s' Hi' [Hck Hen]. pose proof (entry_len _ _ _ Hen).
    destruct (last_step k _ rs q s' Hi' Hck Hlt) as [Hg HL]; [unfold len; lia|].
    split; [done|]. split; [done|]. eapply entry_prefix; [|done]. by eapply guarantee_mono. }
  clear dependent s. intros s Hi Hs.
  eapply (wp_bind_store _ _ _ _ R (holding k q e (rs ++ [q]))); [done|apply holding_stable|done|..].
  { intros s' Hi' [Hcl Hen]. destruct (first_step k _ rs q s' Hi' Hcl) as [Hg HL].
    split; [done|]. split; [done|]. eapply entry_prefix; [|done]. by eapply guarantee_mono. }
  clear dependent s. intros s Hi Hs.
  eapply (wp_bind_fetch_add _ _ _ _ _ (holding k q e (rs ++ [q])) (holding k q e (rs ++ [q])));
    [apply holding_stable|apply holding_stable|done|..].
  { intros s' Hi' H'. edestruct (step_other dev ino ps ph inc t (Obj dev ino (Head ch_read_count)))
      as [Hg Hr]; [simpl; by rewrite decide_True|done|]. split; [exact Hg|].
    eapply holding_stable; [done|apply Hr|apply Hg]. }
  intros x s' Hi' H'. eapply wp_ret; [apply holding_stable|done|done].
Qed.

Lemma wp_consumer_read_claimed op rs k q e s :
  holding k q e rs s -> length (sp_bytes e) = Z.to_nat ps -> last_read rs < q ->
  n0 <= q <= kMaxSampleSequence -> wp t (read_claimed_slot h op k) (claim_post rs) s.
Proof.
  intros Hs Hb Hlt Hn. unfold read_claimed_slot, plain_load, plain_store. rewrite h_base, h_ps, h_id.
  pose proof (holding_stable k q e rs) as HR.
  do 4 (eapply (wp_bind_known _ _ _ _ _ _ _ HR);
    [eassumption|intros s' _ H'; apply holding_mem in H'; apply H'|clear dependent s; intros s Hi Hs]).
  rewrite Z.eqb_refl. cbn [negb].
  eapply (wp_readonly_bind _ _ _ _ _ _ (boottime_now_readonly) HR); [eassumption|].
  clear dependent s. intros now s Hi Hs. destruct (now =? 0).
  { eapply wp_consumer_release_read; [apply Hs|]. intros s' Hi' H'. eapply wp_ret; [apply C0_stable|done|].
    intros s2 _ H2. split; [done|auto]. }
  eapply (wp_bind_load_list _ _ _ _ _ _ _ HR); [eassumption| |].
  { intros s' _ [(_ & _ & _ & Hc & _) _]. by apply payload_locs_load. }
  clear dependent s. intros s Hi Hs. cbn [ChannelProtocol.sample_content sl_payload].
  rewrite Z.eqb_refl. cbn [negb].
  eapply (wp_bind_load _ _ _ _ (fun v s' => holding k q e rs s' /\ (v = 0 <-> rs <> [])) _ _ HR);
    [intros v; apply stable_and; [done|apply stable_pure]|eassumption|..].
  { intros s' _ H'. split; [done|]. apply H'. }
  clear dependent s. intros f s Hi [Hs Hf].
  assert (0 <= last_read rs) as Hpos by (eapply last_read_nonneg; [exact Hi|apply Hs]).
  eapply (wp_bind_known _ _ (last_read rs) _ _ _ _ HR); [eassumption|intros s' _ H'; apply H'|].
  clear dependent s. intros s Hi Hs.
  eapply wp_advance_cursor; [done|done|].
  intros s' Hi' [Hck Hen]. exists e. unfold claimed. cbn [cr_snapshot rs_sample_sequence cr_slot
    cr_payload rs_encoded_size rs_checksum_ok rs_publish_boot_ns rs_missed_samples rs_generation].
  repeat (split; [done|]). split; [lia|]. repeat (split; [done|]).
  split; [|done]. apply gap_spec; [done|done|lia].
Qed.
(** * The claim loop *)

(** The slot is claimed and marked: is it still the latest? *)
Lemma wp_recheck {A} rs k c n (f : Z -> cprog A) (Q : A -> chst -> Prop) s :
  CN k c rs n s -> 1 <= n -> n0 <= n -> last_read rs < n ->
  (forall v s', cinv s' -> CK k c rs s' -> v <> make_ticket (sl_seq c) k -> wp t (f v) Q s') ->
  (forall v q e s', cinv s' -> v = make_ticket (sl_seq c) k -> holding k q e rs s' ->
     length (sp_bytes e) = Z.to_nat ps -> last_read rs < q -> n0 <= q <= kMaxSampleSequence ->
     wp t (f v) Q s') ->
  wp t (bind (shared_load_acquire (Obj dev ino (Head ch_latest_ticket))) f) Q s.
Proof.
  intros Hs Hn Hn0 Hlt Hne Heq.
  set (good := fun v s => v = make_ticket (sl_seq c) k -> exists q e, holding k q e rs s /\
    length (sp_bytes e) = Z.to_nat ps /\ last_read rs < q /\ n0 <= q <= kMaxSampleSequence).
  eapply (wp_bind_load _ _ _ (CN k c rs n) (fun v s => CK k c rs s /\ good v s));
    [apply CN_stable| |done|..].
  - intros v. apply stable_and; [apply CK_stable|]. intros s1 s2 H1 Hr Hi E.
    destruct (H1 E) as (q & e & Hh & H2). exists q, e. split; [by eapply holding_stable|done].
  - intros s' Hi [Hck Hl]. split; [done|]. intros E.
    pose proof Hck as (_ & _ & Hk & Hc & _). subst c.
    destruct (tick_names dev ino ps ph inc s' k Hi Hk) as (e & Hen & Hsl & Hct & Hq & Hb);
      [lia|done|].
    exists (len s'), e. split; [split; [by rewrite <- Hct|done]|]. split; [done|].
    pose proof (i_len _ _ _ _ (inv_of_log _ _ _ _ _ _ Hi)). lia.
  - intros v s' Hi [Hck Hg]. destruct (decide (v = make_ticket (sl_seq c) k)) as [E|E].
    + destruct (Hg E) as (q & e & Hh & Hb & Hlt' & Hq). by eapply (Heq v q e).
    + by apply Hne.
Qed.

(** The part of a round after the claim; [again] is the next round. *)
Lemma wp_claimed_round op rs k c n (again : cprog (Result ClaimedRead)) s :
  CN k c rs n s -> 1 <= n -> n0 <= n -> last_read rs < n ->
  (forall s', C0 rs s' -> wp t again (claim_post rs) s') ->
  wp t (do! slot_mark_reading (Obj dev ino) k (cd_role_epoch h);
        let! sample_sequence := plain_load (Obj dev ino (SlotSequence k)) in
        let claimed_ticket := make_ticket sample_sequence k in
        let! latest := shared_load_acquire (Obj dev ino (Head ch_latest_ticket)) in
        if negb (latest =? claimed_ticket) then
          do! slot_release_read (Obj dev ino) k; again
        else read_claimed_slot h op k) (claim_post rs) s.
Proof.
  intros Hs Hn Hn0 Hlt Hag. eapply wp_mark_reading; [done|]. clear dependent s. intros s Hi Hs.
  eapply (wp_bind_known _ _ (sl_seq c) _ _ _ _ (CN_stable k c rs n)); [done| |].
  { intros s' _ [(_ & _ & _ & <- & _) _]. done. }
  clear dependent s. intros s Hi Hs. cbv zeta. eapply wp_recheck; [done..| |].
  - intros v s' Hi' H' Hv. bdestr (v =? make_ticket (sl_seq c) k); [done|]. cbn [negb].
    eapply wp_consumer_release_read; [done|]. intros s2 _ H2. by apply Hag.
  - intros v q e s' Hi' -> Hh Hb Hlt' Hq. rewrite Z.eqb_refl. cbn [negb].
    by apply (wp_consumer_read_claimed op rs k q e).
Qed.

(** What the load of the ticket tells. *)
Definition ticket_seen (rs : list Z) (v : Z) (s : chst) : Prop :=
  C0 rs s /\ (v = 0 -> n0 <= 0) /\ (v <> 0 -> exists e,
    seen_ticket rs (ticket_sequence v) e s /\ is_slot (sp_slot e) /\ ticket_slot v = sp_slot e /\
    n0 <= ticket_sequence v).
Lemma ticket_seen_stable rs v : stable t (ticket_seen rs v).
Proof.
  apply stable_and; [apply C0_stable|]. apply stable_and; [apply stable_pure|].
  intros s1 s2 H1 Hr Hi Hv. destruct (H1 Hv) as (e & H2 & H3). exists e. split; [|done].
  by eapply seen_ticket_stable.
Qed.

Lemma ticket_seen_load rs s : cinv s -> C0 rs s -> ticket_seen rs (tick s) s.
Proof.
  intros Hi H'. pose proof (F_len s (proj2 (proj2 H'))) as Hn. split; [done|].
  destruct (tick_cases dev ino ps ph inc s Hi) as [[-> Hl]|(e & _ & Hen & Hk & Hq & Hts & H0 & _)].
  - split; [|done]. unfold len in Hn. rewrite Hl in Hn. simpl in Hn. lia.
  - split; [done|]. intros _. exists e. rewrite Hq. split; [split; [done|]|done].
    split; [|done]. apply (i_lo _ _ _ _ (inv_of_cons _ _ _ _ _ _ Hi)).
Qed.

Lemma wp_claim_loop op stride attempts rs s :
  slot_stride ps = Some stride -> C0 rs s ->
  wp t (claim_latest_loop h op stride attempts) (claim_post rs) s.
Proof.
  intros Hst. revert s. induction attempts as [|n IH]; intros s Hs; cbn [claim_latest_loop].
  { eapply wp_ret; [apply C0_stable|done|]. intros s' _ H'. split; auto. }
  rewrite h_base, h_id.
  eapply (wp_bind_load _ _ _ (C0 rs) (ticket_seen rs)); [apply C0_stable|apply ticket_seen_stable|done|..].
  { intros s' Hi H'. by apply ticket_seen_load. }
  clear dependent s. intros v s Hi Hs.
  assert (0 <= last_read rs) as Hpos by (eapply last_read_nonneg; [exact Hi|apply Hs]).
  eapply (wp_bind_known _ _ (last_read rs) _ _ _ _ (ticket_seen_stable rs v));
    [done|intros s' _ H'; apply H'|].
  clear dependent s. intros s Hi Hs.
  destruct ((v =? 0) || (ticket_sequence v <=? last_read rs)) eqn:E.
  { eapply wp_ret; [apply ticket_seen_stable|exact Hs|]. intros s' _ (H' & Hz' & Hv').
    split; [done|]. left. split; [done|]. apply orb_true_iff in E as [E|E]; bprop; [lia|].
    destruct (decide (v = 0)) as [->|H0]; [lia|]. destruct (Hv' H0) as (e & _ & _ & _ & ?). lia. }
  apply orb_false_iff in E as [E1 E2]. bprop. destruct Hs as (_ & _ & Hv).
  destruct (Hv E1) as (e & Ht & Hk & Hts & Hn). clear Hv. rewrite Hts.
  destruct (slot_offset_ok ps stride _ ps_ok Hst Hk) as [o ->]. set (q := ticket_sequence v) in *.
  assert (1 <= q) as Hq1 by (destruct Ht as (_ & _ & Hen); apply entry_len in Hen; lia).
  unfold slot_claim_readable, shared_cas_acquire.
  eapply (wp_bind_cas _ _ _ _ _ (seen_ticket rs q e) (fun s => exists c, CN (sp_slot e) c rs q s)
    (C0 rs)); [apply seen_ticket_stable| |apply C0_stable|done|..].
  - intros s1 s2 [c H1] Hr Hi'. exists c. by eapply CN_stable.
  - intros s' Hi' H' Hst'. destruct (claim_step rs q e s' Hi' H' Hk Hst') as [Hg [c Hc]].
    split; [done|]. exists c. split; [done|]. apply guarantee_mono, mono_len in Hg.
    destruct H' as (_ & _ & Hen). apply entry_len in Hen. unfold len in *. lia.
  - intros s' _ H' _. apply H'.
  - intros s' Hi' [c Hc]. cbn [negb]. eapply wp_claimed_round; eauto.
  - intros s' Hi' H'. cbn [negb]. by apply IH.
Qed.

Lemma wp_claim_latest op rs s :
  C0 rs s -> wp t (claim_latest_unlocked h op) (claim_post rs) s.
Proof.
  intros Hs. unfold claim_latest_unlocked. rewrite h_ps.
  destruct (slot_stride_spec ps ps_ok) as (stride & Hst & _). rewrite Hst. by apply wp_claim_loop.
Qed.
(** * The use flag *)

Lemma F_is_stable : stable t F.
Proof. by apply stableP_stable. Qed.

Lemma free_stable : stable t (fun s => exists rs, C0 rs s).
Proof. intros s s' [rs H] Hr Hi. exists rs. by eapply C0_stable. Qed.

Lemma take_flag_step s :
  cinv s -> F s -> cuse s (inc t) = 0 ->
  let s' := write t (CHnd (inc t) hl_operation_in_use) 1 s in
  guarantee t s s' /\ exists rs, C0 rs s'.
Proof.
  intros Hi HF Hu s'.
  destruct (step_cacquire dev ino ps ph inc t s Hi Hu)
    as (Hg & HP & Hco & Hn & Hop & Hr & Hl & Hf & _).
  split; [done|]. exists (reads s (inc t)). split; [done|]. split; [done|]. by eapply F_step.
Qed.

Lemma wp_take_flag {A} (f : bool -> cprog A) Q s :
  F s -> (forall s', cinv s' -> F s' -> wp t (f true) Q s') ->
  (forall rs s', cinv s' -> C0 rs s' -> wp t (f false) Q s') ->
  wp t (bind (exchange_true (CHnd (inc t) hl_operation_in_use)) f) Q s.
Proof.
  intros Hs Hused Hfree. eapply wp_seq with
    (Q1 := fun (b : bool) s' => if b then F s' else exists rs, C0 rs s');
    [|intros [] s' Hi H; [by apply Hused|destruct H as [rs H]; by eapply Hfree]].
  unfold exchange_true.
  eapply (wp_bind_cas _ _ _ _ _ F (fun s => exists rs, C0 rs s) F);
    [apply F_is_stable|apply free_stable|apply F_is_stable|done|..].
  - intros s' Hi HF Hu. by apply take_flag_step.
  - done.
  - intros s' Hi H. eapply wp_ret; [apply free_stable|done|done].
  - intros s' Hi H. eapply wp_ret; [apply F_is_stable|done|done].
Qed.

Lemma give_flag_step rs s :
  cinv s -> C0 rs s ->
  let s' := write t (CHnd (inc t) hl_operation_in_use) 0 s in guarantee t s s' /\ F s'.
Proof.
  intros Hi (Hco & (Hn & Hop & Hrs & Hl & Hf) & HF) s'.
  pose proof (step_crelease dev ino ps ph inc t s Hi Hco) as H. rewrite Hn, Hrs in H.
  destruct H as (Hg & HP & _); [|done|done|].
  - rewrite (i_epoch _ _ _ (inv_of_mark _ _ _ _ _ _ Hi) Hop). by rewrite Hn.
  - split; [done|]. by eapply F_step.
Qed.

Lemma wp_give_flag {A} rs (f : unit -> cprog A) Q s :
  C0 rs s -> (forall s', cinv s' -> F s' -> wp t (f tt) Q s') ->
  wp t (bind (shared_store_release (CHnd (inc t) hl_operation_in_use) 0) f) Q s.
Proof.
  intros Hs Hf. eapply (wp_bind_store _ _ _ _ (C0 rs) F); [apply C0_stable|apply F_is_stable|done|..].
  - intros s' Hi H. by eapply give_flag_step.
  - done.
Qed.

(** * Shutdown *)

(** A store to a field the contract does not look at. *)
Lemma wp_other_store {A} l v R (f : unit -> cprog A) Q s :
  kind_of dev ino ph l = kd_other -> stable t R -> R s ->
  (forall s', cinv s' -> R s' -> wp t (f tt) Q s') -> wp t (bind (trigger (Store l v)) f) Q s.
Proof.
  intros Hl HR Hs Hf. eapply (wp_bind_store _ _ _ _ R R); [done..| |done].
  intros s' Hi H. destruct (step_other dev ino ps ph inc t l v s' Hl Hi) as [Hg Hr].
  split; [done|]. eapply HR; [done|apply Hr|apply Hg].
Qed.

Lemma wp_other_cas {A} l x v R (f : bool -> cprog A) Q s :
  kind_of dev ino ph l = kd_other -> stable t R -> R s ->
  (forall b s', cinv s' -> R s' -> wp t (f b) Q s') -> wp t (bind (trigger (Cas l x v)) f) Q s.
Proof.
  intros Hl HR Hs Hf. eapply (wp_bind_cas _ _ _ _ _ R R R); [done..| |done|auto|auto].
  intros s' Hi H _. destruct (step_other dev ino ps ph inc t l v s' Hl Hi) as [Hg Hr].
  split; [done|]. eapply HR; [done|apply Hr|apply Hg].
Qed.

Lemma kind_head f : f <> ch_latest_ticket -> kind_of dev ino ph (Obj dev ino (Head f)) = kd_other.
Proof. intros H. simpl. rewrite decide_True by done. by destruct f. Qed.

Lemma wp_mark_offline (R : chst -> Prop) (s : chst) :
  stable t R -> R s -> wp t (mark_consumer_offline h) (fun _ => R) s.
Proof.
  intros HR Hs. unfold mark_consumer_offline. rewrite h_base.
  eapply (wp_readonly_bind _ _ _ _ _ _ (identity_snapshot_readonly _) HR); [done|].
  intros [p|e] s' Hi H; [|by eapply wp_ret]. destruct (negb _); [by eapply wp_ret|].
  eapply (wp_trigger_store _ _ _ R R); [done..|]. intros s2 Hi2 H2.
  destruct (step_other dev ino ps ph inc t (Obj dev ino (Head ch_consumer_state)) es_kOffline s2
    ltac:(by apply kind_head) Hi2) as [Hg Hr].
  split; [done|]. eapply HR; [done|apply Hr|apply Hg].
Qed.

Lemma wp_service_shutdown s : F s -> wp t (service_consumer_shutdown h) (fun _ => F) s.
Proof.
  intros Hs.
  unfold service_consumer_shutdown, shared_load_acquire. rewrite h_id.
  eapply wp_readonly_bind; [solve_readonly|apply F_is_stable|done|]. clear dependent s.
  intros p s Hi Hs. destruct (p =? 0); [eapply wp_ret; [apply F_is_stable|done|done]|].
  eapply (wp_bind_cas _ _ _ _ _ F (fun s => exists rs, C0 rs s) F);
    [apply F_is_stable|apply free_stable|apply F_is_stable|done|..].
  - intros s' Hi' HF Hu. by apply take_flag_step.
  - done.
  - intros s' Hi' [rs H']. cbn [negb].
    eapply (wp_other_cas _ _ _ (C0 rs)); [done|apply C0_stable|done|]. clear dependent s.
    intros b s Hi Hs.
    eapply wp_seq with (Q1 := fun _ => C0 rs).
    { destruct b; [|eapply wp_ret; [apply C0_stable|done|done]].
      apply wp_mark_offline; [apply C0_stable|done]. }
    intros [] s2 Hi2 H2. eapply (wp_trigger_store _ _ _ (C0 rs) F);
      [apply C0_stable|apply F_is_stable|done|]. intros s3 Hi3 H3. by eapply give_flag_step.
  - intros s' Hi' H'. cbn [negb]. eapply wp_ret; [apply F_is_stable|done|done].
Qed.
End ConsumerSafety.
