(* ===== verification/ConsumerOps.v ===== *)
(** The operations of a consumer, as the channel contract sees them: a read that
    succeeds returns a sample of the log with its bytes and its publication time,
    the number of samples passed over and, when [n0] samples were published before
    the call, one of them or a later one. *)
From S2P Require Import Prelude Errors CheckedMath Prog Concur Checksum ProcIdentity ShmObject Clock.
From S2P Require Import ChannelLayout ChannelSegment SlotProtocol ChannelAbi Producer Consumer.
From S2P Require Import ChannelProtocol ChannelSteps ConsumerSafety.

Section ConsumerApi.
Context (dev ino ps : Z) (ph : nat) (inc : tid -> nat).
Abbreviation cinv := (cinv dev ino ps ph inc).
#[local] Hint Extern 0 (Protocol chloc chghost) =>
  exact (channel_protocol dev ino ps ph inc) : typeclass_instances.

Context (t : tid) (h : ConsumerHandle).
Hypothesis h_id : cd_id h = inc t.
Hypothesis h_base : cd_base h = Obj dev ino.
Hypothesis h_ps : cd_payload_size h = ps.
Hypothesis h_epoch : cd_role_epoch h = epoch_of (inc t).
Hypothesis ps_ok : 0 < ps <= kMaxPayloadSize.

Abbreviation C0 := (C0 dev ino inc t).
Abbreviation CK := (CK dev ino ps inc t).
Abbreviation stableP := (stableP dev ino ps t).

(** Facts that only need the history to grow. *)
Definition growing (G : chst -> Prop) : Prop := forall s s', G s -> mono s s' -> G s'.

Lemma growing_and F G : stableP F -> growing G -> stableP (fun s => F s /\ G s).
Proof. intros HF HG s s' [H1 H2] Hm Hk. split; eauto. Qed.
Lemma growing_P G : growing G -> stableP G.
Proof. intros HG s s' H Hm _. eauto. Qed.

(** The [i]-th read of the handle was sample [q = rs_sample_sequence snap], as the
    log has it. *)
Definition read_fact (snap : ReadSnapshot) (e : sample) (i : nat) (s : chst) : Prop :=
  let q := rs_sample_sequence snap in
  entry (glog s) q e /\ reads s (inc t) !! i = Some q /\
  rs_missed_samples snap = gap (take i (reads s (inc t))) q /\
  rs_publish_boot_ns snap = sp_ns e /\ rs_encoded_size snap = ps /\
  length (sp_bytes e) = Z.to_nat ps /\ rs_generation snap = cd_generation h /\
  rs_checksum_ok snap = true.

Lemma read_fact_growing snap e i : growing (read_fact snap e i).
Proof.
  intros s s' (H1 & H2 & H3 & H4) [Hl _ _ Hr]. specialize (Hr (inc t)).
  split; [by eapply entry_prefix|]. split; [by eapply prefix_lookup|]. split; [|done].
  rewrite H3. f_equal. destruct Hr as [k ->]. apply lookup_lt_Some in H2.
  rewrite take_app_le by lia. done.
Qed.

(** Why a read gives no sample. *)
Definition read_error (cap n0 : Z) (e : Error) (s : chst) : Prop :=
  err_code e <> kCorruptSlot /\ (err_code e = kPayloadCorrupt -> cap < ps) /\
  (err_code e = kNoNewSample -> n0 <= 0 \/ exists q, q ∈ reads s (inc t) /\ n0 <= q).

Lemma read_error_growing cap n0 e : growing (read_error cap n0 e).
Proof.
  intros s s' (H1 & H2 & H3) [_ _ _ Hr]. split; [done|]. split; [done|]. intros H.
  destruct (H3 H) as [|(q & Hq & ?)]; [by left|right]. exists q. split; [|done].
  destruct (Hr (inc t)) as [k ->]. apply elem_of_app. by left.
Qed.

(** A sample number that is new: [n0] samples were published, and the handle had read
    number [l0], before the call. *)
Definition newer (n0 l0 q : Z) : Prop := n0 <= q /\ l0 < q.

Definition read_result (cap n0 l0 : Z) (r : Result (ReadSnapshot * list Z)) (s : chst) : Prop :=
  match r with
  | Ok (snap, bytes) =>
      exists e i, read_fact snap e i s /\ bytes = sp_bytes e /\ newer n0 l0 (rs_sample_sequence snap)
  | Err e => read_error cap n0 e s
  end.

Lemma read_result_growing cap n0 l0 r : growing (read_result cap n0 l0 r).
Proof.
  destruct r as [[snap bytes]|e]; [|apply read_error_growing].
  intros s s' (e & i & H1 & H2) Hm. exists e, i. split; [by eapply read_fact_growing|done].
Qed.

Lemma claimed_fact F n0 rs cr e s :
  claimed dev ino ps inc t h F n0 rs cr e s -> read_fact (cr_snapshot cr) e (length rs) s.
Proof.
  intros ((Hco & (Hn & Hop & Hrs & _) & _) & Hen & Hb & _ & _ & _ & Hsz & Hok & Hns & Hg & Hgen).
  split; [done|]. rewrite Hrs, take_app_length. split; [|done].
  by rewrite lookup_app_r, Nat.sub_diag by lia.
Qed.

Lemma failed_error F n0 rs e s cap :
  read_failed dev ino inc t F n0 rs e s -> read_error cap n0 e s.
Proof.
  intros [(_ & (_ & _ & Hrs & _) & _) Hc]. split; [|split].
  - by destruct Hc as [[-> _]|[-> | ->]].
  - by destruct Hc as [[-> _]|[-> | ->]].
  - intros He. destruct Hc as [[_ Hn]|[E|E]]; [|congruence..]. unfold last_read in Hn.
    destruct (last rs) as [q|] eqn:Hq; [right|by left]. exists q. rewrite Hrs.
    split; [by apply last_Some_elem_of|done].
Qed.

(** ** Read loans *)

(** A loan in use: its slot is held by the thread and has the sample the loan is
    for. *)
Definition held_sample (loan : ReadLoan) (cr : ClaimedRead) (e : sample) (i : nat)
    (s : chst) : Prop :=
  let q := rs_sample_sequence (cr_snapshot cr) in
  loan = read_loan_of h cr /\ cr_payload cr = cr_slot cr /\ read_fact (cr_snapshot cr) e i s /\
  exists rs, CK (fun _ => True) (cr_slot cr) (sample_content ps e q) rs s.

Definition held (loan : ReadLoan) (s : chst) : Prop := exists cr e i, held_sample loan cr e i s.

Lemma CK_stableC k c rs : stableC dev ino ps t (CK (fun _ => True) k c rs).
Proof.
  intros s s' ([Ho Hk] & (H1 & H2 & H3 & H4 & H5) & Hsl & Hc & _) _ Hr.
  destruct (Hr Ho). assert (3 <= st dev ino s k) as H3k by (by apply Hk).
  destruct (kc_held k Hsl H3k) as (_ & Hct & _).
  split; [split; [done|intros k' Hk'; rewrite kc_reading by done; auto]|].
  split; [|by rewrite Hct].
  unfold cursor. rewrite H1 in *. by rewrite kc_inc, kc_open, kc_reads, kc_last, kc_first.
Qed.

Lemma held_sample_stableC loan cr e i : stableC dev ino ps t (held_sample loan cr e i).
Proof.
  intros s s' (H1 & H2 & H3 & rs & H4) Hm Hr. split; [done|]. split; [done|].
  split; [by eapply read_fact_growing|]. exists rs. by eapply CK_stableC.
Qed.

Lemma held_stableC loan : stableC dev ino ps t (held loan).
Proof.
  intros s s' (cr & e & i & H) Hm Hr. exists cr, e, i. by eapply held_sample_stableC.
Qed.

Section WithFrame.
Context (F : chst -> Prop) (n0 l0 : Z).
Hypothesis F_stable : stableP F.
Hypothesis F_len : forall s, F s -> n0 <= len s.
Hypothesis F_cur : forall s, F s -> l0 = 0 \/ l0 ∈ reads s (inc t).

Lemma claimed_newer rs cr e s0 s :
  C0 F rs s0 -> cinv s -> claimed dev ino ps inc t h F n0 rs cr e s ->
  newer n0 l0 (rs_sample_sequence (cr_snapshot cr)).
Proof.
  intros (_ & (_ & _ & Hrs & _) & HF) [_ _ _ _ I5] ((_ & (_ & _ & Hrs' & _) & _) & Hen & _ & _ & Hlt & Hn & _).
  split; [done|]. apply entry_len in Hen. destruct (F_cur s0 HF) as [->|Hin]; [lia|].
  rewrite Hrs in Hin. apply list_elem_of_lookup_1 in Hin as [i Hi].
  pose proof (lookup_lt_Some _ _ _ Hi) as Hil.
  apply (i_sorted _ I5 (inc t) i (length rs)); rewrite ?Hrs'.
  - by rewrite lookup_app_l.
  - by rewrite lookup_app_r, Nat.sub_diag by lia.
  - done.
Qed.

Lemma wp_try_read_unlocked cap rs s :
  C0 F rs s ->
  wp t (try_read_latest_unlocked h cap)
    (fun r s' => exists rs', C0 F rs' s' /\ read_result cap n0 l0 r s') s.
Proof.
  intros Hs. unfold try_read_latest_unlocked. rewrite h_base.
  eapply wp_seq; [by eapply wp_claim_latest|]. rename s into s0, Hs into Hs0.
  intros [cr|e] s Hi Hr.
  2:{ pose proof (failed_error _ _ _ _ _ cap Hr) as He. destruct Hr as [Hs _].
      eapply (wp_ret _ _ (C0 (fun s => F s /\ read_error cap n0 e s) rs)).
      - apply C0_stable. apply growing_and; [done|apply read_error_growing].
      - destruct Hs as (? & ? & ?). by split.
      - intros s' _ (H1 & H2 & H3 & H4). exists rs. by split; [split|]. }
  destruct Hr as [e Hcl]. pose proof (claimed_fact _ _ _ _ _ _ Hcl) as Hf.
  pose proof (claimed_newer _ _ _ _ _ Hs0 Hi Hcl) as Hnew. destruct Hcl as (Hck & Hen & Hb & Hpl & Hlt & Hn & Hsz & _ & Hns & _).
  set (q := rs_sample_sequence (cr_snapshot cr)) in *.
  set (F' := fun s => F s /\ read_fact (cr_snapshot cr) e (length rs) s).
  assert (stableP F') as HF' by (apply growing_and; [done|apply read_fact_growing]).
  assert (CK F' (cr_slot cr) (sample_content ps e q) (rs ++ [q]) s) as Hs.
  { destruct Hck as (? & ? & ? & ? & ?). by split. }
  rewrite Hsz, Hpl. bdestr (cap <? ps).
  - eapply (wp_consumer_release_read dev ino ps ph inc t F'); [done|done|].
    intros s' Hi' H'. eapply wp_ret; [by apply (C0_stable dev ino ps ph)|done|].
    intros s2 _ (H1 & H2 & H3 & H4). exists (rs ++ [q]). split; [done|]. split; [done|]. split; [done|done].
  - eapply (wp_bind_load_list _ _ (sp_bytes e) _ (CK F' (cr_slot cr) (sample_content ps e q) (rs ++ [q])));
      [by apply (CK_stable dev ino ps ph)|done| |].
    { intros s' _ (_ & _ & _ & Hc & _).
      exact (payload_locs_load dev ino ps (cr_slot cr) (sample_content ps e q) s' Hc). }
    intros s' Hi' H'. eapply (wp_consumer_release_read dev ino ps ph inc t F'); [done|done|].
    intros s2 Hi2 H2. eapply wp_ret; [by apply (C0_stable dev ino ps ph)|done|].
    intros s3 _ (H1 & H3 & H4 & H5). exists (rs ++ [q]). split; [done|]. by exists e, (length rs).
Qed.

Lemma F_n0 s : F s -> n0 <= len s.
Proof. exact (F_len s). Qed.

(** [G] holds of what the operation returns, and the flag is given back. *)
Lemma wp_with_use {A} op (body : cprog (Result A)) (G : Result A -> chst -> Prop) s :
  (forall r, growing (G r)) ->
  (forall s', G (Err (make_error kConcurrentHandleUse op "concurrent handle use")) s') ->
  F s ->
  (forall rs s', cinv s' -> C0 F rs s' ->
     wp t body (fun r s2 => exists rs', C0 F rs' s2 /\ G r s2) s') ->
  wp t (with_use (CHnd (cd_id h) hl_operation_in_use) op body) (fun r s' => F s' /\ G r s') s.
Proof.
  intros HG Hused Hs Hbody. unfold with_use. rewrite h_id.
  eapply (wp_take_flag dev ino ps ph inc t F F_stable); [done|..].
  - intros s' Hi H'. eapply wp_ret; [by apply (stableP_stable dev ino ps ph inc)|done|]. by split.
  - intros rs s' Hi H'. eapply wp_seq; [by eapply Hbody|].
    intros r s2 Hi2 (rs' & H2 & Hr).
    eapply (wp_give_flag dev ino ps ph inc t (fun s => F s /\ G r s)
      (growing_and _ _ F_stable (HG r)) rs'); [|].
    + destruct H2 as (? & ? & ?). by split.
    + intros s3 Hi3 H3. eapply (wp_ret _ _ (fun s => F s /\ G r s)); [|done|done].
      apply (stableP_stable dev ino ps ph inc), growing_and; [done|apply HG].
Qed.

Lemma plain_error cap e s :
  err_code e <> kCorruptSlot -> err_code e <> kPayloadCorrupt -> err_code e <> kNoNewSample ->
  read_error cap n0 e s.
Proof. intros H1 H2 H3. split; [done|]. by split. Qed.

Lemma wp_try_read cap s :
  F s -> wp t (consumer_try_read_latest_impl h cap) (fun r s' => F s' /\ read_result cap n0 l0 r s') s.
Proof.
  intros Hs. apply wp_with_use; [apply read_result_growing| |done|].
  - intros s'. by apply plain_error.
  - intros rs s' Hi H'. by apply (wp_try_read_unlocked cap rs).
Qed.

(** ** Waiting *)

Definition wait_error (e : Error) : Prop :=
  err_code e ∈ [kProducerOffline; kRecoveryBlocked; kDataStale; kProducerStalled; kSystemError].

Lemma classify_wait_timeout_error base op : leaves wait_error (classify_wait_timeout base op).
Proof.
  unfold classify_wait_timeout, wait_error.
  repeat first [apply leaves_bind_any; intros ?
               |progress cbv zeta
               |match goal with |- leaves _ (match ?x with _ => _ end) => destruct x end];
    cbn [leaves err_code make_error]; try case_match; repeat constructor.
Qed.

Lemma wait_error_plain cap e s : wait_error e -> read_error cap n0 e s.
Proof.
  intros H. unfold wait_error in H.
  apply plain_error; intros E; rewrite E in H; repeat (apply elem_of_cons in H as [H|H]; [done|]);
    by apply elem_of_nil in H.
Qed.

Lemma classify_wait_timeout_readonly base op : readonly (classify_wait_timeout base op).
Proof. unfold classify_wait_timeout. solve_readonly. Qed.
#[local] Hint Resolve classify_wait_timeout_readonly classify_wait_timeout_error : prog_db.

Lemma wait_round_readonly op deadline : readonly (wait_round h op deadline).
Proof. unfold wait_round. solve_readonly. Qed.

Lemma wait_round_leaves op deadline :
  leaves (fun o => forall e, o = Some e -> wait_error e) (wait_round h op deadline).
Proof.
  unfold wait_round.
  repeat first [match goal with |- leaves _ (bind (classify_wait_timeout _ _) _) =>
                  eapply leaves_bind; [apply classify_wait_timeout_error|intros e He] end
               |apply leaves_bind_any; intros ?
               |progress cbv zeta
               |match goal with |- leaves _ (match ?x with _ => _ end) => destruct x end];
    intros e' [= <-]; first [done|unfold wait_error, make_errno_error_as; cbn [err_code]; repeat constructor].
Qed.

(** [Ok1] is what a successful attempt leaves; an attempt that fails leaves the
    consumer as it was, with an error [E]. *)
Lemma wp_wait_loop {A} fuel op deadline (attempt : cprog (Result A))
    (Ok1 : A -> chst -> Prop) (E : Error -> chst -> Prop) s :
  (forall a, stable t (Ok1 a)) -> (forall e, growing (E e)) ->
  (forall e s, wait_error e -> E e s) ->
  (forall rs s, C0 F rs s ->
     wp t attempt (fun r s' => match r with
       | Ok a => Ok1 a s' | Err e => exists rs', C0 (fun s => F s /\ E e s) rs' s' end) s) ->
  (exists rs, C0 F rs s) ->
  wp t (wait_loop fuel h op deadline attempt) (fun r s' => match r with
    | None => exists rs', C0 F rs' s'
    | Some (Ok a) => Ok1 a s'
    | Some (Err e) => exists rs', C0 (fun s => F s /\ E e s) rs' s' end) s.
Proof.
  intros HOk HE HW Hatt Hs. revert s Hs.
  assert (forall e, stable t (fun s => exists rs, C0 (fun s => F s /\ E e s) rs s)) as HR.
  { intros e. apply (free_stable dev ino ps ph). by apply growing_and. }
  induction fuel as [|fuel IH]; intros s [rs Hs]; cbn [wait_loop].
  { eapply wp_ret; [by apply (free_stable dev ino ps ph inc t F)|by exists rs|done]. }
  eapply wp_seq; [by apply (Hatt rs)|]. clear dependent s. intros [a|e] s Hi H.
  { eapply wp_ret; [apply (HOk a)|done|done]. }
  destruct (wait_final _); [eapply wp_ret; [apply (HR e)|done|done]|].
  assert (exists rs, C0 F rs s) as Hs.
  { destruct H as (rs' & ? & ? & ? & ?). by exists rs'. }
  eapply wp_seq.
  { eapply (wp_readonly_leaves _ _ _ (fun s => exists rs, C0 F rs s));
      [apply wait_round_readonly|apply wait_round_leaves|by apply (free_stable dev ino ps ph)|done|].
    intros o s' _ Ho H'. exact (conj Ho H'). }
  cbv beta. intros [e'|] s' Hi' [Ho H']; [|by apply IH].
  eapply wp_ret; [apply (HR e')| |done]. destruct H' as (rs' & ? & ? & ?). exists rs'.
  split; [done|]. split; [done|]. split; [done|]. by apply HW, Ho.
Qed.

Definition waited {A} (G : Result A -> chst -> Prop) (r : option (Result A)) (s : chst) : Prop :=
  F s /\ match r with None => True | Some r => G r s end.

Lemma wp_wait fuel cap timeout s :
  F s ->
  wp t (consumer_wait_latest_impl fuel h cap timeout) (waited (read_result cap n0 l0)) s.
Proof.
  intros Hs. unfold consumer_wait_latest_impl. rewrite h_id.
  assert (forall e, growing (read_error cap n0 e)) as HE by (intros; apply read_error_growing).
  eapply (wp_take_flag dev ino ps ph inc t F F_stable); [done|..]; clear dependent s.
  { intros s Hi Hs. eapply wp_ret; [by apply (stableP_stable dev ino ps ph inc)|done|].
    intros s' _ H'. split; [done|]. by apply plain_error. }
  intros rs s Hi Hs.
  eapply wp_readonly_bind; [solve_readonly|by apply (C0_stable dev ino ps ph)|done|].
  clear dependent s. intros deadline s Hi Hs. destruct (deadline =? 0).
  { eapply (wp_give_flag dev ino ps ph inc t F F_stable rs); [done|]. clear dependent s.
    intros s Hi Hs. eapply wp_ret; [by apply (stableP_stable dev ino ps ph inc)|done|].
    intros s' _ H'. split; [done|]. by apply plain_error. }
  set (G := fun r s => F s /\ read_result cap n0 l0 r s).
  assert (forall r, stableP (G r)) as HG.
  { intros r. apply growing_and; [done|apply read_result_growing]. }
  eapply wp_seq.
  { apply (wp_wait_loop _ _ _ _ (fun a s => exists rs, C0 (G (Ok a)) rs s) (read_error cap n0)).
    - intros a. apply (free_stable dev ino ps ph), HG.
    - done.
    - intros e s' He. by apply wait_error_plain.
    - intros rs' s' H'. eapply wp_mono; [|by apply (wp_try_read_unlocked cap rs')].
      intros [a|e] s2 _ (rs2 & (? & ? & ?) & Hr); by exists rs2.
    - by exists rs. }
  cbv beta. clear dependent s. intros [r|] s Hi Hs.
  2:{ eapply wp_ret; [by apply (free_stable dev ino ps ph inc t F)|exact Hs|].
      intros s' _ (rs' & _ & _ & H'). by split. }
  assert (exists rs, C0 (G r) rs s) as [rs' H'] by by destruct r.
  eapply (wp_give_flag dev ino ps ph inc t (G r) (HG r) rs'); [done|].
  intros s2 Hi2 H2. eapply wp_ret; [apply (stableP_stable dev ino ps ph inc), HG|done|done].
Qed.

(** ** Loans *)

Definition loan_result (r : Result ReadLoan) (s : chst) : Prop :=
  match r with
  | Ok loan => held loan s /\ newer n0 l0 (rl_sequence loan)
  | Err e => read_error ps n0 e s
  end.

Lemma F_held_stable loan : stable t (fun s => F s /\ held loan s).
Proof.
  apply stable_and; [by apply (stableP_stable dev ino ps ph inc)|].
  apply (stableC_stable dev ino ps ph inc), held_stableC.
Qed.

Lemma claimed_held rs cr e s0 s :
  C0 F rs s0 -> cinv s -> claimed dev ino ps inc t h F n0 rs cr e s ->
  (F s /\ held (read_loan_of h cr) s) /\ newer n0 l0 (rs_sample_sequence (cr_snapshot cr)).
Proof.
  intros Hs0 Hi Hcl. pose proof (claimed_newer _ _ _ _ _ Hs0 Hi Hcl) as Hnew. pose proof (claimed_fact _ _ _ _ _ _ Hcl) as Hf.
  destruct Hcl as ((H1 & H2 & H3 & H4 & H5) & _ & _ & Hp & _ & Hn & _).
  split; [|done]. split; [done|]. exists cr, e, (length rs). split; [done|]. split; [done|].
  split; [done|]. by eexists.
Qed.

(** What both loans do with a claim that failed. *)
Lemma wp_loan_failed {A} (r : A) e (Q : A -> chst -> Prop) s :
  (forall s, F s /\ read_error ps n0 e s -> Q r s) ->
  (exists rs, C0 (fun s => F s /\ read_error ps n0 e s) rs s) ->
  wp t (do! release_consumer_loan_operation h; Ret r) Q s.
Proof.
  intros HQ [rs Hs]. set (F' := fun s => F s /\ read_error ps n0 e s).
  assert (stableP F') as HF' by (apply growing_and; [done|apply read_error_growing]).
  eapply wp_seq with (Q1 := fun _ => F').
  { unfold release_consumer_loan_operation. rewrite h_id.
    eapply (wp_give_flag dev ino ps ph inc t F' HF' rs); [done|]. intros s' Hi H'.
    by apply (wp_service_shutdown dev ino ps ph inc t h h_id h_base F' HF'). }
  intros [] s' Hi H'. eapply wp_ret; [by apply (stableP_stable dev ino ps ph inc)|done|].
  intros s2 _ H2. by apply HQ.
Qed.

Lemma wp_claim_for_loan op rs s :
  C0 F rs s ->
  wp t (claim_latest_unlocked h op) (fun r s' => match r with
    | Ok cr => (F s' /\ held (read_loan_of h cr) s') /\ newer n0 l0 (rs_sample_sequence (cr_snapshot cr))
    | Err e => exists rs', C0 (fun s => F s /\ read_error ps n0 e s) rs' s' end) s.
Proof.
  intros Hs. eapply wp_mono; [|by eapply (wp_claim_latest dev ino ps ph inc t h)].
  intros [cr|e] s' Hi H.
  - destruct H as [e H]. by eapply claimed_held.
  - pose proof (failed_error _ _ _ _ _ ps H) as He. destruct H as [(? & ? & ?) _]. by exists rs.
Qed.

Lemma wp_try_loan s :
  F s -> wp t (consumer_try_loan_latest_impl h) (fun r s' => F s' /\ loan_result r s') s.
Proof.
  intros Hs. unfold consumer_try_loan_latest_impl. rewrite h_id.
  eapply (wp_take_flag dev ino ps ph inc t F F_stable); [done|..]; clear dependent s.
  { intros s Hi Hs. eapply wp_ret; [by apply (stableP_stable dev ino ps ph inc)|done|].
    intros s' _ H'. split; [done|]. by apply plain_error. }
  intros rs s Hi Hs. eapply wp_seq; [by eapply wp_claim_for_loan|]. cbv beta.
  intros [cr|e] s' Hi' H'.
  - destruct H' as [H' Hn]. eapply wp_ret; [apply (F_held_stable (read_loan_of h cr))|done|].
    intros s2 _ [? ?]. split; [done|]. by split.
  - apply wp_loan_failed with e; [|done]. by intros s2 [? ?].
Qed.

Lemma wp_wait_loan fuel timeout s :
  F s -> wp t (consumer_wait_loan_latest_impl fuel h timeout) (waited loan_result) s.
Proof.
  intros Hs. unfold consumer_wait_loan_latest_impl. rewrite h_id.
  eapply (wp_take_flag dev ino ps ph inc t F F_stable); [done|..]; clear dependent s.
  { intros s Hi Hs. eapply wp_ret; [by apply (stableP_stable dev ino ps ph inc)|done|].
    intros s' _ H'. split; [done|]. by apply plain_error. }
  intros rs s Hi Hs.
  eapply wp_readonly_bind; [solve_readonly|by apply (C0_stable dev ino ps ph)|done|].
  clear dependent s. intros deadline s Hi Hs. destruct (deadline =? 0).
  { eapply wp_loan_failed with (make_error kClockAnomaly "Consumer::wait_loan_latest"
      "monotonic clock unavailable"); [by intros s' [? ?]|].
    exists rs. destruct Hs as (? & ? & ?). split; [done|]. split; [done|]. split; [done|].
    by apply plain_error. }
  eapply wp_seq.
  { apply (wp_wait_loop _ _ _ _ (fun cr s => (F s /\ held (read_loan_of h cr) s) /\
      newer n0 l0 (rs_sample_sequence (cr_snapshot cr))) (read_error ps n0)).
    - intros cr. apply stable_and; [apply F_held_stable|apply stable_pure].
    - intros e. apply read_error_growing.
    - intros e s' He. by apply wait_error_plain.
    - intros rs' s' H'. by eapply wp_claim_for_loan.
    - by exists rs. }
  cbv beta. clear dependent s. intros [[cr|e]|] s Hi Hs.
  3:{ eapply wp_ret; [by apply (free_stable dev ino ps ph inc t F)|exact Hs|].
      intros s' _ (rs' & _ & _ & H'). by split. }
  - destruct Hs as [H' Hn]. eapply wp_ret; [apply (F_held_stable (read_loan_of h cr))|done|].
    intros s2 _ [? ?]. split; [done|]. by split.
  - apply wp_loan_failed with e; [|done]. by intros s2 [? ?].
Qed.

Lemma wp_look loan cr e i s :
  held_sample loan cr e i s -> F s ->
  wp t (look_at_loan loan) (fun bytes s' => F s' /\ held_sample loan cr e i s' /\ bytes = sp_bytes e) s.
Proof.
  intros Hh Hs. pose proof Hh as (-> & Hp & (_ & _ & _ & _ & Hsz & _) & _).
  assert (stable t (fun s => F s /\ held_sample (read_loan_of h cr) cr e i s)) as HR.
  { apply stable_and; [by apply (stableP_stable dev ino ps ph inc)|].
    apply (stableC_stable dev ino ps ph inc), held_sample_stableC. }
  assert (look_at_loan (read_loan_of h cr) = load_list (payload_locs (Obj dev ino) ps (cr_slot cr)))
    as -> by (unfold look_at_loan; simpl; by rewrite h_base, Hsz, Hp).
  eapply wp_mono; [|apply (wp_load_list _ _ (sp_bytes e) _ _ HR (conj Hs Hh))].
  - cbv beta. intros bs s' _ [-> [? ?]]. done.
  - intros s' _ [_ (_ & _ & _ & rs & (_ & _ & _ & Hc & _))].
    exact (payload_locs_load dev ino ps (cr_slot cr) _ s' Hc).
Qed.

Lemma wp_release_loan loan s :
  held loan s -> F s ->
  wp t (consumer_release_loan_impl loan)
    (fun loan' s' => loan' = read_loan_reset loan /\ F s') s.
Proof.
  intros (cr & e & i & -> & Hp & Hf & rs & Hck) Hs. unfold consumer_release_loan_impl.
  cbn [rl_handle rl_active rl_slot read_loan_of]. rewrite h_base.
  assert (CK F (cr_slot cr) (sample_content ps e (rs_sample_sequence (cr_snapshot cr))) rs s) as H.
  { by destruct Hck as (? & ? & ? & ? & _). }
  eapply (wp_consumer_release_read dev ino ps ph inc t F); [done|done|]. intros s' Hi' H'.
  eapply wp_seq with (Q1 := fun _ => F).
  { unfold release_consumer_loan_operation. rewrite h_id.
    eapply (wp_give_flag dev ino ps ph inc t F F_stable rs); [done|]. intros s2 Hi2 H2.
    by apply (wp_service_shutdown dev ino ps ph inc t h h_id h_base F F_stable). }
  intros [] s2 Hi2 H2. eapply wp_ret; [by apply (stableP_stable dev ino ps ph inc)|done|done].
Qed.

(** ** Status and shutdown *)

Lemma wp_cstatus s :
  F s -> wp t (consumer_status_impl h) (fun _ => F) s.
Proof.
  intros Hs. eapply wp_mono; [|apply (wp_with_use _ _ (fun _ _ => True)); [done..|]];
    [by intros r s' _ [? _]|].
  intros rs s' Hi H'. eapply wp_readonly; [|by apply (C0_stable dev ino ps ph)|done|].
  - apply status_of_object_readonly.
  - intros r s2 _ H2. by exists rs.
Qed.

Lemma wp_cshutdown s : F s -> wp t (consumer_shutdown_impl h) (fun _ => F) s.
Proof.
  intros Hs. unfold consumer_shutdown_impl.
  eapply (wp_other_store dev ino ps ph inc t _ _ F);
    [done|by apply (stableP_stable dev ino ps ph inc)|done|].
  intros s' Hi H'. by apply (wp_service_shutdown dev ino ps ph inc t h h_id h_base F F_stable).
Qed.
End WithFrame.
End ConsumerApi.
