(* ===== verification/ProducerSafety.v ===== *)
(** The producer's operations keep the channel contract.

    [P0 lg]: the thread has the producer's flag and writes no slot, and the log is
    [lg]; [PW k lg c]: it writes slot [k], which holds [c] so far; [PN k lg c]: slot
    [k] is published with [c] and not yet announced. [F] is whatever else the thread
    knows that its steps as the producer do not touch. *)
From S2P Require Import Prelude Errors CheckedMath Prog Concur Checksum ProcIdentity ShmObject Clock.
From S2P Require Import ChannelLayout ChannelSegment SlotProtocol ChannelAbi ControlLock Producer.
From S2P Require Import ChannelProtocol ChannelSteps ConsumerSafety.

Section ProducerSafety.
Context (dev ino ps : Z) (ph : nat) (inc : tid -> nat).

Abbreviation tick := (tick dev ino).
Abbreviation st := (st dev ino).
Abbreviation ct := (ct dev ino ps).
Abbreviation cinv := (cinv dev ino ps ph inc).
Abbreviation crely := (crely dev ino ps).
Abbreviation PO := (PO dev ino).
#[local] Hint Extern 0 (Protocol chloc chghost) =>
  exact (channel_protocol dev ino ps ph inc) : typeclass_instances.

Context (t : tid) (F : chst -> Prop).
Hypothesis F_stable : stableC dev ino ps t F.

Definition P0 (lg : list sample) (s : chst) : Prop := PO t None s /\ glog s = lg /\ F s.
Definition PW (k : Z) (lg : list sample) (c : content) (s : chst) : Prop :=
  PO t (Some k) s /\ is_slot k /\ ct s k = c /\ glog s = lg /\ F s.
Definition PN (k : Z) (lg : list sample) (c : content) (s : chst) : Prop :=
  PO t None s /\ is_slot k /\ 2 <= st s k /\ ct s k = c /\ glog s = lg /\ F s.

Ltac as_rely H := match type of H with p_rely ?t ?a ?b => change (crely t a b) in H end.

Lemma FC_rely s s' : F s -> crely t s s' -> F s'.
Proof. intros HF [? ? ? ? ? ?]. by eapply F_stable. Qed.
Lemma FC_step s s' : F s -> guarantee t s s' -> keepsC dev ino ps t s s' -> F s'.
Proof. intros HF Hg Hk. eapply F_stable; [done|by eapply guarantee_mono|done]. Qed.
Lemma FC_is_stable : stable t F.
Proof. by apply stableC_stable. Qed.

Lemma P0_stable lg : stable t (P0 lg).
Proof.
  intros s s' (H1 & H2 & H3) Hr _. as_rely Hr. split; [by eapply PO_rely|].
  split; [|by eapply FC_rely]. destruct (r_prod _ _ _ _ _ _ Hr (proj1 H1)). congruence.
Qed.
Lemma PW_stable k lg c : stable t (PW k lg c).
Proof.
  intros s s' (H1 & H2 & H3 & H4 & H5) Hr _. as_rely Hr. split; [by eapply PO_rely|].
  split; [done|]. destruct (r_prod _ _ _ _ _ _ Hr (proj1 H1)).
  split; [by rewrite kp_content|]. split; [congruence|by eapply FC_rely].
Qed.
Lemma PN_stable k lg c : stable t (PN k lg c).
Proof.
  intros s s' (H1 & H2 & H3 & H4 & H5 & H6) Hr _. as_rely Hr. split; [by eapply PO_rely|].
  split; [done|]. destruct (r_prod _ _ _ _ _ _ Hr (proj1 H1)). split; [by apply kp_published|].
  split; [by rewrite kp_content|]. split; [congruence|by eapply FC_rely].
Qed.

(** * A slot to write to *)

(** Slot [a] was being read after the log had reached its length. *)
Definition busy (a : Z) (s : chst) : Prop := 3 <= st s a \/ len s <= lo s.

Lemma busy_rely a lg s s' : is_slot a -> P0 lg s -> busy a s -> crely t s s' -> busy a s'.
Proof.
  intros Ha (Ho & Hl & _) Hb Hr. pose proof (r_lo _ _ _ _ _ _ Hr) as Hlo.
  destruct (r_prod _ _ _ _ _ _ Hr (proj1 Ho)).
  assert (len s' = len s) as Hlen by (unfold len; by rewrite kp_log).
  unfold busy. rewrite Hlen. destruct Hb as [Hb|Hb]; [|right; lia]. by apply kp_reading.
Qed.

(** While the consumer may read [a], it can read no other slot but the current one. *)
Lemma other_writable a b s :
  cinv s -> PO t None s -> is_slot a -> is_slot b -> a <> b -> busy a s ->
  (forall e, last (glog s) = Some e -> sp_slot e <> b) -> st s b = 0 \/ st s b = 2.
Proof.
  intros [_ I2 I3 _ _] [_ Ho] Ha Hb Hne Hbusy Hcur.
  pose proof (i_state _ _ _ _ I2 b Hb) as Hr.
  assert (st s b <> 1) as H1 by (intros E; by apply Ho in E).
  destruct (decide (3 <= st s b)) as [H3|]; [|lia]. exfalso.
  destruct Hbusy as [H|H]; [by apply Hne, (i_one _ _ _ _ I3)|].
  destruct (i_reading _ _ _ _ I3 b Hb H3) as (_ & q & e & Hq & Hen & Hs).
  pose proof (entry_len _ _ _ Hen) as Hql. fold (len s) in Hql.
  apply (Hcur e); [|done]. destruct Hen as [_ Hen].
  rewrite last_lookup, <- Hen. f_equal. unfold len in *. lia.
Qed.

Lemma pclaim_step k lg s :
  cinv s -> P0 lg s -> is_slot k -> st s k = 0 \/ st s k = 2 ->
  (forall e, last lg = Some e -> sp_slot e <> k) ->
  let s' := write t (Obj dev ino (SlotState k)) ss_kWriting s in
  guarantee t s s' /\ PW k lg (ct s k) s'.
Proof.
  intros Hi (Ho & Hl & HF) Hk Hst Hcur s'. subst s'.
  destruct (step_pstate dev ino ps ph inc t None k ss_kWriting s Hi Ho Hk) as (Hg & HC & Hgh & Hc).
  - lia.
  - unfold ss_kWriting. lia.
  - intros e He Hs. rewrite Hl in He. by destruct (Hcur e He).
  - split; [done|]. split.
    + split; [unfold pown in *; rewrite Hgh; apply Ho|]. intros k' Hk'.
      rewrite (st_slot dev ino ps ph inc). case_decide as E; [by subst|].
      destruct Ho as [_ Ho]. rewrite Ho by done. split; [done|congruence].
    + split; [done|]. split; [apply Hc|]. split; [unfold glog in *; by rewrite Hgh|].
      by eapply FC_step.
Qed.

Definition not_current (lg : list sample) (k : Z) : Prop :=
  forall e, last lg = Some e -> sp_slot e <> k.

(** The slots the loop has yet to look at: one that is not current when a busy one
    was passed, two otherwise. *)
Definition enough (cur : Z) (passed : option Z) (slots : list Z) : Prop :=
  NoDup slots /\ Forall is_slot slots /\
  match passed with
  | None => (2 <= length (filter (fun k => k <> cur) slots))%nat
  | Some a => is_slot a /\ (a ∉ slots) /\ (1 <= length (filter (fun k => k <> cur) slots))%nat
  end.

Definition choosing (lg : list sample) (passed : option Z) (s : chst) : Prop :=
  P0 lg s /\ forall a, passed = Some a -> is_slot a /\ busy a s.

Lemma choosing_stable lg passed : stable t (choosing lg passed).
Proof.
  intros s s' [H Hb] Hr Hi. split; [by eapply P0_stable|]. intros a Ha.
  destruct (Hb a Ha). split; [done|]. as_rely Hr. by eapply busy_rely.
Qed.

(** What the loop may find in the next slot [k]. *)
Lemma choosing_next lg passed cur slots k s :
  cinv s -> choosing lg passed s -> enough cur passed (k :: slots) -> k <> cur ->
  not_current lg k ->
  (st s k = 0 \/ st s k = 2) \/
  passed = None /\ 3 <= st s k /\ enough cur (Some k) slots.
Proof.
  intros Hi [(Ho & Hl & _) Hb] (Hnd & Hsl & Hen) Hne Hcur. pose proof Hi as [_ I2 _ _ _].
  apply NoDup_cons in Hnd as [Hnk Hnd]. apply Forall_cons in Hsl as [Hk Hsl].
  destruct passed as [a|].
  - left. destruct Hen as (Ha & Hna & _). destruct (Hb a eq_refl) as [_ Hba].
    apply (other_writable a); try done; [|by rewrite Hl].
    intros ->. by apply Hna, list_elem_of_here.
  - pose proof (i_state _ _ _ _ I2 k Hk) as Hr.
    assert (st s k <> 1) as H1 by (intros E; by apply (proj2 Ho) in E).
    destruct (decide (3 <= st s k)) as [H3|]; [right|left; lia].
    split; [done|]. split; [done|]. split; [done|]. split; [done|]. split; [done|]. split; [done|].
    rewrite filter_cons_True in Hen by done. simpl in Hen. lia.
Qed.

Lemma enough_skip cur passed k slots :
  enough cur passed (k :: slots) -> k = cur -> enough cur passed slots.
Proof.
  intros (Hnd & Hsl & Hen) ->. apply NoDup_cons in Hnd as [_ Hnd]. apply Forall_cons in Hsl as [_ Hsl].
  rewrite filter_cons_False in Hen by tauto. split; [done|]. split; [done|].
  destruct passed; [|done]. destruct Hen as (? & ? & ?). set_solver.
Qed.

(** A claim of a slot that was seen free or published fails only when the consumer
    has taken it. *)
Definition seen (lg : list sample) (passed : option Z) (k v : Z) (s : chst) : Prop :=
  choosing lg passed s /\ (v = 0 /\ st s k = 0 \/ v = 2 /\ 2 <= st s k).

Lemma seen_stable lg passed k v : is_slot k -> stable t (seen lg passed k v).
Proof.
  intros Hk s s' [H Hv] Hr Hi. split; [by eapply choosing_stable|]. as_rely Hr.
  destruct H as [(Ho & _) _]. destruct (r_prod _ _ _ _ _ _ Hr (proj1 Ho)).
  destruct Hv as [[? ?]|[? ?]]; [left|right]; auto.
Qed.

Lemma PW_ex_stable k lg : stable t (fun s => exists c, PW k lg c s).
Proof. intros s s' [c H] Hr Hi. exists c. by eapply PW_stable. Qed.

Lemma wp_choose_slot stride cur lg passed slots s :
  0 < ps <= kMaxPayloadSize -> slot_stride ps = Some stride -> enough cur passed slots ->
  (forall k, is_slot k -> k <> cur -> not_current lg k) -> choosing lg passed s ->
  wp t (choose_slot (Obj dev ino) stride cur slots)
    (fun r s' => exists k c, r = Some k /\ PW k lg c s') s.
Proof.
  intros Hps Hstr Hen Hcur. revert passed s Hen.
  induction slots as [|k slots IH]; intros passed s Hen Hs.
  { exfalso. destruct passed, Hen as (_ & _ & H); simpl in H; [|lia]. destruct H as (_ & _ & H). lia. }
  cbn [choose_slot]. bdestr (k =? cur); [by eapply IH; [eapply enough_skip|]|].
  assert (is_slot k) as Hk by (destruct Hen as (_ & Hsl & _); by apply Forall_cons in Hsl as [? _]).
  destruct (slot_offset_ok ps stride k Hps Hstr Hk) as [o ->].
  assert (forall s', cinv s' -> choosing lg passed s' -> 3 <= st s' k ->
    choosing lg (Some k) s' /\ enough cur (Some k) slots) as Hbusy.
  { intros s' Hi' H' H3. destruct (choosing_next _ _ _ _ _ _ Hi' H' Hen E (Hcur k Hk E))
      as [?|(-> & _ & He)]; [lia|]. split; [|done]. split; [apply H'|]. intros a [= <-].
    split; [done|by left]. }
  eapply (wp_bind_load _ _ _ (choosing lg passed) (fun v s' =>
    if decide (v = 0 \/ v = 2) then seen lg passed k v s'
    else choosing lg (Some k) s' /\ enough cur (Some k) slots)); [apply choosing_stable| |done|..].
  { intros v. destruct (decide _); [by apply seen_stable|].
    apply stable_and; [apply choosing_stable|apply stable_pure]. }
  { intros s' Hi' H'. change (c_mem s' _) with (st s' k).
    destruct (choosing_next _ _ _ _ _ _ Hi' H' Hen E (Hcur k Hk E)) as [H|(_ & H & _)].
    - rewrite decide_True by done. split; [done|]. lia.
    - rewrite decide_False by lia. by apply Hbusy. }
  clear dependent s. intros v s Hi Hs. unfold ss_kFree, ss_kPublished.
  destruct (decide (v = 0 \/ v = 2)) as [Hv|Hv].
  2:{ bdestr (v =? 0); [lia|]. bdestr (v =? 2); [lia|]. cbn [negb andb]. destruct Hs. by eapply IH. }
  replace (negb (v =? 0) && negb (v =? 2)) with false
    by (destruct Hv as [->| ->]; done).
  unfold slot_claim_writable, shared_cas_acquire.
  eapply (wp_bind_cas _ _ _ _ _ (seen lg passed k v) (fun s => exists c, PW k lg c s)
    (fun s => choosing lg (Some k) s /\ enough cur (Some k) slots));
    [by apply seen_stable|apply PW_ex_stable|apply stable_and; [apply choosing_stable|apply stable_pure]
    |done|..].
  - intros s' Hi' [[H' _] Hsv] Heq. change (c_mem s' _) with (st s' k) in Heq.
    destruct (pclaim_step k lg s' Hi' H' Hk) as [Hg HW]; [lia|exact (Hcur k Hk E)|].
    split; [done|]. by eexists.
  - intros s' Hi' [H' Hsv] Hne. change (c_mem s' _) with (st s' k) in Hne. apply Hbusy; [done..|lia].
  - intros s' Hi' H'. eapply (wp_ret _ _ (fun s => exists c, PW k lg c s)); [apply PW_ex_stable|done|]. intros s2 _ [c H2]. by exists k, c.
  - intros s' Hi' [H' He]. by eapply IH.
Qed.

(** * Writing the slot *)

Definition set_size (v : Z) (c : content) : content :=
  mkContent v (sl_seq c) (sl_ns c) (sl_sum c) (sl_payload c).
Definition set_seq (v : Z) (c : content) : content :=
  mkContent (sl_size c) v (sl_ns c) (sl_sum c) (sl_payload c).
Definition set_ns (v : Z) (c : content) : content :=
  mkContent (sl_size c) (sl_seq c) v (sl_sum c) (sl_payload c).
Definition set_sum (v : Z) (c : content) : content :=
  mkContent (sl_size c) (sl_seq c) (sl_ns c) v (sl_payload c).
Definition set_payload (p : list Z) (c : content) : content :=
  mkContent (sl_size c) (sl_seq c) (sl_ns c) (sl_sum c) p.

Ltac content_field :=
  unfold ChannelProtocol.ct, m_content, m_payload, write; cbn [c_mem sl_size sl_seq sl_ns sl_sum sl_payload];
  rewrite ?upd_eq; f_equal; rewrite ?upd_ne by congruence; try done;
  apply map_ext; intros; by rewrite upd_ne by congruence.

Lemma ct_size k v s :
  ct (write t (Obj dev ino (SlotPayloadSize k)) v s) k = set_size v (ct s k).
Proof. unfold set_size. content_field. Qed.
Lemma ct_seq k v s : ct (write t (Obj dev ino (SlotSequence k)) v s) k = set_seq v (ct s k).
Proof. unfold set_seq. content_field. Qed.
Lemma ct_ns k v s : ct (write t (Obj dev ino (SlotPublishNs k)) v s) k = set_ns v (ct s k).
Proof. unfold set_ns. content_field. Qed.
Lemma ct_sum k v s : ct (write t (Obj dev ino (SlotChecksum k)) v s) k = set_sum v (ct s k).
Proof. unfold set_sum. content_field. Qed.
Lemma lookup_map {A B} (f : A -> B) (l : list A) i : map f l !! i = f <$> l !! i.
Proof. revert i. by induction l as [|x l IH]; intros [|i]; simpl. Qed.
Lemma ct_payload k j v s :
  ct (write t (Obj dev ino (SlotPayload k j)) v s) k =
  set_payload (<[j := v]> (sl_payload (ct s k))) (ct s k).
Proof.
  unfold set_payload, ChannelProtocol.ct, m_content, m_payload, write.
  cbn [c_mem sl_size sl_seq sl_ns sl_sum sl_payload]. f_equal; rewrite ?upd_ne by congruence; try done.
  apply list_eq. intros i. rewrite lookup_map.
  destruct (decide (i = j)) as [->|Hne].
  - destruct (decide (j < Z.to_nat ps)%nat) as [Hj|Hj].
    + rewrite list_lookup_insert_eq by (by rewrite length_map, length_seq).
      rewrite lookup_seq_lt by done. simpl. by rewrite upd_eq.
    + rewrite list_insert_ge by (rewrite length_map, length_seq; lia).
      rewrite lookup_map, lookup_seq_ge by lia. done.
  - rewrite list_lookup_insert_ne by done. rewrite lookup_map.
    destruct (decide (i < Z.to_nat ps)%nat) as [Hi|Hi].
    + rewrite lookup_seq_lt by done. simpl. rewrite upd_ne; [done|congruence].
    + by rewrite lookup_seq_ge by lia.
Qed.

Lemma wp_content_store l v k lg c c' s :
  kind_of dev ino ph l = kd_content k -> 0 <= sl_seq c' <= kMaxSampleSequence ->
  (forall s, ct s k = c -> ct (write t l v s) k = c') -> PW k lg c s ->
  wp t (trigger (Store l v)) (fun _ => PW k lg c') s.
Proof.
  intros Hl Hq Hc Hs.
  eapply (wp_trigger_store _ _ _ (PW k lg c) (PW k lg c')); [apply PW_stable..|done|].
  intros s' Hi (Ho & Hk & Hct & Hlg & HF). pose proof (Hc s' Hct) as Hct'.
  destruct (step_pcontent dev ino ps ph inc t k l v s' Hi Ho Hk Hl) as (Hg & HC & Ho' & Hgh);
    [by rewrite Hct'|].
  split; [done|]. split; [done|]. split; [done|]. split; [done|].
  split; [unfold glog in *; by rewrite Hgh|]. by eapply FC_step.
Qed.

(** The bytes at the start of a payload. *)
Lemma wp_slot_store_payload k lg n j bs c s :
  0 <= sl_seq c <= kMaxSampleSequence -> PW k lg c s ->
  wp t (store_list (zip (map (fun i => Obj dev ino (SlotPayload k i)) (seq j n)) bs))
    (fun _ => PW k lg (set_payload (list_inserts j (take n bs) (sl_payload c)) c)) s.
Proof.
  revert j bs c s. induction n as [|n IH]; intros j bs c s Hq Hs.
  { eapply wp_ret; [apply PW_stable|done|]. intros s' _ H'. by destruct c. }
  destruct bs as [|b bs]; cbn [seq map zip zip_with store_list take list_inserts].
  { eapply wp_ret; [apply PW_stable|done|]. intros s' _ H'. by destruct c. }
  change (Vis (Store ?l ?v) ?g) with (bind (trigger (Store l v)) g).
  eapply wp_seq; [eapply (wp_content_store _ _ k lg c (set_payload (<[j:=b]> (sl_payload c)) c))|].
  - simpl. by rewrite decide_True.
  - done.
  - intros s' <-. apply ct_payload.
  - done.
  - intros [] s' Hi H'. eapply wp_mono;
      [|apply (IH (S j) bs (set_payload (<[j:=b]> (sl_payload c)) c) s' Hq H')]. intros [] s2 _ H2. cbn [sl_payload set_payload] in H2.
    rewrite list_insert_inserts_lt by lia. done.
Qed.

(** * Publishing, announcing, giving up *)

Definition other_loc (l : chloc) : Prop := kind_of dev ino ph l = kd_other.

(** Writes to fields the contract does not look at. *)
Lemma wp_others {A} (p : cprog A) (R : chst -> Prop) (s : chst) :
  writes_in other_loc p -> stable t R -> R s -> wp t p (fun _ => R) s.
Proof.
  intros Hp HR Hs. eapply (wp_writes_in _ other_loc); [|done..].
  intros l v s' Hl Hi. destruct (step_other dev ino ps ph inc t l v s' Hl Hi) as [Hg Hr].
  split; [done|apply Hr].
Qed.

Lemma slot_done k lg c v s :
  cinv s -> PW k lg c s -> v = 0 \/ v = 2 ->
  let s' := write t (Obj dev ino (SlotState k)) v s in
  guarantee t s s' /\ P0 lg s' /\ st s' k = v /\ ct s' k = c.
Proof.
  intros Hi (Ho & Hk & Hc & Hl & HF) Hv s'. subst s'.
  assert (st s k = 1) as H1 by (by apply (proj2 Ho)).
  destruct (step_pstate dev ino ps ph inc t (Some k) k v s Hi Ho Hk) as (Hg & HC & Hgh & Hct).
  - lia.
  - lia.
  - intros e He Hs. destruct Hi as [I1 _ _ _ _]. destruct (i_latest _ _ _ _ I1 e He) as [H2 _].
    rewrite Hs in H2. lia.
  - split; [done|]. rewrite (st_slot dev ino ps ph inc), decide_True, Hct by done.
    split; [|done]. split; [|split; [unfold glog in *; by rewrite Hgh|by eapply FC_step]].
    split; [unfold pown in *; rewrite Hgh; apply Ho|]. intros k' Hk'.
    rewrite (st_slot dev ino ps ph inc). destruct (decide (k' = k)) as [->|Hne]; [split; [lia|done]|].
    destruct Ho as [_ Ho]. rewrite Ho by done. split; [congruence|done].
Qed.

Lemma wp_slot_publish k lg c s :
  PW k lg c s -> wp t (slot_publish (Obj dev ino) k) (fun _ => PN k lg c) s.
Proof.
  intros Hs. eapply (wp_trigger_store _ _ _ (PW k lg c) (PN k lg c));
    [apply PW_stable|apply PN_stable|done|].
  intros s' Hi H. destruct (slot_done k lg c ss_kPublished s' Hi H) as (Hg & (? & ? & ?) & Hst & Hc); [by right|].
  split; [done|]. destruct H as (_ & Hk & _). split; [done|]. split; [done|].
  split; [rewrite Hst; unfold ss_kPublished; lia|]. by split.
Qed.

Lemma wp_slot_abort k lg c s :
  PW k lg c s -> wp t (slot_abort_write (Obj dev ino) k) (fun _ => P0 lg) s.
Proof.
  intros Hs. eapply (wp_trigger_store _ _ _ (PW k lg c) (P0 lg)); [apply PW_stable|apply P0_stable|done|].
  intros s' Hi H. destruct (slot_done k lg c 0 s' Hi H) as (Hg & H0 & _); [by left|done].
Qed.

Definition announced (k ns : Z) (bs : list Z) : sample := mkSample k ns bs t.

Lemma wp_announce k lg ns bs s :
  let q := Z.of_nat (length lg) + 1 in
  q <= kMaxSampleSequence -> PN k lg (mkContent ps q ns (fnv1a64 bs) bs) s ->
  wp t (announce_sample (Obj dev ino) q k ns) (fun _ => P0 (lg ++ [announced k ns bs])) s.
Proof.
  intros q Hq Hs. set (lg' := lg ++ [announced k ns bs]). unfold announce_sample.
  eapply (wp_bind_store _ _ _ _ (PN k lg _) (P0 lg')); [apply PN_stable|apply P0_stable|exact Hs|..].
  { intros s' Hi (Ho & Hk & H2 & Hc & Hl & HF).
    assert (q = len s' + 1) as -> by (unfold len; by rewrite Hl).
    destruct (step_ticket dev ino ps ph inc t k s' Hi Ho Hk H2) as (Hg & HC & Ho' & Hl').
    - lia.
    - cbv zeta. rewrite Hc. cbn [sl_ns sl_payload]. done.
    - split; [done|]. split; [done|]. split; [|by eapply FC_step]. rewrite Hl', Hl, Hc. done. }
  clear dependent s. intros s Hi Hs.
  apply wp_others; [|apply P0_stable|done]. unfold shared_fetch_add_relaxed_u64,
    shared_store_relaxed, shared_fetch_add_relaxed_u32, futex_wake.
  repeat (split; [by apply kind_head || done|intros ?]). done.
Qed.

(** * The use flag *)

Lemma P0_ex_stable : stable t (fun s => exists lg, P0 lg s).
Proof. intros s s' [lg H] Hr Hi. exists lg. by eapply P0_stable. Qed.

Lemma ptake_step s :
  cinv s -> F s -> puse ph s = 0 ->
  let s' := write t (PHnd ph hl_operation_in_use) 1 s in guarantee t s s' /\ exists lg, P0 lg s'.
Proof.
  intros Hi HF Hu s'.
  destruct (step_pacquire dev ino ps ph inc t s Hi Hu) as (Hg & HC & Ho & Hl).
  split; [done|]. exists (glog s). split; [done|]. split; [done|]. by eapply FC_step.
Qed.

Lemma wp_ptake_flag {A} (f : bool -> cprog A) Q s :
  F s -> (forall s', cinv s' -> F s' -> wp t (f true) Q s') ->
  (forall lg s', cinv s' -> P0 lg s' -> wp t (f false) Q s') ->
  wp t (bind (exchange_true (PHnd ph hl_operation_in_use)) f) Q s.
Proof.
  intros Hs Hused Hfree. eapply wp_seq with
    (Q1 := fun (b : bool) s' => if b then F s' else exists lg, P0 lg s');
    [|intros [] s' Hi H; [by apply Hused|destruct H as [lg H]; by eapply Hfree]].
  unfold exchange_true.
  eapply (wp_bind_cas _ _ _ _ _ F (fun s => exists lg, P0 lg s) F);
    [apply FC_is_stable|apply P0_ex_stable|apply FC_is_stable|done|..].
  - intros s' Hi HF Hu. by apply ptake_step.
  - done.
  - intros s' Hi H. eapply wp_ret; [apply P0_ex_stable|done|done].
  - intros s' Hi H. eapply wp_ret; [apply FC_is_stable|done|done].
Qed.

Lemma pgive_step lg s :
  cinv s -> P0 lg s ->
  let s' := write t (PHnd ph hl_operation_in_use) 0 s in guarantee t s s' /\ F s'.
Proof.
  intros Hi (Ho & _ & HF) s'. destruct (step_prelease dev ino ps ph inc t s Hi Ho) as (Hg & HC & _).
  split; [done|]. by eapply FC_step.
Qed.

Lemma wp_pgive_flag lg s :
  P0 lg s -> wp t (shared_store_release (PHnd ph hl_operation_in_use) 0) (fun _ => F) s.
Proof.
  intros Hs. eapply (wp_trigger_store _ _ _ (P0 lg) F); [apply P0_stable|apply FC_is_stable|done|].
  intros s' Hi H. by eapply pgive_step.
Qed.
End ProducerSafety.
