(* ===== verification/ProducerOps.v ===== *)
(** The operations of a producer, as the channel contract sees them: a [publish] or
    a [commit] that succeeds adds one sample to the log, with the bytes that were
    given to it, and neither ever lacks a slot to write to. *)
From S2P Require Import Prelude Errors CheckedMath Prog Concur Checksum ProcIdentity ShmObject Clock.
From S2P Require Import ChannelLayout ChannelSegment SlotProtocol ChannelAbi ControlLock Producer Consumer.
From S2P Require Import ChannelProtocol ChannelSteps ConsumerSafety ConsumerOps ProducerSafety.

Section ProducerApi.
Context (dev ino ps : Z) (ph : nat) (inc : tid -> nat).
Abbreviation cinv := (cinv dev ino ps ph inc).
#[local] Hint Extern 0 (Protocol chloc chghost) =>
  exact (channel_protocol dev ino ps ph inc) : typeclass_instances.

Context (t : tid) (p : ProducerHandle).
Hypothesis p_id : pd_id p = ph.
Hypothesis p_base : pd_base p = Obj dev ino.
Hypothesis p_ps : pd_payload_size p = ps.
Hypothesis ps_ok : 0 < ps <= kMaxPayloadSize.

Abbreviation P0 := (P0 dev ino t).
Abbreviation PW := (PW dev ino ps t).
Abbreviation PN := (PN dev ino ps t).
Abbreviation stableC := (stableC dev ino ps t).

Lemma growing_andC F G : stableC F -> growing G -> stableC (fun s => F s /\ G s).
Proof. intros HF HG s s' [H1 H2] Hm Hk. split; eauto. Qed.

(** ** Shutdown *)

Lemma pread_loop_readonly n op fd size got0 off : @readonly chloc _ (pread_loop n op fd size got0 off).
Proof. revert got0 off. induction n as [|n IH]; intros; cbn [pread_loop]; solve_readonly. Qed.
#[local] Hint Resolve pread_loop_readonly : prog_db.
Lemma read_journal_readonly lock : readonly (read_journal lock).
Proof. unfold read_journal. solve_readonly. Qed.
Lemma control_lock_acquire_readonly path : @readonly chloc _ (control_lock_acquire path).
Proof. unfold control_lock_acquire. solve_readonly. Qed.
#[local] Hint Resolve read_journal_readonly control_lock_acquire_readonly : prog_db.

Lemma mark_producer_offline_others : writes_in (other_loc dev ino ph) (mark_producer_offline p).
Proof.
  unfold mark_producer_offline, control_lock_release, channel_lock_path. rewrite p_base. solve_writes.
  - split; [by apply kind_head|done].
  - split; [done|done].
  - split; [done|done].
Qed.

Lemma wp_service_pshutdown F s :
  stableC F -> F s -> wp t (service_producer_shutdown p) (fun _ => F) s.
Proof.
  intros HF Hs. unfold service_producer_shutdown, shared_load_acquire. rewrite p_id.
  assert (stable t F) as HF' by (by apply FC_is_stable).
  eapply wp_readonly_bind; [solve_readonly|done|done|]. clear dependent s.
  intros v s Hi Hs. destruct (v =? 0); [by eapply wp_ret|].
  eapply (wp_bind_cas _ _ _ _ _ F (fun s => exists lg, P0 F lg s) F);
    [done|by apply P0_ex_stable|done|done|..].
  - intros s' Hi' HF2 Hu. by apply ptake_step.
  - done.
  - intros s' Hi' [lg H']. cbn [negb].
    eapply wp_seq with (Q1 := fun _ => P0 F lg).
    { apply wp_others; [|by apply P0_stable|done]. split; [done|done]. }
    intros b s2 Hi2 H2. eapply wp_seq with (Q1 := fun _ => P0 F lg).
    { destruct b; [|eapply wp_ret; [by apply P0_stable|done|done]].
      apply wp_others; [apply mark_producer_offline_others|by apply P0_stable|done]. }
    intros [] s3 Hi3 H3. by eapply wp_pgive_flag.
  - intros s' Hi' H'. cbn [negb]. by eapply wp_ret.
Qed.

Lemma wp_pshutdown F s : stableC F -> F s -> wp t (producer_shutdown_impl p) (fun _ => F) s.
Proof.
  intros HF Hs. unfold producer_shutdown_impl. eapply wp_seq with (Q1 := fun _ => F).
  - apply wp_others; [split; [done|done]|by apply FC_is_stable|done].
  - intros [] s' Hi H'. by apply wp_service_pshutdown.
Qed.

(** ** Choosing a slot *)

Definition current_slot (lg : list sample) : Z :=
  if log_ticket lg =? 0 then kInvalidSlot else ticket_slot (log_ticket lg).

Lemma log_ticket_facts lg s :
  cinv s -> glog s = lg ->
  checked_next_sequence (log_ticket lg) =
    (if decide (Z.of_nat (length lg) < kMaxSampleSequence) then Some (Z.of_nat (length lg) + 1)
     else None) /\
  forall k, is_slot k -> k <> current_slot lg -> not_current lg k.
Proof.
  intros Hi <-. pose proof Hi as [[_ Ht _ _ _] _ _ _ _].
  destruct (tick_cases dev ino ps ph inc s Hi) as [[Ht0 Hl]|(e & He & _ & Hk & Hq & Hs & Hne & Hr)].
  - rewrite Hl. split; [by vm_compute|]. intros k _ _ e'. done.
  - unfold current_slot. rewrite <- Ht. fold (len s). split.
    + unfold checked_next_sequence. rewrite Hq.
      assert (kMaxSampleSequence < UINT64_MAX) by by vm_compute.
      case_decide; bdestr (kMaxSampleSequence <=? len s); try lia; [|done].
      by rewrite u64_small by mlia.
    + bdestr (tick dev ino s =? 0); [done|]. rewrite Hs. intros k _ Hne' e' He'. congruence.
Qed.

Lemma enough_slots cur : enough cur None slot_indices.
Proof.
  split; [by apply (bool_decide_unpack _); vm_compute|].
  split; [by repeat constructor|]. unfold slot_indices. rewrite !filter_cons, filter_nil.
  repeat case_decide; simpl; lia.
Qed.

Lemma wp_choose F lg stride s :
  stableC F -> slot_stride ps = Some stride -> cinv s -> P0 F lg s ->
  wp t (choose_slot (Obj dev ino) stride (current_slot lg) slot_indices)
    (fun r s' => exists k c, r = Some k /\ PW F k lg c s') s.
Proof.
  intros HF Hst Hi Hs. destruct (log_ticket_facts lg s Hi) as [_ Hcur]; [apply Hs|].
  eapply (wp_choose_slot dev ino ps ph inc t F HF stride _ lg None);
    [done|done|apply enough_slots|done|]. split; [done|]. by intros a.
Qed.

(** ** Results *)

Definition publish_error (n : Z) (e : Error) (s : chst) : Prop :=
  err_code e ∈ [kConcurrentHandleUse; kStaleHandle; kProducerOffline; kClockAnomaly] \/
  err_code e = kPayloadEncodeFailed /\ n <> ps \/
  err_code e = kSequenceExhausted /\ kMaxSampleSequence <= len s.

Lemma publish_error_growing n e : growing (publish_error n e).
Proof.
  intros s s' [H|[H|[H1 H2]]] Hm; [by left|by right; left|]. apply mono_len in Hm.
  right. right. split; [done|lia].
Qed.

(** The sample [info] is about. *)
Definition publish_fact (info : PublishInfo) (bs : list Z) (s : chst) : Prop :=
  exists e, entry (glog s) (pi_sequence info) e /\ sp_bytes e = bs /\ sp_author e = t /\
    sp_ns e = pi_publish_boot_ns info /\ pi_generation info = pd_generation p /\
    length bs = Z.to_nat ps.

Lemma publish_fact_growing info bs : growing (publish_fact info bs).
Proof. intros s s' (e & H & He) [Hl _ _ _]. exists e. split; [by eapply entry_prefix|done]. Qed.

Definition publish_result (n0 : Z) (bs : list Z) (r : Result PublishInfo) (s : chst) : Prop :=
  match r with
  | Ok info => publish_fact info bs s /\ n0 < pi_sequence info
  | Err e => publish_error (Z.of_nat (length bs)) e s
  end.

Lemma publish_result_growing n0 bs r : growing (publish_result n0 bs r).
Proof.
  destruct r as [info|e]; [|apply publish_error_growing].
  intros s s' [H ?] Hm. split; [by eapply publish_fact_growing|done].
Qed.

Lemma verify_readonly op : readonly (verify_handle_ownership p op).
Proof. unfold verify_handle_ownership. solve_readonly. Qed.
Definition refused (r : Result unit) : Prop :=
  forall e, r = Err e -> err_code e ∈ [kConcurrentHandleUse; kStaleHandle; kProducerOffline; kClockAnomaly].
Lemma verify_errors op : leaves refused (verify_handle_ownership p op).
Proof.
  unfold verify_handle_ownership.
  repeat first [apply leaves_bind_any; intros ?
               |progress cbv zeta
               |match goal with |- leaves _ (if ?x then _ else _) => destruct x end];
    intros e [= <-]; simpl; repeat constructor.
Qed.

(** Checking the handle under a stable assertion. *)
Lemma wp_verify {A} op (R : chst -> Prop) (f : Result unit -> cprog A) Q (s : chst) :
  stable t R -> R s -> (forall s', cinv s' -> R s' -> wp t (f (Ok tt)) Q s') ->
  (forall e s', cinv s' -> R s' -> (forall n s, publish_error n e s) -> wp t (f (Err e)) Q s') ->
  wp t (bind (verify_handle_ownership p op) f) Q s.
Proof.
  intros HR Hs Hok Herr. eapply wp_seq.
  - eapply (wp_readonly_leaves _ _ _ R (fun r s' => R s' /\ refused r));
      [apply verify_readonly|apply verify_errors|done|done|]. intros r s' _ Hr H'. exact (conj H' Hr).
  - cbv beta. intros [[]|e] s' Hi [H' He]; [by apply Hok|].
    apply Herr; [done..|]. intros n s2. left. by apply He.
Qed.

(** ** Write loans *)

(** A loan in use: its slot is held by the thread for the next sample, and the
    payload is [pl] so far. *)
Definition lent (loan : WriteLoan) (pl : list Z) (s : chst) : Prop :=
  exists k lg c,
    loan = mkWriteLoan (Some p) (Some k) (Some k) ps k (Z.of_nat (length lg) + 1) true /\
    Z.of_nat (length lg) < kMaxSampleSequence /\ 0 <= sl_seq c <= kMaxSampleSequence /\
    PW (fun _ => True) k lg c s /\ sl_payload c = pl.

Lemma lent_stableP loan pl : stableP dev ino ps t (lent loan pl).
Proof.
  intros s s' (k & lg & c & H1 & H2 & H3 & ([Ho Hw] & Hk & Hc & Hl & _) & H4) _ Hr.
  destruct (Hr Ho). exists k, lg, c. split; [done|]. split; [done|]. split; [done|]. split; [|done].
  split; [split; [done|intros k' Hk'; rewrite kp_writing by done; auto]|].
  split; [done|]. split; [by rewrite kp_content|]. split; [congruence|done].
Qed.

Section WithFrame.
Context (F : chst -> Prop) (n0 : Z).
Hypothesis F_stable : stableC F.
Hypothesis F_len : forall s, F s -> n0 <= len s.

(** An error that leaves the log as it is. *)
Lemma wp_perr {A} lg e n (Q : Result A -> chst -> Prop) s :
  P0 F lg s -> (forall s', P0 F lg s' -> publish_error n e s') ->
  (forall s', P0 F lg s' -> publish_error n e s' -> Q (Err e) s') ->
  wp t (Ret (Err e)) Q s.
Proof.
  intros Hs He HQ. eapply wp_ret; [by apply (P0_stable dev ino ps ph inc)|done|]. intros s' _ H'. auto.
Qed.

(** The writes of [publish] and of [commit]. *)
Lemma kind_slot_field k f :
  f ∈ [SlotPayloadSize k; SlotSequence k; SlotPublishNs k; SlotChecksum k] ->
  kind_of dev ino ph (Obj dev ino f) = kd_content k.
Proof.
  intros Hf. simpl. rewrite decide_True by done.
  repeat (apply elem_of_cons in Hf as [->|Hf]; [done|]). by apply elem_of_nil in Hf.
Qed.

Lemma wp_field {A} k lg c c' f v (g : unit -> cprog A) Q s :
  f ∈ [SlotPayloadSize k; SlotSequence k; SlotPublishNs k; SlotChecksum k] ->
  0 <= sl_seq c' <= kMaxSampleSequence ->
  (forall s, ct dev ino ps s k = c -> ct dev ino ps (write t (Obj dev ino f) v s) k = c') ->
  PW F k lg c s -> (forall s', cinv s' -> PW F k lg c' s' -> wp t (g tt) Q s') ->
  wp t (bind (shared_store_relaxed (Obj dev ino f) v) g) Q s.
Proof.
  intros Hf Hc Hw Hs Hg.
  eapply wp_seq; [eapply (wp_content_store dev ino ps ph inc t F F_stable _ _ k lg c c');
    [by apply kind_slot_field|done..]|]. intros [] s' Hi H'. by apply Hg.
Qed.

Lemma wp_write_head {A} k lg c q ns (f : cprog A) Q s :
  0 <= sl_seq c <= kMaxSampleSequence -> 0 <= q <= kMaxSampleSequence -> PW F k lg c s ->
  (forall s', cinv s' -> PW F k lg (mkContent ps q ns (sl_sum c) (sl_payload c)) s' -> wp t f Q s') ->
  wp t (do! shared_store_relaxed (Obj dev ino (SlotPayloadSize k)) ps;
        do! shared_store_relaxed (Obj dev ino (SlotSequence k)) q;
        do! shared_store_relaxed (Obj dev ino (SlotPublishNs k)) ns; f) Q s.
Proof.
  intros Hc Hq Hs Hf.
  eapply (wp_field k lg c (set_size ps c)); [set_solver|done|by intros s' <-; apply ct_size|done|].
  clear dependent s. intros s Hi Hs.
  eapply (wp_field k lg _ (set_seq q (set_size ps c)));
    [set_solver|done|by intros s' E; rewrite ct_seq, E|done|].
  clear dependent s. intros s Hi Hs.
  eapply (wp_field k lg _ (set_ns ns (set_seq q (set_size ps c))));
    [set_solver|done|by intros s' E; rewrite ct_ns, E|done|]. done.
Qed.

Lemma wp_finish {A} k lg ns sum bs (f : cprog A) Q s :
  let q := Z.of_nat (length lg) + 1 in
  q <= kMaxSampleSequence -> PW F k lg (mkContent ps q ns sum bs) s ->
  (forall s', cinv s' -> P0 F (lg ++ [announced t k ns bs]) s' -> wp t f Q s') ->
  wp t (do! shared_store_relaxed (Obj dev ino (SlotChecksum k)) (fnv1a64 bs);
        do! slot_publish (Obj dev ino) k;
        do! announce_sample (Obj dev ino) q k ns; f) Q s.
Proof.
  intros q Hq Hs Hf.
  eapply (wp_field k lg (mkContent ps q ns sum bs) (mkContent ps q ns (fnv1a64 bs) bs));
    [set_solver|cbn; lia|by intros s' E; rewrite ct_sum, E|done|].
  clear dependent s. intros s Hi Hs.
  eapply wp_seq; [by apply (wp_slot_publish dev ino ps ph inc t F F_stable k lg)|].
  clear dependent s. intros [] s Hi Hs.
  eapply wp_seq; [by apply (wp_announce dev ino ps ph inc t F F_stable k lg)|].
  clear dependent s. intros [] s Hi Hs. by apply Hf.
Qed.

Lemma P0_result lg k ns bs s :
  length bs = Z.to_nat ps ->
  n0 <= Z.of_nat (length lg) -> P0 F (lg ++ [announced t k ns bs]) s ->
  publish_result n0 bs (Ok (mkPublishInfo (pd_generation p) (Z.of_nat (length lg) + 1) ns)) s.
Proof.
  intros Hb Hn (_ & Hl & HF). split; [|simpl; lia]. exists (announced t k ns bs). cbn [pi_sequence].
  split; [|done]. split; [lia|]. rewrite Hl.
  replace (Z.to_nat _) with (length lg) by lia. by rewrite lookup_app_r, Nat.sub_diag by lia.
Qed.

(** [G] holds of what the operation returns, and the flag is given back. *)
Lemma wp_with_puse {A} op (body : cprog (Result A)) (G : Result A -> chst -> Prop) s :
  (forall r, growing (G r)) ->
  (forall s', G (Err (make_error kConcurrentHandleUse op "concurrent handle use")) s') ->
  F s ->
  (forall lg s', cinv s' -> P0 F lg s' ->
     wp t body (fun r s2 => exists lg', P0 F lg' s2 /\ G r s2) s') ->
  wp t (with_use (PHnd (pd_id p) hl_operation_in_use) op body) (fun r s' => F s' /\ G r s') s.
Proof.
  intros HG Hused Hs Hbody. unfold with_use. rewrite p_id.
  eapply (wp_ptake_flag dev ino ps ph inc t F F_stable); [done|..].
  - intros s' Hi H'. eapply wp_ret; [by apply (FC_is_stable dev ino ps ph inc)|done|]. by split.
  - intros lg s' Hi H'. eapply wp_seq; [by eapply Hbody|]. intros r s2 Hi2 (lg' & H2 & Hr).
    set (F' := fun s => F s /\ G r s).
    assert (stableC F') as HF' by (by apply growing_andC).
    eapply wp_seq; [apply (wp_pgive_flag dev ino ps ph inc t F' HF' lg')|].
    + destruct H2 as (? & ? & ?). by split.
    + intros [] s3 Hi3 H3. eapply wp_ret; [by apply (FC_is_stable dev ino ps ph inc)|done|done].
Qed.

Lemma publish_error_refused n s e :
  err_code e ∈ [kConcurrentHandleUse; kStaleHandle; kProducerOffline; kClockAnomaly] ->
  publish_error n e s.
Proof. by left. Qed.

Lemma PW_payload k lg c s : PW F k lg c s -> length (sl_payload c) = Z.to_nat ps.
Proof. intros (_ & _ & <- & _). cbn. unfold m_payload. by rewrite length_map, length_seq. Qed.
Lemma PW_n0 k lg c s : PW F k lg c s -> n0 <= Z.of_nat (length lg).
Proof. intros (_ & _ & _ & <- & HF). by apply F_len. Qed.

(** Writing [bs] from the start of the payload. *)
Definition overwrite (bs old : list Z) : list Z := list_inserts 0 (take (Z.to_nat ps) bs) old.

Lemma overwrite_all bs old :
  length bs = Z.to_nat ps -> length old = Z.to_nat ps -> overwrite bs old = bs.
Proof.
  intros Hb Ho. unfold overwrite. rewrite take_ge by lia. rewrite <- (app_nil_r bs) at 1.
  apply list_inserts_0_l. lia.
Qed.

Lemma wp_put_payload k lg c bs s :
  0 <= sl_seq c <= kMaxSampleSequence -> PW F k lg c s ->
  wp t (store_list (zip (payload_locs (Obj dev ino) ps k) bs))
    (fun _ => PW F k lg (set_payload (overwrite bs (sl_payload c)) c)) s.
Proof.
  intros Hc Hs. unfold payload_locs, slot_payload_locs. rewrite map_map.
  by apply (wp_slot_store_payload dev ino ps ph inc t F F_stable).
Qed.

Lemma wp_publish_unlocked bs lg s :
  cinv s -> P0 F lg s ->
  wp t (publish_unlocked p bs) (fun r s' => exists lg', P0 F lg' s' /\ publish_result n0 bs r s') s.
Proof.
  intros Hi0 Hs. unfold publish_unlocked. rewrite p_base, p_ps.
  assert (forall e s', P0 F lg s' -> (forall s2, P0 F lg s2 -> publish_error (Z.of_nat (length bs)) e s2) ->
    wp t (Ret (Err e)) (fun r s' => exists lg', P0 F lg' s' /\ publish_result n0 bs r s') s') as Herr.
  { intros e s' H' He. eapply wp_ret; [by apply (P0_stable dev ino ps ph inc)|done|].
    intros s2 _ H2. exists lg. split; [done|]. by apply He. }
  bdestr (Z.of_nat (length bs) =? ps); cbn [negb];
    [|apply Herr; [done|]; intros s2 _; right; left; done].
  apply wp_verify with (R := P0 F lg); [by apply P0_stable|done|..]; clear dependent s;
    [|intros e s Hi Hs He; by apply Herr].
  intros s Hi Hs. cbv beta iota. unfold shared_load_acquire.
  eapply (wp_bind_known _ _ (log_ticket lg) _ (P0 F lg)); [by apply (P0_stable dev ino ps ph inc)|done|..].
  { intros s' [I1 _ _ _ _] (_ & <- & _). apply I1. }
  clear dependent s. intros s Hi Hs.
  destruct (log_ticket_facts lg s Hi) as [-> _]; [apply Hs|]. case_decide as Hlen.
  2:{ apply Herr; [done|]. intros s2 (_ & Hl & _). right. right. split; [done|]. unfold len.
      rewrite Hl. lia. }
  eapply wp_readonly_bind; [solve_readonly|by apply (P0_stable dev ino ps ph inc)|done|].
  clear dependent s. intros ns s Hi Hs.
  destruct (ns =? 0); [apply Herr; [done|]; intros; apply publish_error_refused; set_solver|].
  cbv zeta. destruct (slot_stride_spec ps ps_ok) as (stride & Hst & _). rewrite Hst.
  fold (current_slot lg). eapply wp_seq; [by apply wp_choose|]. cbv beta. clear dependent s.
  intros r s Hi (k & c & -> & Hs). rewrite E.
  assert (0 <= sl_seq c <= kMaxSampleSequence) as Hc.
  { destruct Hi as [I1 _ _ _ _], Hs as (_ & Hk & <- & _). by apply I1. }
  pose proof (PW_payload _ _ _ _ Hs) as Hp. pose proof (PW_n0 _ _ _ _ Hs) as Hn.
  eapply (wp_write_head k lg c); [done|lia|done|]. clear dependent s. intros s Hi Hs.
  eapply wp_seq; [eapply wp_put_payload; [|exact Hs]; cbn; lia|].
  cbn [sl_payload set_payload sl_size sl_seq sl_ns sl_sum].
  clear dependent s. intros [] s Hi Hs.
  rewrite overwrite_all in Hs by lia.
  eapply wp_finish; [lia|done|]. clear dependent s. intros s Hi Hs.
  eapply wp_ret; [by apply (P0_stable dev ino ps ph inc)|done|]. intros s' _ H'. eexists.
  split; [done|]. apply (P0_result lg k); [lia|done|done].
Qed.

Lemma wp_producer_publish bs s :
  F s -> wp t (producer_publish_impl p bs) (fun r s' => F s' /\ publish_result n0 bs r s') s.
Proof.
  intros Hs. apply wp_with_puse; [apply publish_result_growing| |done|].
  - intros s'. apply publish_error_refused. set_solver.
  - intros lg s' Hi H'. by apply (wp_publish_unlocked bs lg).
Qed.

Lemma wp_heartbeat s :
  F s -> wp t (producer_heartbeat_impl p) (fun _ => F) s.
Proof.
  intros Hs. eapply wp_mono; [|apply (wp_with_puse _ _ (fun _ _ => True)); [done..|]];
    [by intros r s' _ [? _]|].
  intros lg s' Hi H'. eapply wp_mono; [|apply (wp_others dev ino ps ph inc t _ (P0 F lg));
    [|by apply P0_stable|done]]; [intros r s2 _ H2; by exists lg|].
  unfold heartbeat_unlocked. rewrite p_base.
  pose proof verify_readonly. solve_writes. split; [by apply kind_head|done].
Qed.

Lemma wp_pstatus s : F s -> wp t (producer_status_impl p) (fun _ => F) s.
Proof.
  intros Hs. eapply wp_mono; [|apply (wp_with_puse _ _ (fun _ _ => True)); [done..|]];
    [by intros r s' _ [? _]|].
  intros lg s' Hi H'. eapply wp_readonly; [apply status_of_object_readonly|by apply P0_stable|done|].
  intros r s2 _ H2. by exists lg.
Qed.

(** ** Loans *)

Definition wloan_result (r : Result WriteLoan) (s : chst) : Prop :=
  match r with
  | Ok loan => exists pl, lent loan pl s
  | Err e => publish_error ps e s
  end.

Lemma F_lent_stable loan pl : stable t (fun s => F s /\ lent loan pl s).
Proof.
  apply stable_and; [by apply (FC_is_stable dev ino ps ph inc)|].
  apply (stableP_stable dev ino ps ph inc), lent_stableP.
Qed.

Lemma PW_lent k lg c s :
  cinv s -> Z.of_nat (length lg) < kMaxSampleSequence -> PW F k lg c s ->
  F s /\ lent (mkWriteLoan (Some p) (Some k) (Some k) ps k (Z.of_nat (length lg) + 1) true)
            (sl_payload c) s.
Proof.
  intros [I1 _ _ _ _] Hlen (H1 & H2 & H3 & H4 & HF). split; [done|]. exists k, lg, c.
  split; [done|]. split; [done|]. split; [rewrite <- H3; by apply I1|]. by split.
Qed.

Lemma wp_loan_unlocked lg s :
  cinv s -> P0 F lg s ->
  wp t (loan_unlocked p) (fun r s' => match r with
    | Ok loan => exists pl, F s' /\ lent loan pl s'
    | Err e => P0 (fun s => F s /\ publish_error ps e s) lg s' end) s.
Proof.
  intros Hi0 Hs. unfold loan_unlocked. rewrite p_base, p_ps.
  assert (forall e s', P0 F lg s' -> (forall s2, P0 F lg s2 -> publish_error ps e s2) ->
    wp t (Ret (Err e)) (fun r s' => match r with
      | Ok loan => exists pl, F s' /\ lent loan pl s'
      | Err e => P0 (fun s => F s /\ publish_error ps e s) lg s' end) s') as Herr.
  { intros e s' H' He. eapply wp_ret; [by apply (P0_stable dev ino ps ph inc)|done|].
    intros s2 _ H2. pose proof (He s2 H2). destruct H2 as (? & ? & ?).
    split; [done|]. split; [done|]. by split. }
  apply wp_verify with (R := P0 F lg); [by apply P0_stable|done|..]; clear dependent s;
    [|intros e s Hi Hs He; by apply Herr].
  intros s Hi Hs. cbv beta iota. unfold shared_load_acquire.
  eapply (wp_bind_known _ _ (log_ticket lg) _ (P0 F lg)); [by apply (P0_stable dev ino ps ph inc)|done|..].
  { intros s' [I1 _ _ _ _] (_ & <- & _). apply I1. }
  clear dependent s. intros s Hi Hs.
  destruct (log_ticket_facts lg s Hi) as [-> _]; [apply Hs|]. case_decide as Hlen.
  2:{ apply Herr; [done|]. intros s2 (_ & Hl & _). right. right. split; [done|]. unfold len.
      rewrite Hl. lia. }
  cbv zeta. destruct (slot_stride_spec ps ps_ok) as (stride & Hst & _). rewrite Hst.
  fold (current_slot lg). eapply wp_seq; [by apply wp_choose|]. cbv beta. clear dependent s.
  intros r s Hi (k & c & -> & Hs).
  eapply wp_ret; [by apply (PW_stable dev ino ps ph inc t F F_stable k lg c)|done|].
  intros s' Hi' H'. eexists. by apply PW_lent.
Qed.

Lemma wp_loan s :
  F s -> wp t (producer_loan_impl p) (fun r s' => F s' /\ wloan_result r s') s.
Proof.
  intros Hs. unfold producer_loan_impl. rewrite p_id.
  eapply (wp_ptake_flag dev ino ps ph inc t F F_stable); [done|..]; clear dependent s.
  { intros s Hi Hs. eapply wp_ret; [by apply (FC_is_stable dev ino ps ph inc)|done|].
    intros s' _ H'. split; [done|]. apply publish_error_refused. set_solver. }
  intros lg s Hi Hs. eapply wp_seq; [by apply (wp_loan_unlocked lg)|]. cbv beta.
  clear dependent s. intros [loan|e] s Hi Hs.
  - destruct Hs as [pl Hs]. eapply wp_ret; [apply (F_lent_stable loan pl)|done|].
    intros s' _ [? ?]. split; [done|]. by exists pl.
  - set (F' := fun s => F s /\ publish_error ps e s) in *.
    assert (stableC F') as HF' by (apply growing_andC; [done|apply publish_error_growing]).
    eapply wp_seq; [by apply (wp_pgive_flag dev ino ps ph inc t F' HF' lg)|].
    intros [] s' Hi' H'. eapply wp_ret; [by apply (FC_is_stable dev ino ps ph inc)|done|done].
Qed.

Lemma wp_fill loan pl bs s :
  lent loan pl s -> F s ->
  wp t (fill_loan loan bs) (fun _ s' => F s' /\ lent loan (overwrite bs pl) s') s.
Proof.
  intros (k & lg & c & -> & Hlen & Hc & (H1 & H2 & H3 & H4 & _) & <-) HF.
  assert (PW F k lg c s) as Hs by done. unfold fill_loan. cbn [wl_handle wl_data wl_size].
  rewrite p_base. eapply wp_mono; [|by apply (wp_put_payload k lg c)].
  intros [] s' Hi' H'. by apply PW_lent in H'.
Qed.

Lemma wp_release_ploan (F' : chst -> Prop) lg s :
  stableC F' -> P0 F' lg s -> wp t (release_producer_loan_operation p) (fun _ => F') s.
Proof.
  intros HF' Hs. unfold release_producer_loan_operation. rewrite p_id.
  eapply wp_seq; [by apply (wp_pgive_flag dev ino ps ph inc t F' HF' lg)|].
  intros [] s' Hi H'. by apply wp_service_pshutdown.
Qed.

Lemma wp_producer_abort loan pl s :
  lent loan pl s -> F s ->
  wp t (producer_abort_loan_impl loan) (fun loan' s' => loan' = write_loan_reset loan /\ F s') s.
Proof.
  intros (k & lg & c & -> & Hlen & Hc & (H1 & H2 & H3 & H4 & _) & <-) HF.
  assert (PW F k lg c s) as Hs by done. unfold producer_abort_loan_impl.
  cbn [wl_handle wl_active wl_slot]. rewrite p_base.
  eapply wp_seq; [by apply (wp_slot_abort dev ino ps ph inc t F F_stable k lg c)|].
  intros [] s' Hi' H'. eapply wp_seq; [by apply (wp_release_ploan F lg)|].
  intros [] s2 Hi2 Hs2. eapply wp_ret; [by apply (FC_is_stable dev ino ps ph inc)|done|done].
Qed.

Lemma wp_commit loan pl s :
  lent loan pl s -> F s ->
  wp t (producer_commit_loan_impl loan)
    (fun r s' => r.2 = write_loan_reset loan /\ F s' /\ publish_result n0 pl r.1 s') s.
Proof.
  intros (k & lg & c & -> & Hlen & Hc & (H1 & H2 & H3 & H4 & _) & <-) HF.
  assert (PW F k lg c s) as Hs by done. clear H1 H2 H3 H4 HF. unfold producer_commit_loan_impl.
  cbn [wl_handle wl_active wl_slot wl_size wl_sequence wl_slot_index]. rewrite p_base.
  pose proof (PW_payload _ _ _ _ Hs) as Hp. pose proof (PW_n0 _ _ _ _ Hs) as Hn.
  set (loan := mkWriteLoan _ _ _ _ _ _ _).
  assert (forall r lg' s', growing (publish_result n0 (sl_payload c) r) ->
    P0 (fun s => F s /\ publish_result n0 (sl_payload c) r s) lg' s' ->
    wp t (do! release_producer_loan_operation p; Ret (r, write_loan_reset loan))
      (fun r s' => r.2 = write_loan_reset loan /\ F s' /\
         publish_result n0 (sl_payload c) r.1 s') s') as Hend.
  { intros r lg' s' HG H'. set (F' := fun s => F s /\ publish_result n0 (sl_payload c) r s) in *.
    assert (stableC F') as HF' by (by apply growing_andC).
    eapply wp_seq; [by apply (wp_release_ploan F' lg')|].
    intros [] s2 Hi2 Hs2. eapply wp_ret; [by apply (FC_is_stable dev ino ps ph inc)|done|done]. }
  assert (forall e s', PW F k lg c s' -> (forall n s, publish_error n e s) ->
    wp t (do! slot_abort_write (Obj dev ino) k; do! release_producer_loan_operation p;
          Ret (Err e, write_loan_reset loan))
      (fun r s' => r.2 = write_loan_reset loan /\ F s' /\
         publish_result n0 (sl_payload c) r.1 s') s') as Hfail.
  { intros e s' H' He.
    eapply wp_seq; [by apply (wp_slot_abort dev ino ps ph inc t F F_stable k lg c)|].
    intros [] s2 Hi2 (? & ? & ?). apply (Hend (Err e) lg); [apply publish_error_growing|].
    split; [done|]. split; [done|]. split; [done|]. apply He. }
  apply wp_verify with (R := PW F k lg c); [by apply PW_stable|done|..]; clear dependent s;
    [|intros e s Hi Hs He; by apply Hfail].
  intros s Hi Hs.
  eapply wp_readonly_bind; [solve_readonly|by apply (PW_stable dev ino ps ph inc)|done|].
  clear dependent s. intros ns s Hi Hs. destruct (ns =? 0).
  { apply Hfail; [done|]. intros; apply publish_error_refused; set_solver. }
  eapply (wp_bind_load_list _ _ (sl_payload c) _ (PW F k lg c));
    [by apply (PW_stable dev ino ps ph inc)|done| |].
  { intros s' _ (_ & _ & Hct & _). by apply payload_locs_load. }
  clear dependent s. intros s Hi Hs. cbv zeta.
  eapply (wp_write_head k lg c); [done|lia|done|]. clear dependent s. intros s Hi Hs.
  eapply wp_finish; [lia|done|]. clear dependent s. intros s Hi Hs.
  eapply Hend; [apply publish_result_growing|].
  pose proof (P0_result lg k ns (sl_payload c) s Hp Hn Hs) as Hr. destruct Hs as (? & ? & ?).
  by split.
Qed.
End WithFrame.
End ProducerApi.
