(* ===== verification/ChannelClient.v ===== *)
(** A channel seen by its users: any number of threads, in any number of processes,
    with one producer handle and one consumer handle at a time.

    A thread keeps its loans in variables; [ctrack] is its local state after the
    calls it has made. Thread [t] uses the producer handle [pd] and the consumer
    handle [chd (inc t)]. When the process of the consumer has died, a thread of the
    next one takes its place ([takeover]): the threads of the old handle make no
    further step. *)
From S2P Require Import Prelude Errors CheckedMath Prog Concur Checksum ProcIdentity ShmObject Clock.
From S2P Require Import ChannelLayout ChannelSegment SlotProtocol ChannelAbi ControlLock Producer Consumer.
From S2P Require Import ConsumerOpen ChannelProtocol ChannelSteps ConsumerSafety ConsumerOps.
From S2P Require Import ProducerSafety ProducerOps.

Inductive chan_op : Type :=
| OpPublish (bytes : list Z)
| OpLoan
| OpFill (bytes : list Z)
| OpCommit
| OpAbort
| OpHeartbeat
| OpProducerStatus
| OpProducerShutdown
| OpRead (cap : Z)
| OpWait (fuel : nat) (cap timeout : Z)
| OpReadLoan
| OpWaitLoan (fuel : nat) (timeout : Z)
| OpLook
| OpRelease
| OpConsumerStatus
| OpConsumerShutdown
| OpOpen
| OpCrash.

Inductive chan_res : Type :=
| ResNone
| ResPublish (r : Result PublishInfo)
| ResLoan (r : Result WriteLoan)
| ResFilled
| ResCommit (r : Result PublishInfo) (loan : WriteLoan)
| ResAbort (loan : WriteLoan)
| ResHeartbeat (r : Result unit)
| ResStatus (r : Result ChannelStatus)
| ResRead (r : Result (ReadSnapshot * list Z))
| ResWait (r : option (Result (ReadSnapshot * list Z)))
| ResReadLoan (r : Result ReadLoan)
| ResWaitLoan (r : option (Result ReadLoan))
| ResBytes (bytes : list Z)
| ResRelease (loan : ReadLoan)
| ResOpen (r : Result Z).

(** What a read tells about a sample. *)
Record delivery : Type := mkDelivery {
  dl_sequence : Z;
  dl_publish_boot_ns : Z;
  dl_missed_samples : Z;
  dl_size : Z
}.
Definition snapshot_delivery (snap : ReadSnapshot) : delivery :=
  mkDelivery (rs_sample_sequence snap) (rs_publish_boot_ns snap) (rs_missed_samples snap)
    (rs_encoded_size snap).
Definition loan_delivery (loan : ReadLoan) : delivery :=
  mkDelivery (rl_sequence loan) (rl_publish_boot_ns loan) (rl_missed_samples loan)
    (rl_size loan).

(** A thread's variables: whether its process is alive and its consumer open, its
    write loan with the bytes it put at the start of the payload, its read loan; and
    what it has published, read and seen, newest first. *)
Record cuser : Type := mkCUser {
  cu_live : bool;
  cu_open : bool;
  cu_wloan : option (WriteLoan * list Z);
  cu_rloan : option ReadLoan;
  cu_published : list (PublishInfo * list Z);
  cu_reads : list delivery;
  cu_seen : list (Z * list Z)
}.

Definition cuser_start (opened : bool) : cuser := mkCUser true opened None None [] [] [].

Definition set_wloan (l : option (WriteLoan * list Z)) (u : cuser) : cuser :=
  mkCUser (cu_live u) (cu_open u) l (cu_rloan u) (cu_published u) (cu_reads u) (cu_seen u).
Definition set_rloan (l : option ReadLoan) (u : cuser) : cuser :=
  mkCUser (cu_live u) (cu_open u) (cu_wloan u) l (cu_published u) (cu_reads u) (cu_seen u).
Definition add_cpublished (x : PublishInfo * list Z) (u : cuser) : cuser :=
  mkCUser (cu_live u) (cu_open u) (cu_wloan u) (cu_rloan u) (x :: cu_published u) (cu_reads u)
    (cu_seen u).
Definition add_cread (d : delivery) (u : cuser) : cuser :=
  mkCUser (cu_live u) (cu_open u) (cu_wloan u) (cu_rloan u) (cu_published u) (d :: cu_reads u)
    (cu_seen u).
Definition add_cseen (x : Z * list Z) (u : cuser) : cuser :=
  mkCUser (cu_live u) (cu_open u) (cu_wloan u) (cu_rloan u) (cu_published u) (cu_reads u)
    (x :: cu_seen u).
Definition set_open (u : cuser) : cuser :=
  mkCUser (cu_live u) true (cu_wloan u) (cu_rloan u) (cu_published u) (cu_reads u) (cu_seen u).
Definition crashed (u : cuser) : cuser :=
  mkCUser false false None None (cu_published u) (cu_reads u) (cu_seen u).

(** The known start of a payload of [n] bytes after [bytes] were written to it. *)
Definition refill (n : nat) (bytes known : list Z) : list Z :=
  take n bytes ++ drop (length (take n bytes)) known.

(** The thread after one call. *)
Definition ctrack1 (u : cuser) (call : chan_op * chan_res) : cuser :=
  match call with
  | (OpPublish bytes, ResPublish (Ok info)) => add_cpublished (info, bytes) u
  | (OpLoan, ResLoan (Ok loan)) => set_wloan (Some (loan, [])) u
  | (OpFill bytes, ResFilled) =>
      match cu_wloan u with
      | Some (loan, known) => set_wloan (Some (loan, refill (Z.to_nat (wl_size loan)) bytes known)) u
      | None => u
      end
  | (OpCommit, ResCommit r loan') =>
      match cu_wloan u with
      | Some (loan, known) =>
          let u' := set_wloan (Some (loan', known)) u in
          match r with Ok info => add_cpublished (info, known) u' | Err _ => u' end
      | None => u
      end
  | (OpAbort, ResAbort loan') =>
      match cu_wloan u with
      | Some (_, known) => set_wloan (Some (loan', known)) u
      | None => u
      end
  | (OpRead _, ResRead (Ok (snap, bytes))) | (OpWait _ _ _, ResWait (Some (Ok (snap, bytes)))) =>
      add_cseen (rs_sample_sequence snap, bytes) (add_cread (snapshot_delivery snap) u)
  | (OpReadLoan, ResReadLoan (Ok loan)) | (OpWaitLoan _ _, ResWaitLoan (Some (Ok loan))) =>
      set_rloan (Some loan) (add_cread (loan_delivery loan) u)
  | (OpLook, ResBytes bytes) =>
      match cu_rloan u with
      | Some loan => if rl_active loan then add_cseen (rl_sequence loan, bytes) u else u
      | None => u
      end
  | (OpRelease, ResRelease loan') => set_rloan (Some loan') u
  | (OpOpen, ResOpen (Ok _)) => set_open u
  | (OpCrash, _) => crashed u
  | _ => u
  end.

Section Client.
Context (dev ino ps : Z) (pd : ProducerHandle) (chd : nat -> ConsumerHandle) (inc : tid -> nat).

(** The threads of the first consumer start with their handle open. *)
Definition ctrack (t : tid) (calls : list (chan_op * chan_res)) : cuser :=
  foldl ctrack1 (cuser_start (bool_decide (inc t = 0%nat))) calls.

Definition producer_call (u : cuser) (op : chan_op) : cprog chan_res :=
  match op with
  | OpPublish bytes => let! r := producer_publish_impl pd bytes in Ret (ResPublish r)
  | OpLoan => let! r := producer_loan_impl pd in Ret (ResLoan r)
  | OpFill bytes =>
      do! match cu_wloan u with Some (loan, _) => fill_loan loan bytes | None => Ret tt end;
      Ret ResFilled
  | OpCommit =>
      match cu_wloan u with
      | Some (loan, _) =>
          let! (r, loan') := producer_commit_loan_impl loan in Ret (ResCommit r loan')
      | None => Ret ResNone
      end
  | OpAbort =>
      match cu_wloan u with
      | Some (loan, _) => let! loan' := producer_abort_loan_impl loan in Ret (ResAbort loan')
      | None => Ret ResNone
      end
  | OpHeartbeat => let! r := producer_heartbeat_impl pd in Ret (ResHeartbeat r)
  | OpProducerStatus => let! r := producer_status_impl pd in Ret (ResStatus r)
  | OpProducerShutdown => do! producer_shutdown_impl pd; Ret ResNone
  | _ => Ret ResNone
  end.

Definition consumer_call (h : ConsumerHandle) (u : cuser) (op : chan_op) : cprog chan_res :=
  match op with
  | OpRead cap => let! r := consumer_try_read_latest_impl h cap in Ret (ResRead r)
  | OpWait fuel cap timeout =>
      let! r := consumer_wait_latest_impl fuel h cap timeout in Ret (ResWait r)
  | OpReadLoan => let! r := consumer_try_loan_latest_impl h in Ret (ResReadLoan r)
  | OpWaitLoan fuel timeout =>
      let! r := consumer_wait_loan_latest_impl fuel h timeout in Ret (ResWaitLoan r)
  | OpLook =>
      let! bytes := match cu_rloan u with Some loan => look_at_loan loan | None => Ret [] end in
      Ret (ResBytes bytes)
  | OpRelease =>
      match cu_rloan u with
      | Some loan => let! loan' := consumer_release_loan_impl loan in Ret (ResRelease loan')
      | None => Ret ResNone
      end
  | OpConsumerStatus => let! r := consumer_status_impl h in Ret (ResStatus r)
  | OpConsumerShutdown => do! consumer_shutdown_impl h; Ret ResNone
  | _ => Ret ResNone
  end.

Definition is_producer_op (op : chan_op) : bool :=
  match op with
  | OpPublish _ | OpLoan | OpFill _ | OpCommit | OpAbort | OpHeartbeat | OpProducerStatus
  | OpProducerShutdown => true
  | _ => false
  end.

(** What a call runs. *)
Definition chan_call (t : tid) (u : cuser) (op : chan_op) : cprog chan_res :=
  if negb (cu_live u) then Ret ResNone
  else if is_producer_op op then producer_call u op
  else if cu_open u then consumer_call (chd (inc t)) u op
  else Ret ResNone.

Definition chan_impl (t : tid) (h : list (chan_op * chan_res)) (op : chan_op) : cprog chan_res :=
  chan_call t (ctrack t h) op.
End Client.
