(* ===== verification/ChannelHolds.v ===== *)
(** What a thread of the channel knows between two calls, and that every call keeps
    it: its loans are its own, and what it published, read and saw is in the log. *)
From S2P Require Import Prelude Errors CheckedMath Prog Concur Checksum ProcIdentity ShmObject Clock.
From S2P Require Import ChannelLayout ChannelSegment SlotProtocol ChannelAbi ControlLock Producer Consumer.
From S2P Require Import ConsumerOpen ChannelProtocol ChannelSteps ConsumerSafety ConsumerOps.
From S2P Require Import ProducerSafety ProducerOps ChannelClient.
From Stdlib Require Import Sorting.Sorted.

(** The handles are open on the channel's segment. *)
Record channel_setup (dev ino ps : Z) (pd : ProducerHandle) (chd : nat -> ConsumerHandle) : Prop := {
  su_ps : 0 < ps <= kMaxPayloadSize;
  su_pbase : pd_base pd = Obj dev ino;
  su_pps : pd_payload_size pd = ps;
  su_cid : forall n, cd_id (chd n) = n;
  su_cbase : forall n, cd_base (chd n) = Obj dev ino;
  su_cps : forall n, cd_payload_size (chd n) = ps;
  su_cepoch : forall n, cd_role_epoch (chd n) = epoch_of n
}.

Section Holds.
Context (dev ino ps : Z) (pd : ProducerHandle) (chd : nat -> ConsumerHandle) (inc : tid -> nat).
Hypothesis setup : channel_setup dev ino ps pd chd.
Abbreviation ph := (pd_id pd).
Abbreviation cinv := (cinv dev ino ps ph inc).
#[local] Hint Extern 0 (Protocol chloc chghost) =>
  exact (channel_protocol dev ino ps ph inc) : typeclass_instances.

Context (t : tid).
Abbreviation ch := (chd (inc t)).
Abbreviation stableP := (stableP dev ino ps t).
Abbreviation stableC := (stableC dev ino ps t).
Abbreviation lent := (lent dev ino ps t pd).
Abbreviation held := (held dev ino ps inc t ch).

(** * Loans *)

Definition wpart (u : cuser) (s : chst) : Prop :=
  match cu_wloan u with
  | None => True
  | Some (loan, known) =>
      wl_handle loan = None \/ exists pl, lent loan pl s /\ known `prefix_of` pl
  end.

Definition rpart (u : cuser) (s : chst) : Prop :=
  match cu_rloan u with
  | None => True
  | Some loan => rl_handle loan = None /\ rl_active loan = false \/ held loan s
  end.

Lemma wpart_stableP u : stableP (wpart u).
Proof.
  intros s s' H Hm Hk. unfold wpart in *. destruct (cu_wloan u) as [[loan known]|]; [|done].
  destruct H as [H|(pl & H & Hp)]; [by left|right]. exists pl. split; [|done].
  by eapply lent_stableP.
Qed.
Lemma rpart_stableC u : stableC (rpart u).
Proof.
  intros s s' H Hm Hk. unfold rpart in *. destruct (cu_rloan u) as [loan|]; [|done].
  destruct H as [H|H]; [by left|right]. eapply held_stableC; [apply (su_cid _ _ _ _ _ setup)|done..].
Qed.

(** * The past *)

Definition descending (l : list Z) : Prop := StronglySorted (fun a b => b < a) l.

Definition pub_ok (s : chst) (x : PublishInfo * list Z) : Prop :=
  exists e, entry (glog s) (pi_sequence x.1) e /\ x.2 `prefix_of` sp_bytes e /\
    length (sp_bytes e) = Z.to_nat ps /\ sp_author e = t /\ sp_ns e = pi_publish_boot_ns x.1 /\
    pi_generation x.1 = pd_generation pd.
Definition delivered (s : chst) (d : delivery) : Prop :=
  exists e i, entry (glog s) (dl_sequence d) e /\ reads s (inc t) !! i = Some (dl_sequence d) /\
    dl_missed_samples d = gap (take i (reads s (inc t))) (dl_sequence d) /\
    dl_publish_boot_ns d = sp_ns e /\ dl_size d = ps.
Definition seen_ok (s : chst) (x : Z * list Z) : Prop :=
  exists e, entry (glog s) x.1 e /\ x.2 = sp_bytes e /\ length x.2 = Z.to_nat ps.

Record past_ok (u : cuser) (s : chst) : Prop := {
  pa_published : Forall (pub_ok s) (cu_published u);
  pa_reads : Forall (delivered s) (cu_reads u);
  pa_seen : Forall (seen_ok s) (cu_seen u);
  pa_order : descending (map (fun x => pi_sequence x.1) (cu_published u));
  pa_cursor : descending (map dl_sequence (cu_reads u))
}.

Lemma pub_ok_growing x : growing (fun s => pub_ok s x).
Proof. intros s s' (e & H & He) [Hl _ _ _]. exists e. split; [by eapply entry_prefix|done]. Qed.
Lemma seen_ok_growing x : growing (fun s => seen_ok s x).
Proof. intros s s' (e & H & He) [Hl _ _ _]. exists e. split; [by eapply entry_prefix|done]. Qed.
Lemma delivered_growing d : growing (fun s => delivered s d).
Proof.
  intros s s' (e & i & H1 & H2 & H3 & H4) [Hl _ _ Hr]. specialize (Hr (inc t)).
  exists e, i. split; [by eapply entry_prefix|]. split; [by eapply prefix_lookup|]. split; [|done].
  rewrite H3. f_equal. destruct Hr as [k ->]. apply lookup_lt_Some in H2.
  rewrite take_app_le by lia. done.
Qed.

Lemma past_ok_growing u : growing (past_ok u).
Proof.
  intros s s' [H1 H2 H3 H4 H5] Hm. split; [..|done|done].
  - eapply Forall_impl; [exact H1|]. intros x Hx. by eapply pub_ok_growing.
  - eapply Forall_impl; [exact H2|]. intros x Hx. by eapply delivered_growing.
  - eapply Forall_impl; [exact H3|]. intros x Hx. by eapply seen_ok_growing.
Qed.

(** A sample that is no older than [n0], with all the bytes of the payload. *)
Definition whole_read (n0 : Z) (snap : ReadSnapshot) : Prop :=
  n0 <= rs_sample_sequence snap /\ rs_encoded_size snap = ps /\ rs_checksum_ok snap = true.

(** What a call tells, when [n0] samples were published before it. *)
Definition call_fact (n0 : Z) (s : chst) (call : chan_op * chan_res) : Prop :=
  match call with
  | (OpPublish bytes, ResPublish r) =>
      match r with
      | Ok info => n0 < pi_sequence info
      | Err e => publish_error ps (Z.of_nat (length bytes)) e s
      end
  | (OpLoan, ResLoan (Err e)) => publish_error ps ps e s
  | (OpCommit, ResCommit r _) =>
      match r with
      | Ok info => n0 < pi_sequence info
      | Err e => err_code e = kInvalidOptions \/ publish_error ps ps e s
      end
  | (OpRead cap, ResRead r) | (OpWait _ cap _, ResWait (Some r)) =>
      match r with
      | Ok (snap, _) => whole_read n0 snap
      | Err e => read_error ps inc t cap n0 e s
      end
  | (OpReadLoan, ResReadLoan r) | (OpWaitLoan _ _, ResWaitLoan (Some r)) =>
      match r with
      | Ok loan => n0 <= rl_sequence loan
      | Err e => read_error ps inc t ps n0 e s
      end
  | (OpOpen, ResOpen r) =>
      match r with
      | Ok role_epoch => role_epoch = epoch_of (inc t)
      | Err e => err_code e = kRecoveryBlocked
      end
  | _ => True
  end.

Lemma call_fact_growing n0 c : growing (fun s => call_fact n0 s c).
Proof.
  intros s s' H Hm. pose proof (publish_error_growing ps ph pd eq_refl) as HP.
  pose proof (read_error_growing ps inc t) as HR.
  destruct c as [[] []]; cbn [call_fact] in *; try done; repeat case_match; try done;
    first [by eapply HP|by eapply HR|destruct H; [by left|right; by eapply HP]].
Qed.

(** * A call *)

Definition rest (u : cuser) (n : Z) (s : chst) : Prop := past_ok u s /\ n <= len s.
Definition holds (u : cuser) (s : chst) : Prop := wpart u s /\ rpart u s /\ past_ok u s.

Lemma rest_growing u n : growing (rest u n).
Proof. intros s s' [H1 H2] Hm. split; [by eapply past_ok_growing|]. apply mono_len in Hm. lia. Qed.

Lemma frameC u n : stableC (fun s => rpart u s /\ rest u n s).
Proof. apply growing_andC; [apply rpart_stableC|apply rest_growing]. Qed.
Lemma frameP u n : stableP (fun s => wpart u s /\ rest u n s).
Proof. apply growing_and; [apply wpart_stableP|apply rest_growing]. Qed.

Lemma all_stable u n : stable t (fun s => wpart u s /\ rpart u s /\ rest u n s).
Proof.
  apply stable_and; [apply (stableP_stable dev ino ps ph inc), wpart_stableP|].
  apply (stableC_stable dev ino ps ph inc), frameC.
Qed.
Lemma holds_stable u : stable t (holds u).
Proof.
  intros s s' (H1 & H2 & H3) Hr Hi.
  destruct (all_stable u (len s) s s') as (? & ? & ? & ?); [|done..].
  split; [done|]. split; [done|]. split; [done|lia].
Qed.

(** What a call leaves. *)
Definition call_post (n0 : Z) (u : cuser) (op : chan_op) (r : chan_res) (s : chst) : Prop :=
  holds (ctrack1 u (op, r)) s /\ call_fact n0 s (op, r).

Lemma post_same n0 n u op r s :
  ctrack1 u (op, r) = u -> call_fact n0 s (op, r) -> wpart u s -> rpart u s -> rest u n s ->
  call_post n0 u op r s.
Proof. intros Hu Hc Hw Hr [Hp _]. split; [|done]. rewrite Hu. by split. Qed.

(** ** The producer's flag is the thread's own *)

Lemma lent_owner loan pl s : lent loan pl s -> pown s = Some t.
Proof. by intros (k & lg & c & _ & _ & _ & ([Ho _] & _) & _). Qed.
Lemma held_owner loan s : held loan s -> cown s = Some t /\ ginc s = inc t.
Proof. by intros (cr & e & i & _ & _ & _ & rs & ([Ho _] & (Hn & _) & _)). Qed.

Lemma wp_pbusy {A} (f : bool -> cprog A) (R : chst -> Prop) Q (s : chst) :
  stable t R -> R s -> (forall s', R s' -> pown s' = Some t) ->
  (forall s', cinv s' -> R s' -> wp t (f true) Q s') ->
  wp t (bind (exchange_true (PHnd ph hl_operation_in_use)) f) Q s.
Proof.
  intros HR Hs Ho Hf. eapply wp_seq with (Q1 := fun b s' => b = true /\ R s').
  - unfold exchange_true. eapply (wp_bind_cas _ _ _ _ _ R (fun _ => False) R);
      [done|apply (stable_pure t False)|done|done|..].
    + intros s' [_ I2 _ _ _] H' Hu. change (c_mem s' _) with (puse ph s') in Hu.
      apply (i_puse _ _ _ _ I2) in Hu. rewrite (Ho s' H') in Hu. done.
    + done.
    + done.
    + intros s' Hi H'. by eapply wp_ret.
  - intros b s' Hi [-> H']. by apply Hf.
Qed.

Lemma wp_cbusy {A} (f : bool -> cprog A) (R : chst -> Prop) Q (s : chst) :
  stable t R -> R s -> (forall s', R s' -> cown s' = Some t) ->
  (forall s', cinv s' -> R s' -> wp t (f true) Q s') ->
  wp t (bind (exchange_true (CHnd (inc t) hl_operation_in_use)) f) Q s.
Proof.
  intros HR Hs Ho Hf. eapply wp_seq with (Q1 := fun b s' => b = true /\ R s').
  - unfold exchange_true. eapply (wp_bind_cas _ _ _ _ _ R (fun _ => False) R);
      [done|apply (stable_pure t False)|done|done|..].
    + intros s' [_ _ I3 _ _] H' Hu. change (c_mem s' _) with (cuse s' (inc t)) in Hu.
      apply (i_cuse _ _ _ _ I3) in Hu as [_ Hu]. rewrite (Ho s' H') in Hu. done.
    + done.
    + done.
    + intros s' Hi H'. by eapply wp_ret.
  - intros b s' Hi [-> H']. by apply Hf.
Qed.

(** ** The producer's calls *)

Definition lending (u : cuser) (n : Z) (loan : WriteLoan) (known : list Z) (s : chst) : Prop :=
  (exists pl, lent loan pl s /\ known `prefix_of` pl) /\ rpart u s /\ rest u n s.

Lemma lending_stable u n loan known : stable t (lending u n loan known).
Proof.
  apply stable_and; [|apply (stableC_stable dev ino ps ph inc), frameC].
  apply (stableP_stable dev ino ps ph inc). intros s s' (pl & H & Hp) Hm Hk. exists pl.
  split; [by eapply lent_stableP|done].
Qed.

Lemma lending_owner u n loan known s : lending u n loan known s -> pown s = Some t.
Proof. intros [(pl & H & _) _]. by eapply lent_owner. Qed.

(** The thread has no write loan in use, or one. *)
Definition wfree (u : cuser) : Prop :=
  match cu_wloan u with None => True | Some (loan, _) => wl_handle loan = None end.

Lemma wfree_wpart u s : wfree u -> wpart u s.
Proof. unfold wfree, wpart. destruct (cu_wloan u) as [[loan known]|]; auto. Qed.

Lemma wpart_cases u n s :
  wpart u s -> rpart u s -> rest u n s ->
  wfree u \/ exists loan known, cu_wloan u = Some (loan, known) /\ lending u n loan known s.
Proof.
  intros Hw Hr Hp. unfold wpart, wfree in *. destruct (cu_wloan u) as [[loan known]|]; [|by left].
  destruct Hw as [H|H]; [by left|right]. exists loan, known. by repeat split; try apply Hp.
Qed.

Lemma lending_post n0 n u op r loan known s :
  cu_wloan u = Some (loan, known) -> ctrack1 u (op, r) = u -> call_fact n0 s (op, r) ->
  lending u n loan known s -> call_post n0 u op r s.
Proof.
  intros Hl Hu Hc (Hw & Hr & Hp). eapply post_same; [done|done| |done|done].
  unfold wpart. rewrite Hl. by right.
Qed.

(** A call that finds the flag taken by the thread's own loan. *)
Lemma wp_call_busy {A} n0 n u op loan known (body : cprog (Result A)) (res : Result A -> chan_res) name s :
  let e := make_error kConcurrentHandleUse name "concurrent handle use" in
  cu_wloan u = Some (loan, known) -> ctrack1 u (op, res (Err e)) = u ->
  (forall s, call_fact n0 s (op, res (Err e))) -> lending u n loan known s ->
  wp t (let! r := with_use (PHnd ph hl_operation_in_use) name body in Ret (res r))
    (call_post n0 u op) s.
Proof.
  intros e Hl Hu Hc Hs. eapply wp_seq with (Q1 := fun r s' => r = Err e /\ lending u n loan known s').
  - unfold with_use. eapply (wp_pbusy _ (lending u n loan known));
      [apply lending_stable|done|intros s'; apply lending_owner|].
    intros s' Hi H'. eapply wp_ret; [apply lending_stable|done|done].
  - intros r s' Hi [-> H']. eapply wp_ret; [apply lending_stable|done|].
    intros s2 _ H2. by eapply lending_post.
Qed.

Lemma published_bound u s :
  past_ok u s -> Forall (fun x => pi_sequence x.1 <= len s) (cu_published u).
Proof.
  intros [H _ _ _ _]. eapply Forall_impl; [exact H|]. intros x (e & He & _).
  apply entry_len in He. unfold len. lia.
Qed.

Lemma past_publish u n info bs s :
  past_ok u s -> Forall (fun x => pi_sequence x.1 <= n) (cu_published u) -> pub_ok s (info, bs) ->
  n < pi_sequence info -> past_ok (add_cpublished (info, bs) u) s.
Proof.
  intros [H1 H2 H3 H4 H5] Hb Hp Hn. split; cbn [cu_published cu_reads cu_seen add_cpublished]; try done.
  - by constructor.
  - cbn [map]. constructor; [done|]. rewrite Forall_map. eapply Forall_impl; [exact Hb|].
    intros x Hx. unfold compose. cbn [fst]. cbv beta in Hx. lia.
Qed.

Lemma publish_fact_ok info bs known s :
  publish_fact ps t pd info bs s -> known `prefix_of` bs -> pub_ok s (info, known).
Proof.
  intros (e & H & <- & Ha & Hn & Hg & Hl) Hp. exists e. cbn [fst snd]. by repeat split; try apply H.
Qed.

Lemma wp_chan_publish n0 u bs s :
  holds u s -> n0 <= len s ->
  wp t (producer_call pd u (OpPublish bs)) (call_post n0 u (OpPublish bs)) s.
Proof.
  intros (Hw & Hr & Hp) Hn. cbn [producer_call]. destruct setup as [S1 S2 S3 _ _ _ _].
  assert (rest u (len s) s) as Hrest by done.
  pose proof (published_bound u s Hp) as Hb. set (n := len s) in *.
  destruct (wpart_cases u n s Hw Hr Hrest) as [Hf|(loan & known & Hl & Hs)].
  - eapply wp_seq.
    { apply (wp_producer_publish dev ino ps ph inc t pd eq_refl S2 S3 S1 _ n (frameC u n)); [|done].
      intros s' [_ [_ ?]]. done. }
    cbv beta. intros r s' Hi [[Hr' Hrest'] Hres].
    eapply (wp_ret _ _ (fun s => (rpart u s /\ rest u n s) /\ publish_result ps t pd n bs r s));
      [|done|].
    + apply (stableC_stable dev ino ps ph inc), growing_andC; [apply frameC|].
      apply (publish_result_growing ps ph t pd eq_refl).
    + intros s2 _ [[Hr2 [Hp2 Hn2]] H2]. destruct r as [info|e].
      * destruct H2 as [H2 Hq]. split; [|cbn; lia]. split; [by apply wfree_wpart|]. split; [done|].
        apply (past_publish u n); [done|done|by eapply publish_fact_ok|done].
      * eapply post_same; [done|done|by apply wfree_wpart|done|done].
  - eapply wp_call_busy; [done|done| |done]. intros s'. left. repeat constructor.
Qed.

Lemma holds_wloan u l s : holds (set_wloan l u) s <-> wpart (set_wloan l u) s /\ rpart u s /\ past_ok u s.
Proof. split; intros (H1 & H2 & [P1 P2 P3 P4 P5]); (split; [done|]; split; [done|]; by split). Qed.

(** The variable holds a loan in use after the call. *)
Lemma lent_post n0 u op r loan known pl s :
  ctrack1 u (op, r) = set_wloan (Some (loan, known)) u -> call_fact n0 s (op, r) ->
  lent loan pl s -> known `prefix_of` pl -> rpart u s -> past_ok u s -> call_post n0 u op r s.
Proof.
  intros Hu Hc Hl Hk Hr Hp. split; [|done]. rewrite Hu. apply holds_wloan.
  split; [|done]. right. by exists pl.
Qed.
Lemma inert_post n0 u op r loan known s :
  ctrack1 u (op, r) = set_wloan (Some (loan, known)) u -> call_fact n0 s (op, r) ->
  wl_handle loan = None -> rpart u s -> past_ok u s -> call_post n0 u op r s.
Proof.
  intros Hu Hc Hl Hr Hp. split; [|done]. rewrite Hu. apply holds_wloan. split; [by left|done].
Qed.

Lemma wp_call_loan n0 u s :
  holds u s -> n0 <= len s -> wp t (producer_call pd u OpLoan) (call_post n0 u OpLoan) s.
Proof.
  intros (Hw & Hr & Hp) Hn. cbn [producer_call]. destruct setup as [S1 S2 S3 _ _ _ _].
  assert (rest u (len s) s) as Hrest by done. set (n := len s) in *.
  destruct (wpart_cases u n s Hw Hr Hrest) as [Hf|(loan & known & Hl & Hs)].
  - eapply wp_seq.
    { apply (wp_loan dev ino ps ph inc t pd eq_refl S2 S3 S1 _ n (frameC u n)); [|done].
      intros s' [_ [_ ?]]. done. }
    cbv beta. intros [loan|e] s' Hi [HF' Hres].
    + destruct Hres as [pl Hlent].
      eapply wp_ret; [apply (F_lent_stable dev ino ps ph inc t pd _ (frameC u n) loan pl)|done|].
      intros s2 _ [[Hr2 [Hp2 _]] H2]. eapply lent_post; [done|done|done|apply prefix_nil|done|done].
    + eapply (wp_ret _ _ (fun s => (rpart u s /\ rest u n s) /\ publish_error ps ps e s)); [|done|].
      * apply (stableC_stable dev ino ps ph inc), growing_andC; [apply frameC|].
        apply (publish_error_growing ps ph pd eq_refl).
      * intros s2 _ [[Hr2 Hp2] H2]. eapply post_same; [done|done|by apply wfree_wpart|done|done].
  - eapply wp_seq with (Q1 := fun r s' => r = Err (make_error kConcurrentHandleUse "Producer::loan"
      "concurrent handle use") /\ lending u n loan known s').
    + unfold producer_loan_impl. eapply (wp_pbusy _ (lending u n loan known));
        [apply lending_stable|done|intros s'; apply lending_owner|].
      intros s' Hi H'. eapply wp_ret; [apply lending_stable|done|done].
    + intros r s' Hi [-> H']. eapply wp_ret; [apply lending_stable|done|].
      intros s2 _ H2. eapply lending_post; [done|done| |done]. left. repeat constructor.
Qed.

Lemma refill_prefix bs known pl :
  length pl = Z.to_nat ps -> known `prefix_of` pl ->
  refill (Z.to_nat ps) bs known `prefix_of` overwrite ps bs pl.
Proof.
  intros Hl [k ->]. unfold refill, overwrite. set (b := take (Z.to_nat ps) bs).
  assert (length b <= length (known ++ k))%nat as Hb by (subst b; rewrite length_take; lia).
  rewrite <- (take_drop (length b) (known ++ k)).
  rewrite list_inserts_0_r by (rewrite length_take; lia).
  apply prefix_app. rewrite drop_app. by apply prefix_app_r.
Qed.

Lemma lent_length loan pl s : lent loan pl s -> length pl = Z.to_nat ps /\ wl_size loan = ps.
Proof.
  intros (k & lg & c & -> & _ & _ & (_ & _ & <- & _) & <-). split; [|done].
  cbn. unfold m_payload. by rewrite length_map, length_seq.
Qed.

Lemma wp_chan_fill n0 u bs s :
  holds u s -> wp t (producer_call pd u (OpFill bs)) (call_post n0 u (OpFill bs)) s.
Proof.
  intros (Hw & Hr & Hp). cbn [producer_call]. destruct setup as [S1 S2 S3 _ _ _ _].
  assert (rest u (len s) s) as Hrest by done. set (n := len s) in *.
  destruct (wpart_cases u n s Hw Hr Hrest) as [Hf|(loan & known & Hl & (pl & Hs & Hk) & HF)].
  - eapply wp_seq with (Q1 := fun _ s' => rpart u s' /\ rest u n s').
    { unfold wfree in Hf. destruct (cu_wloan u) as [[loan known]|].
      - unfold fill_loan. rewrite Hf. eapply wp_ret; [apply (stableC_stable dev ino ps ph inc), frameC|done|done].
      - eapply wp_ret; [apply (stableC_stable dev ino ps ph inc), frameC|done|done]. }
    intros [] s' Hi H'. eapply wp_ret; [apply (stableC_stable dev ino ps ph inc), (frameC u n)|done|].
    intros s2 _ [Hr2 [Hp2 Hn2]]. unfold wfree in Hf. destruct (cu_wloan u) as [[loan known]|] eqn:E.
    + eapply inert_post; [cbn; by rewrite E|done|done|done|done].
    + eapply post_same; [cbn; by rewrite E|done|unfold wpart; by rewrite E|done|done].
  - rewrite Hl. eapply wp_seq.
    { by apply (wp_fill dev ino ps ph inc t pd S2 _ (frameC u n) loan pl bs). }
    cbv beta. intros [] s' Hi H'.
    eapply wp_ret; [apply (F_lent_stable dev ino ps ph inc t pd _ (frameC u n) loan (overwrite ps bs pl))|done|].
    intros s2 _ [[Hr2 [Hp2 _]] H2]. destruct (lent_length _ _ _ Hs) as [Hlen Hsz].
    eapply lent_post; [cbn; by rewrite Hl, Hsz|done|done|by apply refill_prefix|done|done].
Qed.

(** A call that leaves the thread as it is, from the state of a free producer. *)
Lemma wp_ret_free n0 n u op r s :
  wfree u -> ctrack1 u (op, r) = u -> (forall s, call_fact n0 s (op, r)) ->
  rpart u s /\ rest u n s -> wp t (Ret r) (call_post n0 u op) s.
Proof.
  intros Hf Hu Hc Hs. eapply wp_ret; [apply (stableC_stable dev ino ps ph inc), (frameC u n)|done|].
  intros s' _ [Hr Hp]. eapply post_same; [done|done|by apply wfree_wpart|done|done].
Qed.

Lemma wp_call_commit n0 u s :
  holds u s -> n0 <= len s -> wp t (producer_call pd u OpCommit) (call_post n0 u OpCommit) s.
Proof.
  intros (Hw & Hr & Hp) Hn. cbn [producer_call]. destruct setup as [S1 S2 S3 _ _ _ _].
  assert (rest u (len s) s) as Hrest by done.
  pose proof (published_bound u s Hp) as Hb. set (n := len s) in *.
  destruct (wpart_cases u n s Hw Hr Hrest) as [Hf|(loan & known & Hl & (pl & Hs & Hk) & HF)].
  { pose proof Hf as Hf'. unfold wfree in Hf. destruct (cu_wloan u) as [[loan known]|] eqn:E;
      [|by apply (wp_ret_free n0 n)].
    unfold producer_commit_loan_impl. rewrite Hf.
    eapply wp_ret; [apply (stableC_stable dev ino ps ph inc), (frameC u n)|done|].
    intros s2 _ [Hr2 [Hp2 _]]. eapply inert_post; [cbn; by rewrite E|by left|done|done|done]. }
  rewrite Hl. eapply wp_seq.
  { apply (wp_commit dev ino ps ph inc t pd eq_refl S2 S3 S1 _ n (frameC u n)); [|done|done].
    intros s' [_ [_ ?]]. done. }
  cbv beta. intros [r loan'] s' Hi (Hloan & HF' & Hres). cbn [fst snd] in *. subst loan'.
  destruct (lent_length _ _ _ Hs) as [Hlen _].
  eapply (wp_ret _ _ (fun s => (rpart u s /\ rest u n s) /\ publish_result ps t pd n pl r s)); [|done|].
  { apply (stableC_stable dev ino ps ph inc), growing_andC; [apply frameC|].
    apply (publish_result_growing ps ph t pd eq_refl). }
  intros s2 _ [[Hr2 [Hp2 Hn2]] H2]. destruct r as [info|e].
  - destruct H2 as [H2 Hq]. split; [|cbn; lia]. cbn [ctrack1]. rewrite Hl.
    split; [by left|]. split; [done|]. apply (past_publish _ n);
      [by destruct Hp2; split|done|by eapply publish_fact_ok|done].
  - eapply inert_post; [cbn; by rewrite Hl| |done|done|done].
    right. cbn in H2. rewrite Hlen in H2. by rewrite Z2Nat.id in H2 by lia.
Qed.

Lemma wp_chan_abort n0 u s :
  holds u s -> wp t (producer_call pd u OpAbort) (call_post n0 u OpAbort) s.
Proof.
  intros (Hw & Hr & Hp). cbn [producer_call]. destruct setup as [S1 S2 S3 _ _ _ _].
  assert (rest u (len s) s) as Hrest by done. set (n := len s) in *.
  destruct (wpart_cases u n s Hw Hr Hrest) as [Hf|(loan & known & Hl & (pl & Hs & Hk) & HF)].
  { pose proof Hf as Hf'. unfold wfree in Hf. destruct (cu_wloan u) as [[loan known]|] eqn:E;
      [|by apply (wp_ret_free n0 n)].
    unfold producer_abort_loan_impl. rewrite Hf.
    eapply wp_ret; [apply (stableC_stable dev ino ps ph inc), (frameC u n)|done|].
    intros s2 _ [Hr2 [Hp2 _]]. eapply inert_post; [cbn; by rewrite E|done|done|done|done]. }
  rewrite Hl. eapply wp_seq.
  { by apply (wp_producer_abort dev ino ps ph inc t pd eq_refl S2 _ (frameC u n) loan pl). }
  cbv beta. intros loan' s' Hi [-> HF'].
  eapply wp_ret; [apply (stableC_stable dev ino ps ph inc), (frameC u n)|done|].
  intros s2 _ [Hr2 [Hp2 _]]. eapply inert_post; [cbn; by rewrite Hl|done|done|done|done].
Qed.

Lemma wp_call_heartbeat n0 u s :
  holds u s -> wp t (producer_call pd u OpHeartbeat) (call_post n0 u OpHeartbeat) s.
Proof.
  intros (Hw & Hr & Hp). cbn [producer_call]. destruct setup as [S1 S2 S3 _ _ _ _].
  assert (rest u (len s) s) as Hrest by done. set (n := len s) in *.
  destruct (wpart_cases u n s Hw Hr Hrest) as [Hf|(loan & known & Hl & Hs)].
  - eapply wp_seq; [by apply (wp_heartbeat dev ino ps ph inc t pd eq_refl S2 _ (frameC u n))|].
    intros r s' Hi H'. by apply (wp_ret_free n0 n).
  - by eapply wp_call_busy.
Qed.

Lemma wp_call_pstatus n0 u s :
  holds u s -> wp t (producer_call pd u OpProducerStatus) (call_post n0 u OpProducerStatus) s.
Proof.
  intros (Hw & Hr & Hp). cbn [producer_call]. destruct setup as [S1 S2 S3 _ _ _ _].
  assert (rest u (len s) s) as Hrest by done. set (n := len s) in *.
  destruct (wpart_cases u n s Hw Hr Hrest) as [Hf|(loan & known & Hl & Hs)].
  - eapply wp_seq; [by apply (wp_pstatus dev ino ps ph inc t pd eq_refl _ (frameC u n))|].
    intros r s' Hi H'. by apply (wp_ret_free n0 n).
  - by eapply wp_call_busy.
Qed.

Lemma wp_call_pshutdown n0 u s :
  holds u s -> wp t (producer_call pd u OpProducerShutdown) (call_post n0 u OpProducerShutdown) s.
Proof.
  intros (Hw & Hr & Hp). cbn [producer_call]. destruct setup as [S1 S2 S3 _ _ _ _].
  assert (rest u (len s) s) as Hrest by done. set (n := len s) in *. clearbody n.
  destruct (wpart_cases u n s Hw Hr Hrest) as [Hf|(loan & known & Hl & Hs)].
  { eapply wp_seq; [by apply (wp_pshutdown dev ino ps ph inc t pd eq_refl S2 _ _ (frameC u n))|].
    intros r s' Hi H'. by apply (wp_ret_free n0 n). }
  set (R := lending u n loan known) in *. assert (stable t R) as HR by apply lending_stable.
  eapply wp_seq with (Q1 := fun _ => R).
  - unfold producer_shutdown_impl. eapply wp_seq with (Q1 := fun _ => R).
    { apply (wp_others dev ino ps ph inc); [by split|done|done]. }
    clear dependent s. intros [] s Hi Hs. unfold service_producer_shutdown, shared_load_acquire.
    eapply wp_readonly_bind; [solve_readonly|done|done|]. clear dependent s. intros v s Hi Hs.
    destruct (v =? 0); [by eapply wp_ret|].
    eapply (wp_bind_cas _ _ _ _ _ R (fun _ => False) R);
      [done|apply (stable_pure t False)|done|done|..].
    + intros s' [_ I2 _ _ _] H' Hu. change (c_mem s' _) with (puse ph s') in Hu.
      apply (i_puse _ _ _ _ I2) in Hu. by rewrite (lending_owner _ _ _ _ _ H') in Hu.
    + done.
    + done.
    + intros s' Hi' H'. cbn [negb]. by eapply wp_ret.
  - clear dependent s. intros [] s Hi Hs. eapply wp_ret; [exact HR|done|].
    intros s2 _ H2. by eapply lending_post.
Qed.

Lemma wp_producer_call n0 u op s :
  holds u s -> n0 <= len s -> is_producer_op op = true ->
  wp t (producer_call pd u op) (call_post n0 u op) s.
Proof.
  intros Hh Hn Hop. destruct op; try done.
  - by apply wp_chan_publish.
  - by apply wp_call_loan.
  - by apply wp_chan_fill.
  - by apply wp_call_commit.
  - by apply wp_chan_abort.
  - by apply wp_call_heartbeat.
  - by apply wp_call_pstatus.
  - by apply wp_call_pshutdown.
Qed.

(** ** The consumer's calls *)

Definition reading (u : cuser) (n : Z) (loan : ReadLoan) (s : chst) : Prop :=
  held loan s /\ wpart u s /\ rest u n s.

Lemma reading_stable u n loan : stable t (reading u n loan).
Proof.
  apply stable_and; [apply (stableC_stable dev ino ps ph inc), held_stableC, (su_cid _ _ _ _ _ setup)|].
  apply (stableP_stable dev ino ps ph inc), frameP.
Qed.
Lemma reading_owner u n loan s : reading u n loan s -> cown s = Some t.
Proof. intros [H _]. by eapply held_owner. Qed.

Definition rfree (u : cuser) : Prop :=
  match cu_rloan u with None => True | Some loan => rl_handle loan = None /\ rl_active loan = false end.

Lemma rfree_rpart u s : rfree u -> rpart u s.
Proof. unfold rfree, rpart. destruct (cu_rloan u) as [loan|]; auto. Qed.

Lemma rpart_cases u n s :
  wpart u s -> rpart u s -> rest u n s ->
  rfree u \/ exists loan, cu_rloan u = Some loan /\ reading u n loan s.
Proof.
  intros Hw Hr Hp. unfold rpart, rfree in *. destruct (cu_rloan u) as [loan|]; [|by left].
  destruct Hr as [H|H]; [by left|right]. exists loan. by split.
Qed.

Lemma reading_post n0 n u op r loan s :
  cu_rloan u = Some loan -> ctrack1 u (op, r) = u -> call_fact n0 s (op, r) ->
  reading u n loan s -> call_post n0 u op r s.
Proof.
  intros Hl Hu Hc (Hh & Hw & Hp). eapply post_same; [done|done|done| |done].
  unfold rpart. rewrite Hl. by right.
Qed.

Definition cursor_of (u : cuser) : Z :=
  match cu_reads u with [] => 0 | d :: _ => dl_sequence d end.

Lemma rest_cursor u n s : rest u n s -> cursor_of u = 0 \/ cursor_of u ∈ reads s (inc t).
Proof.
  intros [[_ H _ _ _] _]. unfold cursor_of. destruct (cu_reads u) as [|d l]; [by left|right].
  apply Forall_cons in H as [(e & i & _ & Hi & _) _]. by eapply list_elem_of_lookup_2.
Qed.

Lemma past_read u d s :
  past_ok u s -> delivered s d -> cursor_of u < dl_sequence d -> past_ok (add_cread d u) s.
Proof.
  intros [H1 H2 H3 H4 H5] Hd Hc. split; cbn [cu_published cu_reads cu_seen add_cread]; try done.
  - by constructor.
  - cbn [map]. constructor; [done|]. unfold cursor_of in Hc. destruct (cu_reads u) as [|d' l]; [done|].
    cbn [map] in *. apply StronglySorted_inv in H5 as [_ H5]. constructor; [done|].
    eapply Forall_impl; [exact H5|]. cbv beta. intros x Hx. lia.
Qed.

Lemma past_seen u x s : past_ok u s -> seen_ok s x -> past_ok (add_cseen x u) s.
Proof.
  intros [H1 H2 H3 H4 H5] Hx. split; cbn [cu_published cu_reads cu_seen add_cseen]; try done.
  by constructor.
Qed.

Abbreviation read_fact := (read_fact ps inc t ch).
Abbreviation read_result := (read_result ps inc t ch).

Lemma read_fact_delivered snap e i s :
  read_fact snap e i s ->
  delivered s (snapshot_delivery snap) /\ seen_ok s (rs_sample_sequence snap, sp_bytes e).
Proof.
  intros (H1 & H2 & H3 & H4 & H5 & H6 & _). split; [|by exists e]. by exists e, i.
Qed.

(** What a successful copy leaves. *)
Lemma read_post n0 n u op r snap bytes cap s :
  rfree u ->
  ctrack1 u (op, r) = add_cseen (rs_sample_sequence snap, bytes) (add_cread (snapshot_delivery snap) u) ->
  (whole_read n0 snap -> call_fact n0 s (op, r)) -> n0 <= n ->
  wpart u s /\ rest u n s -> read_result cap n (cursor_of u) (Ok (snap, bytes)) s ->
  call_post n0 u op r s.
Proof.
  intros Hf Hu Hc Hn [Hw [Hp _]] (e & i & Hr & -> & [Hq Hl]). destruct (read_fact_delivered _ _ _ _ Hr).
  split; [|apply Hc; destruct Hr as (_ & _ & _ & _ & Hsz & _ & _ & Hok); split; [lia|done]].
  rewrite Hu. split; [done|]. split; [by apply rfree_rpart|].
  apply past_seen; [|done]. by apply past_read.
Qed.

(** The weaker bound holds of the error too. *)
Lemma read_error_weaken cap n0 n e s :
  n0 <= n -> read_error ps inc t cap n e s -> read_error ps inc t cap n0 e s.
Proof.
  intros Hn (H1 & H2 & H3). split; [done|]. split; [done|]. intros H.
  destruct (H3 H) as [|(q & ? & ?)]; [left; lia|right]. exists q. split; [done|lia].
Qed.

Lemma read_result_post n0 n u op res cap r s :
  rfree u -> (forall e, ctrack1 u (op, res (Err e)) = u) ->
  (forall snap bytes, ctrack1 u (op, res (Ok (snap, bytes))) =
     add_cseen (rs_sample_sequence snap, bytes) (add_cread (snapshot_delivery snap) u)) ->
  (forall snap bytes s, whole_read n0 snap -> call_fact n0 s (op, res (Ok (snap, bytes)))) ->
  (forall e s, read_error ps inc t cap n0 e s -> call_fact n0 s (op, res (Err e))) -> n0 <= n ->
  wpart u s /\ rest u n s -> read_result cap n (cursor_of u) r s -> call_post n0 u op (res r) s.
Proof.
  intros Hf He Ho Hc1 Hc2 Hn HF Hr. destruct r as [[snap bytes]|e].
  - eapply read_post; eauto.
  - destruct HF as [Hw Hp]. eapply post_same; [done| |done|by apply rfree_rpart|done].
    apply Hc2. by eapply read_error_weaken.
Qed.

Lemma framed_result_stable u n cap r :
  stable t (fun s => (wpart u s /\ rest u n s) /\ read_result cap n (cursor_of u) r s).
Proof.
  apply (stableP_stable dev ino ps ph inc), growing_and; [apply frameP|].
  apply (read_result_growing ps inc t ch), (su_cid _ _ _ _ _ setup).
Qed.

(** A call that finds the flag taken by the thread's own read loan. *)
Lemma wp_read_busy {A} n0 n u op loan (body : bool -> cprog A) e (res : A -> chan_res) (err : A) s :
  cu_rloan u = Some loan -> body true = Ret err -> res err = e -> ctrack1 u (op, e) = u ->
  (forall s, call_fact n0 s (op, e)) -> reading u n loan s ->
  wp t (let! r := (let! b := exchange_true (CHnd (inc t) hl_operation_in_use) in body b) in
        Ret (res r)) (call_post n0 u op) s.
Proof.
  intros Hl Hb He Hu Hc Hs. eapply wp_seq with (Q1 := fun r s' => r = err /\ reading u n loan s').
  - eapply (wp_cbusy _ (reading u n loan)); [apply reading_stable|done|intros s'; apply reading_owner|].
    intros s' Hi H'. rewrite Hb. eapply wp_ret; [apply reading_stable|done|done].
  - intros r s' Hi [-> H']. rewrite He. eapply wp_ret; [apply reading_stable|done|].
    intros s2 _ H2. by eapply reading_post.
Qed.

Lemma busy_read_error cap n0 name s :
  read_error ps inc t cap n0 (make_error kConcurrentHandleUse name "concurrent handle use") s.
Proof. by split. Qed.

Lemma wp_chan_read n0 u cap s :
  holds u s -> n0 <= len s ->
  wp t (consumer_call ch u (OpRead cap)) (call_post n0 u (OpRead cap)) s.
Proof.
  intros (Hw & Hr & Hp) Hn. cbn [consumer_call]. destruct setup as [S1 S2 S3 S4 S5 S6 S7].
  assert (rest u (len s) s) as Hrest by done. set (n := len s) in *.
  destruct (rpart_cases u n s Hw Hr Hrest) as [Hf|(loan & Hl & Hs)].
  - eapply wp_seq.
    { apply (wp_try_read dev ino ps ph inc t ch (S4 _) (S5 _) (S6 _) (S7 _) S1 _ n (cursor_of u) (frameP u n));
        [by intros s' [_ [_ ?]]|intros s' [_ H']; by eapply rest_cursor|done]. }
    cbv beta. intros r s' Hi H'. eapply wp_ret; [apply (framed_result_stable u n cap r)|done|].
    intros s2 _ [HF H2]. by apply (read_result_post n0 n u (OpRead cap) ResRead cap).
  - unfold consumer_try_read_latest_impl, with_use. rewrite S4.
    eapply wp_read_busy; [done|done|done|done| |done]. intros s'. apply busy_read_error.
Qed.

Lemma wp_call_wait n0 u fuel cap timeout s :
  holds u s -> n0 <= len s ->
  wp t (consumer_call ch u (OpWait fuel cap timeout)) (call_post n0 u (OpWait fuel cap timeout)) s.
Proof.
  intros (Hw & Hr & Hp) Hn. cbn [consumer_call]. destruct setup as [S1 S2 S3 S4 S5 S6 S7].
  assert (rest u (len s) s) as Hrest by done. set (n := len s) in *.
  destruct (rpart_cases u n s Hw Hr Hrest) as [Hf|(loan & Hl & Hs)].
  - eapply wp_seq.
    { apply (wp_wait dev ino ps ph inc t ch (S4 _) (S5 _) (S6 _) (S7 _) S1 _ n (cursor_of u) (frameP u n));
        [by intros s' [_ [_ ?]]|intros s' [_ H']; by eapply rest_cursor|done]. }
    cbv beta. intros [r|] s' Hi H'.
    + eapply wp_ret; [apply (framed_result_stable u n cap r)|done|]. intros s2 _ [HF H2].
      by apply (read_result_post n0 n u (OpWait fuel cap timeout) (fun r => ResWait (Some r)) cap).
    + destruct H' as [H' _]. eapply wp_ret; [apply (stableP_stable dev ino ps ph inc), (frameP u n)|done|].
      intros s2 _ [H1 H2]. eapply post_same; [done|done|done|by apply rfree_rpart|done].
  - unfold consumer_wait_latest_impl. rewrite S4.
    eapply wp_read_busy; [done|done|done|done| |done]. intros s'. apply busy_read_error.
Qed.

(** ** Read loans *)

Abbreviation loan_result := (loan_result dev ino ps inc t ch).

Lemma holds_rloan u l s : holds (set_rloan l u) s <-> wpart u s /\ rpart (set_rloan l u) s /\ past_ok u s.
Proof. split; intros (H1 & H2 & [P1 P2 P3 P4 P5]); (split; [done|]; split; [done|]; by split). Qed.

Lemma held_delivered loan s : held loan s -> delivered s (loan_delivery loan).
Proof.
  intros (cr & e & i & -> & _ & Hf & _). by destruct (read_fact_delivered _ _ _ _ Hf).
Qed.

Lemma wp_loan_post n0 n u op (res : Result ReadLoan -> chan_res) r s :
  rfree u -> (forall e, ctrack1 u (op, res (Err e)) = u) ->
  (forall loan, ctrack1 u (op, res (Ok loan)) =
     set_rloan (Some loan) (add_cread (loan_delivery loan) u)) ->
  (forall loan s, n0 <= rl_sequence loan -> call_fact n0 s (op, res (Ok loan))) ->
  (forall e s, read_error ps inc t ps n0 e s -> call_fact n0 s (op, res (Err e))) -> n0 <= n ->
  (wpart u s /\ rest u n s) /\ loan_result n (cursor_of u) r s ->
  wp t (Ret (res r)) (call_post n0 u op) s.
Proof.
  intros Hf He Ho Hc1 Hc2 Hn [HF Hr]. destruct r as [loan|e].
  - destruct Hr as [Hh [Hq Hl]].
    eapply wp_ret; [apply (F_held_stable dev ino ps ph inc t ch (su_cid _ _ _ _ _ setup _) _ (frameP u n) loan)|done|].
    intros s2 _ [[Hw [Hp _]] H2]. split; [|apply Hc1; lia]. rewrite Ho. apply holds_rloan.
    split; [done|]. split; [by right|]. apply past_read; [done|by apply held_delivered|done].
  - eapply (wp_ret _ _ (fun s => (wpart u s /\ rest u n s) /\ read_error ps inc t ps n e s)); [|done|].
    + apply (stableP_stable dev ino ps ph inc), growing_and; [apply frameP|apply read_error_growing].
    + intros s2 _ [[Hw Hp] H2]. eapply post_same; [done| |done|by apply rfree_rpart|done].
      apply Hc2. by eapply read_error_weaken.
Qed.

Lemma wp_call_readloan n0 u s :
  holds u s -> n0 <= len s -> wp t (consumer_call ch u OpReadLoan) (call_post n0 u OpReadLoan) s.
Proof.
  intros (Hw & Hr & Hp) Hn. cbn [consumer_call]. destruct setup as [S1 S2 S3 S4 S5 S6 S7].
  assert (rest u (len s) s) as Hrest by done. set (n := len s) in *.
  destruct (rpart_cases u n s Hw Hr Hrest) as [Hf|(loan & Hl & Hs)].
  - eapply wp_seq.
    { apply (wp_try_loan dev ino ps ph inc t ch (S4 _) (S5 _) (S6 _) (S7 _) S1 _ n (cursor_of u) (frameP u n));
        [by intros s' [_ [_ ?]]|intros s' [_ H']; by eapply rest_cursor|done]. }
    cbv beta. intros r s' Hi H'. by apply (wp_loan_post n0 n u OpReadLoan ResReadLoan).
  - unfold consumer_try_loan_latest_impl. rewrite S4.
    eapply wp_read_busy; [done|done|done|done| |done]. intros s'. apply busy_read_error.
Qed.

Lemma wp_call_waitloan n0 u fuel timeout s :
  holds u s -> n0 <= len s ->
  wp t (consumer_call ch u (OpWaitLoan fuel timeout)) (call_post n0 u (OpWaitLoan fuel timeout)) s.
Proof.
  intros (Hw & Hr & Hp) Hn. cbn [consumer_call]. destruct setup as [S1 S2 S3 S4 S5 S6 S7].
  assert (rest u (len s) s) as Hrest by done. set (n := len s) in *.
  destruct (rpart_cases u n s Hw Hr Hrest) as [Hf|(loan & Hl & Hs)].
  - eapply wp_seq.
    { apply (wp_wait_loan dev ino ps ph inc t ch (S4 _) (S5 _) (S6 _) (S7 _) S1 _ n (cursor_of u) (frameP u n));
        [by intros s' [_ [_ ?]]|intros s' [_ H']; by eapply rest_cursor|done]. }
    cbv beta. intros [r|] s' Hi H'.
    + by apply (wp_loan_post n0 n u (OpWaitLoan fuel timeout) (fun r => ResWaitLoan (Some r))).
    + destruct H' as [H' _]. eapply wp_ret; [apply (stableP_stable dev ino ps ph inc), (frameP u n)|done|].
      intros s2 _ [H1 H2]. eapply post_same; [done|done|done|by apply rfree_rpart|done].
  - unfold consumer_wait_loan_latest_impl. rewrite S4.
    eapply wp_read_busy; [done|done|done|done| |done]. intros s'. apply busy_read_error.
Qed.

(** A call that leaves the thread as it is, from the state of a free consumer. *)
Lemma wp_ret_rfree n0 n u op r s :
  rfree u -> ctrack1 u (op, r) = u -> (forall s, call_fact n0 s (op, r)) ->
  wpart u s /\ rest u n s -> wp t (Ret r) (call_post n0 u op) s.
Proof.
  intros Hf Hu Hc Hs. eapply wp_ret; [apply (stableP_stable dev ino ps ph inc), (frameP u n)|done|].
  intros s' _ [Hw Hp]. eapply post_same; [done|done|done|by apply rfree_rpart|done].
Qed.

Lemma wp_call_look n0 u s :
  holds u s -> wp t (consumer_call ch u OpLook) (call_post n0 u OpLook) s.
Proof.
  intros (Hw & Hr & Hp). cbn [consumer_call]. destruct setup as [S1 S2 S3 S4 S5 S6 S7].
  assert (rest u (len s) s) as Hrest by done. set (n := len s) in *.
  destruct (rpart_cases u n s Hw Hr Hrest) as [Hf|(loan & Hl & (cr & e & i & Hh) & HF)].
  - pose proof Hf as Hf'. unfold rfree in Hf. destruct (cu_rloan u) as [loan|] eqn:E.
    + unfold look_at_loan. destruct Hf as [-> Ha]. cbn [bind].
      apply (wp_ret_rfree n0 n); [done|cbn; by rewrite E, Ha|done|done].
    + cbn [bind]. apply (wp_ret_rfree n0 n); [done|cbn; by rewrite E|done|done].
  - rewrite Hl. eapply wp_seq; [by apply (wp_look dev ino ps ph inc t ch (S4 _) (S5 _) _ (frameP u n) loan cr e i)|].
    cbv beta. intros bytes s' Hi (HF' & Hh' & ->).
    eapply (wp_ret _ _ (fun s => (wpart u s /\ rest u n s) /\ held_sample dev ino ps inc t ch loan cr e i s));
      [|done|].
    + apply stable_and; [apply (stableP_stable dev ino ps ph inc), frameP|].
      apply (stableC_stable dev ino ps ph inc), held_sample_stableC, S4.
    + intros s2 _ [[Hw2 [Hp2 _]] H2]. split; [|done]. cbn [ctrack1]. rewrite Hl.
      pose proof H2 as (-> & _ & Hf & _). cbn [rl_active read_loan_of rl_sequence].
      split; [done|]. split; [unfold rpart; cbn [cu_rloan add_cseen]; rewrite Hl; right; by exists cr, e, i|].
      apply past_seen; [done|]. by apply (read_fact_delivered _ e i).
Qed.

Lemma wp_chan_release n0 u s :
  holds u s -> wp t (consumer_call ch u OpRelease) (call_post n0 u OpRelease) s.
Proof.
  intros (Hw & Hr & Hp). cbn [consumer_call]. destruct setup as [S1 S2 S3 S4 S5 S6 S7].
  assert (rest u (len s) s) as Hrest by done. set (n := len s) in *.
  assert (forall loan s, rl_handle loan = None /\ rl_active loan = false -> wpart u s /\ rest u n s ->
    call_post n0 u OpRelease (ResRelease loan) s) as Hpost.
  { intros loan s' Hl [Hw' [Hp' _]]. split; [|done]. apply holds_rloan. split; [done|].
    split; [by left|done]. }
  destruct (rpart_cases u n s Hw Hr Hrest) as [Hf|(loan & Hl & Hh & HF)].
  - pose proof Hf as Hf'. unfold rfree in Hf. destruct (cu_rloan u) as [loan|] eqn:E;
      [|by apply (wp_ret_rfree n0 n)].
    unfold consumer_release_loan_impl. pose proof Hf as [-> Ha]. cbn [bind].
    eapply wp_ret; [apply (stableP_stable dev ino ps ph inc), (frameP u n)|done|].
    intros s2 _ H2. by apply Hpost.
  - rewrite Hl. eapply wp_seq; [by apply (wp_release_loan dev ino ps ph inc t ch (S4 _) (S5 _) _ (frameP u n) loan)|].
    cbv beta. intros loan' s' Hi [-> HF'].
    eapply wp_ret; [apply (stableP_stable dev ino ps ph inc), (frameP u n)|done|].
    intros s2 _ H2. by apply Hpost.
Qed.

Lemma wp_call_cstatus n0 u s :
  holds u s -> wp t (consumer_call ch u OpConsumerStatus) (call_post n0 u OpConsumerStatus) s.
Proof.
  intros (Hw & Hr & Hp). cbn [consumer_call]. destruct setup as [S1 S2 S3 S4 S5 S6 S7].
  assert (rest u (len s) s) as Hrest by done. set (n := len s) in *.
  destruct (rpart_cases u n s Hw Hr Hrest) as [Hf|(loan & Hl & Hs)].
  - eapply wp_seq; [by apply (wp_cstatus dev ino ps ph inc t ch (S4 _) _ (frameP u n))|].
    intros r s' Hi H'. by apply (wp_ret_rfree n0 n).
  - unfold consumer_status_impl, with_use. rewrite S4. by eapply wp_read_busy.
Qed.

Lemma wp_call_cshutdown n0 u s :
  holds u s -> wp t (consumer_call ch u OpConsumerShutdown) (call_post n0 u OpConsumerShutdown) s.
Proof.
  intros (Hw & Hr & Hp). cbn [consumer_call]. destruct setup as [S1 S2 S3 S4 S5 S6 S7].
  assert (rest u (len s) s) as Hrest by done. set (n := len s) in *. clearbody n.
  destruct (rpart_cases u n s Hw Hr Hrest) as [Hf|(loan & Hl & Hs)].
  { eapply wp_seq; [by apply (wp_cshutdown dev ino ps ph inc t ch (S4 _) (S5 _) _ (frameP u n))|].
    intros r s' Hi H'. by apply (wp_ret_rfree n0 n). }
  set (R := reading u n loan) in *. assert (stable t R) as HR by apply reading_stable.
  eapply wp_seq with (Q1 := fun _ => R).
  - unfold consumer_shutdown_impl. eapply wp_seq with (Q1 := fun _ => R).
    { apply (wp_others dev ino ps ph inc); [by split|done|done]. }
    clear dependent s. intros [] s Hi Hs. unfold service_consumer_shutdown, shared_load_acquire. rewrite S4.
    eapply wp_readonly_bind; [solve_readonly|done|done|]. clear dependent s. intros v s Hi Hs.
    destruct (v =? 0); [by eapply wp_ret|].
    eapply (wp_bind_cas _ _ _ _ _ R (fun _ => False) R);
      [done|apply (stable_pure t False)|done|done|..].
    + intros s' [_ _ I3 _ _] H' Hu. change (c_mem s' _) with (cuse s' (inc t)) in Hu.
      apply (i_cuse _ _ _ _ I3) in Hu as [_ Hu]. by rewrite (reading_owner _ _ _ _ H') in Hu.
    + done.
    + done.
    + intros s' Hi' H'. cbn [negb]. by eapply wp_ret.
  - clear dependent s. intros [] s Hi Hs. eapply wp_ret; [exact HR|done|].
    intros s2 _ H2. by eapply reading_post.
Qed.

(** ** Any call *)

Lemma wp_ret_all n0 u op r s :
  ctrack1 u (op, r) = u \/ ctrack1 u (op, r) = crashed u -> (forall s, call_fact n0 s (op, r)) ->
  holds u s -> wp t (Ret r) (call_post n0 u op) s.
Proof.
  intros Hu Hc Hs. eapply wp_ret; [apply holds_stable|done|].
  intros s' _ (Hw & Hr & Hp). split; [|done]. destruct Hu as [->| ->]; [done|].
  split; [done|]. split; [done|]. by destruct Hp; split.
Qed.

Lemma wp_chan_call n0 u op s :
  holds u s -> n0 <= len s -> wp t (chan_call pd chd inc t u op) (call_post n0 u op) s.
Proof.
  intros Hh Hn. unfold chan_call. destruct (cu_live u); cbn [negb];
    [|apply wp_ret_all; [destruct op; cbn; auto|by destruct op|done]].
  destruct (is_producer_op op) eqn:E; [by apply wp_producer_call|].
  destruct (cu_open u); [|apply wp_ret_all; [destruct op; cbn; auto|by destruct op|done]].
  destruct op; try done.
  - by apply wp_chan_read.
  - by apply wp_call_wait.
  - by apply wp_call_readloan.
  - by apply wp_call_waitloan.
  - by apply wp_call_look.
  - by apply wp_chan_release.
  - by apply wp_call_cstatus.
  - by apply wp_call_cshutdown.
  - apply wp_ret_all; [by left|done|done].
  - apply wp_ret_all; [by right|done|done].
Qed.
End Holds.
