(* ===== verification/ChannelTakeover.v ===== *)
(** Taking over from a consumer whose process died: [replace_dead_consumer] gives the
    slot it was reading back, whatever it was doing when it died, and installs the
    next role epoch - unless it died between the two stores of [slot_release_read],
    which is where it refuses.

    [TK e h]: the thread has the consumer's place, [e] is the role epoch in the
    segment and [h] the slot the dead consumer was reading. *)
From S2P Require Import Prelude Errors CheckedMath Prog SeqLogic Concur Checksum ProcIdentity OwnerSnapshot ShmObject Clock.
From S2P Require Import ChannelLayout ChannelSegment SlotProtocol ChannelAbi ControlLock Producer Consumer.
From S2P Require Import ConsumerOpen ChannelProtocol ChannelSteps ConsumerSafety ConsumerOps ProducerSafety.

Section Takeover.
Context (dev ino ps : Z) (ph : nat) (inc : tid -> nat).
Abbreviation st := (st dev ino).
Abbreviation rd := (rd dev ino).
Abbreviation cinv := (cinv dev ino ps ph inc).
Abbreviation crely := (crely dev ino ps).
Abbreviation CO := (CO dev ino).
#[local] Hint Extern 0 (Protocol chloc chghost) =>
  exact (channel_protocol dev ino ps ph inc) : typeclass_instances.

Context (t : tid) (n : nat) (F : chst -> Prop) (window : Prop).
Hypothesis t_inc : inc t = S n.
Hypothesis F_stable : stableP dev ino ps t F.
Hypothesis ps_ok : 0 < ps <= kMaxPayloadSize.

(** The mark in the slot the dead consumer was reading: its role epoch, or none, and
    in state [kReading] none only in the [window]. *)
Definition marked (h : option Z) (s : chst) : Prop :=
  (forall k, is_slot k -> 3 <= st s k ->
    rd s k = epoch_of n /\ ~ window \/ rd s k = 0 /\ (st s k = 4 <-> window)) /\
  (h = None -> ~ window).

Definition TK0 (e : Z) (h : option Z) (s : chst) : Prop :=
  CO t h s /\ ginc s = S n /\ gopen s = false /\ epo dev ino s = e /\ reads s (S n) = [] /\ F s.
Definition TK (e : Z) (h : option Z) (s : chst) : Prop := TK0 e h s /\ marked h s.

Ltac as_rely H := match type of H with p_rely ?t ?a ?b => change (crely t a b) in H end.

Lemma F_crely s s' : F s -> crely t s s' -> F s'.
Proof. intros HF [? ? ? ? ? ?]. by eapply F_stable. Qed.
Lemma F_cstep s s' : F s -> guarantee t s s' -> keepsP dev ino ps t s s' -> F s'.
Proof. intros HF Hg Hk. eapply F_stable; [done|by eapply guarantee_mono|done]. Qed.

Lemma TK0_stable e h : stable t (TK0 e h).
Proof.
  intros s s' (Ho & Hn & Hop & He & Hr & HF) Hrel _. as_rely Hrel.
  pose proof (r_cons _ _ _ _ _ _ Hrel (proj1 Ho)) as [K1 K2 K3 K4 K5 K6 K7 K8 K9 K10].
  split; [by eapply CO_rely|]. rewrite Hn in *. rewrite K3, K4, K8, K5.
  repeat (split; [done|]). by eapply F_crely.
Qed.

(** The slot in use keeps its state and its mark. *)
Lemma slot_kept e h k s s' :
  TK0 e h s -> crely t s s' -> is_slot k -> 3 <= st s k \/ 3 <= st s' k ->
  st s' k = st s k /\ rd s' k = rd s k.
Proof.
  intros ((Ho & Hh) & _) Hr Hk H3.
  pose proof (r_cons _ _ _ _ _ _ Hr Ho) as [_ _ _ _ _ _ _ _ K9 K10].
  assert (3 <= st s k) as H by (destruct H3; [done|by apply K9]).
  by destruct (K10 k Hk H) as (? & _ & ?).
Qed.

Lemma TK_stable e h : stable t (TK e h).
Proof.
  intros s s' [H Hm] Hrel Hi. split; [by eapply TK0_stable|]. as_rely Hrel.
  destruct Hm as [Hm Hw]. split; [|done]. intros k Hk H3.
  destruct (slot_kept e h k s s' H Hrel Hk) as [Hs Hrd]; [by right|].
  rewrite Hrd, Hs. apply Hm; [done|lia].
Qed.

(** * Giving the slot back *)

Lemma wp_reclaim_slot k e s :
  is_slot k -> ~ window -> TK e (Some k) s ->
  wp t (slot_release_read (Obj dev ino) k) (fun _ => TK e None) s.
Proof.
  intros Hk Hnw [Hs _]. unfold slot_release_read, shared_store_relaxed, shared_store_release.
  set (R := fun s => TK0 e (Some k) s /\ rd s k = 0).
  assert (stable t R) as HR.
  { intros s1 s2 [H1 H2] Hr Hi. split; [by eapply TK0_stable|]. as_rely Hr.
    destruct (slot_kept e (Some k) k s1 s2 H1 Hr Hk) as [_ ->]; [|done].
    left. by apply (proj1 H1). }
  eapply (wp_bind_store _ _ _ _ (TK0 e (Some k)) R); [apply TK0_stable|done|done|..].
  - intros s' Hi (Ho & Hn & Hop & He & Hr & HF).
    destruct (step_creader dev ino ps ph inc t k 0 s' Hi Ho Hk) as (Hg & HP & Ho' & Hgh); [by left|].
    pose proof (kind_reader dev ino ph k) as K.
    split; [done|]. split; [|by rewrite (rd_write dev ino ps ph inc), K, decide_True].
    split; [done|]. unfold ginc, gopen, reads in *. rewrite Hgh.
    split; [done|]. split; [done|]. split; [by rewrite (epo_write dev ino ps ph inc), K|].
    split; [done|]. by eapply F_cstep.
  - clear dependent s. intros s Hi Hs.
    eapply (wp_trigger_store _ _ _ R (TK e None)); [done|apply TK_stable|done|].
    intros s' Hi' [(Ho & Hn & Hop & He & Hr & HF) Hrd].
    destruct (step_cslot_release dev ino ps ph inc t k s' Hi' Ho Hk Hrd)
      as (Hg & HP & Ho' & _ & _ & Hn' & Hop' & Hr').
    pose proof (kind_state dev ino ph k) as K.
    split; [done|]. split.
    + split; [done|]. split; [congruence|]. split; [congruence|].
      split; [by rewrite (epo_write dev ino ps ph inc), K|]. split; [by rewrite Hr'|].
      by eapply F_cstep.
    + split; [|done]. intros k' Hk' H3. by apply (proj2 Ho') in H3.
Qed.

Definition blocked {A} (r : Result A) : Prop :=
  exists e, r = Err e /\ err_code e = kRecoveryBlocked.

(** The slot the dead consumer was reading is still to come. *)
Lemma wp_reclaim_slots stride slots h e s :
  slot_stride ps = Some stride -> Forall is_slot slots -> (forall k, h = Some k -> k ∈ slots) ->
  TK e h s ->
  wp t (reclaim_slots (Obj dev ino) (epoch_of n) stride slots)
    (fun r s' => (r = Ok tt /\ TK e None s') \/ (blocked r /\ window /\ F s')) s.
Proof.
  intros Hst. revert h s. induction slots as [|i slots IH]; intros h s Hsl Hh Hs.
  { assert (h = None) as -> by (destruct h as [k|]; [specialize (Hh k eq_refl); by apply elem_of_nil in Hh|done]).
    eapply wp_ret; [apply TK_stable|done|]. intros s' _ H'. by left. }
  apply Forall_cons in Hsl as [Hi Hsl]. cbn [reclaim_slots].
  destruct (slot_offset_ok ps stride i ps_ok Hst Hi) as [o ->].
  unfold shared_load_relaxed.
  set (R1 := fun v s => TK e h s /\ (3 <= v <-> h = Some i) /\ (3 <= v -> st s i = v)).
  assert (forall v, stable t (R1 v)) as HR1.
  { intros v s1 s2 (H1 & H2 & H3) Hr Hi2. split; [by eapply TK_stable|]. split; [done|].
    intros Hv. as_rely Hr. destruct (slot_kept e h i s1 s2 (proj1 H1) Hr Hi) as [-> _]; [|auto].
    left. rewrite (H3 Hv). done. }
  eapply (wp_bind_load _ _ _ (TK e h) R1); [apply TK_stable|done|done|..].
  { intros s' Hi' H'. change (c_mem s' _) with (st s' i). split; [done|].
    split; [|done]. by apply (proj2 (proj1 (proj1 H'))). }
  clear dependent s. intros v s Hi0 (Hs & Hv & Hsv).
  destruct (decide (3 <= v)) as [H3|H3].
  2:{ replace (v =? ss_kReadingClaiming) with false by (unfold ss_kReadingClaiming; lia).
      replace (v =? ss_kReading) with false by (unfold ss_kReading; lia).
      apply (IH h); [done| |done]. intros k Hk. specialize (Hh k Hk).
      apply elem_of_cons in Hh as [->|]; [|done]. tauto. }
  assert (h = Some i) as -> by (by apply Hv). specialize (Hsv H3).
  assert (forall s', ~ window -> TK e (Some i) s' ->
    wp t (do! slot_release_read (Obj dev ino) i; reclaim_slots (Obj dev ino) (epoch_of n) stride slots)
      (fun r s' => (r = Ok tt /\ TK e None s') \/ (blocked r /\ window /\ F s')) s') as Hrel.
  { intros s' Hnw H'. eapply wp_seq; [by apply wp_reclaim_slot|]. intros [] s2 Hi2 H2. by apply (IH None). }
  set (R2 := fun v' s => TK e (Some i) s /\ st s i = v /\ rd s i = v').
  assert (forall v', stable t (R2 v')) as HR2.
  { intros v' s1 s2 (H1 & H2 & H4) Hr Hi2. split; [by eapply TK_stable|]. as_rely Hr.
    destruct (slot_kept e (Some i) i s1 s2 (proj1 H1) Hr Hi) as [-> ->]; [left; lia|done]. }
  assert (forall (f : Z -> cprog (Result unit)) Q, (forall v' s', cinv s' -> R2 v' s' -> wp t (f v') Q s') ->
    wp t (bind (trigger (Load (Obj dev ino (SlotReader i)))) f) Q s) as Hload.
  { intros f Q Hf. eapply (wp_bind_load _ _ _ (fun s => TK e (Some i) s /\ st s i = v) R2); [|done|done| |done].
    - intros s1 s2 [H1 H2] Hr Hi2. split; [by eapply TK_stable|]. as_rely Hr.
      destruct (slot_kept e (Some i) i s1 s2 (proj1 H1) Hr Hi) as [-> _]; [left; lia|done].
    - intros s' Hi' [H1 H2]. by split. }
  unfold ss_kReadingClaiming, ss_kReading. bdestr (v =? 3); [|bdestr (v =? 4)].
  - apply Hload. intros v' s' Hi' (H1 & H2 & <-).
    destruct (proj1 (proj2 H1) i Hi) as [[E' Hw]|[E' Hw]]; [lia|..].
    + rewrite E', Z.eqb_refl, andb_false_r. by apply Hrel.
    + rewrite E'. cbn [Z.eqb negb andb]. apply Hrel; [|done]. intros W. apply Hw in W. lia.
  - apply Hload. intros v' s' Hi' (H1 & H2 & <-).
    destruct (proj1 (proj2 H1) i Hi) as [[E' Hw]|[E' Hw]]; [lia|..].
    + rewrite E', Z.eqb_refl. by apply Hrel.
    + rewrite E'. replace (0 =? epoch_of n) with false by (unfold epoch_of; lia).
      cbn [negb]. eapply wp_ret; [apply TK_stable|exact H1|]. intros s2 _ H3'. right.
      split; [by eexists|]. split; [apply Hw; lia|]. apply H3'.
  - exfalso. destruct Hi0 as [_ I2 _ _ _]. pose proof (i_state _ _ _ _ I2 i Hi). lia.
Qed.

(** * The new identity and the new handle *)

Lemma wp_epoch_store e e' s :
  TK e None s ->
  wp t (trigger (Store (Obj dev ino (Ident r_consumer id_role_epoch)) e')) (fun _ => TK e' None) s.
Proof.
  intros Hs. eapply (wp_trigger_store _ _ _ (TK e None) (TK e' None)); [apply TK_stable..|done|].
  intros s' Hi [(Ho & Hn & Hop & He & Hr & HF) Hm].
  destruct (step_cepoch dev ino ps ph inc t None e' s' Hi Ho Hop) as (Hg & HP & Ho' & Hgh).
  assert (kind_of dev ino ph (Obj dev ino (Ident r_consumer id_role_epoch)) = kd_epoch) as K
    by (simpl; by rewrite decide_True).
  split; [done|]. split.
  - split; [done|]. unfold ginc, gopen, reads in *. rewrite Hgh.
    split; [done|]. split; [done|]. split; [by rewrite (epo_write dev ino ps ph inc), K, decide_True|].
    split; [done|]. by eapply F_cstep.
  - split; [|by apply Hm]. intros k Hk H3. by apply (proj2 Ho') in H3.
Qed.

Lemma epoch_of_even k : epoch_odd (epoch_of k) = false.
Proof.
  unfold epoch_odd, epoch_of. change 1 with (Z.ones 1) at 2.
  rewrite Z.land_ones by lia. rewrite Z.mul_comm, Z.mod_mul by lia. done.
Qed.

(** The role epoch is the one in the segment. *)
Lemma wp_snapshot_read h s :
  TK (epoch_of n) h s ->
  wp t (identity_snapshot_read (fun f => Obj dev ino (Ident r_consumer f)))
    (fun r s' => TK (epoch_of n) h s' /\ exists c, r = Ok c /\ ia_role_epoch c = epoch_of n) s.
Proof.
  intros Hs. unfold identity_snapshot_read.
  assert (exists m, kIdentitySnapshotRetries = S m) as [m ->] by (by eexists).
  cbn [identity_snapshot_loop].
  set (R := TK (epoch_of n) h) in *. assert (stable t R) as HR by apply TK_stable.
  assert (forall s', cinv s' -> R s' ->
    c_mem s' (Obj dev ino (Ident r_consumer id_role_epoch)) = epoch_of n) as Hepo.
  { intros s' _ [(_ & _ & _ & H & _) _]. exact H. }
  eapply (wp_bind_known _ _ (epoch_of n) _ R); [done..|]. clear dependent s. intros s Hi Hs.
  rewrite epoch_of_even.
  do 4 (eapply wp_readonly_bind; [solve_readonly|exact HR|done|]; clear dependent s; intros ? s Hi Hs).
  eapply (wp_bind_known _ _ (epoch_of n) _ R); [done..|]. clear dependent s. intros s Hi Hs.
  rewrite epoch_of_even, Z.eqb_refl. eapply wp_ret; [exact HR|done|]. intros s' _ H'.
  split; [done|]. by eexists.
Qed.

Lemma wp_snapshot_write snap s :
  epoch_of n <= UINT64_MAX - 2 -> TK (epoch_of n) None s ->
  wp t (identity_snapshot_write (fun f => Obj dev ino (Ident r_consumer f)) snap)
    (fun r s' => r = Ok (epoch_of (S n)) /\ TK (epoch_of (S n)) None s') s.
Proof.
  intros Hmax Hs. unfold identity_snapshot_write, shared_load_relaxed, shared_store_relaxed,
    shared_store_release.
  eapply (wp_bind_known _ _ (epoch_of n) _ (TK (epoch_of n) None)); [apply TK_stable|done|..].
  { intros s' _ [(_ & _ & _ & H & _) _]. exact H. }
  clear dependent s. intros s Hi Hs. rewrite epoch_of_even.
  bdestr (UINT64_MAX - 2 <? epoch_of n); [lia|].
  assert (u64 (epoch_of n + 2) = epoch_of (S n)) as ->
    by (rewrite u64_small; unfold epoch_of in *; [lia|mlia]).
  eapply wp_seq; [by apply (wp_epoch_store (epoch_of n))|]. set (e1 := u64 (epoch_of n + 1)).
  clear dependent s. intros [] s Hi Hs.
  do 4 (eapply wp_seq; [apply (wp_others dev ino ps ph inc t _ (TK e1 None));
    [split; [unfold other_loc; simpl; by rewrite decide_True|done]|apply TK_stable|exact Hs]|];
    clear dependent s; intros ? s Hi Hs).
  eapply wp_seq; [by apply (wp_epoch_store e1)|]. clear dependent s. intros [] s Hi Hs.
  eapply wp_ret; [apply TK_stable|done|done].
Qed.

(** The cursor of the new handle. *)
Definition fresh_cursor (e : Z) (first : option Z) (s : chst) : Prop :=
  TK0 e None s /\ lst s (S n) = 0 /\ forall v, first = Some v -> fst_ s (S n) = v.

Lemma fresh_cursor_stable e first : stable t (fresh_cursor e first).
Proof.
  intros s s' (H & Hl & Hf) Hr Hi. split; [by eapply TK0_stable|]. as_rely Hr.
  destruct H as ((Ho & _) & Hn & _).
  pose proof (r_cons _ _ _ _ _ _ Hr Ho) as [_ _ _ _ _ K6 K7 _ _ _]. rewrite Hn in *.
  rewrite K6, K7. done.
Qed.

Lemma wp_init_handle s :
  TK0 (epoch_of (S n)) None s -> wp t (init_consumer_handle (S n)) (fun _ => F) s.
Proof.
  intros Hs. unfold init_consumer_handle. set (e := epoch_of (S n)) in *. cbn [store_list].
  assert (stable t F) as HF by (by apply stableP_stable).
  eapply (wp_store _ _ _ _ (TK0 e None)); [apply TK0_stable|done|]. clear dependent s.
  intros s Hi (Ho & Hn & Hop & He & Hr & Hf).
  destruct (step_clast dev ino ps ph inc t None (S n) 0 s Hi Ho Hn) as (Hg & HP & Ho' & _ & _ & Hn' & Hop' & Hr');
    [by left|]. split; [done|].
  eapply (wp_store _ _ _ _ (fresh_cursor e None)); [apply fresh_cursor_stable| |].
  { split; [|split; [by rewrite (lst_write dev ino ps ph inc), decide_True|done]].
    split; [done|]. split; [done|]. split; [congruence|]. split; [by rewrite (epo_write dev ino ps ph inc)|].
    split; [by rewrite Hr'|by eapply F_cstep]. }
  clear dependent s. intros s Hi ((Ho & Hn & Hop & He & Hr & Hf) & Hl & _).
  destruct (step_cfirst dev ino ps ph inc t None (S n) 1 s Hi Ho Hn) as (Hg & HP & Ho' & Hgh).
  split; [done|].
  eapply (wp_store _ _ _ _ (fresh_cursor e (Some 1))); [apply fresh_cursor_stable| |].
  { unfold fresh_cursor, TK0, ginc, gopen, reads in *. rewrite Hgh.
    split; [|split; [by rewrite (lst_write dev ino ps ph inc)|]].
    - split; [done|]. split; [done|]. split; [done|]. split; [by rewrite (epo_write dev ino ps ph inc)|].
      split; [done|by eapply F_cstep].
    - intros v [= <-]. by rewrite (fst_write dev ino ps ph inc), decide_True. }
  clear dependent s. intros s Hi ((Ho & Hn & Hop & He & Hr & Hf) & Hl & Hfst).
  pose proof (step_crelease dev ino ps ph inc t s Hi Ho) as Hstep. rewrite Hn, Hr, Hl in Hstep.
  destruct Hstep as (Hg & HP & _); [done|done|by rewrite (Hfst 1)|].
  split; [done|]. eapply wp_mono; [|apply (wp_others dev ino ps ph inc t _ F); [|done|by eapply F_cstep]].
  - done.
  - split; [done|intros ?]. split; [done|done].
Qed.

Lemma wp_install self s :
  epoch_of n <= UINT64_MAX - 2 -> TK (epoch_of n) None s ->
  wp t (install_consumer (S n) (Obj dev ino) self)
    (fun r s' => r = Ok (epoch_of (S n)) /\ F s') s.
Proof.
  intros Hmax Hs. unfold install_consumer. eapply wp_seq; [by apply wp_snapshot_write|].
  cbv beta. clear dependent s. intros r s Hi [-> Hs]. cbv beta iota.
  eapply wp_seq; [apply (wp_others dev ino ps ph inc t _ (TK (epoch_of (S n)) None));
    [split; [by apply kind_head|done]|apply TK_stable|exact Hs]|].
  clear dependent s. intros [] s Hi [Hs _]. eapply wp_seq; [by apply wp_init_handle|].
  clear dependent s. intros [] s Hi Hs. eapply wp_ret; [by apply stableP_stable|done|done].
Qed.

(** The whole of it: the next role epoch, or a refusal, and then the dead consumer had
    left a slot in the [window]. *)
Lemma wp_replace self h s :
  epoch_of n <= UINT64_MAX - 2 -> (forall k, h = Some k -> is_slot k) -> TK (epoch_of n) h s ->
  wp t (replace_dead_consumer (S n) (Obj dev ino) ps self)
    (fun r s' => F s' /\ (r = Ok (epoch_of (S n)) /\ ~ window \/ blocked r /\ window)) s.
Proof.
  intros Hmax Hh Hs. unfold replace_dead_consumer. eapply wp_seq; [by apply wp_snapshot_read|].
  cbv beta. clear dependent s. intros r s Hi (Hs & c & -> & He). rewrite He.
  unfold reclaim_dead_consumer_slots.
  destruct (slot_stride_spec ps ps_ok) as (stride & Hst & _). rewrite Hst.
  eapply wp_seq; [apply (wp_reclaim_slots stride slot_indices h (epoch_of n)); [done|by repeat constructor| |done]|].
  { intros k Hk. specialize (Hh k Hk). unfold is_slot, kSlotCount, slot_indices in *.
    assert (k = 0 \/ k = 1 \/ k = 2) as [-> |[-> | ->]] by lia; repeat constructor. }
  cbv beta. clear dependent s. intros r s Hi [[-> Hs]|([e [-> Hc]] & Hw & HF)].
  - cbv beta iota. pose proof (proj2 (proj2 Hs) eq_refl) as Hnw.
    eapply wp_mono; [|by apply wp_install]. intros r s' _ [-> H']. auto.
  - cbv beta iota. eapply wp_ret; [by apply stableP_stable|done|]. intros s' _ H'. split; [done|].
    right. split; [by eexists|done].
Qed.
End Takeover.

(** * The opening it is a part of *)

(** Programs that only load: they leave the world alone, and what they return does not
    depend on the operating system. *)
Fixpoint loads_only {L A} (p : prog L A) : Prop :=
  match p with
  | Ret _ => True
  | Vis e k => (exists l, match e with Load l' => l' = l | _ => False end) /\ forall x, loads_only (k x)
  end.

Lemma run_loads_only {L OS A} `{EqDecision L} (os : os_model OS) (p : prog L A) m o o' :
  loads_only p ->
  run os p (mkWorld m o) = ((run os p (mkWorld m o')).1, mkWorld m o).
Proof.
  induction p as [a|X e k IH]; [done|]. intros [[l He] Hk].
  destruct e; try done. cbn [run run_ev w_mem]. by apply IH.
Qed.

Lemma identity_snapshot_loads {L} (abi : ident_field -> L) : loads_only (identity_snapshot_read abi).
Proof.
  unfold identity_snapshot_read. induction kIdentitySnapshotRetries as [|n IH]; [done|].
  cbn [identity_snapshot_loop bind shared_load_acquire shared_load_relaxed trigger loads_only].
  split; [by eexists|]. intros before. destruct (epoch_odd before); [exact IH|].
  cbn [bind shared_load_acquire shared_load_relaxed trigger loads_only].
  do 5 (split; [by eexists|]; intros ?). destruct (epoch_odd _); [exact IH|].
  by destruct (negb _).
Qed.

Section Opening.
Context {OS : Type} (os : os_model OS).
Context (id : nat) (base : cloc -> chloc) (ps : Z) (self : ProcessIdentity).
Abbreviation consumer_identity := (identity_snapshot_read (fun f => base (Ident r_consumer f))).

(** When the consumer's recorded identity [c] is valid, its state is an active one and the
    kernel says that the process is gone, taking its place is [replace_dead_consumer]. *)
Lemma take_place_replaces (w : world chloc OS) c :
  (run os consumer_identity w).1 = Ok c ->
  process_identity_valid (identity_of_abi c) = true -> ia_pid c <> 0 ->
  actively_owned (w_mem w (base (Head ch_consumer_state))) = true ->
  let probed := run os (probe_liveness (ia_pid c) (ia_proc_start_ticks c)) w in
  probed.1 = kExited \/ probed.1 = kPidReused ->
  run os (take_consumer_place id base ps self) w
    = run os (replace_dead_consumer id base ps self) probed.2.
Proof.
  intros Hc Hv Hp Ha probed Hl. destruct w as [m o].
  assert (w_mem probed.2 = m) as Hm
    by (apply (swp_run os _ _ m o (swp_readonly (probe_liveness _ _) m ltac:(solve_readonly)))).
  unfold take_consumer_place, take_over_consumer, replace_dead_consumer. rewrite !run_bind.
  subst probed.
  destruct (run os (probe_liveness _ _) _) as [liv [m1 o1]] eqn:Hprobe. cbn [fst snd w_mem] in *. subst m1.
  rewrite (run_loads_only os consumer_identity m o1 o), Hc by apply identity_snapshot_loads.
  rewrite (run_loads_only os consumer_identity m o o), Hc by apply identity_snapshot_loads.
  cbn [bind shared_load_acquire trigger run run_ev w_mem]. cbn [w_mem] in Ha. rewrite Hv, andb_false_r.
  bdestr (ia_pid c =? 0); [done|].
  cbn [bind shared_load_acquire trigger run run_ev w_mem]. rewrite Ha. cbn [negb].
  rewrite run_bind, Hprobe. rewrite run_bind. by destruct Hl as [-> | ->].
Qed.

(** A consumer that died while it wrote its own identity left an odd role epoch. *)
Lemma take_place_torn (w : world chloc OS) :
  epoch_odd (w_mem w (base (Ident r_consumer id_role_epoch))) = true ->
  blocked (run os (take_consumer_place id base ps self) w).1 /\
  (run os (take_consumer_place id base ps self) w).2 = w.
Proof.
  intros Ho. unfold take_consumer_place, take_over_consumer, identity_snapshot_read. rewrite !run_bind.
  assert (forall n, exists e, run os (identity_snapshot_loop (fun f => base (Ident r_consumer f)) n) w = (Err e, w)) as H.
  { induction n as [|n [e IH]]; [by eexists|].
    cbn [identity_snapshot_loop bind shared_load_acquire trigger run run_ev]. rewrite Ho. by exists e. }
  destruct (H kIdentitySnapshotRetries) as [e ->]. split; [by eexists|done].
Qed.
End Opening.
