(* ===== verification/ChannelRuns.v ===== *)
(** Every run of a channel: the threads call the operations in any order and their
    accesses interleave in any way; a thread may stop for good anywhere; and when the
    consumer's process is gone another one takes its place. In every configuration a
    run reaches, the contract holds and every thread knows what [holds] says. *)
From S2P Require Import Prelude Errors CheckedMath Prog Concur Checksum ProcIdentity ShmObject Clock.
From S2P Require Import ChannelLayout ChannelSegment SlotProtocol ChannelAbi ControlLock Producer Consumer.
From S2P Require Import ConsumerOpen ChannelProtocol ChannelSteps ConsumerSafety ConsumerOps.
From S2P Require Import ProducerSafety ProducerOps ChannelClient ChannelHolds ChannelTakeover.

Abbreviation chan_config := (config (L := chloc) (G := chghost) (Op := chan_op) (Res := chan_res)).

(** * Runs *)

(** The heir has the consumer's place. The use flag of the dead process is gone with
    its memory; it counts as taken. *)
Definition takeover_state (heir : tid) (s : chst) : chst :=
  mkCst (upd (CHnd (ginc s) hl_operation_in_use) 1 (c_mem s))
    (mkChGhost (glog s) (pown s) (Some heir) (lo s) (S (ginc s)) false (reads s)).

Section Runs.
Context (dev ino ps : Z) (pd : ProducerHandle) (chd : nat -> ConsumerHandle) (inc : tid -> nat).
Context (self : tid -> ProcessIdentity).
Abbreviation ph := (pd_id pd).
Abbreviation cinv := (cinv dev ino ps ph inc).
Abbreviation chan_impl := (chan_impl pd chd inc).
#[local] Hint Extern 0 (Protocol chloc chghost) =>
  exact (channel_protocol dev ino ps ph inc) : typeclass_instances.

Definition open_call (heir : tid) : cprog chan_res :=
  let! r := replace_dead_consumer (inc heir) (Obj dev ino) ps (self heir) in Ret (ResOpen r).

Definition takeover_thread (heir : tid) (n : nat) (threads : tid -> thread) (t : tid) : thread :=
  if decide (t = heir) then mkThread (Some (OpOpen, open_call heir)) (th_hist (threads t))
  else if decide (inc t = n) then mkThread None (th_hist (threads t) ++ [(OpCrash, ResNone)])
  else threads t.

Definition takeover (heir : tid) (c : chan_config) : chan_config :=
  mkConfig (takeover_state heir (cf_st c)) (takeover_thread heir (ginc (cf_st c)) (cf_threads c)).

Inductive chan_step : chan_config -> chan_config -> Prop :=
| chan_cstep c c' : cstep chan_impl c c' -> chan_step c c'
| chan_takeover c heir :
    inc heir = S (ginc (cf_st c)) -> gopen (cf_st c) = true ->
    epoch_of (ginc (cf_st c)) <= UINT64_MAX - 2 ->
    th_run (cf_threads c heir) = None -> chan_step c (takeover heir c).

Definition chghost_start : chghost := mkChGhost [] None None 0 0 true (fun _ => []).

Definition chan_reachable (m : chloc -> Z) : chan_config -> Prop :=
  rtc chan_step (initial (mkCst m chghost_start)).

(** The memory of a channel that was just created and opened. *)
Record channel_fresh (m : chloc -> Z) : Prop := {
  fr_ticket : m_ticket dev ino m = 0;
  fr_slots : forall k, is_slot k ->
    m_state dev ino m k = ss_kFree /\ m_reader dev ino m k = 0 /\ m (Obj dev ino (SlotSequence k)) = 0;
  fr_epoch : m_epoch dev ino m = epoch_of 0;
  fr_producer : m_puse ph m = 0;
  fr_consumer : m_cuse m 0 = 0 /\ m_last m 0 = 0 /\ m_first m 0 = 1;
  fr_others : forall n, n <> 0%nat -> m_cuse m n <> 0
}.

Lemma fresh_cinv m : channel_fresh m -> cinv (mkCst m chghost_start).
Proof.
  intros [H1 H2 H3 H4 [H5 [H6 H7]] H8].
  assert (forall k, is_slot k -> st dev ino (mkCst m chghost_start) k = 0) as Hs
    by (intros k Hk; by apply H2).
  assert (0 <= kMaxSampleSequence) as Hmax by (vm_compute; discriminate).
  split.
  - split.
    + unfold len. cbn [glog cg_log c_gh chghost_start length]. exact Hmax.
    + exact H1.
    + constructor.
    + intros e He. discriminate He.
    + intros k Hk. destruct (H2 k Hk) as (_ & _ & Hq).
      change (0 <= m (Obj dev ino (SlotSequence k)) <= kMaxSampleSequence). rewrite Hq. lia.
  - split; [intros k Hk; rewrite Hs by done; lia|intros k Hk; rewrite Hs by done; lia|done].
  - split.
    + intros k Hk. rewrite Hs by done. lia.
    + intros k k' Hk Hk'. rewrite Hs by done. lia.
    + intros n. cbn. split; [|intros [-> _]; done]. intros Hn. split; [|done].
      destruct (decide (n = 0%nat)) as [|Hne]; [done|]. by destruct (H8 n Hne).
    + intros u Hu. discriminate Hu.
    + done.
  - split; [intros k Hk _; by apply H2|intros _ k Hk; left; by apply H2|intros _; exact H3].
  - split.
    + intros _. split; [done|]. split; [exact H6|]. change (m_first m 0 = 0 <-> @nil Z <> []). rewrite H7. done.
    + intros n i j a b Ha. cbn in Ha. discriminate Ha.
    + intros n q Hq. by apply elem_of_nil in Hq.
    + done.
Qed.

(** * What every configuration satisfies *)

Hypothesis setup : channel_setup dev ino ps pd chd.

Abbreviation ctrack := (ctrack inc).

(** Anything else that is to be followed along a run: [E] holds of the calls of a
    thread between two calls, [K] of its finished calls also inside one. *)
Context (E K : tid -> list (chan_op * chan_res) -> Prop).
Hypothesis E_snoc : forall t h x, E t h -> E t (h ++ [x]).
Hypothesis E_K : forall t h, E t h -> K t h.
Hypothesis K_crash : forall t h, K t h -> E t (h ++ [(OpCrash, ResNone)]).

(** [n] samples were published when thread [t] had made [h0 t] calls: what it knows of
    all its calls, and of the later ones. *)
Definition known (n : Z) (h0 : tid -> nat) (t : tid) (h : list (chan_op * chan_res))
    (s : chst) : Prop :=
  past_ok ps pd inc t (ctrack t h) s /\ n <= len s /\
  Forall (call_fact ps inc t 0 s) h /\ Forall (call_fact ps inc t n s) (drop (h0 t) h).

Definition idle (n : Z) (h0 : tid -> nat) (t : tid) (h : list (chan_op * chan_res))
    (s : chst) : Prop :=
  holds dev ino ps pd chd inc t (ctrack t h) s /\ known n h0 t h s /\ E t h.

Lemma calls_growing t n (h : list (chan_op * chan_res)) :
  growing (fun s => Forall (call_fact ps inc t n s) h).
Proof.
  intros s s' H Hm. eapply Forall_impl; [exact H|]. intros x Hx.
  by eapply (call_fact_growing ps pd inc t n x).
Qed.

Lemma known_growing n h0 t h : growing (known n h0 t h).
Proof.
  intros s s' (H1 & H2 & H3 & H4) Hm. split; [by eapply past_ok_growing|].
  split; [apply mono_len in Hm; lia|]. split; by eapply calls_growing.
Qed.

Lemma idle_stable n h0 t h : stable t (idle n h0 t h).
Proof.
  intros s s' (H1 & H2 & H3) Hr Hi. split; [by eapply (holds_stable dev ino ps pd chd inc setup t)|].
  split; [|done]. eapply known_growing; [done|]. exact (crely_mono dev ino ps t s s' Hr).
Qed.

Lemma drop_snoc {A} k (l : list A) x : drop k (l ++ [x]) = drop k l \/ drop k (l ++ [x]) = drop k l ++ [x].
Proof.
  rewrite drop_app. destruct (k - length l)%nat; [by right|left]. cbn. rewrite drop_nil.
  by rewrite app_nil_r.
Qed.

Lemma known_snoc n h0 t h op r s :
  known n h0 t h s -> past_ok ps pd inc t (ctrack t (h ++ [(op, r)])) s ->
  call_fact ps inc t 0 s (op, r) -> call_fact ps inc t n s (op, r) ->
  known n h0 t (h ++ [(op, r)]) s.
Proof.
  intros (_ & Hn & H0 & H1) Hp Hc0 Hc. split; [done|]. split; [done|].
  split; [apply Forall_app; split; [done|by constructor]|].
  destruct (drop_snoc (h0 t) h (op, r)) as [->| ->]; [done|].
  apply Forall_app. split; [done|by constructor].
Qed.

Lemma ctrack_snoc t h op r : ctrack t (h ++ [(op, r)]) = ctrack1 (ctrack t h) (op, r).
Proof. unfold ChannelClient.ctrack. by rewrite foldl_app. Qed.

Lemma known_stable n h0 t h : stable t (known n h0 t h).
Proof. intros s s' H Hr _. eapply known_growing; [done|]. exact (crely_mono dev ino ps t s s' Hr). Qed.
Lemma known_step n h0 t h s s' : guarantee t s s' -> known n h0 t h s -> known n h0 t h s'.
Proof. intros Hg H. eapply known_growing; [done|]. by eapply guarantee_mono. Qed.

Lemma chan_op_wp n h0 t op h s :
  0 <= n -> cinv s -> idle n h0 t h s ->
  wp t (chan_impl t h op) (fun r s' => idle n h0 t (h ++ [(op, r)]) s') s.
Proof.
  intros Hn0 Hi (Hh & Hk & HE). unfold ChannelClient.chan_impl.
  assert (n <= len s) as Hn by apply Hk. assert (0 <= len s) as H0 by (unfold len; lia).
  pose proof (wp_chan_call dev ino ps pd chd inc setup t n _ op s Hh Hn) as W1.
  pose proof (wp_chan_call dev ino ps pd chd inc setup t 0 _ op s Hh H0) as W2.
  pose proof (wp_keep _ _ _ _ _ (known_stable n h0 t h) (known_step n h0 t h) Hk
    (wp_and _ _ _ _ _ W1 W2)) as W.
  eapply wp_mono; [|exact W]. intros r s' _ [[[H1 H2] [_ H3]] Hk'].
  split; [by rewrite ctrack_snoc|]. split; [|by apply E_snoc]. apply known_snoc; [done| |done|done].
  rewrite ctrack_snoc. apply H1.
Qed.

(** * Taking over *)

Section Step.
Context (s : chst) (heir : tid).
Hypothesis heir_inc : inc heir = S (ginc s).
Hypothesis heir_open : gopen s = true.
Hypothesis s_inv : cinv s.
Abbreviation s' := (takeover_state heir s).

Lemma takeover_cuse n : cuse s' n = if decide (n = ginc s) then 1 else cuse s n.
Proof. unfold cuse, m_cuse, takeover_state. cbn [c_mem]. unfold upd. repeat case_decide; congruence. Qed.

Lemma takeover_cinv : cinv s'.
Proof.
  destruct s_inv as [I1 I2 I3 I4 I5]. split.
  - eapply inv_log_frame; [..|exact I1]; done.
  - eapply inv_prod_frame; [..|exact I2]; try done. apply I2.
  - split.
    + intros k Hk H3. split; [by eexists|]. by apply I3.
    + apply I3.
    + intros n. rewrite takeover_cuse. split; [|by intros [_ ?]]. case_decide; [done|].
      intros Hn. by apply (i_cuse _ _ _ _ I3) in Hn as [? _].
    + intros u [= <-]. done.
    + apply I3.
  - split; [apply I4|done|done].
  - split; [done|apply I5|apply I5|]. intros n Hn. apply I5.
    change (ginc s') with (S (ginc s)) in Hn. lia.
Qed.

Lemma takeover_mono : mono s s'.
Proof. split; try done. change (ginc s') with (S (ginc s)). lia. Qed.

Lemma takeover_keepP u : keepsP dev ino ps u s s'.
Proof. intros Hu. by apply keep_prod_eq. Qed.

Lemma takeover_rely u : inc u <> ginc s -> crely dev ino ps u s s'.
Proof.
  intros Hu. split; try apply takeover_mono; [apply takeover_keepP|].
  intros Ho. destruct s_inv as [_ _ I3 _ _]. by apply (i_cown _ _ _ _ I3) in Ho.
Qed.

(** The slot the dead consumer was reading. *)
Lemma takeover_slot_at k : is_slot k -> 3 <= st dev ino s k -> CO dev ino heir (Some k) s'.
Proof.
  intros Hk H3. destruct s_inv as [_ _ I3 _ _]. split; [done|]. intros k' Hk'.
  change (st dev ino s' k') with (st dev ino s k'). split; [|intros [= <-]; done].
  intros H. f_equal. by apply (i_one _ _ _ _ I3).
Qed.

Lemma takeover_slot : exists h, CO dev ino heir h s' /\ forall k, h = Some k -> is_slot k.
Proof.
  assert (forall k, is_slot k -> 3 <= st dev ino s k ->
    exists h, CO dev ino heir h s' /\ forall k, h = Some k -> is_slot k) as Hat.
  { intros k Hk H. exists (Some k). split; [by apply takeover_slot_at|]. by intros k' [= <-]. }
  unfold is_slot, kSlotCount in *.
  destruct (decide (3 <= st dev ino s 0)) as [H0|H0]; [apply (Hat 0); [lia|done]|].
  destruct (decide (3 <= st dev ino s 1)) as [H1|H1]; [apply (Hat 1); [lia|done]|].
  destruct (decide (3 <= st dev ino s 2)) as [H2|H2]; [apply (Hat 2); [lia|done]|].
  exists None. split; [|done]. split; [done|]. intros k Hk. split; [|done]. intros H. exfalso.
  unfold is_slot, kSlotCount in Hk. assert (k = 0 \/ k = 1 \/ k = 2) as [-> |[-> | ->]] by lia; done.
Qed.
(** The dead consumer was between the two stores of [slot_release_read]. *)
Definition in_window : Prop :=
  exists k, is_slot k /\ st dev ino s k = ss_kReading /\ rd dev ino s k = 0.

Lemma takeover_marked h : CO dev ino heir h s' -> marked dev ino (ginc s) in_window h s'.
Proof.
  intros [_ Hh]. destruct s_inv as [_ _ I3 I4 _].
  assert (forall k k', is_slot k -> is_slot k' -> 3 <= st dev ino s k -> st dev ino s k' = ss_kReading -> k = k') as Hone
    by (intros k k' Hk Hk' H3 H4; apply (i_one _ _ _ _ I3); try done; rewrite H4; by vm_compute).
  split.
  - intros k Hk H3. destruct (i_marked _ _ _ I4 heir_open k Hk) as [H|H].
    + right. split; [exact H|]. split; [intros H4; by exists k|]. intros (k' & Hk' & H4 & _).
      by rewrite (Hone k k').
    + left. split; [exact H|]. intros (k' & Hk' & H4 & H0). rewrite <- (Hone k k') in H0 by done.
      change (rd dev ino s k = epoch_of (ginc s)) in H. rewrite H0 in H. unfold epoch_of in H. lia.
  - intros -> (k & Hk & H4 & _). assert (3 <= st dev ino s' k) as H3
      by (change (3 <= st dev ino s k); rewrite H4; by vm_compute). by apply Hh in H3.
Qed.

Lemma takeover_TK (F : chst -> Prop) :
  F s' -> exists h, TK dev ino heir (ginc s) F in_window (epoch_of (ginc s)) h s' /\
    forall k, h = Some k -> is_slot k.
Proof.
  intros HF. destruct takeover_slot as (h & Hh & Hk). exists h. split; [|done].
  split; [|by apply takeover_marked]. split; [done|]. split; [done|]. split; [done|].
  destruct s_inv as [_ _ _ I4 I5]. split; [exact (i_epoch _ _ _ I4 heir_open)|].
  split; [|done]. apply (i_future _ I5). lia.
Qed.
End Step.

(** * Every reachable configuration *)

Definition chan_ok (n : Z) (h0 : tid -> nat) (c : chan_config) : Prop :=
  config_ok (idle n h0) c /\
  forall t, known n h0 t (th_hist (cf_threads c t)) (cf_st c) /\ K t (th_hist (cf_threads c t)).

Lemma known_cstep n h0 c c' :
  config_ok (idle n h0) c' -> chan_ok n h0 c -> cstep chan_impl c c' ->
  forall t, known n h0 t (th_hist (cf_threads c' t)) (cf_st c') /\ K t (th_hist (cf_threads c' t)).
Proof.
  intros [_ Ht'] [[Hi Ht] Hk] Hs t.
  inversion Hs as [? u op h Heq|? u op h X e k x s' Heq He|? u op h r Heq]; subst; cbn [cf_st cf_threads].
  - specialize (Hk t). unfold upd. case_decide; [subst|done]. by rewrite Heq in Hk.
  - specialize (Ht u). rewrite Heq in Ht. unfold thread_ok in Ht. cbn [th_run] in Ht.
    destruct (Ht (cf_st c) (p_rely_refl u _) Hi x s' He) as [Hg _].
    assert (known n h0 t (th_hist (cf_threads c t)) s' /\ K t (th_hist (cf_threads c t))) as H.
    { destruct (Hk t) as [H1 H2]. split; [|done]. eapply known_growing; [done|by eapply guarantee_mono]. }
    unfold upd. case_decide; [subst|done]. by rewrite Heq in H.
  - unfold upd. case_decide; [subst|apply Hk]. specialize (Ht' u). cbn [cf_threads cf_st] in Ht'.
    rewrite upd_eq in Ht'. destruct Ht' as (_ & H1 & H2). split; [done|by apply E_K].
Qed.

(** The opening of the heir: it succeeds unless the dead consumer was in the window. *)
Lemma heir_wp n h0 heir h s :
  inc heir = S (ginc s) -> gopen s = true -> epoch_of (ginc s) <= UINT64_MAX - 2 -> cinv s ->
  holds dev ino ps pd chd inc heir (ctrack heir h) s -> known n h0 heir h s ->
  wp heir (open_call heir) (fun r s' =>
    holds dev ino ps pd chd inc heir (ctrack heir (h ++ [(OpOpen, r)])) s' /\
    known n h0 heir (h ++ [(OpOpen, r)]) s' /\
    (r = ResOpen (Ok (epoch_of (inc heir))) /\ ~ in_window s \/
     exists e, r = ResOpen (Err e) /\ err_code e = kRecoveryBlocked /\ in_window s))
    (takeover_state heir s).
Proof.
  intros Hinc Hop Hmax Hi (Hw & Hr & Hp) Hk. set (u := ctrack heir h) in *.
  assert (rfree u) as Hfree.
  { unfold rfree. unfold rpart in Hr. destruct (cu_rloan u) as [loan|]; [|done].
    destruct Hr as [|Hr]; [done|]. destruct (held_owner _ _ _ _ _ _ _ _ Hr) as [_ ?]. lia. }
  set (F := fun s => wpart dev ino ps pd heir u s /\ known n h0 heir h s).
  assert (stableP dev ino ps heir F) as HF
    by (apply growing_and; [apply wpart_stableP|apply known_growing]).
  assert (F (takeover_state heir s)) as HF0.
  { eapply HF; [done|by apply takeover_mono|by apply takeover_keepP]. }
  destruct (takeover_TK s heir Hinc Hop Hi F HF0) as (h' & HTK & Hh').
  unfold open_call. rewrite Hinc. eapply wp_seq.
  { eapply (wp_replace dev ino ps ph inc heir (ginc s) F);
      [done|done|apply (su_ps _ _ _ _ _ setup)|done|done|done]. }
  cbv beta. intros r s' Hi' [HF' Hres]. eapply wp_ret; [by apply (stableP_stable dev ino ps ph inc)|done|].
  intros s2 _ [Hw2 Hk2]. assert (call_fact ps inc heir 0 s2 (OpOpen, ResOpen r)) as Hc.
  { destruct Hres as [[-> _]|[(e & -> & He) _]]; cbn; [by rewrite Hinc|done]. }
  assert (holds dev ino ps pd chd inc heir (ctrack1 u (OpOpen, ResOpen r)) s2) as Hh2.
  { destruct Hk2 as [Hp2 _]. destruct r; cbn [ctrack1]; (split; [done|]; split; [by apply rfree_rpart|]);
      [by destruct Hp2; split|done]. }
  split; [by rewrite ctrack_snoc|]. split.
  - apply known_snoc; [done| |done|done]. rewrite ctrack_snoc. apply Hh2.
  - destruct Hres as [[-> Hw']|[(e & -> & He) Hw']]; [by left|right]. by exists e.
Qed.

(** The configuration after a takeover, when the heir's opening ends in [E]. *)
Lemma takeover_config_ok n h0 c heir :
  inc heir = S (ginc (cf_st c)) -> cinv (cf_st c) ->
  (forall t, t <> heir -> inc t <> ginc (cf_st c) ->
     thread_ok (idle n h0) t (cf_threads c t) (cf_st c)) ->
  (forall t, known n h0 t (th_hist (cf_threads c t)) (cf_st c) /\ K t (th_hist (cf_threads c t))) ->
  wp heir (open_call heir)
    (fun r s' => idle n h0 heir (th_hist (cf_threads c heir) ++ [(OpOpen, r)]) s')
    (takeover_state heir (cf_st c)) ->
  chan_ok n h0 (takeover heir c).
Proof.
  intros Hinc Hi Ht Hk Hw. set (s := cf_st c) in *.
  assert (forall t, known n h0 t (th_hist (cf_threads c t)) (takeover_state heir s)) as Hk'.
  { intros t. eapply known_growing; [apply Hk|by apply takeover_mono]. }
  assert (forall t, idle n h0 t (th_hist (cf_threads c t) ++ [(OpCrash, ResNone)]) (takeover_state heir s)) as Hdead.
  { intros t. destruct (Hk' t) as [Hp _].
    assert (past_ok ps pd inc t (ctrack t (th_hist (cf_threads c t) ++ [(OpCrash, ResNone)]))
      (takeover_state heir s)) as Hp' by (rewrite ctrack_snoc; by destruct Hp; split).
    split; [rewrite ctrack_snoc in *; split; [done|]; split; [done|exact Hp']|].
    split; [by apply known_snoc|]. apply K_crash, Hk. }
  split; [split; [by apply takeover_cinv|]|]; intros t; cbn [cf_threads cf_st takeover];
    unfold takeover_thread; fold s; destruct (decide (t = heir)) as [->|Hne].
  - exact Hw.
  - destruct (decide (inc t = ginc s)) as [Hn|Hn]; [exact (Hdead t)|].
    apply (thread_ok_rely _ (idle_stable n h0) t _ s); [by apply Ht| |by apply takeover_cinv].
    by apply takeover_rely.
  - split; [apply Hk'|apply Hk].
  - destruct (decide (inc t = ginc s)) as [Hn|Hn]; [|split; [apply Hk'|apply Hk]].
    destruct (Hdead t) as (_ & H1 & H2). split; [done|by apply E_K].
Qed.

Lemma takeover_ok n h0 c heir :
  inc heir = S (ginc (cf_st c)) -> gopen (cf_st c) = true ->
  epoch_of (ginc (cf_st c)) <= UINT64_MAX - 2 -> th_run (cf_threads c heir) = None ->
  chan_ok n h0 c -> chan_ok n h0 (takeover heir c).
Proof.
  intros Hinc Hop Hmax Hrun [[Hi Ht] Hk]. apply takeover_config_ok; [done|done|by intros; apply Ht|done|].
  specialize (Ht heir). unfold thread_ok in Ht. rewrite Hrun in Ht. destruct Ht as (Hh & Hkn & HE).
  eapply wp_mono; [|by apply (heir_wp n h0 heir (th_hist (cf_threads c heir)))].
  intros r s' _ (H1 & H2 & _). split; [done|]. split; [done|]. by apply E_snoc.
Qed.

Lemma chan_step_ok n h0 c c' : 0 <= n -> chan_ok n h0 c -> chan_step c c' -> chan_ok n h0 c'.
Proof.
  intros Hn Hok Hs. destruct Hs as [c c' Hs|c heir H1 H2 H3 H4]; [|by apply takeover_ok].
  assert (config_ok (idle n h0) c') as Hc'.
  { eapply (cstep_ok chan_impl); [apply idle_stable| |exact (proj1 Hok)|exact Hs].
    intros t op h s. by apply chan_op_wp. }
  split; [done|]. by apply (known_cstep n h0 c).
Qed.

Lemma chan_steps_ok n h0 c c' : 0 <= n -> chan_ok n h0 c -> rtc chan_step c c' -> chan_ok n h0 c'.
Proof. intros Hn Hok Hs. induction Hs as [|c1 c2 c3 H1 H2 IH]; [done|]. apply IH. by eapply chan_step_ok. Qed.
End Runs.

(** * A channel and its runs *)

Record chan_system : Type := mkSystem {
  cs_dev : Z;
  cs_ino : Z;
  cs_payload : Z;
  cs_producer : ProducerHandle;
  cs_consumer : nat -> ConsumerHandle;
  cs_incarnation : tid -> nat;
  cs_self : tid -> ProcessIdentity;
  cs_memory : chloc -> Z
}.

(** The channel was just created and opened by the first consumer. *)
Definition system_ok (y : chan_system) : Prop :=
  channel_setup (cs_dev y) (cs_ino y) (cs_payload y) (cs_producer y) (cs_consumer y) /\
  channel_fresh (cs_dev y) (cs_ino y) (cs_producer y) (cs_memory y).

Definition system_step (y : chan_system) : chan_config -> chan_config -> Prop :=
  chan_step (cs_dev y) (cs_ino y) (cs_payload y) (cs_producer y) (cs_consumer y)
    (cs_incarnation y) (cs_self y).

Definition reaches (y : chan_system) (c : chan_config) : Prop :=
  rtc (system_step y) (initial (mkCst (cs_memory y) chghost_start)) c.

(** The variables of thread [t], and the numbers read through handle [n], in order. *)
Definition user_of (y : chan_system) (c : chan_config) (t : tid) : cuser :=
  ctrack (cs_incarnation y) t (th_hist (cf_threads c t)).
Definition handle_reads (c : chan_config) (n : nat) : list Z := reads (cf_st c) n.

Section System.
Context (y : chan_system).
Hypothesis y_ok : system_ok y.

Abbreviation nothing := (fun (_ : tid) (_ : list (chan_op * chan_res)) => True).
Abbreviation ok_with :=
  (chan_ok (cs_dev y) (cs_ino y) (cs_payload y) (cs_producer y) (cs_consumer y) (cs_incarnation y)).
Abbreviation knows := (known (cs_payload y) (cs_producer y) (cs_incarnation y)).
Abbreviation sinv :=
  (cinv (cs_dev y) (cs_ino y) (cs_payload y) (pd_id (cs_producer y)) (cs_incarnation y)).

Lemma reaches_ok c : reaches y c -> ok_with nothing nothing 0 (fun _ => 0%nat) c.
Proof.
  destruct y_ok as [Hs Hf]. intros Hr.
  eapply (chan_steps_ok _ _ _ _ _ _ (cs_self y) Hs); [done|done|done|done| |exact Hr].
  split; [split; [by apply fresh_cinv|]|]; intros t.
  - split; [|split; [|done]].
    + split; [done|]. split; [done|]. split; constructor.
    + split; [split; constructor|]. split; [done|]. split; constructor.
  - split; [|done]. split; [split; constructor|]. split; [done|]. split; constructor.
Qed.

Lemma steps_reach c c' :
  reaches y c ->
  rtc (cstep (chan_impl (cs_producer y) (cs_consumer y) (cs_incarnation y))
         (P := channel_protocol (cs_dev y) (cs_ino y) (cs_payload y) (pd_id (cs_producer y))
                 (cs_incarnation y))) c c' -> reaches y c'.
Proof.
  intros Hr Hs. unfold reaches. etrans; [exact Hr|].
  eapply rtc_subrel; [|exact Hs]. intros c1 c2 H. by apply chan_cstep.
Qed.

(** The calls a thread starts from now on. *)
Definition from_now (c : chan_config) (t : tid) : nat :=
  let th := cf_threads c t in
  match th_run th with None => length (th_hist th) | Some _ => S (length (th_hist th)) end.

Lemma from_now_ok n c :
  0 <= n <= len (cf_st c) -> ok_with nothing nothing 0 (fun _ => 0%nat) c ->
  ok_with nothing nothing n (from_now c) c.
Proof.
  intros Hn [[Hi Ht] Hk].
  assert (forall t h s, (length h <= from_now c t)%nat -> n <= len s ->
    knows 0 (fun _ => 0%nat) t h s -> knows n (from_now c) t h s) as Hup.
  { intros t h s Hl Hlen (H1 & _ & H2 & _). split; [done|]. split; [done|]. split; [done|].
    rewrite drop_ge by lia. constructor. }
  assert (forall t, (length (th_hist (cf_threads c t)) <= from_now c t)%nat) as Hlen.
  { intros t. unfold from_now. case_match; lia. }
  split; [split; [done|]|]; intros t.
  - specialize (Ht t). unfold thread_ok in *.
    destruct (th_run (cf_threads c t)) as [[op p]|] eqn:Hrun.
    + eapply wp_mono; [|eapply (wp_keep _ _ _ (fun s => n <= len s)); [..|exact Ht]].
      * intros r s' _ [(H1 & H2 & _) H3]. split; [done|]. split; [|done]. apply Hup; [|done|done].
        unfold from_now. rewrite Hrun, length_app. simpl. lia.
      * intros s1 s2 H1 Hr _. pose proof (mono_len _ _ (crely_mono _ _ _ _ _ _ Hr)). lia.
      * intros s1 s2 Hg H1. pose proof (mono_len _ _ (guarantee_mono _ _ _ _ _ _ _ _ Hg)). lia.
      * lia.
    + destruct Ht as (H1 & H2 & _). split; [done|]. split; [|done]. by apply Hup; [|lia|].
  - split; [|done]. apply Hup; [done|lia|apply Hk].
Qed.

Lemma reaches_inv c : reaches y c -> sinv (cf_st c).
Proof. intros Hr. apply (reaches_ok c Hr). Qed.
Lemma reaches_past c t :
  reaches y c ->
  past_ok (cs_payload y) (cs_producer y) (cs_incarnation y) t (user_of y c t) (cf_st c).
Proof. intros Hr. by destruct (reaches_ok c Hr) as [_ Hk], (Hk t) as [[H _] _]. Qed.
Lemma reaches_calls c t :
  reaches y c ->
  Forall (call_fact (cs_payload y) (cs_incarnation y) t 0 (cf_st c)) (th_hist (cf_threads c t)).
Proof. intros Hr. by destruct (reaches_ok c Hr) as [_ Hk], (Hk t) as [(_ & _ & H & _) _]. Qed.

(** Calls started after [n] samples were published. *)
Lemma reaches_later n c c' t :
  reaches y c -> 0 <= n <= len (cf_st c) -> rtc (system_step y) c c' ->
  Forall (call_fact (cs_payload y) (cs_incarnation y) t n (cf_st c'))
    (drop (from_now c t) (th_hist (cf_threads c' t))).
Proof.
  intros Hr Hn Hs. destruct y_ok as [Hsu Hf].
  destruct (chan_steps_ok _ _ _ _ _ _ (cs_self y) Hsu nothing nothing ltac:(done) ltac:(done) ltac:(done)
    n (from_now c) c c' ltac:(lia) (from_now_ok n c Hn (reaches_ok c Hr)) Hs) as [_ Hk].
  by destruct (Hk t) as [(_ & _ & _ & H) _].
Qed.

(** ** The opening after a crash *)

Definition may_take_over (c : chan_config) (heir : tid) : Prop :=
  cs_incarnation y heir = S (ginc (cf_st c)) /\ gopen (cf_st c) = true /\
  epoch_of (ginc (cf_st c)) <= UINT64_MAX - 2 /\ th_run (cf_threads c heir) = None.

Definition taken_over (c : chan_config) (heir : tid) : chan_config :=
  takeover (cs_dev y) (cs_ino y) (cs_payload y) (cs_incarnation y) (cs_self y) heir c.

(** What the first call of the heir after the takeover ended with. *)
Definition opening (c : chan_config) (heir : tid) (x : chan_op * chan_res) : Prop :=
  let window := in_window (cs_dev y) (cs_ino y) (cf_st c) in
  x = (OpCrash, ResNone) \/
  x = (OpOpen, ResOpen (Ok (epoch_of (cs_incarnation y heir)))) /\ ~ window \/
  exists e, x = (OpOpen, ResOpen (Err e)) /\ err_code e = kRecoveryBlocked /\ window.

Lemma reaches_opening c heir c' x :
  reaches y c -> may_take_over c heir -> rtc (system_step y) (taken_over c heir) c' ->
  th_hist (cf_threads c' heir) !! length (th_hist (cf_threads c heir)) = Some x ->
  opening c heir x.
Proof.
  intros Hr (Hinc & Hop & Hmax & Hrun) Hs Hx. destruct y_ok as [Hsu Hf].
  set (k := length (th_hist (cf_threads c heir))) in *.
  set (E := fun (t : tid) (h : list (chan_op * chan_res)) =>
    t = heir -> exists x, h !! k = Some x /\ opening c heir x).
  set (K := fun (t : tid) (h : list (chan_op * chan_res)) => t = heir -> length h = k \/ E t h).
  assert (forall t h x, E t h -> E t (h ++ [x])) as HE.
  { intros t h x0 H Ht. destruct (H Ht) as (z & Hz & ?). exists z. split; [|done].
    by apply lookup_app_l_Some. }
  assert (forall t h, E t h -> K t h) as HK by (intros t h H Ht; by right).
  assert (forall t h, K t h -> E t (h ++ [(OpCrash, ResNone)])) as HC.
  { intros t h H Ht. destruct (H Ht) as [Hl|H']; [|exact (HE t h _ H' Ht)].
    exists (OpCrash, ResNone). split; [|by left]. rewrite lookup_app_r by lia. by rewrite Hl, Nat.sub_diag. }
  destruct (reaches_ok c Hr) as [[Hi Ht] Hk]. specialize (Ht heir) as Hheir. unfold thread_ok in Hheir.
  rewrite Hrun in Hheir. destruct Hheir as (Hh & Hkn & _).
  assert (ok_with E K 0 (fun _ => 0%nat) (taken_over c heir)) as Hok.
  { apply takeover_config_ok; [done|done|done|done|done|..].
    - intros t Hne _. specialize (Ht t). unfold thread_ok in *.
      destruct (th_run (cf_threads c t)) as [[op p]|]; [eapply wp_mono; [|exact Ht]; intros r s' _ Ht'|rename Ht into Ht'];
        (destruct Ht' as (H1 & H2 & _); split; [done|split; [done|by intros ->]]).
    - intros t. split; [apply Hk|]. intros ->. by left.
    - eapply wp_mono; [|by apply (heir_wp _ _ _ _ _ _ (cs_self y) Hsu 0 (fun _ => 0%nat))].
      intros r s' _ (H1 & H2 & H3). split; [done|]. split; [done|]. intros _. exists (OpOpen, r).
      split; [by rewrite lookup_app_r, Nat.sub_diag by done|]. right.
      destruct H3 as [[-> ?]|(e & -> & ? & ?)]; [by left|right]. by exists e. }
  destruct (chan_steps_ok _ _ _ _ _ _ (cs_self y) Hsu E K HE HK HC 0 (fun _ => 0%nat) _ c' ltac:(lia) Hok Hs)
    as [_ Hk']. destruct (Hk' heir) as [_ HKh]. destruct (HKh eq_refl) as [Hl|HEh].
  - apply lookup_lt_Some in Hx. lia.
  - destruct (HEh eq_refl) as (z & Hz & Hop'). rewrite Hz in Hx. by injection Hx as ->.
Qed.
End System.
