(* ===== verification/ChannelTheorems.v ===== *)
(** The properties of a channel under concurrency and crashes.

    [ChannelDemo] runs a producer and a consumer on a channel of four-byte samples;
    the theorems are applied to what it reaches. *)
From S2P Require Import Prelude Errors CheckedMath Prog Concur Checksum ProcIdentity OwnerSnapshot ShmObject Clock.
From S2P Require Import ChannelLayout ChannelSegment SlotProtocol ChannelAbi ControlLock Producer Consumer.
From S2P Require Import ConsumerOpen ChannelProtocol ChannelSteps ConsumerSafety ConsumerOps.
From S2P Require Import ProducerSafety ProducerOps ChannelClient ChannelHolds ChannelTakeover ChannelRuns.

(** * A concrete channel *)

Module ChannelDemo.
Definition schema : SchemaDescriptor := mkSchema (repeat 1 32) 1.
Definition object (fd : Z) : ShmObject := mkShmObject "/edgeruntime.1000.demo" fd 1 2 4096.
Definition identity (n : Z) : ProcessIdentity := mkIdentity n 7 5 9.
Definition producer : ProducerHandle :=
  mkProducerHandle 0 (object 3) "demo" 1 2 11 12 schema 4 (identity 100) tr_kPosixShm 0 "" (-1) 0.
Definition consumer (n : nat) : ConsumerHandle :=
  mkConsumerHandle n (object 4) "demo" tr_kPosixShm 1 (epoch_of n) 11 12 schema 4 (identity 200) 100.

(** Thread 2 belongs to the second consumer, the others to the first. *)
Definition incarnation (t : tid) : nat := if decide (t = 2%nat) then 1%nat else 0%nat.

Definition memory (l : chloc) : Z :=
  match l with
  | Obj 1 2 (Boot bf_init_state) | Obj 1 2 (Head ch_init_state) => is_kReady
  | Obj 1 2 (Head ch_generation) => 1
  | Obj 1 2 (Head ch_instance_nonce_hi) => 11
  | Obj 1 2 (Head ch_instance_nonce_lo) => 12
  | Obj 1 2 (Head ch_producer_state) | Obj 1 2 (Head ch_consumer_state) => es_kOnline
  | Obj 1 2 (Ident _ id_role_epoch) => 2
  | CHnd 0 hl_operation_in_use => 0
  | CHnd 0 hl_first_sample_in_generation => 1
  | CHnd _ hl_operation_in_use => 1
  | _ => 0
  end.

Definition system : chan_system :=
  mkSystem 1 2 4 producer consumer incarnation (fun t => identity (300 + Z.of_nat t)) memory.

Definition os : os_model unit := fun X c o =>
  match c in sys Y return Y * unit with
  | sys_clock_gettime _ => (SysOk (1, 5), o)
  | c => (sys_default c, o)
  end.

Lemma demo_ok : system_ok system.
Proof.
  split; split; try done; by intros [].
Qed.

Definition impl : tid -> list (chan_op * chan_res) -> chan_op -> cprog chan_res :=
  chan_impl producer consumer incarnation.

(** Thread 0 publishes a sample. *)
Definition calls1 : list (tid * chan_op) := [(0%nat, OpPublish [5; 6; 7; 8])].

(** Thread 1 copies it and finds nothing newer. Thread 0 publishes two more, the
    first of them through a loan, and fails with a sample that is too short. Thread 1
    misses the second and keeps a loan of the third. *)
Definition calls2 : list (tid * chan_op) :=
  [ (1%nat, OpRead 4); (1%nat, OpRead 4); (0%nat, OpLoan); (0%nat, OpFill [1; 2]);
    (0%nat, OpCommit); (0%nat, OpPublish [9; 9; 9; 9]); (0%nat, OpPublish [1]); (1%nat, OpReadLoan);
    (1%nat, OpLook) ].

Definition run (calls : list (tid * chan_op)) (s : chst * (tid -> list (chan_op * chan_res)))
    : chst * (tid -> list (chan_op * chan_res)) :=
  script (P := channel_protocol 1 2 4 0 incarnation) os impl calls s.1 s.2 tt.
Definition middle : chst * (tid -> list (chan_op * chan_res)) :=
  run calls1 (mkCst memory chghost_start, fun _ => []).
Definition final : chst * (tid -> list (chan_op * chan_res)) := run calls2 middle.

Definition at_rest (s : chst * (tid -> list (chan_op * chan_res))) (c : chan_config) : Prop :=
  reaches system c /\ cf_st c = s.1 /\ forall t, cf_threads c t = mkThread None (s.2 t).

Lemma run_reaches calls s c :
  at_rest s c -> exists c', at_rest (run calls s) c' /\ rtc (system_step system) c c'.
Proof.
  intros (Hr & Hs & Ht).
  destruct (script_steps (P := channel_protocol 1 2 4 0 incarnation) os impl calls c s.2 tt Ht)
    as (c' & Hc & Hs' & Ht'). rewrite Hs in Hs', Ht'. exists c'. split.
  - split; [exact (steps_reach system _ c' Hr Hc)|]. split; [exact Hs'|exact Ht'].
  - eapply rtc_subrel; [|exact Hc]. intros c1 c2 H. by apply chan_cstep.
Qed.

Lemma channel_demo_published :
  cu_published (ctrack incarnation 0%nat (final.2 0%nat)) =
  [(mkPublishInfo 1 3 1000000005, [9; 9; 9; 9]); (mkPublishInfo 1 2 1000000005, [1; 2]);
   (mkPublishInfo 1 1 1000000005, [5; 6; 7; 8])].
Proof. by vm_compute. Qed.
Lemma demo_reads :
  cu_reads (ctrack incarnation 1%nat (final.2 1%nat)) =
  [mkDelivery 3 1000000005 1 4; mkDelivery 1 1000000005 0 4].
Proof. by vm_compute. Qed.
Lemma channel_demo_seen :
  cu_seen (ctrack incarnation 1%nat (final.2 1%nat)) = [(3, [9; 9; 9; 9]); (1, [5; 6; 7; 8])].
Proof. by vm_compute. Qed.

Lemma demo_middle_published :
  cu_published (ctrack incarnation 0%nat (middle.2 0%nat)) =
  [(mkPublishInfo 1 1 1000000005, [5; 6; 7; 8])].
Proof. by vm_compute. Qed.
Lemma demo_first_read :
  exists snap bytes, head (final.2 1%nat) = Some (OpRead 4, ResRead (Ok (snap, bytes))) /\
    rs_sample_sequence snap = 1.
Proof. eexists _, _. split; vm_compute; reflexivity. Qed.
Lemma demo_refused :
  exists e, last (final.2 0%nat) = Some (OpPublish [1], ResPublish (Err e)) /\
    err_code e = kPayloadEncodeFailed.
Proof. eexists _. split; vm_compute; reflexivity. Qed.

Lemma demo_user s c t : at_rest s c -> user_of system c t = ctrack incarnation t (s.2 t).
Proof. intros (_ & _ & E). unfold user_of. by rewrite E. Qed.

Lemma channel_demo_reached :
  exists c0 c, at_rest middle c0 /\ rtc (system_step system) c0 c /\ at_rest final c.
Proof.
  destruct (run_reaches calls1 (mkCst memory chghost_start, fun _ => [])
    (initial (mkCst memory chghost_start))) as (c0 & H0 & _); [split; [apply rtc_refl|done]|].
  destruct (run_reaches calls2 middle c0 H0) as (c & H & Hs). by exists c0, c.
Qed.

(** Thread 1 stops after [n] accesses of the release of its loan; thread 2 takes its
    place and opens the channel. *)
Definition stopped (n : nat) : chst :=
  (solo_n (P := channel_protocol 1 2 4 0 incarnation) os n 1%nat (impl 1%nat (final.2 1%nat) OpRelease)
     final.1 tt).2.
Definition reopened (n : nat) : chan_res :=
  (solo (P := channel_protocol 1 2 4 0 incarnation) os 2%nat
     (open_call 1 2 4 incarnation (cs_self system) 2%nat) (takeover_state 2%nat (stopped n)) tt).1.1.

Lemma demo_heir_idle : final.2 2%nat = [].
Proof. by vm_compute. Qed.

Lemma demo_reopened n :
  gopen (stopped n) = true -> ginc (stopped n) = 0%nat ->
  exists c c', reaches system c /\ cf_st c = stopped n /\ may_take_over system c 2%nat /\
    rtc (system_step system) (taken_over system c 2%nat) c' /\
    th_hist (cf_threads c 2%nat) = [] /\ th_hist (cf_threads c' 2%nat) = [(OpOpen, reopened n)].
Proof.
  intros Hop Hinc. destruct channel_demo_reached as (_ & c0 & _ & _ & Hr & Hs & Ht).
  destruct (solo_n_call_steps (P := channel_protocol 1 2 4 0 incarnation) os impl n c0 1%nat OpRelease
    (final.2 1%nat) tt (Ht 1%nat)) as (c & Hc & Hst & _ & Hu).
  rewrite Hs in Hst. change (cf_st c = stopped n) in Hst.
  assert (cf_threads c 2%nat = mkThread None []) as H2 by (rewrite Hu, Ht, demo_heir_idle by done; reflexivity).
  set (c1 := taken_over system c 2%nat).
  assert (cf_threads c1 2%nat = mkThread (Some (OpOpen, open_call 1 2 4 incarnation (cs_self system) 2%nat)) [])
    as H2' by (unfold c1, taken_over, takeover, takeover_thread; cbn [cf_threads]; by rewrite H2).
  destruct (solo_steps (P := channel_protocol 1 2 4 0 incarnation) os impl 2%nat OpOpen [] _ c1 tt H2')
    as (c' & Hc' & _ & Ht' & _).
  exists c, c'. split; [exact (steps_reach system _ c Hr Hc)|]. split; [exact Hst|]. split.
  { split; [by rewrite Hst, Hinc|]. split; [by rewrite Hst|]. rewrite Hst, Hinc, H2. by split. }
  split; [eapply rtc_subrel; [|exact Hc']; intros ? ? H; by apply chan_cstep|].
  split; [by rewrite H2|]. rewrite Ht'. change (cf_st c1) with (takeover_state 2%nat (cf_st c)).
  unfold reopened. rewrite <- Hst. reflexivity.
Qed.

Lemma demo_stopped0 : gopen (stopped 0) = true /\ ginc (stopped 0) = 0%nat.
Proof. by vm_compute. Qed.
Lemma demo_stopped1 : gopen (stopped 1) = true /\ ginc (stopped 1) = 0%nat /\
  is_slot 0 /\ st 1 2 (stopped 1) 0 = ss_kReading /\ rd 1 2 (stopped 1) 0 = 0.
Proof. by vm_compute. Qed.
Lemma demo_reopened0 : reopened 0 = ResOpen (Ok 4).
Proof. by vm_compute. Qed.
Lemma demo_reopened1 : exists e, reopened 1 = ResOpen (Err e) /\ err_code e = kRecoveryBlocked.
Proof. eexists. split; vm_compute; reflexivity. Qed.
End ChannelDemo.

(** * The theorems *)

Section Facts.
Context (y : chan_system) (c : chan_config).
Hypothesis y_ok : system_ok y.
Hypothesis c_reached : reaches y c.
Abbreviation user := (user_of y c).

(** Sample [q], as it was announced. *)
Lemma published_entry t x :
  x ∈ cu_published (user t) ->
  pub_ok (cs_payload y) (cs_producer y) t (cf_st c) x.
Proof.
  intros Hx. destruct (reaches_past y y_ok c t c_reached) as [H _ _ _ _].
  rewrite Forall_forall in H. by apply H.
Qed.
Lemma read_entry t d :
  d ∈ cu_reads (user t) -> delivered (cs_payload y) (cs_incarnation y) t (cf_st c) d.
Proof.
  intros Hd. destruct (reaches_past y y_ok c t c_reached) as [_ H _ _ _].
  rewrite Forall_forall in H. by apply H.
Qed.
Lemma seen_entry t x : x ∈ cu_seen (user t) -> seen_ok (cs_payload y) (cf_st c) x.
Proof.
  intros Hx. destruct (reaches_past y y_ok c t c_reached) as [_ _ H _ _].
  rewrite Forall_forall in H. by apply H.
Qed.

Lemma entry_unique (log : list sample) q e e' : entry log q e -> entry log q e' -> e = e'.
Proof. intros [_ H] [_ H']. rewrite H in H'. by injection H'. Qed.

Lemma descending_lookup l i j a b :
  descending l -> l !! i = Some a -> l !! j = Some b -> (i < j)%nat -> b < a.
Proof.
  intros H. revert i j. induction H as [|x l Hl IH Hx]; intros [|i] [|j] Hi Hj Hij; try done; try lia.
  - simpl in *. simplify_eq. rewrite Forall_forall in Hx. apply Hx. by eapply list_elem_of_lookup_2.
  - simpl in *. eapply IH; eauto with lia.
Qed.
Lemma descending_inj l i j a : descending l -> l !! i = Some a -> l !! j = Some a -> i = j.
Proof.
  intros H Hi Hj. destruct (decide (i < j)%nat); [pose proof (descending_lookup _ _ _ _ _ H Hi Hj); lia|].
  destruct (decide (j < i)%nat); [pose proof (descending_lookup _ _ _ _ _ H Hj Hi); lia|lia].
Qed.

Definition numbers_of (t : tid) : list Z := map (fun x => pi_sequence x.1) (cu_published (user t)).
Lemma order_lookup (t : tid) (i : nat) x :
  cu_published (user t) !! i = Some x ->
  descending (numbers_of t) /\ numbers_of t !! i = Some (pi_sequence x.1).
Proof.
  intros Hi. destruct (reaches_past y y_ok c t c_reached) as [_ _ _ H _]. split; [done|].
  unfold numbers_of. by rewrite list_lookup_fmap, Hi.
Qed.

Lemma gap_take rs j q prev :
  rs !! j = Some prev -> gap (take (S j) rs) q = q - prev - 1.
Proof.
  intros Hj. rewrite (take_S_r _ _ _ Hj). unfold gap, last_read. rewrite last_snoc.
  case_decide as H; [by apply app_nil in H as [_ H]|done].
Qed.
End Facts.

(** * The memory of a channel *)

(** What a reader of the segment alone may rely on. *)
Record segment_ok (dev ino ps : Z) (producer : nat) (m : chloc -> Z) : Prop := {
  so_state : forall k, is_slot k ->
    m_state dev ino m k ∈ [ss_kFree; ss_kWriting; ss_kPublished; ss_kReadingClaiming; ss_kReading];
  so_ticket : let ticket := m_ticket dev ino m in ticket <> 0 ->
    let k := ticket_slot ticket in
    let c := m_content dev ino ps m k in
    is_slot k /\ 1 <= ticket_sequence ticket <= kMaxSampleSequence /\
    ss_kPublished <= m_state dev ino m k /\ sl_seq c = ticket_sequence ticket /\
    sl_size c = ps /\ length (sl_payload c) = Z.to_nat ps /\ sl_sum c = fnv1a64 (sl_payload c);
  so_reading : forall k k', is_slot k -> is_slot k' ->
    ss_kReadingClaiming <= m_state dev ino m k -> ss_kReadingClaiming <= m_state dev ino m k' -> k = k';
  so_reader : forall k, is_slot k ->
    m_state dev ino m k <= ss_kPublished -> m_reader dev ino m k = 0;
  so_writing : forall k, is_slot k ->
    m_state dev ino m k = ss_kWriting -> m (PHnd producer hl_operation_in_use) <> 0
}.

(** C23: the segment is well formed at every moment, in the middle of any calls of any
    threads and after any crash. Every slot has one of the five states. The ticket is
    zero or names one of the slots and a sequence number in range, and that slot is
    published or being read and holds a whole sample: the ticket's number, the size of
    the payload and the checksum of the bytes that are there. At most one slot is being
    read; a slot that is not being read has no reader's mark; and a slot is being
    written only while the producer's handle is in use. *)
Theorem channel_well_formed y c :
  system_ok y -> reaches y c ->
  segment_ok (cs_dev y) (cs_ino y) (cs_payload y) (pd_id (cs_producer y)) (c_mem (cf_st c)).
Proof.
  intros Hy Hc. destruct (reaches_inv y Hy c Hc) as [[Hlen Htick Hlog Hlatest _] [Hst Hwr Hpu] [_ Hone _ _ _] [Hun _ _] _].
  split.
  - intros k Hk. specialize (Hst k Hk). unfold st in Hst. rewrite !elem_of_cons.
    unfold ss_kFree, ss_kWriting, ss_kPublished, ss_kReadingClaiming, ss_kReading. lia.
  - unfold tick in Htick. cbv zeta. rewrite Htick. unfold log_ticket.
    destruct (last (glog (cf_st c))) as [e|] eqn:He; [intros _|done].
    destruct (Hlatest e eq_refl) as [H2 Hct]. unfold st, ct in *.
    assert (is_slot (sp_slot e) /\ length (sp_bytes e) = Z.to_nat (cs_payload y)) as [Hk Hb].
    { rewrite Forall_forall in Hlog. apply Hlog. by apply last_Some_elem_of. }
    assert (1 <= len (cf_st c)) as H1.
    { unfold len. destruct (glog (cf_st c)); [done|]. simpl. lia. }
    assert (0 <= sp_slot e < 4) by (unfold is_slot, kSlotCount in Hk; lia). fold (len (cf_st c)).
    rewrite ticket_slot_make, ticket_sequence_make, Hct by lia. done.
  - intros k k' Hk Hk' H1 H2. by apply Hone.
  - intros k Hk Hs. by apply Hun.
  - intros k Hk Hs Hz. destruct (Hwr k Hk Hs) as [t Ht]. apply Hpu in Hz. congruence.
Qed.

Lemma channel_well_formed_witness :
  exists c : chan_config, reaches ChannelDemo.system c /\ segment_ok 1 2 4 0 (c_mem (cf_st c)).
Proof.
  destruct ChannelDemo.channel_demo_reached as (_ & c & _ & _ & Hr & _). exists c. split; [exact Hr|].
  exact (channel_well_formed ChannelDemo.system c ChannelDemo.demo_ok Hr).
Defined.

(** C31: no torn reads. The bytes a thread gets for sample [q], copied or through a
    read loan, are all of one publication: there are [payload_size] of them, they
    begin with what the publisher of [q] gave to [publish] or wrote to its loan, and
    every other reading of [q], by any thread, got the same bytes. *)
Theorem channel_read_untorn y c u q bytes :
  system_ok y -> reaches y c -> (q, bytes) ∈ cu_seen (user_of y c u) ->
  length bytes = Z.to_nat (cs_payload y) /\
  (forall t info content, (info, content) ∈ cu_published (user_of y c t) ->
     pi_sequence info = q -> content `prefix_of` bytes) /\
  (forall t bytes', (q, bytes') ∈ cu_seen (user_of y c t) -> bytes' = bytes).
Proof.
  intros Hy Hc Hs. destruct (seen_entry y c Hy Hc u _ Hs) as (e & He & Hb & Hl). cbn [fst snd] in *.
  split; [done|]. split.
  - intros t info content Hp Hq. destruct (published_entry y c Hy Hc t _ Hp) as (e' & He' & Hpre & _).
    cbn [fst snd] in *. rewrite Hq in He'. by rewrite Hb, (entry_unique _ _ _ _ He He').
  - intros t bytes' Hs'. destruct (seen_entry y c Hy Hc t _ Hs') as (e' & He' & Hb' & _).
    cbn [fst snd] in *. by rewrite Hb, Hb', (entry_unique _ _ _ _ He He').
Qed.

Lemma channel_read_untorn_witness :
  exists c : chan_config, reaches ChannelDemo.system c /\
    (3, [9; 9; 9; 9]) ∈ cu_seen (user_of ChannelDemo.system c 1%nat) /\
    forall t info content, (info, content) ∈ cu_published (user_of ChannelDemo.system c t) ->
      pi_sequence info = 3 -> content `prefix_of` [9; 9; 9; 9].
Proof.
  destruct ChannelDemo.channel_demo_reached as (_ & c & _ & _ & Hf). exists c.
  pose proof (fun t => ChannelDemo.demo_user _ c t Hf) as Hu. destruct Hf as [Hr _]. split; [exact Hr|].
  assert ((3, [9; 9; 9; 9]) ∈ cu_seen (user_of ChannelDemo.system c 1%nat)) as Hin
    by (rewrite Hu, ChannelDemo.channel_demo_seen; by left).
  split; [exact Hin|].
  exact (proj1 (proj2 (channel_read_untorn ChannelDemo.system c 1%nat 3 [9; 9; 9; 9]
    ChannelDemo.demo_ok Hr Hin))).
Defined.

(** C32: every publication has its own number. Two publications that returned the
    same sequence number, by any threads through the producer's handle and by copy or
    by loan, are the same call; a thread's numbers grow; and all are in the range of
    the ticket. *)
Theorem channel_publish_once y c t i info content t' i' info' content' :
  system_ok y -> reaches y c ->
  cu_published (user_of y c t) !! i = Some (info, content) ->
  cu_published (user_of y c t') !! i' = Some (info', content') ->
  1 <= pi_sequence info <= kMaxSampleSequence /\
  (pi_sequence info = pi_sequence info' -> t = t' /\ i = i') /\
  (t = t' -> (i < i')%nat -> pi_sequence info' < pi_sequence info).
Proof.
  intros Hy Hc Hi Hi'.
  destruct (published_entry y c Hy Hc t (info, content)) as (e & He & _ & _ & Ha & _);
    [by eapply list_elem_of_lookup_2|].
  destruct (published_entry y c Hy Hc t' (info', content')) as (e' & He' & _ & _ & Ha' & _);
    [by eapply list_elem_of_lookup_2|].
  pose proof (order_lookup y c Hy Hc t i _ Hi) as (Hd & HL). cbn [fst] in *.
  split; [|split].
  - apply entry_len in He. destruct (reaches_inv y Hy c Hc) as [[Hl _ _ _ _] _ _ _ _].
    unfold len, glog in *. lia.
  - intros Hq. rewrite <- Hq in He'. rewrite (entry_unique _ _ _ _ He He') in Ha. split; [congruence|].
    assert (t = t') as <- by congruence. pose proof (order_lookup y c Hy Hc t i' _ Hi') as [_ HL'].
    cbn [fst] in HL'. rewrite <- Hq in HL'. by eapply descending_inj.
  - intros <- Hlt. pose proof (order_lookup y c Hy Hc t i' _ Hi') as [_ HL'].
    by eapply descending_lookup.
Qed.

Lemma channel_publish_once_witness :
  exists c : chan_config, reaches ChannelDemo.system c /\
    (exists x, cu_published (user_of ChannelDemo.system c 0%nat) !! 1%nat = Some x) /\
    pi_sequence (mkPublishInfo 1 2 1000000005) < pi_sequence (mkPublishInfo 1 3 1000000005).
Proof.
  destruct ChannelDemo.channel_demo_reached as (_ & c & _ & _ & Hf). exists c.
  pose proof (fun t => ChannelDemo.demo_user _ c t Hf) as Hu. destruct Hf as [Hr _]. split; [exact Hr|].
  pose proof (Hu 0%nat) as Hp. apply (f_equal cu_published) in Hp.
  rewrite ChannelDemo.channel_demo_published in Hp.
  split; [eexists; rewrite Hp; reflexivity|].
  apply (channel_publish_once ChannelDemo.system c 0%nat 0%nat _ [9; 9; 9; 9] 0%nat 1%nat _ [1; 2]
    ChannelDemo.demo_ok Hr); [by rewrite Hp|by rewrite Hp|reflexivity|lia].
Defined.

(** C33: the account of missed samples is exact. The numbers read through a consumer
    handle grow strictly; what a thread read through it is one of them, say the
    [i]-th, is a published sample with the time of its publication and the size of
    the payload, and [missed_samples] is 0 for the first and else the count of
    samples published after the one read before it and before itself. *)
Theorem channel_missed_exact y c t d :
  system_ok y -> reaches y c -> d ∈ cu_reads (user_of y c t) ->
  let numbers := handle_reads c (cs_incarnation y t) in
  (forall i j a b, numbers !! i = Some a -> numbers !! j = Some b -> (i < j)%nat -> a < b) /\
  dl_size d = cs_payload y /\
  (forall u info content, (info, content) ∈ cu_published (user_of y c u) ->
     pi_sequence info = dl_sequence d -> pi_publish_boot_ns info = dl_publish_boot_ns d) /\
  exists i, numbers !! i = Some (dl_sequence d) /\
    match i with
    | O => dl_missed_samples d = 0
    | S j => exists previous, numbers !! j = Some previous /\ previous < dl_sequence d /\
        dl_missed_samples d = dl_sequence d - previous - 1
    end.
Proof.
  intros Hy Hc Hd numbers. destruct (reaches_inv y Hy c Hc) as [_ _ _ _ [_ Hsorted _ _]].
  destruct (read_entry y c Hy Hc t d Hd) as (e & i & He & Hi & Hm & Hns & Hsz).
  split; [exact (Hsorted _)|]. split; [done|]. split.
  - intros u info content Hp Hq. destruct (published_entry y c Hy Hc u _ Hp) as (e' & He' & _ & _ & _ & Hns' & _).
    cbn [fst] in *. rewrite Hq in He'. rewrite Hns, <- Hns'. by rewrite (entry_unique _ _ _ _ He He').
  - exists i. split; [exact Hi|]. destruct i as [|j]; [by rewrite Hm|].
    assert (is_Some (numbers !! j)) as [prev Hprev].
    { apply lookup_lt_is_Some. apply lookup_lt_Some in Hi. unfold numbers, handle_reads. lia. }
    exists prev. split; [done|]. split; [eapply Hsorted; [exact Hprev|exact Hi|lia]|].
    rewrite Hm. by apply gap_take.
Qed.

Lemma channel_missed_exact_witness :
  exists c : chan_config, reaches ChannelDemo.system c /\
    mkDelivery 3 1000000005 1 4 ∈ cu_reads (user_of ChannelDemo.system c 1%nat) /\
    exists i, handle_reads c 0%nat !! i = Some 3.
Proof.
  destruct ChannelDemo.channel_demo_reached as (_ & c & _ & _ & Hf). exists c.
  pose proof (fun t => ChannelDemo.demo_user _ c t Hf) as Hu. destruct Hf as [Hr _]. split; [exact Hr|].
  assert (mkDelivery 3 1000000005 1 4 ∈ cu_reads (user_of ChannelDemo.system c 1%nat)) as Hin
    by (rewrite Hu, ChannelDemo.demo_reads; by left).
  split; [exact Hin|].
  destruct (channel_missed_exact ChannelDemo.system c 1%nat _ ChannelDemo.demo_ok Hr Hin)
    as (_ & _ & _ & i & Hi & _). by exists i.
Defined.

(** The error a call ended with. *)
Definition refused (call : chan_op * chan_res) : option Error :=
  match call with
  | (OpPublish _, ResPublish (Err e)) | (OpLoan, ResLoan (Err e)) | (OpCommit, ResCommit (Err e) _)
  | (OpRead _, ResRead (Err e)) | (OpWait _ _ _, ResWait (Some (Err e)))
  | (OpReadLoan, ResReadLoan (Err e)) | (OpWaitLoan _ _, ResWaitLoan (Some (Err e))) => Some e
  | _ => None
  end.

(** C34: calls fail only for a reason. [publish] and [loan] fail when the handle is
    in use, stale or offline, when the clock fails, when the sample does not have the
    size of the payload, and when every sequence number has been used; [commit] also
    when the loan is no longer its own. So a producer always finds a slot to write
    to, whatever the consumer does and wherever it stopped. A read never finds a
    corrupt slot, and a corrupt payload only when the caller's buffer is too small. *)
Theorem channel_errors_justified y c t op res e :
  system_ok y -> reaches y c -> (op, res) ∈ th_hist (cf_threads c t) ->
  refused (op, res) = Some e ->
  match op with
  | OpPublish _ | OpLoan | OpCommit =>
      err_code e ∈ [kConcurrentHandleUse; kStaleHandle; kProducerOffline; kClockAnomaly] \/
      err_code e = kPayloadEncodeFailed /\
        (exists bytes, op = OpPublish bytes /\ Z.of_nat (length bytes) <> cs_payload y) \/
      err_code e = kSequenceExhausted /\ len (cf_st c) = kMaxSampleSequence \/
      err_code e = kInvalidOptions /\ op = OpCommit
  | OpRead cap | OpWait _ cap _ =>
      err_code e <> kCorruptSlot /\ (err_code e = kPayloadCorrupt -> cap < cs_payload y)
  | OpReadLoan | OpWaitLoan _ _ => err_code e <> kCorruptSlot /\ err_code e <> kPayloadCorrupt
  | _ => True
  end.
Proof.
  intros Hy Hc Hin He. pose proof (reaches_calls y Hy c t Hc) as Hcalls.
  rewrite Forall_forall in Hcalls. apply Hcalls in Hin.
  destruct (reaches_inv y Hy c Hc) as [[Hl _ _ _ _] _ _ _ _].
  assert (forall n, publish_error (cs_payload y) n e (cf_st c) ->
    err_code e ∈ [kConcurrentHandleUse; kStaleHandle; kProducerOffline; kClockAnomaly] \/
    err_code e = kPayloadEncodeFailed /\ n <> cs_payload y \/
    err_code e = kSequenceExhausted /\ len (cf_st c) = kMaxSampleSequence) as Hp.
  { intros n [H|[H|[H Hn]]]; [by left|by right; left|]. right. right. split; [done|lia]. }
  destruct op, res; try discriminate He; cbn [refused] in He; repeat case_match; simplify_eq;
    cbn [call_fact] in Hin.
  - destruct (Hp _ Hin) as [H|[[H Hn]|H]]; [by left| |by right; right; left].
    right. left. split; [done|]. by exists bytes.
  - destruct (Hp _ Hin) as [H|[[H Hn]|H]]; [by left|done|by right; right; left].
  - destruct Hin as [Hin|Hin]; [by right; right; right|].
    destruct (Hp _ Hin) as [H|[[H Hn]|H]]; [by left|done|by right; right; left].
  - destruct Hin as (H1 & H2 & _). done.
  - destruct Hin as (H1 & H2 & _). done.
  - destruct Hin as (H1 & H2 & _). split; [done|]. intros H. apply H2 in H. lia.
  - destruct Hin as (H1 & H2 & _). split; [done|]. intros H. apply H2 in H. lia.
Qed.

Lemma channel_errors_justified_witness :
  exists (c : chan_config) e, reaches ChannelDemo.system c /\
    (OpPublish [1], ResPublish (Err e)) ∈ th_hist (cf_threads c 0%nat) /\
    err_code e = kPayloadEncodeFailed /\ Z.of_nat (length [1]) <> 4.
Proof.
  destruct ChannelDemo.channel_demo_reached as (_ & c & _ & _ & Hr & _ & Ht).
  destruct ChannelDemo.demo_refused as (e & Hl & He). exists c, e.
  assert ((OpPublish [1], ResPublish (Err e)) ∈ th_hist (cf_threads c 0%nat)) as Hin.
  { rewrite Ht. apply last_Some in Hl as [l ->]. apply elem_of_app. right. by left. }
  split; [exact Hr|]. split; [exact Hin|]. split; [exact He|].
  destruct (channel_errors_justified ChannelDemo.system c 0%nat _ _ e ChannelDemo.demo_ok Hr Hin
    eq_refl) as [H|[[_ (b & [= <-] & H)]|[[H _]|[_ H]]]].
  - rewrite He in H. apply list_elem_of_In in H. by repeat destruct H as [H|H].
  - exact H.
  - by rewrite He in H.
  - discriminate H.
Defined.

(** C35: reads are fresh. Once a publication has returned number [q], a read that is
    called later returns that sample or a newer one; it reports that there is nothing
    new only when [q] or a newer sample has been read through its handle. *)
Theorem channel_read_fresh y c t info content c' u op res :
  system_ok y -> reaches y c -> (info, content) ∈ cu_published (user_of y c t) ->
  rtc (system_step y) c c' ->
  (op, res) ∈ drop (from_now c u) (th_hist (cf_threads c' u)) ->
  match op, res with
  | OpRead _, ResRead (Ok (snap, _)) | OpWait _ _ _, ResWait (Some (Ok (snap, _))) =>
      pi_sequence info <= rs_sample_sequence snap
  | OpReadLoan, ResReadLoan (Ok loan) | OpWaitLoan _ _, ResWaitLoan (Some (Ok loan)) =>
      pi_sequence info <= rl_sequence loan
  | _, _ => True
  end /\
  forall e, refused (op, res) = Some e -> err_code e = kNoNewSample ->
    exists q, q ∈ handle_reads c' (cs_incarnation y u) /\ pi_sequence info <= q.
Proof.
  intros Hy Hc Hp Hs Hin. destruct (published_entry y c Hy Hc t _ Hp) as (x & Hx & _). cbn [fst] in Hx.
  apply entry_len in Hx. pose proof (reaches_later y Hy (pi_sequence info) c c' u Hc) as Hl.
  rewrite Forall_forall in Hl. apply Hl in Hin; [|unfold len; lia|done]. clear Hl.
  assert (forall n e, publish_error (cs_payload y) n e (cf_st c') -> err_code e <> kNoNewSample) as Hpe.
  { intros n e [H|[[H _]|[H _]]]; rewrite ?H; [|done|done].
    intros E. rewrite E in H. apply list_elem_of_In in H. by repeat destruct H as [H|H]. }
  destruct op, res; cbn [refused]; try done; repeat case_match; simplify_eq; try done;
    cbn [call_fact] in Hin; try (by destruct Hin); (split; [done|]); intros e0 [= <-] Hnn;
    first [by apply Hpe in Hin|destruct Hin as [Hin|Hin]; [by rewrite Hnn in Hin|by apply Hpe in Hin]|idtac].
  all: destruct Hin as (_ & _ & H3); destruct (H3 Hnn) as [H|(q & Hq & H)]; [lia|by exists q].
Qed.

Lemma channel_read_fresh_witness :
  exists (c c' : chan_config) snap, reaches ChannelDemo.system c /\
    rtc (system_step ChannelDemo.system) c c' /\
    pi_sequence (mkPublishInfo 1 1 1000000005) <= rs_sample_sequence snap /\
    rs_sample_sequence snap = 1.
Proof.
  destruct ChannelDemo.channel_demo_reached as (c & c' & H0 & Hs & Hf).
  destruct ChannelDemo.demo_first_read as (snap & bytes & Hread & Hq). exists c, c', snap.
  pose proof (ChannelDemo.demo_user _ c 0%nat H0) as Hu. destruct H0 as (Hr & _ & Ht0).
  destruct Hf as (_ & _ & Ht). split; [exact Hr|]. split; [exact Hs|]. split; [|exact Hq].
  refine (proj1 (channel_read_fresh ChannelDemo.system c 0%nat _ [5; 6; 7; 8] c' 1%nat (OpRead 4)
    (ResRead (Ok (snap, bytes))) ChannelDemo.demo_ok Hr _ Hs _)).
  - rewrite Hu, ChannelDemo.demo_middle_published. by left.
  - unfold from_now. rewrite Ht, Ht0. cbn [th_run th_hist].
    change (ChannelDemo.middle.2 1%nat) with (@nil (chan_op * chan_res)). cbn [length drop].
    destruct (ChannelDemo.final.2 1%nat); [discriminate Hread|]. injection Hread as ->. by left.
Defined.

(** The window is real. There is a run in which the consumer reads a sample
    through a loan and dies in the release of it, after one access: [slot_release_read]
    has cleared the reader's role epoch and not yet set the state. The opening of the
    next consumer then ends with [kRecoveryBlocked]. *)
Lemma release_window_reached :
  exists (c c' : chan_config) e, reaches ChannelDemo.system c /\
    may_take_over ChannelDemo.system c 2%nat /\
    rtc (system_step ChannelDemo.system) (taken_over ChannelDemo.system c 2%nat) c' /\
    (exists k, is_slot k /\ st 1 2 (cf_st c) k = ss_kReading /\ rd 1 2 (cf_st c) k = 0) /\
    th_hist (cf_threads c' 2%nat) = [(OpOpen, ResOpen (Err e))] /\ err_code e = kRecoveryBlocked.
Proof.
  destruct ChannelDemo.demo_stopped1 as (Hop & Hinc & Hk).
  destruct (ChannelDemo.demo_reopened 1%nat Hop Hinc) as (c & c' & Hr & Hst & Hm & Hs & Hl & Hl').
  destruct ChannelDemo.demo_reopened1 as (e & He & Hb).
  exists c, c', e. split; [exact Hr|]. split; [exact Hm|]. split; [exact Hs|].
  split; [|rewrite Hl', He; split; [reflexivity|exact Hb]].
  exists 0. rewrite Hst. exact Hk.
Qed.

(** C36: crash recovery. When the process of a consumer that had finished its own opening
    is gone, wherever its threads stopped after that, and thread [heir] of another process
    replaces it, the role epochs not being used up: the replacement either ends with the
    next role epoch, and it does unless the dead consumer stood between the two stores of
    [slot_release_read], or it ends with [kRecoveryBlocked], and then it did stand there;
    if the heir dies too it ends with nothing. That window is real: there is a run in which
    the consumer reads a sample through a loan and dies in the release of it, after one
    access, when [slot_release_read] has cleared the reader's role epoch and not yet set the
    state; the next replacement then ends with [kRecoveryBlocked].

    The replacement is what [open_locked] does to take the consumer's place
    ([take_consumer_place]) when the recorded identity is valid, the recorded state is an
    active one and the kernel says that the process is gone: both then have the same result
    and leave the same memory. And a consumer that died inside its own opening, with its
    identity half written, leaves an odd role epoch, for which [take_consumer_place] ends
    with [kRecoveryBlocked] and changes nothing. *)
Theorem channel_crash_recovery :
  (forall y c heir c' x,
     system_ok y -> reaches y c -> may_take_over y c heir ->
     rtc (system_step y) (taken_over y c heir) c' ->
     th_hist (cf_threads c' heir) !! length (th_hist (cf_threads c heir)) = Some x ->
     let window := exists k, is_slot k /\ st (cs_dev y) (cs_ino y) (cf_st c) k = ss_kReading /\
       rd (cs_dev y) (cs_ino y) (cf_st c) k = 0 in
     x = (OpCrash, ResNone) \/
     x = (OpOpen, ResOpen (Ok (epoch_of (S (ginc (cf_st c)))))) /\ ~ window \/
     exists e, x = (OpOpen, ResOpen (Err e)) /\ err_code e = kRecoveryBlocked /\ window) /\
  (exists (c c' : chan_config) e, reaches ChannelDemo.system c /\
     may_take_over ChannelDemo.system c 2%nat /\
     rtc (system_step ChannelDemo.system) (taken_over ChannelDemo.system c 2%nat) c' /\
     (exists k, is_slot k /\ st 1 2 (cf_st c) k = ss_kReading /\ rd 1 2 (cf_st c) k = 0) /\
     th_hist (cf_threads c' 2%nat) = [(OpOpen, ResOpen (Err e))] /\ err_code e = kRecoveryBlocked) /\
  (forall OS (os : os_model OS) id base ps self (w : world chloc OS) c,
     (run os (identity_snapshot_read (fun f => base (Ident r_consumer f))) w).1 = Ok c ->
     process_identity_valid (identity_of_abi c) = true -> ia_pid c <> 0 ->
     actively_owned (w_mem w (base (Head ch_consumer_state))) = true ->
     let probed := run os (probe_liveness (ia_pid c) (ia_proc_start_ticks c)) w in
     probed.1 = kExited \/ probed.1 = kPidReused ->
     run os (take_consumer_place id base ps self) w
       = run os (replace_dead_consumer id base ps self) probed.2) /\
  (forall OS (os : os_model OS) id base ps self (w : world chloc OS),
     epoch_odd (w_mem w (base (Ident r_consumer id_role_epoch))) = true ->
     blocked (run os (take_consumer_place id base ps self) w).1 /\
     (run os (take_consumer_place id base ps self) w).2 = w).
Proof.
  split; [|split; [exact release_window_reached|split]].
  - intros y c heir c' x Hy Hc Hm Hs Hx window. destruct Hm as [Hinc Hm'] eqn:E. clear E.
    rewrite <- Hinc. exact (reaches_opening y Hy c heir c' x Hc (conj Hinc Hm') Hs Hx).
  - intros. by apply take_place_replaces.
  - intros. by apply take_place_torn.
Qed.

Lemma channel_crash_recovery_witness :
  exists c : chan_config, reaches ChannelDemo.system c /\ may_take_over ChannelDemo.system c 2%nat /\
    ChannelDemo.reopened 0 = ResOpen (Ok (epoch_of (S (ginc (cf_st c))))).
Proof.
  destruct (ChannelDemo.demo_reopened 0%nat) as (c & c' & Hr & Hst & Hm & Hs & Hl & Hl');
    [apply ChannelDemo.demo_stopped0..|].
  exists c. split; [exact Hr|]. split; [exact Hm|].
  destruct (proj1 channel_crash_recovery ChannelDemo.system c 2%nat c' (OpOpen, ChannelDemo.reopened 0)
    ChannelDemo.demo_ok Hr Hm Hs) as [H|[[H _]|(e & H & _)]].
  - rewrite Hl, Hl'. reflexivity.
  - pose proof (f_equal fst H : OpOpen = OpCrash) as H'. discriminate H'.
  - exact (f_equal snd H).
  - exfalso. rewrite ChannelDemo.demo_reopened0 in H. discriminate H.
Defined.

