(* ===== verification/TypedChannel.v ===== *)
(** The typed faces of a channel: [Producer<T>] and [Consumer<T>] of
    [include/edge_runtime/channel/{producer,consumer}.hpp], with the codec of [T] as an
    instance of [PayloadCodec] ([include/edge_runtime/common/schema.hpp]), and the two
    codecs the repository has: that of the latency benchmark
    ([tools/include/edge_runtime_tool/bench_payload.hpp]) and that of the example
    ([examples/consume_demo/src/common.cpp]). *)
From S2P Require Import Prelude ByteFields Errors CheckedMath Prog Concur Checksum ProcIdentity ShmObject Clock.
From S2P Require Import ChannelLayout ChannelSegment SlotProtocol ChannelAbi ControlLock Producer Consumer.
From S2P Require Import ProducerCreate ConsumerOpen ChannelProtocol ChannelSteps ConsumerSafety ConsumerOps.
From S2P Require Import ProducerSafety ProducerOps ChannelClient ChannelHolds ChannelTakeover ChannelRuns ChannelTheorems.

(** * Codecs *)

(** [encode value dst] is what [dst] holds afterwards, [None] when it returns false;
    [decode src size] reads the first [size] bytes at [src]. *)
Class PayloadCodec (T : Type) : Type := {
  kEncodedSize : Z;
  encode : T -> list Z -> option (list Z);
  decode : list Z -> Z -> option T
}.

(** What the channel's users rely on: the size the static assertions allow, and that a
    value comes back from its encoding, whatever the buffer held. [fits] are the values of
    the C++ type that [encode] is meant for. *)
Class PayloadCodecContract (T : Type) `{PayloadCodec T} (fits : T -> Prop) : Prop := {
  codec_size : 0 < kEncodedSize <= 65536;
  codec_roundtrip v dst : fits v -> length dst = Z.to_nat kEncodedSize ->
    exists encoded, encode v dst = Some encoded /\ length encoded = length dst /\
      decode encoded kEncodedSize = Some v
}.

(** * The typed calls *)

Record Sample (T : Type) : Type := mkSample {
  sm_value : T;
  sm_generation : Z;
  sm_instance_nonce : list Z;
  sm_sequence : Z;
  sm_publish_boot_ns : Z;
  sm_receive_boot_ns : Z;
  sm_missed_samples : Z
}.
Arguments mkSample {T}.
Arguments sm_value {T}.
Arguments sm_generation {T}.
Arguments sm_instance_nonce {T}.
Arguments sm_sequence {T}.
Arguments sm_publish_boot_ns {T}.
Arguments sm_receive_boot_ns {T}.
Arguments sm_missed_samples {T}.

Section Typed.
Context {T : Type} `{PayloadCodec T}.

(** [EncodedBuffer encoded{}]. *)
Definition EncodedBuffer : list Z := repeat 0 (Z.to_nat kEncodedSize).

Definition create (id : nat) (options : ChannelOptions) (schema : SchemaDescriptor)
    : cprog (Result ProducerHandle) :=
  producer_create_impl id options schema kEncodedSize.

Definition publish (handle : ProducerHandle) (value : T) : cprog (Result PublishInfo) :=
  match encode value EncodedBuffer with
  | None => fail kPayloadEncodeFailed "Producer::publish" "encode failed"
  | Some encoded => producer_publish_impl handle encoded
  end.

Definition open (fuel id : nat) (options : ChannelOptions) (schema : SchemaDescriptor)
    : cprog (Result ConsumerHandle) :=
  consumer_open_impl fuel id options schema kEncodedSize.

(** The buffer after [bytes] were copied to its start, decoded. *)
Definition decode_snapshot (op : string) (snap : ReadSnapshot) (bytes : list Z) : Result (Sample T) :=
  let encoded := bytes ++ drop (length bytes) EncodedBuffer in
  if negb (rs_checksum_ok snap) then Err (make_error kPayloadCorrupt op "checksum mismatch")
  else match decode encoded (rs_encoded_size snap) with
  | None => Err (make_error kPayloadDecodeFailed op "decode failed")
  | Some value =>
      Ok (mkSample value (rs_generation snap) (rs_instance_nonce snap) (rs_sample_sequence snap)
            (rs_publish_boot_ns snap) (rs_receive_boot_ns snap) (rs_missed_samples snap))
  end.

Definition try_read_latest (handle : ConsumerHandle) : cprog (Result (Sample T)) :=
  let! r := consumer_try_read_latest_impl handle kEncodedSize in
  match r with
  | Err e => Ret (Err e)
  | Ok (snap, bytes) => Ret (decode_snapshot "Consumer::try_read_latest" snap bytes)
  end.

(** [timeout.count()] may be negative. *)
Definition wait_latest (fuel : nat) (handle : ConsumerHandle) (timeout : Z)
    : cprog (option (Result (Sample T))) :=
  let timeout_ns := if 0 <? timeout then timeout else 0 in
  let! r := consumer_wait_latest_impl fuel handle kEncodedSize timeout_ns in
  match r with
  | None => Ret None
  | Some (Err e) => Ret (Some (Err e))
  | Some (Ok (snap, bytes)) => Ret (Some (decode_snapshot "Consumer::wait_latest" snap bytes))
  end.
End Typed.

(** * The codec of the latency benchmark *)

Record BenchPayloadV1 (kSize : nat) : Type := mkBenchPayload {
  bp_magic : Z;
  bp_counter : Z;
  bp_publish_ns : Z;
  bp_flags : Z
}.
Arguments mkBenchPayload {kSize}.
Arguments bp_magic {kSize}.
Arguments bp_counter {kSize}.
Arguments bp_publish_ns {kSize}.
Arguments bp_flags {kSize}.

Definition kBenchPayloadMagic : Z := 1526726657. (* 0x5B000001 *)

Definition bench_size_hash (size : Z) : Z := fnv1a64 (le_bytes 8 size).
Definition bench_fingerprint (size : Z) : list Z :=
  map (fun i =>
         let b := Z.land (Z.lxor (Z.shiftr (bench_size_hash size) (8 * ((i * 5) mod 8))) (i * 131)) 255 in
         if b =? 0 then 123 else b)
    (map Z.of_nat (seq 0 32)).

Definition bench_pattern (i : nat) : Z := Z.land (Z.lxor 165 (Z.land (Z.of_nat i) 255)) 255.

Definition bench_encode (kSize : nat) (v : BenchPayloadV1 kSize) (dst : list Z) : option (list Z) :=
  if bool_decide (length dst < kSize)%nat then None
  else Some (le_bytes 4 (bp_magic v) ++ le_bytes 8 (bp_counter v) ++ le_bytes 8 (bp_publish_ns v) ++
             le_bytes 4 (bp_flags v) ++ map bench_pattern (seq 24 (kSize - 24)) ++ drop kSize dst).

Definition bench_decode (kSize : nat) (src : list Z) (size : Z) : option (BenchPayloadV1 kSize) :=
  if size <? Z.of_nat kSize then None
  else
  let out := mkBenchPayload (field_at src 0 4) (field_at src 4 8) (field_at src 12 8) (field_at src 20 4) in
  if negb (bp_magic out =? kBenchPayloadMagic) then None
  else if negb (Z.land (bp_flags out) 4294967292 =? 0) then None (* ~0x3u *)
  else if negb (forallb (fun i => nth i src 0 =? bench_pattern i) (seq 24 (kSize - 24))) then None
  else Some out.

#[export] Instance BenchCodec kSize : PayloadCodec (BenchPayloadV1 kSize) := {
  kEncodedSize := Z.of_nat kSize;
  encode := bench_encode kSize;
  decode := bench_decode kSize
}.

(** The values the benchmark sends. *)
Record bench_fits (kSize : nat) (v : BenchPayloadV1 kSize) : Prop := {
  bf_magic : bp_magic v = kBenchPayloadMagic;
  bf_counter : is_u64 (bp_counter v);
  bf_publish_ns : is_u64 (bp_publish_ns v);
  bf_flags : 0 <= bp_flags v <= 3
}.

(** * The codec of the example *)

Record Point : Type := mkPoint { pt_x : Z; pt_y : Z }.

(** The value of a four-byte signed integer. *)
Definition i32 (z : Z) : Z := if z <? 2147483648 then z else z - 4294967296.

(** [None] for a null pointer. *)
Definition encode_point (point : Point) (output : option (list Z)) : option (list Z) :=
  match output with
  | None => None
  | Some dst =>
      if bool_decide (length dst < 8)%nat then None
      else Some (le_bytes 4 (u32 (pt_x point)) ++ le_bytes 4 (u32 (pt_y point)) ++ drop 8 dst)
  end.
Definition decode_point (input : option (list Z)) (size : Z) : option Point :=
  match input with
  | None => None
  | Some src =>
      if size <? 8 then None else Some (mkPoint (i32 (field_at src 0 4)) (i32 (field_at src 4 4)))
  end.

#[export] Instance PointCodec : PayloadCodec Point := {
  kEncodedSize := 8;
  encode v dst := encode_point v (Some dst);
  decode src size := decode_point (Some src) size
}.

Definition point_fits (p : Point) : Prop :=
  -2147483648 <= pt_x p <= 2147483647 /\ -2147483648 <= pt_y p <= 2147483647.

Definition point_schema : SchemaDescriptor := mkSchema (repeat 49 32) 1. (* 0x31 *)

(** * The codecs keep the contract *)

Lemma le_value_range bs n : Forall is_byte bs -> length bs = n -> 0 <= le_value bs < 256 ^ Z.of_nat n.
Proof.
  intros Hb <-. induction Hb as [|b bs Hb _ IH]; [cbn; lia|].
  cbn [le_value length]. rewrite Nat2Z.inj_succ, Z.pow_succ_r by lia. unfold is_byte in Hb. lia.
Qed.

Lemma i32_u32 z : -2147483648 <= z <= 2147483647 -> i32 (u32 z) = z.
Proof. intros Hz. unfold i32, u32. destruct (Z.ltb_spec (z mod 4294967296) 2147483648); Z.to_euclidean_division_equations; lia. Qed.

#[export] Instance PointContract : PayloadCodecContract Point point_fits.
Proof.
  split; [cbn; lia|]. intros [x y] dst [Hx Hy] Hl. cbn [pt_x pt_y] in *. cbn in Hl.
  exists (le_bytes 4 (u32 x) ++ le_bytes 4 (u32 y)). cbn [encode decode PointCodec encode_point].
  rewrite bool_decide_false by lia. rewrite (drop_ge dst) by lia. rewrite app_nil_r.
  split; [reflexivity|]. split; [rewrite length_app, !le_bytes_length; lia|].
  unfold decode_point. cbn [kEncodedSize Z.ltb Z.compare Pos.compare Pos.compare_cont].
  pose proof (u32_range x). pose proof (u32_range y).
  replace (field_at (le_bytes 4 (u32 x) ++ le_bytes 4 (u32 y)) 4 4) with (u32 y).
  - rewrite field_at_here by mlia. by rewrite !i32_u32.
  - seek. cbn [Nat.sub]. rewrite <- (app_nil_r (le_bytes 4 (u32 y))), field_at_here by mlia. done.
Qed.

Lemma bench_pattern_byte i : is_byte (bench_pattern i).
Proof.
  unfold bench_pattern. set (v := Z.lxor _ _). change 255 with (Z.ones 8). rewrite Z.land_ones by lia.
  pose proof (Z.mod_pos_bound v (2 ^ 8)). unfold is_byte. lia.
Qed.

Lemma flags_fit f : is_u32 f -> Z.land f 4294967292 = 0 <-> f <= 3.
Proof.
  intros Hf. assert (f = Z.lor (Z.land f 4294967292) (f mod 2 ^ 2)) as E.
  { rewrite <- (Z.land_ones f 2), <- Z.land_lor_distr_r by lia.
    change (Z.lor 4294967292 (Z.ones 2)) with (Z.ones 32). rewrite Z.land_ones by lia.
    symmetry. apply Z.mod_small. mlia. }
  split; intros H.
  - rewrite H, Z.lor_0_l in E. pose proof (Z.mod_pos_bound f (2 ^ 2)). lia.
  - assert (f = 0 \/ f = 1 \/ f = 2 \/ f = 3) as [-> | [-> | [-> | ->]]] by mlia; reflexivity.
Qed.

(** The bytes of an encoding and what is read from them. *)
Lemma bench_fields kSize (v : BenchPayloadV1 kSize) rest :
  is_u32 (bp_magic v) -> is_u64 (bp_counter v) -> is_u64 (bp_publish_ns v) -> is_u32 (bp_flags v) ->
  let src := le_bytes 4 (bp_magic v) ++ le_bytes 8 (bp_counter v) ++ le_bytes 8 (bp_publish_ns v) ++
    le_bytes 4 (bp_flags v) ++ rest in
  mkBenchPayload (field_at src 0 4) (field_at src 4 8) (field_at src 12 8) (field_at src 20 4) = v.
Proof.
  destruct v as [magic counter ns flags]. cbn [bp_magic bp_counter bp_publish_ns bp_flags].
  intros. cbv zeta. f_equal; seek; cbn [Nat.sub]; apply field_at_here; mlia.
Qed.

Lemma BenchContract kSize :
  24 <= Z.of_nat kSize <= 65536 -> PayloadCodecContract (BenchPayloadV1 kSize) (bench_fits kSize).
Proof.
  intros Hk. split; [cbn [kEncodedSize BenchCodec]; lia|]. intros v dst [Hm Hc Hn Hf] Hl. cbn [kEncodedSize BenchCodec] in *. rewrite Nat2Z.id in Hl.
  cbn [encode decode BenchCodec]. unfold bench_encode. rewrite bool_decide_false by lia.
  rewrite (drop_ge dst) by lia. rewrite app_nil_r. eexists. split; [reflexivity|].
  split; [rewrite !length_app, !le_bytes_length, length_map, length_seq; lia|].
  unfold bench_decode. rewrite Z.ltb_irrefl, bench_fields; [|unfold kBenchPayloadMagic in *; mlia..].
  rewrite Hm, Z.eqb_refl. cbn [negb]. rewrite (proj2 (flags_fit (bp_flags v) ltac:(mlia))) by lia.
  cbn [negb Z.eqb]. rewrite (proj2 (forallb_forall _ _)); [reflexivity|]. intros i Hi%in_seq.
  apply Z.eqb_eq, nth_lookup_Some. repeat rewrite lookup_app_r by (rewrite ?le_bytes_length; lia).
  rewrite !le_bytes_length, list_lookup_fmap, lookup_seq_lt by lia. cbn [fmap option_fmap option_map].
  do 2 f_equal. lia.
Qed.

(** The receiver of the benchmark accepts only encodings: no mixture of two samples that
    differs from every encoding gets through. *)
Lemma bench_decode_canonical kSize src (v : BenchPayloadV1 kSize) dst :
  (24 <= kSize)%nat -> Forall is_byte src -> length src = kSize -> length dst = kSize ->
  decode src (Z.of_nat kSize) = Some v -> bench_fits kSize v /\ encode v dst = Some src.
Proof.
  intros Hk Hb Hl Hd. cbn [encode decode BenchCodec kEncodedSize]. unfold bench_decode, bench_encode.
  rewrite Z.ltb_irrefl. cbn [bp_magic bp_flags].
  destruct (Z.eqb_spec (field_at src 0 4) kBenchPayloadMagic) as [Hm|]; cbn [negb]; [|done].
  destruct (Z.eqb_spec (Z.land (field_at src 20 4) 4294967292) 0) as [Hf|]; cbn [negb]; [|done].
  destruct (forallb _ _) eqn:Hp; cbn [negb]; [|done]. intros [= <-].
  assert (forall o w, (o + w <= 24)%nat -> 0 <= field_at src o w < 256 ^ Z.of_nat w) as Hr.
  { intros o w Ho. unfold field_at. apply le_value_range; [by apply Forall_take, Forall_drop|].
    rewrite length_take, length_drop. lia. }
  split.
  - pose proof (Hr 4%nat 8%nat ltac:(lia)). pose proof (Hr 12%nat 8%nat ltac:(lia)).
    pose proof (Hr 20%nat 4%nat ltac:(lia)) as Hr4. apply flags_fit in Hf; [|mlia].
    split; cbn [bp_magic bp_counter bp_publish_ns bp_flags]; [done|mlia|mlia|lia].
  - rewrite bool_decide_false by lia. f_equal. cbn [bp_magic bp_counter bp_publish_ns bp_flags].
    rewrite (drop_ge dst), app_nil_r, !field_bytes by (done || lia). rewrite !app_assoc, !bytes_at_split.
    rewrite <- (take_drop 24 src) at 2. cbn [Nat.add]. unfold bytes_at. rewrite drop_0. f_equal.
    apply list_eq. intros j. destruct (decide (j < kSize - 24)%nat).
    + rewrite list_lookup_fmap, lookup_seq_lt, lookup_drop by lia. cbn [fmap option_fmap option_map].
      destruct (lookup_lt_is_Some_2 src (24 + j)) as [b Hj]; [lia|]. rewrite Hj. f_equal.
      rewrite forallb_forall in Hp. symmetry. specialize (Hp (24 + j)%nat). rewrite in_seq in Hp.
      apply nth_lookup_Some with (d := 0) in Hj. rewrite <- Hj. apply Z.eqb_eq, Hp. lia.
    + rewrite !lookup_ge_None_2; [done|rewrite length_drop; lia|rewrite length_map, length_seq; lia].
Qed.

(** * The typed calls on a channel that is used by many threads *)

(** Programs with the same accesses, answers and results. *)
Inductive same {L A : Type} : prog L A -> prog L A -> Prop :=
| same_ret a : same (Ret a) (Ret a)
| same_vis X (e : ev L X) k k' : (forall x, same (k x) (k' x)) -> same (Vis e k) (Vis e k').

#[global] Instance same_reflexive {L A} : Reflexive (@same L A).
Proof. intros p. induction p; by constructor. Qed.

Lemma same_bind {L A B C} (p : prog L A) (f : A -> prog L B) (g : B -> prog L C) (h : A -> prog L C) :
  (forall a, same (bind (f a) g) (h a)) -> same (bind (bind p f) g) (bind p h).
Proof. intros Hf. induction p as [a|X e k IH]; cbn [bind]; [apply Hf|]. by constructor. Qed.

(** The calls of the channel's users ([ChannelClient]) that the typed calls make, and what
    they make of the results. *)
Definition copied (call : chan_op * chan_res) : option (ReadSnapshot * list Z) :=
  match call with
  | (OpRead _, ResRead (Ok r)) | (OpWait _ _ _, ResWait (Some (Ok r))) => Some r
  | _ => None
  end.

(** What was copied is among what the thread has seen and read. *)
Definition remembers (u : cuser) (snap : ReadSnapshot) (bytes : list Z) : Prop :=
  (rs_sample_sequence snap, bytes) ∈ cu_seen u /\ snapshot_delivery snap ∈ cu_reads u.

Lemma ctrack1_remembers u call snap bytes :
  remembers u snap bytes \/ copied call = Some (snap, bytes) -> remembers (ctrack1 u call) snap bytes.
Proof.
  unfold remembers. intros [[Hs Hr]|Hc].
  - destruct call as [[] []]; cbn [ctrack1]; repeat case_match; simplify_eq; cbn; split; try done; by right.
  - destruct call as [[] []]; cbn [copied] in Hc; repeat case_match; simplify_eq; cbn; split; by left.
Qed.

Lemma copied_remembered inc t h call snap bytes :
  call ∈ h -> copied call = Some (snap, bytes) -> remembers (ctrack inc t h) snap bytes.
Proof.
  unfold ctrack. generalize (cuser_start (bool_decide (inc t = 0%nat))). intros u Hin Hc.
  apply list_elem_of_split in Hin as (h1 & h2 & ->). rewrite foldl_app. cbn [foldl].
  assert (forall u, remembers u snap bytes -> remembers (foldl ctrack1 u h2) snap bytes) as Hmono.
  { clear. induction h2 as [|c h2 IH]; intros u Hu; [done|]. cbn. apply IH, ctrack1_remembers. by left. }
  apply Hmono, ctrack1_remembers. by right.
Qed.

Section TypedSystem.
Context {T : Type} {codec : PayloadCodec T} {fits : T -> Prop} {contract : PayloadCodecContract T fits}.

Abbreviation size := (kEncodedSize (T := T)).

Definition lift_read (op : string) (r : Result (ReadSnapshot * list Z)) : Result (Sample T) :=
  match r with Err e => Err e | Ok (snap, bytes) => decode_snapshot op snap bytes end.

(** What a typed call gives, from the result of the client's call that it makes. *)
Definition typed_publish (r : chan_res) : option (Result PublishInfo) :=
  match r with ResPublish r => Some r | _ => None end.
Definition typed_read (r : chan_res) : option (Result (Sample T)) :=
  match r with ResRead r => Some (lift_read "Consumer::try_read_latest" r) | _ => None end.
Definition typed_wait (r : chan_res) : option (option (Result (Sample T))) :=
  match r with ResWait r => Some (option_map (lift_read "Consumer::wait_latest") r) | _ => None end.

Definition finished {A B} (p : cprog A) (f : A -> B) : cprog B := bind p (fun r => Ret (f r)).

Lemma publish_lower pd u v encoded :
  encode v EncodedBuffer = Some encoded ->
  same (finished (publish pd v) Some) (finished (producer_call pd u (OpPublish encoded)) typed_publish).
Proof.
  intros He. unfold publish, finished. rewrite He. cbn [producer_call].
  generalize (producer_publish_impl pd encoded). intros p. induction p; cbn [bind]; by constructor.
Qed.
Lemma publish_refused pd v :
  encode v EncodedBuffer = None ->
  publish pd v = fail kPayloadEncodeFailed "Producer::publish" "encode failed".
Proof. intros He. unfold publish. by rewrite He. Qed.
Lemma try_read_lower h u :
  same (finished (try_read_latest h) Some) (finished (consumer_call h u (OpRead size)) typed_read).
Proof.
  unfold try_read_latest, finished. cbn [consumer_call].
  generalize (consumer_try_read_latest_impl h size). intros p.
  induction p as [[[]|]|]; cbn [bind]; by constructor.
Qed.
Lemma wait_lower fuel h u timeout :
  same (finished (wait_latest fuel h timeout) Some)
    (finished (consumer_call h u (OpWait fuel size (Z.max 0 timeout))) typed_wait).
Proof.
  unfold wait_latest, finished. cbn [consumer_call].
  replace (if 0 <? timeout then timeout else 0) with (Z.max 0 timeout) by (destruct (Z.ltb_spec 0 timeout); lia).
  generalize (consumer_wait_latest_impl fuel h size (Z.max 0 timeout)). intros p.
  induction p as [[[[]|]|]|]; cbn [bind]; by constructor.
Qed.

(** What was copied by any read of a sample that was published from [v]. *)
Lemma copied_decoded y c t v encoded info u call snap bytes op :
  system_ok y -> reaches y c -> cs_payload y = size -> fits v ->
  encode v EncodedBuffer = Some encoded -> (info, encoded) ∈ cu_published (user_of y c t) ->
  call ∈ th_hist (cf_threads c u) -> copied call = Some (snap, bytes) ->
  rs_sample_sequence snap = pi_sequence info ->
  decode_snapshot op snap bytes =
  Ok (mkSample v (rs_generation snap) (rs_instance_nonce snap) (pi_sequence info)
        (pi_publish_boot_ns info) (rs_receive_boot_ns snap) (rs_missed_samples snap)).
Proof.
  intros Hy Hc Hps Hv He Hpub Hin Hcop Hseq.
  destruct (codec_roundtrip v EncodedBuffer Hv) as (enc & He' & Hlen & Hdec); [apply repeat_length|].
  rewrite He in He'. injection He' as <-.
  destruct (copied_remembered (cs_incarnation y) u _ _ _ _ Hin Hcop) as [Hseen Hread].
  destruct (seen_entry y c Hy Hc u _ Hseen) as (e & Hent & Hb & Hl).
  destruct (read_entry y c Hy Hc u _ Hread) as (e2 & _ & Hent2 & _ & _ & Hns2 & Hsz).
  destruct (published_entry y c Hy Hc t _ Hpub) as (e3 & Hent3 & Hpre & _ & _ & Hns & _).
  cbn [fst snd dl_sequence dl_publish_boot_ns dl_size snapshot_delivery] in *. rewrite Hseq in Hent, Hent2.
  rewrite (entry_unique _ _ _ _ Hent2 Hent) in Hns2. rewrite (entry_unique _ _ _ _ Hent3 Hent) in Hpre, Hns.
  assert (encoded = bytes) as ->.
  { symmetry. rewrite Hb. apply prefix_length_eq; [done|]. rewrite <- Hb, Hl, Hps, Hlen. unfold EncodedBuffer.
    by rewrite repeat_length. }
  assert (rs_checksum_ok snap = true) as Hok.
  { pose proof (reaches_calls y Hy c u Hc) as Hcalls. rewrite Forall_forall in Hcalls. apply Hcalls in Hin.
    destruct call as [[] []]; cbn [copied] in Hcop; repeat case_match; simplify_eq; by destruct Hin as (_ & _ & ?). }
  unfold decode_snapshot. rewrite Hok. cbn [negb]. rewrite drop_ge, app_nil_r by lia.
  rewrite Hsz, Hps, Hdec, Hseq. by rewrite <- Hns, <- Hns2.
Qed.
End TypedSystem.

(** * A channel of points *)

Module PointDemo.
Definition producer : ProducerHandle :=
  mkProducerHandle 0 (ChannelDemo.object 3) "demo" 1 2 11 12 point_schema 8 (ChannelDemo.identity 100)
    tr_kPosixShm 0 "" (-1) 0.
Definition consumer (n : nat) : ConsumerHandle :=
  mkConsumerHandle n (ChannelDemo.object 4) "demo" tr_kPosixShm 1 (epoch_of n) 11 12 point_schema 8
    (ChannelDemo.identity 200) 100.
Definition system : chan_system :=
  mkSystem 1 2 8 producer consumer ChannelDemo.incarnation (fun t => ChannelDemo.identity (300 + Z.of_nat t))
    ChannelDemo.memory.

Lemma point_demo_ok : system_ok system.
Proof. split; split; try done; by intros []. Qed.

Definition impl : tid -> list (chan_op * chan_res) -> chan_op -> cprog chan_res :=
  chan_impl producer consumer ChannelDemo.incarnation.
Definition bytes : list Z := [3; 0; 0; 0; 252; 255; 255; 255].
Definition calls : list (tid * chan_op) := [(0%nat, OpPublish bytes); (1%nat, OpRead 8)].
Definition final : chst * (tid -> list (chan_op * chan_res)) :=
  script (P := channel_protocol 1 2 8 0 ChannelDemo.incarnation) ChannelDemo.os impl calls
    (mkCst ChannelDemo.memory chghost_start) (fun _ => []) tt.

Lemma point_encoded : encode (mkPoint 3 (-4)) EncodedBuffer = Some bytes.
Proof. by vm_compute. Qed.
Lemma point_published :
  cu_published (ctrack ChannelDemo.incarnation 0%nat (final.2 0%nat)) = [(mkPublishInfo 1 1 1000000005, bytes)].
Proof. by vm_compute. Qed.
Definition snapshot : ReadSnapshot :=
  mkReadSnapshot 8 true 1 1000000005 1000000005 1 (pack_nonce (consumer 0)) 0.
Lemma point_read : final.2 1%nat = [(OpRead 8, ResRead (Ok (snapshot, bytes)))].
Proof. by vm_compute. Qed.

Lemma point_reached :
  exists c, reaches system c /\ forall t, cf_threads c t = mkThread None (final.2 t).
Proof.
  destruct (script_steps (P := channel_protocol 1 2 8 0 ChannelDemo.incarnation) ChannelDemo.os impl calls
    (initial (mkCst ChannelDemo.memory chghost_start)) (fun _ => []) tt) as (c & Hc & _ & Ht); [done|].
  exists c. split; [|exact Ht]. eapply (steps_reach system); [apply rtc_refl|exact Hc].
Qed.
End PointDemo.

(** C7: values come through a channel unchanged. A typed call is one call of the
    channel's client with its result decoded: [publish] of a value is the publication of
    its encoding, [try_read_latest] and [wait_latest] are reads of the codec's size. And
    whatever the threads of all processes do, when the encoding of [v] was published with
    number [q], every typed read that gets sample [q], copied by any thread, returns the
    value [v], with number [q] and the time of its publication: the checksum is never
    reported wrong and decoding never fails. *)
Theorem typed_channel_roundtrip {T : Type} {codec : PayloadCodec T} (fits : T -> Prop)
    (contract : PayloadCodecContract T fits) y c t v encoded info u op res snap bytes :
  system_ok y -> reaches y c -> cs_payload y = kEncodedSize (T := T) -> fits v ->
  encode v EncodedBuffer = Some encoded -> (info, encoded) ∈ cu_published (user_of y c t) ->
  (op, res) ∈ th_hist (cf_threads c u) -> copied (op, res) = Some (snap, bytes) ->
  rs_sample_sequence snap = pi_sequence info ->
  (forall pd us, same (finished (publish pd v) Some)
     (finished (producer_call pd us (OpPublish encoded)) typed_publish)) /\
  (forall h us, same (finished (try_read_latest (T := T) h) Some)
     (finished (consumer_call h us (OpRead (kEncodedSize (T := T)))) typed_read)) /\
  (forall fuel h us timeout, same (finished (wait_latest (T := T) fuel h timeout) Some)
     (finished (consumer_call h us (OpWait fuel (kEncodedSize (T := T)) (Z.max 0 timeout))) typed_wait)) /\
  let sample := mkSample v (rs_generation snap) (rs_instance_nonce snap) (pi_sequence info)
    (pi_publish_boot_ns info) (rs_receive_boot_ns snap) (rs_missed_samples snap) in
  match op with
  | OpRead _ => typed_read res = Some (Ok sample)
  | _ => typed_wait res = Some (Some (Ok sample))
  end.
Proof.
  intros Hy Hc Hps Hv He Hpub Hin Hcop Hseq.
  split; [intros; by apply publish_lower|]. split; [intros; apply try_read_lower|].
  split; [intros; apply wait_lower|]. cbv zeta.
  pose proof (fun o => copied_decoded y c t v encoded info u _ snap bytes o Hy Hc Hps Hv He Hpub Hin Hcop Hseq) as Hd.
  destruct op, res; cbn [copied] in Hcop; repeat case_match; simplify_eq; cbn; by rewrite Hd.
Qed.

Lemma typed_channel_roundtrip_witness :
  exists res, res = ResRead (Ok (PointDemo.snapshot, PointDemo.bytes)) /\
  typed_read res = Some (Ok (mkSample (mkPoint 3 (-4)) 1 (pack_nonce (PointDemo.consumer 0)) 1 1000000005 1000000005 0)).
Proof.
  destruct PointDemo.point_reached as (c & Hr & Ht). eexists. split; [reflexivity|].
  refine (proj2 (proj2 (proj2 (typed_channel_roundtrip point_fits _ PointDemo.system c 0%nat (mkPoint 3 (-4))
    PointDemo.bytes (mkPublishInfo 1 1 1000000005) 1%nat (OpRead 8)
    (ResRead (Ok (PointDemo.snapshot, PointDemo.bytes))) PointDemo.snapshot PointDemo.bytes
    PointDemo.point_demo_ok Hr eq_refl _ PointDemo.point_encoded _ _ eq_refl eq_refl)))).
  - unfold point_fits. cbn. lia.
  - unfold user_of. rewrite Ht. cbn [th_hist]. change (cs_incarnation PointDemo.system) with ChannelDemo.incarnation.
    rewrite PointDemo.point_published. by left.
  - rewrite Ht, PointDemo.point_read. by left.
Defined.
