(* ===== verification/ChannelProgress.v ===== *)
(** Progress of a channel.

    Publishing, lending and reading make a bounded number of shared-memory accesses
    and system calls, whatever the other side does and wherever it has stopped: they
    are wait-free. So is the part of an opening that takes the consumer's place. *)
From S2P Require Import Prelude Errors CheckedMath Prog ProcIdentity ShmObject Clock ChannelLayout.
From S2P Require Import ChannelSegment SlotProtocol ChannelAbi ControlLock Producer Consumer ConsumerOpen.

(** * Bounds on the parts *)

Lemma boottime_depth {L} : @tree_depth L _ 1 boottime_now_ns.
Proof. unfold boottime_now_ns, clock_ns_or_zero. solve_depth. Qed.
#[global] Hint Resolve boottime_depth : depth_db.

Lemma identity_snapshot_depth {L} (abi : ident_field -> L) :
  tree_depth 48 (identity_snapshot_read abi).
Proof.
  unfold identity_snapshot_read. change 48%nat with (6 * kIdentitySnapshotRetries)%nat.
  generalize kIdentitySnapshotRetries as n. intros n.
  induction n as [|n IH]; cbn [identity_snapshot_loop]; solve_depth.
Qed.
Lemma identity_write_depth {L} (abi : ident_field -> L) snap :
  tree_depth 7 (identity_snapshot_write abi snap).
Proof. unfold identity_snapshot_write. solve_depth. Qed.
#[global] Hint Resolve identity_snapshot_depth identity_write_depth : depth_db.

Lemma exchange_depth flag : tree_depth 1 (exchange_true flag).
Proof. unfold exchange_true. solve_depth. Qed.
#[global] Hint Resolve exchange_depth : depth_db.

Lemma with_use_depth {A} n flag op (body : cprog (Result A)) :
  tree_depth n body -> tree_depth (n + 2) (with_use flag op body).
Proof.
  intros Hb. unfold with_use. eapply tree_depth_seq; [apply exchange_depth|lia|]. intros [].
  - apply tree_depth_ret.
  - eapply tree_depth_seq; [exact Hb|lia|]. intros r. solve_depth.
Qed.

Lemma slot_mark_reading_depth base slot epoch :
  @tree_depth chloc _ 2 (slot_mark_reading base slot epoch).
Proof. unfold slot_mark_reading. solve_depth. Qed.
Lemma slot_release_read_depth base slot : @tree_depth chloc _ 2 (slot_release_read base slot).
Proof. unfold slot_release_read. solve_depth. Qed.
Lemma slot_claim_readable_depth base slot : @tree_depth chloc _ 1 (slot_claim_readable base slot).
Proof. apply tree_depth_trigger. Qed.
Lemma slot_claim_writable_depth base slot v :
  @tree_depth chloc _ 1 (slot_claim_writable base slot v).
Proof. apply tree_depth_trigger. Qed.
Lemma slot_publish_depth base slot : @tree_depth chloc _ 1 (slot_publish base slot).
Proof. apply tree_depth_trigger. Qed.
Lemma slot_abort_depth base slot : @tree_depth chloc _ 1 (slot_abort_write base slot).
Proof. apply tree_depth_trigger. Qed.
#[global] Hint Resolve slot_mark_reading_depth slot_release_read_depth slot_claim_readable_depth
  slot_claim_writable_depth slot_publish_depth slot_abort_depth : depth_db.

Lemma payload_length base n slot : length (payload_locs base n slot) = Z.to_nat n.
Proof. unfold payload_locs, slot_payload_locs. by rewrite !length_map, length_seq. Qed.
Lemma load_payload_depth base n slot :
  tree_depth (Z.to_nat n) (load_list (payload_locs base n slot)).
Proof. rewrite <- (payload_length base n slot). apply tree_depth_load_list. Qed.
Lemma store_payload_depth base n slot bytes :
  tree_depth (Z.to_nat n) (store_list (zip (payload_locs base n slot) bytes)).
Proof.
  eapply tree_depth_mono; [|apply tree_depth_store_list].
  rewrite length_zip_with, payload_length. lia.
Qed.
#[global] Hint Resolve load_payload_depth store_payload_depth : depth_db.

(** * The producer *)

Lemma verify_depth handle op : tree_depth 54 (verify_handle_ownership handle op).
Proof. unfold verify_handle_ownership. solve_depth. Qed.
#[global] Hint Resolve verify_depth : depth_db.

Lemma choose_slot_depth base stride current slots :
  tree_depth (2 * length slots) (choose_slot base stride current slots).
Proof.
  induction slots as [|i slots IH]; cbn [choose_slot length]; [apply tree_depth_ret|].
  pose proof (fun n H => tree_depth_mono _ n _ H IH) as IH'. repeat case_match; try (apply IH'; lia).
  solve_depth.
Qed.
Lemma choose_slot_depth_all base stride current :
  tree_depth 6 (choose_slot base stride current slot_indices).
Proof. apply (choose_slot_depth base stride current slot_indices). Qed.
Lemma announce_depth base q slot ns : tree_depth 5 (announce_sample base q slot ns).
Proof. unfold announce_sample. solve_depth. Qed.
#[global] Hint Resolve choose_slot_depth_all announce_depth : depth_db.

Lemma publish_depth handle encoded :
  tree_depth (74 + length encoded) (producer_publish_impl handle encoded).
Proof.
  replace (74 + length encoded)%nat with (72 + Z.to_nat (Z.of_nat (length encoded)) + 2)%nat by lia.
  apply with_use_depth. unfold publish_unlocked. solve_depth.
Qed.
Lemma loan_unlocked_depth handle : tree_depth 61 (loan_unlocked handle).
Proof. unfold loan_unlocked. solve_depth. Qed.
#[global] Hint Resolve loan_unlocked_depth : depth_db.
Lemma loan_depth handle : tree_depth 63 (producer_loan_impl handle).
Proof. unfold producer_loan_impl. solve_depth. Qed.
Lemma heartbeat_depth handle : tree_depth 58 (producer_heartbeat_impl handle).
Proof. apply (with_use_depth 56). unfold heartbeat_unlocked. solve_depth. Qed.

(** Without a socket there is nothing to unlink under the control lock. *)
Lemma mark_producer_offline_depth handle :
  pd_transport handle = tr_kPosixShm -> tree_depth 50 (mark_producer_offline handle).
Proof.
  intros Ht. unfold mark_producer_offline. rewrite Ht.
  change (bool_decide (tr_kPosixShm = tr_kMemfdFdPass)) with false. cbn [negb orb]. solve_depth.
Qed.
Lemma release_producer_depth handle :
  pd_transport handle = tr_kPosixShm -> tree_depth 55 (release_producer_loan_operation handle).
Proof.
  intros Ht. pose proof (mark_producer_offline_depth handle Ht).
  unfold release_producer_loan_operation, service_producer_shutdown.
  solve_depth.
Qed.

Definition posix_loan (loan : WriteLoan) : bool :=
  match wl_handle loan with
  | Some handle => bool_decide (pd_transport handle = tr_kPosixShm)
  | None => true
  end.

Lemma commit_depth loan :
  posix_loan loan = true ->
  tree_depth (120 + Z.to_nat (wl_size loan)) (producer_commit_loan_impl loan).
Proof.
  unfold posix_loan. intros Ht. unfold producer_commit_loan_impl.
  destruct (wl_handle loan) as [handle|], (wl_slot loan), (wl_active loan); try apply tree_depth_ret.
  apply bool_decide_eq_true in Ht. pose proof (release_producer_depth handle Ht). solve_depth.
Qed.
Lemma abort_depth loan :
  posix_loan loan = true -> tree_depth 56 (producer_abort_loan_impl loan).
Proof.
  unfold posix_loan. intros Ht. unfold producer_abort_loan_impl.
  destruct (wl_handle loan) as [handle|], (wl_active loan); try apply tree_depth_ret.
  apply bool_decide_eq_true in Ht. pose proof (release_producer_depth handle Ht).
  destruct (wl_slot loan); solve_depth.
Qed.

(** * The consumer *)

Lemma mark_consumer_offline_depth handle : tree_depth 49 (mark_consumer_offline handle).
Proof. unfold mark_consumer_offline. solve_depth. Qed.
#[global] Hint Resolve mark_consumer_offline_depth : depth_db.
Lemma service_consumer_depth handle : tree_depth 53 (service_consumer_shutdown handle).
Proof. unfold service_consumer_shutdown. solve_depth. Qed.
#[global] Hint Resolve service_consumer_depth : depth_db.
Lemma release_consumer_depth handle : tree_depth 54 (release_consumer_loan_operation handle).
Proof. unfold release_consumer_loan_operation. solve_depth. Qed.
#[global] Hint Resolve release_consumer_depth : depth_db.

(** The payload is read only when its size is the one of the handle. *)
Lemma read_claimed_depth handle op slot :
  tree_depth (12 + Z.to_nat (cd_payload_size handle)) (read_claimed_slot handle op slot).
Proof.
  unfold read_claimed_slot. eapply tree_depth_seq; [apply tree_depth_trigger|lia|]. intros size.
  destruct (Z.eqb_spec size (cd_payload_size handle)) as [->|]; cbn [negb]; solve_depth.
Qed.
#[global] Hint Resolve read_claimed_depth : depth_db.

Lemma claim_loop_depth handle op stride n :
  tree_depth (9 * n + 12 + Z.to_nat (cd_payload_size handle)) (claim_latest_loop handle op stride n).
Proof. induction n as [|n IH]; cbn [claim_latest_loop]; [apply tree_depth_ret|solve_depth]. Qed.
Lemma claim_depth handle op :
  tree_depth (84 + Z.to_nat (cd_payload_size handle)) (claim_latest_unlocked handle op).
Proof.
  unfold claim_latest_unlocked. case_match; [apply (claim_loop_depth handle op _ 8)|apply tree_depth_ret].
Qed.
#[global] Hint Resolve claim_depth : depth_db.

(** A claimed sample has the size of the handle's payload. *)
Definition sized (handle : ConsumerHandle) (r : Result ClaimedRead) : Prop :=
  match r with
  | Ok claimed => rs_encoded_size (cr_snapshot claimed) = cd_payload_size handle
  | Err _ => True
  end.

Lemma read_claimed_sized handle op slot : leaves (sized handle) (read_claimed_slot handle op slot).
Proof.
  unfold read_claimed_slot. apply leaves_bind_any. intros size. repeat (apply leaves_bind_any; intros ?).
  destruct (Z.eqb_spec size (cd_payload_size handle)) as [->|]; cbn [negb];
    repeat first [apply leaves_bind_any; intros ?|case_match]; done.
Qed.
Lemma claim_sized handle op : leaves (sized handle) (claim_latest_unlocked handle op).
Proof.
  unfold claim_latest_unlocked. case_match; [|done]. generalize kMaxReadRetries as n. intros n.
  induction n as [|n IH]; cbn [claim_latest_loop]; [done|].
  repeat first [apply read_claimed_sized|exact IH|apply leaves_bind_any; intros ?|case_match]; done.
Qed.

Lemma try_read_depth handle cap :
  tree_depth (88 + 2 * Z.to_nat (cd_payload_size handle)) (consumer_try_read_latest_impl handle cap).
Proof.
  replace (88 + _)%nat with (86 + 2 * Z.to_nat (cd_payload_size handle) + 2)%nat by lia.
  apply with_use_depth. unfold try_read_latest_unlocked.
  eapply tree_depth_seq_leaves; [apply claim_depth|apply claim_sized|lia|].
  intros [claimed|e] Hs; cbn [sized] in Hs; [|apply tree_depth_ret]. cbv zeta. rewrite Hs. solve_depth.
Qed.
Lemma try_loan_depth handle :
  tree_depth (139 + Z.to_nat (cd_payload_size handle)) (consumer_try_loan_latest_impl handle).
Proof. unfold consumer_try_loan_latest_impl. solve_depth. Qed.
Lemma release_loan_depth loan : tree_depth 56 (consumer_release_loan_impl loan).
Proof. unfold consumer_release_loan_impl. solve_depth. Qed.

(** * Taking the consumer's place *)

Lemma reclaim_depth base epoch payload_size :
  tree_depth 12 (reclaim_dead_consumer_slots base epoch payload_size).
Proof.
  unfold reclaim_dead_consumer_slots. case_match; [|apply tree_depth_ret].
  change 12%nat with (4 * length slot_indices)%nat. generalize slot_indices as slots. intros slots.
  induction slots as [|i slots IH]; cbn [reclaim_slots length]; [apply tree_depth_ret|solve_depth].
Qed.
Lemma init_handle_depth id : tree_depth 5 (init_consumer_handle id).
Proof. eapply tree_depth_mono; [|apply tree_depth_store_list]. done. Qed.
#[global] Hint Resolve init_handle_depth : depth_db.
Lemma install_depth id base self : tree_depth 13 (install_consumer id base self).
Proof. unfold install_consumer. solve_depth. Qed.
#[global] Hint Resolve reclaim_depth install_depth : depth_db.
Lemma take_place_depth id base payload_size self :
  tree_depth 102 (take_consumer_place id base payload_size self).
Proof.
  unfold take_consumer_place. apply (tree_depth_seq 89); [|lia|intros r; solve_depth].
  unfold take_over_consumer. solve_depth.
Qed.

(** C38: the channel operations are wait-free. Whatever the other threads and
    processes do to the segment, whatever the kernel answers and wherever others have
    crashed, these calls return within the given number of accesses and system calls:
    [publish], [loan], [heartbeat], [try_read_latest], [try_loan_latest], the release of a
    read loan and, inside an opening, the taking of the consumer's place, which probes the
    previous one and reclaims its slots; and the commit and the abort of a write loan of a
    channel on POSIX shared memory ([posix_loan]). No bound is given for those of a
    descriptor-passing channel: a shutdown that waited for the loan is carried out by them
    and then takes the control lock and reads the journal to unlink the socket. *)
Theorem channel_wait_free producer encoded wloan consumer cap rloan id base payload_size self :
  posix_loan wloan = true ->
  tree_depth (74 + length encoded) (producer_publish_impl producer encoded) /\
  tree_depth 63 (producer_loan_impl producer) /\
  tree_depth (120 + Z.to_nat (wl_size wloan)) (producer_commit_loan_impl wloan) /\
  tree_depth 56 (producer_abort_loan_impl wloan) /\
  tree_depth 58 (producer_heartbeat_impl producer) /\
  tree_depth (88 + 2 * Z.to_nat (cd_payload_size consumer)) (consumer_try_read_latest_impl consumer cap) /\
  tree_depth (139 + Z.to_nat (cd_payload_size consumer)) (consumer_try_loan_latest_impl consumer) /\
  tree_depth 56 (consumer_release_loan_impl rloan) /\
  tree_depth 102 (take_consumer_place id base payload_size self).
Proof.
  intros Hl. repeat split.
  - apply publish_depth.
  - apply loan_depth.
  - by apply commit_depth.
  - by apply abort_depth.
  - apply heartbeat_depth.
  - apply try_read_depth.
  - apply try_loan_depth.
  - apply release_loan_depth.
  - apply take_place_depth.
Qed.

Module WaitFreeDemo.
Definition producer : ProducerHandle :=
  mkProducerHandle 0 (mkShmObject "/demo" 3 1 2 4096) "demo" 1 2 11 12 (mkSchema [] 1) 4
    (mkIdentity 100 7 5 9) tr_kPosixShm 0 "" (-1) 0.
Definition consumer : ConsumerHandle :=
  mkConsumerHandle 0 (mkShmObject "/demo" 4 1 2 4096) "demo" tr_kPosixShm 1 2 11 12 (mkSchema [] 1) 4
    (mkIdentity 200 7 5 9) 100.
Definition loan : WriteLoan := mkWriteLoan (Some producer) (Some 0) (Some 0) 4 0 1 true.
Definition read_loan : ReadLoan :=
  mkReadLoan (Some consumer) (Some 0) (Some 0) 4 1 [] 1 5 6 0 true.
End WaitFreeDemo.

Lemma channel_wait_free_witness :
  posix_loan WaitFreeDemo.loan = true /\
  tree_depth 124 (producer_commit_loan_impl WaitFreeDemo.loan).
Proof.
  split; [reflexivity|].
  exact (proj1 (proj2 (proj2 (channel_wait_free WaitFreeDemo.producer [] WaitFreeDemo.loan
    WaitFreeDemo.consumer 4 WaitFreeDemo.read_loan 0 (Obj 1 2) 4 (mkIdentity 300 7 5 9) eq_refl)))).
Defined.
