(* ===== verification/ChannelFrames.v ===== *)
(** What the administration of a channel writes: opening, observing and requesting a
    descriptor write nothing before the control lock is taken; creating writes the
    journal, the new object and the new handle. *)
From S2P Require Import Prelude Errors CheckedMath Checksum Prog ProcIdentity ShmObject Clock.
From S2P Require Import ChannelLayout ChannelSegment ChannelAbi ControlLock Producer Consumer FdBroker.
From S2P Require Import ProducerCreate ConsumerOpen Observer.

(** ** Objects and files *)

#[global] Hint Extern 0 (readonly (lift _)) => exact I : prog_db.

Lemma file_pread_readonly {L} fuel op fd size offset got :
  @readonly L _ (pread_loop fuel op fd size offset got).
Proof. revert got. induction fuel as [|n IH]; intros got; cbn [pread_loop]; solve_readonly. Qed.
Lemma pwrite_loop_readonly {L} fuel op fd size offset written :
  @readonly L _ (pwrite_loop fuel op fd size offset written).
Proof. revert written. induction fuel as [|n IH]; intros w; cbn [pwrite_loop]; solve_readonly. Qed.
#[global] Hint Resolve file_pread_readonly pwrite_loop_readonly : prog_db.
Lemma pread_full_readonly {L} fd size offset : @readonly L _ (pread_full fd size offset).
Proof. unfold pread_full. solve_readonly. Qed.
Lemma load_bootstrap_readonly {L} (base : cloc -> L) : readonly (load_bootstrap base).
Proof. unfold load_bootstrap. solve_readonly. Qed.
Lemma memfd_fstat_readonly {L} fd : @readonly L _ (memfd_fstat_and_capture fd).
Proof. unfold memfd_fstat_and_capture, bounded_fstat. solve_readonly. Qed.
Lemma shm_open_existing_readonly {L} name : @readonly L _ (shm_open_existing name).
Proof. unfold shm_open_existing. solve_readonly. Qed.
Lemma shm_open_create_readonly {L} name : @readonly L _ (shm_open_create name).
Proof. unfold shm_open_create. solve_readonly. Qed.
Lemma shm_truncate_readonly {L} fd size : @readonly L _ (shm_truncate fd size).
Proof. unfold shm_truncate. solve_readonly. Qed.
Lemma mmap_region_writes_nothing {L} fd size : @readonly L _ (mmap_region fd size).
Proof. unfold mmap_region. solve_readonly. Qed.
Lemma mmap_readonly_writes_nothing {L} fd size : @readonly L _ (mmap_region_readonly fd size).
Proof. unfold mmap_region_readonly. solve_readonly. Qed.
#[global] Hint Resolve pread_full_readonly load_bootstrap_readonly memfd_fstat_readonly
  shm_open_existing_readonly shm_open_create_readonly shm_truncate_readonly
  mmap_region_writes_nothing mmap_readonly_writes_nothing : prog_db.
Lemma header_shape_readonly {L} (base : cloc -> L) : readonly (validate_header_shape base).
Proof. unfold validate_header_shape. solve_readonly. Qed.
#[global] Hint Resolve header_shape_readonly validate_header_parse_readonly : prog_db.
Lemma boot_id_readonly {L} : @readonly L _ current_boot_id_hash.
Proof. unfold current_boot_id_hash. solve_readonly. Qed.
#[global] Hint Resolve boot_id_readonly : prog_db.
Lemma self_readonly {L} : @readonly L _ read_current_process_identity.
Proof. unfold read_current_process_identity. solve_readonly. Qed.
Lemma lock_acquire_readonly {L} path : @readonly L _ (control_lock_acquire path).
Proof. unfold control_lock_acquire. solve_readonly. Qed.
Lemma lock_release_readonly {L} lock : @readonly L _ (control_lock_release lock).
Proof. unfold control_lock_release. solve_readonly. Qed.
Lemma file_journal_readonly lock : readonly (read_journal lock).
Proof. unfold read_journal. solve_readonly. Qed.
Lemma shm_name_readonly {L} name : @readonly L _ (channel_shm_name name).
Proof. unfold channel_shm_name. solve_readonly. Qed.
Lemma lock_path_readonly {L} name : @readonly L _ (channel_lock_path name).
Proof. unfold channel_lock_path. solve_readonly. Qed.
Lemma socket_path_readonly {L} name : @readonly L _ (channel_socket_path name).
Proof. unfold channel_socket_path. solve_readonly. Qed.
#[global] Hint Resolve self_readonly lock_acquire_readonly lock_release_readonly
  file_journal_readonly shm_name_readonly lock_path_readonly socket_path_readonly : prog_db.

(** ** The client of the broker *)

Lemma budget_readonly b : readonly (budget_available b).
Proof. unfold budget_available. solve_readonly. Qed.
#[global] Hint Resolve budget_readonly : prog_db.
Lemma wait_socket_readonly n fd events b : readonly (wait_socket n fd events b).
Proof. induction n as [|n IH]; cbn [wait_socket]; solve_readonly. Qed.
Lemma retry_pause_loop_readonly n until b : readonly (retry_pause_loop n until b).
Proof. induction n as [|n IH]; cbn [retry_pause_loop]; solve_readonly. Qed.
#[global] Hint Resolve wait_socket_readonly retry_pause_loop_readonly : prog_db.
Lemma retry_pause_readonly n b : readonly (retry_pause n b).
Proof. unfold retry_pause. solve_readonly. Qed.
Lemma send_full_readonly n fd buf b : readonly (send_full n fd buf b).
Proof. revert buf. induction n as [|n IH]; intros [|x buf]; cbn [send_full]; solve_readonly. Qed.
Lemma take_fds_readonly r fds : readonly (take_fds r fds).
Proof. revert r. induction fds as [|x fds IH]; intros r; cbn [take_fds]; solve_readonly. Qed.
#[global] Hint Resolve retry_pause_readonly send_full_readonly take_fds_readonly : prog_db.
Lemma take_control_readonly r n v control : readonly (take_control r n v control).
Proof. revert r n v. induction control as [|x control IH]; intros r n v; cbn [take_control]; solve_readonly. Qed.
#[global] Hint Resolve take_control_readonly : prog_db.
Lemma receive_reply_readonly n fd b : readonly (receive_reply n fd b).
Proof. induction n as [|n IH]; cbn [receive_reply]; solve_readonly. Qed.
Lemma connect_readonly n fd path b : readonly (connect_socket n fd path b).
Proof. unfold connect_socket. solve_readonly. Qed.
Lemma accept_reply_readonly r fd b : readonly (accept_reply r fd b).
Proof. unfold accept_reply. solve_readonly. Qed.
#[global] Hint Resolve receive_reply_readonly connect_readonly accept_reply_readonly : prog_db.
Lemma exchange_readonly n path r b : readonly (exchange_once n path r b).
Proof. unfold exchange_once. solve_readonly. Qed.
#[global] Hint Resolve exchange_readonly : prog_db.
Lemma request_loop_readonly k n path r b retry : readonly (request_loop k n path r b retry).
Proof. induction k as [|k IH]; cbn [request_loop]; solve_readonly. Qed.
#[global] Hint Resolve request_loop_readonly : prog_db.
Lemma request_until_readonly n path hash schema ro deadline retry :
  readonly (fd_broker_request_fd_until n path hash schema ro deadline retry).
Proof. unfold fd_broker_request_fd_until. solve_readonly. Qed.
#[global] Hint Resolve request_until_readonly : prog_db.
Lemma request_fd_readonly n path hash schema ro retry :
  readonly (fd_broker_request_fd n path hash schema ro retry).
Proof. unfold fd_broker_request_fd. solve_readonly. Qed.
#[global] Hint Resolve request_fd_readonly : prog_db.

Lemma live_peer_readonly path : readonly (socket_has_live_peer path).
Proof. unfold socket_has_live_peer. solve_readonly. Qed.
Lemma unlink_socket_readonly path : readonly (unlink_socket path).
Proof. unfold unlink_socket. solve_readonly. Qed.
Lemma bound_socket_readonly fd path : readonly (open_bound_socket fd path).
Proof. unfold open_bound_socket. solve_readonly. Qed.
#[global] Hint Resolve live_peer_readonly unlink_socket_readonly bound_socket_readonly : prog_db.
Lemma broker_bind_readonly path : readonly (fd_broker_bind path).
Proof. unfold fd_broker_bind. solve_readonly. Qed.
#[global] Hint Resolve broker_bind_readonly : prog_db.

(** ** Opening and observing *)

Lemma open_object_readonly n options schema shm_name path hash :
  readonly (open_object n options schema shm_name path hash).
Proof. unfold open_object. solve_readonly. Qed.
Lemma check_object_readonly schema ps self fd dev ino size :
  readonly (check_object schema ps self fd dev ino size).
Proof. unfold check_object. solve_readonly. Qed.
Lemma confirm_object_readonly name reply dev ino : readonly (confirm_object name reply dev ino).
Proof. unfold confirm_object. solve_readonly. Qed.
#[global] Hint Resolve open_object_readonly check_object_readonly confirm_object_readonly : prog_db.

Lemma observer_object_readonly n name tr deadline retry :
  readonly (observer_open_object n name tr deadline retry).
Proof. unfold observer_open_object. solve_readonly. Qed.
Lemma observer_mapping_readonly size boot reply base :
  readonly (observer_check_mapping size boot reply base).
Proof. unfold observer_check_mapping. solve_readonly. Qed.
#[global] Hint Resolve observer_object_readonly observer_mapping_readonly : prog_db.
Lemma open_once_readonly n name tr deadline retry : readonly (open_once n name tr deadline retry).
Proof. unfold open_once. solve_readonly. Qed.
#[global] Hint Resolve open_once_readonly : prog_db.
Lemma open_loop_readonly k n name tr retry deadline :
  readonly (open_readonly_loop k n name tr retry deadline).
Proof. induction k as [|k IH]; cbn [open_readonly_loop]; solve_readonly. Qed.
#[global] Hint Resolve open_loop_readonly : prog_db.
Lemma observer_readonly n name tr retry : readonly (open_channel_readonly n name tr retry).
Proof. unfold open_channel_readonly. solve_readonly. Qed.
Lemma classify_stall_readonly base now p ticks : readonly (classify_stall base now p ticks).
Proof. unfold classify_stall. solve_readonly. Qed.
#[global] Hint Resolve observer_readonly classify_stall_readonly : prog_db.

(** ** The parts of creating that write nothing *)

Lemma check_old_producer_readonly base : readonly (check_old_producer base).
Proof. unfold check_old_producer. solve_readonly. Qed.
#[global] Hint Resolve check_old_producer_readonly : prog_db.
Lemma retire_existing_readonly j name fd : readonly (retire_existing j name fd).
Proof. unfold retire_existing. solve_readonly. Qed.
Lemma check_transport_readonly options j : readonly (check_previous_transport options j).
Proof. unfold check_previous_transport. solve_readonly. Qed.
#[global] Hint Resolve retire_existing_readonly check_transport_readonly : prog_db.
Lemma choose_generation_readonly options j name : readonly (choose_generation options j name).
Proof. unfold choose_generation. solve_readonly. Qed.
Lemma reconcile_pre_readonly name : readonly (reconcile_pre_object name).
Proof. unfold reconcile_pre_object. solve_readonly. Qed.
Lemma reconcile_object_readonly j reset name : readonly (reconcile_object j reset name).
Proof. unfold reconcile_object. solve_readonly. Qed.
Lemma reconcile_removing_readonly j name : readonly (reconcile_removing j name).
Proof. unfold reconcile_removing. solve_readonly. Qed.
Lemma memfd_create_readonly name : readonly (memfd_create_object name).
Proof. unfold memfd_create_object. solve_readonly. Qed.
#[global] Hint Resolve choose_generation_readonly reconcile_pre_readonly reconcile_object_readonly
  reconcile_removing_readonly memfd_create_readonly : prog_db.

(** ** The journal and the identities *)

Section Writes.
Context (W : chloc -> Prop).

Lemma journal_loop_writes fuel op lock stores written :
  Forall (fun lv => W lv.1) stores -> writes_in W (journal_write_loop fuel op lock stores written).
Proof.
  revert stores written. induction fuel as [|n IH]; intros stores written Hs;
    cbn [journal_write_loop]; solve_writes; try done.
  - apply store_list_writes_in. by apply Forall_take.
  - apply IH. by apply Forall_drop.
Qed.

Lemma write_journal_writes lock j :
  (forall i, W (Jrn (cl_path lock) i)) -> writes_in W (write_journal lock j).
Proof.
  intros HJ. unfold write_journal. solve_writes. apply journal_loop_writes.
  apply Forall_forall. intros [l v] Hl. apply elem_of_zip_l in Hl. unfold journal_locs in Hl.
  apply list_elem_of_fmap in Hl as (i & -> & _). apply HJ.
Qed.

Lemma identity_write_writes abi snap :
  (forall f, W (abi f)) -> writes_in W (identity_snapshot_write abi snap).
Proof. intros HW. unfold identity_snapshot_write. solve_writes; (split; [apply HW|done]). Qed.
End Writes.
