(* ===== verification/ChannelCreate.v ===== *)
(** Creating and opening a channel: what [producer_create_impl] and then
    [consumer_open_impl] leave in memory is the state that the runs of a channel start
    from. *)
From S2P Require Import Prelude Errors CheckedMath Checksum Prog SeqLogic Concur ProcIdentity OwnerSnapshot.
From S2P Require Import ShmObject Clock ChannelLayout ChannelSegment SlotProtocol ChannelAbi ControlLock.
From S2P Require Import Producer Consumer FdBroker ProducerCreate ConsumerOpen ChannelProtocol.
From S2P Require Import ChannelHolds ChannelRuns ChannelFrames.

(** ** Fallible programs *)

(** What holds after a success. *)
Definition okp {A} (P : A -> (chloc -> Z) -> Prop) (r : Result A) (m : chloc -> Z) : Prop :=
  match r with Ok x => P x m | Err _ => True end.

Lemma swp_try {A B} (p : cprog (Result A)) (f : A -> cprog (Result B)) P1 P m :
  swp p (okp P1) m -> (forall x m', P1 x m' -> swp (f x) (okp P) m') ->
  swp (bind p (fun r => match r with Ok x => f x | Err e => Ret (Err e) end)) (okp P) m.
Proof. intros Hp Hf. eapply swp_seq; [exact Hp|]. intros [x|e] m' Hx; [by apply Hf|done]. Qed.

(** A first part of which nothing is needed. *)
Lemma swp_try_any {A B} (p : cprog (Result A)) (f : A -> cprog (Result B)) P m :
  (forall x m', swp (f x) (okp P) m') ->
  swp (bind p (fun r => match r with Ok x => f x | Err e => Ret (Err e) end)) (okp P) m.
Proof. intros Hf. apply (swp_try _ _ (fun _ _ => True)); [|auto]. apply swp_any. by intros [x|e]. Qed.

(** ** The new object *)

(** The locations of an object that stay zero from its creation until its first use. *)
Definition blank_loc (l : cloc) : Prop :=
  match l with
  | Head ch_latest_ticket | Head ch_consumer_state | Ident r_consumer _ => True
  | SlotState k | SlotReader k | SlotSequence k => is_slot k
  | _ => False
  end.

Record blank (dev ino ps : Z) (m : chloc -> Z) : Prop := {
  bl_zero : forall l, blank_loc l -> m (Obj dev ino l) = 0;
  bl_payload : m (Obj dev ino (Head ch_payload_size)) = ps
}.

(** What must not be written for an object to stay blank. *)
Definition spares (dev ino : Z) (l : chloc) : Prop :=
  match l with
  | Obj d i l => d = dev -> i = ino -> ~ blank_loc l /\ l <> Head ch_payload_size
  | _ => True
  end.

Lemma blank_frame dev ino ps {A} (p : cprog A) m :
  writes_in (spares dev ino) p -> blank dev ino ps m -> swp p (fun _ => blank dev ino ps) m.
Proof.
  intros Hp [Hz Hps]. eapply swp_mono; [by apply swp_frame|]. intros a m' Hm. split.
  - intros l Hl. rewrite Hm; [by apply Hz|]. intros HW. exact (proj1 (HW eq_refl eq_refl) Hl).
  - rewrite Hm; [done|]. intros HW. by apply (proj2 (HW eq_refl eq_refl)).
Qed.

Lemma is_slot_index k : is_slot k <-> k ∈ slot_indices.
Proof. unfold is_slot, kSlotCount, slot_indices. rewrite !elem_of_cons, elem_of_nil. lia. Qed.

Lemma blank_in_body ps l : blank_loc l -> l ∈ body_locs ps.
Proof.
  unfold body_locs. rewrite elem_of_app.
  assert (forall k l, is_slot k -> l ∈ slot_locs ps k ->
    l ∈ head_locs \/ l ∈ concat (map (slot_locs ps) slot_indices)) as Hslot.
  { intros k l' Hk Hl. right. apply list_elem_of_In, in_concat. exists (slot_locs ps k).
    split; [|by apply list_elem_of_In]. apply in_map. by apply list_elem_of_In, is_slot_index. }
  destruct l as [| | | |f| | |r f| |k|k|k|k|k|k| | ]; simpl; try done.
  - intros Hf. left. unfold head_locs. rewrite !elem_of_app. right; left.
    apply list_elem_of_fmap. exists f. split; [done|]. destruct f; apply (bool_decide_unpack _); vm_compute; exact I.
  - destruct r; [done|]. intros _. left. unfold head_locs, ident_locs. rewrite !elem_of_app.
    do 5 right. left. apply list_elem_of_fmap. exists f. split; [done|].
    destruct f; apply (bool_decide_unpack _); vm_compute; exact I.
  - intros Hk. apply (Hslot k); [done|]. unfold slot_locs. rewrite elem_of_app, !elem_of_cons. tauto.
  - intros Hk. apply (Hslot k); [done|]. unfold slot_locs. rewrite elem_of_app, !elem_of_cons. tauto.
  - intros Hk. apply (Hslot k); [done|]. unfold slot_locs. rewrite elem_of_app, !elem_of_cons. tauto.
Qed.

(** The stores of the code that spare a blank object. *)
Ltac spared := intros; simpl; try done; try (split; [|discriminate]; tauto).

Lemma list_stores_spare dev ino ls vs :
  (forall l, l ∈ ls -> spares dev ino l) -> writes_in (spares dev ino) (store_list (zip ls vs)).
Proof.
  intros Hl. apply store_list_writes_in, Forall_forall. intros [l v] Hin. apply Hl.
  by eapply elem_of_zip_l.
Qed.

Lemma init_header_blank dev ino schema ps minor mapping gen hi lo interval m :
  swp (init_channel_header (Obj dev ino) schema ps minor mapping gen hi lo interval)
    (fun _ => blank dev ino ps) m.
Proof.
  unfold init_channel_header. rewrite <- (map_map (Obj dev ino) (fun l => (l, 0))).
  eapply swp_seq; [apply swp_zero|]. cbv beta. intros _ m1 [Hz _].
  assert (forall l, blank_loc l -> m1 (Obj dev ino l) = 0) as H1.
  { intros l Hl. apply Hz. apply list_elem_of_fmap. exists l. split; [done|]. by apply blank_in_body. }
  clear Hz. eapply swp_seq.
  { apply (swp_frame (spares dev ino)). apply list_stores_spare. intros l Hl.
    apply list_elem_of_fmap in Hl as (i & -> & _). spared. }
  cbv beta. intros _ m2 H2. cbn [bind plain_store trigger swp sev].
  apply blank_frame.
  - apply writes_in_bind; [|intros _; unfold plain_store, trigger; repeat (split; [spared|intros ?]); done].
    apply list_stores_spare. intros l Hl. apply list_elem_of_fmap in Hl as (i & -> & _). spared.
  - split; [|by upd_simpl]. intros l Hl.
    rewrite !upd_ne by (intros [= ->]; done). rewrite H2; [by apply H1|].
    intros HW. exact (proj1 (HW eq_refl eq_refl) Hl).
Qed.

Lemma blank_seq {A B} dev ino ps (p : cprog A) (f : A -> cprog B) Q m :
  blank dev ino ps m -> writes_in (spares dev ino) p ->
  (forall a m', blank dev ino ps m' -> swp (f a) Q m') -> swp (bind p f) Q m.
Proof. intros Hm Hp Hf. eapply swp_seq; [by eapply blank_frame|]. auto. Qed.

Lemma initialise_blank lock options schema ps self path record fd dev ino gen hi lo m :
  swp (initialise_object lock options schema ps self path record fd dev ino gen hi lo)
    (okp (fun _ => blank dev ino ps)) m.
Proof.
  unfold initialise_object. apply swp_try_any. intros ? m1.
  destruct (mapping_size_for_payload ps) as [mapping|]; [|done].
  do 3 (apply swp_try_any; intros ? ?). eapply swp_seq; [apply init_header_blank|]. intros ? m2 Hm.
  eapply blank_seq; [exact Hm|by apply identity_write_writes; spared|]. intros [epoch|e] m3 Hm3; [|done].
  eapply blank_seq; [exact Hm3|by split; [spared|]|]. intros ? m4 Hm4.
  eapply blank_seq; [exact Hm4|by split; [spared|]|]. intros ? m5 Hm5.
  eapply blank_seq; [exact Hm5|by solve_writes|]. intros [lfd|e] m6 Hm6; [|done].
  eapply blank_seq; [exact Hm6|by split; [spared|]|]. intros ? m7 Hm7.
  eapply blank_seq; [exact Hm7|by split; [spared|]|]. intros ? m8 Hm8.
  eapply blank_seq; [exact Hm8|by apply write_journal_writes|]. intros [[]|e] m9 Hm9; [done|].
  eapply swp_seq; [by apply (swp_any _ (fun _ _ => True))|]. done.
Qed.

(** ** Creating *)

(** The fields of consumers' handles are not the producer's business. *)
Definition not_consumer (l : chloc) : Prop := match l with CHnd _ _ => False | _ => True end.

Lemma journal_not_consumer lock j : writes_in not_consumer (write_journal lock j).
Proof. by apply write_journal_writes. Qed.
#[local] Hint Resolve journal_not_consumer : prog_db.
Lemma undo_not_consumer lock created reset : writes_in not_consumer (undo_create lock created reset).
Proof. unfold undo_create. solve_writes. Qed.
Lemma create_journal_not_consumer lock options name hash :
  writes_in not_consumer (create_journal lock options name hash).
Proof. unfold create_journal, reconcile_stale_journal. solve_writes. Qed.
Lemma create_object_not_consumer lock options name j :
  writes_in not_consumer (create_object lock options name j).
Proof. unfold create_object. solve_writes. Qed.
#[local] Hint Resolve undo_not_consumer create_journal_not_consumer create_object_not_consumer : prog_db.

Lemma stores_not_consumer {A} (f : A -> chloc * Z) ls :
  (forall x, not_consumer (f x).1) -> writes_in not_consumer (store_list (map f ls)).
Proof. intros Hf. apply store_list_writes_in, Forall_forall. intros x Hx.
  apply list_elem_of_fmap in Hx as (y & -> & _). apply Hf. Qed.
Lemma zip_not_consumer {A} (f : A -> chloc) ls vs :
  (forall x, not_consumer (f x)) -> writes_in not_consumer (store_list (zip (map f ls) vs)).
Proof.
  intros Hf. apply store_list_writes_in, Forall_forall. intros [l v] Hx. apply elem_of_zip_l in Hx.
  apply list_elem_of_fmap in Hx as (y & -> & _). apply Hf.
Qed.

Lemma init_header_not_consumer dev ino schema ps minor mapping gen hi lo interval :
  writes_in not_consumer
    (init_channel_header (Obj dev ino) schema ps minor mapping gen hi lo interval).
Proof.
  unfold init_channel_header. solve_writes; try by split.
  - by apply stores_not_consumer.
  - by apply zip_not_consumer.
Qed.
#[local] Hint Resolve init_header_not_consumer : prog_db.

Lemma initialise_not_consumer lock options schema ps self path record fd dev ino gen hi lo :
  writes_in not_consumer
    (initialise_object lock options schema ps self path record fd dev ino gen hi lo).
Proof.
  unfold initialise_object. solve_writes; try by split.
  - unfold pwrite_full. solve_writes. apply store_list_writes_in. unfold bootstrap_stores.
    rewrite !Forall_app. split; [|split; [by repeat constructor|]];
      apply Forall_forall; intros [l v] Hx; apply elem_of_zip_l in Hx;
      by apply list_elem_of_fmap in Hx as (y & -> & _).
  - by apply identity_write_writes.
Qed.
#[local] Hint Resolve initialise_not_consumer : prog_db.

Lemma new_handle_not_consumer id : writes_in not_consumer (init_producer_handle id).
Proof. by apply stores_not_consumer. Qed.
#[local] Hint Resolve new_handle_not_consumer : prog_db.

Lemma create_locked_not_consumer id lock options schema ps self name path hash :
  writes_in not_consumer (create_locked id lock options schema ps self name path hash).
Proof. unfold create_locked. solve_writes. Qed.
#[local] Hint Resolve create_locked_not_consumer : prog_db.

Lemma create_not_consumer id options schema ps :
  writes_in not_consumer (producer_create_impl id options schema ps).
Proof. unfold producer_create_impl. solve_writes. Qed.

(** What a creation that succeeds leaves. *)
Record created (id : nat) (ps : Z) (pd : ProducerHandle) (m : chloc -> Z) : Prop := {
  cr_id : pd_id pd = id;
  cr_payload : pd_payload_size pd = ps;
  cr_range : 0 < ps <= kMaxPayloadSize;
  cr_blank : blank (so_dev (pd_shm pd)) (so_ino (pd_shm pd)) ps m;
  cr_unused : m (PHnd id hl_operation_in_use) = 0
}.

Lemma handle_fresh_blank id dev ino ps m :
  blank dev ino ps m ->
  swp (init_producer_handle id)
    (fun _ m' => blank dev ino ps m' /\ m' (PHnd id hl_operation_in_use) = 0) m.
Proof.
  intros [Hz Hp]. unfold init_producer_handle. cbn [map store_list]. cbn [bind trigger swp sev plain_store].
  split; [split|]; [intros l Hl; upd_simpl; by apply Hz|by upd_simpl|by upd_simpl].
Qed.

Lemma create_locked_spec id lock options schema ps self name path hash m :
  0 < ps <= kMaxPayloadSize ->
  swp (create_locked id lock options schema ps self name path hash) (okp (created id ps)) m.
Proof.
  intros Hps. unfold create_locked. do 2 (apply swp_try_any; intros ? ?).
  eapply swp_seq; [by apply (swp_any _ (fun _ _ => True))|]. intros [nonce|e] ? _; [|done].
  apply swp_try_any. intros ? ?.
  eapply swp_seq; [by apply (swp_any _ (fun _ _ => True))|]. intros [[[[fd dev] ino]|e] armed] ? _.
  2: { eapply swp_seq; [by apply (swp_any _ (fun _ _ => True))|]. done. }
  eapply swp_seq; [apply initialise_blank|]. intros [[[epoch mapping] lfd]|e] m1 Hm1.
  2: { eapply swp_seq; [by apply (swp_any _ (fun _ _ => True))|]. done. }
  eapply swp_seq; [by apply handle_fresh_blank|]. intros ? m2 [Hb Hu].
  destruct (bool_decide _); [|done]. intros [[]|e]; [done|].
  intros ?. done.
Qed.

Lemma create_spec id options schema ps m :
  0 <= ps -> swp (producer_create_impl id options schema ps) (okp (created id ps)) m.
Proof.
  intros H0. unfold producer_create_impl. destruct (payload_and_schema_valid _ _ _) eqn:Hv; [|done].
  assert (0 < ps <= kMaxPayloadSize) as Hps.
  { unfold payload_and_schema_valid in Hv. case_match; [done|]. bdestr (ps =? 0); [done|].
    bdestr (kMaxPayloadSize <? ps); [done|]. lia. }
  cbn [negb]. do 2 (apply swp_try_any; intros ? ?).
  do 3 (eapply swp_seq; [by apply (swp_any _ (fun _ _ => True))|]; intros ? ? _).
  apply swp_try_any. intros lock m1. eapply swp_seq; [by apply create_locked_spec|].
  intros r m2 Hr. eapply swp_seq; [apply swp_readonly; solve_readonly|]. by intros ? m3 ->.
Qed.

(** ** Opening *)

Lemma header_parse_payload base schema ps m :
  swp (validate_header_parse base schema ps)
    (okp (fun _ _ => m (base (Head ch_payload_size)) = ps)) m.
Proof.
  unfold validate_header_parse. apply (swp_try _ _ (fun _ m' => m' = m)).
  { eapply swp_mono; [apply swp_readonly; solve_readonly|]. by intros [] ? ->. }
  intros _ m' ->. cbn [bind plain_load trigger swp sev]. bdestr (m (base (Head ch_payload_size)) =? ps); [|done].
  cbn [negb]. apply swp_any. by intros [].
Qed.

Lemma check_object_payload schema ps self fd dev ino size m :
  swp (check_object schema ps self fd dev ino size)
    (okp (fun _ m' => m' = m /\ m (Obj dev ino (Head ch_payload_size)) = ps)) m.
Proof.
  eapply swp_mono; [apply (swp_and _ (fun _ m' => m' = m)
    (okp (fun _ _ => m (Obj dev ino (Head ch_payload_size)) = ps)));
    [apply swp_readonly, check_object_readonly|]|].
  2: { cbv beta. intros [x|e] m' [-> H]; [split; [done|exact H]|done]. }
  unfold check_object. case_match; [done|].
  assert (forall A B (p : cprog (Result A)) (f : A -> cprog (Result B)) P, readonly p ->
    (forall x, swp (f x) (okp P) m) ->
    swp (bind p (fun r => match r with Ok x => f x | Err e => Ret (Err e) end)) (okp P) m) as Hro.
  { intros A B p f P Hp Hf. apply (swp_try _ _ (fun _ m' => m' = m)); [|by intros x ? ->].
    eapply swp_mono; [by apply swp_readonly|]. by intros [] ? ->. }
  apply Hro; [solve_readonly|]. intros _. eapply swp_seq; [apply swp_readonly; solve_readonly|].
  cbv beta. intros boot ? ->. apply Hro; [done|]. intros _. repeat (case_match; [done|]).
  apply Hro; [solve_readonly|]. intros _. cbn [bind shared_load_acquire trigger swp sev].
  case_match; [done|]. apply (header_parse_payload (Obj dev ino)).
Qed.

Lemma take_over_blank dev ino ps ps' m :
  blank dev ino ps m ->
  swp (take_over_consumer (Obj dev ino) ps') (fun r m' => r = Ok tt /\ m' = m) m.
Proof.
  intros [Hz _]. unfold take_over_consumer.
  apply (swp_seq_value _ _ (Ok (mkIdentityAbi 0 0 0 0 0))).
  { unfold identity_snapshot_read, kIdentitySnapshotRetries. generalize 7%nat. intros n.
    cbn [identity_snapshot_loop].
    cbn [bind shared_load_acquire shared_load_relaxed trigger swp sev]. rewrite Hz by done.
    change (epoch_odd 0) with false.
    cbn [bind shared_load_acquire shared_load_relaxed trigger swp sev]. rewrite !Hz by done. done. }
  cbn [bind shared_load_acquire trigger swp sev]. by rewrite Hz.
Qed.

(** What the first opening of a new object leaves. *)
Record opened (id : nat) (dev ino ps : Z) (cd : ConsumerHandle) (m : chloc -> Z) : Prop := {
  op_id : cd_id cd = id;
  op_payload : cd_payload_size cd = ps;
  op_epoch : cd_role_epoch cd = epoch_of 0;
  op_ticket : m_ticket dev ino m = 0;
  op_slots : forall k, is_slot k ->
    m_state dev ino m k = ss_kFree /\ m_reader dev ino m k = 0 /\ m (Obj dev ino (SlotSequence k)) = 0;
  op_role : m_epoch dev ino m = epoch_of 0;
  op_handle : m_cuse m id = 0 /\ m_last m id = 0 /\ m_first m id = 1
}.

Lemma install_blank id dev ino ps self m :
  blank dev ino ps m ->
  swp (install_consumer id (Obj dev ino) self) (okp (fun epoch m' => epoch = epoch_of 0 /\
    m_ticket dev ino m' = 0 /\
    (forall k, is_slot k -> m_state dev ino m' k = ss_kFree /\ m_reader dev ino m' k = 0 /\
       m' (Obj dev ino (SlotSequence k)) = 0) /\
    m_epoch dev ino m' = epoch_of 0 /\
    m_cuse m' id = 0 /\ m_last m' id = 0 /\ m_first m' id = 1)) m.
Proof.
  intros [Hz _]. unfold install_consumer, identity_snapshot_write, init_consumer_handle.
  cbn [bind shared_load_relaxed trigger swp sev]. rewrite Hz by done. change (epoch_odd 0) with false.
  change (UINT64_MAX - 2 <? 0) with false. cbn iota.
  cbn [bind shared_store_relaxed shared_store_release store_list plain_store trigger swp sev].
  unfold okp, m_ticket, m_state, m_reader, m_epoch, m_cuse, m_last, m_first.
  split; [done|]. split; [upd_simpl; by apply Hz|]. split; [|by split; [upd_simpl|split; [|split]; upd_simpl]].
  intros k Hk. split; [|split]; upd_simpl; by apply Hz.
Qed.

Lemma open_locked_spec id lock options schema self name hash reply fd dev ino size ps m :
  blank dev ino ps m ->
  swp (open_locked id lock options schema ps self name hash reply fd dev ino size)
    (okp (opened id dev ino ps)) m.
Proof.
  intros Hb. unfold open_locked. apply (swp_try _ _ (fun _ m' => m' = m)).
  { eapply swp_mono; [apply swp_readonly; solve_readonly|]. by intros [] ? ->. }
  intros journal ? ->. case_match; [done|]. apply (swp_try _ _ (fun _ m' => m' = m)).
  { eapply swp_mono; [apply swp_readonly; solve_readonly|]. by intros [] ? ->. }
  intros [] ? ->. eapply swp_try.
  { unfold take_consumer_place.
    apply (swp_seq_value _ _ (Ok tt)); [by apply (take_over_blank dev ino ps)|].
    by apply (install_blank id dev ino ps). }
  intros epoch m' (-> & H1 & H2 & H3 & H4). cbn [bind plain_load trigger swp sev okp]. by split.
Qed.

Lemma open_locked_object id lock options schema ps self name hash reply fd dev ino size :
  leaves (fun r => match r with
    | Ok cd => so_dev (cd_shm cd) = dev /\ so_ino (cd_shm cd) = ino | Err _ => True end)
    (open_locked id lock options schema ps self name hash reply fd dev ino size).
Proof.
  unfold open_locked. apply leaves_bind_any. intros [journal|e]; [|done]. case_match; [done|].
  apply leaves_bind_any. intros [[]|e]; [|done].
  apply leaves_bind_any. intros [epoch|e]; [|done]. do 3 (apply leaves_bind_any; intros ?). done.
Qed.

Lemma open_spec fuel id options schema ps' dev ino ps m :
  blank dev ino ps m ->
  swp (consumer_open_impl fuel id options schema ps') (okp (fun cd m' =>
    so_dev (cd_shm cd) = dev -> so_ino (cd_shm cd) = ino -> opened id dev ino ps cd m')) m.
Proof.
  intros Hb. unfold consumer_open_impl.
  assert (forall A (p : cprog (Result A)), readonly p -> swp p (okp (fun _ m' => m' = m)) m) as Hro.
  { intros A p Hp. eapply swp_mono; [by apply swp_readonly|]. by intros [] ? ->. }
  eapply swp_try; [apply Hro; done|]. intros _ ? ->.
  eapply swp_seq; [apply swp_readonly; solve_readonly|]. cbv beta. intros shm_name ? ->.
  eapply swp_try; [apply Hro; solve_readonly|]. intros self ? ->.
  do 2 (eapply swp_seq; [apply swp_readonly; solve_readonly|]; cbv beta; intros ? ? ->).
  eapply swp_try; [apply Hro; solve_readonly|]. intros [[fd [[d i] size]] reply] ? ->.
  eapply swp_try; [apply check_object_payload|]. intros _ ? [-> Hps].
  eapply swp_try; [apply Hro; solve_readonly|]. intros lock ? ->.
  eapply (swp_seq _ _ (okp (fun cd m' =>
    so_dev (cd_shm cd) = dev -> so_ino (cd_shm cd) = ino -> opened id dev ino ps cd m'))).
  - destruct (decide (d = dev /\ i = ino)) as [[-> ->]|Hne].
    + rewrite (bl_payload _ _ _ _ Hb) in Hps. subst ps'. eapply swp_mono; [by apply open_locked_spec|].
      intros [cd|e] m' Hcd; [|done]. intros _ _. exact Hcd.
    + eapply swp_mono; [apply swp_leaves, open_locked_object|]. intros [cd|e] m'; [|done].
      cbn. intros [<- <-] ? ?. by destruct Hne.
  - intros r m' Hr. eapply swp_seq; [apply swp_readonly; solve_readonly|]. by intros ? ? ->.
Qed.

(** Opening writes no field of a producer's handle, nor of another consumer's. *)
Definition own_consumer (id : nat) (l : chloc) : Prop :=
  match l with PHnd _ _ => False | CHnd n _ => n = id | _ => True end.

Lemma reclaim_own id dev ino epoch stride ks :
  writes_in (own_consumer id) (reclaim_slots (Obj dev ino) epoch stride ks).
Proof.
  induction ks as [|k ks IH]; cbn [reclaim_slots]; [done|]. unfold slot_release_read.
  solve_writes; by split.
Qed.
#[local] Hint Resolve reclaim_own : prog_db.

Lemma take_over_own id dev ino ps :
  writes_in (own_consumer id) (take_over_consumer (Obj dev ino) ps).
Proof. unfold take_over_consumer, reclaim_dead_consumer_slots. solve_writes. Qed.
Lemma install_own id dev ino self :
  writes_in (own_consumer id) (install_consumer id (Obj dev ino) self).
Proof.
  unfold install_consumer. solve_writes.
  - by apply identity_write_writes.
  - by split.
  - unfold init_consumer_handle. apply store_list_writes_in. by repeat constructor.
Qed.
#[local] Hint Resolve take_over_own install_own : prog_db.

Lemma open_locked_own id lock options schema ps self name hash reply fd dev ino size :
  writes_in (own_consumer id)
    (open_locked id lock options schema ps self name hash reply fd dev ino size).
Proof. unfold open_locked, take_consumer_place. solve_writes. Qed.
#[local] Hint Resolve open_locked_own : prog_db.

Lemma open_own fuel id options schema ps :
  writes_in (own_consumer id) (consumer_open_impl fuel id options schema ps).
Proof. unfold consumer_open_impl. solve_writes. Qed.

(** ** Both *)

(** A new channel: created, and opened by its first consumer. *)
Definition new_channel (id fuel : nat) (options copts : ChannelOptions)
    (schema cschema : SchemaDescriptor) (payload_size cpayload_size : Z)
    : cprog (Result (ProducerHandle * ConsumerHandle)) :=
  let? pd := producer_create_impl id options schema payload_size in
  let? cd := consumer_open_impl fuel 0 copts cschema cpayload_size in
  Ret (Ok (pd, cd)).

Lemma new_channel_spec id fuel options copts schema cschema ps ps' m :
  0 <= ps -> (forall n, n <> 0%nat -> m_cuse m n <> 0) ->
  swp (new_channel id fuel options copts schema cschema ps ps') (okp (fun h m' =>
    cd_base h.2 = pd_base h.1 ->
    let dev := so_dev (pd_shm h.1) in
    let ino := so_ino (pd_shm h.1) in
    pd_id h.1 = id /\ pd_payload_size h.1 = ps /\ 0 < ps <= kMaxPayloadSize /\
    opened 0 dev ino ps h.2 m' /\ m_puse id m' = 0 /\ forall n, n <> 0%nat -> m_cuse m' n <> 0)) m.
Proof.
  intros H0 Hn. unfold new_channel.
  eapply (swp_try _ _ (fun pd m' => created id ps pd m' /\ forall n, n <> 0%nat -> m_cuse m' n <> 0)).
  { eapply swp_mono; [apply swp_and; [by apply create_spec|apply swp_frame, create_not_consumer]|].
    cbv beta. intros [pd|e] m' [Hc Hf]; [|done]. split; [exact Hc|]. intros n Hne. unfold m_cuse.
    rewrite Hf by (by intros []). by apply Hn. }
  intros pd m1 [[Hid Hps Hr Hb Hu] Hn1].
  eapply (swp_try _ _ (fun cd m' => (cd_base cd = pd_base pd ->
    opened 0 (so_dev (pd_shm pd)) (so_ino (pd_shm pd)) ps cd m') /\ m_puse id m' = 0 /\
    forall n, n <> 0%nat -> m_cuse m' n <> 0)).
  { eapply swp_mono; [apply swp_and; [exact (open_spec _ _ _ _ _ _ _ _ _ Hb)|apply swp_frame, open_own]|].
    cbv beta. intros [cd|e] m' [Hc Hf]; [|done]. cbn [okp] in *. split; [|split].
    - intros He. pose proof (f_equal (fun b => b (Head ch_latest_ticket)) He) as [= E1 E2]. by apply Hc.
    - unfold m_puse. by rewrite Hf by (by intros []).
    - intros n Hne. unfold m_cuse. rewrite Hf by done. by apply Hn1. }
  intros cd m2 (Hc & Hu2 & Hn2). cbn [swp okp fst snd]. intros He.
  do 3 (split; [done|]). split; [by apply Hc|]. by split.
Qed.

(** The later consumers of a channel use the same object, each with its own role
    epoch. *)
Definition consumer_at (cd : ConsumerHandle) (n : nat) : ConsumerHandle :=
  mkConsumerHandle n (cd_shm cd) (cd_channel_name cd) (cd_transport cd) (cd_generation cd)
    (epoch_of n) (cd_instance_nonce_hi cd) (cd_instance_nonce_lo cd) (cd_schema cd)
    (cd_payload_size cd) (cd_self cd) (cd_reconnect_timeout_ms cd).

(** C3: creating and opening a channel leads to where its guarantees start. Whatever is
    in memory before (in the object, too, if it was there), whatever the kernel answers
    and whatever recovery the journal asks for: when [producer_create_impl] and then
    [consumer_open_impl], with options of its own, both succeed and the consumer was led
    to the producer's object, then both agree on the payload size, the producer's handle
    and the consumer's handle are unused, the consumer has the first role epoch, every
    slot is free and no sample is there, so that [system_ok] holds. A handle that does
    not exist yet counts as taken. *)
Theorem channel_create_open {OS} (os : os_model OS) id fuel options copts schema cschema ps ps' m o
    pd cd inc self :
  0 <= ps -> (forall n, n <> 0%nat -> m (CHnd n hl_operation_in_use) <> 0) ->
  let r := run os (new_channel id fuel options copts schema cschema ps ps') (mkWorld m o) in
  r.1 = Ok (pd, cd) -> cd_base cd = pd_base pd ->
  cd = consumer_at cd 0 /\
  system_ok (mkSystem (so_dev (pd_shm pd)) (so_ino (pd_shm pd)) ps pd (consumer_at cd) inc self
    (w_mem r.2)).
Proof.
  intros H0 Hn r Hr He.
  pose proof (swp_run os _ _ m o (new_channel_spec id fuel options copts schema cschema ps ps' m H0 Hn)) as H.
  fold r in H. rewrite Hr in H. specialize (H He). destruct H as (Hid & Hps & Hrg & [Hc Hcps Hce Ht Hs Hro Hh] & Hpu & Hcu).
  cbn [fst snd] in *. split.
  - unfold consumer_at. rewrite <- Hc, <- Hce at 1. by destruct cd.
  - split; cbn [cs_dev cs_ino cs_payload cs_producer cs_consumer cs_memory]; [by split|].
    split; [done..| |done|done]. by rewrite Hid.
Qed.

(** ** A machine with one channel *)

Module NewChannelDemo.

(** The size of the object under the channel's name, and whether the journal was
    written. *)
Record machine : Type := mkMachine { mc_object : option Z; mc_journal : bool }.

Definition stat_line : list Z :=
  string_codes "100 (p) S 1 1 1 1 1 1 1 1 1 1 1 1 1 1 1 1 1 1 7 0".
Definition boot_id : list Z := string_codes "0123abcd-0000-4000-8000-0123456789ab".
Definition object_fd : Z := 4.
Definition lock_fd : Z := 5.

Definition os : os_model machine := fun X c o =>
  match c in sys Y return Y * machine with
  | sys_getpid => (100, o)
  | sys_getuid | sys_geteuid => (1000, o)
  | sys_open _ => (SysOk 3, o)
  | sys_read _ count => (SysOk (if count =? 63 then boot_id else stat_line), o)
  | sys_getrandom n => (SysOk (replicate (Z.to_nat n) 1), o)
  | sys_mkdir _ _ => (SysOk tt, o)
  | sys_open_create _ _ => (SysOk lock_fd, o)
  | sys_flock _ _ | sys_fdatasync _ => (SysOk tt, o)
  | sys_shm_open _ create =>
      match mc_object o, create with
      | None, true => (SysOk object_fd, mkMachine (Some 0) (mc_journal o))
      | None, false => (SysErr ENOENT, o)
      | Some _, true => (SysErr EEXIST, o)
      | Some _, false => (SysOk object_fd, o)
      end
  | sys_fstat _ => (SysOk (mkStat 33152 1000 1 2 (default 0 (mc_object o)) 1), o)
  | sys_ftruncate _ size => (SysOk tt, mkMachine (Some size) (mc_journal o))
  | sys_mmap _ _ _ => (SysOk 0, o)
  | sys_pread fd count _ =>
      (SysOk (if (fd =? lock_fd) && negb (mc_journal o) then 0 else count), o)
  | sys_pwrite fd count _ => (SysOk count, mkMachine (mc_object o) (mc_journal o || (fd =? lock_fd)))
  | c => (sys_default c, o)
  end.

Definition schema : SchemaDescriptor := mkSchema (replicate 32 9) 1.
Definition options : ChannelOptions := mkChannelOptions "cam0" 100 1000 true tr_kPosixShm 0.
Definition garbage : chloc -> Z :=
  fun l => match l with CHnd _ hl_operation_in_use => 1 | _ => 77 end.

Definition after : Result (ProducerHandle * ConsumerHandle) * world chloc machine :=
  run os (new_channel 0 8 options options schema schema 4 4) (mkWorld garbage (mkMachine None false)).
Definition no_object : ShmObject := mkShmObject "" 0 0 0 0.
Definition handles_of (r : Result (ProducerHandle * ConsumerHandle)) : ProducerHandle * ConsumerHandle :=
  match r with
  | Ok h => h
  | Err _ =>
      (mkProducerHandle 0 no_object "" 0 0 0 0 schema 0 zero_identity tr_kPosixShm 0 "" 0 0,
       mkConsumerHandle 0 no_object "" tr_kPosixShm 0 0 0 0 schema 0 zero_identity 0)
  end.
Definition handles : ProducerHandle * ConsumerHandle := handles_of after.1.

(** Both calls succeed and are about the same object. *)
Definition agrees (r : Result (ProducerHandle * ConsumerHandle)) : bool :=
  match r with
  | Ok (pd, cd) =>
      (so_dev (cd_shm cd) =? so_dev (pd_shm pd)) && (so_ino (cd_shm cd) =? so_ino (pd_shm pd))
  | Err _ => false
  end.
Lemma agrees_handles r :
  agrees r = true ->
  r = Ok ((handles_of r).1, (handles_of r).2) /\ cd_base (handles_of r).2 = pd_base (handles_of r).1.
Proof.
  destruct r as [[pd cd]|e]; [|done]. cbn [agrees handles_of fst snd].
  intros [Hd Hi]%andb_true_iff. split; [done|]. unfold cd_base, pd_base.
  apply Z.eqb_eq in Hd, Hi. by rewrite Hd, Hi.
Qed.
Lemma new_channel_succeeds : agrees after.1 = true.
Proof. vm_compute. reflexivity. Qed.
End NewChannelDemo.

Lemma channel_create_open_witness :
  system_ok (mkSystem (so_dev (pd_shm NewChannelDemo.handles.1)) (so_ino (pd_shm NewChannelDemo.handles.1))
    4 NewChannelDemo.handles.1 (consumer_at NewChannelDemo.handles.2) (fun _ => 0%nat)
    (fun _ => zero_identity) (w_mem NewChannelDemo.after.2)).
Proof.
  destruct (NewChannelDemo.agrees_handles _ NewChannelDemo.new_channel_succeeds) as [Hr He].
  apply (channel_create_open NewChannelDemo.os 0 8 NewChannelDemo.options NewChannelDemo.options
    NewChannelDemo.schema NewChannelDemo.schema 4 4 NewChannelDemo.garbage
    (NewChannelDemo.mkMachine None false) NewChannelDemo.handles.1 NewChannelDemo.handles.2).
  - lia.
  - intros n _. discriminate.
  - exact Hr.
  - exact He.
Defined.
