(* ===== verification/JournalTheorems.v ===== *)
(** The journal of the control lock: what is written is read back, a damaged record is
    refused, and what becomes of the generation after a crash. *)
From S2P Require Import Prelude ByteFields Errors CheckedMath Checksum Prog SeqLogic ProcIdentity ShmObject.
From S2P Require Import ChannelLayout ChannelSegment ChannelAbi ControlLock Producer ProducerCreate.
From S2P Require Import ChannelFrames ChannelCreate.

(** ** Records and bytes *)

(** The fields are at their width. *)
Record journal_ok (j : ControlJournalV1) : Prop := {
  jo_magic : length (cj_magic j) = 8%nat;
  jo_padding : length (cj_padding j) = 40%nat;
  jo_creator_reserved : length (cj_creator_reserved j) = 24%nat;
  jo_reserved : length (cj_reserved j) = 52%nat;
  jo_u32 : Forall is_u32 [cj_version j; cj_channel_hash j; cj_state j; cj_reserved0 j; cj_transport j];
  jo_u64 : Forall is_u64 [cj_target_dev j; cj_target_ino j; cj_old_generation j; cj_new_generation j;
    cj_old_nonce_hi j; cj_old_nonce_lo j; cj_new_nonce_hi j; cj_new_nonce_lo j;
    cj_record_checksum j; ia_role_epoch (cj_creator j); ia_pid (cj_creator j);
    ia_proc_start_ticks (cj_creator j); ia_boot_id_hash_hi (cj_creator j);
    ia_boot_id_hash_lo (cj_creator j)]
}.

(** The array members have their sizes; the rest of [journal_ok] is ranges. *)
Definition journal_shape (j : ControlJournalV1) : Prop :=
  length (cj_magic j) = 8%nat /\ length (cj_padding j) = 40%nat /\
  length (cj_creator_reserved j) = 24%nat /\ length (cj_reserved j) = 52%nat.

Lemma journal_ok_shape j : journal_ok j -> journal_shape j.
Proof. by intros []. Qed.
Lemma journal_shape_length j : journal_shape j -> length (journal_bytes j) = 256%nat.
Proof. intros (? & ? & ? & ?). unfold journal_bytes. rewrite !length_app, !le_bytes_length. lia. Qed.
Lemma journal_bytes_length j : journal_ok j -> length (journal_bytes j) = 256%nat.
Proof. intros Hj. by apply journal_shape_length, journal_ok_shape. Qed.

Lemma journal_bytes_roundtrip j : journal_ok j -> journal_of_bytes (journal_bytes j) = j.
Proof.
  intros [Hm Hp Hc Hr H32 H64]. rewrite !Forall_cons in H32. rewrite !Forall_cons in H64.
  unfold journal_of_bytes, journal_bytes.
  destruct j as [magic ver hash state r0 dev ino og ng ohi olo nhi nlo pad [re pid ticks hi lo] cres ck tr res].
  cbn [cj_magic cj_version cj_channel_hash cj_state cj_reserved0 cj_target_dev cj_target_ino
    cj_old_generation cj_new_generation cj_old_nonce_hi cj_old_nonce_lo cj_new_nonce_hi cj_new_nonce_lo
    cj_padding cj_creator cj_creator_reserved cj_record_checksum cj_transport cj_reserved
    ia_role_epoch ia_pid ia_proc_start_ticks ia_boot_id_hash_hi ia_boot_id_hash_lo] in *.
  f_equal; [..|f_equal|idtac|idtac|idtac|idtac]; seek; rewrite ?Hm, ?Hp, ?Hc, ?Hr; cbn [Nat.sub].
  all: first [apply bytes_at_here; done | apply bytes_at_all; done | apply field_at_here; mlia].
Qed.

(** The other way round, for any 256 bytes. *)
Lemma journal_of_bytes_roundtrip bs :
  Forall is_byte bs -> length bs = 256%nat -> journal_bytes (journal_of_bytes bs) = bs.
Proof.
  intros Hb Hl. unfold journal_bytes, journal_of_bytes.
  cbn [cj_magic cj_version cj_channel_hash cj_state cj_reserved0 cj_target_dev cj_target_ino
    cj_old_generation cj_new_generation cj_old_nonce_hi cj_old_nonce_lo cj_new_nonce_hi cj_new_nonce_lo
    cj_padding cj_creator cj_creator_reserved cj_record_checksum cj_transport cj_reserved
    ia_role_epoch ia_pid ia_proc_start_ticks ia_boot_id_hash_hi ia_boot_id_hash_lo].
  rewrite !field_bytes by (done || lia). rewrite !bytes_at_split. cbn [Nat.add].
  apply bytes_at_all. done.
Qed.

(** ** Writing and reading *)

Lemma journal_locs_nodup lock : NoDup (journal_locs lock).
Proof. unfold journal_locs. apply NoDup_fmap_2; [|apply NoDup_seq]. by intros i j [= ->]. Qed.
Lemma journal_locs_length lock : length (journal_locs lock) = 256%nat.
Proof. unfold journal_locs. by rewrite length_map, length_seq. Qed.

(** Whatever the counts the kernel answers, all the bytes were stored when the loop ends
    well. *)
Lemma journal_loop_stores fuel op lock ls1 ls2 vs1 vs2 written m :
  NoDup (ls1 ++ ls2) -> length (ls1 ++ ls2) = 256%nat -> length vs2 = length ls2 ->
  map m ls1 = vs1 -> (written <= Z.of_nat (length ls1) \/ ls2 = []) ->
  swp (journal_write_loop fuel op lock (zip ls2 vs2) written)
    (okp (fun _ m' => map m' (ls1 ++ ls2) = vs1 ++ vs2)) m.
Proof.
  revert ls1 ls2 vs1 vs2 written m. induction fuel as [|n IH]; intros ls1 ls2 vs1 vs2 written m Hnd Hlen Hvs Hm Hw;
    cbn [journal_write_loop].
  all: assert (kJournalRecordSize <= written -> ls2 = [] /\ vs2 = []) as Hend.
  1, 3: intros He; unfold kJournalRecordSize in He; rewrite length_app in Hlen;
    assert (ls2 = []) as -> by (destruct Hw as [Hw| ->]; [apply length_zero_iff_nil; lia|done]);
    by apply nil_length_inv in Hvs.
  all: bdestr (kJournalRecordSize <=? written); [destruct Hend as [-> ->]; [done|]; by rewrite !app_nil_r|].
  { done. }
  cbn [bind syscall trigger swp sev]. intros [k|e]; [|destruct (e =? EINTR); [by apply IH|done]].
  set (c := Z.to_nat k). rewrite zip_with_take, zip_with_drop.
  assert (NoDup (take c ls2) /\ forall l, l ∈ ls1 -> l ∉ take c ls2) as [Hnd2 Hdis].
  { apply NoDup_app in Hnd as (_ & Hd & Hn2). split.
    - rewrite <- (take_drop c ls2) in Hn2. by apply NoDup_app in Hn2 as (? & _).
    - intros l Hl Hin. apply (Hd l Hl). rewrite <- (take_drop c ls2). apply elem_of_app. by left. }
  eapply swp_seq; [apply swp_store_list; [done|rewrite !length_take; lia]|].
  cbv beta. intros _ m' [H1 H2]. eapply swp_mono.
  - apply (IH (ls1 ++ take c ls2) (drop c ls2) (vs1 ++ take c vs2) (drop c vs2)).
    + by rewrite <- app_assoc, take_drop.
    + by rewrite <- app_assoc, take_drop.
    + rewrite !length_drop. lia.
    + rewrite map_app, H1. f_equal. rewrite <- Hm. apply map_ext_in. intros l Hl.
      apply H2, Hdis. by apply list_elem_of_In.
    + destruct (decide (c < length ls2)%nat) as [Hc|Hc]; [left|right; apply drop_ge; lia].
      rewrite length_app, length_take. destruct Hw as [Hw| ->]; [|simpl in Hc; lia]. lia.
  - by rewrite <- !app_assoc, !take_drop.
Qed.

Lemma sealed_ok j : journal_ok j -> journal_ok (with_checksum j (journal_checksum j)).
Proof.
  intros [? ? ? ? H32 H64]. split; try done. rewrite !Forall_cons in H64. rewrite !Forall_cons.
  pose proof (fnv1a64_range (journal_bytes (with_checksum j 0))). cbn. tauto.
Qed.

Lemma write_journal_stores lock j m :
  journal_shape j ->
  swp (write_journal lock j) (okp (fun _ m' =>
    map m' (journal_locs lock) = journal_bytes (with_checksum j (journal_checksum j)))) m.
Proof.
  intros Hj. unfold write_journal. case_match; [done|]. cbv zeta.
  eapply swp_try.
  - apply (journal_loop_stores _ _ _ [] (journal_locs lock) [] _ 0); cbn [app].
    + apply journal_locs_nodup.
    + apply journal_locs_length.
    + by rewrite journal_shape_length, journal_locs_length.
    + done.
    + left. simpl. lia.
  - intros ? m' Hm. cbn [bind syscall trigger swp sev]. by intros [].
Qed.

(** What reading makes of the bytes in the file: an error, the empty record of a file the
    kernel says is empty, or the record, checked. *)
Lemma read_journal_spec lock m :
  swp (read_journal lock) (okp (fun j m' => m' = m /\
    (j = empty_journal \/
     let bs := map m (journal_locs lock) in
     j = journal_of_bytes bs /\
     (Forall (fun b => b = 0) bs \/
      take 7 (cj_magic j) = string_codes kJournalMagic /\ cj_version j = kJournalVersion /\
      journal_checksum j = cj_record_checksum j)))) m.
Proof.
  unfold read_journal. apply (swp_try _ _ (fun _ m' => m' = m)).
  { eapply swp_mono; [apply swp_readonly; solve_readonly|]. by intros [] ? ->. }
  intros got ? ->. destruct (got =? 0); [by split; [|left]|]. case_match; [done|].
  eapply swp_seq; [apply swp_load_list|]. cbv beta. intros bs ? [-> ->].
  generalize (map m (journal_locs lock)). intros bs.
  destruct (forallb _ bs) eqn:E0.
  { cbn [swp okp]. split; [done|]. right. split; [done|]. left. rewrite forallb_forall in E0.
    apply Forall_forall. intros b Hb. apply list_elem_of_In in Hb. by apply E0, Z.eqb_eq in Hb. }
  case_bool_decide as Hmg; [|done]. cbn [negb].
  bdestr (cj_version (journal_of_bytes bs) =? kJournalVersion); [|done].
  bdestr (journal_checksum (journal_of_bytes bs) =? cj_record_checksum (journal_of_bytes bs)); [|done].
  cbn [swp okp]. split; [done|]. right. split; [done|]. right. by split.
Qed.

(** ** Damage *)

(** The bytes with the checksum field cleared. *)
Definition unsealed (bs : list Z) : list Z := take 192 bs ++ replicate 8 0 ++ drop 200 bs.

Lemma journal_checksum_bytes bs :
  Forall is_byte bs -> length bs = 256%nat ->
  journal_checksum (journal_of_bytes bs) = fnv1a64 (unsealed bs).
Proof.
  intros Hb Hl. unfold journal_checksum. f_equal. unfold journal_bytes, with_checksum, journal_of_bytes.
  cbn [cj_magic cj_version cj_channel_hash cj_state cj_reserved0 cj_target_dev cj_target_ino
    cj_old_generation cj_new_generation cj_old_nonce_hi cj_old_nonce_lo cj_new_nonce_hi cj_new_nonce_lo
    cj_padding cj_creator cj_creator_reserved cj_record_checksum cj_transport cj_reserved
    ia_role_epoch ia_pid ia_proc_start_ticks ia_boot_id_hash_hi ia_boot_id_hash_lo].
  rewrite !field_bytes by (done || lia). rewrite !bytes_at_split. rewrite !app_assoc, !bytes_at_split.
  cbn [Nat.add]. unfold unsealed. rewrite <- !app_assoc.
  change (bytes_at bs 0 192) with (take 192 bs). do 2 f_equal.
  unfold bytes_at. apply firstn_all2. rewrite length_drop. lia.
Qed.

Lemma fnv_insert_ne bs p b b' :
  bs !! p = Some b -> is_byte b -> is_byte b' -> b <> b' -> fnv1a64 (<[p:=b']> bs) <> fnv1a64 bs.
Proof.
  intros Hp Hb Hb' Hne. pose proof (lookup_lt_Some _ _ _ Hp) as Hlt.
  rewrite (insert_take_drop bs p b' Hlt).
  replace (fnv1a64 bs) with (fnv1a64 (take p bs ++ b :: drop (S p) bs)) by by rewrite take_drop_middle.
  by apply fnv1a64_single_byte.
Qed.

(** No checksum survives the change of one byte. *)
Lemma damage_detected bs p b b' :
  Forall is_byte bs -> length bs = 256%nat -> bs !! p = Some b -> is_byte b' -> b <> b' ->
  fnv1a64 (unsealed bs) = le_value (bytes_at bs 192 8) ->
  fnv1a64 (unsealed (<[p:=b']> bs)) <> le_value (bytes_at (<[p:=b']> bs) 192 8).
Proof.
  intros Hbs Hl Hp Hb' Hne Hck. pose proof (lookup_lt_Some _ _ _ Hp) as Hlt.
  assert (is_byte b) as Hb by (rewrite Forall_forall in Hbs; apply Hbs; by eapply list_elem_of_lookup_2).
  unfold unsealed, bytes_at in *.
  destruct (decide (p < 192)%nat) as [H1|H1]; [|destruct (decide (p < 200)%nat) as [H2|H2]].
  - rewrite take_insert_lt, !drop_insert_lt by lia. rewrite <- insert_app_l by (rewrite length_take; lia).
    rewrite <- Hck. apply (fnv_insert_ne _ _ b); [|done..]. rewrite lookup_app_l by (rewrite length_take; lia).
    by rewrite lookup_take_lt.
  - rewrite take_insert_ge, (drop_insert_lt _ 200), (drop_insert_ge _ 192) by lia. rewrite Hck.
    rewrite take_insert_lt by lia. intros He.
    assert (Forall is_byte (take 8 (drop 192 bs))) as Hf by by apply Forall_take, Forall_drop.
    apply le_value_inj in He; [|done|by apply Forall_insert|by rewrite length_insert].
    assert (length (take 8 (drop 192 bs)) = 8%nat) as Hl8 by (rewrite length_take, length_drop; lia).
    apply (f_equal (fun l => l !! (p - 192)%nat)) in He. rewrite list_lookup_insert_eq in He by lia.
    rewrite lookup_take_lt, lookup_drop in He by lia.
    replace (192 + (p - 192))%nat with p in He by lia. congruence.
  - rewrite take_insert_ge, (drop_insert_ge _ 200), (drop_insert_ge _ 192), (take_insert_ge _ 8) by lia.
    rewrite <- Hck. rewrite app_assoc. set (q := take 192 bs ++ replicate 8 0).
    assert (length q = 200%nat) as Hq by (unfold q; rewrite length_app, length_take, length_replicate; lia).
    replace (p - 200)%nat with (p - length q)%nat by lia. rewrite <- insert_app_r_alt by lia.
    rewrite !(app_assoc (take 192 bs)). fold q. apply (fnv_insert_ne _ _ b); [|done..].
    rewrite lookup_app_r by lia. rewrite lookup_drop, Hq. by replace (200 + (p - 200))%nat with p by lia.
Qed.

(** ** The claims *)

(** Writing a record and reading it again. *)
Definition reads_back (lock : ControlLock) (j : ControlJournalV1) : cprog (Result ControlJournalV1) :=
  let? _ := write_journal lock j in read_journal lock.

(** The records the code writes. *)
Definition journal_valid (j : ControlJournalV1) : Prop :=
  journal_ok j /\ take 7 (cj_magic j) = string_codes kJournalMagic /\ cj_version j = kJournalVersion.

Lemma reads_back_spec lock j m :
  journal_valid j ->
  swp (reads_back lock j) (okp (fun j' _ =>
    j' = with_checksum j (journal_checksum j) \/ j' = empty_journal)) m.
Proof.
  intros (Hj & Hmg & Hv). unfold reads_back.
  eapply swp_try; [by apply write_journal_stores, journal_ok_shape|]. cbv beta. intros _ m1 Hm.
  eapply swp_mono; [apply read_journal_spec|]. cbv beta zeta. intros [j'|e] m2; [|done].
  intros (_ & [->|[-> _]]); [by right|left]. rewrite Hm. apply journal_bytes_roundtrip. by apply sealed_ok.
Qed.

Lemma sealed_checksum j :
  journal_checksum (with_checksum j (journal_checksum j)) =
  cj_record_checksum (with_checksum j (journal_checksum j)).
Proof. reflexivity. Qed.

Lemma magic_not_zero j bs p b :
  take 7 (cj_magic j) = string_codes kJournalMagic -> journal_bytes j = bs ->
  ~ Forall (fun b => b = 0) (<[p:=b]> bs).
Proof.
  intros Hmg <- Hz.
  assert (exists c d r, journal_bytes j = 69 :: c :: r /\ c = 68 /\ d = 0) as (c & d & r & Hb & -> & _).
  { unfold journal_bytes. destruct (cj_magic j) as [|x [|y l]]; [done|done|]. cbn in Hmg. injection Hmg as -> -> _.
    by eexists _, 0, _. }
  rewrite Hb in Hz. rewrite Forall_lookup in Hz. destruct (decide (p = 0)%nat) as [->|Hp].
  - specialize (Hz 1%nat 68). cbn in Hz. by discriminate Hz.
  - specialize (Hz 0%nat 69). rewrite list_lookup_insert_ne in Hz by done. by discriminate Hz.
Qed.

Lemma damaged_refused lock j m p b b' :
  journal_valid j -> Forall is_byte (journal_bytes (with_checksum j (journal_checksum j))) ->
  journal_bytes (with_checksum j (journal_checksum j)) !! p = Some b -> is_byte b' -> b <> b' ->
  map m (journal_locs lock) = <[p:=b']> (journal_bytes (with_checksum j (journal_checksum j))) ->
  swp (read_journal lock) (okp (fun j' _ => j' = empty_journal)) m.
Proof.
  intros (Hj & Hmg & Hv) Hbs Hp Hb' Hne Hm. pose proof (sealed_ok j Hj) as Hs.
  set (sealed := with_checksum j (journal_checksum j)) in *.
  pose proof (journal_bytes_length _ Hs) as Hlen.
  eapply swp_mono; [apply read_journal_spec|]. cbv beta zeta. intros [j'|e] m2; [|done].
  intros (_ & [->|[-> [Hz|(_ & _ & Hck)]]]); [done| |]; rewrite Hm in *; exfalso.
  - by eapply (magic_not_zero sealed).
  - assert (Forall is_byte (<[p:=b']> (journal_bytes sealed))) as Hbs' by by apply Forall_insert.
    rewrite journal_checksum_bytes in Hck by (done || by rewrite length_insert).
    revert Hck. apply (damage_detected _ _ b); [done..|].
    rewrite <- journal_checksum_bytes, journal_bytes_roundtrip by done. rewrite (sealed_checksum j : journal_checksum sealed = cj_record_checksum sealed).
    rewrite <- (journal_bytes_roundtrip sealed Hs) at 1. reflexivity.
Qed.

(** A kernel that transfers all the bytes it is asked to. *)
Record whole_transfers {OS} (os : os_model OS) : Prop := {
  wt_pread : forall fd count offset o, (os _ (sys_pread fd count offset) o).1 = SysOk count;
  wt_pwrite : forall fd count offset o, (os _ (sys_pwrite fd count offset) o).1 = SysOk count;
  wt_sync : forall fd o, (os _ (sys_fdatasync fd) o).1 = SysOk tt
}.

Section Whole.
Context {OS : Type} (os : os_model OS) (whole : whole_transfers os).

Lemma run_sys {X A} (c : sys X) (k : X -> cprog A) (w : world chloc OS) x :
  (os X c (w_os w)).1 = x ->
  run os (Vis (Sys c) k) w = run os (k x) (mkWorld (w_mem w) (os X c (w_os w)).2).
Proof. intros <-. destruct w as [m o]. cbn. by destruct (os X c o). Qed.

Lemma run_loads ls (w : world chloc OS) : run os (load_list ls) w = (map (w_mem w) ls, w).
Proof.
  induction ls as [|l ls IH]; [done|]. cbn [load_list map]. rewrite run_bind. cbn. by rewrite run_bind, IH.
Qed.

Lemma run_journal_write lock j (w : world chloc OS) :
  cj_state j = js_kIdle \/ process_identity_valid (identity_of_abi (cj_creator j)) = true ->
  (run os (write_journal lock j) w).1 = Ok tt.
Proof.
  intros Hc. unfold write_journal.
  replace (negb (cj_state j =? js_kIdle) && _) with false by (destruct Hc as [-> | ->]; [done|by rewrite andb_false_r]).
  rewrite run_bind. unfold kIoFuel. generalize 1022%nat. intros n. cbn [journal_write_loop].
  change (kJournalRecordSize <=? 0) with false. cbn iota. cbn [bind syscall trigger].
  rewrite (run_sys _ _ _ _ (wt_pwrite os whole _ _ _ _)). rewrite run_bind.
  destruct (run os (store_list _) _) as [[] w1].
  change (0 + (kJournalRecordSize - 0)) with kJournalRecordSize. cbn [journal_write_loop].
  rewrite Z.leb_refl. cbn [run]. cbn [run_ev]. unfold set_os.
  by rewrite (wt_sync os whole).
Qed.

Lemma run_journal_read lock (w : world chloc OS) j :
  journal_valid j ->
  map (w_mem w) (journal_locs lock) = journal_bytes (with_checksum j (journal_checksum j)) ->
  (run os (read_journal lock) w).1 = Ok (with_checksum j (journal_checksum j)).
Proof.
  intros (Hj & Hmg & Hv) Hm. pose proof (sealed_ok j Hj) as Hs.
  pose proof (magic_not_zero (with_checksum j (journal_checksum j)) _ 256 0 Hmg eq_refl) as Hnz.
  rewrite list_insert_ge in Hnz by (rewrite journal_bytes_length; done).
  unfold read_journal. rewrite run_bind. unfold kIoFuel. generalize 1022%nat. intros n.
  cbn [pread_loop]. change (kJournalRecordSize <=? 0) with false. cbn iota. cbn [bind syscall trigger].
  rewrite (run_sys _ _ _ _ (wt_pread os whole _ _ _ _)).
  change (kJournalRecordSize - 0 =? 0) with false. cbn iota.
  change (0 + (kJournalRecordSize - 0)) with kJournalRecordSize. cbn [pread_loop].
  rewrite Z.leb_refl. cbn [run]. change (kJournalRecordSize =? 0) with false. cbn iota.
  rewrite Z.eqb_refl. cbn [negb]. rewrite run_bind, run_loads. cbn [w_mem]. rewrite Hm.
  rewrite journal_bytes_roundtrip by done. destruct (forallb _ _) eqn:E0; [done|].
  rewrite bool_decide_eq_true_2 by done. cbn [negb]. change (cj_version (with_checksum j _)) with (cj_version j).
  rewrite Hv, Z.eqb_refl. cbn [negb]. by rewrite sealed_checksum, Z.eqb_refl.
Qed.
End Whole.


Module JournalDemo.
Definition creator : ProcessIdentity := mkIdentity 100 7 5 6.
Definition record : ControlJournalV1 :=
  make_control_journal "cam0" js_kCreatingPreObject 0 8 0 0 11 12 creator.
Definition lock : ControlLock := mkControlLock 5 "/run/user/1000/edgeruntime/cam0.lock".
Definition os : os_model unit := fun X c o =>
  match c in sys Y return Y * unit with
  | sys_pread _ count _ | sys_pwrite _ count _ => (SysOk count, o)
  | sys_fdatasync _ => (SysOk tt, o)
  | c => (sys_default c, o)
  end.
End JournalDemo.

