(* ===== verification/GenerationRestart.v ===== *)
(** What becomes of a channel's generation when a creator dies: recovery goes back to the
    journal's old generation, which no creation ever sets (a removal does), so generations
    that were in use come again. *)
From S2P Require Import Prelude Errors CheckedMath Checksum Prog SeqLogic ProcIdentity ShmObject.
From S2P Require Import ChannelLayout ChannelSegment ChannelAbi ControlLock Producer ProducerCreate.
From S2P Require Import ChannelFrames ChannelCreate JournalTheorems.

(** The file of the lock holds the record. *)
Definition recorded (lock : ControlLock) (j : ControlJournalV1) (m : chloc -> Z) : Prop :=
  map m (journal_locs lock) = journal_bytes (with_checksum j (journal_checksum j)).

(** The objects are as they were. *)
Definition same_objects (m m' : chloc -> Z) : Prop := forall d i l, m' (Obj d i l) = m (Obj d i l).

(** A creation or a removal was cut short, and no object of it was recorded. *)
Definition interrupted (j : ControlJournalV1) : bool :=
  (cj_state j =? js_kCreatingPreObject) || (cj_state j =? js_kRemoving).

(** A program that only reads, and a result that goes on. *)
Lemma swp_try_readonly {A B} (p : cprog (Result A)) (f : A -> cprog (Result B)) P m :
  readonly p -> (forall x, swp (f x) (okp P) m) ->
  swp (bind p (fun r => match r with Ok x => f x | Err e => Ret (Err e) end)) (okp P) m.
Proof.
  intros Hp Hf. apply (swp_try _ _ (fun _ m' => m' = m)); [|by intros x ? ->].
  eapply swp_mono; [by apply swp_readonly|]. by intros [] ? ->.
Qed.

Lemma write_journal_objects lock j m :
  swp (write_journal lock j) (okp (fun _ m' => same_objects m m')) m.
Proof.
  eapply swp_mono; [apply (swp_frame (fun l => match l with Jrn _ _ => True | _ => False end));
    by apply write_journal_writes|].
  cbv beta. intros [x|e] m' Hm; [|done]. intros d i l. apply Hm. by intros [].
Qed.

(** Recovery of an interrupted transaction keeps the old generation, and takes it. *)
Lemma stale_spec lock j name m :
  interrupted j = true ->
  swp (reconcile_stale_journal lock j name) (okp (fun j' m' =>
    same_objects m m' /\ cj_state j' = js_kIdle /\ cj_old_generation j' = cj_old_generation j /\
    cj_new_generation j' = cj_old_generation j)) m.
Proof.
  intros Hi. unfold reconcile_stale_journal. cbv zeta.
  destruct (cj_state j =? js_kIdle) eqn:E.
  { apply Z.eqb_eq in E. unfold interrupted in Hi. by rewrite E in Hi. }
  case_match; [done|].
  eapply swp_seq; [apply swp_readonly; solve_readonly|]. cbv beta. intros liv ? ->.
  destruct liv; try done.
  all: apply (swp_try _ _ (fun j' m' => m' = m /\
    cj_state j' = js_kIdle /\ cj_old_generation j' = cj_old_generation j /\
    cj_new_generation j' = cj_old_generation j)).
  1, 3: unfold interrupted in Hi; destruct (cj_state j =? js_kCreatingPreObject) eqn:E1;
    [apply swp_try_readonly; [solve_readonly|by intros ?]|];
    apply Z.eqb_eq in Hi; rewrite Hi; apply swp_try_readonly; [solve_readonly|by intros ?].
  all: intros j' ? [-> Hj']; eapply swp_try; [apply write_journal_objects|]; by intros [] m' Hm.
Qed.

(** Recovery never changes the old generation. *)
Definition keeps_old (j : ControlJournalV1) (r : Result ControlJournalV1) : Prop :=
  match r with Ok j' => cj_old_generation j' = cj_old_generation j | Err _ => True end.

Lemma reconcile_object_old journal reset name :
  leaves (keeps_old reset) (reconcile_object journal reset name).
Proof. unfold reconcile_object. solve_leaves; done. Qed.

Lemma stale_keeps_old lock j name : leaves (keeps_old j) (reconcile_stale_journal lock j name).
Proof.
  unfold reconcile_stale_journal. cbv zeta. case_match; [done|]. case_match; [done|].
  apply leaves_bind_any. intros liv. destruct liv; try done.
  all: eapply (leaves_bind (keeps_old j)).
  1, 3: destruct (cj_state j =? js_kCreatingPreObject); [solve_leaves; done|];
    destruct (_ || _); [eapply leaves_mono; [|apply reconcile_object_old]; by intros []|];
    solve_leaves; done.
  all: intros [j'|e]; [|done]; intros Hj'; apply leaves_bind_any; by intros [].
Qed.

(** The old generation that is read: the record's, or 0 when the kernel says that the file
    is empty. *)
Definition old_of (j : ControlJournalV1) (old : Z) : Prop := old = cj_old_generation j \/ old = 0.

(** The journal to start from. *)
Definition starts_from (j : ControlJournalV1) (m : chloc -> Z) (j' : ControlJournalV1)
    (m' : chloc -> Z) : Prop :=
  old_of j (cj_old_generation j') /\
  (interrupted j = true ->
     same_objects m m' /\ cj_state j' = js_kIdle /\ cj_new_generation j' = cj_old_generation j').

Lemma create_journal_spec lock options name hash j m :
  journal_valid j -> recorded lock j m ->
  swp (create_journal lock options name hash) (okp (starts_from j m)) m.
Proof.
  intros (Hj & _ & Hv) Hm. unfold create_journal.
  eapply swp_try; [apply read_journal_spec|]. cbv beta zeta. intros j1 ? [-> Hj1].
  assert (j1 = empty_journal \/ j1 = with_checksum j (journal_checksum j)) as [-> | ->].
  { destruct Hj1 as [->|[-> _]]; [by left|right]. rewrite Hm. by apply journal_bytes_roundtrip, sealed_ok. }
  { cbn. split; [by right|done]. }
  case_match; [done|].
  replace (cj_version _ =? 0) with false by (cbn; by rewrite Hv). cbn iota.
  destruct (negb (cj_state _ =? _)) eqn:E.
  2: { apply negb_false_iff, Z.eqb_eq in E. cbn in E. cbn [swp okp]. split; [by left|].
    unfold interrupted. by rewrite E. }
  destruct (interrupted j) eqn:Hi.
  - eapply swp_mono; [by apply stale_spec|]. intros [j'|e] m'; [|done].
    intros (? & ? & Ho & Hn). split; [by left|]. intros _. by rewrite Hn, Ho.
  - eapply swp_mono; [apply swp_leaves, stale_keeps_old|]. intros [j'|e] m'; [|done].
    intros Hj'. split; [by left|by rewrite Hi].
Qed.

(** ** The object under the name *)

(** The kernel said that there is no such name. *)
Definition saw_no_object (name : string) (tr : list (happened chloc)) : Prop :=
  exists e tr1 tr2, tr = tr1 ++ Happened (Sys (sys_shm_open name false)) (SysErr e) :: tr2 /\
    classify_errno e = kNotFound.

(** The name was opened, and the kernel said which object is behind the descriptor that it
    gave, after [fstat] calls that were interrupted if any. *)
Definition saw_object (name : string) (d i : Z) (tr : list (happened chloc)) : Prop :=
  exists fd st n tr1 tr2,
    tr = tr1 ++ Happened (Sys (sys_shm_open name false)) (SysOk fd)
           :: replicate n (Happened (Sys (sys_fstat fd)) (SysErr EINTR))
           ++ Happened (Sys (sys_fstat fd)) (SysOk st) :: tr2 /\
    st_dev st = d /\ st_ino st = i.

Lemma saw_no_object_prefix name tr tr' :
  tr `prefix_of` tr' -> saw_no_object name tr -> saw_no_object name tr'.
Proof.
  intros [tl ->] (e & tr1 & tr2 & -> & He). exists e, tr1, (tr2 ++ tl).
  by rewrite <- app_assoc.
Qed.
Lemma saw_object_prefix name d i tr tr' :
  tr `prefix_of` tr' -> saw_object name d i tr -> saw_object name d i tr'.
Proof.
  intros [tl ->] (fd & st & n & tr1 & tr2 & -> & Hd & Hi). exists fd, st, n, tr1, (tr2 ++ tl).
  split; [|done]. rewrite <- !app_assoc. cbn [app]. by rewrite <- app_assoc.
Qed.

(** A repeated [fstat]. *)
Lemma hwp_retry {X} (c : sys (sysres X)) n e (m : chloc -> Z) tr :
  hwp (retry_eintr n c (SysErr e)) (fun r m' tr' => m' = m /\ forall x, r = SysOk x ->
    exists k, tr' = tr ++ replicate k (Happened (Sys c) (SysErr EINTR)) ++ [Happened (Sys c) (SysOk x)]) m tr.
Proof.
  revert e tr. induction n as [|n IH]; intros e tr; [done|].
  cbn [retry_eintr bind syscall trigger hwp sev]. intros [x|e'].
  - split; [done|]. intros ? [= <-]. by exists 0%nat.
  - bdestr (e' =? EINTR); [|done]. eapply hwp_mono; [apply IH|]. cbv beta.
    intros r m' tr' [-> Hr]. split; [done|]. intros x Hx. destruct (Hr x Hx) as [k ->].
    subst e'. exists (S k). cbn [replicate app]. by rewrite <- app_assoc.
Qed.

(** The identity that the creation works with is that of the object behind the name. *)
Lemma hwp_capture name fd m tr0 :
  hwp (shm_fstat_and_capture fd) (fun r m' tr' => m' = m /\ forall d i s, r = Ok (d, i, s) ->
    saw_object name d i tr') m (tr0 ++ [Happened (Sys (sys_shm_open name false)) (SysOk fd)]).
Proof.
  unfold shm_fstat_and_capture, bounded_fstat. eapply hwp_seq; [apply hwp_retry|]. cbv beta.
  intros [st|e] m' tr' [-> Hr]; [|done]. destruct (Hr st eq_refl) as [k ->]. clear Hr.
  destruct (negb (S_ISREG _)); [done|].
  cbn [bind syscall trigger hwp sev]. intros euid. do 2 (case_match; [done|]).
  split; [done|]. intros ??? [= <- <- <-]. exists fd, st, k, tr0. eexists. split; [|done].
  rewrite <- !app_assoc. reflexivity.
Qed.

(** A part that only reads, when the rest is about the trace as well. *)
Lemma hwp_step_readonly {A B} (p : cprog A) (f : A -> cprog B) Q m tr :
  readonly p -> (forall a tr', tr `prefix_of` tr' -> hwp (f a) Q m tr') -> hwp (bind p f) Q m tr.
Proof.
  intros Hp Hf. eapply hwp_seq; [by apply hwp_swp, swp_readonly|]. cbv beta.
  intros a m' tr' [-> Ht]. by apply Hf.
Qed.

(** The results that matter are the successful ones. *)
Definition okh {A} (P : A -> list (happened chloc) -> Prop) (r : Result A) (m : chloc -> Z)
    (tr : list (happened chloc)) : Prop :=
  match r with Ok x => P x tr | Err _ => True end.

(** The generation of an existing object is one more than what that object says; unless
    the journal has no generation, that is the journal's as well. *)
Definition follows_object (name : string) (m : chloc -> Z) (journaled g : Z)
    (tr : list (happened chloc)) : Prop :=
  exists d i, saw_object name d i tr /\ g = m (Obj d i (Head ch_generation)) + 1 /\
    (journaled = 0 \/ g = journaled + 1).

Lemma retire_existing_spec journal name fd m tr0 :
  hwp (retire_existing journal name fd)
    (okh (follows_object name m (cj_new_generation journal))) m
    (tr0 ++ [Happened (Sys (sys_shm_open name false)) (SysOk fd)]).
Proof.
  unfold retire_existing. eapply hwp_seq; [apply hwp_capture|]. cbv beta.
  intros [[[edev eino] esize]|e] ? tr1 [-> Hid]; [|done]. specialize (Hid _ _ _ eq_refl).
  cbv zeta. case_match; [done|].
  apply hwp_step_readonly; [solve_readonly|]. intros [?|e] tr2 Ht2; [|done].
  apply hwp_step_readonly; [solve_readonly|]. intros boot tr3 Ht3.
  case_match; [|done]. cbn [bind shared_load_acquire trigger hwp sev]. case_match; [done|].
  apply hwp_step_readonly; [solve_readonly|]. intros magic tr4 Ht4.
  cbn [bind plain_load trigger hwp sev]. case_match; [done|].
  apply hwp_step_readonly; [solve_readonly|]. intros [?|e] tr5 Ht5; [|done].
  cbn [bind plain_load trigger hwp sev].
  destruct (negb (cj_new_generation journal =? 0) && _) eqn:Hj; [done|].
  case_match; [done|].
  apply hwp_step_readonly; [solve_readonly|]. intros [?|e] tr6 Ht6; [|done].
  exists edev, eino. split; [|split; [done|]].
  - eapply saw_object_prefix; [|exact Hid].
    apply prefix_app_l in Ht4, Ht5, Ht6.
    etrans; [exact Ht2|]. etrans; [exact Ht3|]. etrans; [exact Ht4|]. by etrans.
  - destruct (decide (cj_new_generation journal = 0)); [by left|right]. lia.
Qed.

(** How the generation was chosen: the journal's next one when the kernel said that there
    is no object of the name, otherwise by the object. *)
Definition chosen (name : string) (m : chloc -> Z) (j : ControlJournalV1) (g : Z)
    (tr : list (happened chloc)) : Prop :=
  (next_generation_from_journal j = Some g /\ saw_no_object name tr) \/
  follows_object name m (cj_new_generation j) g tr.

Lemma choose_generation_spec options j name m tr :
  hwp (choose_generation options j name) (okh (chosen name m j)) m tr.
Proof.
  unfold choose_generation, shm_open_existing.
  destruct (next_generation_from_journal j) as [g|] eqn:Hj; [|done].
  apply hwp_step_readonly; [solve_readonly|]. intros [?|e] tr1 H1; [|done].
  cbn [bind syscall trigger hwp sev]. intros [fd|e]; cbn [bind hwp].
  - eapply hwp_mono; [apply retire_existing_spec|]. intros [g'|e] m' tr' Hg; [by right|done].
  - case_bool_decide as He; cbn [negb hwp]; [|done]. left. split; [done|].
    exists e, tr1, []. by split.
Qed.

(** The last thing the initialisation of an object does is to write the final record. *)
Lemma initialise_records lock options schema ps self path record fd dev ino gen hi lo m :
  journal_shape (with_target (record js_kIdle) dev ino) ->
  swp (initialise_object lock options schema ps self path record fd dev ino gen hi lo)
    (okp (fun _ m' => recorded lock (with_target (record js_kIdle) dev ino) m')) m.
Proof.
  intros Hj. unfold initialise_object. apply swp_try_any. intros _ m1. case_match; [|done].
  do 3 (apply swp_try_any; intros _ ?). eapply swp_seq; [by apply (swp_any _ (fun _ _ => True))|].
  intros _ m2 _. apply swp_try_any. intros epoch m3. cbn [bind shared_store_relaxed trigger swp sev].
  apply swp_try_any. intros lfd m4. cbn [bind shared_store_release trigger swp sev].
  eapply swp_seq; [by apply write_journal_stores|]. intros [x|e] m5 Hm5; [exact Hm5|].
  eapply swp_seq; [by apply (swp_any _ (fun _ _ => True))|]. done.
Qed.

Lemma new_handle_recorded id lock j m :
  recorded lock j m -> swp (init_producer_handle id) (fun _ m' => recorded lock j m') m.
Proof.
  intros Hm. eapply swp_mono; [apply (swp_frame (fun l => match l with PHnd _ _ => True | _ => False end));
    apply store_list_writes_in; by repeat constructor|].
  cbv beta. intros _ m' Hf. unfold recorded. rewrite <- Hm. apply map_ext_in. intros l Hl.
  apply list_elem_of_In, list_elem_of_fmap in Hl as (i & -> & _). apply Hf. by intros [].
Qed.

(** What a creation that succeeds leaves in the lock file: an idle record of its
    generation, with the old generation it found. *)
Definition left_behind (lock : ControlLock) (old : Z) (pd : ProducerHandle) (m : chloc -> Z) : Prop :=
  exists j, recorded lock j m /\ cj_state j = js_kIdle /\ cj_old_generation j = old /\
    cj_new_generation j = pd_generation pd.

(** The generation of the new instance after an interrupted transaction, by what the
    creation saw under the name: no object, or the object [d], [i]. *)
Definition restarted (name : string) (old : Z) (m : chloc -> Z) (generation : Z)
    (tr : list (happened chloc)) : Prop :=
  (generation = old + 1 /\ saw_no_object name tr) \/
  follows_object name m old generation tr.

Lemma restarted_prefix name old m g tr tr' :
  tr `prefix_of` tr' -> restarted name old m g tr -> restarted name old m g tr'.
Proof.
  intros Ht [[Hg Hn]|(d & i & Ho & Hg)]; [left|right].
  - split; [done|]. by eapply saw_no_object_prefix.
  - exists d, i. split; [by eapply saw_object_prefix|done].
Qed.

Lemma next_generation_exact j g :
  cj_state j = js_kIdle -> is_u64 (cj_old_generation j) ->
  cj_new_generation j = cj_old_generation j ->
  next_generation_from_journal j = Some g -> g = cj_old_generation j + 1.
Proof.
  intros Hs Ho Hn. unfold next_generation_from_journal. rewrite Hs, Hn, Z.max_id. cbn [Z.eqb js_kIdle].
  bdestr (UINT64_MAX - 1 <=? cj_old_generation j); [done|]. intros [= <-]. apply u64_small. mlia.
Qed.

Lemma create_locked_generation id lock options schema ps self name path hash j m :
  journal_valid j -> recorded lock j m ->
  hwp (create_locked id lock options schema ps self name path hash) (fun r m' tr =>
    okp (fun pd m' => exists old, old_of j old /\ left_behind lock old pd m' /\
      (interrupted j = true -> restarted name old m (pd_generation pd) tr)) r m') m [].
Proof.
  intros Hv Hm. unfold create_locked.
  eapply hwp_seq; [by apply hwp_swp, (create_journal_spec _ _ _ _ j)|]. cbv beta zeta.
  intros [j1|e] m1 tr1 [Hj1 _]; [|done]. destruct Hj1 as [Ho1 Hs1].
  eapply hwp_seq; [apply choose_generation_spec|]. intros [g|e] m2 tr2 Hg; [|done].
  assert (interrupted j = true -> restarted name (cj_old_generation j1) m g tr2) as Hr.
  { intros Hi. destruct (Hs1 Hi) as (Hm1 & Hst & Hn). destruct Hg as [[Hg Hno]|(d & i & Hd & Hg & Hj)].
    - left. split; [|done]. apply next_generation_exact; try done. destruct Hv as [[_ _ _ _ _ H64] _].
      rewrite !Forall_cons in H64. destruct Ho1 as [-> | ->]; [tauto|mlia].
    - right. exists d, i. rewrite <- Hm1, <- Hn. done. }
  clear Hg Hs1.
  eapply hwp_mono; [eapply (hwp_swp _ (okp (fun pd m' => pd_generation pd = g /\
    left_behind lock (cj_old_generation j1) pd m')))|].
  2: { cbv beta. intros [pd|e] m' tr' [Hpd Ht]; [|done]. destruct Hpd as [Hpd Hl].
    exists (cj_old_generation j1). split; [done|]. split; [done|]. intros Hi. rewrite Hpd.
    eapply restarted_prefix; [exact Ht|]. by apply Hr. }
  clear Hr. eapply swp_seq; [by apply (swp_any _ (fun _ _ => True))|].
  intros [nonce|e] m3 _; [|done]. cbv zeta. apply swp_try_any. intros _ m4.
  eapply swp_seq; [by apply (swp_any _ (fun _ _ => True))|]. intros [[[[fd dev] ino]|e] armed] m5 _.
  2: { eapply swp_seq; [by apply (swp_any _ (fun _ _ => True))|]. done. }
  eapply swp_seq; [by apply initialise_records|]. intros [[[epoch mapping] lfd]|e] m6 Hm6.
  2: { eapply swp_seq; [by apply (swp_any _ (fun _ _ => True))|]. done. }
  eapply swp_seq; [by apply new_handle_recorded|]. cbv beta. intros ? m7 Hm7.
  assert (forall pd, pd_generation pd = g -> left_behind lock (cj_old_generation j1) pd m7) as Hl.
  { intros pd Hpd. eexists. split; [exact Hm7|]. split; [reflexivity|]. split; [reflexivity|].
    rewrite Hpd. reflexivity. }
  destruct (bool_decide _); [|split; [done|by apply Hl]].
  intros [[]|e]; [|intros ?; exact I]. split; [done|by apply Hl].
Qed.

(** C29: generations come again after a crash. Whatever the kernel answers and whatever is
    in the objects, starting from any valid record in the lock file: a creation that
    succeeds leaves an idle record of the generation of its handle, but with the old
    generation that it found (0 if the kernel says that the file is empty); only a removal
    sets that. And if the record was of a creation that died before it had an object, or
    of a removal that died, then the generation it was for is not used: either the kernel
    said that there is no object of the name, and the new instance has the old generation
    plus one, which is 1 for a channel that was never removed; or the name was opened and
    the object behind that descriptor, by the identity that the kernel gave for it, has
    the generation just before the new one, which then is the old one unless that is 0.
    The first is the normal course after a creation that died: it had unlinked the
    object it replaces. *)
Theorem generation_restarts {OS} (os : os_model OS) o id lock options schema ps self name path hash
    j m pd :
  journal_valid j -> recorded lock j m ->
  let create := create_locked id lock options schema ps self name path hash in
  let r := run os create (mkWorld m o) in
  r.1 = Ok pd ->
  exists old, old_of j old /\ left_behind lock old pd (w_mem r.2) /\
    (interrupted j = true ->
       restarted name old m (pd_generation pd) (run_trace os create (mkWorld m o))).
Proof.
  intros Hv Hm create r Hr.
  pose proof (hwp_run os _ _ m [] o
    (create_locked_generation id lock options schema ps self name path hash j m Hv Hm)) as H.
  fold create in H. fold r in H. cbv beta in H. rewrite Hr, app_nil_l in H. exact H.
Qed.

(** A creator of generation 8 died after its first record; its object was never made, and
    the one of generation 7 is gone. *)
Module CrashDemo.
Definition record : ControlJournalV1 :=
  make_control_journal "cam0" js_kCreatingPreObject 0 8 0 0 11 12 (mkIdentity 99 7 5 6).
Definition record_bytes : list Z :=
  Eval vm_compute in journal_bytes (with_checksum record (journal_checksum record)).
Definition memory : chloc -> Z :=
  fun l => match l with Jrn _ i => nth i record_bytes 0 | _ => 0 end.
Definition os : os_model NewChannelDemo.machine := fun X c o =>
  match c in sys Y return Y * NewChannelDemo.machine with
  | sys_pidfd_open _ => (SysErr ESRCH, o)
  | c => NewChannelDemo.os _ c o
  end.
Definition lock : ControlLock := mkControlLock NewChannelDemo.lock_fd "/run/user/1000/edgeruntime/cam0.lock".
Definition handle_of (r : Result ProducerHandle) : ProducerHandle :=
  match r with Ok pd => pd | Err _ => NewChannelDemo.handles.1 end.
Notation after :=
  (run os (create_locked 0 lock NewChannelDemo.options NewChannelDemo.schema 4 (mkIdentity 100 7 5 6)
             "/edge_cam0" "" (channel_name_hash (string_codes "cam0")))
     (mkWorld memory (NewChannelDemo.mkMachine None true))).
Definition is_ok (r : Result ProducerHandle) : bool := match r with Ok _ => true | Err _ => false end.
Lemma is_ok_handle r : is_ok r = true -> r = Ok (handle_of r).
Proof. by destruct r. Qed.
Lemma create_succeeds : is_ok after.1 = true.
Proof. vm_compute. reflexivity. Qed.
Lemma record_valid : journal_valid record.
Proof.
  split; [|by split]. split; try reflexivity; repeat constructor; vm_compute; intros [=].
Qed.
Lemma record_stored : recorded lock record memory.
Proof. vm_compute. reflexivity. Qed.
End CrashDemo.

Lemma generation_restarts_witness :
  cj_new_generation CrashDemo.record = 8 /\ pd_generation (CrashDemo.handle_of CrashDemo.after.1) = 1.
Proof.
  split; [reflexivity|].
  pose proof (generation_restarts CrashDemo.os (NewChannelDemo.mkMachine None true) 0
    CrashDemo.lock NewChannelDemo.options NewChannelDemo.schema 4 (mkIdentity 100 7 5 6)
    "/edge_cam0" "" (channel_name_hash (string_codes "cam0")) CrashDemo.record CrashDemo.memory
    (CrashDemo.handle_of CrashDemo.after.1) CrashDemo.record_valid CrashDemo.record_stored) as H.
  destruct (H (CrashDemo.is_ok_handle _ CrashDemo.create_succeeds)) as (old & Ho & _ & Hg).
  assert (old = 0) as -> by (by destruct Ho).
  destruct (Hg eq_refl) as [[Hg1 _]|(d & i & _ & Hg1 & _)]; exact Hg1.
Defined.
