(* ===== verification/ProcessSpawn.v ===== *)
(** Child processes: [src/edge_runtime/process/process_spawn.{hpp,cpp}] and the
    [LivenessWatch] of [src/edge_runtime/process/process_identity.{hpp,cpp}].

    Starting a program is the system call [sys_posix_spawn]; the preparation of its
    arguments may fail too, one call of the C library at a time. *)
From S2P Require Import Prelude Errors Prog ProcIdentity ShmObject FdBroker.

(** [UniqueFd::reset]. *)
Definition reset_fd {L} (fd : Z) : prog L unit :=
  if 0 <=? fd then syscall (sys_close fd) else Ret tt.

Definition STDOUT_FILENO : Z := 1.

Record SpawnedProcess : Type := mkSpawned {
  sp_pid : Z;
  sp_stdout_read : Z
}.

(** [SpawnedProcess{}]. *)
Definition no_process : SpawnedProcess := mkSpawned (-1) (-1).

Definition op_spawn : string := "spawn_process".

(** [rc = ...; if (rc != 0) return make_errno_error(rc, ...)] for the steps that
    prepare a spawn. *)
Fixpoint spawn_prepare {L} (steps : list spawn_setup) : prog L (Result unit) :=
  match steps with
  | [] => Ret (Ok tt)
  | step :: steps' =>
      let! rc := syscall (sys_spawn_setup step) in
      match rc with
      | SysErr e => Ret (Err (make_errno_error e op_spawn strerror_text))
      | SysOk _ => spawn_prepare steps'
      end
  end.

Definition spawn_steps (read_end write_end : Z) : list spawn_setup :=
  [sa_init; sa_addclose read_end; sa_adddup2 write_end STDOUT_FILENO] ++
  (if negb (write_end =? STDOUT_FILENO) then [sa_addclose write_end] else []) ++
  [sattr_init; sattr_setsigmask; sattr_setflags].

(** [c_argv] is [argv] itself; [build_c_argv] only adds the final null pointer, in a vector
    that may not be allocated. *)
Definition spawn_process {L} (argv : list string) : prog L (Result SpawnedProcess) :=
  match argv with
  | [] | EmptyString :: _ => fail kInvalidOptions op_spawn "empty argv"
  | path :: _ =>
      let! built := syscall (sys_spawn_setup sargv_build) in
      match built with
      | SysErr _ => fail kSystemError op_spawn "argv allocation failed"
      | SysOk _ =>
      let! pipefd := syscall sys_pipe2 in
      match pipefd with
      | SysErr e => Ret (Err (make_errno_error e op_spawn strerror_text))
      | SysOk (read_end, write_end) =>
          let! prepared := spawn_prepare (spawn_steps read_end write_end) in
          match prepared with
          | Err e =>
              do! reset_fd write_end;
              do! reset_fd read_end;
              Ret (Err e)
          | Ok _ =>
              let! rc := syscall (sys_posix_spawn path argv read_end write_end) in
              do! reset_fd write_end;
              match rc with
              | SysErr e =>
                  do! reset_fd read_end;
                  Ret (Err (make_errno_error e op_spawn strerror_text))
              | SysOk pid => Ret (Ok (mkSpawned pid read_end))
              end
          end
      end
      end
  end.

(** * [LivenessWatch] *)

(** The descriptor of the watch. *)
Definition liveness_watch_open {L} (pid : Z) : prog L (Result Z) :=
  let op := "LivenessWatch::open" in
  if (pid =? 0) || (INT32_MAX <? pid) then fail kInvalidOptions op "implausible pid"
  else
  let! opened := syscall (sys_pidfd_open pid) in
  match opened with
  | SysErr e => Ret (Err (make_errno_error e op strerror_text))
  | SysOk pidfd =>
      let bad e :=
        do! reset_fd pidfd;
        Ret (Err (make_errno_error e op "fcntl(FD_CLOEXEC)")) in
      let! flags := syscall (sys_fcntl pidfd F_GETFD 0) in
      match flags with
      | SysErr e => bad e
      | SysOk flags =>
          let! set := syscall (sys_fcntl pidfd F_SETFD (Z.lor flags FD_CLOEXEC)) in
          match set with
          | SysErr e => bad e
          | SysOk _ => Ret (Ok pidfd)
          end
      end
  end.

Definition liveness_watch_exited {L} (pidfd : Z) : prog L bool :=
  if pidfd <? 0 then Ret true
  else
  let! rc := syscall (sys_poll pidfd POLLIN 0) in
  Ret match rc with SysOk (n, _) => 0 <? n | SysErr _ => false end.

Definition current_process_identity {L} : prog L ProcessIdentity :=
  let! identity := read_current_process_identity in
  Ret match identity with Ok id => id | Err _ => zero_identity end.
