(* ===== verification/Supervisor.v ===== *)
(** The producer supervisor: [include/edge_runtime/process/supervisor.hpp] and
    [src/edge_runtime/process/supervisor_impl.{hpp,cpp}].

    [run] starts the producer's program, waits until its channel is ready, watches
    the child and the heartbeat, and kills and restarts it, in one loop that blocks
    only in [epoll_wait]. The handle is threaded through the phases of the loop; its
    fields that other threads use are locations of the memory. The calls of the
    event callback are collected in the handle, newest first. *)
From S2P Require Import Prelude Errors CheckedMath Prog ProcIdentity ShmObject Clock ChannelLayout.
From S2P Require Import ChannelSegment ChannelAbi ProducerCreate FdBroker Observer ProcessSpawn.

Definition kEpollMaxEvents : Z := 8.
Definition kStdoutTailLimit : nat := 4096.
Definition kAwaitReadySliceNs : Z := 100000000.

Definition SIGINT : Z := 2.
Definition SIGKILL : Z := 9.
Definition SIGTERM : Z := 15.

Inductive SupervisorEvent : Type :=
| se_kSupervised | se_kStallDetected | se_kKilled | se_kRestartArmed.

Record SupervisorEventInfo : Type := mkEventInfo {
  ei_event : SupervisorEvent;
  ei_pid : Z;
  ei_generation : Z;
  ei_attempt : Z;
  ei_delay_ns : Z;
  ei_signal : Z
}.

(** The durations are in milliseconds; [vo_on_event] is [on_event != nullptr]. *)
Record SupervisorOptions : Type := mkSupervisorOptions {
  vo_channel_name : string;
  vo_transport : Transport;
  vo_producer_argv : list string;
  vo_initial_delay : Z;
  vo_max_delay : Z;
  vo_multiplier : Z;
  vo_max_restarts : Z;
  vo_stable_reset_window : Z;
  vo_stall_grace : Z;
  vo_watch_interval : Z;
  vo_create_timeout : Z;
  vo_on_event : bool
}.

Inductive SupervisionOutcome : Type :=
| sv_kCleanExit | sv_kStopped | sv_kRestartsExhausted.

Record SupervisionResult : Type := mkSupervisionResult {
  sr_outcome : SupervisionOutcome;
  sr_spawn_attempts : Z;
  sr_restarts : Z;
  sr_last_generation : Z;
  sr_last_child_pid : Z;
  sr_last_child_exit_status : Z;
  sr_stdout_tail : list Z
}.

Inductive ReapDecision : Type := rd_kUndecided | rd_kCleanExit | rd_kRestart.

(** The fields of the handle about the child. *)
Record ChildState : Type := mkChild {
  cp_process : SpawnedProcess;
  cp_pidfd : Z;
  cp_start_ticks : Z;
  cp_reaped : bool;
  cp_kill_in_progress : bool;
  cp_reap_decision : ReapDecision;
  cp_last_exit_status : Z
}.

(** [view] and [have_view] are one option. *)
Record SupervisorHandle : Type := mkSupervisor {
  sh_id : nat;
  sh_options : SupervisorOptions;
  sh_epoll_fd : Z;
  sh_signalfd_fd : Z;
  sh_child : ChildState;
  sh_spawn_attempts : Z;
  sh_consecutive_failures : Z;
  sh_last_spawn_mono_ns : Z;
  sh_baseline_generation : Z;
  sh_view : option ChannelObserverView;
  sh_stdout_tail : list Z;
  sh_events : list SupervisorEventInfo
}.

Definition cp_pid (c : ChildState) : Z := sp_pid (cp_process c).
Definition cp_stdout (c : ChildState) : Z := sp_stdout_read (cp_process c).

(** [child_reaped = true; last_exit_status_for_reap = status]. *)
Definition child_gone (status : Z) (c : ChildState) : ChildState :=
  mkChild (cp_process c) (cp_pidfd c) (cp_start_ticks c) true (cp_kill_in_progress c)
    (cp_reap_decision c) status.
Definition set_pidfd (fd : Z) (c : ChildState) : ChildState :=
  mkChild (cp_process c) fd (cp_start_ticks c) (cp_reaped c) (cp_kill_in_progress c)
    (cp_reap_decision c) (cp_last_exit_status c).
Definition set_stdout (fd : Z) (c : ChildState) : ChildState :=
  mkChild (mkSpawned (cp_pid c) fd) (cp_pidfd c) (cp_start_ticks c) (cp_reaped c)
    (cp_kill_in_progress c) (cp_reap_decision c) (cp_last_exit_status c).
Definition set_start_ticks (ticks : Z) (c : ChildState) : ChildState :=
  mkChild (cp_process c) (cp_pidfd c) ticks (cp_reaped c) (cp_kill_in_progress c)
    (cp_reap_decision c) (cp_last_exit_status c).
Definition set_killing (c : ChildState) : ChildState :=
  mkChild (cp_process c) (cp_pidfd c) (cp_start_ticks c) (cp_reaped c) true
    (cp_reap_decision c) (cp_last_exit_status c).
Definition set_decision (d : ReapDecision) (c : ChildState) : ChildState :=
  mkChild (cp_process c) (cp_pidfd c) (cp_start_ticks c) (cp_reaped c) (cp_kill_in_progress c)
    d (cp_last_exit_status c).

Definition set_child (c : ChildState) (h : SupervisorHandle) : SupervisorHandle :=
  mkSupervisor (sh_id h) (sh_options h) (sh_epoll_fd h) (sh_signalfd_fd h) c
    (sh_spawn_attempts h) (sh_consecutive_failures h) (sh_last_spawn_mono_ns h)
    (sh_baseline_generation h) (sh_view h) (sh_stdout_tail h) (sh_events h).
Definition set_failures (n : Z) (h : SupervisorHandle) : SupervisorHandle :=
  mkSupervisor (sh_id h) (sh_options h) (sh_epoll_fd h) (sh_signalfd_fd h) (sh_child h)
    (sh_spawn_attempts h) n (sh_last_spawn_mono_ns h) (sh_baseline_generation h) (sh_view h)
    (sh_stdout_tail h) (sh_events h).
Definition set_last_spawn (ns : Z) (h : SupervisorHandle) : SupervisorHandle :=
  mkSupervisor (sh_id h) (sh_options h) (sh_epoll_fd h) (sh_signalfd_fd h) (sh_child h)
    (sh_spawn_attempts h) (sh_consecutive_failures h) ns (sh_baseline_generation h) (sh_view h)
    (sh_stdout_tail h) (sh_events h).
(** The fields [kSpawn] resets, and the attempt it counts. *)
Definition start_attempt (h : SupervisorHandle) : SupervisorHandle :=
  mkSupervisor (sh_id h) (sh_options h) (sh_epoll_fd h) (sh_signalfd_fd h) (sh_child h)
    (u32 (sh_spawn_attempts h + 1)) (sh_consecutive_failures h) (sh_last_spawn_mono_ns h)
    (sh_baseline_generation h) None [] (sh_events h).
Definition set_supervised (generation : Z) (view : ChannelObserverView) (h : SupervisorHandle)
    : SupervisorHandle :=
  mkSupervisor (sh_id h) (sh_options h) (sh_epoll_fd h) (sh_signalfd_fd h) (sh_child h)
    (sh_spawn_attempts h) (sh_consecutive_failures h) (sh_last_spawn_mono_ns h) generation
    (Some view) (sh_stdout_tail h) (sh_events h).
Definition set_tail (tail : list Z) (h : SupervisorHandle) : SupervisorHandle :=
  mkSupervisor (sh_id h) (sh_options h) (sh_epoll_fd h) (sh_signalfd_fd h) (sh_child h)
    (sh_spawn_attempts h) (sh_consecutive_failures h) (sh_last_spawn_mono_ns h)
    (sh_baseline_generation h) (sh_view h) tail (sh_events h).
Definition set_fds (epoll_fd signalfd_fd : Z) (h : SupervisorHandle) : SupervisorHandle :=
  mkSupervisor (sh_id h) (sh_options h) epoll_fd signalfd_fd (sh_child h)
    (sh_spawn_attempts h) (sh_consecutive_failures h) (sh_last_spawn_mono_ns h)
    (sh_baseline_generation h) (sh_view h) (sh_stdout_tail h) (sh_events h).
(** A call of the callback. *)
Definition notify (info : SupervisorEventInfo) (h : SupervisorHandle) : SupervisorHandle :=
  mkSupervisor (sh_id h) (sh_options h) (sh_epoll_fd h) (sh_signalfd_fd h) (sh_child h)
    (sh_spawn_attempts h) (sh_consecutive_failures h) (sh_last_spawn_mono_ns h)
    (sh_baseline_generation h) (sh_view h) (sh_stdout_tail h)
    (if vo_on_event (sh_options h) then info :: sh_events h else sh_events h).

Definition set_child_of (f : ChildState -> ChildState) (h : SupervisorHandle) : SupervisorHandle :=
  set_child (f (sh_child h)) h.

(** * Durations and exit codes *)

Definition valid_milliseconds (ms : Z) (allow_zero : bool) : bool :=
  if (ms <? 0) || (negb allow_zero && (ms =? 0)) then false
  else ms <=? UINT64_MAX / 1000000.

Definition ms_to_ns (ms : Z) : Z := if 0 <? ms then u64 (ms * 1000000) else 0.

Definition ns_to_epoll_ms (ns : Z) : Z :=
  if ns =? 0 then 0
  else
    let ms := ns / 1000000 in
    let ms := if ms =? 0 then 1 else ms in
    if INT32_MAX <? ms then INT32_MAX else ms.

(** The macros of [sys/wait.h]. *)
Definition WTERMSIG (status : Z) : Z := Z.land status 127.
Definition WIFEXITED (status : Z) : bool := WTERMSIG status =? 0.
Definition WEXITSTATUS (status : Z) : Z := Z.land (Z.shiftr status 8) 255.
Definition WIFSIGNALED (status : Z) : bool :=
  negb (WTERMSIG status =? 0) && negb (WTERMSIG status =? 127).

Definition is_clean_exit_status (status : Z) : bool :=
  if WIFEXITED status && (WEXITSTATUS status =? 0) then true
  else if WIFSIGNALED status then (WTERMSIG status =? SIGTERM) || (WTERMSIG status =? SIGINT)
  else false.

(** The loop of [backoff_delay_ns], with the rounds it has left. *)
Fixpoint backoff_loop (rounds : nat) (multiplier capped delay : Z) : Z :=
  match rounds with
  | O => delay
  | S rounds' =>
      if delay <? capped then
        if capped / multiplier <? delay then capped
        else backoff_loop rounds' multiplier capped (u64 (delay * multiplier))
      else delay
  end.

Definition backoff_delay_ns (h : SupervisorHandle) : Z :=
  let delay := ms_to_ns (vo_initial_delay (sh_options h)) in
  let capped := ms_to_ns (vo_max_delay (sh_options h)) in
  let capped := if capped =? 0 then delay else capped in
  let delay :=
    backoff_loop (Z.to_nat (sh_consecutive_failures h - 1)) (vo_multiplier (sh_options h)) capped
      delay in
  if capped <? delay then capped else delay.

Definition emit_event (event : SupervisorEvent) (pid generation signal : Z)
    (h : SupervisorHandle) : SupervisorHandle :=
  notify (mkEventInfo event pid generation 0 0 signal) h.

Definition append_stdout_tail (tail data : list Z) : list Z :=
  let size := length data in
  if (kStdoutTailLimit <=? size)%nat then drop (size - kStdoutTailLimit) data
  else
    let tail :=
      if (kStdoutTailLimit <? length tail + size)%nat
      then drop (length tail + size - kStdoutTailLimit) tail else tail in
    tail ++ data.

(** * Creation *)

Definition op_screate : string := "ProducerSupervisor::create".

Definition new_supervisor (id : nat) (options : SupervisorOptions) : SupervisorHandle :=
  mkSupervisor id options (-1) (-1) (mkChild no_process (-1) 0 false false rd_kUndecided 0)
    0 0 0 0 None [] [].

(** Every value of [Transport] is a known one. *)
Definition supervisor_create_impl (id : nat) (options : SupervisorOptions)
    : Result SupervisorHandle :=
  let bad ctx := Err (make_error kInvalidOptions op_screate ctx) in
  if negb (channel_name_ok (vo_channel_name options)) then
    Err (make_error kInvalidName op_screate (vo_channel_name options))
  else if match vo_producer_argv options with [] | EmptyString :: _ => true | _ => false end then
    bad "empty producer argv"
  else if negb (valid_milliseconds (vo_watch_interval options) false)
          || negb (valid_milliseconds (vo_create_timeout options) false) then
    bad "invalid watch/create timeouts"
  else if negb (valid_milliseconds (vo_initial_delay options) true)
          || negb (valid_milliseconds (vo_max_delay options) true)
          || negb (valid_milliseconds (vo_stable_reset_window options) false)
          || negb (valid_milliseconds (vo_stall_grace options) true)
          || (vo_max_delay options <? vo_initial_delay options) then
    bad "invalid delay/grace option"
  else if vo_multiplier options <? 1 then bad "multiplier < 1"
  else Ok (new_supervisor id options).

(** * The child *)

Definition op_run : string := "ProducerSupervisor::run".
Definition op_kill : string := "ProducerSupervisor::kill".
Definition op_waitpid : string := "ProducerSupervisor::waitpid".

Definition epoll_add {L} (h : SupervisorHandle) (fd : Z) : prog L (Result unit) :=
  let! r := syscall (sys_epoll_add (sh_epoll_fd h) fd) in
  Ret match r with
      | SysOk _ => Ok tt
      | SysErr e => Err (make_errno_error e "ProducerSupervisor::epoll_add" strerror_text)
      end.

(** At most [fuel] reads; what is left in the pipe raises the next event. *)
Fixpoint drain_child_stdout {L} (fuel : nat) (h : SupervisorHandle) : prog L SupervisorHandle :=
  let c := sh_child h in
  if cp_stdout c <? 0 then Ret h
  else
  match fuel with
  | O => Ret h
  | S fuel' =>
      let! n := syscall (sys_read (cp_stdout c) 4096) in
      match n with
      | SysOk [] => do! reset_fd (cp_stdout c); Ret (set_child_of (set_stdout (-1)) h)
      | SysOk data =>
          drain_child_stdout fuel' (set_tail (append_stdout_tail (sh_stdout_tail h) data) h)
      | SysErr e =>
          if e =? EAGAIN then Ret h
          else if e =? EINTR then drain_child_stdout fuel' h
          else do! reset_fd (cp_stdout c); Ret (set_child_of (set_stdout (-1)) h)
      end
  end.

(** Whether the child is gone, its status, and the handle. [fuel] bounds the
    interrupted calls. *)
Definition reap_child {L} (fuel : nat) (h : SupervisorHandle)
    : prog L (Result (bool * Z) * SupervisorHandle) :=
  let c := sh_child h in
  if cp_pid c <=? 0 then Ret (Ok (true, 0), h)
  else if cp_reaped c then Ret (Ok (true, cp_last_exit_status c), h)
  else
  let! r := retry_eintr fuel (sys_waitpid (cp_pid c) true) (SysErr EINTR) in
  match r with
  | SysErr e => Ret (Err (make_errno_error e op_waitpid strerror_text), h)
  | SysOk (rc, status) =>
      if rc =? cp_pid c then
        do! reset_fd (cp_pidfd c);
        Ret (Ok (true, status), set_child_of (fun c => set_pidfd (-1) (child_gone status c)) h)
      else Ret (Ok (false, 0), h)
  end.

Definition reap_child_blocking {L} (fuel : nat) (pid : Z) : prog L (Result Z) :=
  let! r := retry_eintr fuel (sys_waitpid pid false) (SysErr EINTR) in
  Ret match r with
      | SysErr e => Err (make_errno_error e op_waitpid strerror_text)
      | SysOk (_, status) => Ok status
      end.

(** [::kill(pid, sig) != 0 && errno != ESRCH] is the error. *)
Definition kill_child {L} (pid sig : Z) : prog L (Result unit) :=
  let! r := syscall (sys_kill pid sig) in
  Ret match r with
      | SysOk _ => Ok tt
      | SysErr e => if e =? ESRCH then Ok tt else Err (make_errno_error e op_kill strerror_text)
      end.

Definition arm_child_kill {L} (h : SupervisorHandle) : prog L (Result unit * SupervisorHandle) :=
  let c := sh_child h in
  if (cp_pid c <=? 0) || cp_reaped c || cp_kill_in_progress c then Ret (Ok tt, h)
  else
  let! killed := kill_child (cp_pid c) SIGTERM in
  match killed with
  | Err e => Ret (Err e, h)
  | Ok _ => Ret (Ok tt, set_child_of set_killing h)
  end.

(** [true] when there are no restarts left. *)
Definition count_failure {L} (h : SupervisorHandle) : prog L (bool * SupervisorHandle) :=
  let! now := monotonic_now_ns in
  let last := sh_last_spawn_mono_ns h in
  let h :=
    if negb (now =? 0) && negb (last =? 0) && (last <=? now)
       && (ms_to_ns (vo_stable_reset_window (sh_options h)) <=? now - last)
    then set_failures 0 h else h in
  if vo_max_restarts (sh_options h) <=? sh_consecutive_failures h then Ret (true, h)
  else
    let h := set_failures (u32 (sh_consecutive_failures h + 1)) h in
    Ret (false, notify (mkEventInfo se_kRestartArmed 0 0 (sh_consecutive_failures h)
                          (backoff_delay_ns h) 0) h).

(** * The loop *)

Inductive Phase : Type := ph_kBackoff | ph_kSpawn | ph_kAwaitReady | ph_kMonitor | ph_kKill | ph_kDone.

#[global] Instance Phase_eq_dec : EqDecision Phase.
Proof. solve_decision. Defined.

(** The local variables of [supervisor_run]; [lp_error] is [loop_failed] and
    [loop_error]. *)
Record LoopState : Type := mkLoop {
  lp_phase : Phase;
  lp_kill_then_restart : bool;
  lp_backoff_deadline : Z;
  lp_create_deadline : Z;
  lp_grace_deadline : Z;
  lp_error : option Error;
  lp_outcome : SupervisionOutcome;
  lp_exit_status : Z;
  lp_handle : SupervisorHandle
}.

Definition go (p : Phase) (s : LoopState) : LoopState :=
  mkLoop p (lp_kill_then_restart s) (lp_backoff_deadline s) (lp_create_deadline s)
    (lp_grace_deadline s) (lp_error s) (lp_outcome s) (lp_exit_status s) (lp_handle s).
Definition with_handle (h : SupervisorHandle) (s : LoopState) : LoopState :=
  mkLoop (lp_phase s) (lp_kill_then_restart s) (lp_backoff_deadline s) (lp_create_deadline s)
    (lp_grace_deadline s) (lp_error s) (lp_outcome s) (lp_exit_status s) h.
(** [loop_error = e; loop_failed = true; phase = Phase::kDone]. *)
Definition loop_fail (e : Error) (s : LoopState) : LoopState :=
  mkLoop ph_kDone (lp_kill_then_restart s) (lp_backoff_deadline s) (lp_create_deadline s)
    (lp_grace_deadline s) (Some e) (lp_outcome s) (lp_exit_status s) (lp_handle s).
(** [result.outcome = o; phase = Phase::kDone]. *)
Definition finish (o : SupervisionOutcome) (s : LoopState) : LoopState :=
  mkLoop ph_kDone (lp_kill_then_restart s) (lp_backoff_deadline s) (lp_create_deadline s)
    (lp_grace_deadline s) (lp_error s) o (lp_exit_status s) (lp_handle s).
Definition set_exit_status (status : Z) (s : LoopState) : LoopState :=
  mkLoop (lp_phase s) (lp_kill_then_restart s) (lp_backoff_deadline s) (lp_create_deadline s)
    (lp_grace_deadline s) (lp_error s) (lp_outcome s) status (lp_handle s).
(** [kill_then_restart = b; phase = p]. *)
Definition go_restart (b : bool) (p : Phase) (s : LoopState) : LoopState :=
  mkLoop p b (lp_backoff_deadline s) (lp_create_deadline s) (lp_grace_deadline s) (lp_error s)
    (lp_outcome s) (lp_exit_status s) (lp_handle s).
Definition set_backoff_deadline (ns : Z) (s : LoopState) : LoopState :=
  mkLoop (lp_phase s) (lp_kill_then_restart s) ns (lp_create_deadline s) (lp_grace_deadline s)
    (lp_error s) (lp_outcome s) (lp_exit_status s) (lp_handle s).
Definition set_create_deadline (ns : Z) (s : LoopState) : LoopState :=
  mkLoop (lp_phase s) (lp_kill_then_restart s) (lp_backoff_deadline s) ns (lp_grace_deadline s)
    (lp_error s) (lp_outcome s) (lp_exit_status s) (lp_handle s).
Definition set_grace_deadline (ns : Z) (s : LoopState) : LoopState :=
  mkLoop (lp_phase s) (lp_kill_then_restart s) (lp_backoff_deadline s) (lp_create_deadline s) ns
    (lp_error s) (lp_outcome s) (lp_exit_status s) (lp_handle s).

Definition clock_failure : Error := make_error kClockAnomaly op_run "monotonic clock unavailable".

(** [if (!set_deadline(timeout_ns, &deadline)) { phase = Phase::kDone; break; }], then
    [k] with the deadline. *)
Definition with_deadline {L} (timeout_ns : Z) (s : LoopState) (k : Z -> prog L LoopState)
    : prog L LoopState :=
  let! deadline := monotonic_deadline_ns timeout_ns in
  if deadline =? 0 then Ret (loop_fail clock_failure s) else k deadline.

Definition enter_backoff {L} (s : LoopState) : prog L LoopState :=
  with_deadline (backoff_delay_ns (lp_handle s)) s
    (fun deadline => Ret (go ph_kBackoff (set_backoff_deadline deadline s))).

(** [if (count_failure(h)) { result.outcome = kRestartsExhausted; phase = kDone; break; }
    enter_backoff();]. *)
Definition restart_or_give_up {L} (s : LoopState) : prog L LoopState :=
  let! (exhausted, h) := count_failure (lp_handle s) in
  let s := with_handle h s in
  if (exhausted : bool) then Ret (finish sv_kRestartsExhausted s) else enter_backoff s.

Definition backoff_phase {L} (s : LoopState) : prog L LoopState :=
  let! now := monotonic_now_ns in
  Ret (if lp_backoff_deadline s <=? now then go ph_kSpawn s else s).

(** After [LivenessWatch::open] failed. *)
Definition spawn_unwatched {L} (fuel : nat) (s : LoopState) : prog L LoopState :=
  let h := lp_handle s in
  let pid := cp_pid (sh_child h) in
  let! killed := kill_child pid SIGKILL in
  match killed with
  | Err e => Ret (loop_fail e s)
  | Ok _ =>
      let! reaped := reap_child_blocking fuel pid in
      match reaped with
      | Err e => Ret (loop_fail e s)
      | Ok status => restart_or_give_up (with_handle (set_child_of (child_gone status) h) s)
      end
  end.

(** After it succeeded. *)
Definition spawn_watched {L} (pidfd : Z) (s : LoopState) : prog L LoopState :=
  do! reset_fd (cp_pidfd (sh_child (lp_handle s)));
  let h := set_child_of (set_pidfd pidfd) (lp_handle s) in
  let s := with_handle h s in
  let! add_pidfd := epoll_add h pidfd in
  match add_pidfd with
  | Err e => Ret (loop_fail e s)
  | Ok _ =>
      let! add_stdout := if 0 <=? cp_stdout (sh_child h) then epoll_add h (cp_stdout (sh_child h))
                         else Ret (Ok tt) in
      match add_stdout with
      | Err e => Ret (loop_fail e s)
      | Ok _ =>
          with_deadline (ms_to_ns (vo_create_timeout (sh_options h))) s
            (fun deadline => Ret (go ph_kAwaitReady (set_create_deadline deadline s)))
      end
  end.

Definition spawn_phase {L} (fuel : nat) (s : LoopState) : prog L LoopState :=
  let h := start_attempt (lp_handle s) in
  let s := with_handle h s in
  let! sp := spawn_process (vo_producer_argv (sh_options h)) in
  match sp with
  | Err _ => restart_or_give_up s
  | Ok sp =>
      let old := sh_child h in
      do! reset_fd (cp_stdout old);
      let h := set_child (mkChild sp (cp_pidfd old) (cp_start_ticks old) false false rd_kUndecided
                            (cp_last_exit_status old)) h in
      let! now := monotonic_now_ns in
      let h := set_last_spawn now h in
      if now =? 0 then Ret (loop_fail clock_failure (with_handle h s))
      else
      let! start := proc_stat_starttime (sp_pid sp) in
      let h := set_child_of (set_start_ticks match start with Ok t => t | Err _ => 0 end) h in
      let s := with_handle h s in
      let! watch := liveness_watch_open (u64 (sp_pid sp)) in
      match watch with
      | Err _ => spawn_unwatched fuel s
      | Ok pidfd => spawn_watched pidfd s
      end
  end.

(** The generation of the child's channel, when the channel of [view] is ready and its
    producer is the child. *)
Definition child_generation (h : SupervisorHandle) (view : ChannelObserverView)
    : cprog (option Z) :=
  let base := ov_base view in
  let! init := shared_load_acquire (base (Head ch_init_state)) in
  if negb (init =? is_kReady) then Ret None
  else
  let! pid_abi := identity_snapshot_read (fun f => base (Ident r_producer f)) in
  let ours :=
    match pid_abi with
    | Ok p => (ia_pid p =? u64 (cp_pid (sh_child h)))
              && (ia_proc_start_ticks p =? cp_start_ticks (sh_child h))
    | Err _ => false
    end in
  if negb ours then Ret None
  else
  let! gen := observer_generation base in
  Ret (Some gen).

(** The first generation, or the one after the last supervised. *)
Definition expected_generation (baseline gen : Z) : bool :=
  (baseline =? 0) || (negb (baseline =? UINT64_MAX) && (gen =? u64 (baseline + 1))).

Definition await_ready_phase (fuel : nat) (s : LoopState) : cprog LoopState :=
  let h := lp_handle s in
  let! view := open_channel_readonly fuel (vo_channel_name (sh_options h))
                 (vo_transport (sh_options h)) 0 in
  let! ready :=
    match view with
    | Err _ => Ret None
    | Ok view =>
        let! gen := child_generation h view in
        Ret match gen with
            | Some gen =>
                if expected_generation (sh_baseline_generation h) gen then Some (view, gen) else None
            | None => None
            end
    end in
  match ready with
  | Some (view, gen) =>
      let h := emit_event se_kSupervised (u64 (cp_pid (sh_child h))) gen 0 (set_supervised gen view h) in
      Ret (go ph_kMonitor (with_handle h s))
  | None =>
      if cp_reaped (sh_child h) then restart_or_give_up s
      else
      let! now := monotonic_now_ns in
      Ret (if lp_create_deadline s <=? now then go_restart true ph_kKill s else s)
  end.

Definition monitor_phase (s : LoopState) : cprog LoopState :=
  let h := lp_handle s in
  let c := sh_child h in
  if cp_reaped c then
    match cp_reap_decision c with
    | rd_kCleanExit => Ret (finish sv_kCleanExit (set_exit_status (cp_last_exit_status c) s))
    | _ => restart_or_give_up s
    end
  else
  match sh_view h with
  | None => Ret s
  | Some view =>
      let! now := boottime_now_ns in
      let! sc := classify_stall (ov_base view) now (u64 (cp_pid c)) (cp_start_ticks c) in
      if bool_decide (sc = sc_kStalled) then
        let h := emit_event se_kStallDetected (u64 (cp_pid c)) 0 0
                   (set_child_of (set_decision rd_kRestart) h) in
        Ret (go_restart true ph_kKill (with_handle h s))
      else Ret s
  end.

(** SIGTERM first, SIGKILL once the grace period is over. *)
Definition kill_signals {L} (s : LoopState) : prog L LoopState :=
  let h := lp_handle s in
  let c := sh_child h in
  if (cp_pid c <=? 0) || cp_reaped c then Ret s
  else
  let! s :=
    if cp_kill_in_progress c then Ret s
    else
      let! (armed, h) := arm_child_kill h in
      let s := with_handle h s in
      match armed with
      | Err e => Ret (loop_fail e s)
      | Ok _ =>
          with_deadline (ms_to_ns (vo_stall_grace (sh_options h))) s
            (fun deadline => Ret (set_grace_deadline deadline s))
      end in
  if bool_decide (lp_phase s = ph_kDone) then Ret s
  else if negb (cp_kill_in_progress (sh_child (lp_handle s))) then Ret s
  else
  let! now := monotonic_now_ns in
  if now <? lp_grace_deadline s then Ret s
  else
  let! killed := kill_child (cp_pid c) SIGKILL in
  match killed with
  | Err e => Ret (loop_fail e s)
  | Ok _ =>
      let h := emit_event se_kKilled (u64 (cp_pid c)) 0 SIGKILL (lp_handle s) in
      Ret (set_grace_deadline UINT64_MAX (with_handle h s))
  end.

Definition kill_phase {L} (fuel : nat) (s : LoopState) : prog L LoopState :=
  let! s := kill_signals s in
  if bool_decide (lp_phase s = ph_kDone) then Ret s
  else
  let! (reaped, h) := reap_child fuel (lp_handle s) in
  let s := with_handle h s in
  match reaped with
  | Err e => Ret (loop_fail e s)
  | Ok (false, _) => Ret s
  | Ok (true, _) =>
      if lp_kill_then_restart s then restart_or_give_up (go_restart false (lp_phase s) s)
      else Ret (finish sv_kStopped s)
  end.

Definition phase_step (fuel : nat) (s : LoopState) : cprog LoopState :=
  match lp_phase s with
  | ph_kBackoff => backoff_phase s
  | ph_kSpawn => spawn_phase fuel s
  | ph_kAwaitReady => await_ready_phase fuel s
  | ph_kMonitor => monitor_phase s
  | ph_kKill => kill_phase fuel s
  | ph_kDone => Ret s
  end.

(** How long [epoll_wait] may block. *)
Definition wait_slice {L} (s : LoopState) : prog L Z :=
  let h := lp_handle s in
  let slice := ms_to_ns (vo_watch_interval (sh_options h)) in
  match lp_phase s with
  | ph_kAwaitReady => Ret kAwaitReadySliceNs
  | ph_kBackoff =>
      let! now := monotonic_now_ns in
      Ret (if now <? lp_backoff_deadline s then lp_backoff_deadline s - now else 0)
  | ph_kKill =>
      if cp_kill_in_progress (sh_child h) then
        let! now := monotonic_now_ns in
        let grace_left := if now <? lp_grace_deadline s then lp_grace_deadline s - now else 0 in
        Ret (if grace_left <? slice then grace_left else slice)
      else Ret slice
  | _ => Ret slice
  end.

(** One ready descriptor. *)
Definition handle_event (fuel : nat) (fd : Z) (s : LoopState) : cprog LoopState :=
  let h := lp_handle s in
  let c := sh_child h in
  let! stop_evfd := plain_load (SHnd (sh_id h) sl_stop_evfd) in
  if (fd =? stop_evfd) || (fd =? sh_signalfd_fd h) then
    let! _ := syscall (sys_read fd (if fd =? stop_evfd then 8 else 128)) in
    Ret (go_restart false ph_kKill s)
  else if (0 <=? cp_pidfd c) && (fd =? cp_pidfd c) then
    let! (reaped, h) := reap_child fuel h in
    let s := with_handle h s in
    match reaped with
    | Err e => Ret (loop_fail e s)
    | Ok (false, _) => Ret s
    | Ok (true, status) =>
        match cp_reap_decision (sh_child h) with
        | rd_kUndecided =>
            let d := if is_clean_exit_status status then rd_kCleanExit else rd_kRestart in
            Ret (with_handle (set_child_of (set_decision d) h) s)
        | _ => Ret s
        end
    end
  else if (0 <=? cp_stdout c) && (fd =? cp_stdout c) then
    let! h := drain_child_stdout fuel h in
    Ret (with_handle h s)
  else Ret s.

(** [break] leaves the loop over the events when reaping failed. *)
Fixpoint handle_events (fuel : nat) (fds : list Z) (s : LoopState) : cprog LoopState :=
  match fds with
  | [] => Ret s
  | fd :: fds' =>
      let! s := handle_event fuel fd s in
      match lp_error s with
      | Some _ => Ret s
      | None => handle_events fuel fds' s
      end
  end.

Definition wait_events (fuel : nat) (s : LoopState) : cprog LoopState :=
  let! slice := wait_slice s in
  let! n := syscall (sys_epoll_wait (sh_epoll_fd (lp_handle s)) kEpollMaxEvents (ns_to_epoll_ms slice)) in
  match n with
  | SysErr e =>
      if e =? EINTR then Ret s
      else Ret (loop_fail (make_errno_error e "ProducerSupervisor::epoll_wait" strerror_text) s)
  | SysOk fds => handle_events fuel fds s
  end.

(** One round of the loop. *)
Definition supervise_round (fuel : nat) (s : LoopState) : cprog LoopState :=
  let! stop := shared_load_acquire (SHnd (sh_id (lp_handle s)) sl_stop_requested) in
  let s := if negb (stop =? 0) then go_restart false ph_kKill s else s in
  let! s := phase_step fuel s in
  if bool_decide (lp_phase s = ph_kDone) then Ret s else wait_events fuel s.

(** At most [rounds] rounds; [None] when they are used up. *)
Fixpoint supervise_loop (rounds fuel : nat) (s : LoopState) : cprog (option LoopState) :=
  if bool_decide (lp_phase s = ph_kDone) then Ret (Some s)
  else
  match rounds with
  | O => Ret None
  | S rounds' => let! s := supervise_round fuel s in supervise_loop rounds' fuel s
  end.

(** * [run] *)

Definition initial_loop (h : SupervisorHandle) : LoopState :=
  mkLoop ph_kSpawn false 0 0 0 None sv_kStopped 0 h.

(** What [run] does with a child that is still there when the loop has ended. *)
Definition reap_leftover {L} (fuel : nat) (s : LoopState) : prog L LoopState :=
  let h := lp_handle s in
  let c := sh_child h in
  let first e := match lp_error s with Some _ => s | None => loop_fail e s end in
  if (cp_pid c <=? 0) || cp_reaped c then Ret s
  else
  let! killed := kill_child (cp_pid c) SIGKILL in
  match killed with
  | Err e => Ret (first e)
  | Ok _ =>
      let! reaped := reap_child_blocking fuel (cp_pid c) in
      match reaped with
      | Ok status => Ret (with_handle (set_child_of (child_gone status) h) s)
      | Err e => Ret (first e)
      end
  end.

Definition result_of (s : LoopState) : SupervisionResult :=
  let h := lp_handle s in
  mkSupervisionResult (lp_outcome s) (sh_spawn_attempts h)
    (if 0 <? sh_spawn_attempts h then sh_spawn_attempts h - 1 else 0)
    (sh_baseline_generation h) (cp_pid (sh_child h))
    (if cp_reaped (sh_child h) then cp_last_exit_status (sh_child h) else lp_exit_status s)
    (sh_stdout_tail h).

(** [stop_evfd.reset(); epoll_fd.reset(); running = false]. *)
Definition close_run (h : SupervisorHandle) (evfd : Z) : cprog SupervisorHandle :=
  do! plain_store (SHnd (sh_id h) sl_stop_evfd) (-1);
  do! reset_fd evfd;
  do! reset_fd (sh_epoll_fd h);
  do! shared_store_release (SHnd (sh_id h) sl_running) 0;
  Ret (set_fds (-1) (sh_signalfd_fd h) h).

(** The end of [run]: everything after the loop. *)
Definition end_run (fuel : nat) (evfd : Z) (s : LoopState)
    : cprog (Result SupervisionResult * SupervisorHandle) :=
  let! s := reap_leftover fuel s in
  let! h := drain_child_stdout fuel (lp_handle s) in
  let s := with_handle h s in
  let result := result_of s in
  do! reset_fd (sh_epoll_fd h);
  do! plain_store (SHnd (sh_id h) sl_stop_evfd) (-1);
  do! reset_fd evfd;
  do! reset_fd (sh_signalfd_fd h);
  let! restored := syscall sys_sigmask_restore in
  do! shared_store_release (SHnd (sh_id h) sl_running) 0;
  let h := set_fds (-1) (-1) h in
  match lp_error s with
  | Some e => Ret (Err e, h)
  | None =>
      match restored with
      | SysErr e => Ret (Err (make_errno_error e op_run "restore pthread signal mask"), h)
      | SysOk _ => Ret (Ok result, h)
      end
  end.

(** The descriptors of the loop: [stop_evfd], or the error with everything undone. *)
Definition open_run (h : SupervisorHandle) : cprog (Result Z * SupervisorHandle) :=
  let running := SHnd (sh_id h) sl_running in
  let! epfd := syscall sys_epoll_create in
  match epfd with
  | SysErr e =>
      do! shared_store_release running 0;
      Ret (Err (make_errno_error e op_run strerror_text), h)
  | SysOk epfd =>
      let h := set_fds epfd (sh_signalfd_fd h) h in
      let! evfd := syscall sys_eventfd in
      match evfd with
      | SysErr e =>
          do! reset_fd epfd;
          do! shared_store_release running 0;
          Ret (Err (make_errno_error e op_run strerror_text), set_fds (-1) (sh_signalfd_fd h) h)
      | SysOk evfd =>
          do! plain_store (SHnd (sh_id h) sl_stop_evfd) evfd;
          let! add_stop := epoll_add h evfd in
          match add_stop with
          | Err e => let! h := close_run h evfd in Ret (Err e, h)
          | Ok _ =>
              let! mask_rc := syscall sys_sigmask_block in
              match mask_rc with
              | SysErr e =>
                  let! h := close_run h evfd in
                  Ret (Err (make_errno_error e op_run "pthread_sigmask"), h)
              | SysOk _ =>
                  let! sfd := syscall sys_signalfd in
                  match sfd with
                  | SysErr e =>
                      let! _ := syscall sys_sigmask_restore in
                      let! h := close_run h evfd in
                      Ret (Err (make_errno_error e op_run strerror_text), h)
                  | SysOk sfd =>
                      let h := set_fds epfd sfd h in
                      let! add_signal := epoll_add h sfd in
                      match add_signal with
                      | Err e =>
                          do! reset_fd sfd;
                          let! _ := syscall sys_sigmask_restore in
                          let! h := close_run (set_fds epfd (-1) h) evfd in
                          Ret (Err e, h)
                      | Ok _ => Ret (Ok evfd, h)
                      end
                  end
              end
          end
      end
  end.

(** [None] when the rounds are used up. *)
Definition supervisor_run (rounds fuel : nat) (h : SupervisorHandle)
    : cprog (option (Result SupervisionResult * SupervisorHandle)) :=
  let! idle := trigger (Cas (SHnd (sh_id h) sl_running) 0 1) in
  if negb idle then
    Ret (Some (Err (make_error kConcurrentHandleUse op_run "already running"), h))
  else
  let! (opened, h) := open_run h in
  match opened with
  | Err e => Ret (Some (Err e, h))
  | Ok evfd =>
      let! ended := supervise_loop rounds fuel (initial_loop h) in
      match ended with
      | None => Ret None
      | Some s => let! r := end_run fuel evfd s in Ret (Some r)
      end
  end.

(** * Stopping *)

(** The mutex keeps the descriptor open between the test and the write. *)
Definition supervisor_request_stop (id : nat) : cprog unit :=
  do! shared_store_release (SHnd id sl_stop_requested) 1;
  let! evfd := plain_load (SHnd id sl_stop_evfd) in
  if 0 <=? evfd then let! _ := syscall (sys_write evfd 8) in Ret tt else Ret tt.

Definition supervisor_handle_shutdown (fuel : nat) (h : SupervisorHandle) : cprog SupervisorHandle :=
  let c := sh_child h in
  do! supervisor_request_stop (sh_id h);
  if (cp_pid c <=? 0) || cp_reaped c then Ret h
  else
  let! killed := kill_child (cp_pid c) SIGKILL in
  match killed with
  | Err _ => Ret h
  | Ok _ =>
      let! reaped := reap_child_blocking fuel (cp_pid c) in
      match reaped with
      | Ok status => Ret (set_child_of (child_gone status) h)
      | Err _ => Ret h
      end
  end.
