(* ===== verification/ChildTrace.v ===== *)
(** The life of a child process, as the parent's system calls show it.

    [lawful c p Q]: started with child [c] (the process that was started and has not
    been waited for), program [p] starts a process only when there is none, signals
    and waits for [c] only, and ends with a child and a value in [Q], whatever the
    memory and the kernel answer. A process that was started has a positive number;
    waiting for it, when it does not fail, answers its number, or 0 without blocking
    when it is still running. *)
From S2P Require Import Prelude Errors CheckedMath Prog ProcIdentity ShmObject Clock ChannelLayout.
From S2P Require Import ChannelSegment ChannelAbi FdBroker Observer ProcessSpawn.

Section Trace.
Context {L : Type}.

Definition child_sys {X} (s : sys X) (c : option Z) : (option Z -> X -> Prop) -> Prop :=
  match s in sys Y return (option Z -> Y -> Prop) -> Prop with
  | sys_posix_spawn _ _ _ _ => fun K =>
      c = None /\ (forall pid, 0 < pid -> K (Some pid) (SysOk pid)) /\ forall e, K None (SysErr e)
  | sys_kill pid _ => fun K => c = Some pid /\ forall r, K c r
  | sys_waitpid pid nohang => fun K =>
      c = Some pid /\ (forall status, K None (SysOk (pid, status))) /\
      (nohang = true -> forall status, K c (SysOk (0, status))) /\ forall e, K c (SysErr e)
  | _ => fun K => forall x, K c x
  end.

Definition child_ev {X} (e : ev L X) (c : option Z) (K : option Z -> X -> Prop) : Prop :=
  match e in ev _ Y return (option Z -> Y -> Prop) -> Prop with
  | Sys s => fun K => child_sys s c K
  | _ => fun K => forall x, K c x
  end K.

Fixpoint lawful {A} (c : option Z) (p : prog L A) (Q : option Z -> A -> Prop) : Prop :=
  match p with
  | Ret a => Q c a
  | Vis e k => child_ev e c (fun c' x => lawful c' (k x) Q)
  end.

Lemma child_ev_mono {X} (e : ev L X) c (K K' : option Z -> X -> Prop) :
  (forall c' x, K c' x -> K' c' x) -> child_ev e c K -> child_ev e c K'.
Proof. intros H. destruct e as [| | | | | |X s]; simpl; auto. destruct s; simpl; firstorder. Qed.

Lemma lawful_mono {A} c (p : prog L A) (Q Q' : option Z -> A -> Prop) :
  lawful c p Q -> (forall c' a, Q c' a -> Q' c' a) -> lawful c p Q'.
Proof.
  intros Hp HQ. revert c Hp. induction p as [a|X e k IH]; simpl; intros c Hp; [auto|].
  eapply child_ev_mono; [|exact Hp]. auto.
Qed.

Lemma lawful_bind {A B} c (p : prog L A) (f : A -> prog L B) Q :
  lawful c p (fun c' a => lawful c' (f a) Q) -> lawful c (bind p f) Q.
Proof.
  revert c. induction p as [a|X e k IH]; simpl; intros c Hp; [done|].
  eapply child_ev_mono; [|exact Hp]. auto.
Qed.

Lemma lawful_seq {A B} c (p : prog L A) (f : A -> prog L B) Q1 Q :
  lawful c p Q1 -> (forall c' a, Q1 c' a -> lawful c' (f a) Q) -> lawful c (bind p f) Q.
Proof. intros Hp Hf. apply lawful_bind. by eapply lawful_mono. Qed.

(** ** Programs that have nothing to do with children *)

Definition sys_childless {X} (s : sys X) : Prop :=
  match s with
  | sys_posix_spawn _ _ _ _ | sys_kill _ _ | sys_waitpid _ _ => False
  | _ => True
  end.
Definition ev_childless {X} (e : ev L X) : Prop :=
  match e with Sys s => sys_childless s | _ => True end.
Fixpoint childless {A} (p : prog L A) : Prop :=
  match p with
  | Ret _ => True
  | Vis e k => ev_childless e /\ forall x, childless (k x)
  end.

Lemma childless_bind {A B} (p : prog L A) (f : A -> prog L B) :
  childless p -> (forall a, childless (f a)) -> childless (bind p f).
Proof.
  induction p as [a|X e k IH]; simpl; intros Hp Hf; [done|].
  destruct Hp as [He Hk]. split; [done|]. intros x. by apply IH.
Qed.

Lemma childless_trigger {X} (e : ev L X) : ev_childless e -> childless (trigger e).
Proof. by split. Qed.

Lemma child_ev_childless {X} (e : ev L X) c (K : option Z -> X -> Prop) :
  ev_childless e -> (forall x, K c x) -> child_ev e c K.
Proof. intros He HK. destruct e as [| | | | | |X s]; simpl; auto. by destruct s. Qed.

Lemma lawful_leaves {A} c (p : prog L A) (phi : A -> Prop) Q :
  childless p -> leaves phi p -> (forall a, phi a -> Q c a) -> lawful c p Q.
Proof.
  intros Hp Hl HQ. induction p as [a|X e k IH]; simpl in *; [auto|].
  destruct Hp as [He Hk]. apply child_ev_childless; [done|]. auto.
Qed.

Lemma lawful_childless {A} c (p : prog L A) Q :
  childless p -> (forall a, Q c a) -> lawful c p Q.
Proof. intros Hp HQ. eapply lawful_leaves; [done|apply leaves_true|auto]. Qed.

Lemma lawful_step {A B} c (p : prog L A) (f : A -> prog L B) Q :
  childless p -> (forall a, lawful c (f a) Q) -> lawful c (bind p f) Q.
Proof. intros Hp Hf. apply lawful_bind. by apply lawful_childless. Qed.
End Trace.

(** [solve_childless]: goals [childless p] for straight-line code. *)
Create HintDb child_db.
Ltac solve_childless_step :=
  match goal with
  | |- childless (bind _ _) => apply childless_bind; [|intros ?]
  | |- childless (Ret _) => exact I
  | |- childless (fail _ _ _) => exact I
  | |- childless (lift _) => exact I
  | |- childless (Vis _ _) => split; [exact I|intros ?]
  | |- childless (match ?x with _ => _ end) => destruct x
  | |- childless (let _ := _ in _) => cbv zeta
  | |- childless _ => solve [auto with child_db]
  | |- childless _ => apply childless_trigger; exact I
  end.
Ltac solve_childless := repeat solve_childless_step.

Lemma load_list_childless {L} (ls : list L) : childless (load_list ls).
Proof. induction ls as [|l ls IH]; cbn [load_list]; solve_childless. Qed.
Lemma retry_eintr_childless {L X} n (c : sys (sysres X)) last :
  sys_childless c -> @childless L _ (retry_eintr n c last).
Proof.
  intros Hc. revert last. induction n as [|n IH]; intros last; cbn [retry_eintr]; [done|].
  apply childless_bind; [by apply childless_trigger|]. intros [x|e]; [done|]. by destruct (e =? EINTR).
Qed.
#[global] Hint Resolve load_list_childless : child_db.
#[global] Hint Extern 1 (childless (retry_eintr _ _ _)) =>
  apply retry_eintr_childless; exact I : child_db.

Lemma clock_childless {L} id : @childless L _ (clock_ns_or_zero id).
Proof. unfold clock_ns_or_zero. solve_childless. Qed.
#[global] Hint Resolve clock_childless : child_db.
Lemma monotonic_now_childless {L} : @childless L _ monotonic_now_ns.
Proof. apply clock_childless. Qed.
Lemma boottime_now_childless {L} : @childless L _ boottime_now_ns.
Proof. apply clock_childless. Qed.
#[global] Hint Resolve monotonic_now_childless boottime_now_childless : child_db.
Lemma deadline_childless {L} timeout : @childless L _ (monotonic_deadline_ns timeout).
Proof. unfold monotonic_deadline_ns. solve_childless. Qed.
Lemma remaining_childless {L} deadline : @childless L _ (remaining_time_ns deadline).
Proof. unfold remaining_time_ns. solve_childless. Qed.
#[global] Hint Resolve deadline_childless remaining_childless : child_db.

Lemma proc_stat_childless {L} p : @childless L _ (proc_stat_starttime p).
Proof. unfold proc_stat_starttime. solve_childless. Qed.
Lemma reset_fd_childless {L} fd : @childless L _ (reset_fd fd).
Proof. unfold reset_fd. solve_childless. Qed.
#[global] Hint Resolve proc_stat_childless reset_fd_childless : child_db.
Lemma watch_childless {L} p : @childless L _ (liveness_watch_open p).
Proof. unfold liveness_watch_open. solve_childless. Qed.
#[global] Hint Resolve watch_childless : child_db.
Lemma spawn_prepare_childless {L} steps : @childless L _ (spawn_prepare steps).
Proof. induction steps as [|s steps IH]; cbn [spawn_prepare]; solve_childless. Qed.
#[global] Hint Resolve spawn_prepare_childless : child_db.

(** ** Observing a channel *)

Lemma snapshot_loop_childless {L} (abi : ident_field -> L) n :
  childless (identity_snapshot_loop abi n).
Proof. induction n as [|n IH]; cbn [identity_snapshot_loop]; solve_childless. Qed.
Lemma snapshot_childless {L} (abi : ident_field -> L) : childless (identity_snapshot_read abi).
Proof. apply snapshot_loop_childless. Qed.
#[global] Hint Resolve snapshot_childless : child_db.
Lemma classify_stall_childless base now p ticks : childless (classify_stall base now p ticks).
Proof. unfold classify_stall. solve_childless. Qed.
#[global] Hint Resolve classify_stall_childless : child_db.

Lemma pread_loop_childless {L} fuel op fd size offset got :
  @childless L _ (pread_loop fuel op fd size offset got).
Proof. revert got. induction fuel as [|n IH]; intros got; cbn [pread_loop]; solve_childless. Qed.
#[global] Hint Resolve pread_loop_childless : child_db.
Lemma pread_full_childless {L} fd size offset : @childless L _ (pread_full fd size offset).
Proof. unfold pread_full. solve_childless. Qed.
Lemma load_bootstrap_childless {L} (base : cloc -> L) : childless (load_bootstrap base).
Proof. unfold load_bootstrap. solve_childless. Qed.
Lemma header_start_childless {L} (base : cloc -> L) op : childless (validate_header_start base op).
Proof. unfold validate_header_start. solve_childless. Qed.
#[global] Hint Resolve pread_full_childless load_bootstrap_childless header_start_childless : child_db.
Lemma header_shape_childless {L} (base : cloc -> L) : childless (validate_header_shape base).
Proof. unfold validate_header_shape. solve_childless. Qed.
Lemma fstat_childless {L} fd : @childless L _ (shm_fstat_and_capture fd).
Proof. unfold shm_fstat_and_capture, bounded_fstat. solve_childless. Qed.
Lemma memfd_fstat_childless {L} fd : @childless L _ (memfd_fstat_and_capture fd).
Proof. unfold memfd_fstat_and_capture, bounded_fstat. solve_childless. Qed.
Lemma shm_open_childless {L} name : @childless L _ (shm_open_existing name).
Proof. unfold shm_open_existing. solve_childless. Qed.
Lemma mmap_readonly_childless {L} fd size : @childless L _ (mmap_region_readonly fd size).
Proof. unfold mmap_region_readonly. solve_childless. Qed.
#[global] Hint Resolve header_shape_childless fstat_childless memfd_fstat_childless shm_open_childless
  mmap_readonly_childless : child_db.

Lemma budget_childless b : childless (budget_available b).
Proof. unfold budget_available. solve_childless. Qed.
#[global] Hint Resolve budget_childless : child_db.
Lemma wait_socket_childless n fd events b : childless (wait_socket n fd events b).
Proof. induction n as [|n IH]; cbn [wait_socket]; solve_childless. Qed.
Lemma retry_pause_loop_childless n until b : childless (retry_pause_loop n until b).
Proof. induction n as [|n IH]; cbn [retry_pause_loop]; solve_childless. Qed.
#[global] Hint Resolve wait_socket_childless retry_pause_loop_childless : child_db.
Lemma retry_pause_childless n b : childless (retry_pause n b).
Proof. unfold retry_pause. solve_childless. Qed.
Lemma send_full_childless n fd buf b : childless (send_full n fd buf b).
Proof.
  revert buf. induction n as [|n IH]; intros [|x buf]; cbn [send_full]; solve_childless.
Qed.
Lemma take_fds_childless r fds : childless (take_fds r fds).
Proof. revert r. induction fds as [|x fds IH]; intros r; cbn [take_fds]; solve_childless. Qed.
#[global] Hint Resolve retry_pause_childless send_full_childless take_fds_childless : child_db.
Lemma take_control_childless r n v control : childless (take_control r n v control).
Proof.
  revert r n v. induction control as [|x control IH]; intros r n v; cbn [take_control]; solve_childless.
Qed.
#[global] Hint Resolve take_control_childless : child_db.
Lemma receive_reply_childless n fd b : childless (receive_reply n fd b).
Proof. induction n as [|n IH]; cbn [receive_reply]; solve_childless. Qed.
Lemma connect_childless n fd path b : childless (connect_socket n fd path b).
Proof. unfold connect_socket. solve_childless. Qed.
Lemma accept_reply_childless r fd b : childless (accept_reply r fd b).
Proof. unfold accept_reply. solve_childless. Qed.
#[global] Hint Resolve receive_reply_childless connect_childless accept_reply_childless : child_db.
Lemma exchange_childless n path r b : childless (exchange_once n path r b).
Proof. unfold exchange_once. solve_childless. Qed.
#[global] Hint Resolve exchange_childless : child_db.
Lemma request_loop_childless k n path r b retry : childless (request_loop k n path r b retry).
Proof. induction k as [|k IH]; cbn [request_loop]; solve_childless. Qed.
#[global] Hint Resolve request_loop_childless : child_db.
Lemma request_fd_childless n path hash schema ro deadline retry :
  childless (fd_broker_request_fd_until n path hash schema ro deadline retry).
Proof. unfold fd_broker_request_fd_until. solve_childless. Qed.
#[global] Hint Resolve request_fd_childless : child_db.

Lemma observer_object_childless n name tr deadline retry :
  childless (observer_open_object n name tr deadline retry).
Proof. unfold observer_open_object, channel_socket_path, channel_shm_name. solve_childless. Qed.
Lemma observer_mapping_childless size boot reply base :
  childless (observer_check_mapping size boot reply base).
Proof. unfold observer_check_mapping. solve_childless. Qed.
#[global] Hint Resolve observer_object_childless observer_mapping_childless : child_db.
Lemma open_once_childless n name tr deadline retry : childless (open_once n name tr deadline retry).
Proof. unfold open_once. solve_childless. Qed.
#[global] Hint Resolve open_once_childless : child_db.
Lemma open_loop_childless k n name tr retry deadline :
  childless (open_readonly_loop k n name tr retry deadline).
Proof. induction k as [|k IH]; cbn [open_readonly_loop]; solve_childless. Qed.
#[global] Hint Resolve open_loop_childless : child_db.
Lemma open_channel_childless n name tr retry : childless (open_channel_readonly n name tr retry).
Proof. unfold open_channel_readonly. solve_childless. Qed.
#[global] Hint Resolve open_channel_childless : child_db.
