(* ===== verification/BrokerTheorems.v ===== *)
(** To whom the descriptor broker gives the segment's descriptor.

    An [exchange] is what the system calls and loads of the serving thread have shown
    since it accepted the connection. [guarded] says of a program that every [sendmsg]
    it makes, the only call that hands out a descriptor, is one the exchange entitles the
    peer to, whatever the memory and the kernel answer. *)
From S2P Require Import Prelude Errors CheckedMath Checksum Prog SeqLogic ProcIdentity ShmObject Clock.
From S2P Require Import ChannelLayout ChannelSegment ChannelAbi ControlLock FdBroker.

(** * What a serving thread has seen of a connection *)

Record peer : Type := mkPeer {
  pe_conn : Z;               (* the accepted connection *)
  pe_uid : option Z;         (* the user of the peer, from the kernel *)
  pe_same : bool;            (* the thread's own user is that one *)
  pe_bytes : list Z;         (* what arrived *)
  pe_boot : Z;               (* the last reading of the bootstrap's state *)
  pe_head : Z;               (* the last reading of the header's state *)
  pe_copy : option (bool * Z) (* the duplicated descriptor, and whether it is read-only *)
}.

Definition new_peer (conn : Z) : peer := mkPeer conn None false [] 0 0 None.

Section Broker.
Context (dev ino : Z) (shm_fd channel_hash : Z) (fingerprint : list Z).

Definition note_sys {X} (s : sys X) (p : option peer) : X -> option peer :=
  match s in sys Y return Y -> option peer with
  | sys_accept _ => fun r => match r with SysOk conn => Some (new_peer conn) | SysErr _ => p end
  | sys_peer_uid conn => fun r =>
      match r, p with
      | SysOk uid, Some p =>
          Some (mkPeer (pe_conn p) (if conn =? pe_conn p then Some uid else pe_uid p) false
                  (pe_bytes p) (pe_boot p) (pe_head p) (pe_copy p))
      | _, _ => p
      end
  | sys_geteuid => fun euid =>
      match p with
      | Some p => Some (mkPeer (pe_conn p) (pe_uid p) (bool_decide (pe_uid p = Some euid))
                          (pe_bytes p) (pe_boot p) (pe_head p) (pe_copy p))
      | None => None
      end
  | sys_recv conn _ => fun r =>
      match r, p with
      | SysOk bytes, Some p =>
          Some (mkPeer (pe_conn p) (pe_uid p) (pe_same p)
                  (if conn =? pe_conn p then pe_bytes p ++ bytes else pe_bytes p)
                  (pe_boot p) (pe_head p) (pe_copy p))
      | _, _ => p
      end
  | sys_fcntl fd cmd _ => fun r =>
      match r, p with
      | SysOk copy, Some p =>
          Some (mkPeer (pe_conn p) (pe_uid p) (pe_same p) (pe_bytes p) (pe_boot p) (pe_head p)
                  (if (fd =? shm_fd) && (cmd =? F_DUPFD_CLOEXEC) then Some (false, copy)
                   else pe_copy p))
      | _, _ => p
      end
  | sys_open path => fun r =>
      match r, p with
      | SysOk copy, Some p =>
          Some (mkPeer (pe_conn p) (pe_uid p) (pe_same p) (pe_bytes p) (pe_boot p) (pe_head p)
                  (if bool_decide (path = proc_fd_path shm_fd) then Some (true, copy) else pe_copy p))
      | _, _ => p
      end
  | _ => fun _ => p
  end.

Definition note {X} (e : ev chloc X) (p : option peer) : X -> option peer :=
  match e in ev _ Y return Y -> option peer with
  | Load l => fun v =>
      match p with
      | Some p =>
          Some (mkPeer (pe_conn p) (pe_uid p) (pe_same p) (pe_bytes p)
                  (if decide (l = Obj dev ino (Boot bf_init_state)) then v else pe_boot p)
                  (if decide (l = Obj dev ino (Head ch_init_state)) then v else pe_head p) (pe_copy p))
      | None => None
      end
  | Sys s => note_sys s p
  | _ => fun _ => p
  end.

(** The request asks for this channel, in one piece and of the right version. *)
Definition request_fits (req : FdBrokerRequestAbi) : bool :=
  bool_decide (take 6 (rq_magic req) = string_codes kFdBrokerRequestMagic) &&
  (rq_version req =? kFdBrokerVersion) && (request_checksum_of req =? rq_checksum req) &&
  (rq_channel_hash req =? channel_hash) &&
  (negb (request_fingerprint_set req) || bool_decide (rq_schema_fingerprint req = fingerprint)).

(** The peer runs as the same user, asked for this channel while it was ready, and the
    descriptor is a copy of the segment's, read-only if that was asked for. *)
Definition entitled (p : peer) (conn : Z) (bytes : list Z) (fd : Z) : Prop :=
  let req := request_of_bytes (pe_bytes p) in
  conn = pe_conn p /\ pe_same p = true /\ kFdBrokerRequestSize <= Z.of_nat (length (pe_bytes p)) /\
  request_fits req = true /\ pe_boot p = is_kReady /\ pe_head p = is_kReady /\
  pe_copy p = Some (negb (Z.land (rq_flags req) kFdBrokerFlagReadonly =? 0), fd) /\
  exists reply, bytes = reply_bytes (sealed_reply reply) /\ rp_status reply = fb_kOk.

Definition allowed {X} (e : ev chloc X) (p : option peer) : Prop :=
  match e with
  | Sys (sys_sendmsg conn bytes fd) =>
      exists q, p = Some q /\ entitled q conn bytes fd
  | _ => True
  end.

Fixpoint guarded {A} (p : option peer) (c : cprog A) (Q : option peer -> A -> Prop) : Prop :=
  match c with
  | Ret a => Q p a
  | Vis e k => allowed e p /\ forall x, guarded (note e p x) (k x) Q
  end.

Lemma guarded_mono {A} p (c : cprog A) (Q Q' : option peer -> A -> Prop) :
  guarded p c Q -> (forall p' a, Q p' a -> Q' p' a) -> guarded p c Q'.
Proof.
  intros Hc HQ. revert p Hc. induction c as [a|X e k IH]; simpl; intros p Hc; [auto|].
  destruct Hc as [Ha Hk]. split; [done|]. auto.
Qed.

Lemma guarded_seq {A B} p (c : cprog A) (f : A -> cprog B) Q1 Q :
  guarded p c Q1 -> (forall p' a, Q1 p' a -> guarded p' (f a) Q) -> guarded p (bind c f) Q.
Proof.
  intros Hc Hf. revert p Hc. induction c as [a|X e k IH]; simpl; intros p Hc; [auto|].
  destruct Hc as [Ha Hk]. split; [done|]. auto.
Qed.
(** ** Programs that neither show anything about the peer nor send *)

Definition quiet_ev {X} (e : ev chloc X) : Prop :=
  forall p, allowed e p /\ forall x, note e p x = p.
Fixpoint quiet {A} (c : cprog A) : Prop :=
  match c with
  | Ret _ => True
  | Vis e k => quiet_ev e /\ forall x, quiet (k x)
  end.

Lemma quiet_bind {A B} (c : cprog A) (f : A -> cprog B) :
  quiet c -> (forall a, quiet (f a)) -> quiet (bind c f).
Proof.
  induction c as [a|X e k IH]; simpl; intros Hc Hf; [done|].
  destruct Hc as [He Hk]. split; [done|]. intros x. by apply IH.
Qed.
Lemma quiet_trigger {X} (e : ev chloc X) : quiet_ev e -> quiet (trigger e).
Proof. by split. Qed.

Lemma guarded_quiet {A} p (c : cprog A) : quiet c -> guarded p c (fun p' _ => p' = p).
Proof.
  induction c as [a|X e k IH]; simpl; [done|]. intros [He Hk]. split; [apply He|].
  intros x. rewrite (proj2 (He p)). by apply IH.
Qed.

Lemma guarded_step {A B} p (c : cprog A) (f : A -> cprog B) Q :
  quiet c -> (forall a, guarded p (f a) Q) -> guarded p (bind c f) Q.
Proof. intros Hc Hf. eapply guarded_seq; [by apply guarded_quiet|]. by intros ? a ->. Qed.

Lemma quiet_load l :
  l <> Obj dev ino (Boot bf_init_state) -> l <> Obj dev ino (Head ch_init_state) ->
  quiet_ev (Load l).
Proof.
  intros Hb Hh p. split; [done|]. intros v. destruct p as [[]|]; [|done]. cbn.
  by rewrite !decide_False.
Qed.
End Broker.

(** [solve_quiet]: goals [quiet p] for straight-line code. *)
Create HintDb quiet_db.
Ltac solve_quiet_step :=
  match goal with
  | |- quiet _ _ _ _ _ (bind _ _) => apply quiet_bind; [|intros ?]
  | |- quiet _ _ _ _ _ (Ret _) => exact I
  | |- quiet _ _ _ _ _ (Vis _ _) => split; [by intros ?|intros ?]
  | |- quiet _ _ _ _ _ (match ?x with _ => _ end) => destruct x
  | |- quiet _ _ _ _ _ (let _ := _ in _) => cbv zeta
  | |- quiet _ _ _ _ _ _ => solve [auto with quiet_db]
  | |- quiet _ _ _ _ _ (shared_load_relaxed _) => apply quiet_trigger, quiet_load; discriminate
  | |- quiet _ _ _ _ _ (plain_load _) => apply quiet_trigger, quiet_load; discriminate
  | |- quiet _ _ _ _ _ _ => apply quiet_trigger; by intros ?
  end.
Ltac solve_quiet := repeat solve_quiet_step.

Section Serving.
Context (dev ino : Z) (shm_fd channel_hash : Z) (fingerprint : list Z).
Context (id : nat) (f : handle_field).
Notation stop := (PHnd id f).
Notation quietly := (quiet dev ino shm_fd channel_hash fingerprint).
Notation guards := (guarded dev ino shm_fd channel_hash fingerprint).
Notation budget d := (mkIoBudget d (Some stop)).

(** ** The bounded socket operations *)

Lemma clock_quiet c : quietly (clock_ns_or_zero c).
Proof. unfold clock_ns_or_zero. solve_quiet. Qed.
#[local] Hint Resolve clock_quiet : quiet_db.
Lemma deadline_quiet t : quietly (monotonic_deadline_ns t).
Proof. unfold monotonic_deadline_ns, monotonic_now_ns. solve_quiet. Qed.
Lemma remaining_quiet t : quietly (remaining_time_ns t).
Proof. unfold remaining_time_ns, monotonic_now_ns. solve_quiet. Qed.
#[local] Hint Resolve deadline_quiet remaining_quiet : quiet_db.
Lemma budget_quiet d : quietly (budget_available (budget d)).
Proof. unfold budget_available. cbn [bg_stop bg_deadline_ns]. solve_quiet. Qed.
#[local] Hint Resolve budget_quiet : quiet_db.
Lemma wait_socket_quiet fuel fd events d : quietly (wait_socket fuel fd events (budget d)).
Proof. induction fuel as [|n IH]; cbn [wait_socket]; solve_quiet. Qed.
#[local] Hint Resolve wait_socket_quiet : quiet_db.
Lemma send_full_quiet fuel fd buf d : quietly (send_full fuel fd buf (budget d)).
Proof.
  revert buf. induction fuel as [|n IH]; intros buf; cbn [send_full]; destruct buf; solve_quiet.
Qed.
#[local] Hint Resolve send_full_quiet : quiet_db.

Lemma recv_full_guarded fuel fd size got d p :
  pe_conn p = fd -> pe_bytes p = got ->
  guards (Some p) (recv_full fuel fd size got (budget d)) (fun p' r => exists bs,
    p' = Some (mkPeer fd (pe_uid p) (pe_same p) bs (pe_boot p) (pe_head p) (pe_copy p)) /\
    (r = None \/ r = Some bs /\ size <= Z.of_nat (length bs))).
Proof.
  revert got p. induction fuel as [|n IH]; intros got p Hc Hg; cbn [recv_full].
  all: assert (Some p = Some (mkPeer fd (pe_uid p) (pe_same p) got (pe_boot p) (pe_head p) (pe_copy p)))
    as Hp by (destruct p; cbn in *; by subst).
  all: bdestr (size <=? Z.of_nat (length got)).
  1, 3: apply guarded_step; [solve_quiet|]; intros []; exists got; auto.
  { exists got. auto. }
  apply guarded_step; [solve_quiet|]. intros [|]; cbn [negb]; [|exists got; auto].
  cbn [bind syscall trigger guarded]. split; [done|]. intros [bs|e].
  2: { cbn [note note_sys]. destruct (_ || _); [by apply IH|]. exists got. auto. }
  cbn [note note_sys]. rewrite Hc, Z.eqb_refl, Hg. destruct bs as [|b bs].
  - rewrite app_nil_r. exists got. auto.
  - apply (IH (got ++ b :: bs) (mkPeer fd (pe_uid p) (pe_same p) (got ++ b :: bs) (pe_boot p) (pe_head p) (pe_copy p))); done.
Qed.

Lemma same_uid_guarded conn :
  guards (Some (new_peer conn)) (peer_is_same_uid conn) (fun p' same => exists uid,
    p' = Some (mkPeer conn uid same [] 0 0 None)).
Proof.
  unfold peer_is_same_uid. cbn [bind syscall trigger guarded]. split; [done|].
  intros [uid|e]; cbn [note note_sys new_peer pe_conn].
  - split; [done|]. intros euid. cbn [note note_sys pe_uid pe_conn pe_bytes pe_boot pe_head pe_copy].
    rewrite Z.eqb_refl. exists (Some uid). do 2 f_equal.
    bdestr (uid =? euid); [apply bool_decide_true|apply bool_decide_false]; congruence.
  - by exists None.
Qed.

Lemma note_boot p v :
  note dev ino shm_fd (Load (Obj dev ino (Boot bf_init_state))) (Some p) v =
  Some (mkPeer (pe_conn p) (pe_uid p) (pe_same p) (pe_bytes p) v (pe_head p) (pe_copy p)).
Proof. cbn [note]. by rewrite decide_True, decide_False. Qed.
Lemma note_head p v :
  note dev ino shm_fd (Load (Obj dev ino (Head ch_init_state))) (Some p) v =
  Some (mkPeer (pe_conn p) (pe_uid p) (pe_same p) (pe_bytes p) (pe_boot p) v (pe_copy p)).
Proof. cbn [note]. by rewrite decide_False, decide_True. Qed.

(** What the status tells: [kOk] is only for a fitting request to a channel that was seen
    ready. *)
Definition answered (req : FdBrokerRequestAbi) (p : peer) (p' : option peer) (status : Z) : Prop :=
  exists boot head,
    p' = Some (mkPeer (pe_conn p) (pe_uid p) (pe_same p) (pe_bytes p) boot head (pe_copy p)) /\
    (status = fb_kOk -> boot = is_kReady /\ head = is_kReady /\
       (rq_channel_hash req =? channel_hash) = true /\
       (negb (request_fingerprint_set req) || bool_decide (rq_schema_fingerprint req = fingerprint)) = true).

Lemma request_status_guarded req p :
  guards (Some p) (request_status (Obj dev ino) req channel_hash fingerprint) (answered req p).
Proof.
  assert (forall status, status <> fb_kOk -> answered req p (Some p) status)
    as Hno by (intros status Hs; exists (pe_boot p), (pe_head p); by destruct p).
  unfold request_status. destruct (rq_channel_hash req =? channel_hash) eqn:Hc; cbn [negb]; [|by apply Hno].
  destruct (request_fingerprint_set req && _) eqn:Hf; [by apply Hno|].
  cbn [bind shared_load_acquire trigger guarded]. split; [done|]. intros boot. rewrite note_boot.
  destruct (Z.eqb_spec boot is_kReady); cbn [negb].
  - split; [done|]. intros head. rewrite note_head. exists boot, head. split; [done|].
    destruct (Z.eqb_spec head is_kReady); cbn [negb]; [|done]. intros _. do 3 (split; [done|]).
    destruct (request_fingerprint_set req); [|done].
    by destruct (bool_decide (rq_schema_fingerprint req = fingerprint)).
  - exists boot, (pe_head p). by split.
Qed.

(** Sending the descriptor, as often as the kernel asks for it. *)
Lemma send_reply_guarded fuel p reply fd d :
  entitled channel_hash fingerprint p (pe_conn p) (reply_bytes reply) fd ->
  guards (Some p) (send_reply_with_fd fuel (pe_conn p) reply fd (budget d)) (fun _ _ => True).
Proof.
  intros He. induction fuel as [|n IH]; cbn [send_reply_with_fd]; [done|].
  apply guarded_step; [solve_quiet|]. intros [|]; cbn [negb]; [|done].
  cbn [bind syscall trigger guarded]. split; [by exists p|]. cbn [note note_sys].
  intros [sent|e].
  - destruct (negb _); [done|]. eapply guarded_mono; [apply guarded_quiet; solve_quiet|done].
  - destruct (e =? EINTR); [done|]. destruct (negb _); [done|].
    apply guarded_step; [solve_quiet|]. by intros [|].
Qed.

Lemma quiet_any {A} p (c : cprog A) : quietly c -> guards p c (fun _ _ => True).
Proof. intros Hc. eapply guarded_mono; [by apply guarded_quiet|done]. Qed.

(** The copy of the descriptor, noted with its kind. *)
Lemma hand_out_guarded ro p :
  guards (Some p) (hand_out_fd shm_fd ro) (fun p' r => forall fd, r = SysOk fd ->
    p' = Some (mkPeer (pe_conn p) (pe_uid p) (pe_same p) (pe_bytes p) (pe_boot p) (pe_head p)
                 (Some (ro, fd)))).
Proof.
  unfold hand_out_fd. destruct ro; cbn [negb]; (split; [done|]); intros [copy|e]; cbn [guarded];
    intros fd [= <-]; cbn [note note_sys].
  - by rewrite bool_decide_true.
  - by rewrite !Z.eqb_refl.
Qed.

Lemma send_descriptor_guarded fuel p d :
  let req := request_of_bytes (pe_bytes p) in
  pe_same p = true -> kFdBrokerRequestSize <= Z.of_nat (length (pe_bytes p)) ->
  request_fits channel_hash fingerprint req = true ->
  pe_boot p = is_kReady -> pe_head p = is_kReady ->
  guards (Some p) (send_descriptor fuel (pe_conn p) shm_fd (Obj dev ino) req (budget d))
    (fun _ _ => True).
Proof.
  intros req Hs Hl Hr Hb Hh. unfold send_descriptor.
  do 6 (apply guarded_step; [solve_quiet|]; intros ?). cbv zeta.
  eapply guarded_seq; [apply hand_out_guarded|]. cbv beta. intros p' [fd|e] Hp.
  2: { apply quiet_any. solve_quiet. }
  rewrite (Hp fd eq_refl). eapply guarded_seq; [|done].
  apply (send_reply_guarded fuel (mkPeer (pe_conn p) (pe_uid p) (pe_same p) (pe_bytes p) (pe_boot p)
    (pe_head p) (Some (_, fd)))). do 7 (split; [done|]). eexists. by split.
Qed.

Lemma serve_connection_guarded fuel conn :
  guards (Some (new_peer conn))
    (serve_connection fuel conn shm_fd (Obj dev ino) channel_hash fingerprint stop) (fun _ _ => True).
Proof.
  unfold serve_connection. apply guarded_step; [solve_quiet|]. intros d. cbv zeta.
  case_match; [done|]. eapply guarded_seq; [apply same_uid_guarded|]. cbv beta.
  intros ? same (uid & ->). destruct same; cbn [negb]; [|apply quiet_any; solve_quiet].
  eapply guarded_seq; [by apply recv_full_guarded|]. cbv beta.
  cbn [pe_uid pe_same pe_boot pe_head pe_copy]. intros ? r (bs & -> & [->|[-> Hl]]); [done|].
  destruct (bool_decide (take 6 _ = _)) eqn:Hm; cbn [negb]; [|done].
  destruct (_ || _) eqn:Hv; [done|]. apply orb_false_iff in Hv as [Hv Hc].
  apply negb_false_iff in Hv, Hc.
  eapply guarded_seq; [apply request_status_guarded|]. cbv beta.
  intros ? status (boot & head & -> & Hst). cbn [pe_conn pe_uid pe_same pe_bytes pe_copy].
  destruct (Z.eqb_spec status fb_kOk) as [E|E]; [|apply quiet_any; solve_quiet].
  destruct (Hst E) as (-> & -> & Hh & Hf).
  apply (send_descriptor_guarded fuel (mkPeer conn uid true bs is_kReady is_kReady None)); try done.
  unfold request_fits. cbn [pe_bytes]. by rewrite Hm, Hv, Hc, Hh, Hf.
Qed.

Lemma serve_loop_guarded rounds fuel listen_fd p :
  guards p (fd_broker_serve_loop rounds fuel listen_fd shm_fd (Obj dev ino) channel_hash fingerprint stop)
    (fun _ _ => True).
Proof.
  revert p. induction rounds as [|n IH]; intros p; cbn [fd_broker_serve_loop]; [done|]. cbv zeta.
  apply guarded_step; [solve_quiet|]. intros stopped. case_match; [done|].
  apply guarded_step; [solve_quiet|]. intros [[ready revents]|e]; [|case_match; [apply IH|done]].
  case_match; [apply IH|]. apply guarded_step; [solve_quiet|]. intros stopped'. case_match; [done|].
  cbn [bind syscall trigger guarded]. split; [done|]. cbn [note note_sys].
  intros [conn|e]; [|case_match; [apply IH|done]].
  eapply guarded_seq; [apply serve_connection_guarded|]. intros ? ? _. apply IH.
Qed.
End Serving.

(** * What happens in a run *)

(** [steps c tr c']: with the answers in [tr], the program has come from [c] to [c']. *)
Inductive steps {A} : cprog A -> list (happened chloc) -> cprog A -> Prop :=
| steps_nil c : steps c [] c
| steps_cons X (e : ev chloc X) k x tr c :
    steps (k x) tr c -> steps (Vis e k) (Happened e x :: tr) c.

(** What a trace has shown of the connection accepted last. *)
Definition peer_after (dev ino shm_fd : Z) (p : option peer) (tr : list (happened chloc)) : option peer :=
  fold_left (fun p h => match h with Happened e x => note dev ino shm_fd e p x end) tr p.

Lemma guarded_steps {A} dev ino shm_fd hash fp (c c' : cprog A) Q p tr1 h tr2 :
  guarded dev ino shm_fd hash fp p c Q -> steps c (tr1 ++ h :: tr2) c' ->
  match h with Happened e _ => allowed hash fp e (peer_after dev ino shm_fd p tr1) end.
Proof.
  revert c p. induction tr1 as [|h1 tr1 IH]; intros c p Hg Hs; inversion Hs; subst; destruct Hg as [Ha Hk].
  - exact Ha.
  - cbn [peer_after fold_left]. eapply IH; [apply Hk|eassumption].
Qed.

(** C8: the broker gives the segment's descriptor to nobody else. In every run of the
    serving thread, for any number of connections and whatever the memory, the kernel and
    the peers answer: when it sends a descriptor, it sends it on the connection it
    accepted last; the kernel said that the peer of that connection runs as the thread's
    own user; at least a whole request came over it, with the right magic, version and
    checksum, for this channel and its schema (or for any schema); the bootstrap and the
    header were then seen ready; and the descriptor is a copy of the segment's, a
    read-only one if and only if the request asked for that, sent with a sealed reply of
    status [kOk]. *)
Theorem broker_descriptor_guarded rounds fuel listen_fd shm_fd dev ino hash fp id f conn bytes fd r
    tr1 tr2 c :
  steps (fd_broker_serve_loop rounds fuel listen_fd shm_fd (Obj dev ino) hash fp (PHnd id f))
    (tr1 ++ Happened (Sys (sys_sendmsg conn bytes fd)) r :: tr2) c ->
  exists p, peer_after dev ino shm_fd None tr1 = Some p /\ entitled hash fp p conn bytes fd.
Proof.
  intros Hs. apply (guarded_steps _ _ _ _ _ _ _ (fun _ _ => True) _ _ _ _ (serve_loop_guarded _ _ _ _ _ _ _ _ _ _ _) Hs).
Qed.

(** A run of the sequential semantics is one. *)
Lemma run_trace_steps {OS A} (os : os_model OS) (c : cprog A) w :
  exists c', steps c (run_trace os c w) c'.
Proof.
  revert w. induction c as [a|X e k IH]; intros w; cbn [run_trace]; [eexists; constructor|].
  destruct (IH (run_ev os e w).1 (run_ev os e w).2) as [c' Hc']. exists c'. by constructor.
Qed.

(** The first descriptor that is sent. *)
Definition as_send (h : happened chloc) : option (Z * list Z * Z * sysres Z) :=
  match h with
  | Happened e x =>
      match e in ev _ Y return Y -> option (Z * list Z * Z * sysres Z) with
      | Sys s =>
          match s in sys Y return Y -> option (Z * list Z * Z * sysres Z) with
          | sys_sendmsg conn bytes fd => fun r => Some (conn, bytes, fd, r)
          | _ => fun _ => None
          end
      | _ => fun _ => None
      end x
  end.
Lemma as_send_eq h conn bytes fd r :
  as_send h = Some (conn, bytes, fd, r) -> h = Happened (Sys (sys_sendmsg conn bytes fd)) r.
Proof. destruct h as [X e x]. destruct e as [| | | | | |X s]; try done. destruct s; try done. by intros [= -> -> -> ->]. Qed.

(** A client of the same user asks for the channel, for reading only. *)
Module BrokerDemo.
Definition fp : list Z := replicate 32 9.
Definition request : FdBrokerRequestAbi := make_request true 77 (mkSchema fp 1).
Definition os : os_model unit := fun X c o =>
  match c in sys Y return Y * unit with
  | sys_clock_gettime _ => (SysOk (5, 0), o)
  | sys_poll _ events _ => (SysOk (1, events), o)
  | sys_accept _ => (SysOk 9, o)
  | sys_peer_uid _ => (SysOk 1000, o)
  | sys_geteuid => (1000, o)
  | sys_recv _ _ => (SysOk (request_bytes request), o)
  | sys_open _ => (SysOk 12, o)
  | sys_sendmsg _ bytes _ => (SysOk (Z.of_nat (length bytes)), o)
  | c => (sys_default c, o)
  end.
Definition memory : chloc -> Z :=
  fun l => match l with
           | Obj _ _ (Boot bf_init_state) | Obj _ _ (Head ch_init_state) => is_kReady
           | _ => 0
           end.
Definition trace : list (happened chloc) :=
  run_trace os (fd_broker_serve_loop 1 4 6 7 (Obj 1 2) 77 fp (PHnd 0 hl_serve_stop)) (mkWorld memory tt).
(** The twenty-eighth thing that happens is the descriptor, number 12, going to the peer. *)
Definition sent_bytes : list Z :=
  match trace !! 27%nat with
  | Some h => match as_send h with Some (_, bytes, _, _) => bytes | None => [] end
  | None => []
  end.
Lemma trace_sends :
  trace = take 27 trace ++ Happened (Sys (sys_sendmsg 9 sent_bytes 12)) (SysOk 64) :: drop 28 trace.
Proof.
  assert (as_send <$> trace !! 27%nat = Some (Some (9, sent_bytes, 12, SysOk 64))) as H
    by (vm_compute; reflexivity).
  destruct (trace !! 27%nat) as [h|] eqn:E; [|done]. injection H as H. apply as_send_eq in H as <-.
  by rewrite take_drop_middle.
Qed.
End BrokerDemo.

Lemma broker_descriptor_guarded_witness :
  exists p, peer_after 1 2 7 None (take 27 BrokerDemo.trace) = Some p /\
    entitled 77 BrokerDemo.fp p 9 BrokerDemo.sent_bytes 12.
Proof.
  destruct (run_trace_steps BrokerDemo.os
    (fd_broker_serve_loop 1 4 6 7 (Obj 1 2) 77 BrokerDemo.fp (PHnd 0 hl_serve_stop))
    (mkWorld BrokerDemo.memory tt)) as [c Hs].
  fold BrokerDemo.trace in Hs. rewrite BrokerDemo.trace_sends in Hs.
  exact (broker_descriptor_guarded 1 4 6 7 1 2 77 BrokerDemo.fp 0 hl_serve_stop 9 BrokerDemo.sent_bytes 12
    (SysOk 64) _ _ c Hs).
Defined.
