(* ===== verification/SupervisorSafety.v ===== *)
(** What a supervisor may do to processes: it signals and waits for the one child it
    has started and not reaped, and never has two. *)
From S2P Require Import Prelude Errors CheckedMath Prog ProcIdentity ShmObject Clock ChannelLayout.
From S2P Require Import ChannelSegment ChannelAbi FdBroker Observer ProcessSpawn Supervisor ChildTrace.

(** The child a handle holds. *)
Definition live (h : SupervisorHandle) : option Z :=
  let c := sh_child h in
  if (cp_pid c <=? 0) || cp_reaped c then None else Some (cp_pid c).

(** The ghost child is the handle's, and there is none before a spawn. *)
Definition tracks (c : option Z) (s : LoopState) : Prop :=
  c = live (lp_handle s) /\ (lp_phase s = ph_kSpawn \/ lp_phase s = ph_kBackoff -> c = None).

Lemma live_some h p :
  live h = Some p -> p = cp_pid (sh_child h) /\ 0 < p /\ cp_reaped (sh_child h) = false.
Proof.
  unfold live. bdestr (cp_pid (sh_child h) <=? 0); [done|]. destruct (cp_reaped _); [done|].
  intros [= <-]. split; [done|]. split; [lia|done].
Qed.
Lemma live_here h :
  (cp_pid (sh_child h) <=? 0) || cp_reaped (sh_child h) = false ->
  live h = Some (cp_pid (sh_child h)).
Proof. unfold live. by intros ->. Qed.
Lemma live_none h :
  (cp_pid (sh_child h) <=? 0) || cp_reaped (sh_child h) = true -> live h = None.
Proof. unfold live. by intros ->. Qed.
Lemma live_gone h status : live (set_child_of (child_gone status) h) = None.
Proof. apply live_none. by rewrite orb_true_r. Qed.

(** ** Calls about the child *)

Section Calls.
Context {L : Type}.

Lemma waitpid_lawful n p nohang :
  @lawful L _ (Some p) (retry_eintr n (sys_waitpid p nohang) (SysErr EINTR)) (fun c r =>
    match r with
    | SysOk (rc, _) => rc = p /\ c = None \/ nohang = true /\ rc = 0 /\ c = Some p
    | SysErr _ => c = Some p
    end).
Proof.
  generalize EINTR at 1 as e. induction n as [|n IH]; intros e; cbn [retry_eintr]; [done|].
  split; [done|]. split; [by left|]. split; [by right|]. intros e'. cbn [bind].
  destruct (e' =? EINTR); [apply IH|done].
Qed.

Lemma kill_lawful p sig :
  @lawful L _ (Some p) (kill_child p sig) (fun c _ => c = Some p).
Proof. split; done. Qed.

Lemma blocking_lawful n p :
  @lawful L _ (Some p) (reap_child_blocking n p) (fun c r =>
    match r with Ok _ => c = None | Err _ => c = Some p end).
Proof.
  unfold reap_child_blocking. eapply lawful_seq; [apply waitpid_lawful|].
  intros c [[rc st]|e]; cbn; [|done]. by intros [[_ H]|[H _]].
Qed.

Lemma spawn_lawful argv :
  @lawful L _ None (spawn_process argv) (fun c r =>
    match r with Ok sp => c = Some (sp_pid sp) /\ 0 < sp_pid sp | Err _ => c = None end).
Proof.
  unfold spawn_process. destruct argv as [|[|ch path] argv]; [done|done|].
  apply lawful_step; [solve_childless|]. intros [[]|e]; [|done].
  apply lawful_step; [solve_childless|]. intros [[rd wr]|e]; [|done].
  apply lawful_step; [solve_childless|]. intros [[]|e].
  - split; [done|]. split.
    + intros p Hp. cbn [bind]. apply lawful_step; [solve_childless|]. intros _. by split.
    + intros e. cbn [bind]. apply lawful_step; [solve_childless|]. intros _.
      apply lawful_step; [solve_childless|]. done.
  - do 2 (apply lawful_step; [solve_childless|]; intros _). done.
Qed.

Lemma reap_lawful fuel h :
  @lawful L _ (live h) (reap_child fuel h) (fun c r =>
    c = live r.2 /\ (forall status, r.1 = Ok (true, status) -> c = None) /\
    (live h = None -> c = None)).
Proof.
  unfold reap_child. destruct (live h) as [p|] eqn:Hl.
  - destruct (live_some h p Hl) as (Hp & Hpos & Hr). rewrite <- Hp, Hr.
    bdestr (p <=? 0); [lia|]. eapply lawful_seq; [apply waitpid_lawful|].
    intros c [[rc st]|e].
    + intros [[-> ->]|(_ & -> & ->)]; [|by bdestr (0 =? p); [lia|]]. rewrite Z.eqb_refl.
      apply lawful_step; [solve_childless|]. intros _. split; [|done].
      symmetry. apply live_none. by rewrite orb_true_r.
    + intros ->. by split.
  - unfold live in Hl. destruct (cp_pid _ <=? 0) eqn:E1; [|destruct (cp_reaped _) eqn:E2; [|done]].
    + split; [|done]. symmetry. apply live_none. cbn [snd]. by rewrite E1.
    + split; [|done]. symmetry. apply live_none. cbn [snd]. by rewrite E2, orb_true_r.
Qed.
End Calls.

(** ** The phases *)

Lemma count_failure_live {L} h : leaves (fun r => live r.2 = live h) (@count_failure L h).
Proof. unfold count_failure. apply leaves_bind_any. intros now. repeat case_match; done. Qed.
Lemma count_failure_childless {L} h : childless (@count_failure L h).
Proof. unfold count_failure. solve_childless. Qed.

Lemma deadline_lawful {L} c timeout s (k : Z -> prog L LoopState) Q :
  Q c (loop_fail clock_failure s) -> (forall d, lawful c (k d) Q) ->
  lawful c (with_deadline timeout s k) Q.
Proof.
  intros HQ Hk. unfold with_deadline. apply lawful_step; [solve_childless|]. intros d.
  by destruct (d =? 0).
Qed.

Lemma restart_lawful {L} s :
  live (lp_handle s) = None -> lawful None (@restart_or_give_up L s) tracks.
Proof.
  intros Hl. unfold restart_or_give_up.
  eapply (lawful_seq _ _ _ (fun c r => c = None /\ live r.2 = live (lp_handle s))).
  { eapply lawful_leaves; [apply count_failure_childless|apply count_failure_live|]. by split. }
  intros c [ex h] [-> Hr]. cbn [snd] in Hr. rewrite Hl in Hr. destruct ex; [by split|].
  unfold enter_backoff. apply deadline_lawful; [by split|]. intros d. by split.
Qed.

Lemma unwatched_lawful {L} fuel s :
  0 < cp_pid (sh_child (lp_handle s)) -> cp_reaped (sh_child (lp_handle s)) = false ->
  lawful (live (lp_handle s)) (@spawn_unwatched L fuel s) (fun c s' => tracks c s').
Proof.
  intros Hp Hr. assert (live (lp_handle s) = Some (cp_pid (sh_child (lp_handle s)))) as Hl.
  { apply live_here. rewrite Hr. bdestr (cp_pid (sh_child (lp_handle s)) <=? 0); [lia|done]. }
  rewrite Hl. unfold spawn_unwatched. eapply lawful_seq; [apply kill_lawful|].
  intros c [[]|e] ->; [|split; [exact (eq_sym Hl)|by intros []]].
  eapply lawful_seq; [apply blocking_lawful|]. intros c [st|e] ->.
  - apply restart_lawful. apply live_gone.
  - split; [exact (eq_sym Hl)|by intros []].
Qed.

Lemma watched_lawful {L} pidfd s :
  lp_phase s = ph_kSpawn -> lawful (live (lp_handle s)) (@spawn_watched L pidfd s) tracks.
Proof.
  intros Hph. unfold spawn_watched. apply lawful_step; [solve_childless|]. intros _.
  apply lawful_step; [unfold epoll_add; solve_childless|]. intros [[]|e]; [|split; [done|by intros []]].
  apply lawful_step; [unfold epoll_add; solve_childless|]. intros [[]|e]; [|split; [done|by intros []]].
  apply deadline_lawful; [split; [done|by intros []]|]. intros d. split; [done|by intros []].
Qed.

Lemma spawn_phase_lawful {L} fuel s :
  lp_phase s = ph_kSpawn -> live (lp_handle s) = None -> lawful None (@spawn_phase L fuel s) tracks.
Proof.
  intros Hph Hl. unfold spawn_phase. eapply lawful_seq; [apply spawn_lawful|].
  intros c [sp|e]; [intros [-> Hp]|intros ->; by apply restart_lawful].
  apply lawful_step; [solve_childless|]. intros _. apply lawful_step; [solve_childless|]. intros now.
  set (h1 := set_last_spawn now _).
  assert (live h1 = Some (sp_pid sp)) as Hl1.
  { apply live_here. change (cp_pid (sh_child h1)) with (sp_pid sp).
    change (cp_reaped (sh_child h1)) with false. bdestr (sp_pid sp <=? 0); [lia|done]. }
  destruct (now =? 0); [split; [exact (eq_sym Hl1)|by intros []]|].
  apply lawful_step; [solve_childless|]. intros start. cbv zeta.
  set (s2 := with_handle _ (with_handle _ s)). assert (live (lp_handle s2) = Some (sp_pid sp)) as Hl2 by exact Hl1.
  apply lawful_step; [solve_childless|]. rewrite <- Hl2. intros [pidfd|e].
  - by apply watched_lawful.
  - by apply unwatched_lawful.
Qed.

Lemma await_lawful fuel s :
  lp_phase s = ph_kAwaitReady -> lawful (live (lp_handle s)) (await_ready_phase fuel s) tracks.
Proof.
  intros Hph. unfold await_ready_phase. apply lawful_step; [solve_childless|]. intros view.
  apply lawful_step; [unfold child_generation, observer_generation; solve_childless|].
  intros [[v gen]|]; [split; [done|by intros []]|]. destruct (cp_reaped _) eqn:Hr.
  - rewrite live_none by (by rewrite Hr, orb_true_r). apply restart_lawful, live_none.
    by rewrite Hr, orb_true_r.
  - apply lawful_step; [solve_childless|]. intros now. destruct (_ <=? now).
    + split; [done|by intros []].
    + split; [done|]. rewrite Hph. by intros [].
Qed.

Lemma monitor_lawful s :
  lp_phase s = ph_kMonitor -> lawful (live (lp_handle s)) (monitor_phase s) tracks.
Proof.
  intros Hph. unfold monitor_phase. destruct (cp_reaped _) eqn:Hr.
  - rewrite live_none by (by rewrite Hr, orb_true_r).
    assert (live (lp_handle s) = None) as Hl by (apply live_none; by rewrite Hr, orb_true_r).
    destruct (cp_reap_decision _); [by apply restart_lawful| |by apply restart_lawful].
    split; [exact (eq_sym Hl)|by intros []].
  - destruct (sh_view _) as [view|]; [|split; [done|]; rewrite Hph; by intros []].
    apply lawful_step; [solve_childless|]. intros now. apply lawful_step; [solve_childless|]. intros sc.
    destruct (bool_decide _); (split; [done|]); [by intros []|rewrite Hph; by intros []].
Qed.

(** In [kKill] and after it. *)
Definition killing (c : option Z) (s : LoopState) : Prop :=
  c = live (lp_handle s) /\ (lp_phase s = ph_kKill \/ lp_phase s = ph_kDone).

Lemma killing_tracks c s : killing c s -> tracks c s.
Proof. intros [H1 H2]. split; [done|]. intros [H|H]; rewrite H in H2; by destruct H2. Qed.

Lemma arm_lawful {L} h :
  lawful (live h) (@arm_child_kill L h) (fun c r => c = live r.2 /\ live r.2 = live h).
Proof.
  unfold arm_child_kill. destruct (_ || _) eqn:E; [done|]. apply orb_false_iff in E as [E _].
  pose proof (live_here h E) as Hl. eapply lawful_seq; [rewrite Hl; apply kill_lawful|].
  intros c [[]|e] ->; (split; [exact (eq_sym Hl)|done]).
Qed.

Lemma kill_signals_lawful {L} s :
  lp_phase s = ph_kKill -> lawful (live (lp_handle s)) (@kill_signals L s) killing.
Proof.
  intros Hph. assert (killing (live (lp_handle s)) s) as Hs by (split; [done|by left]).
  unfold kill_signals. destruct (_ || _) eqn:E; [done|].
  eapply (lawful_seq _ _ _ (fun c s' => killing c s' /\ live (lp_handle s') = live (lp_handle s))).
  - destruct (cp_kill_in_progress _); [by split|]. eapply lawful_seq; [apply arm_lawful|].
    intros c [[[]|e] h'] [-> Hl]; cbn [snd] in *; [|by split; [split; [done|by right]|]].
    apply deadline_lawful; [by split; [split; [done|by right]|]|]. intros d.
    by split; [split; [done|by left]|].
  - intros c s' [[-> Hp] Hl]. case_bool_decide; [done|]. destruct (negb _); [done|].
    apply lawful_step; [solve_childless|]. intros now. destruct (now <? _); [done|].
    rewrite Hl, (live_here _ E). eapply lawful_seq; [apply kill_lawful|].
    intros c [[]|e] ->; rewrite <- (live_here _ E), <- Hl; (split; [done|]); [done|by right].
Qed.

Lemma kill_phase_lawful {L} fuel s :
  lp_phase s = ph_kKill -> lawful (live (lp_handle s)) (@kill_phase L fuel s) tracks.
Proof.
  intros Hph. unfold kill_phase. eapply lawful_seq; [by apply kill_signals_lawful|].
  intros c s' Hk. case_bool_decide; [by apply killing_tracks|]. destruct Hk as [-> [Hp|Hp]]; [|done].
  eapply lawful_seq; [apply reap_lawful|]. intros c [[[[] st]|e] h'] (-> & Hr & _); cbn [fst snd] in *.
  - specialize (Hr st eq_refl). destruct (lp_kill_then_restart _).
    + rewrite Hr. by apply restart_lawful.
    + split; [done|by intros []].
  - split; [done|]. cbn. rewrite Hp. by intros [].
  - split; [done|by intros []].
Qed.

Lemma phase_lawful fuel c s : tracks c s -> lawful c (phase_step fuel s) tracks.
Proof.
  intros Ht. pose proof Ht as [-> Hn]. unfold phase_step. destruct (lp_phase s) eqn:Hph.
  - unfold backoff_phase. apply lawful_step; [solve_childless|]. intros now.
    destruct (_ <=? now); [|done]. split; [done|]. intros _. apply Hn. by right.
  - rewrite Hn by (by left). apply spawn_phase_lawful; [done|]. apply Hn. by left.
  - by apply await_lawful.
  - by apply monitor_lawful.
  - by apply kill_phase_lawful.
  - done.
Qed.

(** ** The loop *)

Lemma drain_live {L} fuel h : leaves (fun h' => live h' = live h) (@drain_child_stdout L fuel h).
Proof.
  revert h. induction fuel as [|n IH]; intros h; cbn [drain_child_stdout]; [by case_match|].
  destruct (_ <? 0); [done|]. apply leaves_bind_any. intros [[|x data]|e].
  - apply leaves_bind_any. done.
  - eapply leaves_mono; [|apply IH]. done.
  - repeat case_match; [done|apply IH|]. apply leaves_bind_any. done.
Qed.
Lemma drain_childless {L} fuel h : childless (@drain_child_stdout L fuel h).
Proof. revert h. induction fuel as [|n IH]; intros h; cbn [drain_child_stdout]; solve_childless. Qed.
#[global] Hint Resolve drain_childless : child_db.

Lemma event_lawful fuel fd c s : tracks c s -> lawful c (handle_event fuel fd s) tracks.
Proof.
  intros Ht. pose proof Ht as [Hc Hn]. unfold handle_event. apply lawful_step; [solve_childless|].
  intros evfd. destruct (_ || _).
  { apply lawful_step; [solve_childless|]. intros _. split; [done|by intros []]. }
  destruct (_ && _).
  - rewrite Hc. eapply lawful_seq; [apply reap_lawful|].
    intros c' [[[[] st]|e] h'] (-> & Hr & Hk); cbn [fst snd] in *.
    + specialize (Hr st eq_refl). assert (tracks (live h') (with_handle h' s)) as Ht' by by split.
      destruct (cp_reap_decision _); [|done|done]. by split.
    + split; [done|]. intros Hp. apply Hk. rewrite <- Hc. by apply Hn.
    + split; [done|by intros []].
  - destruct (_ && _); [|done]. eapply lawful_seq.
    { eapply lawful_leaves; [solve_childless|apply drain_live|].
      instantiate (1 := fun c' h' => c' = c /\ live h' = live (lp_handle s)). by split. }
    intros c' h' [-> Hl]. split; [by rewrite Hc|done].
Qed.

Lemma events_lawful fuel fds c s : tracks c s -> lawful c (handle_events fuel fds s) tracks.
Proof.
  revert c s. induction fds as [|fd fds IH]; intros c s Ht; [done|]. cbn [handle_events].
  eapply lawful_seq; [by apply event_lawful|]. intros c' s' Ht'.
  destruct (lp_error s'); [done|]. by apply IH.
Qed.

Lemma wait_lawful fuel c s : tracks c s -> lawful c (wait_events fuel s) tracks.
Proof.
  intros Ht. unfold wait_events. apply lawful_step; [unfold wait_slice; solve_childless|].
  intros slice. apply lawful_step; [solve_childless|]. intros [fds|e].
  - by apply events_lawful.
  - destruct (e =? EINTR); [done|]. destruct Ht as [-> _]. split; [done|by intros []].
Qed.

Lemma round_lawful fuel c s : tracks c s -> lawful c (supervise_round fuel s) tracks.
Proof.
  intros Ht. unfold supervise_round. apply lawful_step; [solve_childless|]. intros stop.
  eapply lawful_seq.
  - apply phase_lawful. destruct (negb _); [|exact Ht]. destruct Ht as [-> _]. split; [done|by intros []].
  - intros c' s' Ht'. case_bool_decide; [done|]. by apply wait_lawful.
Qed.

Lemma loop_lawful rounds fuel c s :
  tracks c s ->
  lawful c (supervise_loop rounds fuel s) (fun c' r =>
    match r with Some s' => tracks c' s' | None => True end).
Proof.
  revert c s. induction rounds as [|n IH]; intros c s Ht; cbn [supervise_loop];
    (case_bool_decide; [done|]); [done|].
  eapply lawful_seq; [by apply round_lawful|]. intros c' s' Ht'. by apply IH.
Qed.

(** ** [run] and the destructor *)

Lemma leftover_lawful {L} fuel s :
  lawful (live (lp_handle s)) (@reap_leftover L fuel s) (fun c s' =>
    c = live (lp_handle s') /\ (lp_error s' = None -> c = None)).
Proof.
  unfold reap_leftover. cbv zeta. destruct (_ || _) eqn:E.
  { split; [done|]. intros _. by apply live_none. }
  pose proof (live_here _ E) as Hl. rewrite Hl. eapply lawful_seq; [apply kill_lawful|].
  intros c [[]|e] ->; [|by destruct (lp_error s) eqn:He; (split; [exact (eq_sym Hl)|cbn; congruence])].
  eapply lawful_seq; [apply blocking_lawful|]. intros c [st|e] ->.
  - split; [|done]. symmetry. apply live_gone.
  - by destruct (lp_error s) eqn:He; (split; [exact (eq_sym Hl)|cbn; congruence]).
Qed.

(** What a run leaves: no child after a success; after an error the handle still
    says which child is there. *)
Definition run_leaves (c : option Z) (r : Result SupervisionResult * SupervisorHandle) : Prop :=
  c = live r.2 /\ match r.1 with Ok _ => c = None | Err _ => True end.

Lemma end_run_lawful fuel evfd s :
  lawful (live (lp_handle s)) (end_run fuel evfd s) run_leaves.
Proof.
  unfold end_run. eapply lawful_seq; [apply leftover_lawful|]. intros c s' [-> He].
  eapply (lawful_seq _ _ _ (fun c' h' => c' = live (lp_handle s') /\ live h' = live (lp_handle s'))).
  { eapply lawful_leaves; [solve_childless|apply drain_live|]. by split. }
  intros c h [-> Hl]. rewrite <- Hl in He |- *.
  do 4 (apply lawful_step; [solve_childless|]; intros _).
  apply lawful_step; [solve_childless|]. intros restored. apply lawful_step; [solve_childless|]. intros _.
  cbn [lp_error with_handle]. destruct (lp_error s'); [done|]. destruct restored; [|done].
  split; [done|]. by apply He.
Qed.

Lemma close_run_live h evfd : leaves (fun h' => live h' = live h) (close_run h evfd).
Proof. unfold close_run. repeat (apply leaves_bind_any; intros _). done. Qed.

Lemma open_run_live h : leaves (fun r => live r.2 = live h) (open_run h).
Proof.
  unfold open_run.
  repeat first
    [ done
    | eapply leaves_bind; [apply close_run_live|intros h' Hl; exact Hl]
    | apply leaves_bind_any; intros ?
    | case_match ].
Qed.
Lemma open_run_childless h : childless (open_run h).
Proof. unfold open_run, close_run, epoll_add. solve_childless. Qed.
#[global] Hint Resolve open_run_childless : child_db.

Lemma run_lawful rounds fuel h :
  live h = None ->
  lawful None (supervisor_run rounds fuel h) (fun c r =>
    match r with Some r => run_leaves c r | None => True end).
Proof.
  intros Hl. unfold supervisor_run. apply lawful_step; [solve_childless|].
  intros []; cbn [negb]; [|by split].
  eapply (lawful_seq _ _ _ (fun c r => c = None /\ live r.2 = live h)).
  { eapply lawful_leaves; [solve_childless|apply open_run_live|]. by split. }
  intros c [[evfd|e] h'] [-> Hl']; cbn [snd] in Hl'; rewrite Hl in Hl'; [|by split].
  eapply lawful_seq; [apply loop_lawful; split; [exact (eq_sym Hl')|done]|].
  intros c [s|]; [|done]. intros [-> _]. eapply lawful_seq; [apply end_run_lawful|]. done.
Qed.

Lemma shutdown_lawful fuel h :
  lawful (live h) (supervisor_handle_shutdown fuel h) (fun c h' => c = live h').
Proof.
  unfold supervisor_handle_shutdown.
  apply lawful_step; [unfold supervisor_request_stop; solve_childless|]. intros _.
  destruct (_ || _) eqn:E; [done|]. pose proof (live_here h E) as Hl. rewrite Hl.
  eapply lawful_seq; [apply kill_lawful|]. intros c [[]|e] ->; [|exact (eq_sym Hl)].
  eapply lawful_seq; [apply blocking_lawful|]. intros c [st|e] ->; [|exact (eq_sym Hl)].
  symmetry. apply live_gone.
Qed.

Lemma create_live id options h : supervisor_create_impl id options = Ok h -> live h = None.
Proof. unfold supervisor_create_impl. repeat (case_match; try done). by intros [= <-]. Qed.

(** A supervisor's life: any number of runs, whether they succeed or fail, and then the
    destructor. [run] is not called again once a run has failed and left its child. *)
Fixpoint supervisor_life (runs rounds fuel : nat) (h : SupervisorHandle)
    : cprog (option SupervisorHandle) :=
  match runs with
  | O => let! h := supervisor_handle_shutdown fuel h in Ret (Some h)
  | S runs' =>
      let! r := supervisor_run rounds fuel h in
      match r with
      | None => Ret None
      | Some (_, h) =>
          match live h with
          | None => supervisor_life runs' rounds fuel h
          | Some _ => let! h := supervisor_handle_shutdown fuel h in Ret (Some h)
          end
      end
  end.

Lemma life_lawful runs rounds fuel h :
  live h = None ->
  lawful None (supervisor_life runs rounds fuel h) (fun c r =>
    match r with Some h' => c = live h' | None => True end).
Proof.
  revert h. induction runs as [|n IH]; intros h Hc; cbn [supervisor_life].
  - rewrite <- Hc. by eapply lawful_seq; [apply shutdown_lawful|].
  - eapply lawful_seq; [by apply run_lawful|]. intros c [[res h']|]; [|done].
    intros [-> _]. cbn [snd]. destruct (live h') as [p|] eqn:Hl; [|by apply IH].
    rewrite <- Hl. by eapply lawful_seq; [apply shutdown_lawful|].
Qed.

(** ** A supervisor *)

Definition demo_options : SupervisorOptions :=
  mkSupervisorOptions "cam0" tr_kPosixShm ["/usr/bin/camera"] 100 1000 2 3 50 100 200 500 true.

(** A kernel whose state is the processes that were started and those that were waited
    for, the last ones first. The producer may not be signalled, as one that has changed
    its user, and the supervisor gets a signal to stop. *)
Module LeftoverDemo.
Definition state : Type := list Z * list Z.
Definition os : os_model state := fun X c o =>
  match c in sys Y return Y * state with
  | sys_epoll_create => (SysOk 3, o)
  | sys_eventfd => (SysOk 4, o)
  | sys_signalfd => (SysOk 5, o)
  | sys_epoll_add _ _ | sys_sigmask_block | sys_sigmask_restore => (SysOk tt, o)
  | sys_pipe2 => (SysOk (6, 7), o)
  | sys_spawn_setup _ => (SysOk tt, o)
  | sys_posix_spawn _ _ _ _ =>
      let p := 41 + Z.of_nat (length o.1) in (SysOk p, (p :: o.1, o.2))
  | sys_pidfd_open _ => (SysOk 8, o)
  | sys_clock_gettime _ => (SysOk (5, 0), o)
  | sys_epoll_wait _ _ _ => (SysOk [5], o)
  | sys_kill _ _ => (SysErr EPERM, o)
  | sys_waitpid p _ => (SysOk (p, 0), (o.1, p :: o.2))
  | c => (sys_default c, o)
  end.
Definition handle : SupervisorHandle := new_supervisor 0 demo_options.
Definition memory : chloc -> Z := fun _ => 0.
Definition run_once (h : SupervisorHandle) (w : world chloc state) :
    option (Result SupervisionResult * SupervisorHandle) * world chloc state :=
  run os (supervisor_run 10 16 h) w.
(** Whether it failed, and the handle and the world after it. *)
Definition run_fails (h : SupervisorHandle) (w : world chloc state) : bool :=
  match (run_once h w).1 with Some (Err _, _) => true | _ => false end.
Definition after (h : SupervisorHandle) (w : world chloc state) : SupervisorHandle * world chloc state :=
  match run_once h w with
  | (Some (_, h'), w') => (h', w')
  | (None, w') => (h, w')
  end.
Definition start : SupervisorHandle * world chloc state := (handle, mkWorld memory ([], [])).
Definition first : SupervisorHandle * world chloc state := after start.1 start.2.
Definition second : SupervisorHandle * world chloc state := after first.1 first.2.
End LeftoverDemo.

(** Both runs fail; each leaves a child, and none is waited for. *)
Lemma leftover_child_reached :
  LeftoverDemo.run_fails LeftoverDemo.start.1 LeftoverDemo.start.2 = true /\
  live LeftoverDemo.first.1 = Some 41 /\
  LeftoverDemo.run_fails LeftoverDemo.first.1 LeftoverDemo.first.2 = true /\
  live LeftoverDemo.second.1 = Some 42 /\ w_os LeftoverDemo.second.2 = ([42; 41], []).
Proof. repeat match goal with |- _ /\ _ => split end; vm_compute; reflexivity. Qed.

(** C39. From its creation to its destruction a supervisor only ever signals and waits
    for the child it started and has not reaped: it never signals a process number
    after waiting for it, never waits twice, never starts a second child while one is
    there. This is for any number of runs, failed ones included, with one exception: that
    [run] is not called again after a run that failed and left its child, because the
    kernel refused to signal it or to wait for it. A run that succeeds leaves no child;
    and when one is left after the destructor, the handle still names it. It holds
    whatever the memory holds, for every kernel on which a process that was started has a
    positive number, and waiting for it, when it does not fail, answers that number, or 0
    when it was asked not to block ([lawful]); and however long the runs last.

    The exception is real: on a kernel that does not let the supervisor signal the child
    (EPERM), a run that is told to stop fails and leaves child 41; the next run starts
    child 42 over it, and 41 is never waited for. *)
Theorem supervisor_signals_own_child :
  (forall id options h,
     supervisor_create_impl id options = Ok h ->
     (forall rounds fuel,
        lawful None (supervisor_run rounds fuel h) (fun c r =>
          match r with Some (Ok _, h') => c = None /\ live h' = None | _ => True end)) /\
     forall runs rounds fuel,
       lawful None (supervisor_life runs rounds fuel h) (fun c r =>
         match r with Some h' => c = live h' | None => True end)) /\
  (LeftoverDemo.run_fails LeftoverDemo.start.1 LeftoverDemo.start.2 = true /\
   live LeftoverDemo.first.1 = Some 41 /\
   LeftoverDemo.run_fails LeftoverDemo.first.1 LeftoverDemo.first.2 = true /\
   live LeftoverDemo.second.1 = Some 42 /\ w_os LeftoverDemo.second.2 = ([42; 41], [])).
Proof.
  split; [|exact leftover_child_reached].
  intros id options h Hc. apply create_live in Hc. split.
  - intros rounds fuel. eapply lawful_mono; [by apply run_lawful|].
    intros c [[[res|e] h']|]; [|done|done]. intros [-> H]. by split.
  - intros runs rounds fuel. by apply life_lawful.
Qed.

Lemma supervisor_signals_own_child_witness :
  supervisor_create_impl 0 demo_options = Ok (new_supervisor 0 demo_options) /\
  lawful None (supervisor_life 2 1000 16 (new_supervisor 0 demo_options)) (fun c r =>
    match r with Some h' => c = live h' | None => True end).
Proof.
  split; [vm_compute; reflexivity|].
  apply (proj1 supervisor_signals_own_child 0%nat demo_options). vm_compute. reflexivity.
Defined.
