(* ===== verification/SupervisorPolicy.v ===== *)
(** The restart policy of the supervisor: the delay before a restart is the capped
    power the options describe, and the whole run keeps to the number of restarts, to
    the order of the generations and to the meaning of its outcomes. *)
From S2P Require Import Prelude Errors CheckedMath Prog ProcIdentity ShmObject Clock ChannelLayout.
From S2P Require Import ChannelSegment ChannelAbi FdBroker Observer ProcessSpawn Supervisor.
From S2P Require Import SupervisorSafety.

(** ** The delay *)

(** The options a supervisor was created with, at the width of their types. *)
Record options_ok (o : SupervisorOptions) : Prop := {
  oo_created : exists id h, supervisor_create_impl id o = Ok h;
  oo_multiplier : vo_multiplier o <= UINT32_MAX;
  oo_restarts : 0 <= vo_max_restarts o <= UINT32_MAX
}.

(** The delay before the [attempt]th restart in a row: the initial delay, multiplied
    every time, never above the maximum. *)
Definition backoff_spec (o : SupervisorOptions) (attempt : Z) : Z :=
  Z.min (vo_max_delay o * 1000000)
    (vo_initial_delay o * 1000000 * vo_multiplier o ^ (attempt - 1)).

Lemma valid_milliseconds_range ms zero :
  valid_milliseconds ms zero = true -> 0 <= ms /\ ms * 1000000 <= UINT64_MAX.
Proof.
  unfold valid_milliseconds. bdestr (ms <? 0); [done|]. case_match; [done|].
  rewrite Z.leb_le. intros Hm. split; [lia|]. pose proof (Z.mul_div_le UINT64_MAX 1000000). lia.
Qed.

Lemma created_delays o :
  options_ok o ->
  0 <= vo_initial_delay o <= vo_max_delay o /\ vo_max_delay o * 1000000 <= UINT64_MAX /\
  1 <= vo_multiplier o.
Proof.
  intros [(id & h & Hc) _ _]. revert Hc. unfold supervisor_create_impl.
  destruct (valid_milliseconds (vo_initial_delay o) true) eqn:E1; [|by repeat case_match].
  destruct (valid_milliseconds (vo_max_delay o) true) eqn:E2; [|by repeat case_match].
  bdestr (vo_max_delay o <? vo_initial_delay o); [rewrite orb_true_r; by repeat case_match|].
  bdestr (vo_multiplier o <? 1); [by repeat case_match|]. intros _.
  apply valid_milliseconds_range in E1, E2. lia.
Qed.

Lemma ms_to_ns_exact ms : 0 <= ms -> ms * 1000000 <= UINT64_MAX -> ms_to_ns ms = ms * 1000000.
Proof. intros H1 H2. unfold ms_to_ns. bdestr (0 <? ms); [|lia]. apply u64_small. mlia. Qed.

Lemma backoff_loop_exact n m capped delay :
  1 <= m -> 0 <= delay <= capped -> capped <= UINT64_MAX ->
  backoff_loop n m capped delay = Z.min capped (delay * m ^ Z.of_nat n).
Proof.
  intros Hm. revert delay. induction n as [|n IH]; intros delay Hd Hc; cbn [backoff_loop]; [simpl; lia|].
  rewrite Nat2Z.inj_succ, Z.pow_succ_r by lia.
  assert (1 <= m ^ Z.of_nat n) as Hp by (pose proof (Z.pow_pos_nonneg m (Z.of_nat n)); lia).
  assert (m <= m * m ^ Z.of_nat n) as Hq by nia. set (q := m * m ^ Z.of_nat n) in *.
  bdestr (delay <? capped); [|assert (delay = capped) as -> by lia; nia].
  bdestr (capped / m <? delay).
  - assert (capped < m * delay) by (pose proof (Z.mul_succ_div_gt capped m); nia). nia.
  - assert (m * delay <= capped) by (pose proof (Z.mul_div_le capped m); nia).
    rewrite u64_small by mlia. rewrite IH by nia. subst q. f_equal. ring.
Qed.

Lemma backoff_exact h :
  options_ok (sh_options h) -> 1 <= sh_consecutive_failures h ->
  backoff_delay_ns h = backoff_spec (sh_options h) (sh_consecutive_failures h).
Proof.
  intros Ho Hf. destruct (created_delays _ Ho) as (Hd & Hm & Hmul). unfold backoff_delay_ns.
  rewrite !ms_to_ns_exact by lia. set (o := sh_options h) in *.
  assert ((if vo_max_delay o * 1000000 =? 0 then vo_initial_delay o * 1000000
           else vo_max_delay o * 1000000) = vo_max_delay o * 1000000) as ->.
  { bdestr (vo_max_delay o * 1000000 =? 0); lia. }
  rewrite backoff_loop_exact, Z2Nat.id by lia. fold (backoff_spec o (sh_consecutive_failures h)).
  bdestr (vo_max_delay o * 1000000 <? backoff_spec o (sh_consecutive_failures h)); [|done].
  unfold backoff_spec in *. lia.
Qed.

(** ** The invariant of the handle *)

(** An announced restart is one of those allowed, after the delay of its number. *)
Definition restart_ok (o : SupervisorOptions) (e : SupervisorEventInfo) : Prop :=
  ei_event e = se_kRestartArmed ->
  1 <= ei_attempt e <= vo_max_restarts o /\ ei_delay_ns e = backoff_spec o (ei_attempt e).

(** The generations supervised, newest first. *)
Fixpoint supervised (events : list SupervisorEventInfo) : list Z :=
  match events with
  | [] => []
  | e :: older =>
      match ei_event e with
      | se_kSupervised => ei_generation e :: supervised older
      | _ => supervised older
      end
  end.

(** The number of the last restart announced. *)
Fixpoint last_attempt (events : list SupervisorEventInfo) : Z :=
  match events with
  | [] => 0
  | e :: older =>
      match ei_event e with se_kRestartArmed => ei_attempt e | _ => last_attempt older end
  end.

(** Each is the one expected after the one before. *)
Fixpoint successive (gens : list Z) : Prop :=
  match gens with
  | gen :: (before :: _) as older => expected_generation before gen = true /\ successive older
  | _ => True
  end.

Record policy (o : SupervisorOptions) (h : SupervisorHandle) : Prop := {
  po_options : sh_options h = o;
  po_failures : 0 <= sh_consecutive_failures h <= vo_max_restarts o;
  po_attempt : vo_on_event o = true -> sh_consecutive_failures h = last_attempt (sh_events h);
  po_restarts : Forall (restart_ok o) (sh_events h);
  po_successive : vo_on_event o = true ->
    successive (supervised (sh_events h)) /\
    sh_baseline_generation h = default 0 (head (supervised (sh_events h)));
  po_clean : cp_reap_decision (sh_child h) = rd_kCleanExit -> 0 < cp_pid (sh_child h) ->
    cp_reaped (sh_child h) = true /\
    is_clean_exit_status (cp_last_exit_status (sh_child h)) = true;
  po_tail : (length (sh_stdout_tail h) <= kStdoutTailLimit)%nat
}.

(** The steps that change none of it but the child. *)
Lemma policy_child o h c :
  policy o h ->
  (cp_reap_decision c = rd_kCleanExit -> 0 < cp_pid c ->
   cp_reaped c = true /\ is_clean_exit_status (cp_last_exit_status c) = true) ->
  policy o (set_child c h).
Proof. by intros [] Hc; constructor. Qed.

Ltac policy_event :=
  match goal with H : sh_options _ = ?o |- _ => subst o end;
  constructor; try done;
  cbn [sh_events notify emit_event sh_baseline_generation set_supervised sh_options
       sh_consecutive_failures set_failures];
  try (destruct (vo_on_event _) eqn:?; try done).

Lemma policy_notify o h e :
  policy o h -> ei_event e <> se_kSupervised -> ei_event e <> se_kRestartArmed ->
  policy o (notify e h).
Proof.
  intros [] He Hr. policy_event; [|by constructor|].
  - intros Hon. rewrite po_attempt0 by done. cbn [last_attempt]. by destruct (ei_event e) eqn:Ee.
  - cbn [supervised]. by destruct (ei_event e) eqn:Ee.
Qed.

Lemma policy_armed o h n :
  policy o h -> 1 <= n <= vo_max_restarts o ->
  policy o (notify (mkEventInfo se_kRestartArmed 0 0 n (backoff_spec o n) 0) (set_failures n h)).
Proof. intros [] Hn. policy_event; [lia|lia|]. by constructor. Qed.

Lemma policy_supervised o h pid gen view :
  policy o h -> expected_generation (sh_baseline_generation h) gen = true ->
  policy o (emit_event se_kSupervised pid gen 0 (set_supervised gen view h)).
Proof.
  intros [] He. policy_event; [by constructor; [intros [=]|]|].
  intros Hon. destruct (po_successive0 Hon) as [H1 H2]. cbn [supervised ei_event ei_generation head default].
  split; [|done]. destruct (supervised (sh_events h)) as [|g gs]; [done|]. simpl in H2.
  split; [by rewrite <- H2|done].
Qed.

Lemma append_tail_limit tail data :
  (length tail <= kStdoutTailLimit)%nat -> (length (append_stdout_tail tail data) <= kStdoutTailLimit)%nat.
Proof.
  intros Ht. unfold append_stdout_tail. destruct (_ <=? _)%nat eqn:E.
  - apply Nat.leb_le in E. rewrite length_drop. lia.
  - apply Nat.leb_gt in E. rewrite length_app. destruct (_ <? _)%nat eqn:E2.
    + apply Nat.ltb_lt in E2. rewrite length_drop. lia.
    + apply Nat.ltb_ge in E2. lia.
Qed.

Lemma policy_drain {L} o fuel h : policy o h -> leaves (policy o) (@drain_child_stdout L fuel h).
Proof.
  assert (forall h, policy o h -> policy o (set_child_of (set_stdout (-1)) h)) as Hset.
  { intros h' Hp. by apply policy_child; [|destruct Hp]. }
  revert h. induction fuel as [|n IH]; intros h Hp; cbn [drain_child_stdout]; [by case_match|].
  destruct (_ <? 0); [done|]. apply leaves_bind_any. intros [[|x data]|e].
  - apply leaves_bind_any. intros _. by apply Hset.
  - apply IH. destruct Hp. constructor; try done. by apply append_tail_limit.
  - repeat case_match; [done|by apply IH|]. apply leaves_bind_any. intros _. by apply Hset.
Qed.

Lemma policy_reap {L} o fuel h :
  policy o h ->
  leaves (fun r => policy o r.2 /\ cp_process (sh_child r.2) = cp_process (sh_child h) /\
    forall status, r.1 = Ok (true, status) -> 0 < cp_pid (sh_child h) ->
      cp_reaped (sh_child r.2) = true /\ cp_last_exit_status (sh_child r.2) = status)
    (@reap_child L fuel h).
Proof.
  intros Hp. unfold reap_child. bdestr (cp_pid (sh_child h) <=? 0).
  { split; [done|]. split; [done|]. intros; lia. }
  destruct (cp_reaped _) eqn:Hr.
  { split; [done|]. split; [done|]. by intros st [= <-]. }
  apply leaves_bind_any. intros [[rc st]|e]; [|done]. case_match; [|done].
  apply leaves_bind_any. intros _. split; [|split; [done|by intros ? [= <-]]].
  apply policy_child; [done|]. intros Hd Hpos. destruct (po_clean _ _ Hp Hd Hpos). cbn in *. congruence.
Qed.

Lemma policy_count {L} o h :
  options_ok o -> policy o h ->
  leaves (fun r => policy o r.2 /\ sh_child r.2 = sh_child h /\
    (r.1 = true -> sh_consecutive_failures r.2 = vo_max_restarts o)) (@count_failure L h).
Proof.
  intros Ho Hp. unfold count_failure. apply leaves_bind_any. intros now.
  set (h1 := if _ : bool then _ else h). pose proof (oo_restarts _ Ho) as Hm.
  pose proof (po_options _ _ Hp) as Hho. pose proof (po_failures _ _ Hp) as Hf.
  assert (sh_options h1 = o /\ sh_child h1 = sh_child h /\
    0 <= sh_consecutive_failures h1 <= vo_max_restarts o) as (Ho1 & Hc1 & Hf1).
  { unfold h1. case_match; [|done]. split; [done|]. split; [done|]. simpl. lia. }
  rewrite Ho1. bdestr (vo_max_restarts o <=? sh_consecutive_failures h1).
  - split; [|split; [done|intros _; simpl; lia]]. unfold h1 in *. cbn [snd]. case_match; [|done].
    assert (sh_consecutive_failures h = 0) as Hz by (cbn in *; lia). destruct Hp.
    constructor; try done; cbn in *. intros Hon. by rewrite <- po_attempt0.
  - rewrite u32_small by mlia. split; [|by split]. cbn [snd].
    rewrite backoff_exact; cbn [sh_options set_failures sh_consecutive_failures]; [|by rewrite Ho1|lia].
    rewrite Ho1. apply (policy_armed o h (sh_consecutive_failures h1 + 1)) in Hp; [|lia].
    unfold h1 in *. case_match; exact Hp.
Qed.

(** ** The invariant of the loop *)

Definition outcome_ok (o : SupervisorOptions) (outcome : SupervisionOutcome) (h : SupervisorHandle)
    : Prop :=
  match outcome with
  | sv_kStopped => True
  | sv_kRestartsExhausted => sh_consecutive_failures h = vo_max_restarts o
  | sv_kCleanExit =>
      cp_reaped (sh_child h) = true /\
      (0 < cp_pid (sh_child h) -> is_clean_exit_status (cp_last_exit_status (sh_child h)) = true)
  end.

(** While the loop runs the outcome is the initial one. *)
Definition loop_policy (o : SupervisorOptions) (s : LoopState) : Prop :=
  policy o (lp_handle s) /\ outcome_ok o (lp_outcome s) (lp_handle s) /\
  (lp_phase s <> ph_kDone -> lp_outcome s = sv_kStopped).
Definition running (o : SupervisorOptions) (s : LoopState) : Prop :=
  policy o (lp_handle s) /\ lp_outcome s = sv_kStopped.

Lemma running_policy o s : running o s -> loop_policy o s.
Proof. intros [Hp Ho]. split; [done|]. by rewrite Ho. Qed.

Section Policy.
Context (o : SupervisorOptions) (Ho : options_ok o).

Lemma policy_deadline {L} timeout s (k : Z -> prog L LoopState) :
  running o s -> (forall d, leaves (running o) (k d)) -> leaves (running o) (with_deadline timeout s k).
Proof.
  intros Hs Hk. unfold with_deadline. apply leaves_bind_any. intros d. destruct (d =? 0); [|done].
  by destruct Hs.
Qed.

Lemma policy_restart {L} s : running o s -> leaves (loop_policy o) (@restart_or_give_up L s).
Proof.
  intros [Hp Hs]. unfold restart_or_give_up. eapply leaves_bind; [by apply policy_count|].
  intros [[] h] (Hp' & _ & Hx); cbn [fst snd] in *.
  - split; [done|]. split; [by apply Hx|done].
  - eapply leaves_mono; [apply running_policy|]. by apply policy_deadline.
Qed.

Lemma policy_gone h status : policy o h -> cp_reaped (sh_child h) = false ->
  policy o (set_child_of (child_gone status) h).
Proof.
  intros Hp Hr. apply policy_child; [done|]. intros Hd Hpos. destruct (po_clean _ _ Hp Hd Hpos).
  cbn in *. congruence.
Qed.

Lemma policy_unwatched {L} fuel s :
  running o s -> cp_reaped (sh_child (lp_handle s)) = false ->
  leaves (loop_policy o) (@spawn_unwatched L fuel s).
Proof.
  intros Hs Hr. unfold spawn_unwatched. apply leaves_bind_any. intros [[]|e].
  - apply leaves_bind_any. intros [st|e]; [|by apply running_policy].
    apply policy_restart. destruct Hs as [Hp Hs]. split; [by apply policy_gone|done].
  - by apply running_policy.
Qed.

Lemma policy_watched {L} pidfd s : running o s -> leaves (loop_policy o) (@spawn_watched L pidfd s).
Proof.
  intros [Hp Hs]. unfold spawn_watched. apply leaves_bind_any. intros _.
  set (s1 := with_handle _ s). assert (running o s1) as Hs1.
  { split; [|done]. by apply policy_child; [|destruct Hp]. }
  apply leaves_bind_any. intros [[]|e]; [|by apply running_policy].
  apply leaves_bind_any. intros [[]|e]; [|by apply running_policy].
  eapply leaves_mono; [apply running_policy|]. by apply policy_deadline.
Qed.

Lemma policy_spawn {L} fuel s : running o s -> leaves (loop_policy o) (@spawn_phase L fuel s).
Proof.
  intros [Hp Hs]. unfold spawn_phase.
  assert (policy o (start_attempt (lp_handle s))) as Hp1.
  { destruct Hp. constructor; try done. simpl. unfold kStdoutTailLimit. lia. }
  apply leaves_bind_any. intros [sp|e]; [|by apply policy_restart].
  apply leaves_bind_any. intros _. apply leaves_bind_any. intros now. cbv zeta.
  set (h2 := set_last_spawn now _).
  assert (policy o h2) as Hp2.
  { unfold h2. match goal with |- policy _ (set_last_spawn _ (set_child ?c ?h)) =>
      assert (policy o (set_child c h)) as [] by (by apply policy_child) end. by constructor. }
  destruct (now =? 0); [by apply running_policy|]. apply leaves_bind_any. intros start.
  set (s3 := with_handle _ (with_handle _ s)).
  assert (running o s3) as Hs3. { split; [|done]. by apply policy_child. }
  apply leaves_bind_any. intros [pidfd|e]; [by apply policy_watched|]. by apply policy_unwatched.
Qed.

Lemma policy_await fuel s : running o s -> leaves (loop_policy o) (await_ready_phase fuel s).
Proof.
  intros [Hp Hs]. unfold await_ready_phase. apply leaves_bind_any. intros view.
  eapply (leaves_bind (fun r => match r with
    | Some (_, gen) => expected_generation (sh_baseline_generation (lp_handle s)) gen = true
    | None => True end)).
  { destruct view; [|done]. apply leaves_bind_any. intros [gen|]; [|done].
    by destruct (expected_generation _ gen) eqn:E. }
  intros [[v gen]|] Hg.
  - apply running_policy. split; [|done]. by apply policy_supervised.
  - case_match; [by apply policy_restart|]. apply leaves_bind_any. intros now. apply running_policy.
    by case_match.
Qed.

Lemma policy_monitor s : running o s -> leaves (loop_policy o) (monitor_phase s).
Proof.
  intros [Hp Hs]. unfold monitor_phase. destruct (cp_reaped _) eqn:Hr.
  - destruct (cp_reap_decision _) eqn:Hd; [by apply policy_restart| |by apply policy_restart].
    split; [done|]. split; [|done]. split; [done|]. intros Hpos. by apply (po_clean _ _ Hp).
  - destruct (sh_view _); [|by apply running_policy]. do 2 (apply leaves_bind_any; intros ?).
    case_bool_decide; apply running_policy; [|done]. split; [|done].
    apply policy_notify; [by apply policy_child|done..].
Qed.

Lemma policy_signals {L} s : running o s -> leaves (running o) (@kill_signals L s).
Proof.
  intros Hr. pose proof Hr as [Hp Hs]. unfold kill_signals. destruct (_ || _); [done|].
  eapply (leaves_bind (running o)).
  - destruct (cp_kill_in_progress _); [done|].
    eapply (leaves_bind (fun r => policy o r.2)).
    { unfold arm_child_kill. case_match; [done|]. apply leaves_bind_any. intros [[]|e]; [|done].
      by apply policy_child; [|destruct Hp]. }
    intros [[[]|e] h] Hh; [|done]. by apply policy_deadline.
  - intros s' [Hp' Hs']. case_bool_decide; [done|]. case_match; [done|]. apply leaves_bind_any.
    intros now. case_match; [done|]. apply leaves_bind_any. intros [[]|e]; [|done]. split; [|done].
    by apply policy_notify.
Qed.

Lemma policy_kill {L} fuel s : running o s -> leaves (loop_policy o) (@kill_phase L fuel s).
Proof.
  intros Hr. unfold kill_phase. eapply leaves_bind; [by apply policy_signals|]. intros s' [Hp Hs].
  case_bool_decide; [by apply running_policy|]. eapply leaves_bind; [by apply policy_reap|].
  intros [[[[] st]|e] h] (Hp' & _); cbn [snd] in *; [|by apply running_policy..].
  case_match; [by apply policy_restart|]. by split.
Qed.

Lemma policy_phase fuel s : running o s -> leaves (loop_policy o) (phase_step fuel s).
Proof.
  intros Hr. unfold phase_step. destruct (lp_phase s).
  - apply leaves_bind_any. intros now. apply running_policy. by case_match; destruct Hr.
  - by apply policy_spawn.
  - by apply policy_await.
  - by apply policy_monitor.
  - by apply policy_kill.
  - by apply running_policy.
Qed.

Lemma policy_event fuel fd s : running o s -> leaves (running o) (handle_event fuel fd s).
Proof.
  intros Hr. pose proof Hr as [Hp Hs]. unfold handle_event. apply leaves_bind_any. intros evfd.
  destruct (_ || _); [by apply leaves_bind_any|]. destruct (_ && _).
  - eapply leaves_bind; [by apply policy_reap|].
    intros [[[[] st]|e] h] (Hp' & Hpr & Hst); cbn [fst snd] in *; [|done|done].
    destruct (cp_reap_decision _) eqn:Hd; [|done|done]. split; [|done]. apply policy_child; [done|].
    unfold cp_pid at 1. cbn [set_decision cp_process cp_reap_decision cp_reaped cp_last_exit_status].
    rewrite Hpr. intros Hc Hpos. destruct (Hst st eq_refl Hpos) as [-> ->].
    by destruct (is_clean_exit_status st).
  - destruct (_ && _); [|done]. eapply leaves_bind; [by apply policy_drain|]. by split.
Qed.

Lemma policy_events fuel fds s : running o s -> leaves (running o) (handle_events fuel fds s).
Proof.
  revert s. induction fds as [|fd fds IH]; intros s Hr; [done|]. cbn [handle_events].
  eapply leaves_bind; [by apply policy_event|]. intros s' Hr'. case_match; [done|]. by apply IH.
Qed.

Lemma policy_round fuel s : running o s -> leaves (loop_policy o) (supervise_round fuel s).
Proof.
  intros Hr. unfold supervise_round. apply leaves_bind_any. intros stop.
  eapply leaves_bind; [apply policy_phase; by case_match|]. intros s' (Hp & Ho' & Hs).
  case_bool_decide; [done|]. specialize (Hs H). eapply leaves_mono; [apply running_policy|].
  unfold wait_events. apply leaves_bind_any. intros slice. apply leaves_bind_any. intros [fds|e].
  - by apply policy_events.
  - by case_match.
Qed.

End Policy.

(** ** The number of the child *)

(** The child that is waited for or watched has a number when it was reaped; and so has
    the one that has ended a run cleanly. *)
Definition reaped_number (s : LoopState) : Prop :=
  lp_phase s = ph_kAwaitReady \/ lp_phase s = ph_kMonitor ->
  cp_reaped (sh_child (lp_handle s)) = true -> 0 < cp_pid (sh_child (lp_handle s)).
Definition clean_number (s : LoopState) : Prop :=
  lp_outcome s = sv_kCleanExit -> 0 < cp_pid (sh_child (lp_handle s)).
Definition numbered (s : LoopState) : Prop := reaped_number s /\ clean_number s.

Lemma clean_stopped s : lp_outcome s = sv_kStopped -> clean_number s.
Proof. unfold clean_number. by intros ->. Qed.

(** In the other phases only the outcome counts. *)
Lemma numbered_out s :
  lp_phase s <> ph_kAwaitReady -> lp_phase s <> ph_kMonitor -> clean_number s -> numbered s.
Proof. intros H1 H2 Hc. split; [|done]. by intros [?|?]. Qed.

Lemma numbered_deadline {L} timeout s (k : Z -> prog L LoopState) :
  clean_number s -> (forall d, leaves numbered (k d)) -> leaves numbered (with_deadline timeout s k).
Proof.
  intros Hs Hk. unfold with_deadline. apply leaves_bind_any. intros d. destruct (d =? 0); [|done].
  by apply numbered_out.
Qed.

Lemma numbered_restart {L} s : lp_outcome s = sv_kStopped -> leaves numbered (@restart_or_give_up L s).
Proof.
  intros Hs. unfold restart_or_give_up. apply leaves_bind_any. intros [[] h].
  - by apply numbered_out.
  - apply numbered_deadline; [by apply clean_stopped|]. intros d. by apply numbered_out; [..|apply clean_stopped].
Qed.

(** A failure keeps the outcome. *)
Lemma numbered_fail s e : lp_outcome s = sv_kStopped -> numbered (loop_fail e s).
Proof. intros Hs. by apply numbered_out; [..|apply clean_stopped]. Qed.

Lemma numbered_spawn {L} fuel s : lp_outcome s = sv_kStopped -> leaves numbered (@spawn_phase L fuel s).
Proof.
  intros Hs. unfold spawn_phase. apply leaves_bind_any. intros [sp|e]; [|by apply numbered_restart].
  do 2 (apply leaves_bind_any; intros ?). cbv zeta. destruct (_ =? 0); [by apply numbered_fail|].
  apply leaves_bind_any. intros start. apply leaves_bind_any. intros [pidfd|e0].
  - unfold spawn_watched. apply leaves_bind_any. intros _.
    apply leaves_bind_any. intros [[]|e]; [|by apply numbered_fail].
    apply leaves_bind_any. intros [[]|e]; [|by apply numbered_fail].
    apply numbered_deadline; [|intros d; split; [done|]]; by apply clean_stopped.
  - unfold spawn_unwatched. apply leaves_bind_any. intros [[]|e]; [|by apply numbered_fail].
    apply leaves_bind_any. intros [st|e]; [by apply numbered_restart|by apply numbered_fail].
Qed.

Lemma numbered_await fuel s :
  reaped_number s -> lp_phase s = ph_kAwaitReady -> lp_outcome s = sv_kStopped ->
  leaves numbered (await_ready_phase fuel s).
Proof.
  intros Hr Hph Hs. unfold await_ready_phase. apply leaves_bind_any. intros view.
  apply leaves_bind_any. intros [[v gen]|].
  - split; [|by apply clean_stopped]. intros _. apply Hr. by left.
  - case_match; [by apply numbered_restart|]. apply leaves_bind_any. intros now. cbn [leaves].
    case_match; [by apply numbered_out; [..|apply clean_stopped]|].
    split; [exact Hr|]. by apply clean_stopped.
Qed.

Lemma numbered_monitor s :
  reaped_number s -> lp_phase s = ph_kMonitor -> lp_outcome s = sv_kStopped ->
  leaves numbered (monitor_phase s).
Proof.
  intros Hr Hph Hs. assert (numbered s) as Hn by (split; [done|by apply clean_stopped]).
  unfold monitor_phase. destruct (cp_reaped _) eqn:E.
  - destruct (cp_reap_decision _); [by apply numbered_restart| |by apply numbered_restart].
    apply numbered_out; [done..|]. intros _. apply Hr; [by right|done].
  - destruct (sh_view _); [|done]. do 2 (apply leaves_bind_any; intros ?). case_bool_decide; [|done].
    by apply numbered_out; [..|apply clean_stopped].
Qed.

(** Nothing but the handle and the deadlines changes until the loop has failed. *)
Lemma numbered_kill {L} fuel s :
  lp_phase s = ph_kKill -> lp_outcome s = sv_kStopped -> leaves numbered (@kill_phase L fuel s).
Proof.
  intros Hph Hs. unfold kill_phase.
  eapply (leaves_bind (fun s' => lp_outcome s' = sv_kStopped /\
    (lp_phase s' = ph_kKill \/ lp_phase s' = ph_kDone))).
  - unfold kill_signals. destruct (_ || _); [by split; [|left]|].
    eapply (leaves_bind (fun s' => lp_outcome s' = sv_kStopped /\
      (lp_phase s' = ph_kKill \/ lp_phase s' = ph_kDone))).
    + case_match; [by split; [|left]|]. apply leaves_bind_any. intros [[[]|e] h]; [|by split; [|right]].
      unfold with_deadline. apply leaves_bind_any. intros d.
      destruct (d =? 0); (split; [done|]); [by right|by left].
    + intros s' [Ho' Hp']. case_bool_decide; [done|]. case_match; [done|]. apply leaves_bind_any.
      intros now. case_match; [done|]. apply leaves_bind_any. intros [[]|e]; [done|by split; [|right]].
  - intros s' [Ho' Hp']. assert (numbered s') as Hn'.
    { apply numbered_out; [by destruct Hp' as [-> | ->]..|by apply clean_stopped]. }
    case_bool_decide; [done|]. destruct Hp' as [Hp'|Hp']; [|done].
    apply leaves_bind_any. intros [[[[] st]|e] h].
    + case_match; [by apply numbered_restart|]. apply numbered_out; [done..|]. done.
    + apply numbered_out; cbn; [by rewrite Hp'..|by apply clean_stopped].
    + by apply numbered_fail.
Qed.

Lemma numbered_phase fuel s :
  reaped_number s -> lp_outcome s = sv_kStopped -> leaves numbered (phase_step fuel s).
Proof.
  intros Hr Hs. unfold phase_step. destruct (lp_phase s) eqn:Hph.
  - apply leaves_bind_any. intros now. cbn [leaves].
    case_match; (apply numbered_out; cbn; [by rewrite ?Hph..|by apply clean_stopped]).
  - by apply numbered_spawn.
  - by apply numbered_await.
  - by apply numbered_monitor.
  - by apply numbered_kill.
  - apply numbered_out; [by rewrite Hph..|by apply clean_stopped].
Qed.

(** A child is reaped only when it has a number. *)
Lemma reap_number {L} fuel h :
  leaves (fun r => cp_process (sh_child r.2) = cp_process (sh_child h) /\
    (cp_reaped (sh_child r.2) = true -> cp_reaped (sh_child h) = true \/ 0 < cp_pid (sh_child h)))
    (@reap_child L fuel h).
Proof.
  unfold reap_child. bdestr (cp_pid (sh_child h) <=? 0); [by split; [|left]|].
  destruct (cp_reaped (sh_child h)) eqn:Hr; [by split; [|left]|].
  apply leaves_bind_any. intros [[rc st]|e]; [|by cbn; rewrite Hr]. case_match; [|by cbn; rewrite Hr].
  apply leaves_bind_any. intros _. split; [done|]. intros _. right. lia.
Qed.

Lemma drain_number {L} fuel h :
  leaves (fun h' => cp_pid (sh_child h') = cp_pid (sh_child h) /\
    cp_reaped (sh_child h') = cp_reaped (sh_child h)) (@drain_child_stdout L fuel h).
Proof.
  revert h. induction fuel as [|n IH]; intros h; cbn [drain_child_stdout]; [by case_match|].
  destruct (_ <? 0); [done|]. apply leaves_bind_any. intros [[|x data]|e].
  - by apply leaves_bind_any.
  - eapply leaves_mono; [|apply IH]. done.
  - repeat case_match; [done|apply IH|]. by apply leaves_bind_any.
Qed.

Lemma numbered_event fuel fd s : numbered s -> leaves numbered (handle_event fuel fd s).
Proof.
  intros Hn. pose proof Hn as [Hr Hc]. unfold handle_event. apply leaves_bind_any. intros evfd.
  destruct (_ || _); [by apply leaves_bind_any; intros _; apply numbered_out|]. destruct (_ && _).
  - eapply leaves_bind; [apply reap_number|]. intros [[[[] st]|e] h] [Hp Hr']; cbn [fst snd] in *.
    + assert (numbered (with_handle h s)) as Hn'.
      { unfold numbered, reaped_number, clean_number, cp_pid in *. cbn. rewrite Hp. split; [|done].
        intros Hph Hh. destruct (Hr' Hh) as [H|H]; [by apply Hr|done]. }
      by destruct (cp_reap_decision _).
    + unfold numbered, reaped_number, clean_number, cp_pid in *. cbn. rewrite Hp. split; [|done].
      intros Hph Hh. destruct (Hr' Hh) as [H|H]; [by apply Hr|done].
    + apply numbered_out; [done..|]. unfold clean_number, cp_pid in *. cbn. by rewrite Hp.
  - destruct (_ && _); [|done]. eapply leaves_bind; [apply drain_number|]. intros h [Hp Hr'].
    unfold numbered, reaped_number, clean_number. cbn. by rewrite Hp, Hr'.
Qed.

Lemma numbered_round fuel s :
  reaped_number s -> lp_outcome s = sv_kStopped -> leaves numbered (supervise_round fuel s).
Proof.
  intros Hr Hs. unfold supervise_round. apply leaves_bind_any. intros stop.
  eapply leaves_bind; [apply numbered_phase; destruct (negb _); [by intros [[=]|[=]]|done..]|].
  intros s' Hn. case_bool_decide; [done|]. unfold wait_events. apply leaves_bind_any. intros slice.
  apply leaves_bind_any. intros [fds|e].
  - clear H. revert s' Hn. induction fds as [|fd fds IH]; intros s' Hn; [done|]. cbn [handle_events].
    eapply leaves_bind; [by apply numbered_event|]. intros s2 Hn2. case_match; [done|]. by apply IH.
  - case_match; [done|]. by apply numbered_out; [..|apply Hn].
Qed.

Lemma numbered_loop o rounds fuel s :
  options_ok o -> loop_policy o s -> numbered s ->
  leaves (fun r => match r with Some s' => loop_policy o s' /\ clean_number s' | None => True end)
    (supervise_loop rounds fuel s).
Proof.
  intros Ho. revert s. induction rounds as [|n IH]; intros s Hl Hn; cbn [supervise_loop];
    (case_bool_decide; [by split; [|apply Hn]|]); [done|].
  destruct Hl as (Hp & _ & Hs). specialize (Hs H).
  eapply leaves_bind; [apply leaves_and; [by apply (policy_round o Ho)|by apply numbered_round; [apply Hn|]]|].
  intros s' [Hl' Hn']. by apply IH.
Qed.

(** ** The run *)

Lemma policy_fds o h epfd sfd : policy o h -> policy o (set_fds epfd sfd h).
Proof. by intros []; constructor. Qed.

Lemma policy_close o h evfd : policy o h -> leaves (policy o) (close_run h evfd).
Proof. intros Hp. unfold close_run. repeat (apply leaves_bind_any; intros _). by apply policy_fds. Qed.

Lemma policy_open o h : policy o h -> leaves (fun r => policy o r.2) (open_run h).
Proof.
  intros Hp. unfold open_run.
  repeat first
    [ match goal with |- leaves _ (Ret _) => idtac end; cbn [leaves snd]; by auto using policy_fds
    | eapply leaves_bind; [apply (policy_close o); by auto using policy_fds|intros h' Hl; exact Hl]
    | apply leaves_bind_any; intros ?
    | case_match ].
Qed.

Lemma policy_leftover {L} o fuel s :
  policy o (lp_handle s) -> outcome_ok o (lp_outcome s) (lp_handle s) ->
  leaves (fun s' => policy o (lp_handle s') /\ lp_outcome s' = lp_outcome s /\
    outcome_ok o (lp_outcome s) (lp_handle s')) (@reap_leftover L fuel s).
Proof.
  intros Hp Hs. unfold reap_leftover. cbv zeta. destruct (_ || _) eqn:E; [done|].
  apply orb_false_iff in E as [_ Hr].
  apply leaves_bind_any. intros [[]|e]; [|by destruct (lp_error s)].
  apply leaves_bind_any. intros [st|e]; [|by destruct (lp_error s)].
  split; [by apply policy_gone|]. split; [done|].
  destruct (lp_outcome s); [|done|done]. destruct Hs. congruence.
Qed.

Lemma clean_leftover {L} fuel s : clean_number s -> leaves clean_number (@reap_leftover L fuel s).
Proof.
  intros Hn. unfold reap_leftover. cbv zeta. case_match; [done|].
  apply leaves_bind_any. intros [[]|e]; [|by destruct (lp_error s)].
  apply leaves_bind_any. intros [st|e]; [done|by destruct (lp_error s)].
Qed.

Lemma drain_outcome {L} o fuel outcome h :
  outcome_ok o outcome h -> leaves (outcome_ok o outcome) (@drain_child_stdout L fuel h).
Proof.
  assert (forall h, outcome_ok o outcome h -> outcome_ok o outcome (set_child_of (set_stdout (-1)) h))
    as Hset by by destruct outcome.
  revert h. induction fuel as [|n IH]; intros h Hp; cbn [drain_child_stdout]; [by case_match|].
  destruct (_ <? 0); [done|]. apply leaves_bind_any. intros [[|x data]|e].
  - apply leaves_bind_any. intros _. by apply Hset.
  - apply IH. by destruct outcome.
  - repeat case_match; [done|by apply IH|]. apply leaves_bind_any. intros _. by apply Hset.
Qed.

(** What the result of a run means. *)
Definition result_ok (o : SupervisorOptions) (r : SupervisionResult) (h : SupervisorHandle) : Prop :=
  match sr_outcome r with
  | sv_kStopped => True
  | sv_kRestartsExhausted =>
      sh_consecutive_failures h = vo_max_restarts o /\
      (vo_on_event o = true -> last_attempt (sh_events h) = vo_max_restarts o)
  | sv_kCleanExit => is_clean_exit_status (sr_last_child_exit_status r) = true
  end /\
  (vo_on_event o = true -> sr_last_generation r = default 0 (head (supervised (sh_events h)))) /\
  sr_restarts r = Z.max 0 (sr_spawn_attempts r - 1) /\
  (length (sr_stdout_tail r) <= kStdoutTailLimit)%nat.

Lemma result_of_ok o s :
  policy o (lp_handle s) -> outcome_ok o (lp_outcome s) (lp_handle s) -> clean_number s ->
  result_ok o (result_of s) (lp_handle s).
Proof.
  intros Hp Hs Hn. split; [|split; [|split]].
  - cbn [result_of sr_outcome sr_last_child_pid sr_last_child_exit_status].
    destruct (lp_outcome s) eqn:Hout; [|done|].
    + destruct Hs as [-> Hs]. by apply Hs, Hn.
    + split; [exact Hs|]. intros Hon. by rewrite <- (po_attempt _ _ Hp Hon).
  - intros Hon. by apply (po_successive _ _ Hp).
  - simpl. bdestr (0 <? sh_spawn_attempts (lp_handle s)); lia.
  - by destruct Hp.
Qed.

Lemma policy_end o fuel evfd s :
  policy o (lp_handle s) -> outcome_ok o (lp_outcome s) (lp_handle s) -> clean_number s ->
  leaves (fun r => policy o r.2 /\ match r.1 with Ok res => result_ok o res r.2 | Err _ => True end)
    (end_run fuel evfd s).
Proof.
  intros Hp Hs Hn. unfold end_run.
  eapply leaves_bind; [apply leaves_and; [by apply policy_leftover|by apply clean_leftover]|].
  intros s1 [(Hp1 & He & Hs1) Hn1]. rewrite <- He in Hs1.
  eapply leaves_bind; [apply leaves_and; [apply leaves_and; [by apply policy_drain|by apply drain_outcome]|
    apply drain_number]|].
  intros h [[Hp2 Hs2] [Hpid _]].
  assert (clean_number (with_handle h s1)) as Hn2 by (unfold clean_number; cbn; by rewrite Hpid). do 4 (apply leaves_bind_any; intros _). apply leaves_bind_any. intros restored.
  apply leaves_bind_any. intros _. pose proof (policy_fds o h (-1) (-1) Hp2) as Hp3.
  pose proof (result_of_ok o (with_handle h s1) Hp2 Hs2 Hn2) as Hr.
  destruct (lp_error _); [done|]. by destruct restored.
Qed.

Lemma policy_run o rounds fuel h :
  options_ok o -> policy o h ->
  leaves (fun r => match r with
    | Some (res, h') => policy o h' /\ match res with Ok r => result_ok o r h' | Err _ => True end
    | None => True end) (supervisor_run rounds fuel h).
Proof.
  intros Ho Hp. unfold supervisor_run. apply leaves_bind_any. intros []; [|done]. cbn [negb].
  eapply leaves_bind; [by apply (policy_open o)|]. intros [[evfd|e] h1] Hp1; [|done]. cbn [snd] in Hp1.
  eapply leaves_bind; [apply (numbered_loop o); [done|by apply running_policy|by apply numbered_out]|].
  intros [s|] Hs; [|done]. destruct Hs as [(Hp2 & Hs & _) Hn].
  eapply leaves_bind; [by apply (policy_end o)|]. by intros [res h2].
Qed.

Lemma policy_new o id h : options_ok o -> supervisor_create_impl id o = Ok h -> policy o h.
Proof.
  intros [_ _ Hm]. unfold supervisor_create_impl. repeat (case_match; try done). intros [= <-].
  constructor; try done; simpl; [lia|unfold kStdoutTailLimit; lia].
Qed.

(** ** The claims *)

(** C22. The restart delay is what its options describe: for every number of failures in
    a row, the loop that multiplies and caps with a division, in 64-bit arithmetic,
    returns the initial delay times the multiplier to the power of the failures before,
    capped by the maximal delay, without wrapping around. *)
Theorem backoff_delay_exact id o h failures :
  supervisor_create_impl id o = Ok h ->
  vo_multiplier o <= UINT32_MAX -> 0 <= vo_max_restarts o <= UINT32_MAX -> 1 <= failures ->
  backoff_delay_ns (set_failures failures h) =
    Z.min (vo_max_delay o * 1000000)
      (vo_initial_delay o * 1000000 * vo_multiplier o ^ (failures - 1)).
Proof.
  intros Hc Hm Hr Hf. assert (options_ok o) as Ho by (split; eauto).
  pose proof (po_options _ _ (policy_new _ _ _ Ho Hc)) as Hh.
  rewrite backoff_exact; cbn [set_failures sh_options sh_consecutive_failures]; by rewrite ?Hh.
Qed.

Lemma backoff_delay_exact_witness :
  map (fun n => backoff_delay_ns (set_failures n (new_supervisor 0 demo_options))) [1; 2; 3; 4; 5; 6] =
  map (Z.mul 1000000) [100; 200; 400; 800; 1000; 1000].
Proof.
  cbn [map]. rewrite !(backoff_delay_exact 0 demo_options (new_supervisor 0 demo_options));
    vm_compute; try reflexivity; try (split; discriminate); discriminate.
Defined.

(** C40. What a supervisor keeps to in every run, with or without a callback and whatever
    the kernel, the channel and the child do. The failures in a row that it counts never
    exceed the restarts allowed, and it returns kRestartsExhausted only when they have
    reached them; it returns kCleanExit only with the exit status of a clean exit; the
    restarts it returns are one less than the starts; the output it keeps is at most four
    kilobytes. With a callback: every restart it announces has a number between one and
    the restarts allowed, and the delay of that number; every generation it announces is
    the one after the generation it announced before; the generation it returns is the
    last announced; and before kRestartsExhausted the last restart announced had the last
    number allowed. *)
Theorem supervisor_policy id o h :
  supervisor_create_impl id o = Ok h ->
  vo_multiplier o <= UINT32_MAX -> 0 <= vo_max_restarts o <= UINT32_MAX ->
  policy o h /\
  forall h1 rounds fuel, policy o h1 ->
    leaves (fun r => match r with
      | Some (res, h2) => policy o h2 /\ match res with Ok r => result_ok o r h2 | Err _ => True end
      | None => True end) (supervisor_run rounds fuel h1).
Proof.
  intros Hc Hm Hr. assert (options_ok o) as Ho by (split; eauto). split.
  - by eapply policy_new.
  - intros h1 rounds fuel. by apply policy_run.
Qed.

Lemma supervisor_policy_witness :
  supervisor_create_impl 0 demo_options = Ok (new_supervisor 0 demo_options) /\
  leaves (fun r => match r with
    | Some (res, h2) =>
        policy demo_options h2 /\ match res with Ok r => result_ok demo_options r h2 | Err _ => True end
    | None => True end) (supervisor_run 1000 16 (new_supervisor 0 demo_options)).
Proof.
  split; [vm_compute; reflexivity|].
  destruct (supervisor_policy 0 demo_options (new_supervisor 0 demo_options)) as [Hp Hr];
    [vm_compute; reflexivity|vm_compute; discriminate|vm_compute; split; discriminate|].
  apply Hr, Hp.
Defined.
