(* ===== verification/SupervisorExhaustion.v ===== *)
(** A supervisor that never gives up: once a child has lived for the stable window,
    starts that fail are not counted, because the time of the last start is only noted
    for starts that succeed. *)
From S2P Require Import Prelude Errors CheckedMath Prog ProcIdentity ShmObject Clock ChannelLayout.
From S2P Require Import ChannelSegment ChannelAbi FdBroker Observer ProcessSpawn Supervisor.

(** A machine on which the program of the producer starts once, runs for a moment and
    fails, and cannot be started again, as when its file was removed. *)
Module Removed.

(** The time in nanoseconds, the number of starts tried, and whether the child is
    there. *)
Record machine : Type := mkMachine { mc_time : Z; mc_starts : Z; mc_child : bool }.

Definition child_pid : Z := 100.
Definition child_fd : Z := 8.
Definition failure_status : Z := 256.

Definition os : os_model machine := fun X c o =>
  match c in sys Y return Y * machine with
  | sys_clock_gettime _ => (SysOk (mc_time o / 1000000000, mc_time o mod 1000000000), o)
  | sys_epoll_create => (SysOk 3, o)
  | sys_eventfd => (SysOk 4, o)
  | sys_signalfd => (SysOk 5, o)
  | sys_epoll_add _ _ | sys_sigmask_block | sys_sigmask_restore | sys_spawn_setup _ => (SysOk tt, o)
  | sys_pipe2 => (SysOk (6, 7), o)
  | sys_posix_spawn _ _ _ _ =>
      let first := mc_starts o =? 0 in
      (if first then SysOk child_pid else SysErr ENOENT,
       mkMachine (mc_time o) (mc_starts o + 1) first)
  | sys_pidfd_open _ => (SysOk child_fd, o)
  | sys_fcntl _ _ _ => (SysOk 0, o)
  | sys_shm_open _ _ => (SysErr ENOENT, o)
  | sys_epoll_wait _ _ ms =>
      (SysOk (if mc_child o then [child_fd] else []),
       mkMachine (mc_time o + ms * 1000000) (mc_starts o) (mc_child o))
  | sys_waitpid pid _ => (SysOk (pid, failure_status), mkMachine (mc_time o) (mc_starts o) false)
  | c => (sys_default c, o)
  end.

(** Three restarts are allowed; a child that lived for 50 ms was stable. *)
Definition options : SupervisorOptions :=
  mkSupervisorOptions "cam0" tr_kPosixShm ["/usr/bin/camera"] 100 1000 2 3 50 100 200 500 false.
Definition fuel : nat := 8.
Definition start : world chloc machine := mkWorld (fun _ => 0) (mkMachine 1000000000 0 false).


(** ** Runs of the parts *)

Definition mem_ok (w : world chloc machine) : Prop := w_mem w (SHnd 0 sl_stop_requested) = 0.

(** The clock reads the time. *)
Lemma run_now (w : world chloc machine) :
  0 < mc_time (w_os w) <= UINT64_MAX -> run os monotonic_now_ns w = (mc_time (w_os w), w).
Proof.
  intros Ht. destruct w as [m [t n c]]. cbn [w_os mc_time] in *.
  unfold monotonic_now_ns, clock_ns_or_zero. cbn. unfold set_os. cbn.
  pose proof (Z.div_mod t 1000000000). pose proof (Z.mod_pos_bound t 1000000000).
  assert (0 <= t / 1000000000 <= UINT64_MAX / 1000000000) by (split; [apply Z.div_pos|apply Z.div_le_mono]; lia).
  rewrite (u64_small (t / _)) by (unfold UINT64_MAX in *; mlia).
  rewrite (u64_small (t mod _)) by mlia. bdestr (UINT64_MAX / 1000000000 <? t / 1000000000); [lia|].
  rewrite u64_small by mlia. f_equal. lia.
Qed.

(** No start succeeds after the first. *)
Definition started (w : world chloc machine) : world chloc machine :=
  mkWorld (w_mem w) (mkMachine (mc_time (w_os w)) (mc_starts (w_os w) + 1) false).

Lemma run_spawn (w : world chloc machine) :
  0 < mc_starts (w_os w) -> exists e, run os (spawn_process ["/usr/bin/camera"]) w = (Err e, started w).
Proof.
  intros Hn. destruct w as [m [t n c]]. cbn [w_os mc_starts] in Hn. eexists.
  cbn. unfold set_os. cbn. bdestr (n =? 0); [lia|]. cbn. reflexivity.
Qed.

(** ** The rounds after the first child *)

Definition first_start : Z := 1000000000.
Definition last_moment : Z := UINT64_MAX - 10000000000.

Record stuck (s : LoopState) (w : world chloc machine) : Prop := {
  st_options : sh_options (lp_handle s) = options;
  st_id : sh_id (lp_handle s) = 0%nat;
  st_last : sh_last_spawn_mono_ns (lp_handle s) = first_start;
  st_time : first_start + 50000000 <= mc_time (w_os w) <= last_moment;
  st_starts : 0 < mc_starts (w_os w);
  st_child : mc_child (w_os w) = false;
  st_stop : w_mem w (SHnd 0 sl_stop_requested) = 0
}.

Definition wait_for (ms : Z) (w : world chloc machine) : world chloc machine :=
  mkWorld (w_mem w) (mkMachine (mc_time (w_os w) + ms * 1000000) (mc_starts (w_os w)) (mc_child (w_os w))).

(** The counter starts again at every failure. *)
Lemma run_restart s w :
  stuck s w ->
  exists h, run os (restart_or_give_up s) w =
    (go ph_kBackoff (set_backoff_deadline (mc_time (w_os w) + 100000000) (with_handle h s)), w) /\
    sh_options h = options /\ sh_id h = 0%nat /\ sh_last_spawn_mono_ns h = first_start.
Proof.
  intros []. unfold last_moment, first_start in *.
  unfold restart_or_give_up, count_failure. rewrite !run_bind, run_now by lia.
  rewrite st_options0, st_last0.
  change (ms_to_ns (vo_stable_reset_window options)) with 50000000.
  bdestr (mc_time (w_os w) =? 0); [lia|]. bdestr (1000000000 <=? mc_time (w_os w)); [|lia].
  bdestr (50000000 <=? mc_time (w_os w) - 1000000000); [|lia]. cbn [negb andb Z.eqb].
  cbn [sh_options set_failures sh_consecutive_failures]. rewrite st_options0.
  cbn [vo_max_restarts options Z.leb Z.compare]. cbn [run].
  set (h := notify _ _). exists h. split; [|done].
  unfold enter_backoff, with_deadline, monotonic_deadline_ns. rewrite !run_bind, run_now by lia.
  assert (backoff_delay_ns h = 100000000) as Hb.
  { unfold backoff_delay_ns, h. cbn [notify sh_options set_failures sh_consecutive_failures].
    rewrite st_options0. reflexivity. }
  cbn [lp_handle with_handle]. rewrite Hb. cbn [run].
  bdestr (mc_time (w_os w) =? 0); [lia|]. rewrite (u64_small (UINT64_MAX - _)) by mlia.
  bdestr (UINT64_MAX - 100000000 <? mc_time (w_os w)); [lia|].
  rewrite u64_small by mlia. bdestr (mc_time (w_os w) + 100000000 =? 0); [lia|]. done.
Qed.

Lemma run_epoll epfd ms s w :
  mc_child (w_os w) = false ->
  run os (let! n := syscall (sys_epoll_wait epfd kEpollMaxEvents ms) in
          match n with
          | SysErr e =>
              if e =? EINTR then Ret s
              else Ret (loop_fail (make_errno_error e "ProducerSupervisor::epoll_wait" strerror_text) s)
          | SysOk fds => handle_events fuel fds s
          end)%prog w = (s, wait_for ms w).
Proof. destruct w as [m [t n c]]. cbn [w_os mc_child]. intros ->. reflexivity. Qed.

Lemma run_wait_backoff s w :
  stuck s w -> lp_phase s = ph_kBackoff -> lp_backoff_deadline s = mc_time (w_os w) + 100000000 ->
  run os (wait_events fuel s) w = (s, wait_for 100 w).
Proof.
  intros [] Hp Hd. unfold last_moment, first_start in *. unfold wait_events, wait_slice. rewrite Hp, !run_bind, run_now, Hd by lia.
  bdestr (mc_time (w_os w) <? mc_time (w_os w) + 100000000); [|lia]. cbn [run].
  replace (mc_time (w_os w) + 100000000 - mc_time (w_os w)) with 100000000 by lia.
  by rewrite run_epoll.
Qed.

Lemma run_wait_spawn s w :
  stuck s w -> lp_phase s = ph_kSpawn -> run os (wait_events fuel s) w = (s, wait_for 200 w).
Proof.
  intros [] Hp. unfold wait_events, wait_slice. rewrite Hp, st_options0. cbn [bind]. by rewrite run_epoll.
Qed.

Lemma run_stop_flag s w :
  stuck s w ->
  run os (supervise_round fuel s) w =
    run os (let! s := phase_step fuel s in
            if bool_decide (lp_phase s = ph_kDone) then Ret s else wait_events fuel s)%prog w.
Proof.
  intros []. unfold supervise_round. rewrite run_bind. cbn. rewrite st_id0, st_stop0. done.
Qed.

(** A start fails. *)
Lemma round_spawn s w :
  stuck s w -> lp_phase s = ph_kSpawn -> mc_time (w_os w) + 300000000 <= last_moment ->
  exists s' w', run os (supervise_round fuel s) w = (s', w') /\ stuck s' w' /\
    lp_phase s' = ph_kBackoff /\ lp_backoff_deadline s' = mc_time (w_os w') /\
    mc_starts (w_os w') = mc_starts (w_os w) + 1 /\ mc_time (w_os w') = mc_time (w_os w) + 100000000.
Proof.
  intros Hs Hp Hb. rewrite run_stop_flag, run_bind by done. unfold phase_step. rewrite Hp.
  unfold spawn_phase. rewrite run_bind. cbn [sh_options start_attempt]. rewrite (st_options _ _ Hs).
  destruct (run_spawn w (st_starts _ _ Hs)) as [e He]. cbn [vo_producer_argv options]. rewrite He.
  set (s1 := with_handle _ s). assert (stuck s1 (started w)) as Hs1.
  { destruct Hs. split; try done. simpl. lia. }
  destruct (run_restart _ _ Hs1) as (h & Hr & H1 & H2 & H3). rewrite Hr.
  case_bool_decide; [done|].
  rewrite run_wait_backoff; [|by destruct Hs1; split|done|done].
  eexists _, _. split; [reflexivity|]. split; [|done].
  destruct Hs1. split; try done. cbn [w_os mc_time wait_for started] in *. lia.
Qed.

(** The backoff is over. *)
Lemma round_backoff s w :
  stuck s w -> lp_phase s = ph_kBackoff -> lp_backoff_deadline s = mc_time (w_os w) ->
  mc_time (w_os w) + 200000000 <= last_moment ->
  exists s' w', run os (supervise_round fuel s) w = (s', w') /\ stuck s' w' /\
    lp_phase s' = ph_kSpawn /\
    mc_starts (w_os w') = mc_starts (w_os w) /\ mc_time (w_os w') = mc_time (w_os w) + 200000000.
Proof.
  intros Hs Hp Hd Hb. rewrite run_stop_flag, run_bind by done. unfold phase_step. rewrite Hp.
  unfold backoff_phase. rewrite run_bind, run_now, Hd by (destruct Hs; unfold first_start, last_moment in *; lia).
  rewrite Z.leb_refl. cbn [run]. case_bool_decide; [done|].
  rewrite run_wait_spawn; [|by destruct Hs; split|done].
  eexists _, _. split; [reflexivity|]. split; [|done].
  destruct Hs. split; try done. cbn [w_os mc_time wait_for started] in *. lia.
Qed.

(** [n] more starts, none of them the last. *)
Lemma loop_stuck n rest s w :
  stuck s w -> lp_phase s = ph_kSpawn -> mc_time (w_os w) + 300000000 * Z.of_nat n <= last_moment ->
  exists s' w', run os (supervise_loop (2 * n + rest) fuel s) w = run os (supervise_loop rest fuel s') w' /\
    stuck s' w' /\ lp_phase s' = ph_kSpawn /\ mc_starts (w_os w') = mc_starts (w_os w) + Z.of_nat n.
Proof.
  revert s w. induction n as [|n IH]; intros s w Hs Hp Hb; [exists s, w; split; [done|]; split; [done|]; split; [done|lia]|].
  destruct (round_spawn s w Hs Hp) as (s1 & w1 & Hr1 & Hs1 & Hp1 & Hd1 & Hn1 & Ht1); [lia|].
  destruct (round_backoff s1 w1 Hs1 Hp1 Hd1) as (s2 & w2 & Hr2 & Hs2 & Hp2 & Hn2 & Ht2); [lia|].
  destruct (IH s2 w2 Hs2 Hp2) as (s3 & w3 & Hr3 & Hs3 & Hp3 & Hn3); [lia|].
  exists s3, w3. split; [|split; [done|]; split; [done|lia]]. rewrite <- Hr3.
  replace (2 * S n + rest)%nat with (S (S (2 * n + rest))) by lia. cbn [supervise_loop].
  rewrite bool_decide_eq_false_2 by by rewrite Hp. rewrite run_bind, Hr1.
  rewrite bool_decide_eq_false_2 by by rewrite Hp1. by rewrite run_bind, Hr2.
Qed.

(** ** The whole run *)

Definition supervisor : SupervisorHandle := new_supervisor 0 options.

(** The state after [n] rounds of the loop that has not ended. *)
Fixpoint rounds (n : nat) (sw : LoopState * world chloc machine) : LoopState * world chloc machine :=
  match n with O => sw | S n' => rounds n' (run os (supervise_round fuel sw.1) sw.2) end.

Definition opened : world chloc machine :=
  mkWorld (upd (SHnd 0 sl_stop_evfd) 4 (upd (SHnd 0 sl_running) 1 (fun _ => 0))) (w_os start).
Definition first_failure : LoopState * world chloc machine :=
  rounds 3 (initial_loop (set_fds 3 5 supervisor), opened).

Lemma first_failure_stuck : stuck first_failure.1 first_failure.2 /\ lp_phase first_failure.1 = ph_kSpawn.
Proof. split; [split|]; vm_compute; try reflexivity. split; discriminate. Qed.

Lemma loop_first rest :
  run os (supervise_loop (3 + rest) fuel (initial_loop (set_fds 3 5 supervisor))) opened =
  run os (supervise_loop rest fuel first_failure.1) first_failure.2.
Proof.
  unfold first_failure. cbn [rounds fst snd Nat.add supervise_loop].
  rewrite bool_decide_eq_false_2 by done. rewrite run_bind.
  destruct (run os (supervise_round fuel (initial_loop _)) opened) as [s1 w1] eqn:E1. cbn [fst snd].
  rewrite bool_decide_eq_false_2.
  2: { change s1 with (s1, w1).1. rewrite <- E1. vm_compute. done. }
  rewrite run_bind. destruct (run os (supervise_round fuel s1) w1) as [s2 w2] eqn:E2. cbn [fst snd].
  rewrite bool_decide_eq_false_2.
  2: { change s2 with (s2, w2).1. rewrite <- E2. change s1 with (s1, w1).1. change w1 with (s1, w1).2 at 2.
       rewrite <- E1. vm_compute. done. }
  rewrite run_bind. by destruct (run os (supervise_round fuel s2) w2).
Qed.

Lemma run_opened n :
  run os (supervisor_run n fuel supervisor) start =
  let '(ended, w) := run os (supervise_loop n fuel (initial_loop (set_fds 3 5 supervisor))) opened in
  run os (match ended with
          | None => Ret None
          | Some s => let! r := end_run fuel 4 s in Ret (Some r)
          end)%prog w.
Proof. unfold supervisor_run. rewrite run_bind. cbn -[supervise_loop]. by rewrite run_bind. Qed.
End Removed.

(** C24. A supervisor that allows three restarts may restart forever. On a machine where
    no start ever succeeds it gives up after three, as it should; but when one child
    was started and lived for the stable window, and no start succeeds afterwards, it
    has made [n] more starts after [2n + 3] rounds of its loop and has not returned,
    for every [n] up to ten billion, a hundred years of its clock. The counter of
    failures is reset at each of them, since the time of the last start is that of the
    last start that succeeded. *)
Theorem failed_starts_never_exhaust (n : nat) :
  Z.of_nat n <= 10000000000 ->
  (exists r h, (run Removed.os (supervisor_run 20 Removed.fuel Removed.supervisor)
      (mkWorld (fun _ => 0) (Removed.mkMachine 1000000000 1 false))).1 = Some (Ok r, h) /\
    sr_outcome r = sv_kRestartsExhausted /\ sr_restarts r = vo_max_restarts Removed.options) /\
  let r := run Removed.os (supervisor_run (3 + 2 * n) Removed.fuel Removed.supervisor) Removed.start in
  r.1 = None /\ Removed.mc_starts (w_os r.2) = 1 + Z.of_nat n.
Proof.
  intros Hn. split; [eexists _, _; split; [vm_compute; reflexivity|by split]|].
  cbv zeta. rewrite Removed.run_opened, Removed.loop_first.
  destruct Removed.first_failure_stuck as [Hs Hp].
  destruct (Removed.loop_stuck n 0 _ _ Hs Hp) as (s & w & Hr & Hs' & Hp' & Hst).
  { assert (Removed.mc_time (w_os Removed.first_failure.2) = 1400000000) as -> by reflexivity.
    unfold Removed.last_moment, UINT64_MAX. lia. }
  rewrite Nat.add_0_r in Hr. rewrite Hr. cbn [supervise_loop].
  rewrite bool_decide_eq_false_2 by by rewrite Hp'. split; [done|]. exact Hst.
Qed.

Lemma failed_starts_never_exhaust_witness :
  Removed.mc_starts (w_os (run Removed.os (supervisor_run (3 + 2 * 5000) Removed.fuel Removed.supervisor)
    Removed.start).2) = 5001.
Proof. apply (failed_starts_never_exhaust 5000). lia. Defined.
