(* ===== verification/ProcTheorems.v ===== *)
(** The properties of process identities and of shared-memory object names.

    What the kernel answers is a parameter of the theorems: [kernel] and [names]
    describe the processes and the names it knows, and the hypotheses say how the
    documented system calls answer about them. *)
From stdpp Require Import pretty.
From S2P Require Import Prelude Errors Prog ProcIdentity ShmObject ChannelLayout.

(** * The start time of a process *)

Lemma c_string_id s : Forall (fun b => b <> 0) s -> c_string s = s.
Proof.
  induction 1 as [|b s Hb _ IH]; cbn [c_string]; [done|]. bdestr (b =? 0); [done|]. by rewrite IH.
Qed.

Lemma strrchr_None c s : Forall (fun b => b <> c) s -> strrchr c s = None.
Proof.
  induction 1 as [|b s Hb _ IH]; cbn [strrchr]; [done|]. rewrite IH. by bdestr (b =? c).
Qed.

Lemma strrchr_last c pre s : Forall (fun b => b <> c) s -> strrchr c (pre ++ c :: s) = Some (c :: s).
Proof.
  intros Hs. induction pre as [|b pre IH]; cbn [app strrchr].
  - rewrite strrchr_None by done. by rewrite Z.eqb_refl.
  - by rewrite IH.
Qed.

Lemma strchr_first c f s : Forall (fun b => b <> c) f -> strchr c (f ++ c :: s) = Some (c :: s).
Proof.
  induction 1 as [|b f Hb _ IH]; cbn [app strchr]; [by rewrite Z.eqb_refl|].
  bdestr (b =? c); [done|]. exact IH.
Qed.

(** Fields, each followed by a space. *)
Definition spaced (fields : list (list Z)) : list Z := concat (map (fun f => f ++ [32]) fields).

Lemma skip_fields_spaced fields s :
  Forall (Forall (fun b => b <> 32)) fields ->
  skip_fields (length fields) (spaced fields ++ s) = Some s.
Proof.
  induction 1 as [|f fields Hf _ IH]; [done|]. unfold spaced. cbn [map concat length skip_fields].
  rewrite <- !app_assoc. cbn [app]. rewrite strchr_first by done. exact IH.
Qed.

Lemma span_digits_app ds b s :
  Forall (fun d => is_digit d = true) ds -> is_digit b = false ->
  span_digits (ds ++ b :: s) = (ds, b :: s).
Proof.
  intros Hds Hb. induction Hds as [|d ds Hd _ IH]; cbn [app span_digits]; [by rewrite Hb|].
  by rewrite Hd, IH.
Qed.

(** The text of [/proc/<pid>/stat]: [pre] up to the command name, the name, 19
    fields, the start time, the rest. *)
Definition stat_line (pre comm : list Z) (fields : list (list Z)) (start : list Z) (sep : Z)
    (rest : list Z) : list Z :=
  pre ++ [40] ++ comm ++ [41; 32] ++ spaced fields ++ start ++ sep :: rest.

(** What may follow the command name: no NUL, no closing parenthesis. *)
Definition plain_byte (b : Z) : Prop := b <> 0 /\ b <> 41.

Lemma spaced_plain fields : Forall (Forall plain_byte) fields -> Forall plain_byte (spaced fields).
Proof.
  intros H. unfold spaced. apply Forall_concat, Forall_map. eapply Forall_impl; [exact H|].
  intros f Hf. apply Forall_app. split; [done|]. repeat constructor; done.
Qed.

(** C26: the start time is read correctly whatever the process is called. For
    every command name of arbitrary bytes other than NUL - spaces, parentheses and
    text that looks like further fields included - the parser returns the number
    in field 22, whenever it fits in 64 bits and is not 0. *)
Theorem stat_starttime_robust pre comm fields start sep rest :
  Forall (fun b => b <> 0) pre -> Forall (fun b => b <> 0) comm ->
  length fields = 19%nat -> Forall (Forall (fun b => plain_byte b /\ b <> 32)) fields ->
  start <> [] -> Forall (fun d => is_digit d = true) start ->
  0 < dec_value start <= UINT64_MAX -> sep = 32 \/ sep = 10 -> Forall plain_byte rest ->
  parse_stat_starttime (stat_line pre comm fields start sep rest) = Ok (dec_value start).
Proof.
  intros Hpre Hcomm Hlen Hf Hne Hd Hv Hsep Hrest. unfold parse_stat_starttime, stat_line.
  set (tl := 32 :: spaced fields ++ start ++ sep :: rest).
  assert (Forall plain_byte tl) as Htl.
  { constructor; [done|]. rewrite !Forall_app. split; [|split].
    - apply spaced_plain. eapply Forall_impl; [exact Hf|]. intros f Hf'.
      eapply Forall_impl; [exact Hf'|]. tauto.
    - eapply Forall_impl; [exact Hd|]. intros d. unfold is_digit, plain_byte.
      rewrite andb_true_iff, !Z.leb_le. lia.
    - constructor; [|done]. destruct Hsep as [->| ->]; done. }
  replace (pre ++ [40] ++ comm ++ [41; 32] ++ spaced fields ++ start ++ sep :: rest)
    with ((pre ++ 40 :: comm) ++ 41 :: tl) by (unfold tl; by rewrite <- !app_assoc).
  rewrite c_string_id.
  2:{ rewrite !Forall_app. split; [split; [done|by constructor]|]. constructor; [done|].
      eapply Forall_impl; [exact Htl|]. by intros b []. }
  rewrite strrchr_last by (eapply Forall_impl; [exact Htl|]; by intros b []).
  cbn [tail tl]. rewrite Z.eqb_refl. rewrite <- Hlen, skip_fields_spaced.
  2:{ eapply Forall_impl; [exact Hf|]. intros f Hf'. eapply Forall_impl; [exact Hf'|]. tauto. }
  rewrite span_digits_app; [|done|destruct Hsep as [->| ->]; done].
  destruct start as [|d0 start]; [done|].
  bdestr (UINT64_MAX <? dec_value (d0 :: start)); [lia|].
  bdestr (dec_value (d0 :: start) =? 0); [lia|]. cbn [orb].
  destruct Hsep as [->| ->]; done.
Qed.

Module StatDemo.
(** The command name is [) S 1 (]. *)
Definition comm : list Z := string_codes ") S 1 (".
Definition fields : list (list Z) := string_codes "S" :: replicate 18 (string_codes "1").
End StatDemo.

Lemma stat_starttime_robust_witness :
  parse_stat_starttime
    (stat_line (string_codes "42 ") StatDemo.comm StatDemo.fields (string_codes "4711") 32
       (string_codes "0 0")) = Ok 4711.
Proof.
  apply (stat_starttime_robust (string_codes "42 ") StatDemo.comm StatDemo.fields
           (string_codes "4711") 32 (string_codes "0 0")); try (by left); try done.
  all: unfold plain_byte; apply (bool_decide_unpack _); by vm_compute.
Defined.

(** * Liveness *)

(** What the kernel knows of a process: whether it has exited without being
    reaped, and its [stat] text. *)
Record process : Type := mkProcess { pr_exited : bool; pr_stat : list Z }.

(** The answers of a kernel with the process table [procs], as the manual pages of
    pidfd_open(2), poll(2) and proc(5) describe them. [pidfd] and [statfd] are the
    descriptors it hands out. *)
Record kernel_answers {OS} (os : os_model OS) (procs : Z -> option process)
    (pidfd statfd : Z -> Z) : Prop := {
  ka_pidfd : forall p o, (os _ (sys_pidfd_open p) o).1 =
    match procs p with Some _ => SysOk (pidfd p) | None => SysErr ESRCH end;
  ka_poll : forall p pr o, procs p = Some pr ->
    (os _ (sys_poll (pidfd p) POLLIN 0) o).1 =
    SysOk (if pr_exited pr then (1, POLLIN) else (0, 0));
  ka_open : forall p pr o, procs p = Some pr ->
    (os _ (sys_open (proc_stat_path p)) o).1 = SysOk (statfd p);
  ka_read : forall p pr o, procs p = Some pr ->
    (os _ (sys_read (statfd p) 4095) o).1 = SysOk (pr_stat pr)
}.

(** The verdict the process table calls for. *)
Definition liveness_of (procs : Z -> option process) (p expected : Z) : Liveness :=
  match procs p with
  | None => kExited
  | Some pr =>
      if pr_exited pr then kExited
      else match parse_stat_starttime (pr_stat pr) with
           | Ok ticks => if ticks =? expected then kAlive else kPidReused
           | Err _ => kUnverifiable
           end
  end.

Lemma pretty_length_N k x s :
  (x < 10 ^ N.of_nat k)%N ->
  (String.length (pretty_N_go x s) <= k + String.length s)%nat.
Proof.
  revert x s. induction k as [|k IH]; intros x s Hx.
  - replace x with 0%N by (simpl in Hx; lia). by rewrite pretty_N_go_0.
  - destruct (decide (x = 0%N)) as [->|Hx0]; [rewrite pretty_N_go_0; lia|].
    rewrite pretty_N_go_step by lia.
    etrans; [apply IH|simpl; lia].
    apply N.Div0.div_lt_upper_bound. by rewrite Nat2N.inj_succ, N.pow_succ_r' in Hx.
Qed.

Lemma string_app_length (a b : string) :
  String.length (a +:+ b) = (String.length a + String.length b)%nat.
Proof. induction a as [|x a IH]; simpl; [done|]. by rewrite <- IH. Qed.

Lemma proc_stat_path_short p :
  0 < p <= INT32_MAX -> (64 <=? Z.of_nat (String.length (proc_stat_path p))) = false.
Proof.
  intros Hp. apply Z.leb_gt. unfold proc_stat_path. rewrite !string_app_length.
  assert (String.length (pretty p) <= 10)%nat; [|simpl; lia].
  destruct p as [|p|p]; try lia.
  change (pretty (Z.pos p)) with (pretty_N_go (N.pos p) "").
  etrans; [apply (pretty_length_N 10)|simpl; lia]. unfold INT32_MAX in Hp. simpl. lia.
Qed.

(** A call that is not interrupted is made once. *)
Lemma run_retry_eintr {L OS X} `{EqDecision L} (os : os_model OS) n (c : sys (sysres X)) last
    (w : world L OS) :
  (forall e, (os _ c (w_os w)).1 = SysErr e -> e <> EINTR) ->
  run os (retry_eintr (S n) c last) w = run os (syscall c) w.
Proof.
  intros Hc. cbn -[Z.eqb]. destruct (os _ c (w_os w)) as [[x|e] o'] eqn:E; cbn -[Z.eqb]; [done|].
  specialize (Hc e). cbn in Hc. by bdestr (e =? EINTR); [destruct (Hc eq_refl)|].
Qed.

Section Liveness.
Context {L OS : Type} `{EqDecision L} (os : os_model OS).
Context (procs : Z -> option process) (pidfd statfd : Z -> Z).
Hypothesis Hk : kernel_answers os procs pidfd statfd.

(** A call with a known successful answer. *)
Lemma run_retry_ok {X A} n (c : sys (sysres X)) last x (k : sysres X -> prog L A) (w : world L OS) :
  (forall o, (os _ c o).1 = SysOk x) ->
  exists o', run os (bind (retry_eintr (S n) c last) k) w
             = run os (k (SysOk x)) (mkWorld (w_mem w) o').
Proof.
  intros Hc. exists (os _ c (w_os w)).2. rewrite run_bind, run_retry_eintr.
  - cbn. by rewrite Hc.
  - intros e He. rewrite Hc in He. discriminate.
Qed.

(** [answered x]: the next repeated call answers [x]. *)
#[local] Ltac answered x :=
  match goal with
  | |- context [run os (bind (retry_eintr (S ?n) ?c ?last) ?k) ?w] =>
      let E := fresh in
      destruct (run_retry_ok n c last x k w) as [? E]; [|rewrite E; clear E]
  end.

Lemma run_proc_stat p pr (w : world L OS) :
  0 < p <= INT32_MAX -> procs p = Some pr ->
  exists r o', run os (proc_stat_starttime p) w = (r, mkWorld (w_mem w) o') /\
    match parse_stat_starttime (pr_stat pr) with
    | Ok ticks => r = Ok ticks
    | Err _ => exists e, r = Err e
    end.
Proof.
  intros Hp Hpr. unfold proc_stat_starttime. rewrite proc_stat_path_short by done.
  unfold kMaxInterruptedAttempts. answered (statfd p); [intros o; by eapply ka_open|].
  answered (pr_stat pr); [intros o; by eapply ka_read|].
  cbn -[parse_stat_starttime]. destruct (os unit (sys_close _) _) as [[] o3].
  destruct (pr_stat pr) as [|b buf]; cbn -[parse_stat_starttime].
  - eexists _, _. split; [done|]. simpl. eauto.
  - eexists _, _. split; [done|]. destruct (parse_stat_starttime (b :: buf)); eauto.
Qed.

Lemma run_probe_liveness p expected (w : world L OS) :
  0 < p <= INT32_MAX -> expected <> 0 ->
  exists o', run os (probe_liveness p expected) w
             = (liveness_of procs p expected, mkWorld (w_mem w) o').
Proof.
  intros Hp He. unfold probe_liveness, liveness_of.
  replace (_ || _ || _) with false by (symmetry; rewrite !orb_false_iff, !Z.eqb_neq, Z.ltb_ge; lia).
  cbn -[retry_eintr Z.eqb proc_stat_starttime parse_stat_starttime Z.land Z.ltb].
  pose proof (ka_pidfd _ _ _ _ Hk p (w_os w)) as Hfd.
  destruct (os _ (sys_pidfd_open p) (w_os w)) as [r1 o1]. cbn [fst snd] in *. subst r1.
  destruct (procs p) as [pr|] eqn:Hpr; [|by exists o1].
  unfold kMaxInterruptedAttempts.
  answered (if pr_exited pr then (1, POLLIN) else (0, 0)); [intros o; by eapply ka_poll|].
  cbn -[Z.eqb proc_stat_starttime parse_stat_starttime Z.land Z.ltb].
  destruct (os unit (sys_close _) _) as [[] o3].
  destruct (pr_exited pr); [by eexists|]. cbn -[Z.eqb proc_stat_starttime parse_stat_starttime].
  destruct (run_proc_stat p pr (mkWorld (w_mem w) o3) Hp Hpr) as (r & o4 & E4 & Hr).
  rewrite run_bind, E4. destruct (parse_stat_starttime (pr_stat pr)) as [ticks|e].
  - subst r. by exists o4.
  - destruct Hr as [e' ->]. by exists o4.
Qed.
End Liveness.

(** C27: the liveness verdict is the right one. On a kernel with a given process
    table, [probe_liveness] answers that the process with this pid and start time
    is alive exactly when the table has it running with that start time; a process
    that exited, was reaped, or whose pid now belongs to a process with another
    start time is never taken for alive; and the segment is not touched. *)
Theorem probe_liveness_verdict {L OS} `{EqDecision L} (os : os_model OS) procs pidfd statfd
    p expected (w : world L OS) :
  kernel_answers os procs pidfd statfd -> 0 < p <= INT32_MAX -> expected <> 0 ->
  (run os (probe_liveness p expected) w).1 = liveness_of procs p expected /\
  w_mem (run os (probe_liveness p expected) w).2 = w_mem w.
Proof.
  intros Hk Hp He. destruct (run_probe_liveness os procs pidfd statfd Hk p expected w Hp He)
    as [o' ->]. done.
Qed.

(** A kernel with one process, 42, started at 4711. *)
Module LivenessDemo.
Definition stat_text : list Z :=
  string_codes "42 (p) S 1 1 1 1 1 1 1 1 1 1 1 1 1 1 1 1 1 1 4711 0".
Definition procs (p : Z) : option process :=
  if p =? 42 then Some (mkProcess false stat_text) else None.
Definition os : os_model unit := fun X c _ =>
  (match c in sys Y return Y with
   | sys_pidfd_open p => if p =? 42 then SysOk 5 else SysErr ESRCH
   | sys_poll _ _ _ => SysOk (0, 0)
   | sys_open _ => SysOk 6
   | sys_read _ _ => SysOk stat_text
   | c => sys_default c
   end, tt).
Lemma demo_kernel : kernel_answers os procs (fun _ => 5) (fun _ => 6).
Proof.
  split; unfold procs; intros p; cbn -[Z.eqb stat_text]; [by destruct (p =? 42)|..];
    intros pr o; by destruct (p =? 42); intros [= <-].
Qed.
End LivenessDemo.

Lemma probe_liveness_verdict_witness :
  (run LivenessDemo.os (probe_liveness 42 4712) (mkWorld (fun _ : Z => 0) tt)).1 = kPidReused /\
  w_mem (run LivenessDemo.os (probe_liveness 42 4712) (mkWorld (fun _ : Z => 0) tt)).2
    = fun _ => 0.
Proof.
  apply (probe_liveness_verdict LivenessDemo.os LivenessDemo.procs (fun _ => 5) (fun _ => 6)
           42 4712 (mkWorld (fun _ : Z => 0) tt) LivenessDemo.demo_kernel);
    [unfold INT32_MAX; lia|lia].
Defined.

(** * Removing a name *)

(** What shm_open(3), fstat(2), statx(2) and shm_unlink(3) promise about
    shared-memory names, where [names o n] is the device and inode that [n] names
    and [opened o fd] the one behind a descriptor. Every call may fail with any
    [errno], objects may have any mode and owner, and after an unlink another
    process may already have put a new object under the name; its inode differs,
    the old one being kept by the open descriptor. What is assumed is that no other
    process changes the names between the opening and the unlink. *)
Record names_kernel {OS} (os : os_model OS) (names : OS -> string -> option (Z * Z))
    (opened : OS -> Z -> option (Z * Z)) : Prop := {
  nk_open : forall n o, (forall n', names (os _ (sys_shm_open n false) o).2 n' = names o n') /\
    match (os _ (sys_shm_open n false) o).1 with
    | SysOk fd => exists id, names o n = Some id /\
        opened (os _ (sys_shm_open n false) o).2 fd = Some id
    | SysErr e => e = ENOENT -> names o n = None
    end;
  nk_fstat : forall fd o,
    (forall n', names (os _ (sys_fstat fd) o).2 n' = names o n') /\
    (forall fd', opened (os _ (sys_fstat fd) o).2 fd' = opened o fd') /\
    forall st, (os _ (sys_fstat fd) o).1 = SysOk st ->
      forall id, opened o fd = Some id -> id = (st_dev st, st_ino st);
  nk_statx : forall fd o,
    (forall n', names (os _ (sys_statx fd) o).2 n' = names o n') /\
    (forall fd', opened (os _ (sys_statx fd) o).2 fd' = opened o fd') /\
    forall st, (os _ (sys_statx fd) o).1 = SysOk st ->
      forall id, opened o fd = Some id ->
        id = (makedev (stx_dev_major st) (stx_dev_minor st), stx_ino st);
  nk_euid : forall o, (forall n', names (os _ sys_geteuid o).2 n' = names o n') /\
    forall fd', opened (os _ sys_geteuid o).2 fd' = opened o fd';
  nk_unlink : forall n o,
    (forall n', n' <> n -> names (os _ (sys_shm_unlink n) o).2 n' = names o n') /\
    match (os _ (sys_shm_unlink n) o).1 with
    | SysOk _ => names (os _ (sys_shm_unlink n) o).2 n = None \/
                 names (os _ (sys_shm_unlink n) o).2 n <> names o n
    | SysErr _ => names (os _ (sys_shm_unlink n) o).2 n = names o n
    end;
  nk_close : forall fd o n', names (os _ (sys_close fd) o).2 n' = names o n'
}.

(** The same kernel where nothing goes wrong: every call succeeds and the objects
    are of mode 0600 and of the user. *)
Record names_answer {OS} (os : os_model OS) (names : OS -> string -> option (Z * Z))
    (opened : OS -> Z -> option (Z * Z)) (uid : Z) : Prop := {
  na_open : forall n o, (forall n', names (os _ (sys_shm_open n false) o).2 n' = names o n') /\
    match names o n with
    | Some id => exists fd, (os _ (sys_shm_open n false) o).1 = SysOk fd /\
        opened (os _ (sys_shm_open n false) o).2 fd = Some id
    | None => (os _ (sys_shm_open n false) o).1 = SysErr ENOENT
    end;
  na_fstat : forall fd dev ino o, opened o fd = Some (dev, ino) ->
    (forall n', names (os _ (sys_fstat fd) o).2 n' = names o n') /\
    exists size nlink, (os _ (sys_fstat fd) o).1
                 = SysOk (mkStat (S_IFREG + kExpectedShmMode) uid dev ino size nlink);
  na_euid : forall o, (forall n', names (os _ sys_geteuid o).2 n' = names o n') /\
    (os _ sys_geteuid o).1 = uid;
  na_unlink : forall n id o, names o n = Some id ->
    (os _ (sys_shm_unlink n) o).1 = SysOk tt /\
    forall n', names (os _ (sys_shm_unlink n) o).2 n'
               = if decide (n' = n) then None else names o n'
}.

Section Unlink.
Context {L OS : Type} `{EqDecision L} (os : os_model OS).
Context (names : OS -> string -> option (Z * Z)) (opened : OS -> Z -> option (Z * Z)) (uid : Z).
Hypothesis Hn : names_answer os names opened uid.

Lemma run_fstat_capture fd dev ino (w : world L OS) :
  opened (w_os w) fd = Some (dev, ino) ->
  exists size o', run os (shm_fstat_and_capture fd) w = (Ok (dev, ino, size), mkWorld (w_mem w) o') /\
    (forall n', names o' n' = names (w_os w) n') /\
    exists st, (os _ (sys_fstat fd) (w_os w)).1 = SysOk st /\ st_size st = size.
Proof.
  intros Hfd. unfold shm_fstat_and_capture, bounded_fstat, kMaxInterruptedAttempts.
  rewrite run_bind.
  destruct (na_fstat _ _ _ _ Hn fd dev ino (w_os w) Hfd) as [Hsame (size & nlink & Hst)].
  rewrite run_retry_eintr by (intros e He; rewrite Hst in He; discriminate).
  cbn -[Z.land S_ISREG]. rewrite Hst. cbn -[Z.land S_ISREG].
  set (o1 := snd (os _ (sys_fstat fd) (w_os w))) in *.
  destruct (na_euid _ _ _ _ Hn o1) as [Hsame2 Heuid].
  change (S_ISREG _) with true. cbn -[Z.land Z.eqb]. fold o1. rewrite Heuid.
  rewrite Z.eqb_refl. cbn -[Z.land Z.eqb]. change (Z.land (S_IFREG + kExpectedShmMode) 511) with kExpectedShmMode.
  rewrite Z.eqb_refl. cbn.
  eexists _, _. split; [done|]. split; [intros n'; by rewrite Hsame2, Hsame|]. by eexists.
Qed.

(** The outcome of the checked unlink, by what the name names. *)
Definition unlink_outcome (n : string) (id : Z * Z) (o : OS) (r : Result unit) (o' : OS) : Prop :=
  match names o n with
  | None => result_code r = Some kNotFound /\ forall n', names o' n' = names o n'
  | Some id' =>
      if decide (id' = id) then
        r = Ok tt /\ forall n', names o' n' = if decide (n' = n) then None else names o n'
      else result_code r = Some kNameRaceDetected /\ forall n', names o' n' = names o n'
  end.

Lemma run_unlink_checked n dev ino (w : world L OS) :
  exists r o', run os (shm_unlink_checked n dev ino) w = (r, mkWorld (w_mem w) o') /\
    unlink_outcome n (dev, ino) (w_os w) r o'.
Proof.
  unfold shm_unlink_checked, shm_open_existing.
  cbn -[unlink_outcome shm_fstat_and_capture shm_capture_created_identity Z.eqb].
  destruct (na_open _ _ _ _ Hn n (w_os w)) as [Hs1 Hopen].
  destruct (names (w_os w) n) as [[dev' ino']|] eqn:Hname.
  2:{ rewrite Hopen. cbn -[unlink_outcome]. eexists _, _. split; [done|].
      unfold unlink_outcome. by rewrite Hname. }
  destruct Hopen as (fd & Hfd & Hobj). rewrite Hfd.
  cbn -[unlink_outcome shm_fstat_and_capture shm_capture_created_identity Z.eqb].
  set (o1 := snd (os _ (sys_shm_open n false) (w_os w))) in *. rewrite run_bind.
  destruct (run_fstat_capture fd dev' ino' (mkWorld (w_mem w) o1)) as (size & o2 & E & Hs2 & _); [done|].
  rewrite E. cbn -[unlink_outcome Z.eqb]. simpl in Hs2.
  assert (forall n', names o2 n' = names (w_os w) n') as Hs2' by (intros; by rewrite Hs2, Hs1).
  bdestr (dev' =? dev); cbn -[unlink_outcome Z.eqb];
    [|eexists _, _; split; [done|]; unfold unlink_outcome; rewrite Hname;
      by rewrite decide_False by congruence].
  bdestr (ino' =? ino); cbn -[unlink_outcome Z.eqb];
    [|eexists _, _; split; [done|]; unfold unlink_outcome; rewrite Hname;
      by rewrite decide_False by congruence].
  destruct (na_unlink _ _ _ _ Hn n (dev', ino') o2) as [Hun Hs3]; [by rewrite Hs2'|].
  rewrite Hun. cbn -[unlink_outcome Z.eqb]. set (o3 := snd (os _ (sys_shm_unlink n) o2)) in *.
  destruct (na_open _ _ _ _ Hn n o3) as [Hs4 Hprobe]. rewrite Hs3, decide_True in Hprobe by done.
  rewrite Hprobe. cbn -[unlink_outcome]. eexists _, _. split; [done|].
  unfold unlink_outcome. rewrite Hname, decide_True by congruence. split; [done|].
  intros n'. rewrite Hs4, Hs3. rewrite Hs2'. by case_decide.
Qed.
End Unlink.

(** * Removing a name when calls fail *)

Section UnlinkAny.
Context {L OS : Type} `{EqDecision L} (os : os_model OS).
Context (names : OS -> string -> option (Z * Z)) (opened : OS -> Z -> option (Z * Z)).
Hypothesis Hn : names_kernel os names opened.

(** Names and descriptors are what they were. *)
Definition same_names (o o' : OS) : Prop :=
  (forall n, names o' n = names o n) /\ forall fd, opened o' fd = opened o fd.

Lemma same_names_trans o1 o2 o3 : same_names o1 o2 -> same_names o2 o3 -> same_names o1 o3.
Proof. intros [H1 H2] [H3 H4]. split; intros ?; [by rewrite H3|by rewrite H4]. Qed.

(** A repeated call that changes no name, and what its answer says of [fd]. *)
Lemma run_retry_same {X} (c : sys (sysres X)) (says : X -> (Z * Z) -> Prop) fd :
  (forall o, same_names o (os _ c o).2 /\
     forall x, (os _ c o).1 = SysOk x -> forall id, opened o fd = Some id -> says x id) ->
  forall n e (w : world L OS), exists r o',
    run os (retry_eintr n c (SysErr e)) w = (r, mkWorld (w_mem w) o') /\
    same_names (w_os w) o' /\
    forall x, r = SysOk x -> forall id, opened (w_os w) fd = Some id -> says x id.
Proof.
  intros Hc n. induction n as [|n IH]; intros e w.
  - exists (SysErr e), (w_os w). by destruct w.
  - cbn -[Z.eqb]. destruct (Hc (w_os w)) as [Hs Hx].
    destruct (os _ c (w_os w)) as [[x|e'] o'] eqn:E; cbn -[Z.eqb] in *.
    + eexists _, _. split; [done|]. split; [done|]. intros ? [= <-]. by apply Hx.
    + destruct (e' =? EINTR); [|by eexists _, _].
      destruct (IH e' (mkWorld (w_mem w) o')) as (r & o'' & E' & Hs' & Hx').
      eexists _, _. split; [exact E'|]. split; [by eapply same_names_trans|].
      intros x Hr id Hid. apply (Hx' x Hr id). cbn. by rewrite (proj2 Hs).
Qed.

(** Both ways of taking an identity keep the names, and the identity they find is
    the one behind the descriptor. *)
Lemma run_fstat_any fd (w : world L OS) : exists r o',
  run os (shm_fstat_and_capture fd) w = (r, mkWorld (w_mem w) o') /\ same_names (w_os w) o' /\
  forall dev ino size id, r = Ok (dev, ino, size) -> opened (w_os w) fd = Some id ->
    id = (dev, ino).
Proof.
  unfold shm_fstat_and_capture, bounded_fstat. rewrite run_bind.
  destruct (run_retry_same (sys_fstat fd) (fun st id => id = (st_dev st, st_ino st)) fd)
    with (n := kMaxInterruptedAttempts) (e := 0) (w := w) as (r & o' & E & Hs & Hx).
  { intros o. destruct (nk_fstat _ _ _ Hn fd o) as (H1 & H2 & H3). done. }
  rewrite E. cbn beta iota. destruct r as [st|e]; [|by eexists _, _].
  destruct (S_ISREG (st_mode st)); [|by eexists _, _].
  cbn -[Z.eqb Z.land]. destruct (nk_euid _ _ _ Hn o') as [H1 H2].
  destruct (os _ sys_geteuid o') as [euid o2]. cbn -[Z.eqb Z.land] in *.
  assert (same_names (w_os w) o2) by (by eapply same_names_trans).
  destruct (st_uid st =? euid); [|by eexists _, _].
  destruct (Z.land _ _ =? _); [|by eexists _, _].
  eexists _, _. split; [done|]. split; [done|]. intros ???? [= <- <- <-]. by apply Hx.
Qed.

Lemma run_capture_any fd (w : world L OS) : exists r o',
  run os (shm_capture_created_identity fd) w = (r, mkWorld (w_mem w) o') /\
  same_names (w_os w) o' /\
  (forall e, r = Err e -> err_code e = kRecoveryBlocked) /\
  forall dev ino id, r = Ok (dev, ino) -> opened (w_os w) fd = Some id -> id = (dev, ino).
Proof.
  unfold shm_capture_created_identity. rewrite run_bind.
  destruct (run_retry_same (sys_statx fd)
      (fun st id => id = (makedev (stx_dev_major st) (stx_dev_minor st), stx_ino st)) fd)
    with (n := kMaxInterruptedAttempts) (e := 0) (w := w) as (r & o' & E & Hs & Hx).
  { intros o. destruct (nk_statx _ _ _ Hn fd o) as (H1 & H2 & H3). done. }
  rewrite E. cbn beta iota. destruct r as [st|e].
  2:{ eexists _, _. split; [done|]. split; [done|]. split; [|done]. by intros ? [= <-]. }
  destruct (_ || _).
  { eexists _, _. split; [done|]. split; [done|]. split; [|done]. by intros ? [= <-]. }
  cbn -[Z.eqb Z.land makedev]. destruct (nk_euid _ _ _ Hn o') as [H1 H2].
  destruct (os _ sys_geteuid o') as [euid o2]. cbn -[Z.eqb Z.land makedev] in *.
  assert (same_names (w_os w) o2) by (by eapply same_names_trans).
  destruct (_ || _).
  { eexists _, _. split; [done|]. split; [done|]. split; [|done]. by intros ? [= <-]. }
  eexists _, _. split; [done|]. split; [done|]. split; [done|]. intros ??? [= <- <-]. by apply Hx.
Qed.

(** The identity the unlink compares. *)
Lemma run_identity_any fd (w : world L OS) : exists r o',
  run os (let! fst_ := shm_fstat_and_capture fd in
          match fst_ with
          | Ok (dev, ino, _) => Ret (Ok (dev, ino))
          | Err _ => shm_capture_created_identity fd
          end) w = (r, mkWorld (w_mem w) o') /\
  same_names (w_os w) o' /\
  (forall e, r = Err e -> err_code e = kRecoveryBlocked) /\
  forall dev ino id, r = Ok (dev, ino) -> opened (w_os w) fd = Some id -> id = (dev, ino).
Proof.
  rewrite run_bind. destruct (run_fstat_any fd w) as (r & o' & E & Hs & Hid). rewrite E.
  cbn beta iota. destruct r as [[[dev ino] size]|e].
  - eexists _, _. split; [done|]. split; [done|]. split; [done|].
    intros ??? [= <- <-]. by eapply Hid.
  - destruct (run_capture_any fd (mkWorld (w_mem w) o')) as (r & o2 & E2 & Hs2 & He & Hid2).
    eexists _, _. split; [exact E2|]. split; [by eapply same_names_trans|]. split; [done|].
    intros dev ino id Hr Ho. apply (Hid2 dev ino id Hr). cbn. by rewrite (proj2 Hs).
Qed.

(** Why the checked unlink leaves the name alone. *)
Definition unlink_refusal (n : string) (id : Z * Z) (o : OS) (e : Error) : Prop :=
  (exists x, e = make_errno_error x "shm_open_existing" strerror_text /\
             (x = ENOENT -> names o n = None)) \/
  (err_code e = kRecoveryBlocked /\ names o n <> None) \/
  (err_code e = kNameRaceDetected /\ exists id', names o n = Some id' /\ id' <> id) \/
  (exists x, e = make_errno_error x "shm_unlink_checked" strerror_text /\ names o n = Some id).

(** What it reports when the name was removed and the look afterwards did not find
    it free. *)
Definition unlink_trouble (n : string) (o' : OS) (e : Error) : Prop :=
  (err_code e = kNameRaceDetected /\ names o' n <> None) \/
  exists x, x <> ENOENT /\ e = make_errno_error x "shm_unlink_checked" strerror_text.

(** The outcomes of the checked unlink when calls may fail. *)
Definition unlink_any (n : string) (id : Z * Z) (o : OS) (r : Result unit) (o' : OS) : Prop :=
  (forall n', n' <> n -> names o' n' = names o n') /\
  match r with
  | Ok _ => names o n = Some id /\ names o' n = None
  | Err e =>
      (names o' n = names o n /\ unlink_refusal n id o e) \/
      (names o n = Some id /\ names o' n <> Some id /\ unlink_trouble n o' e)
  end.

(** The part of the unlink after the identity was compared. *)
Definition unlink_named (posix_name : string) : prog L (Result unit) :=
  let! un := syscall (sys_shm_unlink posix_name) in
  match un with
  | SysErr e => Ret (Err (make_errno_error e "shm_unlink_checked" strerror_text))
  | SysOk _ =>
      let! probe := syscall (sys_shm_open posix_name false) in
      match probe with
      | SysOk fd =>
          do! syscall (sys_close fd);
          fail kNameRaceDetected "shm_unlink_checked" "new object appeared after unlink"
      | SysErr e =>
          if negb (e =? ENOENT) then
            Ret (Err (make_errno_error e "shm_unlink_checked" strerror_text))
          else Ret (Ok tt)
      end
  end.

Lemma run_unlink_named n id (w : world L OS) :
  names (w_os w) n = Some id ->
  exists r o', run os (unlink_named n) w = (r, mkWorld (w_mem w) o') /\
    unlink_any n id (w_os w) r o'.
Proof.
  intros Hid. unfold unlink_named, unlink_any. cbn -[Z.eqb].
  destruct (nk_unlink _ _ _ Hn n (w_os w)) as [Hoth Hun].
  destruct (os _ (sys_shm_unlink n) (w_os w)) as [[[]|e] o1]; cbn -[Z.eqb] in *.
  2:{ eexists _, _. split; [done|]. split; [done|]. left. split; [done|].
      right; right; right. by exists e. }
  assert (names o1 n <> Some id) as Hgone by (rewrite Hid in Hun; destruct Hun; congruence).
  destruct (nk_open _ _ _ Hn n o1) as [Hs Hp].
  destruct (os _ (sys_shm_open n false) o1) as [[fd|e] o2]; cbn -[Z.eqb] in *.
  - destruct Hp as (id' & Hid' & _). pose proof (nk_close _ _ _ Hn fd o2) as Hc.
    destruct (os _ (sys_close fd) o2) as [x o3]. cbn in *. eexists _, _. split; [done|].
    split; [intros n' Hn'; rewrite Hc, Hs; auto|]. right. rewrite Hc, Hs.
    split; [done|]. split; [done|]. left. rewrite Hc, Hs, Hid'. done.
  - bdestr (e =? ENOENT); cbn; eexists _, _; (split; [done|]).
    + split; [intros n' Hn'; rewrite Hs; auto|]. rewrite Hs. auto.
    + split; [intros n' Hn'; rewrite Hs; auto|]. right. rewrite Hs. split; [done|].
      split; [done|]. right. by exists e.
Qed.

Lemma run_unlink_any n dev ino (w : world L OS) :
  exists r o', run os (shm_unlink_checked n dev ino) w = (r, mkWorld (w_mem w) o') /\
    unlink_any n (dev, ino) (w_os w) r o'.
Proof.
  unfold shm_unlink_checked, shm_open_existing.
  cbn -[unlink_any shm_fstat_and_capture shm_capture_created_identity Z.eqb].
  destruct (nk_open _ _ _ Hn n (w_os w)) as [Hs1 Hopen].
  destruct (os _ (sys_shm_open n false) (w_os w)) as [[fd|e] o1];
    cbn -[unlink_any shm_fstat_and_capture shm_capture_created_identity Z.eqb] in *.
  2:{ eexists _, _. split; [done|]. split; [auto|]. left. split; [done|]. left. by exists e. }
  destruct Hopen as (id & Hname & Hfd).
  destruct (run_identity_any fd (mkWorld (w_mem w) o1)) as (r & o2 & E & [Hs2 _] & Herr & Hok).
  cbn in Hs2. rewrite run_bind in E |- *.
  destruct (run os (shm_fstat_and_capture fd) (mkWorld (w_mem w) o1)) as [fst_ wf].
  cbn beta iota. rewrite run_bind, E. cbn beta iota.
  assert (forall n', names o2 n' = names (w_os w) n') as Hs by (intros; by rewrite Hs2, Hs1).
  destruct r as [[dev' ino']|e].
  2:{ eexists _, _. split; [done|]. split; [auto|]. left. split; [done|]. right; left.
      by rewrite Hname, (Herr e). }
  assert (id = (dev', ino')) as -> by (by eapply Hok).
  destruct (negb (dev' =? dev) || negb (ino' =? ino)) eqn:Hcmp.
  { eexists _, _. split; [done|]. split; [auto|]. left. split; [done|]. right; right; left.
    split; [done|]. exists (dev', ino'). split; [done|]. intros [= -> ->].
    by rewrite !Z.eqb_refl in Hcmp. }
  assert (dev' = dev /\ ino' = ino) as [-> ->] by lia.
  destruct (run_unlink_named n (dev, ino) (mkWorld (w_mem w) o2)) as (r & o3 & E3 & Hoth & Hr);
    [cbn; by rewrite Hs|].
  eexists _, _. split; [exact E3|]. cbn in Hoth, Hr.
  split; [intros n' Hn'; rewrite Hoth by done; apply Hs|].
  rewrite !Hs in Hr. unfold unlink_refusal in *. by rewrite !Hs in Hr.
Qed.
End UnlinkAny.

(** C28: a name is removed only while it names the object it should. On every kernel
    that keeps the promises of the calls about names, whichever calls fail and
    whatever the objects' modes and owners are, and when no other process changes
    the names between the opening and the unlink: [shm_unlink_checked] changes no
    other name; it succeeds only when the name named the expected device and inode,
    and then the name is free; when it fails, either the name is as it was, because
    the opening failed, because the identity could not be taken ([kRecoveryBlocked]),
    because another object has the name ([kNameRaceDetected]) or because the unlink
    failed, or the name named the expected object and was removed, and the look
    afterwards found a new object ([kNameRaceDetected]) or failed. When moreover no
    call fails and the objects are the user's with mode 0600, the outcome is
    determined by the name alone: removed when it names the expected object,
    [kNameRaceDetected] with nothing removed when it names another one, [kNotFound]
    when there is no such name. *)
Theorem shm_unlink_checked_spec {L OS} `{EqDecision L} (os : os_model OS) names opened
    n dev ino (w : world L OS) :
  names_kernel os names opened ->
  unlink_any names n (dev, ino) (w_os w)
    (run os (shm_unlink_checked n dev ino) w).1
    (w_os (run os (shm_unlink_checked n dev ino) w).2) /\
  forall uid, names_answer os names opened uid ->
    unlink_outcome names n (dev, ino) (w_os w)
      (run os (shm_unlink_checked n dev ino) w).1
      (w_os (run os (shm_unlink_checked n dev ino) w).2).
Proof.
  intros Hk. split.
  - destruct (run_unlink_any os names opened Hk n dev ino w) as (r & o' & E & H). by rewrite E.
  - intros uid Hn.
    destruct (run_unlink_checked os names opened uid Hn n dev ino w) as (r & o' & E & H).
    by rewrite E.
Qed.

(** A kernel whose state is its names; every descriptor is 3. *)
Module UnlinkDemo.
Definition state : Type := (string -> option (Z * Z)) * option (Z * Z).
Definition os : os_model state := fun X c o =>
  match c in sys Y return Y * state with
  | sys_shm_open n false =>
      match fst o n with
      | Some id => (SysOk 3, (fst o, Some id))
      | None => (SysErr ENOENT, o)
      end
  | sys_fstat _ =>
      match snd o with
      | Some (dev, ino) => (SysOk (mkStat (S_IFREG + kExpectedShmMode) 1000 dev ino 0 1), o)
      | None => (SysErr 9, o)
      end
  | sys_geteuid => (1000, o)
  | sys_shm_unlink n =>
      match fst o n with
      | Some _ => (SysOk tt, (fun n' => if decide (n' = n) then None else fst o n', snd o))
      | None => (SysErr ENOENT, o)
      end
  | c => (sys_default c, o)
  end.
Lemma demo_names : names_answer os fst (fun o _ => snd o) 1000.
Proof.
  split.
  - intros n o. simpl. destruct (fst o n) eqn:E; simpl; [|done]. split; [done|]. by exists 3.
  - intros fd dev ino o Ho. simpl. rewrite Ho. simpl. split; [done|]. by eexists _, _.
  - done.
  - intros n id o Ho. simpl. rewrite Ho. done.
Qed.
Lemma demo_names_kernel : names_kernel os fst (fun o _ => snd o).
Proof.
  split.
  - intros n o. simpl. destruct (fst o n) eqn:E; simpl; [|done]. split; [done|]. by eexists.
  - intros fd o. simpl. destruct (snd o) as [[dev ino]|] eqn:E; simpl; [|by rewrite E].
    split; [done|]. split; [done|]. by intros ? [= <-] ? [= <-].
  - done.
  - done.
  - intros n o. simpl. destruct (fst o n) as [id|] eqn:E; simpl; [|done].
    split; [intros n' Hn; by rewrite decide_False|]. rewrite decide_True by done. by left.
  - done.
Qed.
(** The name now names inode 8. *)
Definition before : state := (fun n => if decide (n = "/q"%string) then Some (1, 8) else None, None).
End UnlinkDemo.

Lemma shm_unlink_checked_spec_witness :
  let after := run UnlinkDemo.os (shm_unlink_checked "/q" 1 7)
                 (mkWorld (fun _ : Z => 0) UnlinkDemo.before) in
  unlink_any fst "/q" (1, 7) UnlinkDemo.before after.1 (w_os after.2) /\
  unlink_outcome fst "/q" (1, 7) UnlinkDemo.before after.1 (w_os after.2).
Proof.
  destruct (shm_unlink_checked_spec UnlinkDemo.os fst (fun o _ => snd o) "/q" 1 7
              (mkWorld (fun _ : Z => 0) UnlinkDemo.before) UnlinkDemo.demo_names_kernel) as [H1 H2].
  exact (conj H1 (H2 1000 UnlinkDemo.demo_names)).
Defined.
