(* ===== verification/PoolLayout.v ===== *)
(** The buffer pool segment:
    [src/edge_runtime/buffer/shared_buffer_pool_layout.hpp].

    The pool header, the block headers and the payload bytes are the locations
    [ploc]. As for the queue, the lemmas show that the locations of a pool of any
    accepted shape never overlap and stay inside the mapping. *)
From S2P Require Import Prelude Errors CheckedMath Prog ProcIdentity OwnerSnapshot.

Definition kSharedBufferPoolMagic : string := "ERBPOOL2".
Definition kSharedBufferPoolLegacyMagic : string := "ERBPOOL1".
Definition kSharedBufferPoolAbiMajor : Z := 2.
Definition kSharedBufferPoolAbiMinor : Z := 0.
Definition kSharedBufferPoolEndianMarker : Z := 16909060.
Definition kSharedBufferPoolMaxBlockCount : Z := 4096.
Definition kSharedBufferPoolBlockSize4K : Z := 4096.
Definition kSharedBufferPoolBlockSize16K : Z := 16384.
Definition kSharedBufferPoolMaxNameLength : Z := 64.
(** [sizeof(SharedBufferPoolHeaderAbi)], [sizeof(SharedBufferBlockHeaderAbi)]. *)
Definition kPoolHeaderSize : Z := 192.
Definition kPoolBlockHeaderSize : Z := 64.

(** [SharedBufferPoolInitState]. *)
Definition pi_kInitializing : Z := 1.
Definition pi_kReady : Z := 2.

(** [SharedBufferBlockState]. *)
Definition bs_kFree : Z := 0.
Definition bs_kWritingClaiming : Z := 1.
Definition bs_kWriting : Z := 2.
Definition bs_kPublished : Z := 3.
Definition bs_kReadingClaiming : Z := 4.
Definition bs_kReading : Z := 5.
Definition bs_kEpochExhausted : Z := 6.
Definition bs_kOwnerProtocolFault : Z := 7.

(** The scalar fields of [SharedBufferPoolHeaderAbi]; [pf_padding0] is the four
    bytes the compiler leaves between [block_count] and [mapping_size]. *)
Inductive pool_field : Type :=
| pf_abi_major | pf_abi_minor | pf_endian_marker | pf_header_size | pf_block_size
| pf_block_count | pf_padding0 | pf_mapping_size | pf_generation | pf_instance_nonce_hi
| pf_instance_nonce_lo | pf_schema_version | pf_init_state | pf_header_checksum.

#[global] Instance pool_field_eq_dec : EqDecision pool_field.
Proof. solve_decision. Defined.

(** The locations of a pool segment. [PReserved] is the header's [reserved] and
    the padding up to its size; [BReserved] is a block header's. *)
Inductive ploc : Type :=
| PMagic (i : nat)
| PFingerprint (i : nat)
| PField (f : pool_field)
| PCreator (f : owner_field)
| PReserved (i : nat)
| BState (block : Z)
| BReserved0 (block : Z)
| BGeneration (block : Z)
| BOwner (block : Z) (f : owner_field)
| BOwnerEpoch (block : Z)
| BReserved (block : Z) (i : nat)
| BPayload (block : Z) (byte : nat).

#[global] Instance ploc_eq_dec : EqDecision ploc.
Proof. solve_decision. Defined.

Definition shared_buffer_pool_block_size_valid (block_size : Z) : bool :=
  (block_size =? kSharedBufferPoolBlockSize4K) || (block_size =? kSharedBufferPoolBlockSize16K).

Definition shared_buffer_pool_stride_for (block_size : Z) : option Z :=
  if negb (shared_buffer_pool_block_size_valid block_size) then None
  else round_up_to_multiple_u64 (u64 (kPoolBlockHeaderSize + block_size)) 64.

Definition shared_buffer_pool_mapping_size_for (block_size block_count : Z) : option Z :=
  if (block_count =? 0) || (kSharedBufferPoolMaxBlockCount <? block_count) then None
  else
    stride ← shared_buffer_pool_stride_for block_size;
    blocks_size ← checked_mul_u64 stride block_count;
    checked_add_u64 kPoolHeaderSize blocks_size.

(** [(block_offset, payload_offset)]. *)
Definition shared_buffer_pool_block_offset_for (block_size block_id block_count : Z)
    : option (Z * Z) :=
  if block_count <=? block_id then None
  else
    _ ← shared_buffer_pool_mapping_size_for block_size block_count;
    stride ← shared_buffer_pool_stride_for block_size;
    index_offset ← checked_mul_u64 stride block_id;
    block_offset ← checked_add_u64 kPoolHeaderSize index_offset;
    payload_offset ← checked_add_u64 block_offset kPoolBlockHeaderSize;
    Some (block_offset, payload_offset).

(** * Byte ranges *)

Definition pool_field_range (f : pool_field) : Z * Z :=
  match f with
  | pf_abi_major => (8, 2) | pf_abi_minor => (10, 2) | pf_endian_marker => (12, 4)
  | pf_header_size => (16, 4) | pf_block_size => (20, 4) | pf_block_count => (24, 4)
  | pf_padding0 => (28, 4) | pf_mapping_size => (32, 8) | pf_generation => (40, 8)
  | pf_instance_nonce_hi => (48, 8) | pf_instance_nonce_lo => (56, 8)
  | pf_schema_version => (96, 4) | pf_init_state => (100, 4) | pf_header_checksum => (104, 8)
  end.

Definition pool_owner_offset (f : owner_field) : Z :=
  match f with of_pid => 0 | of_start => 8 | of_boot_hi => 16 | of_boot_lo => 24 end.

Definition ploc_range (stride : Z) (l : ploc) : Z * Z :=
  let block b := kPoolHeaderSize + b * stride in
  match l with
  | PMagic i => (Z.of_nat i, 1)
  | PFingerprint i => (64 + Z.of_nat i, 1)
  | PField f => pool_field_range f
  | PCreator f => (112 + pool_owner_offset f, 8)
  | PReserved i => (144 + Z.of_nat i, 1)
  | BState b => (block b, 4)
  | BReserved0 b => (block b + 4, 4)
  | BGeneration b => (block b + 8, 8)
  | BOwner b f => (block b + 16 + pool_owner_offset f, 8)
  | BOwnerEpoch b => (block b + 48, 8)
  | BReserved b i => (block b + 56 + Z.of_nat i, 1)
  | BPayload b j => (block b + kPoolBlockHeaderSize + Z.of_nat j, 1)
  end.

Definition ploc_valid (block_size block_count : Z) (l : ploc) : Prop :=
  match l with
  | PMagic i => (i < 8)%nat
  | PFingerprint i => (i < 32)%nat
  | PReserved i => (i < 48)%nat
  | PField _ | PCreator _ => True
  | BState b | BReserved0 b | BGeneration b | BOwner b _ | BOwnerEpoch b => 0 <= b < block_count
  | BReserved b i => 0 <= b < block_count /\ (i < 8)%nat
  | BPayload b j => 0 <= b < block_count /\ Z.of_nat j < block_size
  end.

Definition owner_fields : list owner_field := [of_pid; of_start; of_boot_hi; of_boot_lo].

(** The header in address order. *)
Definition pool_header_locs : list ploc :=
  map PMagic (seq 0 8) ++
  map PField [pf_abi_major; pf_abi_minor; pf_endian_marker; pf_header_size; pf_block_size;
              pf_block_count; pf_padding0; pf_mapping_size; pf_generation;
              pf_instance_nonce_hi; pf_instance_nonce_lo] ++
  map PFingerprint (seq 0 32) ++
  map PField [pf_schema_version; pf_init_state; pf_header_checksum] ++
  map PCreator owner_fields ++ map PReserved (seq 0 48).

Definition block_locs (block_size b : Z) : list ploc :=
  [BState b; BReserved0 b; BGeneration b] ++ map (BOwner b) owner_fields ++ [BOwnerEpoch b] ++
  map (BReserved b) (seq 0 8) ++ map (BPayload b) (seq 0 (Z.to_nat block_size)).

(** [0, 1, ..., n - 1] as loop indices. *)
Definition block_ids (n : Z) : list Z := map Z.of_nat (seq 0 (Z.to_nat n)).

Definition pool_segment_locs (block_size block_count : Z) : list ploc :=
  pool_header_locs ++ concat (map (block_locs block_size) (block_ids block_count)).

(** * Facts *)

Lemma pool_block_size_valid_spec block_size :
  shared_buffer_pool_block_size_valid block_size = true <->
  block_size = 4096 \/ block_size = 16384.
Proof.
  unfold shared_buffer_pool_block_size_valid, kSharedBufferPoolBlockSize4K,
    kSharedBufferPoolBlockSize16K.
  rewrite orb_true_iff, !Z.eqb_eq. done.
Qed.

(** Both strides are already multiples of 64. *)
Lemma pool_stride_spec block_size :
  shared_buffer_pool_block_size_valid block_size = true ->
  shared_buffer_pool_stride_for block_size = Some (kPoolBlockHeaderSize + block_size).
Proof. intros [->| ->]%pool_block_size_valid_spec; by vm_compute. Qed.

Lemma pool_mapping_size_spec block_size block_count :
  shared_buffer_pool_block_size_valid block_size = true ->
  0 < block_count <= kSharedBufferPoolMaxBlockCount ->
  shared_buffer_pool_mapping_size_for block_size block_count
  = Some (kPoolHeaderSize + (kPoolBlockHeaderSize + block_size) * block_count).
Proof.
  intros Hs Hc. unfold shared_buffer_pool_mapping_size_for.
  rewrite pool_stride_spec by done. apply pool_block_size_valid_spec in Hs.
  unfold kSharedBufferPoolMaxBlockCount, kPoolHeaderSize, kPoolBlockHeaderSize in *.
  replace (_ || _) with false by (symmetry; rewrite orb_false_iff, Z.eqb_neq, Z.ltb_ge; lia).
  cbn [mbind option_bind].
  assert (0 <= (64 + block_size) * block_count <= 16448 * 4096) by nia.
  rewrite checked_mul_u64_ok by mlia. cbn [mbind option_bind].
  by rewrite checked_add_u64_ok by mlia.
Qed.

Lemma pool_block_offset_spec block_size block_id block_count :
  shared_buffer_pool_block_size_valid block_size = true ->
  0 < block_count <= kSharedBufferPoolMaxBlockCount -> 0 <= block_id < block_count ->
  shared_buffer_pool_block_offset_for block_size block_id block_count
  = Some (kPoolHeaderSize + (kPoolBlockHeaderSize + block_size) * block_id,
          kPoolHeaderSize + (kPoolBlockHeaderSize + block_size) * block_id
            + kPoolBlockHeaderSize).
Proof.
  intros Hs Hc Hi. unfold shared_buffer_pool_block_offset_for.
  rewrite pool_mapping_size_spec, pool_stride_spec by done.
  apply pool_block_size_valid_spec in Hs.
  unfold kSharedBufferPoolMaxBlockCount, kPoolHeaderSize, kPoolBlockHeaderSize in *.
  bdestr (block_count <=? block_id); [lia|]. cbn [mbind option_bind].
  assert (0 <= (64 + block_size) * block_id <= 16448 * 4096) by nia.
  rewrite checked_mul_u64_ok by mlia. cbn [mbind option_bind].
  rewrite checked_add_u64_ok by mlia. cbn [mbind option_bind].
  by rewrite checked_add_u64_ok by mlia.
Qed.

(** ** Locations do not overlap *)

(** The block a location belongs to; [None] for the header. *)
Definition ploc_block (l : ploc) : option Z :=
  match l with
  | BState b | BReserved0 b | BGeneration b | BOwner b _ | BOwnerEpoch b | BReserved b _
  | BPayload b _ => Some b
  | _ => None
  end.

Lemma pool_header_complete bsz cnt l :
  ploc_valid bsz cnt l -> ploc_block l = None -> l ∈ pool_header_locs.
Proof.
  intros Hv Hs. unfold pool_header_locs. rewrite !elem_of_app.
  destruct l as [i|i|f|f|i| | | | | | |]; simpl in Hs; try done; simpl in Hv.
  - left. apply list_elem_of_fmap. exists i. split; [done|]. apply elem_of_seq. lia.
  - do 2 right. left. apply list_elem_of_fmap. exists i. split; [done|]. apply elem_of_seq. lia.
  - destruct f; [right; left|..]; try (right; left; apply (bool_decide_unpack _); by vm_compute);
      try (apply (bool_decide_unpack _); by vm_compute);
      do 3 right; left; apply (bool_decide_unpack _); by vm_compute.
  - do 4 right. left. destruct f; apply (bool_decide_unpack _); by vm_compute.
  - do 5 right. apply list_elem_of_fmap. exists i. split; [done|]. apply elem_of_seq. lia.
Qed.

Lemma pool_header_apart :
  Forall (fun l1 => Forall (fun l2 =>
    l1 = l2 \/ ranges_disjoint (ploc_range 0 l1) (ploc_range 0 l2)) pool_header_locs)
    pool_header_locs.
Proof. apply (bool_decide_unpack _). by vm_compute. Qed.

Lemma pool_header_bound :
  Forall (fun l => 0 <= (ploc_range 0 l).1 /\
                   (ploc_range 0 l).1 + (ploc_range 0 l).2 <= kPoolHeaderSize) pool_header_locs.
Proof. apply (bool_decide_unpack _). by vm_compute. Qed.

Lemma ploc_range_header stride l :
  ploc_block l = None -> ploc_range stride l = ploc_range 0 l.
Proof. by destruct l. Qed.

Lemma ploc_range_block bsz cnt stride l b :
  ploc_valid bsz cnt l -> ploc_block l = Some b -> 0 < bsz ->
  let base := kPoolHeaderSize + b * stride in
  0 <= b < cnt /\ base <= (ploc_range stride l).1 /\
  (ploc_range stride l).1 + (ploc_range stride l).2 <= base + kPoolBlockHeaderSize + bsz.
Proof.
  intros Hv Hs Hp. unfold kPoolBlockHeaderSize.
  destruct l as [| | | | |?|?|?|? f|?|? i|? j]; simpl in *; try done;
    injection Hs as ->; try destruct f; simpl; unfold kPoolBlockHeaderSize; lia.
Qed.

Lemma ploc_apart_same_block bsz cnt stride l1 l2 b :
  ploc_valid bsz cnt l1 -> ploc_valid bsz cnt l2 ->
  ploc_block l1 = Some b -> ploc_block l2 = Some b -> l1 <> l2 ->
  ranges_disjoint (ploc_range stride l1) (ploc_range stride l2).
Proof.
  intros V1 V2 H1 H2 Hne. unfold ranges_disjoint.
  destruct l1 as [| | | | |?|?|?|? f1|?|? i1|? j1]; simpl in H1; try done;
    injection H1 as ->;
    destruct l2 as [| | | | |?|?|?|? f2|?|? i2|? j2]; simpl in H2; try done;
    injection H2 as ->; try done; simpl in *; unfold kPoolBlockHeaderSize;
    try destruct f1; try destruct f2; simpl; try lia; try congruence.
  - assert (i1 <> i2) by congruence. lia.
  - assert (j1 <> j2) by congruence. lia.
Qed.

(** Header against block. *)
Lemma ploc_header_below bsz cnt stride l1 l2 b :
  ploc_valid bsz cnt l1 -> ploc_valid bsz cnt l2 -> ploc_block l1 = None ->
  ploc_block l2 = Some b -> 0 < bsz -> 0 <= stride ->
  (ploc_range stride l1).1 + (ploc_range stride l1).2 <= (ploc_range stride l2).1.
Proof.
  intros V1 V2 H1 H2 Hp Hs. destruct (ploc_range_block _ _ stride _ _ V2 H2 Hp) as (? & ? & _).
  rewrite (ploc_range_header _ l1) by done. pose proof pool_header_bound as Hf.
  rewrite Forall_forall in Hf. specialize (Hf l1 (pool_header_complete _ _ _ V1 H1)). nia.
Qed.

Lemma ploc_apart bsz cnt l1 l2 :
  0 < bsz -> ploc_valid bsz cnt l1 -> ploc_valid bsz cnt l2 -> l1 <> l2 ->
  ranges_disjoint (ploc_range (kPoolBlockHeaderSize + bsz) l1)
    (ploc_range (kPoolBlockHeaderSize + bsz) l2).
Proof.
  intros Hp V1 V2 Hne. set (stride := kPoolBlockHeaderSize + bsz).
  assert (0 <= stride) by (unfold stride, kPoolBlockHeaderSize; lia).
  destruct (ploc_block l1) as [b|] eqn:H1, (ploc_block l2) as [b'|] eqn:H2.
  - destruct (decide (b = b')) as [->|Hb]; [by eapply ploc_apart_same_block|].
    destruct (ploc_range_block _ _ stride _ _ V1 H1 Hp) as (? & ? & ?).
    destruct (ploc_range_block _ _ stride _ _ V2 H2 Hp) as (? & ? & ?).
    unfold ranges_disjoint, stride, kPoolBlockHeaderSize in *.
    destruct (decide (b < b')); [left|right]; nia.
  - right. by eapply ploc_header_below.
  - left. by eapply ploc_header_below.
  - rewrite !(ploc_range_header stride) by done. pose proof pool_header_apart as Hd.
    rewrite Forall_forall in Hd. specialize (Hd l1 (pool_header_complete _ _ _ V1 H1)).
    rewrite Forall_forall in Hd. by destruct (Hd l2 (pool_header_complete _ _ _ V2 H2)).
Qed.

(** C21: the segment of a pool of every accepted shape is laid out soundly: the
    sizes and offsets are computed without overflow, the offsets are those of the
    block header and of the payload, every location lies inside the mapping, and
    two different locations never share a byte. *)
Theorem pool_layout_sound bsz cnt :
  shared_buffer_pool_block_size_valid bsz = true -> 0 < cnt <= kSharedBufferPoolMaxBlockCount ->
  exists stride size, shared_buffer_pool_stride_for bsz = Some stride /\
    shared_buffer_pool_mapping_size_for bsz cnt = Some size /\
    (forall b, 0 <= b < cnt -> shared_buffer_pool_block_offset_for bsz b cnt
       = Some ((ploc_range stride (BState b)).1, (ploc_range stride (BPayload b 0)).1)) /\
    (forall l, ploc_valid bsz cnt l ->
       0 <= (ploc_range stride l).1 /\
       (ploc_range stride l).1 + (ploc_range stride l).2 <= size) /\
    (forall l1 l2, ploc_valid bsz cnt l1 -> ploc_valid bsz cnt l2 -> l1 <> l2 ->
       ranges_disjoint (ploc_range stride l1) (ploc_range stride l2)).
Proof.
  intros Hs Hc. assert (0 < bsz) as Hp by (apply pool_block_size_valid_spec in Hs; lia).
  eexists _, _. split; [by apply pool_stride_spec|]. split; [by apply pool_mapping_size_spec|].
  split; [|split].
  - intros b Hb. rewrite pool_block_offset_spec by done. simpl. f_equal. f_equal; lia.
  - intros l Hv. destruct (ploc_block l) as [b|] eqn:Hl.
    + destruct (ploc_range_block _ _ (kPoolBlockHeaderSize + bsz) _ _ Hv Hl Hp) as (? & ? & ?).
      unfold kPoolHeaderSize, kPoolBlockHeaderSize in *. nia.
    + rewrite ploc_range_header by done. pose proof pool_header_bound as Hf.
      rewrite Forall_forall in Hf. specialize (Hf l (pool_header_complete _ _ _ Hv Hl)).
      unfold kPoolBlockHeaderSize. nia.
  - intros l1 l2. by apply ploc_apart.
Qed.

Lemma pool_layout_sound_witness :
  exists stride size, shared_buffer_pool_stride_for 4096 = Some stride /\
    shared_buffer_pool_mapping_size_for 4096 3 = Some size /\
    ranges_disjoint (ploc_range stride (BPayload 1 4095)) (ploc_range stride (BState 2)).
Proof.
  destruct (pool_layout_sound 4096 3) as (stride & size & Hs & Hm & _ & _ & Hd);
    [reflexivity|unfold kSharedBufferPoolMaxBlockCount; lia|].
  exists stride, size. split; [exact Hs|]. split; [exact Hm|].
  apply Hd; [split; [lia|reflexivity]|simpl; lia|discriminate].
Defined.
