(* ===== verification/SharedBufferPool.v ===== *)
(** The shared buffer pool: [src/edge_runtime/buffer/shared_buffer_pool.cpp] and
    [include/edge_runtime/buffer/shared_buffer_pool.hpp], release build.

    Blocks go from free to being written, published, being read and back. A
    [WriteBuffer] or [ReadBuffer] is the exclusive right to one block; a
    [BufferHandle] names one publication of one block by the block's generation.

    A [SharedBufferPoolHandle] is shared by all the buffers acquired through it,
    and [removed] may change under them: the operations on a buffer take the
    handle that [pool_] points to as an argument, and the buffer itself only
    knows whether its pointer is null. *)
From stdpp Require Import pretty.
From S2P Require Import Prelude Errors CheckedMath Checksum Prog ProcIdentity OwnerSnapshot.
From S2P Require Import ShmObject ChannelLayout PoolLayout.

Abbreviation pprog := (prog ploc).

Record SharedBufferPoolHandle : Type := mkPoolHandle {
  ph_object : ShmObject;
  ph_shm_name : string;
  ph_self : ProcessIdentity;
  ph_created : bool;
  ph_removed : bool
}.

Record BufferHandle : Type := mkBufferHandle {
  bh_pool_generation : Z;
  bh_block_generation : Z;
  bh_instance_nonce_hi : Z;
  bh_instance_nonce_lo : Z;
  bh_offset : Z;
  bh_block_id : Z;
  bh_length : Z;
  bh_schema_version : Z;
  bh_reserved : Z;
  bh_schema_fingerprint : list Z
}.

#[global] Instance BufferHandle_eq_dec : EqDecision BufferHandle.
Proof. solve_decision. Defined.

(** [BufferHandle{}]. *)
Definition empty_buffer_handle : BufferHandle :=
  mkBufferHandle 0 0 0 0 0 0 0 0 0 (replicate 32 0).

Record SharedBufferPoolOptions : Type := mkPoolOptions {
  po_name : string;
  po_block_size : Z;
  po_block_count : Z;
  po_schema : SchemaDescriptor
}.

Record SharedBufferPoolStatus : Type := mkPoolStatus {
  pst_ready : bool;
  pst_abi_major : Z;
  pst_abi_minor : Z;
  pst_block_size : Z;
  pst_block_count : Z;
  pst_mapping_size : Z;
  pst_generation : Z;
  pst_instance_nonce_hi : Z;
  pst_instance_nonce_lo : Z;
  pst_free_blocks : Z;
  pst_writing_blocks : Z;
  pst_published_blocks : Z;
  pst_reading_blocks : Z;
  pst_recovery_blocked_blocks : Z;
  pst_creator_pid : Z;
  pst_creator_alive : bool
}.

(** [WriteBuffer] and [ReadBuffer]. [block_] and [data_] point to the header and
    to the payload of the block with that id; [wb_pool] and [rb_pool] say that
    [pool_] is not null. *)
Record WriteBuffer : Type := mkWriteBuffer {
  wb_pool : bool;
  wb_block : option Z;
  wb_data : option Z;
  wb_size : Z;
  wb_descriptor : BufferHandle;
  wb_active : bool
}.

Record ReadBuffer : Type := mkReadBuffer {
  rb_pool : bool;
  rb_block : option Z;
  rb_data : option Z;
  rb_size : Z;
  rb_descriptor : BufferHandle;
  rb_active : bool
}.

#[global] Instance WriteBuffer_eq_dec : EqDecision WriteBuffer.
Proof. solve_decision. Defined.
#[global] Instance ReadBuffer_eq_dec : EqDecision ReadBuffer.
Proof. solve_decision. Defined.

(** * Owners *)

Definition owner_from_process (identity : ProcessIdentity) : ProcessIdentity :=
  mkIdentity (pid identity) (proc_start_ticks identity) (boot_id_hash_hi identity)
    (boot_id_hash_lo identity).

Definition owner_valid (owner : ProcessIdentity) : bool :=
  negb (pid owner =? 0) && negb (proc_start_ticks owner =? 0)
  && negb (boot_id_hash_hi owner =? 0) && negb (boot_id_hash_lo owner =? 0).

Definition owner_matches (owner identity : ProcessIdentity) : bool :=
  (pid owner =? pid identity) && (proc_start_ticks owner =? proc_start_ticks identity)
  && (boot_id_hash_hi owner =? boot_id_hash_hi identity)
  && (boot_id_hash_lo owner =? boot_id_hash_lo identity).

Definition set_owner (owner : owner_field -> ploc) (identity : ProcessIdentity) : pprog unit :=
  store_owner_seq_cst owner (owner_from_process identity).

Definition classify_block_state (state : Z) : OwnerStateKind :=
  if (state =? bs_kFree) || (state =? bs_kPublished) then st_Inactive
  else if (state =? bs_kWritingClaiming) || (state =? bs_kReadingClaiming) then st_Claiming
  else if (state =? bs_kWriting) || (state =? bs_kReading) then st_Owned
  else if state =? bs_kEpochExhausted then st_EpochExhausted
  else if state =? bs_kOwnerProtocolFault then st_ProtocolFault
  else st_Unexpected.

Definition block_owner_locs (block : Z) : owner_locs ploc :=
  mkOwnerLocs (BState block) (BOwnerEpoch block) (BOwner block).

Definition snapshot_block_owner (block : Z) : pprog OwnerSnapshot :=
  snapshot_owner_seq_cst (block_owner_locs block) classify_block_state owner_valid.

(** * Header *)

Definition magic_locs : list ploc := map PMagic (seq 0 8).
Definition fingerprint_locs : list ploc := map PFingerprint (seq 0 32).

(** The 192 bytes of the header copy, with [init_state] and [header_checksum]
    ([None]) set to zero. *)
Definition checksum_fields : list (nat * option ploc) :=
  map (fun l => (1%nat, Some l)) magic_locs ++
  [ (2%nat, Some (PField pf_abi_major)); (2%nat, Some (PField pf_abi_minor));
    (4%nat, Some (PField pf_endian_marker)); (4%nat, Some (PField pf_header_size));
    (4%nat, Some (PField pf_block_size)); (4%nat, Some (PField pf_block_count));
    (4%nat, Some (PField pf_padding0)); (8%nat, Some (PField pf_mapping_size));
    (8%nat, Some (PField pf_generation)); (8%nat, Some (PField pf_instance_nonce_hi));
    (8%nat, Some (PField pf_instance_nonce_lo)) ] ++
  map (fun l => (1%nat, Some l)) fingerprint_locs ++
  [ (4%nat, Some (PField pf_schema_version)); (4%nat, None); (8%nat, None) ] ++
  map (fun f => (8%nat, Some (PCreator f))) owner_fields ++
  map (fun i => (1%nat, Some (PReserved i))) (seq 0 48).

Fixpoint load_copy (fields : list (nat * option ploc)) : pprog (list Z) :=
  match fields with
  | [] => Ret []
  | (width, None) :: fields' =>
      let! rest := load_copy fields' in
      Ret (le_bytes width 0 ++ rest)
  | (width, Some l) :: fields' =>
      let! v := plain_load l in
      let! rest := load_copy fields' in
      Ret (le_bytes width v ++ rest)
  end.

Definition header_checksum : pprog Z :=
  let! copy := load_copy checksum_fields in
  Ret (fnv1a64 copy).

Definition same_schema (schema : SchemaDescriptor) : pprog bool :=
  let! version := plain_load (PField pf_schema_version) in
  if negb (version =? sd_version schema) then Ret false
  else
    let! fingerprint := load_list fingerprint_locs in
    Ret (bool_decide (fingerprint = sd_fingerprint schema)).

Definition handle_schema_matches (descriptor : BufferHandle) : pprog bool :=
  let! version := plain_load (PField pf_schema_version) in
  if negb (bh_schema_version descriptor =? version) then Ret false
  else
    let! fingerprint := load_list fingerprint_locs in
    Ret (bool_decide (bh_schema_fingerprint descriptor = fingerprint)).

Definition pool_shm_name (pool_name : string) : pprog string :=
  let! uid := syscall sys_getuid in
  Ret ("/edgeruntime.bufferpool." +:+ pretty uid +:+ "." +:+ pool_name)%string.

(** * Blocks *)

(** The block at the offset the layout gives its id; [None] is the null
    pointer. *)
Definition block_at (handle : SharedBufferPoolHandle) (block_id : Z) : pprog (option Z) :=
  let! block_size := plain_load (PField pf_block_size) in
  let! block_count := plain_load (PField pf_block_count) in
  Ret match shared_buffer_pool_block_offset_for block_size block_id block_count with
      | None => None
      | Some (block_offset, _) =>
          let size := so_size (ph_object handle) in
          if (size <? block_offset) || (u64 (size - block_offset) <? kPoolBlockHeaderSize)
          then None else Some block_id
      end.

Definition payload_at (handle : SharedBufferPoolHandle) (block_id : Z)
    : pprog (option Z) :=
  let! block_size := plain_load (PField pf_block_size) in
  let! block_count := plain_load (PField pf_block_count) in
  Ret match shared_buffer_pool_block_offset_for block_size block_id block_count with
      | None => None
      | Some (_, payload_offset) =>
          let size := so_size (ph_object handle) in
          if (size <? payload_offset) || (u64 (size - payload_offset) <? block_size)
          then None else Some block_id
      end.

Definition make_handle (block_id block : Z) : pprog BufferHandle :=
  let! block_size := plain_load (PField pf_block_size) in
  let! block_count := plain_load (PField pf_block_count) in
  let payload_offset :=
    match shared_buffer_pool_block_offset_for block_size block_id block_count with
    | Some (_, payload_offset) => payload_offset
    | None => 0
    end in
  let! pool_generation := plain_load (PField pf_generation) in
  let! block_generation := shared_load_seq_cst (BGeneration block) in
  let! nonce_hi := plain_load (PField pf_instance_nonce_hi) in
  let! nonce_lo := plain_load (PField pf_instance_nonce_lo) in
  let! schema_version := plain_load (PField pf_schema_version) in
  let! fingerprint := load_list fingerprint_locs in
  Ret (mkBufferHandle pool_generation block_generation nonce_hi nonce_lo payload_offset
         block_id block_size schema_version 0 fingerprint).

(** * Validation *)

Definition validate_options (options : SharedBufferPoolOptions) : Result unit :=
  if negb (validate_channel_name (po_name options))
     || (kSharedBufferPoolMaxNameLength <? Z.of_nat (String.length (po_name options))) then
    Err (make_error kInvalidName "SharedBufferPool::options" "invalid pool name")
  else if negb (shared_buffer_pool_block_size_valid (po_block_size options))
          || (po_block_count options =? 0)
          || (kSharedBufferPoolMaxBlockCount <? po_block_count options)
          || (sd_version (po_schema options) =? 0) then
    Err (make_error kInvalidOptions "SharedBufferPool::options"
           "unsupported block size, count, or schema version")
  else Ok tt.

Definition op_open : string := "SharedBufferPool::open".
Definition op_create : string := "SharedBufferPool::create".

(** [header->creator], read field by field. *)
Definition load_creator : pprog ProcessIdentity :=
  let! p := plain_load (PCreator of_pid) in
  let! start := plain_load (PCreator of_start) in
  let! hi := plain_load (PCreator of_boot_hi) in
  let! lo := plain_load (PCreator of_boot_lo) in
  Ret (mkIdentity p start hi lo).

Definition validate_header (actual_size : Z) (options : SharedBufferPoolOptions)
    : pprog (Result unit) :=
  let! magic := load_list magic_locs in
  if bool_decide (magic = string_codes kSharedBufferPoolLegacyMagic) then
    fail kAbiMismatch op_open "legacy pool ABI requires recreation"
  else if negb (bool_decide (magic = string_codes kSharedBufferPoolMagic)) then
    fail kCorruptHeader op_open "magic mismatch"
  else
  let! abi_major := plain_load (PField pf_abi_major) in
  let! abi_minor := plain_load (PField pf_abi_minor) in
  if negb (abi_major =? kSharedBufferPoolAbiMajor) || (kSharedBufferPoolAbiMinor <? abi_minor)
  then fail kAbiMismatch op_open "unsupported ABI version"
  else
  let! header_size := plain_load (PField pf_header_size) in
  let! endian_marker := plain_load (PField pf_endian_marker) in
  if negb (header_size =? kPoolHeaderSize)
     || negb (endian_marker =? kSharedBufferPoolEndianMarker) then
    fail kCorruptHeader op_open "header shape mismatch"
  else
  let! block_size := plain_load (PField pf_block_size) in
  let! block_count := plain_load (PField pf_block_count) in
  let! generation := plain_load (PField pf_generation) in
  let! nonce_hi := plain_load (PField pf_instance_nonce_hi) in
  let! nonce_lo := plain_load (PField pf_instance_nonce_lo) in
  let! schema_version := plain_load (PField pf_schema_version) in
  let! creator := load_creator in
  if negb (shared_buffer_pool_block_size_valid block_size) || (block_count =? 0)
     || (kSharedBufferPoolMaxBlockCount <? block_count) || (generation =? 0)
     || ((nonce_hi =? 0) && (nonce_lo =? 0)) || (schema_version =? 0)
     || negb (owner_valid creator) then
    fail kCorruptHeader op_open "invalid header values"
  else
  let! mapping_size := plain_load (PField pf_mapping_size) in
  if negb (bool_decide
             (shared_buffer_pool_mapping_size_for block_size block_count = Some mapping_size))
     || negb (actual_size =? mapping_size) then
    fail kCorruptHeader op_open "mapping size mismatch"
  else
  let! init := shared_load_acquire (PField pf_init_state) in
  if negb (init =? pi_kReady) then
    fail kInitializationIncomplete op_open "pool is not ready"
  else
  let! stored := plain_load (PField pf_header_checksum) in
  let! computed := header_checksum in
  if negb (stored =? computed) then fail kCorruptHeader op_open "header checksum mismatch"
  else if negb (block_size =? po_block_size options)
          || negb (block_count =? po_block_count options) then
    fail kInvalidOptions op_open "block layout mismatch"
  else
  let! same := same_schema (po_schema options) in
  if negb same then fail kSchemaMismatch op_open "schema mismatch"
  else Ret (Ok tt).

(** Returns the handle the shared pointer holds; its mapping is gone exactly
    when it was removed. *)
Definition validate_live_pool (handle : option SharedBufferPoolHandle) (operation : string)
    : pprog (Result SharedBufferPoolHandle) :=
  match handle with
  | None => fail kStaleHandle operation "pool handle is stale"
  | Some h =>
      if ph_removed h then fail kStaleHandle operation "pool handle is stale"
      else
        let! init := shared_load_acquire (PField pf_init_state) in
        if negb (init =? pi_kReady) then
          fail kInitializationIncomplete operation "pool is not ready"
        else Ret (Ok h)
  end.

Definition validate_descriptor (handle : option SharedBufferPoolHandle)
    (descriptor : BufferHandle) (operation : string)
    : pprog (Result SharedBufferPoolHandle) :=
  let? h := validate_live_pool handle operation in
  let! generation := plain_load (PField pf_generation) in
  let! nonce_hi := plain_load (PField pf_instance_nonce_hi) in
  let! nonce_lo := plain_load (PField pf_instance_nonce_lo) in
  if negb (bh_pool_generation descriptor =? generation)
     || negb (bh_instance_nonce_hi descriptor =? nonce_hi)
     || negb (bh_instance_nonce_lo descriptor =? nonce_lo) then
    fail kBufferInvalidHandle operation "pool generation or instance nonce mismatch"
  else
  let! schema := handle_schema_matches descriptor in
  if negb schema then fail kSchemaMismatch operation "buffer schema mismatch"
  else
  let! block_count := plain_load (PField pf_block_count) in
  let! block_size := plain_load (PField pf_block_size) in
  if negb (bh_reserved descriptor =? 0) || (block_count <=? bh_block_id descriptor)
     || negb (bh_length descriptor =? block_size) then
    fail kBufferInvalidHandle operation "block id or length is invalid"
  else
  let offsets :=
    shared_buffer_pool_block_offset_for block_size (bh_block_id descriptor) block_count in
  if match offsets with
     | None => true
     | Some (_, payload) => negb (bh_offset descriptor =? payload)
                            || (bh_block_generation descriptor =? 0)
     end then
    fail kBufferInvalidHandle operation "block offset or generation is invalid"
  else
  let! block := block_at h (bh_block_id descriptor) in
  match block with
  | None => fail kBufferInvalidHandle operation "block generation is stale"
  | Some b =>
      let! block_generation := shared_load_seq_cst (BGeneration b) in
      if negb (block_generation =? bh_block_generation descriptor) then
        fail kBufferInvalidHandle operation "block generation is stale"
      else Ret (Ok h)
  end.

(** Always an error. *)
Definition classify_active_block (handle : SharedBufferPoolHandle) (block : Z)
    (operation : string) : pprog Error :=
  let! observation := snapshot_block_owner block in
  match os_kind observation with
  | osk_Inactive | osk_Claiming | osk_Unstable =>
      Ret (make_error kBufferPoolContention operation "block owner snapshot is not stable")
  | osk_Corrupt | osk_EpochExhausted =>
      Ret (make_error kRecoveryBlocked operation "block owner protocol is not recoverable")
  | osk_Stable =>
      let owner := os_owner observation in
      if owner_matches owner (ph_self handle) then
        Ret (make_error kConcurrentHandleUse operation "block is owned by this process")
      else if negb (boot_id_hash_hi owner =? boot_id_hash_hi (ph_self handle))
              || negb (boot_id_hash_lo owner =? boot_id_hash_lo (ph_self handle)) then
        Ret (make_error kRecoveryBlocked operation "block owner belongs to another boot")
      else
        let! liveness := probe_liveness (pid owner) (proc_start_ticks owner) in
        Ret (if bool_decide (liveness = kAlive) then
               make_error kBufferPoolContention operation "block is owned by a live process"
             else
               make_error kRecoveryBlocked operation "block owner is dead or unverifiable")
  end.

(** * Open and create *)

Definition cleanup_created (shm_name : string) (dev ino : Z) : pprog (Result unit) :=
  if (dev =? 0) || (ino =? 0) then Ret (Ok tt)
  else shm_unlink_checked shm_name dev ino.

Definition cleanup_and_fail {A} (shm_name : string) (dev ino : Z) (e : Error)
    : pprog (Result A) :=
  do! cleanup_created shm_name dev ino; Ret (Err e).

Definition open_existing (options : SharedBufferPoolOptions)
    : pprog (Result SharedBufferPoolHandle) :=
  let? identity := read_current_process_identity in
  let! shm_name := pool_shm_name (po_name options) in
  let? fd := shm_open_existing shm_name in
  let? (dev, ino, size) := shm_fstat_and_capture fd in
  if size <? kPoolHeaderSize then
    fail kInitializationIncomplete op_open "object is smaller than the pool header"
  else
  let? _ := mmap_region fd size in
  let! init := shared_load_acquire (PField pf_init_state) in
  if negb (init =? pi_kReady) then
    fail kInitializationIncomplete op_open "creator did not commit READY"
  else
  let? _ := validate_header size options in
  Ret (Ok (mkPoolHandle (mkShmObject shm_name fd dev ino size) shm_name identity false false)).

Definition shared_buffer_pool_open_impl (options : SharedBufferPoolOptions)
    : pprog (Result SharedBufferPoolHandle) :=
  let? _ := lift (validate_options options) in
  open_existing options.

Definition random_u64 : pprog (option Z) :=
  let! bytes := random_bytes kRandomFuel 8 [] in
  Ret match bytes with SysErr _ => None | SysOk bs => Some (le_value bs) end.

(** The nonces; [None] is the failure of the identity or of the kernel's
    randomness. *)
Definition pool_nonces (self : ProcessIdentity) : pprog (option (Z * Z)) :=
  if negb (owner_valid (owner_from_process self)) then Ret None
  else
    let! hi := random_u64 in
    match hi with
    | None => Ret None
    | Some hi =>
        let! lo := random_u64 in
        Ret match lo with
            | None => None
            | Some lo => if (hi =? 0) && (lo =? 0) then None else Some (hi, lo)
            end
    end.

Definition init_header (options : SharedBufferPoolOptions) (mapping_size nonce_hi nonce_lo : Z)
    (self : ProcessIdentity) : pprog unit :=
  do! store_list (zip magic_locs (string_codes kSharedBufferPoolMagic));
  do! plain_store (PField pf_abi_major) kSharedBufferPoolAbiMajor;
  do! plain_store (PField pf_abi_minor) kSharedBufferPoolAbiMinor;
  do! plain_store (PField pf_endian_marker) kSharedBufferPoolEndianMarker;
  do! plain_store (PField pf_header_size) kPoolHeaderSize;
  do! plain_store (PField pf_block_size) (po_block_size options);
  do! plain_store (PField pf_block_count) (po_block_count options);
  do! plain_store (PField pf_mapping_size) mapping_size;
  do! plain_store (PField pf_generation) 1;
  do! plain_store (PField pf_instance_nonce_hi) nonce_hi;
  do! plain_store (PField pf_instance_nonce_lo) nonce_lo;
  do! store_list (zip fingerprint_locs (sd_fingerprint (po_schema options)));
  do! plain_store (PField pf_schema_version) (sd_version (po_schema options));
  do! store_list (map (fun f => (PCreator f, owner_get (owner_from_process self) f))
                    owner_fields);
  shared_store_relaxed (PField pf_init_state) pi_kInitializing.

Fixpoint init_blocks (block_size block_count : Z) (ids : list Z) : pprog bool :=
  match ids with
  | [] => Ret true
  | b :: ids' =>
      match shared_buffer_pool_block_offset_for block_size b block_count with
      | None => Ret false
      | Some _ =>
          do! shared_store_seq_cst (BState b) bs_kFree;
          do! shared_store_seq_cst (BGeneration b) 0;
          do! shared_store_seq_cst (BOwnerEpoch b) 0;
          init_blocks block_size block_count ids'
      end
  end.

Definition create_mapped (options : SharedBufferPoolOptions) (mapping_size : Z)
    (self : ProcessIdentity) (object : ShmObject) : pprog (Result SharedBufferPoolHandle) :=
  let cleanup e := cleanup_and_fail (so_name object) (so_dev object) (so_ino object) e in
  do! store_list (map (fun l => (l, 0))
                    (pool_segment_locs (po_block_size options) (po_block_count options)));
  let! nonces := pool_nonces self in
  match nonces with
  | None => cleanup (make_error kSystemError op_create "identity or nonce failed")
  | Some (hi, lo) =>
      do! init_header options mapping_size hi lo self;
      let! ok := init_blocks (po_block_size options) (po_block_count options)
                   (block_ids (po_block_count options)) in
      if negb ok then cleanup (make_error kInvalidOptions op_create "block offset overflow")
      else
      let! checksum := header_checksum in
      do! plain_store (PField pf_header_checksum) checksum;
      do! shared_store_release (PField pf_init_state) pi_kReady;
      Ret (Ok (mkPoolHandle object (so_name object) self true false))
  end.

Definition shared_buffer_pool_create_impl (options : SharedBufferPoolOptions)
    : pprog (Result SharedBufferPoolHandle) :=
  let? _ := lift (validate_options options) in
  let? self := read_current_process_identity in
  match shared_buffer_pool_mapping_size_for (po_block_size options) (po_block_count options) with
  | None => fail kInvalidOptions op_create "mapping size overflow"
  | Some mapping_size =>
      let! shm_name := pool_shm_name (po_name options) in
      let? fd := shm_open_create shm_name in
      let! stat := shm_fstat_and_capture fd in
      match stat with
      | Err stat_error =>
          let? (dev, ino) := shm_capture_created_identity fd in
          let! removed := shm_unlink_checked shm_name dev ino in
          match removed with
          | Err e => if negb (bool_decide (err_code e = kNotFound)) then Ret (Err e)
                     else Ret (Err stat_error)
          | Ok _ => Ret (Err stat_error)
          end
      | Ok (dev, ino, _) =>
          let! truncate := shm_truncate fd mapping_size in
          match truncate with
          | Err e => cleanup_and_fail shm_name dev ino e
          | Ok _ =>
              let! mapping := mmap_region fd mapping_size in
              match mapping with
              | Err e => cleanup_and_fail shm_name dev ino e
              | Ok _ =>
                  create_mapped options mapping_size self
                    (mkShmObject shm_name fd dev ino mapping_size)
              end
          end
      end
  end.

(** * Writing *)

Definition op_write : string := "SharedBufferPool::try_acquire_write".
Definition op_publish : string := "WriteBuffer::publish".
Definition op_read : string := "SharedBufferPool::acquire_read".

Definition block_terminal_state (result : OwnerCommitResult) : Z :=
  if bool_decide (result = oc_EpochExhausted) then bs_kEpochExhausted
  else bs_kOwnerProtocolFault.

(** What one block contributes to the scan: a buffer (or a final error), or the
    flags [saw_contention], [saw_recovery] and [saw_exhausted] to raise. *)
Inductive write_attempt : Type :=
| WaDone (r : Result WriteBuffer)
| WaNext (contention recovery exhausted : bool).

(** A block that could not commit an owner epoch. *)
Definition write_epoch_failed (b : Z) (result : OwnerCommitResult) : pprog write_attempt :=
  do! shared_store_seq_cst (BState b) (block_terminal_state result);
  Ret (if bool_decide (result = oc_EpochExhausted) then WaNext false false true
       else WaNext false true false).

(** The claimed block: generation, owner, [kWriting]. *)
Definition write_claimed (handle : SharedBufferPoolHandle) (b : Z) : pprog write_attempt :=
  let! previous_generation := shared_load_seq_cst (BGeneration b) in
  if previous_generation =? UINT64_MAX then
    do! shared_store_seq_cst (BState b) bs_kFree;
    Ret (WaNext false false true)
  else
  let! epoch_capacity := owner_epoch_capacity (BOwnerEpoch b) 4 in
  if negb (bool_decide (epoch_capacity = oc_Ready)) then write_epoch_failed b epoch_capacity
  else
  let! (owner_commit, committed_epoch) := begin_owner_commit (BOwnerEpoch b) 4 in
  if negb (bool_decide (owner_commit = oc_Ready)) then write_epoch_failed b owner_commit
  else
  do! shared_store_seq_cst (BGeneration b) (u64 (previous_generation + 1));
  do! set_owner (BOwner b) (ph_self handle);
  do! shared_store_seq_cst (BOwnerEpoch b) committed_epoch;
  do! shared_store_seq_cst (BState b) bs_kWriting;
  let! payload := payload_at handle b in
  match payload with
  | None =>
      do! shared_store_seq_cst (BState b) bs_kFree;
      Ret (WaDone (Err (make_error kCorruptSlot op_write "payload offset invalid")))
  | Some data =>
      let! descriptor := make_handle b b in
      let! block_size := plain_load (PField pf_block_size) in
      Ret (WaDone (Ok (mkWriteBuffer true (Some b) (Some data) block_size descriptor true)))
  end.

(** One round of the loop over the blocks. *)
Definition write_block (handle : SharedBufferPoolHandle) (block_id : Z) : pprog write_attempt :=
  let! block := block_at handle block_id in
  match block with
  | None => Ret (WaDone (Err (make_error kCorruptSlot op_write "block offset invalid")))
  | Some b =>
      let! state := shared_load_seq_cst (BState b) in
      if state =? bs_kPublished then Ret (WaNext false false false)
      else if negb (state =? bs_kFree) then
        if state =? bs_kEpochExhausted then Ret (WaNext false false true)
        else
          let! busy := classify_active_block handle b op_write in
          Ret (WaNext (bool_decide (err_code busy = kBufferPoolContention)
                       || bool_decide (err_code busy = kConcurrentHandleUse))
                      (bool_decide (err_code busy = kRecoveryBlocked)) false)
      else
        let! ok := shared_cas_seq_cst (BState b) bs_kFree bs_kWritingClaiming in
        if negb ok then Ret (WaNext true false false)
        else write_claimed handle b
  end.

Fixpoint write_blocks (handle : SharedBufferPoolHandle) (ids : list Z)
    (contention recovery exhausted : bool) : pprog (Result WriteBuffer) :=
  match ids with
  | [] =>
      if recovery then
        fail kRecoveryBlocked op_write "an active block owner is dead or unverifiable"
      else if exhausted then
        fail kSequenceExhausted op_write
          "all writable blocks exhausted their owner or generation epochs"
      else if contention then
        fail kBufferPoolContention op_write "all writable blocks are actively owned"
      else fail kBufferPoolFull op_write "all blocks are published or unavailable"
  | block_id :: ids' =>
      let! attempt := write_block handle block_id in
      match attempt with
      | WaDone r => Ret r
      | WaNext c r e =>
          write_blocks handle ids' (contention || c) (recovery || r) (exhausted || e)
      end
  end.

Definition shared_buffer_pool_try_acquire_write_impl (handle : option SharedBufferPoolHandle)
    : pprog (Result WriteBuffer) :=
  let? h := validate_live_pool handle op_write in
  let! block_count := plain_load (PField pf_block_count) in
  write_blocks h (block_ids block_count) false false false.

(** [buffer->active_ = false; ... pool_.reset();]. *)
Definition write_buffer_reset (buffer : WriteBuffer) : WriteBuffer :=
  mkWriteBuffer false None None (wb_size buffer) (wb_descriptor buffer) false.
Definition read_buffer_reset (buffer : ReadBuffer) : ReadBuffer :=
  mkReadBuffer false None None (rb_size buffer) (rb_descriptor buffer) false.

(** [pool] is the handle [buffer->pool_] points to; the buffer after the call is
    returned with the result. *)
Definition shared_buffer_pool_publish_write_impl (pool : SharedBufferPoolHandle)
    (buffer : option WriteBuffer) : pprog (Result BufferHandle * option WriteBuffer) :=
  let inactive := make_error kInvalidOptions op_publish "buffer inactive" in
  match buffer with
  | None => Ret (Err inactive, None)
  | Some buf =>
      match wb_block buf with
      | Some b =>
          if negb (wb_active buf) || negb (wb_pool buf) then Ret (Err inactive, Some buf)
          else
          let! valid := validate_live_pool (Some pool) op_publish in
          match valid with
          | Err e => Ret (Err e, Some buf)
          | Ok _ =>
          let! state := shared_load_seq_cst (BState b) in
          if negb (state =? bs_kWriting) then
            Ret (Err (make_error kBufferStateMismatch op_publish "block is not WRITING"),
                 Some buf)
          else
          let! observation := snapshot_block_owner b in
          if negb (bool_decide (os_kind observation = osk_Stable)) then
            Ret (Err (if bool_decide (os_kind observation = osk_Claiming)
                         || bool_decide (os_kind observation = osk_Unstable)
                      then make_error kBufferPoolContention op_publish
                             "write owner snapshot is not stable"
                      else make_error kRecoveryBlocked op_publish
                             "write owner protocol is not recoverable"), Some buf)
          else if negb (owner_matches (os_owner observation) (ph_self pool)) then
            Ret (Err (make_error kRecoveryBlocked op_publish "write owner identity changed"),
                 Some buf)
          else
          let! block_generation := shared_load_seq_cst (BGeneration b) in
          if negb (block_generation =? bh_block_generation (wb_descriptor buf)) then
            Ret (Err (make_error kBufferInvalidHandle op_publish "block generation changed"),
                 Some buf)
          else
          do! shared_store_seq_cst (BState b) bs_kPublished;
          Ret (Ok (wb_descriptor buf), Some (write_buffer_reset buf))
          end
      | None => Ret (Err inactive, Some buf)
      end
  end.

(** The common body of [abort] and [release]: give a block in state [expected]
    back when it is still this buffer's. *)
Definition give_back (pool : SharedBufferPoolHandle) (b expected generation : Z) : pprog unit :=
  let! observation := snapshot_block_owner b in
  if bool_decide (os_kind observation = osk_Stable) && (os_state observation =? expected)
     && owner_matches (os_owner observation) (ph_self pool) then
    let! block_generation := shared_load_seq_cst (BGeneration b) in
    if block_generation =? generation then shared_store_seq_cst (BState b) bs_kFree
    else Ret tt
  else Ret tt.

Definition shared_buffer_pool_abort_write_impl (pool : SharedBufferPoolHandle)
    (buffer : option WriteBuffer) : pprog (option WriteBuffer) :=
  match buffer with
  | None => Ret None
  | Some buf =>
      if negb (wb_active buf) then Ret (Some buf)
      else
        do! match wb_block buf with
            | Some b =>
                if wb_pool buf && negb (ph_removed pool) then
                  give_back pool b bs_kWriting (bh_block_generation (wb_descriptor buf))
                else Ret tt
            | None => Ret tt
            end;
        Ret (Some (write_buffer_reset buf))
  end.

(** * Reading *)

(** Give a claimed block back to the readers; [e] is the reason. *)
Definition read_rollback (b : Z) (lost : string) (e : Error) : pprog (Result ReadBuffer) :=
  let! restored := shared_cas_seq_cst (BState b) bs_kReadingClaiming bs_kPublished in
  if negb restored then fail kRecoveryBlocked op_read lost
  else Ret (Err e).

Definition read_epoch_failed (b : Z) (result : OwnerCommitResult) : pprog (Result ReadBuffer) :=
  read_rollback b "reader epoch rollback lost the reading claim"
    (if bool_decide (result = oc_EpochExhausted) then
       make_error kSequenceExhausted op_read
         "reader owner epoch exhausted; payload remains published"
     else make_error kRecoveryBlocked op_read "reader owner epoch protocol is corrupt").

(** The block claimed by this reader. *)
Definition read_claimed (handle : SharedBufferPoolHandle) (b data : Z)
    (descriptor : BufferHandle) : pprog (Result ReadBuffer) :=
  let! block_generation := shared_load_seq_cst (BGeneration b) in
  if negb (block_generation =? bh_block_generation descriptor) then
    read_rollback b "generation rollback lost the reading claim"
      (make_error kBufferInvalidHandle op_read "block generation changed after read claim")
  else
  let! epoch_capacity := owner_epoch_capacity (BOwnerEpoch b) 2 in
  if negb (bool_decide (epoch_capacity = oc_Ready)) then read_epoch_failed b epoch_capacity
  else
  let! (owner_commit, committed_epoch) := begin_owner_commit (BOwnerEpoch b) 2 in
  if negb (bool_decide (owner_commit = oc_Ready)) then read_epoch_failed b owner_commit
  else
  do! set_owner (BOwner b) (ph_self handle);
  do! shared_store_seq_cst (BOwnerEpoch b) committed_epoch;
  do! shared_store_seq_cst (BState b) bs_kReading;
  Ret (Ok (mkReadBuffer true (Some b) (Some data) (bh_length descriptor) descriptor true)).

Definition shared_buffer_pool_acquire_read_impl (handle : option SharedBufferPoolHandle)
    (descriptor : BufferHandle) : pprog (Result ReadBuffer) :=
  let? h := validate_descriptor handle descriptor op_read in
  let! block := block_at h (bh_block_id descriptor) in
  let! payload := payload_at h (bh_block_id descriptor) in
  match block, payload with
  | Some b, Some data =>
      let! state := shared_load_seq_cst (BState b) in
      if negb (state =? bs_kPublished) then
        if state =? bs_kFree then
          fail kBufferStateMismatch op_read "block is not PUBLISHED"
        else
          let! e := classify_active_block h b op_read in
          Ret (Err e)
      else
      let! block_generation := shared_load_seq_cst (BGeneration b) in
      if negb (block_generation =? bh_block_generation descriptor) then
        fail kBufferInvalidHandle op_read "block generation changed"
      else
      let! ok := shared_cas_seq_cst (BState b) bs_kPublished bs_kReadingClaiming in
      if negb ok then
        fail kBufferPoolContention op_read "published block was claimed concurrently"
      else read_claimed h b data descriptor
  | _, _ => fail kCorruptSlot op_read "block offset invalid"
  end.

Definition shared_buffer_pool_release_read_impl (pool : SharedBufferPoolHandle)
    (buffer : option ReadBuffer) : pprog (option ReadBuffer) :=
  match buffer with
  | None => Ret None
  | Some buf =>
      if negb (rb_active buf) then Ret (Some buf)
      else
        do! match rb_block buf with
            | Some b =>
                if rb_pool buf && negb (ph_removed pool) then
                  give_back pool b bs_kReading (bh_block_generation (rb_descriptor buf))
                else Ret tt
            | None => Ret tt
            end;
        Ret (Some (read_buffer_reset buf))
  end.

(** * Moving buffers *)

(** The move constructor: the new buffer and what is left of the old one. *)
Definition write_buffer_move (other : WriteBuffer) : WriteBuffer * WriteBuffer :=
  (mkWriteBuffer (wb_pool other) (wb_block other) (wb_data other) (wb_size other)
     (wb_descriptor other) (wb_active other),
   mkWriteBuffer false None None 0 empty_buffer_handle false).
Definition read_buffer_move (other : ReadBuffer) : ReadBuffer * ReadBuffer :=
  (mkReadBuffer (rb_pool other) (rb_block other) (rb_data other) (rb_size other)
     (rb_descriptor other) (rb_active other),
   mkReadBuffer false None None 0 empty_buffer_handle false).

(** The move assignment from another buffer: what was held is given up first. *)
Definition write_buffer_move_assign (pool : SharedBufferPoolHandle) (this other : WriteBuffer)
    : pprog (WriteBuffer * WriteBuffer) :=
  do! shared_buffer_pool_abort_write_impl pool (Some this);
  Ret (write_buffer_move other).
Definition read_buffer_move_assign (pool : SharedBufferPoolHandle) (this other : ReadBuffer)
    : pprog (ReadBuffer * ReadBuffer) :=
  do! shared_buffer_pool_release_read_impl pool (Some this);
  Ret (read_buffer_move other).

(** * Status and removal *)

Definition op_status : string := "SharedBufferPool::status".
Definition op_remove : string := "SharedBufferPool::remove_if_creator".

(** The block counters of the status: free, writing, published, reading,
    recovery-blocked. *)
Record block_counts : Type := mkCounts {
  bc_free : Z; bc_writing : Z; bc_published : Z; bc_reading : Z; bc_blocked : Z
}.

Definition add_counts (a b : block_counts) : block_counts :=
  mkCounts (bc_free a + bc_free b) (bc_writing a + bc_writing b)
    (bc_published a + bc_published b) (bc_reading a + bc_reading b)
    (bc_blocked a + bc_blocked b).

(** An owned block, by its stable owner snapshot. *)
Definition status_owned (handle : SharedBufferPoolHandle) (b : Z)
    : pprog (Result block_counts) :=
  let! observation := snapshot_block_owner b in
  match os_kind observation with
  | osk_Stable =>
      match (if os_state observation =? bs_kWriting then Some (mkCounts 0 1 0 0 0)
             else if os_state observation =? bs_kReading then Some (mkCounts 0 0 0 1 0)
             else None) with
      | None => fail kCorruptSlot op_status "stable owner snapshot has invalid state"
      | Some counts =>
          let owner := os_owner observation in
          let! blocked :=
            if negb (boot_id_hash_hi owner =? boot_id_hash_hi (ph_self handle))
               || negb (boot_id_hash_lo owner =? boot_id_hash_lo (ph_self handle))
            then Ret true
            else
              let! liveness := probe_liveness (pid owner) (proc_start_ticks owner) in
              Ret (negb (bool_decide (liveness = kAlive))) in
          Ret (Ok (if blocked then add_counts counts (mkCounts 0 0 0 0 1) else counts))
      end
  | osk_Inactive | osk_Claiming | osk_Unstable =>
      fail kBufferPoolContention op_status "block owner snapshot is not stable"
  | osk_Corrupt | osk_EpochExhausted =>
      fail kRecoveryBlocked op_status "block owner protocol is not recoverable"
  end.

Definition status_block (handle : SharedBufferPoolHandle) (block_id : Z)
    : pprog (Result block_counts) :=
  let! block := block_at handle block_id in
  match block with
  | None => fail kCorruptSlot op_status "block offset invalid"
  | Some b =>
      let! state := shared_load_seq_cst (BState b) in
      if state =? bs_kFree then Ret (Ok (mkCounts 1 0 0 0 0))
      else if state =? bs_kPublished then Ret (Ok (mkCounts 0 0 1 0 0))
      else if (state =? bs_kWriting) || (state =? bs_kReading) then status_owned handle b
      else if (state =? bs_kWritingClaiming) || (state =? bs_kReadingClaiming) then
        fail kBufferPoolContention op_status "block owner claim is being committed"
      else if (state =? bs_kEpochExhausted) || (state =? bs_kOwnerProtocolFault) then
        fail kRecoveryBlocked op_status "block owner protocol is not recoverable"
      else fail kCorruptSlot op_status "invalid block state"
  end.

Fixpoint status_blocks (handle : SharedBufferPoolHandle) (ids : list Z) (acc : block_counts)
    : pprog (Result block_counts) :=
  match ids with
  | [] => Ret (Ok acc)
  | block_id :: ids' =>
      let? counts := status_block handle block_id in
      status_blocks handle ids' (add_counts acc counts)
  end.

Definition shared_buffer_pool_status_impl (handle : option SharedBufferPoolHandle)
    : pprog (Result SharedBufferPoolStatus) :=
  let? h := validate_live_pool handle op_status in
  let! abi_major := plain_load (PField pf_abi_major) in
  let! abi_minor := plain_load (PField pf_abi_minor) in
  let! block_size := plain_load (PField pf_block_size) in
  let! block_count := plain_load (PField pf_block_count) in
  let! mapping_size := plain_load (PField pf_mapping_size) in
  let! generation := plain_load (PField pf_generation) in
  let! nonce_hi := plain_load (PField pf_instance_nonce_hi) in
  let! nonce_lo := plain_load (PField pf_instance_nonce_lo) in
  let! creator := load_creator in
  let! creator_alive :=
    if owner_valid creator && (boot_id_hash_hi creator =? boot_id_hash_hi (ph_self h))
       && (boot_id_hash_lo creator =? boot_id_hash_lo (ph_self h)) then
      let! liveness := probe_liveness (pid creator) (proc_start_ticks creator) in
      Ret (bool_decide (liveness = kAlive))
    else Ret false in
  let? counts := status_blocks h (block_ids block_count) (mkCounts 0 0 0 0 0) in
  Ret (Ok (mkPoolStatus true abi_major abi_minor block_size block_count mapping_size generation
             nonce_hi nonce_lo (bc_free counts) (bc_writing counts) (bc_published counts)
             (bc_reading counts) (bc_blocked counts) (pid creator) creator_alive)).

(** [Ok] when every block is free. *)
Fixpoint remove_check_blocks (handle : SharedBufferPoolHandle) (ids : list Z)
    : pprog (Result unit) :=
  match ids with
  | [] => Ret (Ok tt)
  | block_id :: ids' =>
      let! block := block_at handle block_id in
      match block with
      | None => fail kCorruptSlot op_remove "block offset invalid"
      | Some b =>
          let! state := shared_load_seq_cst (BState b) in
          if state =? bs_kFree then remove_check_blocks handle ids'
          else if state =? bs_kPublished then
            fail kBufferPoolContention op_remove "pool still has published blocks"
          else
            let! observation := snapshot_block_owner b in
            if bool_decide (os_kind observation = osk_Corrupt)
               || bool_decide (os_kind observation = osk_EpochExhausted) then
              fail kRecoveryBlocked op_remove "block owner protocol is not recoverable"
            else fail kBufferPoolContention op_remove "pool still has active blocks"
      end
  end.

(** [Ok h'] is the handle with [removed] set. *)
Definition shared_buffer_pool_remove_if_creator_impl (handle : option SharedBufferPoolHandle)
    : pprog (Result SharedBufferPoolHandle) :=
  let? h := validate_live_pool handle op_remove in
  let! creator := load_creator in
  if negb (owner_matches creator (ph_self h)) then
    fail kPermissionDenied op_remove "handle is not the creator"
  else
  let! block_count := plain_load (PField pf_block_count) in
  let? _ := remove_check_blocks h (block_ids block_count) in
  let? _ := shm_unlink_checked (ph_shm_name h) (so_dev (ph_object h)) (so_ino (ph_object h)) in
  Ret (Ok (mkPoolHandle (ph_object h) (ph_shm_name h) (ph_self h) (ph_created h) true)).

Definition pool_live (handle : option SharedBufferPoolHandle) : bool :=
  match handle with None => false | Some h => negb (ph_removed h) end.

Definition shared_buffer_pool_block_size_impl (handle : option SharedBufferPoolHandle)
    : pprog Z :=
  if pool_live handle then plain_load (PField pf_block_size) else Ret 0.
Definition shared_buffer_pool_block_count_impl (handle : option SharedBufferPoolHandle)
    : pprog Z :=
  if pool_live handle then plain_load (PField pf_block_count) else Ret 0.
Definition shared_buffer_pool_generation_impl (handle : option SharedBufferPoolHandle)
    : pprog Z :=
  if pool_live handle then plain_load (PField pf_generation) else Ret 0.
