(* ===== verification/PoolProtocol.v ===== *)
(** The contract between the threads and processes that share a buffer pool.

    The history variables say, for every block, which thread holds it and as what
    (writer or reader), the thread that published each generation with the bytes
    it published, and the thread that read each generation. [pinv] ties them to the memory; [prely t]
    says that the blocks [t] holds are its own. What a thread has is a list of
    [asset]s, kept by the rely and moved by the lemmas [step_*], one for every
    kind of write the code makes. *)
From S2P Require Import Prelude Errors Prog Concur ProcIdentity OwnerSnapshot.
From S2P Require Import ShmObject PoolLayout SharedBufferPool.

(** [true] is the writer's role. *)
Record pghost : Type := mkPGhost {
  pg_holder : Z -> option (tid * bool);
  pg_pub : Z -> Z -> option (tid * list Z);
  pg_taken : Z -> Z -> option tid
}.

Abbreviation pst := (cst ploc pghost).

(** What the contract sees of one block. *)
Record bview : Type := mkView {
  v_holder : option (tid * bool);
  v_state : Z;
  v_gen : Z;
  v_payload : list Z;
  v_pub : Z -> option (tid * list Z);
  v_taken : Z -> option tid
}.

Section Protocol.
Context (bsz cnt : Z).

Definition payload_of (m : ploc -> Z) (b : Z) : list Z :=
  map (fun j => m (BPayload b j)) (seq 0 (Z.to_nat bsz)).

Definition view_of (m : ploc -> Z) (g : pghost) (b : Z) : bview :=
  mkView (pg_holder g b) (m (BState b)) (m (BGeneration b)) (payload_of m b) (pg_pub g b)
    (pg_taken g b).
Definition view (s : pst) (b : Z) : bview := view_of (c_mem s) (c_gh s) b.

(** The block after thread [t] stores state [v]. *)
Definition view_state (t : tid) (v : Z) (w : bview) : bview :=
  mkView
    (if v =? bs_kWritingClaiming then Some (t, true)
     else if v =? bs_kReadingClaiming then Some (t, false)
     else if (v =? bs_kWriting) || (v =? bs_kReading) then v_holder w
     else None)
    v (v_gen w) (v_payload w)
    (match v_holder w with
     | Some (_, true) =>
         if v =? bs_kPublished then upd (v_gen w) (Some (t, v_payload w)) (v_pub w) else v_pub w
     | _ => v_pub w
     end)
    (if v =? bs_kReading then upd (v_gen w) (Some t) (v_taken w) else v_taken w).

Definition pghost_step (t : tid) (l : ploc) (v : Z) (m : ploc -> Z) (g : pghost) : pghost :=
  match l with
  | BState b =>
      let w := view_state t v (view_of m g b) in
      mkPGhost (upd b (v_holder w) (pg_holder g)) (upd b (v_pub w) (pg_pub g))
        (upd b (v_taken w) (pg_taken g))
  | _ => g
  end.

(** * The invariant *)

Record binv (w : bview) : Prop := {
  bi_gen : 0 <= v_gen w <= UINT64_MAX;
  bi_holder :
    match v_holder w with
    | None => v_state w = bs_kFree \/ v_state w = bs_kPublished \/
              v_state w = bs_kEpochExhausted \/ v_state w = bs_kOwnerProtocolFault
    | Some (_, true) => v_state w = bs_kWritingClaiming \/ v_state w = bs_kWriting
    | Some (_, false) => v_state w = bs_kReadingClaiming \/ v_state w = bs_kReading
    end;
  bi_pub_le : forall g, v_pub w g <> None -> g <= v_gen w;
  bi_pub : v_state w = bs_kPublished \/ v_state w = bs_kReadingClaiming \/
           v_state w = bs_kReading -> exists u, v_pub w (v_gen w) = Some (u, v_payload w);
  bi_taken : forall g, v_taken w g <> None -> v_pub w g <> None;
  bi_untaken : v_state w = bs_kPublished \/ v_state w = bs_kReadingClaiming ->
               v_taken w (v_gen w) = None
}.

Record pinv (s : pst) : Prop := {
  pi_block_size : c_mem s (PField pf_block_size) = bsz;
  pi_block_count : c_mem s (PField pf_block_count) = cnt;
  pi_ready : c_mem s (PField pf_init_state) = pi_kReady;
  pi_blocks : forall b, 0 <= b < cnt -> binv (view s b)
}.

(** Publications and readings are remembered. *)
Definition mono (w w' : bview) : Prop :=
  (forall g x, v_pub w g = Some x -> v_pub w' g = Some x) /\
  (forall g u, v_taken w g = Some u -> v_taken w' g = Some u).

Definition prely (t : tid) (s s' : pst) : Prop :=
  forall b, mono (view s b) (view s' b) /\
    (forall r, v_holder (view s b) = Some (t, r) -> view s' b = view s b).

Lemma mono_refl w : mono w w.
Proof. by split. Qed.
Lemma mono_trans w1 w2 w3 : mono w1 w2 -> mono w2 w3 -> mono w1 w3.
Proof. intros [H1 H1'] [H2 H2']. split; eauto. Qed.

Lemma prely_refl t s : prely t s s.
Proof. intros b. split; [apply mono_refl|done]. Qed.
Lemma prely_trans t s1 s2 s3 : prely t s1 s2 -> prely t s2 s3 -> prely t s1 s3.
Proof.
  intros H1 H2 b. destruct (H1 b) as [M1 V1]. destruct (H2 b) as [M2 V2].
  split; [by eapply mono_trans|]. intros r Hr. pose proof (V1 r Hr) as E1.
  rewrite <- E1 in Hr. by rewrite (V2 r Hr).
Qed.

#[local] Instance pool_protocol : Protocol ploc pghost := {|
  p_ghost := pghost_step;
  p_inv := pinv;
  p_rely := prely;
  p_rely_refl := prely_refl;
  p_rely_trans := prely_trans
|}.

(** * Writes seen through the views *)

Lemma pwrite_mem t l v s : c_mem (write t l v s) = upd l v (c_mem s).
Proof. done. Qed.
Lemma pwrite_gh t l v s : c_gh (write t l v s) = pghost_step t l v (c_mem s) (c_gh s).
Proof. done. Qed.

Lemma block_payload_upd m l v b :
  (forall j, l <> BPayload b j) -> payload_of (upd l v m) b = payload_of m b.
Proof. intros Hl. unfold payload_of. apply map_ext. intros j. by rewrite upd_ne. Qed.

Lemma view_other t l v s b : ploc_block l <> Some b -> view (write t l v s) b = view s b.
Proof.
  intros Hl. unfold view, view_of. rewrite pwrite_mem, pwrite_gh.
  rewrite block_payload_upd by (intros j ->; by apply Hl).
  rewrite !upd_ne by (intros <-; by apply Hl).
  destruct l; try done. simpl. rewrite !upd_ne; [done|..]; intros ->; by apply Hl.
Qed.

Lemma view_write_state t b v s : view (write t (BState b) v s) b = view_state t v (view s b).
Proof.
  unfold view, view_of. rewrite pwrite_mem, pwrite_gh. rewrite block_payload_upd by done. simpl.
  rewrite !upd_eq, upd_ne by done. done.
Qed.

Lemma view_write_gen t b v s :
  view (write t (BGeneration b) v s) b =
  let w := view s b in
  mkView (v_holder w) (v_state w) v (v_payload w) (v_pub w) (v_taken w).
Proof.
  unfold view, view_of. rewrite pwrite_mem, pwrite_gh. rewrite block_payload_upd by done. simpl.
  by rewrite upd_eq, upd_ne.
Qed.

Lemma view_write_payload t b j v s :
  view (write t (BPayload b j) v s) b =
  let w := view s b in
  mkView (v_holder w) (v_state w) (v_gen w) (payload_of (upd (BPayload b j) v (c_mem s)) b)
    (v_pub w) (v_taken w).
Proof.
  unfold view, view_of. rewrite pwrite_mem, pwrite_gh. simpl. by rewrite !upd_ne.
Qed.

(** Owner words are not part of the contract. *)
Lemma view_write_owner t l v s b :
  match l with BOwner _ _ | BOwnerEpoch _ => True | _ => False end ->
  view (write t l v s) b = view s b.
Proof.
  intros Hl. unfold view, view_of. rewrite pwrite_mem, pwrite_gh.
  rewrite block_payload_upd by (by intros j ->). rewrite !upd_ne by (by intros <-). by destruct l.
Qed.

Lemma view_payload_length s b : length (v_payload (view s b)) = Z.to_nat bsz.
Proof. unfold view, payload_of. simpl. unfold payload_of. by rewrite length_map, length_seq. Qed.

#[local] Opaque view.

(** A step of [t] on block [b] keeps the contract. *)
Lemma step_guarantee t s l v b :
  pinv s -> ploc_block l = Some b ->
  let s' := write t l v s in
  (forall u r, v_holder (view s b) = Some (u, r) -> u = t) ->
  mono (view s b) (view s' b) -> (0 <= b < cnt -> binv (view s' b)) -> guarantee t s s'.
Proof.
  intros Hi Hl s' Hh Hm Hb. split.
  - destruct Hi as [H1 H2 H3 H4].
    split; [subst s'; rewrite pwrite_mem, upd_ne; [done|by intros <-]..|].
    intros b' Hb'. destruct (decide (b' = b)) as [->|Hne]; [by apply Hb|].
    subst s'. rewrite view_other; [by apply H4|congruence].
  - intros u Hu b'. destruct (decide (b' = b)) as [->|Hne].
    + split; [done|]. intros r Hr. by rewrite (Hh u r Hr) in Hu.
    + assert (view s' b' = view s b') as -> by (apply view_other; congruence).
      split; [apply mono_refl|done].
Qed.

(** * What a thread has *)

(** [AHold]: the block, the role, its state and generation, whether the
    generation is yet unpublished, and the first payload bytes. [APub]: the
    generation was published with bytes that begin with [content]. [AAuthor] and
    [ATaken]: this thread published, or took, the generation. *)
Inductive asset : Type :=
| AHold (b : Z) (writer : bool) (state gen : Z) (fresh : bool) (content : list Z)
| APub (b gen : Z) (content : list Z)
| AAuthor (b gen : Z)
| ATaken (b gen : Z).

Definition asset_ok (t : tid) (s : pst) (a : asset) : Prop :=
  match a with
  | AHold b writer st g fresh content =>
      0 <= b < cnt /\ v_holder (view s b) = Some (t, writer) /\ v_state (view s b) = st /\
      v_gen (view s b) = g /\ (fresh = true -> v_pub (view s b) g = None) /\
      content `prefix_of` v_payload (view s b)
  | APub b g content =>
      exists u bytes, v_pub (view s b) g = Some (u, bytes) /\ content `prefix_of` bytes /\
        length bytes = Z.to_nat bsz
  | AAuthor b g => exists bytes, v_pub (view s b) g = Some (t, bytes)
  | ATaken b g => v_taken (view s b) g = Some t
  end.

(** The block an asset holds. *)
Definition asset_block (a : asset) : option Z :=
  match a with AHold b _ _ _ _ _ => Some b | _ => None end.

(** The generation an asset published ([true]) or took. *)
Definition asset_token (a : asset) : option (bool * Z * Z) :=
  match a with
  | AAuthor b g => Some (true, b, g)
  | ATaken b g => Some (false, b, g)
  | _ => None
  end.

Record Own (t : tid) (A : list asset) (s : pst) : Prop := {
  own_ok : Forall (asset_ok t s) A;
  own_blocks : NoDup (omap asset_block A);
  own_tokens : NoDup (omap asset_token A)
}.

#[global] Instance Own_proper t : Proper ((≡ₚ) ==> (=) ==> iff) (Own t).
Proof.
  intros A A' HA s s' <-. split; intros [H1 H2 H3]; split;
    [by rewrite <- HA|by rewrite <- HA|by rewrite <- HA|by rewrite HA|by rewrite HA|by rewrite HA].
Qed.

Lemma asset_rely t a s s' : asset_ok t s a -> prely t s s' -> asset_ok t s' a.
Proof.
  intros Ha Hr. destruct a as [b wr st g f c|b g c|b g|b g]; cbn [asset_ok] in *;
    destruct (Hr b) as [[Hp Ht] Hv].
  - destruct Ha as (Hb & Hh & Ha). rewrite (Hv wr Hh). done.
  - destruct Ha as (u & bytes & Ha & Hc). exists u, bytes. eauto.
  - destruct Ha as (bytes & Ha). eauto.
  - by apply Ht.
Qed.

Lemma Own_stable t A : stable t (Own t A).
Proof.
  intros s s' [H1 H2 H3] Hr _. split; [|done|done]. eapply Forall_impl; [exact H1|].
  intros a Ha. by eapply asset_rely.
Qed.

(** Giving something up. *)
Lemma Own_drop t a A s : Own t (a :: A) s -> Own t A s.
Proof.
  intros [H1 H2 H3]. apply Forall_cons in H1 as [_ H1]. split; [done|..].
  - destruct a; simpl in H2; try done. by apply NoDup_cons in H2 as [_ ?].
  - destruct a; simpl in H3; try done; by apply NoDup_cons in H3 as [_ ?].
Qed.

(** Assets on other blocks survive a step. *)
Lemma Own_step t A s s' b :
  Own t A s -> b ∉ omap asset_block A ->
  (forall b', b' <> b -> view s' b' = view s b') -> mono (view s b) (view s' b) -> Own t A s'.
Proof.
  intros [H1 H2 H3] Hb Hv [Hp Ht]. split; [|done|done].
  rewrite Forall_forall in H1 |- *. intros a Ha. specialize (H1 a Ha).
  destruct a as [b' wr st g f c|b' g c|b' g|b' g]; cbn [asset_ok] in *;
    destruct (decide (b' = b)) as [->|Hne]; try (rewrite Hv by done; done); auto.
  - exfalso. apply Hb. apply list_elem_of_omap. by eexists.
  - destruct H1 as (u & bytes & H1 & Hc). exists u, bytes. eauto.
  - destruct H1 as (bytes & H1). eauto.
Qed.

(** ** Steps on a block that is held *)

Section Held.
Context (t : tid) (A : list asset) (b : Z) (wr : bool) (st g : Z) (fresh : bool) (c : list Z).
Context (s : pst) (l : ploc) (v : Z).
Hypothesis Hi : pinv s.
Hypothesis Ho : Own t (AHold b wr st g fresh c :: A) s.
Hypothesis Hl : ploc_block l = Some b.
Let s' := write t l v s.
Hypothesis Hm : mono (view s b) (view s' b).

Lemma held_asset : asset_ok t s (AHold b wr st g fresh c).
Proof. destruct Ho as [H _ _]. by apply Forall_cons in H as [? _]. Qed.

Lemma held_guarantee : binv (view s' b) -> guarantee t s s'.
Proof.
  intros Hb. eapply step_guarantee; [done|exact Hl| |done|done].
  intros u r Hr. destruct held_asset as (_ & Hh & _). rewrite Hh in Hr. by injection Hr.
Qed.

Lemma held_rest : Own t A s'.
Proof.
  eapply (Own_step t A s s' b); [by eapply Own_drop| |intros b' Hb'; apply view_other; congruence|done].
  destruct Ho as [_ H _]. simpl in H. by apply NoDup_cons in H as [? _].
Qed.

Lemma held_keep wr' st' g' fresh' c' :
  asset_ok t s' (AHold b wr' st' g' fresh' c') ->
  Own t (AHold b wr' st' g' fresh' c' :: A) s'.
Proof.
  intros Ha. destruct held_rest as [H1 H2 H3]. split; [by constructor| |done].
  by destruct Ho as [_ H _].
Qed.
End Held.

(** Taking a block that nobody holds. *)
Lemma step_take t A b (wr : bool) s :
  pinv s -> Own t A s -> 0 <= b < cnt ->
  v_state (view s b) = (if wr then bs_kFree else bs_kPublished) ->
  let s' := write t (BState b) (if wr then bs_kWritingClaiming else bs_kReadingClaiming) s in
  guarantee t s s' /\
  Own t (AHold b wr (if wr then bs_kWritingClaiming else bs_kReadingClaiming)
           (v_gen (view s b)) false [] :: A) s'.
Proof.
  intros Hi Ho Hb Hst s'. pose proof (pi_blocks _ Hi b Hb) as [Hg Hh Hle Hpub Htk Hun].
  assert (v_holder (view s b) = None) as Hnone.
  { rewrite Hst in Hh. destruct (v_holder (view s b)) as [[u []]|]; [|..|done];
      destruct wr; destruct Hh as [Hh|Hh]; done. }
  assert (view s' b = mkView (Some (t, wr))
    (if wr then bs_kWritingClaiming else bs_kReadingClaiming) (v_gen (view s b))
    (v_payload (view s b)) (v_pub (view s b)) (v_taken (view s b))) as Hv.
  { subst s'. rewrite view_write_state. unfold view_state. rewrite Hnone. by destruct wr. }
  assert (mono (view s b) (view s' b)) as Hm by (rewrite Hv; by split).
  split.
  - eapply step_guarantee; [done|done|intros u r Hr; by rewrite Hnone in Hr|done|].
    intros _. fold s'. rewrite Hv. destruct wr; split; simpl; auto; try (by intros [|[|]]).
    by intros [|].
  - destruct Ho as [H1 H2 H3].
    assert (b ∉ omap asset_block A) as Hn.
    { intros (a & Ha & Hab)%list_elem_of_omap. rewrite Forall_forall in H1.
      specialize (H1 a Ha). destruct a; simplify_eq/=. destruct H1 as (_ & H1 & _).
      congruence. }
    destruct (Own_step t A s s' b (Build_Own _ _ _ H1 H2 H3) Hn) as [H1' _ _];
      [intros b' Hb'; apply view_other; simpl; congruence|done|].
    split; [|by constructor|done]. constructor; [|done]. cbn [asset_ok]. rewrite Hv. simpl.
    repeat split; try done; try lia. apply prefix_nil.
Qed.

(** The invariant of a held block. *)
Lemma held_inv t A b wr st g fresh c s :
  pinv s -> Own t (AHold b wr st g fresh c :: A) s ->
  asset_ok t s (AHold b wr st g fresh c) /\ binv (view s b).
Proof.
  intros Hi Ho. pose proof (held_asset _ _ _ _ _ _ _ _ _ Ho) as Ha. split; [done|].
  apply Hi. apply Ha.
Qed.

(** The next generation of a claimed block is fresh. *)
Lemma step_generation t A b g c s :
  pinv s -> Own t (AHold b true bs_kWritingClaiming g false c :: A) s -> g < UINT64_MAX ->
  let s' := write t (BGeneration b) (g + 1) s in
  guarantee t s s' /\ Own t (AHold b true bs_kWritingClaiming (g + 1) true [] :: A) s'.
Proof.
  intros Hi Ho Hg s'. destruct (held_inv _ _ _ _ _ _ _ _ _ Hi Ho)
    as [(Hb & Hh & Hst & Hgen & _) [Bg Bh Ble Bpub Btk Bun]].
  pose proof (view_write_gen t b (g + 1) s) as Hv. fold s' in Hv. cbv zeta in Hv.
  assert (mono (view s b) (view s' b)) as Hm by (rewrite Hv; by split).
  assert (v_pub (view s b) (g + 1) = None) as Hfresh.
  { destruct (v_pub (view s b) (g + 1)) eqn:E; [|done].
    assert (g + 1 <= v_gen (view s b)) by (apply Ble; by rewrite E). lia. }
  split.
  - eapply (held_guarantee _ _ _ _ _ _ _ _ _ _ _ Hi Ho); [done|done|]. fold s'. rewrite Hv.
    rewrite Hst in *. rewrite Hh in *. split; simpl; try done.
    + lia.
    + intros g' Hg'. specialize (Ble g' Hg'). lia.
    + by intros [|[|]].
    + by intros [|].
  - eapply held_keep; [exact Ho|done|done|]. fold s'. cbn [asset_ok]. rewrite Hv. simpl.
    repeat split; try done; try lia. apply prefix_nil.
Qed.

(** The owner is committed: writing. *)
Lemma step_writing t A b g c s :
  pinv s -> Own t (AHold b true bs_kWritingClaiming g true c :: A) s ->
  let s' := write t (BState b) bs_kWriting s in
  guarantee t s s' /\ Own t (AHold b true bs_kWriting g true c :: A) s'.
Proof.
  intros Hi Ho s'. destruct (held_inv _ _ _ _ _ _ _ _ _ Hi Ho)
    as [(Hb & Hh & Hst & Hgen & Hfr & Hc) [Bg Bh Ble Bpub Btk Bun]].
  pose proof (view_write_state t b bs_kWriting s) as Hv. fold s' in Hv.
  unfold view_state in Hv. rewrite Hh in Hv. simpl in Hv.
  assert (mono (view s b) (view s' b)) as Hm by (rewrite Hv; by split).
  split.
  - eapply (held_guarantee _ _ _ _ _ _ _ _ _ _ _ Hi Ho); [done|done|]. fold s'. rewrite Hv.
    split; simpl; auto; [by intros [|[|]]|by intros [|]].
  - eapply held_keep; [exact Ho|done|done|]. fold s'. cbn [asset_ok]. rewrite Hv. by simpl.
Qed.

(** Giving a block up without a publication: free, or out of service. *)
Lemma step_give_up t A b wr st g fresh c v s :
  pinv s -> Own t (AHold b wr st g fresh c :: A) s ->
  v = bs_kFree \/ v = bs_kEpochExhausted \/ v = bs_kOwnerProtocolFault ->
  let s' := write t (BState b) v s in
  guarantee t s s' /\ Own t A s'.
Proof.
  intros Hi Ho Hval s'. destruct (held_inv _ _ _ _ _ _ _ _ _ Hi Ho)
    as [(Hb & Hh & Hst & Hgen & Hfr & Hc) [Bg Bh Ble Bpub Btk Bun]].
  pose proof (view_write_state t b v s) as Hv. fold s' in Hv. unfold view_state in Hv.
  rewrite Hh in Hv.
  assert (view s' b = mkView None v (v_gen (view s b)) (v_payload (view s b)) (v_pub (view s b))
            (v_taken (view s b))) as Hv'.
  { rewrite Hv. destruct Hval as [->|[->| ->]]; simpl; by destruct wr. }
  assert (mono (view s b) (view s' b)) as Hm by (rewrite Hv'; by split).
  split.
  - eapply (held_guarantee _ _ _ _ _ _ _ _ _ _ _ Hi Ho); [done|done|]. fold s'. rewrite Hv'.
    split; simpl; auto.
    + destruct Hval as [->|[->| ->]]; auto.
    + destruct Hval as [->|[->| ->]]; by intros [|[|]].
    + destruct Hval as [->|[->| ->]]; by intros [|].
  - by eapply held_rest.
Qed.

(** A token that does not hold yet is not among the assets. *)
Lemma token_fresh t A s (author : bool) b g :
  Own t A s -> ~ asset_ok t s (if author then AAuthor b g else ATaken b g) ->
  (author, b, g) ∉ omap asset_token A.
Proof.
  intros [Hok _ _] Hn (a & Hin & Hat)%list_elem_of_omap. rewrite Forall_forall in Hok.
  specialize (Hok a Hin). destruct a; simplify_eq/=; done.
Qed.

(** Publication records the bytes. *)
Lemma step_publish_block t A b g c s :
  pinv s -> Own t (AHold b true bs_kWriting g true c :: A) s ->
  let s' := write t (BState b) bs_kPublished s in
  guarantee t s s' /\ Own t (AAuthor b g :: APub b g c :: A) s'.
Proof.
  intros Hi Ho s'. destruct (held_inv _ _ _ _ _ _ _ _ _ Hi Ho)
    as [(Hb & Hh & Hst & Hgen & Hfr & Hc) [Bg Bh Ble Bpub Btk Bun]].
  pose proof (view_write_state t b bs_kPublished s) as Hv. fold s' in Hv.
  unfold view_state in Hv. rewrite Hh in Hv. simpl in Hv. specialize (Hfr eq_refl).
  rewrite Hgen in Hv.
  assert (mono (view s b) (view s' b)) as Hm.
  { rewrite Hv. split; simpl; [|done]. intros g' x Hx. rewrite upd_ne; [done|].
    intros ->. congruence. }
  split.
  - eapply (held_guarantee _ _ _ _ _ _ _ _ _ _ _ Hi Ho); [done|done|]. fold s'. rewrite Hv.
    split; simpl.
    + lia.
    + auto.
    + intros g' Hg'. destruct (decide (g' = g)) as [->|Hne]; [lia|].
      rewrite upd_ne in Hg' by done. specialize (Ble g' Hg'). lia.
    + intros _. rewrite upd_eq. by eexists.
    + intros g' Hg'. specialize (Btk g' Hg'). destruct (decide (g' = g)) as [->|Hne];
        [by rewrite upd_eq|by rewrite upd_ne].
    + intros _. destruct (v_taken (view s b) g) eqn:E; [|done].
      exfalso. apply (Btk g); [by rewrite E|done].
  - destruct (held_rest t A b true bs_kWriting g true c s (BState b) bs_kPublished Ho eq_refl Hm)
      as [H1 H2 H3].
    assert ((true, b, g) ∉ omap asset_token A) as Hn.
    { eapply token_fresh; [by eapply Own_drop|]. simpl. intros [bytes Hb']. congruence. }
    split; [|done|by constructor]. repeat (constructor; [|try done]); cbn [asset_ok]; fold s';
      rewrite Hv; simpl; rewrite upd_eq; [by eexists|].
    eexists _, _. split; [done|]. split; [done|]. apply view_payload_length.
Qed.

(** A reader gives its claim back. *)
Lemma step_rollback t A b g fresh c s :
  pinv s -> Own t (AHold b false bs_kReadingClaiming g fresh c :: A) s ->
  let s' := write t (BState b) bs_kPublished s in
  guarantee t s s' /\ Own t A s'.
Proof.
  intros Hi Ho s'. destruct (held_inv _ _ _ _ _ _ _ _ _ Hi Ho)
    as [(Hb & Hh & Hst & Hgen & Hfr & Hc) [Bg Bh Ble Bpub Btk Bun]].
  pose proof (view_write_state t b bs_kPublished s) as Hv. fold s' in Hv.
  unfold view_state in Hv. rewrite Hh in Hv. simpl in Hv.
  assert (mono (view s b) (view s' b)) as Hm by (rewrite Hv; by split).
  rewrite Hst in *. split; [|by eapply held_rest].
  eapply (held_guarantee _ _ _ _ _ _ _ _ _ _ _ Hi Ho); [done|done|]. fold s'. rewrite Hv.
  split; simpl; auto.
Qed.

(** The reader's owner is committed: the generation is taken. *)
Lemma step_reading t A b g fresh c s :
  pinv s -> Own t (AHold b false bs_kReadingClaiming g fresh c :: A) s ->
  let s' := write t (BState b) bs_kReading s in
  guarantee t s s' /\ Own t (AHold b false bs_kReading g false [] :: ATaken b g :: A) s'.
Proof.
  intros Hi Ho s'. destruct (held_inv _ _ _ _ _ _ _ _ _ Hi Ho)
    as [(Hb & Hh & Hst & Hgen & Hfr & Hc) [Bg Bh Ble Bpub Btk Bun]].
  pose proof (view_write_state t b bs_kReading s) as Hv. fold s' in Hv.
  unfold view_state in Hv. rewrite Hh in Hv. simpl in Hv. rewrite Hgen in Hv.
  rewrite Hst, Hgen in *. specialize (Bun ltac:(auto)).
  destruct (Bpub ltac:(auto)) as [w Hw].
  assert (mono (view s b) (view s' b)) as Hm.
  { rewrite Hv. split; simpl; [done|]. intros g' u Hu. rewrite upd_ne; [done|].
    intros ->. congruence. }
  split.
  - eapply (held_guarantee _ _ _ _ _ _ _ _ _ _ _ Hi Ho); [done|done|]. fold s'. rewrite Hv.
    split; simpl; auto.
    + intros g' Hg'. destruct (decide (g' = g)) as [->|Hne]; [by rewrite Hw|].
      rewrite upd_ne in Hg' by done. by apply Btk.
    + by intros [|].
  - destruct (held_keep t A b false bs_kReadingClaiming g fresh c s (BState b) bs_kReading Ho
      eq_refl Hm false bs_kReading g false []) as [H1 H2 H3].
    { fold s'. cbn [asset_ok]. rewrite Hv. simpl. repeat split; try done; try lia.
      apply prefix_nil. }
    fold s' in H1. apply Forall_cons in H1 as [Ha H1].
    assert ((false, b, g) ∉ omap asset_token A) as Hn.
    { eapply token_fresh; [by eapply Own_drop|]. simpl. congruence. }
    split; [|done|by constructor]. constructor; [done|]. constructor; [|done]. cbn [asset_ok].
    rewrite Hv. simpl. by rewrite upd_eq.
Qed.

(** Filling the payload byte by byte. *)
Lemma payload_of_insert m b j v :
  (j < Z.to_nat bsz)%nat ->
  payload_of (upd (BPayload b j) v m) b = <[j := v]> (payload_of m b).
Proof.
  intros Hj. apply list_eq. intros i. unfold payload_of.
  destruct (decide (i = j)) as [->|Hne].
  - rewrite list_lookup_insert_eq by (by rewrite length_map, length_seq).
    rewrite list_lookup_fmap, lookup_seq_lt by done. simpl. by rewrite upd_eq.
  - rewrite list_lookup_insert_ne by done. rewrite !list_lookup_fmap.
    destruct (decide (i < Z.to_nat bsz)%nat) as [Hlt|Hge].
    + rewrite lookup_seq_lt by done. simpl. rewrite upd_ne; [done|]. congruence.
    + by rewrite lookup_seq_ge by lia.
Qed.

Lemma prefix_insert_next (c l : list Z) v :
  c `prefix_of` l -> (length c < length l)%nat -> c ++ [v] `prefix_of` <[length c := v]> l.
Proof.
  intros [k ->] Hlt. destruct k as [|x k]; [rewrite app_nil_r in Hlt; lia|].
  exists k. rewrite insert_app_r_alt by lia. rewrite Nat.sub_diag. simpl.
  by rewrite <- app_assoc.
Qed.

Lemma step_payload t A b g fresh c v s :
  pinv s -> Own t (AHold b true bs_kWriting g fresh c :: A) s -> (length c < Z.to_nat bsz)%nat ->
  let s' := write t (BPayload b (length c)) v s in
  guarantee t s s' /\ Own t (AHold b true bs_kWriting g fresh (c ++ [v]) :: A) s'.
Proof.
  intros Hi Ho Hlen s'. destruct (held_inv _ _ _ _ _ _ _ _ _ Hi Ho)
    as [(Hb & Hh & Hst & Hgen & Hfr & Hc) [Bg Bh Ble Bpub Btk Bun]].
  pose proof (view_write_payload t b (length c) v s) as Hv. fold s' in Hv. cbv zeta in Hv.
  rewrite payload_of_insert in Hv by done.
  assert (mono (view s b) (view s' b)) as Hm by (rewrite Hv; by split).
  rewrite Hst in *. split.
  - eapply (held_guarantee _ _ _ _ _ _ _ _ _ _ _ Hi Ho); [done|done|]. fold s'. rewrite Hv.
    split; simpl; auto; try (by intros [|[|]]); by intros [|].
  - eapply held_keep; [exact Ho|done|done|]. fold s'. cbn [asset_ok]. rewrite Hv. simpl.
    do 5 (split; [done|]). apply prefix_insert_next; [exact Hc|].
    unfold payload_of. by rewrite length_map, length_seq.
Qed.

(** Owner words belong to no asset. *)
Lemma step_owner t B l v s :
  pinv s -> match l with BOwner _ _ | BOwnerEpoch _ => True | _ => False end -> Own t B s ->
  guarantee t s (write t l v s) /\ Own t B (write t l v s).
Proof.
  intros Hi Hl [H1 H2 H3].
  assert (forall b, view (write t l v s) b = view s b) as Hv
    by (intros b; by apply view_write_owner).
  split; [split|split; [|done|done]].
  - destruct Hi as [I1 I2 I3 I4].
    split; [rewrite pwrite_mem, upd_ne; [done|by intros <-]..|].
    intros b Hb. rewrite Hv. by apply I4.
  - intros u Hu b. rewrite Hv. split; [apply mono_refl|done].
  - eapply Forall_impl; [exact H1|]. intros a Ha.
    destruct a; cbn [asset_ok] in *; by rewrite Hv.
Qed.

(** What a reader finds in its block. *)
Lemma held_published t A b g fresh c s :
  pinv s -> Own t (AHold b false bs_kReading g fresh c :: A) s ->
  exists u, v_pub (view s b) g = Some (u, v_payload (view s b)).
Proof.
  intros Hi Ho. destruct (held_inv _ _ _ _ _ _ _ _ _ Hi Ho)
    as [(Hb & Hh & Hst & Hgen & _) [_ _ _ Bpub _ _]].
  rewrite Hst, Hgen in Bpub. auto.
Qed.
End Protocol.
