(* ===== verification/PoolSafety.v ===== *)
(** The operations of the buffer pool keep the contract of [PoolProtocol].

    One lemma per operation says what the calling thread has before and after it:
    a write buffer that was acquired is a free block that became the thread's
    alone, under a generation nobody has published; publishing it records its
    bytes; a read buffer is a published block that became the thread's alone, with
    the generation of the descriptor taken; an operation that fails changes
    nothing. *)
From S2P Require Import Prelude Errors CheckedMath Prog Concur ProcIdentity OwnerSnapshot.
From S2P Require Import ShmObject PoolLayout SharedBufferPool PoolProtocol.

(** * Read-only parts *)

Lemma snapshot_block_owner_readonly b : readonly (snapshot_block_owner b).
Proof. unfold snapshot_block_owner. solve_readonly. Qed.
#[global] Hint Resolve snapshot_block_owner_readonly : prog_db.

Lemma handle_schema_matches_readonly d : readonly (handle_schema_matches d).
Proof. unfold handle_schema_matches. solve_readonly. Qed.
#[global] Hint Resolve handle_schema_matches_readonly : prog_db.

Lemma block_at_readonly h id : readonly (block_at h id).
Proof. unfold block_at. solve_readonly. Qed.
Lemma pool_payload_at_readonly h id : readonly (payload_at h id).
Proof. unfold payload_at. solve_readonly. Qed.
Lemma validate_live_pool_readonly h op : readonly (validate_live_pool h op).
Proof. unfold validate_live_pool. solve_readonly. Qed.
Lemma classify_active_block_readonly h b op : readonly (classify_active_block h b op).
Proof. unfold classify_active_block. solve_readonly. Qed.
Lemma load_creator_readonly : readonly load_creator.
Proof. unfold load_creator. solve_readonly. Qed.
#[global] Hint Resolve block_at_readonly pool_payload_at_readonly validate_live_pool_readonly
  classify_active_block_readonly load_creator_readonly : prog_db.

Lemma status_owned_readonly h b : readonly (status_owned h b).
Proof. unfold status_owned. solve_readonly. Qed.
#[global] Hint Resolve status_owned_readonly : prog_db.
Lemma status_block_readonly h b : readonly (status_block h b).
Proof. unfold status_block. solve_readonly. Qed.
#[global] Hint Resolve status_block_readonly : prog_db.
Lemma status_blocks_readonly h ids acc : readonly (status_blocks h ids acc).
Proof. revert acc. induction ids as [|b ids IH]; intros acc; cbn [status_blocks]; solve_readonly. Qed.
#[global] Hint Resolve status_blocks_readonly : prog_db.
Lemma pool_status_readonly h : readonly (shared_buffer_pool_status_impl h).
Proof. unfold shared_buffer_pool_status_impl. solve_readonly. Qed.

Lemma remove_check_blocks_readonly h ids : readonly (remove_check_blocks h ids).
Proof. induction ids as [|b ids IH]; cbn [remove_check_blocks]; solve_readonly. Qed.
#[global] Hint Resolve remove_check_blocks_readonly : prog_db.
Lemma pool_remove_readonly h : readonly (shared_buffer_pool_remove_if_creator_impl h).
Proof. unfold shared_buffer_pool_remove_if_creator_impl. solve_readonly. Qed.
#[global] Hint Resolve pool_status_readonly pool_remove_readonly : prog_db.

Section Safety.
Context (bsz cnt : Z).

#[local] Hint Extern 0 (Protocol ploc pghost) => exact (pool_protocol bsz cnt)
  : typeclass_instances.

Abbreviation Owns := (Own bsz cnt).

(** * Accesses *)

Lemma wp_own_ret {A} t B (a : A) (Q : A -> pst -> Prop) s :
  Owns t B s -> (forall s', Owns t B s' -> Q a s') -> wp t (Ret a) Q s.
Proof. intros Ho HQ. eapply (wp_ret _ _ (Owns t B)); [apply Own_stable|done|]. auto. Qed.

Lemma wp_own_readonly {A X} t B (p : pprog X) (f : X -> pprog A) (Q : A -> pst -> Prop) s :
  readonly p -> Owns t B s -> (forall a s', Owns t B s' -> wp t (f a) Q s') ->
  wp t (bind p f) Q s.
Proof.
  intros Hp Ho Hf. eapply (wp_readonly_bind _ _ _ (Owns t B)); [done|apply Own_stable|done|]. auto.
Qed.

Lemma wp_own_store {A} t B B' l v (f : unit -> pprog A) (Q : A -> pst -> Prop) s :
  Owns t B s ->
  (forall s', pinv bsz cnt s' -> Owns t B s' ->
     guarantee t s' (write t l v s') /\ Owns t B' (write t l v s')) ->
  (forall s', Owns t B' s' -> wp t (f tt) Q s') ->
  wp t (bind (trigger (Store l v)) f) Q s.
Proof.
  intros Ho Hs Hf. eapply wp_seq.
  - eapply (wp_trigger_store _ _ _ (Owns t B) (Owns t B')); [apply Own_stable..|done|done].
  - intros [] s' _. apply Hf.
Qed.

Lemma wp_own_cas {A} t B B' l e d (f : bool -> pprog A) (Q : A -> pst -> Prop) s :
  Owns t B s ->
  (forall s', pinv bsz cnt s' -> Owns t B s' -> c_mem s' l = e ->
     guarantee t s' (write t l d s') /\ Owns t B' (write t l d s')) ->
  (forall s', Owns t B' s' -> wp t (f true) Q s') ->
  (forall s', Owns t B s' -> wp t (f false) Q s') ->
  wp t (bind (trigger (Cas l e d)) f) Q s.
Proof.
  intros Ho Hs Ht Hf. eapply wp_seq.
  - eapply (wp_trigger_cas _ _ _ _ (Owns t B) (Owns t B') (Owns t B));
      [apply Own_stable..|done|done|done].
  - intros [] s' _; [apply Ht|apply Hf].
Qed.

(** A header field the contract fixes. *)
Lemma wp_own_const {A} t B l v (f : Z -> pprog A) (Q : A -> pst -> Prop) s :
  (forall s', pinv bsz cnt s' -> c_mem s' l = v) -> Owns t B s ->
  (forall s', Owns t B s' -> wp t (f v) Q s') -> wp t (bind (trigger (Load l)) f) Q s.
Proof.
  intros Hv Ho Hf. eapply wp_seq.
  - eapply (wp_trigger_load_const _ _ v (Owns t B)); [done|apply Own_stable|done].
  - intros a s' _ [-> Ho']. by apply Hf.
Qed.

(** The generation of a block that is held. *)
Lemma wp_own_generation {A} t B b wr st g fr c (f : Z -> pprog A) (Q : A -> pst -> Prop) s :
  Owns t (AHold b wr st g fr c :: B) s ->
  (forall s', Owns t (AHold b wr st g fr c :: B) s' -> 0 <= g <= UINT64_MAX -> wp t (f g) Q s') ->
  wp t (bind (trigger (Load (BGeneration b))) f) Q s.
Proof.
  intros Ho Hf. eapply wp_seq.
  - eapply (wp_trigger_load _ _ (Owns t (AHold b wr st g fr c :: B))); [apply Own_stable|done].
  - intros a s' _ [Ho' (s0 & _ & Hi & Ho0 & ->)].
    destruct (held_inv _ _ _ _ _ _ _ _ _ _ _ Hi Ho0) as [(_ & _ & _ & Hg & _) [Hr _ _ _ _ _]].
    rewrite Hg in Hr. change (c_mem s0 (BGeneration b)) with (v_gen (view bsz s0 b)).
    rewrite Hg. auto.
Qed.

(** * The owner protocol of a block *)

Lemma wp_begin_block_commit {A} t B b r f (Q : A -> pst -> Prop) s :
  Owns t B s -> (forall x s', Owns t B s' -> wp t (f x) Q s') ->
  wp t (bind (begin_owner_commit (BOwnerEpoch b) r) f) Q s.
Proof.
  intros Ho Hf. eapply wp_seq with (Q1 := fun _ => Owns t B); [|intros a s' _; apply Hf].
  unfold begin_owner_commit. eapply wp_own_readonly; [solve_readonly|done|].
  intros cur s1 H1. destruct (epoch_odd cur || _); [by eapply wp_own_ret|].
  destruct (_ <? _); [by eapply wp_own_ret|].
  eapply wp_own_cas; [done|intros; by apply step_owner|..];
    intros s2 H2; cbn [negb]; by eapply wp_own_ret.
Qed.

Lemma wp_set_block_owner {A} t B b id f (Q : A -> pst -> Prop) s :
  Owns t B s -> (forall x s', Owns t B s' -> wp t (f x) Q s') ->
  wp t (bind (set_owner (BOwner b) id) f) Q s.
Proof.
  intros Ho Hf. eapply wp_seq with (Q1 := fun _ => Owns t B); [|intros a s' _; apply Hf].
  unfold set_owner, store_owner_seq_cst.
  do 3 (eapply wp_own_store; [done|intros; by apply step_owner|clear dependent s; intros s Ho]).
  eapply (wp_trigger_store _ _ _ (Owns t B)); [apply Own_stable..|done|].
  intros; by apply step_owner.
Qed.

Lemma block_offset_lt bs id n o :
  shared_buffer_pool_block_offset_for bs id n = Some o -> id < n.
Proof.
  unfold shared_buffer_pool_block_offset_for.
  bdestr (n <=? id); [done|]. intros _. lia.
Qed.

Lemma wp_block_at {A} t B h id f (Q : A -> pst -> Prop) s :
  Owns t B s ->
  (forall s', Owns t B s' -> wp t (f None) Q s') ->
  (forall s', Owns t B s' -> id < cnt -> wp t (f (Some id)) Q s') ->
  wp t (bind (block_at h id) f) Q s.
Proof.
  intros Ho Hn Hs. eapply wp_seq with
    (Q1 := fun r s' => Owns t B s' /\ (r = None \/ r = Some id /\ id < cnt)).
  - unfold block_at. eapply (wp_own_const _ _ _ bsz); [apply pi_block_size|done|].
    intros s1 H1. eapply (wp_own_const _ _ _ cnt); [apply pi_block_count|done|].
    intros s2 H2. eapply wp_own_ret; [done|]. intros s3 H3. split; [done|].
    destruct (shared_buffer_pool_block_offset_for _ _ _) as [[? ?]|] eqn:E; [|by left].
    apply block_offset_lt in E. destruct (_ || _); [by left|by right].
  - intros r s' _ [Ho' [->|[-> Hlt]]]; auto.
Qed.

Lemma wp_payload_at_block {A} t B h id f (Q : A -> pst -> Prop) s :
  Owns t B s ->
  (forall s', Owns t B s' -> wp t (f None) Q s') ->
  (forall s', Owns t B s' -> wp t (f (Some id)) Q s') ->
  wp t (bind (payload_at h id) f) Q s.
Proof.
  intros Ho Hn Hs. eapply wp_seq with
    (Q1 := fun r s' => Owns t B s' /\ (r = None \/ r = Some id)).
  - unfold payload_at. eapply wp_own_readonly; [solve_readonly|done|]. intros bs s1 H1.
    eapply wp_own_readonly; [solve_readonly|done|]. intros n s2 H2.
    eapply wp_own_ret; [done|]. intros s3 H3. split; [done|].
    destruct (shared_buffer_pool_block_offset_for _ _ _) as [[? ?]|]; [|by left].
    destruct (_ || _); [by left|by right].
  - intros r s' _ [Ho' [->| ->]]; auto.
Qed.

(** * Writing *)

(** A write buffer on block [b] under generation [g]. *)
Definition wb_is (b g : Z) (wb : WriteBuffer) : Prop :=
  wb_pool wb = true /\ wb_block wb = Some b /\ wb_data wb = Some b /\ wb_size wb = bsz /\
  bh_block_id (wb_descriptor wb) = b /\ bh_block_generation (wb_descriptor wb) = g /\
  wb_active wb = true.

Definition acquired_write t B (r : Result WriteBuffer) (s : pst) : Prop :=
  match r with
  | Ok wb => exists b g, wb_is b g wb /\ Owns t (AHold b true bs_kWriting g true [] :: B) s
  | Err _ => Owns t B s
  end.

Definition attempt_post t B (r : write_attempt) (s : pst) : Prop :=
  match r with WaDone r => acquired_write t B r s | WaNext _ _ _ => Owns t B s end.

Lemma wp_make_handle {A} t B b g c f (Q : A -> pst -> Prop) s :
  Owns t (AHold b true bs_kWriting g true c :: B) s ->
  (forall d s', bh_block_id d = b -> bh_block_generation d = g ->
     Owns t (AHold b true bs_kWriting g true c :: B) s' -> wp t (f d) Q s') ->
  wp t (bind (make_handle b b) f) Q s.
Proof.
  intros Ho Hf. eapply wp_seq with (Q1 := fun d s' => (bh_block_id d = b /\
    bh_block_generation d = g) /\ Owns t (AHold b true bs_kWriting g true c :: B) s');
    [|intros d s' _ [[H1 H2] H3]; by apply Hf].
  unfold make_handle.
  do 3 (eapply wp_own_readonly; [solve_readonly|done|clear dependent s; intros ? s Ho]).
  eapply wp_own_generation; [done|]. intros s1 H1 _.
  do 4 (eapply wp_own_readonly; [solve_readonly|done|clear dependent s1; intros ? s1 H1]).
  eapply wp_own_ret; [done|]. by intros s2 H2.
Qed.

Lemma wp_write_epoch_failed t B b g fr c r s :
  Owns t (AHold b true bs_kWritingClaiming g fr c :: B) s ->
  wp t (write_epoch_failed b r) (attempt_post t B) s.
Proof.
  intros Ho. unfold write_epoch_failed. eapply wp_own_store; [done| |].
  - intros s1 Hi H1. eapply step_give_up; [done|done|]. unfold block_terminal_state.
    case_bool_decide; auto.
  - intros s1 H1. eapply wp_own_ret; [done|]. intros s2 H2. by case_bool_decide.
Qed.

Lemma wp_write_claimed t B h b g s :
  Owns t (AHold b true bs_kWritingClaiming g false [] :: B) s ->
  wp t (write_claimed h b) (attempt_post t B) s.
Proof.
  intros Ho. unfold write_claimed. eapply wp_own_generation; [done|]. intros s1 H1 Hg.
  bdestr (g =? UINT64_MAX).
  { eapply wp_own_store; [done|intros; eapply step_give_up; [done|done|auto]|].
    intros s2 H2. by eapply wp_own_ret. }
  eapply wp_own_readonly; [solve_readonly|done|]. intros capacity s2 H2.
  destruct (negb _); [by eapply wp_write_epoch_failed|].
  eapply wp_begin_block_commit; [done|]. intros [commit epoch] s3 H3.
  destruct (negb _); [by eapply wp_write_epoch_failed|].
  rewrite u64_small by mlia.
  eapply wp_own_store; [done|intros; eapply step_generation; [done|done|lia]|].
  intros s4 H4. eapply wp_set_block_owner; [done|]. intros _ s5 H5.
  eapply wp_own_store; [done|intros; by apply step_owner|]. intros s6 H6.
  eapply wp_own_store; [done|intros; by eapply step_writing|]. intros s7 H7.
  eapply wp_payload_at_block; [done|..]; intros s8 H8.
  - eapply wp_own_store; [done|intros; eapply step_give_up; [done|done|auto]|].
    intros s9 H9. by eapply wp_own_ret.
  - eapply wp_make_handle; [done|]. intros d s9 Hb Hgd H9.
    eapply (wp_own_const _ _ _ bsz); [apply pi_block_size|done|]. intros s10 H10.
    eapply wp_own_ret; [done|]. intros s11 H11. by exists b, (g + 1).
Qed.

Lemma wp_write_block t B h id s :
  0 <= id -> Owns t B s -> wp t (write_block h id) (attempt_post t B) s.
Proof.
  intros Hid Ho. unfold write_block. eapply wp_block_at; [done|..].
  - intros s1 H1. by eapply wp_own_ret.
  - intros s1 H1 Hlt. eapply wp_own_readonly; [solve_readonly|done|]. intros st s2 H2.
    destruct (st =? bs_kPublished); [by eapply wp_own_ret|].
    destruct (negb _).
    + destruct (st =? bs_kEpochExhausted); [by eapply wp_own_ret|].
      eapply wp_own_readonly; [solve_readonly|done|]. intros busy s3 H3. by eapply wp_own_ret.
    + eapply wp_seq.
      * eapply (wp_trigger_cas _ _ _ _ (Owns t B)
          (fun s' => exists g, Owns t (AHold id true bs_kWritingClaiming g false [] :: B) s')
          (Owns t B)); [apply Own_stable| |apply Own_stable|done| |done].
        { intros s3 s4 [g H3] Hr Hi. exists g. by eapply Own_stable. }
        intros s3 Hi H3 Hst. destruct (step_take bsz cnt t B id true s3 Hi H3) as [Hg Hown];
          [lia|exact Hst|]. split; [done|]. by eexists.
      * intros [] s3 _; cbn [negb]; [intros [g H3]; by eapply wp_write_claimed|].
        intros H3. by eapply wp_own_ret.
Qed.

Lemma wp_write_blocks t B h ids c r e s :
  Forall (fun id => 0 <= id) ids -> Owns t B s ->
  wp t (write_blocks h ids c r e) (acquired_write t B) s.
Proof.
  intros Hids. revert c r e s. induction Hids as [|id ids Hid _ IH]; intros c r e s Ho;
    cbn [write_blocks].
  - destruct r; [by eapply wp_own_ret|]. destruct e; [by eapply wp_own_ret|].
    destruct c; by eapply wp_own_ret.
  - eapply wp_seq; [by apply wp_write_block|]. intros [r'|c' r' e'] s1 _ H1; [|by apply IH].
    destruct r' as [wb|err]; cbn in H1.
    + destruct H1 as (b & g & Hwb & H1). eapply wp_own_ret; [done|]. intros s2 H2. by exists b, g.
    + by eapply wp_own_ret.
Qed.

Lemma block_ids_nonneg n : Forall (fun id => 0 <= id) (block_ids n).
Proof. unfold block_ids. apply Forall_map, Forall_forall. intros i _. lia. Qed.

Lemma wp_try_acquire_write t B h s :
  Owns t B s ->
  wp t (shared_buffer_pool_try_acquire_write_impl h) (acquired_write t B) s.
Proof.
  intros Ho. unfold shared_buffer_pool_try_acquire_write_impl.
  eapply wp_own_readonly; [solve_readonly|done|]. intros [h'|e] s1 H1; [|by eapply wp_own_ret].
  eapply wp_own_readonly; [solve_readonly|done|]. intros n s2 H2.
  apply wp_write_blocks; [apply block_ids_nonneg|done].
Qed.

Definition published t B b g c (wb : WriteBuffer)
    (r : Result BufferHandle * option WriteBuffer) (s : pst) : Prop :=
  match r with
  | (Ok d, buf) => d = wb_descriptor wb /\ buf = Some (write_buffer_reset wb) /\
      Owns t (AAuthor b g :: APub b g c :: B) s
  | (Err _, buf) => buf = Some wb /\ Owns t (AHold b true bs_kWriting g true c :: B) s
  end.

Lemma wp_publish t B pool wb b g c s :
  wb_is b g wb -> Owns t (AHold b true bs_kWriting g true c :: B) s ->
  wp t (shared_buffer_pool_publish_write_impl pool (Some wb)) (published t B b g c wb) s.
Proof.
  intros (Hp & Hb & Hd & Hs & Hid & Hg & Ha) Ho.
  unfold shared_buffer_pool_publish_write_impl. rewrite Hb, Ha, Hp. cbn [negb orb].
  eapply wp_own_readonly; [solve_readonly|done|]. intros [h|e] s1 H1; [|by eapply wp_own_ret].
  eapply wp_own_readonly; [solve_readonly|done|]. intros st s2 H2.
  destruct (negb _); [by eapply wp_own_ret|].
  eapply wp_own_readonly; [solve_readonly|done|]. intros o s3 H3.
  destruct (negb _); [by eapply wp_own_ret|]. destruct (negb _); [by eapply wp_own_ret|].
  eapply wp_own_generation; [done|]. intros s4 H4 _. destruct (negb _); [by eapply wp_own_ret|].
  eapply wp_own_store; [done|intros; by eapply step_publish_block|]. intros s5 H5.
  by eapply wp_own_ret.
Qed.

(** Giving back a block drops it, whether or not it became free. *)
Lemma wp_give_back t B pool b wr st g fr c expected gen s :
  Owns t (AHold b wr st g fr c :: B) s ->
  wp t (give_back pool b expected gen) (fun _ => Owns t B) s.
Proof.
  intros Ho. unfold give_back. eapply wp_own_readonly; [solve_readonly|done|]. intros o s1 H1.
  assert (forall s', Owns t (AHold b wr st g fr c :: B) s' ->
    wp t (Ret tt : pprog unit) (fun _ => Owns t B) s') as Hdrop.
  { intros s' H'. eapply wp_own_ret; [done|]. intros s2. apply Own_drop. }
  destruct (_ && _); [|by apply Hdrop].
  eapply wp_own_generation; [done|]. intros s2 H2 _. destruct (_ =? _); [|by apply Hdrop].
  eapply (wp_trigger_store _ _ _ (Owns t (AHold b wr st g fr c :: B)));
    [apply Own_stable..|done|]. intros s3 Hi H3. eapply step_give_up; [done|done|auto].
Qed.

Lemma wp_abort t B pool wb b g c s :
  wb_is b g wb -> Owns t (AHold b true bs_kWriting g true c :: B) s ->
  wp t (shared_buffer_pool_abort_write_impl pool (Some wb))
    (fun r s' => r = Some (write_buffer_reset wb) /\ Owns t B s') s.
Proof.
  intros (Hp & Hb & Hd & Hs & Hid & Hg & Ha) Ho.
  unfold shared_buffer_pool_abort_write_impl. rewrite Ha, Hb. cbn [negb].
  eapply wp_seq with (Q1 := fun _ => Owns t B).
  - destruct (_ && _); [by eapply wp_give_back|]. eapply wp_own_ret; [done|].
    intros s1. apply Own_drop.
  - intros [] s1 _ H1. by eapply wp_own_ret.
Qed.

(** * Reading *)

(** A read buffer for descriptor [d]. *)
Definition rb_is (d : BufferHandle) (rb : ReadBuffer) : Prop :=
  rb_pool rb = true /\ rb_block rb = Some (bh_block_id d) /\
  rb_data rb = Some (bh_block_id d) /\ rb_size rb = bsz /\ rb_descriptor rb = d /\
  rb_active rb = true.

Definition acquired_read t B d (r : Result ReadBuffer) (s : pst) : Prop :=
  match r with
  | Ok rb => rb_is d rb /\
      Owns t (AHold (bh_block_id d) false bs_kReading (bh_block_generation d) false [] ::
              ATaken (bh_block_id d) (bh_block_generation d) :: B) s
  | Err _ => Owns t B s
  end.

Lemma wp_read_rollback t B d b g fr c lost e s :
  Owns t (AHold b false bs_kReadingClaiming g fr c :: B) s ->
  wp t (read_rollback b lost e) (acquired_read t B d) s.
Proof.
  intros Ho. unfold read_rollback.
  eapply wp_own_cas; [done|intros; by eapply step_rollback|..]; intros s1 H1; cbn [negb].
  - by eapply wp_own_ret.
  - eapply wp_own_ret; [done|]. intros s2. apply Own_drop.
Qed.

Lemma wp_read_claimed t B h d g s :
  bh_length d = bsz ->
  Owns t (AHold (bh_block_id d) false bs_kReadingClaiming g false [] :: B) s ->
  wp t (read_claimed h (bh_block_id d) (bh_block_id d) d) (acquired_read t B d) s.
Proof.
  intros Hlen Ho. unfold read_claimed. eapply wp_own_generation; [done|]. intros s1 H1 _.
  bdestr (g =? bh_block_generation d); cbn [negb]; [|by eapply wp_read_rollback].
  eapply wp_own_readonly; [solve_readonly|done|]. intros capacity s2 H2.
  destruct (negb _); [by eapply wp_read_rollback|].
  eapply wp_begin_block_commit; [done|]. intros [commit epoch] s3 H3.
  destruct (negb _); [by eapply wp_read_rollback|].
  eapply wp_set_block_owner; [done|]. intros _ s4 H4.
  eapply wp_own_store; [done|intros; by apply step_owner|]. intros s5 H5.
  eapply wp_own_store; [done|intros; by eapply step_reading|]. intros s6 H6.
  eapply wp_own_ret; [done|]. intros s7 H7. subst g. done.
Qed.

Lemma wp_validate_descriptor {A} t B h d op f (Q : A -> pst -> Prop) s :
  Owns t B s ->
  (forall h' s', Owns t B s' -> bh_length d = bsz -> wp t (f (Ok h')) Q s') ->
  (forall e s', Owns t B s' -> wp t (f (Err e)) Q s') ->
  wp t (bind (validate_descriptor h d op) f) Q s.
Proof.
  intros Ho Hok Herr. eapply wp_seq with (Q1 := fun r s' => Owns t B s' /\
    match r with Ok _ => bh_length d = bsz | Err _ => True end);
    [|intros [h'|e] s' _ [H1 H2]; auto].
  unfold validate_descriptor.
  eapply wp_own_readonly; [solve_readonly|done|]. intros [h'|e] s1 H1; [|by eapply wp_own_ret].
  do 3 (eapply wp_own_readonly; [solve_readonly|done|clear dependent s1; intros ? s1 H1]).
  destruct (_ || _); [by eapply wp_own_ret|].
  eapply wp_own_readonly; [solve_readonly|done|]. intros schema s2 H2.
  destruct (negb schema); [by eapply wp_own_ret|].
  eapply wp_own_readonly; [solve_readonly|done|]. intros n s3 H3.
  eapply (wp_own_const _ _ _ bsz); [apply pi_block_size|done|]. intros s4 H4.
  match goal with |- wp _ (if ?c then _ else _) _ _ => destruct c eqn:Hc end;
    [by eapply wp_own_ret|].
  apply orb_false_iff in Hc as [_ Hlen%negb_false_iff%Z.eqb_eq].
  match goal with |- wp _ (if ?c then _ else _) _ _ => destruct c end;
    [by eapply wp_own_ret|].
  eapply wp_own_readonly; [solve_readonly|done|]. intros [b|] s5 H5; [|by eapply wp_own_ret].
  eapply wp_own_readonly; [solve_readonly|done|]. intros bg s6 H6.
  destruct (negb _); by eapply wp_own_ret.
Qed.

Lemma wp_acquire_read t B h d s :
  0 <= bh_block_id d -> Owns t B s ->
  wp t (shared_buffer_pool_acquire_read_impl h d) (acquired_read t B d) s.
Proof.
  intros Hid Ho. unfold shared_buffer_pool_acquire_read_impl.
  eapply wp_validate_descriptor; [done|..]; [|intros e s1 H1; by eapply wp_own_ret].
  intros h' s1 H1 Hlen. eapply wp_block_at; [done|..].
  { intros s2 H2. eapply wp_own_readonly; [solve_readonly|done|]. intros p s3 H3.
    by eapply wp_own_ret. }
  intros s2 H2 Hlt. eapply wp_payload_at_block; [done|..]; intros s3 H3; [by eapply wp_own_ret|].
  eapply wp_own_readonly; [solve_readonly|done|]. intros st s4 H4.
  destruct (negb (st =? _)).
  { destruct (st =? bs_kFree); [by eapply wp_own_ret|].
    eapply wp_own_readonly; [solve_readonly|done|]. intros e s5 H5. by eapply wp_own_ret. }
  eapply wp_own_readonly; [solve_readonly|done|]. intros bg s5 H5.
  destruct (negb _); [by eapply wp_own_ret|]. eapply wp_seq.
  - eapply (wp_trigger_cas _ _ _ _ (Owns t B)
      (fun s' => exists g,
         Owns t (AHold (bh_block_id d) false bs_kReadingClaiming g false [] :: B) s')
      (Owns t B)); [apply Own_stable| |apply Own_stable|done| |done].
    { intros s6 s7 [g H6] Hr Hi. exists g. by eapply Own_stable. }
    intros s6 Hi H6 Hst. destruct (step_take bsz cnt t B (bh_block_id d) false s6 Hi H6)
      as [Hg Hown]; [lia|exact Hst|]. split; [done|]. by eexists.
  - intros [] s6 _; cbn [negb]; [intros [g H6]; by eapply wp_read_claimed|].
    intros H6. by eapply wp_own_ret.
Qed.

Lemma wp_release_read t B pool rb d st g c s :
  rb_is d rb -> Owns t (AHold (bh_block_id d) false st g false c :: B) s ->
  wp t (shared_buffer_pool_release_read_impl pool (Some rb))
    (fun r s' => r = Some (read_buffer_reset rb) /\ Owns t B s') s.
Proof.
  intros (Hp & Hb & Hd & Hs & Hdesc & Ha) Ho.
  unfold shared_buffer_pool_release_read_impl. rewrite Ha, Hb. cbn [negb].
  eapply wp_seq with (Q1 := fun _ => Owns t B).
  - destruct (_ && _); [by eapply wp_give_back|]. eapply wp_own_ret; [done|].
    intros s1. apply Own_drop.
  - intros [] s1 _ H1. by eapply wp_own_ret.
Qed.

(** * The bytes of a buffer *)

(** The user's copy into [data()], at most [size()] bytes. *)
Definition fill_buffer (wb : WriteBuffer) (bytes : list Z) : pprog unit :=
  match wb_data wb with
  | None => Ret tt
  | Some b => store_list (zip (map (BPayload b) (seq 0 (Z.to_nat (wb_size wb)))) bytes)
  end.

(** The user's copy out of [data()]. *)
Definition read_buffer (rb : ReadBuffer) : pprog (list Z) :=
  match rb_data rb with
  | None => Ret []
  | Some b => load_list (map (BPayload b) (seq 0 (Z.to_nat (rb_size rb))))
  end.

Lemma wp_store_payload t B b g fr c n bytes s :
  (length c + n = Z.to_nat bsz)%nat ->
  Owns t (AHold b true bs_kWriting g fr c :: B) s ->
  wp t (store_list (zip (map (BPayload b) (seq (length c) n)) bytes))
    (fun _ => Owns t (AHold b true bs_kWriting g fr (c ++ take n bytes) :: B)) s.
Proof.
  revert c bytes s. induction n as [|n IH]; intros c bytes s Hn Ho; cbn [seq map zip_with store_list].
  - rewrite take_0, app_nil_r. by eapply wp_own_ret.
  - destruct bytes as [|v bytes]; cbn [zip_with store_list take].
    { rewrite app_nil_r. by eapply wp_own_ret. }
    eapply wp_own_store; [done|intros; eapply step_payload; [done|done|lia]|].
    intros s1 H1. cbn beta. replace (S (length c)) with (length (c ++ [v])) by (rewrite length_app; simpl; lia).
    rewrite (app_assoc c [v] (take n bytes) : c ++ v :: take n bytes = _).
    apply IH; [rewrite length_app; simpl; lia|done].
Qed.

Lemma Own_content t B b wr st g fr c c' s :
  (c `prefix_of` v_payload (view bsz s b) -> c' `prefix_of` v_payload (view bsz s b)) ->
  Owns t (AHold b wr st g fr c :: B) s -> Owns t (AHold b wr st g fr c' :: B) s.
Proof.
  intros Hc [H1 H2 H3]. apply Forall_cons in H1 as [(Hb & Hh & Hst & Hg & Hf & Hp) H1].
  split; [|done|done]. constructor; [|done]. cbn [asset_ok]. auto 10.
Qed.

Lemma wp_fill_buffer t B b g c wb bytes s :
  wb_is b g wb -> Owns t (AHold b true bs_kWriting g true c :: B) s ->
  wp t (fill_buffer wb bytes)
    (fun _ => Owns t (AHold b true bs_kWriting g true (take (Z.to_nat bsz) bytes) :: B)) s.
Proof.
  intros (Hp & Hb & Hd & Hs & _) Ho. unfold fill_buffer. rewrite Hd, Hs.
  apply (wp_store_payload t B b g true []); [done|].
  eapply Own_content; [|done]. intros _. apply prefix_nil.
Qed.

Lemma wp_load_payload_held t B b wr st g fr c k n s :
  (k + n <= length c)%nat -> Owns t (AHold b wr st g fr c :: B) s ->
  wp t (load_list (map (BPayload b) (seq k n)))
    (fun vs s' => vs = take n (drop k c) /\ Owns t (AHold b wr st g fr c :: B) s') s.
Proof.
  revert k s. induction n as [|n IH]; intros k s Hn Ho; cbn [seq map load_list].
  { rewrite take_0. by eapply wp_own_ret. }
  eapply wp_seq.
  { eapply (wp_trigger_load _ _ (Owns t (AHold b wr st g fr c :: B))); [apply Own_stable|done]. }
  intros v s1 _ [H1 (s0 & _ & _ & H0 & ->)].
  destruct (lookup_lt_is_Some_2 c k ltac:(lia)) as [x Hx].
  assert (c_mem s0 (BPayload b k) = x) as ->.
  { destruct H0 as [H0 _ _]. apply Forall_cons in H0 as [(_ & _ & _ & _ & _ & Hpre) _].
    pose proof (prefix_lookup_Some _ _ _ _ Hx Hpre) as Hv.
    unfold view, view_of, payload_of in Hv. cbn [v_payload] in Hv.
    rewrite list_lookup_fmap in Hv.
    destruct (seq 0 (Z.to_nat bsz) !! k) as [j|] eqn:Hj; [|done].
    apply lookup_seq in Hj as [-> _]. by injection Hv. }
  eapply wp_seq; [apply IH; [lia|done]|]. intros vs s2 _ [-> H2].
  eapply wp_own_ret; [done|]. intros s3 H3. split; [|done].
  by rewrite (drop_S c x k Hx).
Qed.

(** What is read is what was published. *)
Lemma wp_read_buffer t B d rb s :
  rb_is d rb -> pinv bsz cnt s ->
  Owns t (AHold (bh_block_id d) false bs_kReading (bh_block_generation d) false [] :: B) s ->
  wp t (read_buffer rb) (fun bytes s' => length bytes = Z.to_nat bsz /\
    Owns t (AHold (bh_block_id d) false bs_kReading (bh_block_generation d) false [] ::
            APub (bh_block_id d) (bh_block_generation d) bytes :: B) s') s.
Proof.
  intros (Hp & Hb & Hd & Hs & _) Hi Ho. unfold read_buffer. rewrite Hd, Hs.
  set (p := v_payload (view bsz s (bh_block_id d))).
  assert (length p = Z.to_nat bsz) as Hlen by apply view_payload_length.
  apply (Own_content _ _ _ _ _ _ _ _ p) in Ho; [|by intros _].
  eapply wp_mono; [|apply wp_load_payload_held; [|exact Ho]; lia].
  intros vs s' Hi' [-> Ho']. rewrite drop_0, take_ge by lia. split; [done|].
  destruct (held_published _ _ _ _ _ _ _ _ _ Hi' Ho') as [u Hu].
  destruct Ho' as [H1 H2 H3]. apply Forall_cons in H1 as [(A1 & A2 & A3 & A4 & A5 & A6) H1].
  split; [|done|done]. constructor; [|constructor; [|done]]; cbn [asset_ok].
  - do 5 (split; [done|]). apply prefix_nil.
  - eexists _, _. split; [exact Hu|]. split; [done|]. apply view_payload_length.
Qed.
End Safety.
