(* ===== verification/PoolClient.v ===== *)
(** The pool seen by its users: any number of threads, in any number of
    processes, each with a handle of its own to one pool.

    A thread keeps the buffers its calls returned in variables and passes them
    back to later calls; [track] is the thread's local state after the calls it
    has made. *)
From S2P Require Import Prelude Errors CheckedMath Prog Concur ProcIdentity OwnerSnapshot.
From S2P Require Import ShmObject PoolLayout SharedBufferPool PoolProtocol PoolSafety.

(** The descriptors a caller can build: [block_id] is unsigned. *)
Definition descriptor : Type := { d : BufferHandle | 0 <= bh_block_id d }.

(** The buffers are named by the position of the variable that holds them, the
    newest variable first. *)
Inductive pool_op : Type :=
| OpAcquireWrite
| OpFill (i : nat) (bytes : list Z)
| OpPublish (i : nat)
| OpAbort (i : nat)
| OpAcquireRead (d : descriptor)
| OpRead (i : nat)
| OpRelease (i : nat)
| OpPoolStatus
| OpRemove.

Inductive pool_res : Type :=
| ResWrite (r : Result WriteBuffer)
| ResFilled
| ResPublish (r : Result BufferHandle) (buffer : option WriteBuffer)
| ResAbort (buffer : option WriteBuffer)
| ResRead (r : Result ReadBuffer)
| ResBytes (bytes : list Z)
| ResRelease (buffer : option ReadBuffer)
| ResPoolStatus (r : Result SharedBufferPoolStatus)
| ResRemove (r : Result SharedBufferPoolHandle).

(** A thread's variables: its handle, its write buffers with what it last filled
    them with, its read buffers; and what it has published, acquired for reading
    and read. *)
Record user : Type := mkUser {
  u_handle : SharedBufferPoolHandle;
  u_writes : list (WriteBuffer * list Z);
  u_reads : list ReadBuffer;
  u_published : list (BufferHandle * list Z);
  u_acquired : list BufferHandle;
  u_seen : list (BufferHandle * list Z)
}.

Definition user_start (h : SharedBufferPoolHandle) : user := mkUser h [] [] [] [] [].

Definition set_writes (w : list (WriteBuffer * list Z)) (u : user) : user :=
  mkUser (u_handle u) w (u_reads u) (u_published u) (u_acquired u) (u_seen u).
Definition set_reads (r : list ReadBuffer) (u : user) : user :=
  mkUser (u_handle u) (u_writes u) r (u_published u) (u_acquired u) (u_seen u).
Definition add_published (x : BufferHandle * list Z) (u : user) : user :=
  mkUser (u_handle u) (u_writes u) (u_reads u) (x :: u_published u) (u_acquired u) (u_seen u).
Definition add_acquired (d : BufferHandle) (u : user) : user :=
  mkUser (u_handle u) (u_writes u) (u_reads u) (u_published u) (d :: u_acquired u) (u_seen u).
Definition add_seen (x : BufferHandle * list Z) (u : user) : user :=
  mkUser (u_handle u) (u_writes u) (u_reads u) (u_published u) (u_acquired u) (x :: u_seen u).
Definition set_handle (h : SharedBufferPoolHandle) (u : user) : user :=
  mkUser h (u_writes u) (u_reads u) (u_published u) (u_acquired u) (u_seen u).

Definition write_var (u : user) (i : nat) : option WriteBuffer := fst <$> u_writes u !! i.

(** Variable [i] holds [wb] now. *)
Definition assign_write (i : nat) (wb : option WriteBuffer) (u : user) : user :=
  match wb, u_writes u !! i with
  | Some wb, Some (_, c) => set_writes (<[i := (wb, c)]> (u_writes u)) u
  | _, _ => u
  end.

(** The thread after one call. *)
Definition track1 (u : user) (call : pool_op * pool_res) : user :=
  match call with
  | (OpAcquireWrite, ResWrite (Ok wb)) => set_writes ((wb, []) :: u_writes u) u
  | (OpFill i bytes, ResFilled) =>
      match u_writes u !! i with
      | Some (wb, _) =>
          set_writes (<[i := (wb, take (Z.to_nat (wb_size wb)) bytes)]> (u_writes u)) u
      | None => u
      end
  | (OpPublish i, ResPublish r wb) =>
      let u' := assign_write i wb u in
      match r, u_writes u !! i with
      | Ok d, Some (_, c) => add_published (d, c) u'
      | _, _ => u'
      end
  | (OpAbort i, ResAbort wb) => assign_write i wb u
  | (OpAcquireRead d, ResRead (Ok rb)) =>
      add_acquired (`d) (set_reads (rb :: u_reads u) u)
  | (OpRead i, ResBytes bytes) =>
      match u_reads u !! i with
      | Some rb => if rb_active rb then add_seen (rb_descriptor rb, bytes) u else u
      | None => u
      end
  | (OpRelease i, ResRelease (Some rb)) => set_reads (<[i := rb]> (u_reads u)) u
  | (OpRemove, ResRemove (Ok h)) => set_handle h u
  | _ => u
  end.

Definition track (h : SharedBufferPoolHandle) (calls : list (pool_op * pool_res)) : user :=
  foldl track1 (user_start h) calls.

(** What a call runs. *)
Definition pool_call (u : user) (op : pool_op) : pprog pool_res :=
  match op with
  | OpAcquireWrite =>
      let! r := shared_buffer_pool_try_acquire_write_impl (Some (u_handle u)) in
      Ret (ResWrite r)
  | OpFill i bytes =>
      do! match write_var u i with Some wb => fill_buffer wb bytes | None => Ret tt end;
      Ret ResFilled
  | OpPublish i =>
      let! (r, wb) := shared_buffer_pool_publish_write_impl (u_handle u) (write_var u i) in
      Ret (ResPublish r wb)
  | OpAbort i =>
      let! wb := shared_buffer_pool_abort_write_impl (u_handle u) (write_var u i) in
      Ret (ResAbort wb)
  | OpAcquireRead d =>
      let! r := shared_buffer_pool_acquire_read_impl (Some (u_handle u)) (`d) in
      Ret (ResRead r)
  | OpRead i =>
      let! bytes := match u_reads u !! i with Some rb => read_buffer rb | None => Ret [] end in
      Ret (ResBytes bytes)
  | OpRelease i =>
      let! rb := shared_buffer_pool_release_read_impl (u_handle u) (u_reads u !! i) in
      Ret (ResRelease rb)
  | OpPoolStatus =>
      let! r := shared_buffer_pool_status_impl (Some (u_handle u)) in
      Ret (ResPoolStatus r)
  | OpRemove =>
      let! r := shared_buffer_pool_remove_if_creator_impl (Some (u_handle u)) in
      Ret (ResRemove r)
  end.

(** * What a thread has *)

Definition write_asset (x : WriteBuffer * list Z) : option asset :=
  let '(wb, c) := x in
  if wb_active wb then
    Some (AHold (bh_block_id (wb_descriptor wb)) true bs_kWriting
            (bh_block_generation (wb_descriptor wb)) true c)
  else None.

Definition read_asset (rb : ReadBuffer) : option asset :=
  if rb_active rb then
    Some (AHold (bh_block_id (rb_descriptor rb)) false bs_kReading
            (bh_block_generation (rb_descriptor rb)) false [])
  else None.

Definition author_asset (x : BufferHandle * list Z) : asset :=
  AAuthor (bh_block_id x.1) (bh_block_generation x.1).
Definition pub_asset (x : BufferHandle * list Z) : asset :=
  APub (bh_block_id x.1) (bh_block_generation x.1) x.2.
Definition taken_asset (d : BufferHandle) : asset :=
  ATaken (bh_block_id d) (bh_block_generation d).

(** What remains true after the thread stopped. *)
Definition past_assets (u : user) : list asset :=
  map author_asset (u_published u) ++ map pub_asset (u_published u) ++
  map taken_asset (u_acquired u) ++ map pub_asset (u_seen u).

Definition assets (u : user) : list asset :=
  omap write_asset (u_writes u) ++ omap read_asset (u_reads u) ++ past_assets u.

Section Client.
Context (bsz cnt : Z).

#[local] Hint Extern 0 (Protocol ploc pghost) => exact (pool_protocol bsz cnt)
  : typeclass_instances.

Definition wb_ok (wb : WriteBuffer) : Prop :=
  wb_is bsz (bh_block_id (wb_descriptor wb)) (bh_block_generation (wb_descriptor wb)) wb \/
  wb_active wb = false /\ wb_block wb = None /\ wb_data wb = None.
Definition rb_ok (rb : ReadBuffer) : Prop :=
  rb_is bsz (rb_descriptor rb) rb \/
  rb_active rb = false /\ rb_block rb = None /\ rb_data rb = None.

Record user_ok (u : user) : Prop := {
  uo_writes : Forall (fun x => wb_ok x.1) (u_writes u);
  uo_reads : Forall rb_ok (u_reads u);
  uo_seen : Forall (fun x => length x.2 = Z.to_nat bsz) (u_seen u)
}.

Definition pool_idle (hdl : tid -> SharedBufferPoolHandle) (t : tid)
    (h : list (pool_op * pool_res)) (s : pst) : Prop :=
  user_ok (track (hdl t) h) /\ Own bsz cnt t (assets (track (hdl t) h)) s.

Abbreviation Owns := (Own bsz cnt).

(** * One call *)

Definition call_post t u op (r : pool_res) (s : pst) : Prop :=
  user_ok (track1 u (op, r)) /\ Owns t (assets (track1 u (op, r))) s.

Lemma omap_delete_perm {A B} (f : A -> option B) (l : list A) i x :
  l !! i = Some x -> omap f l ≡ₚ option_list (f x) ++ omap f (delete i l).
Proof.
  intros Hi. rewrite (delete_Permutation l i x Hi) at 1. simpl. by destruct (f x).
Qed.

Lemma omap_insert_perm {A B} (f : A -> option B) (l : list A) i x y :
  l !! i = Some x -> omap f (<[i := y]> l) ≡ₚ option_list (f y) ++ omap f (delete i l).
Proof.
  intros Hi. pose proof (lookup_lt_Some _ _ _ Hi) as Hlt.
  rewrite (omap_delete_perm f (<[i := y]> l) i y) by (by apply list_lookup_insert_eq).
  rewrite delete_take_drop, insert_take_drop by done.
  rewrite take_app_le, drop_app_ge by (rewrite length_take; lia).
  rewrite length_take, Nat.min_l by lia. rewrite take_take, Nat.min_l by lia.
  replace (S i - i)%nat with 1%nat by lia. simpl. rewrite drop_0. by rewrite delete_take_drop.
Qed.

(** The rest of the assets, without write variable [i]. *)
Definition other_assets (i : nat) (u : user) : list asset :=
  omap write_asset (delete i (u_writes u)) ++ omap read_asset (u_reads u) ++ past_assets u.

Lemma assets_write u i x :
  u_writes u !! i = Some x -> assets u ≡ₚ option_list (write_asset x) ++ other_assets i u.
Proof.
  intros Hi. unfold assets, other_assets. by rewrite (omap_delete_perm _ _ i x Hi), <- app_assoc.
Qed.

Lemma assets_set_write u i x y :
  u_writes u !! i = Some x ->
  assets (set_writes (<[i := y]> (u_writes u)) u) ≡ₚ
  option_list (write_asset y) ++ other_assets i u.
Proof.
  intros Hi. unfold assets, other_assets, past_assets, set_writes. simpl.
  by rewrite (omap_insert_perm _ _ i x y Hi), <- app_assoc.
Qed.

Lemma user_ok_set_write u i y :
  user_ok u -> wb_ok y.1 -> user_ok (set_writes (<[i := y]> (u_writes u)) u).
Proof. intros [H1 H2 H3] Hy. split; [by apply Forall_insert|done|done]. Qed.

(** A write variable is active and its block is the thread's, or it is empty. *)
Lemma write_var_cases u i wb c :
  user_ok u -> u_writes u !! i = Some (wb, c) ->
  (exists b g, wb_is bsz b g wb /\ b = bh_block_id (wb_descriptor wb) /\
     g = bh_block_generation (wb_descriptor wb) /\
     assets u ≡ₚ AHold b true bs_kWriting g true c :: other_assets i u) \/
  (wb_active wb = false /\ wb_block wb = None /\ wb_data wb = None /\
     assets u ≡ₚ other_assets i u).
Proof.
  intros [Hw _ _] Hi. pose proof (assets_write u i _ Hi) as Hp.
  rewrite Forall_lookup in Hw. destruct (Hw i _ Hi) as [Hwb|(Ha & Hb & Hd)]; simpl in *.
  - left. eexists _, _. split; [exact Hwb|]. split; [done|]. split; [done|].
    destruct Hwb as (_ & _ & _ & _ & _ & _ & Ha). by rewrite Ha in Hp.
  - right. rewrite Ha in Hp. done.
Qed.

Lemma call_none {A} t u op (r : A) (res : A -> pool_res) s :
  (forall r, track1 u (op, res r) = u) -> user_ok u -> Owns t (assets u) s ->
  wp t (Ret (res r) : pprog pool_res) (call_post t u op) s.
Proof.
  intros Ht Hu Ho. eapply wp_own_ret; [exact Ho|]. intros s' H'. unfold call_post.
  by rewrite Ht.
Qed.

Lemma wp_call_acquire_write t u s :
  user_ok u -> Owns t (assets u) s -> wp t (pool_call u OpAcquireWrite) (call_post t u OpAcquireWrite) s.
Proof.
  intros [H1 H2 H3] Ho. cbn [pool_call]. eapply wp_seq; [by apply wp_try_acquire_write|].
  intros [wb|e] s1 _ Hr; cbn in Hr; [|eapply wp_own_ret; [done|]; by intros].
  destruct Hr as (b & g & Hwb & Hr). eapply wp_own_ret; [exact Hr|]. intros s2 Hs2.
  assert (Hwb' := Hwb). destruct Hwb' as (_ & _ & _ & _ & Hb & Hg & Ha). split.
  - split; simpl; [|done|done]. constructor; [|done]. left. simpl. by rewrite Hb, Hg.
  - unfold assets. cbn. rewrite Ha. cbn. by rewrite Hb, Hg.
Qed.

Lemma wp_call_fill t u i bytes s :
  user_ok u -> Owns t (assets u) s ->
  wp t (pool_call u (OpFill i bytes)) (call_post t u (OpFill i bytes)) s.
Proof.
  intros Hu Ho. cbn [pool_call]. unfold write_var.
  destruct (u_writes u !! i) as [[wb c]|] eqn:Hi; simpl;
    [|apply (call_none t u _ tt (fun _ => ResFilled)); [cbn; by rewrite Hi|done..]].
  assert (Hwok : wb_ok wb) by (destruct Hu as [Hw _ _]; rewrite Forall_lookup in Hw; by apply (Hw i _ Hi)).
  set (y := (wb, take (Z.to_nat (wb_size wb)) bytes)).
  pose proof (assets_set_write u i _ y Hi) as Hset.
  destruct (write_var_cases u i wb c Hu Hi) as [(b & g & Hwb & Hb & Hg & Hp)|(Ha & _ & Hd & Hp)];
    rewrite Hp in Ho.
  - eapply wp_seq; [by eapply wp_fill_buffer|]. intros [] s1 _ H1.
    eapply wp_own_ret; [exact H1|]. intros s2 H2. split; cbn [track1]; rewrite Hi; [by apply user_ok_set_write|].
    fold y. rewrite Hset. subst y. simpl. assert (Hwb' := Hwb).
    destruct Hwb' as (_ & _ & _ & Hsz & _ & _ & Ha). rewrite Ha, Hsz. simpl. by subst b g.
  - unfold fill_buffer. rewrite Hd. eapply wp_own_ret; [exact Ho|]. intros s1 H1.
    split; cbn [track1]; rewrite Hi; [by apply user_ok_set_write|]. fold y. rewrite Hset. subst y. simpl. by rewrite Ha.
Qed.

(** What a call adds to the past. *)
Lemma assets_add_published x u :
  assets (add_published x u) ≡ₚ author_asset x :: pub_asset x :: assets u.
Proof. unfold assets, past_assets, add_published. simpl. solve_Permutation. Qed.
Lemma assets_add_acquired d u : assets (add_acquired d u) ≡ₚ taken_asset d :: assets u.
Proof. unfold assets, past_assets, add_acquired. simpl. solve_Permutation. Qed.
Lemma assets_add_seen x u : assets (add_seen x u) ≡ₚ pub_asset x :: assets u.
Proof. unfold assets, past_assets, add_seen. simpl. solve_Permutation. Qed.

Lemma assign_write_eq i wb wb' c u :
  u_writes u !! i = Some (wb', c) ->
  assign_write i (Some wb) u = set_writes (<[i := (wb, c)]> (u_writes u)) u.
Proof. intros Hi. unfold assign_write. by rewrite Hi. Qed.

Lemma wb_ok_reset wb : wb_ok (write_buffer_reset wb).
Proof. by right. Qed.

Lemma write_wb_ok u i wb c : user_ok u -> u_writes u !! i = Some (wb, c) -> wb_ok wb.
Proof. intros [Hw _ _] Hi. rewrite Forall_lookup in Hw. by apply (Hw i _ Hi). Qed.

(** Variable [i] keeps its buffer. *)
Lemma assign_write_same t u i wb c s :
  user_ok u -> u_writes u !! i = Some (wb, c) -> Owns t (assets u) s ->
  user_ok (assign_write i (Some wb) u) /\ Owns t (assets (assign_write i (Some wb) u)) s.
Proof.
  intros Hu Hi Ho. rewrite (assign_write_eq _ _ _ _ _ Hi).
  split; [apply user_ok_set_write; [done|]; by eapply write_wb_ok|].
  by rewrite (assets_set_write _ _ _ _ Hi), <- (assets_write _ _ _ Hi).
Qed.

(** Variable [i] gives its block up. *)
Lemma assign_write_reset t u i wb c B s :
  user_ok u -> u_writes u !! i = Some (wb, c) -> Owns t (B ++ other_assets i u) s ->
  user_ok (assign_write i (Some (write_buffer_reset wb)) u) /\
  Owns t (B ++ assets (assign_write i (Some (write_buffer_reset wb)) u)) s.
Proof.
  intros Hu Hi Ho. rewrite (assign_write_eq _ _ _ _ _ Hi).
  split; [apply user_ok_set_write; [done|apply wb_ok_reset]|].
  by rewrite (assets_set_write _ _ _ _ Hi).
Qed.

Lemma wp_call_publish t u i s :
  user_ok u -> Owns t (assets u) s ->
  wp t (pool_call u (OpPublish i)) (call_post t u (OpPublish i)) s.
Proof.
  intros Hu Ho. cbn [pool_call]. unfold write_var.
  destruct (u_writes u !! i) as [[wb c]|] eqn:Hi; cbn [fmap option_fmap option_map fst].
  2:{ apply (call_none t u _ tt (fun _ => ResPublish _ None)); done. }
  destruct (write_var_cases u i wb c Hu Hi) as [(b & g & Hwb & Hb & Hg & Hp)|(Ha & Hbl & _ & Hp)].
  - rewrite Hp in Ho. eapply wp_seq; [by eapply wp_publish|].
    intros [[d|e] buf] s1 _ Hr; cbn [published] in Hr.
    + destruct Hr as (-> & -> & H1). eapply wp_own_ret; [exact H1|]. intros s2 H2.
      destruct (assign_write_reset t u i wb c [AAuthor b g; APub b g c] s2 Hu Hi H2)
        as [[U1 U2 U3] H3].
      split; cbn [track1]; rewrite Hi; [by split|]. rewrite assets_add_published.
      unfold author_asset, pub_asset. simpl. by rewrite <- Hb, <- Hg.
    + destruct Hr as [-> H1]. eapply wp_own_ret; [exact H1|]. intros s2 H2.
      rewrite <- Hp in H2. unfold call_post. cbn [track1]. by apply assign_write_same with c.
  - unfold shared_buffer_pool_publish_write_impl. rewrite Hbl.
    eapply wp_own_ret; [exact Ho|]. intros s1 H1. unfold call_post. cbn [track1].
    by apply assign_write_same with c.
Qed.

Lemma wp_call_abort t u i s :
  user_ok u -> Owns t (assets u) s ->
  wp t (pool_call u (OpAbort i)) (call_post t u (OpAbort i)) s.
Proof.
  intros Hu Ho. cbn [pool_call]. unfold write_var.
  destruct (u_writes u !! i) as [[wb c]|] eqn:Hi; cbn [fmap option_fmap option_map fst].
  2:{ apply (call_none t u _ tt (fun _ => ResAbort None)); done. }
  destruct (write_var_cases u i wb c Hu Hi) as [(b & g & Hwb & Hb & Hg & Hp)|(Ha & _ & _ & Hp)].
  - rewrite Hp in Ho. eapply wp_seq; [by eapply wp_abort|]. intros buf s1 _ [-> H1].
    eapply wp_own_ret; [exact H1|]. intros s2 H2. by apply (assign_write_reset t u i wb c []).
  - unfold shared_buffer_pool_abort_write_impl. rewrite Ha.
    eapply wp_own_ret; [exact Ho|]. intros s1 H1. by apply assign_write_same with c.
Qed.

Lemma wp_call_acquire_read t u d s :
  user_ok u -> Owns t (assets u) s ->
  wp t (pool_call u (OpAcquireRead d)) (call_post t u (OpAcquireRead d)) s.
Proof.
  intros [H1 H2 H3] Ho. cbn [pool_call].
  eapply wp_seq; [apply wp_acquire_read; [apply (proj2_sig d)|done]|].
  intros [rb|e] s1 _ Hr; cbn [acquired_read] in Hr; [|eapply wp_own_ret; [done|]; by intros].
  destruct Hr as [Hrb Hr]. eapply wp_own_ret; [exact Hr|]. intros s2 Hs2.
  assert (Hrb' := Hrb). destruct Hrb' as (_ & _ & _ & _ & Hd & Ha).
  split; cbn [track1].
  - split; simpl; [done| |done]. constructor; [|done]. left. by rewrite Hd.
  - rewrite assets_add_acquired. unfold assets, set_reads, past_assets, taken_asset. cbn.
    unfold read_asset at 1. rewrite Ha, Hd. eapply Own_proper; [|done|exact Hs2].
    cbn. unfold past_assets. solve_Permutation.
Qed.

(** The rest of the assets, without read variable [i]. *)
Definition other_reads (i : nat) (u : user) : list asset :=
  omap write_asset (u_writes u) ++ omap read_asset (delete i (u_reads u)) ++ past_assets u.

Lemma assets_read u i rb :
  u_reads u !! i = Some rb -> assets u ≡ₚ option_list (read_asset rb) ++ other_reads i u.
Proof.
  intros Hi. unfold assets, other_reads. rewrite (omap_delete_perm _ _ i rb Hi).
  solve_Permutation.
Qed.

Lemma assets_set_read u i rb rb' :
  u_reads u !! i = Some rb ->
  assets (set_reads (<[i := rb']> (u_reads u)) u) ≡ₚ option_list (read_asset rb') ++ other_reads i u.
Proof.
  intros Hi. unfold assets, other_reads, past_assets, set_reads. simpl.
  rewrite (omap_insert_perm _ _ i rb rb' Hi). solve_Permutation.
Qed.

Lemma read_var_cases u i rb :
  user_ok u -> u_reads u !! i = Some rb ->
  (exists d, rb_is bsz d rb /\ d = rb_descriptor rb /\
     assets u ≡ₚ AHold (bh_block_id d) false bs_kReading (bh_block_generation d) false [] ::
                 other_reads i u) \/
  (rb_active rb = false /\ rb_block rb = None /\ rb_data rb = None /\
     assets u ≡ₚ other_reads i u).
Proof.
  intros [_ Hr _] Hi. pose proof (assets_read u i _ Hi) as Hp. unfold read_asset in Hp.
  rewrite Forall_lookup in Hr. destruct (Hr i _ Hi) as [Hrb|(Ha & Hb & Hd)].
  - left. eexists. split; [exact Hrb|]. split; [done|].
    destruct Hrb as (_ & _ & _ & _ & _ & Ha). by rewrite Ha in Hp.
  - right. rewrite Ha in Hp. done.
Qed.

Lemma wp_call_read t u i s :
  user_ok u -> pinv bsz cnt s -> Owns t (assets u) s ->
  wp t (pool_call u (OpRead i)) (call_post t u (OpRead i)) s.
Proof.
  intros Hu Hinv Ho. cbn [pool_call].
  destruct (u_reads u !! i) as [rb|] eqn:Hi.
  2:{ apply (call_none t u _ tt (fun _ => ResBytes [])); [cbn; by rewrite Hi|done..]. }
  destruct (read_var_cases u i rb Hu Hi) as [(d & Hrb & Hd & Hp)|(Ha & _ & Hda & Hp)].
  - rewrite Hp in Ho. eapply wp_seq; [by eapply wp_read_buffer|]. intros bytes s1 _ [Hlen H1].
    eapply wp_own_ret; [exact H1|]. intros s2 H2. unfold call_post. cbn [track1]. rewrite Hi.
    assert (rb_active rb = true) as -> by apply Hrb. destruct Hu as [U1 U2 U3].
    split; [split; [done|done|by constructor]|].
    rewrite assets_add_seen, Hp. unfold pub_asset. simpl. rewrite <- Hd.
    eapply Own_proper; [|done|exact H2]. solve_Permutation.
  - unfold read_buffer. rewrite Hda. eapply wp_own_ret; [exact Ho|]. intros s1 H1.
    unfold call_post. cbn [track1]. rewrite Hi, Ha. done.
Qed.

Lemma wp_call_release t u i s :
  user_ok u -> Owns t (assets u) s ->
  wp t (pool_call u (OpRelease i)) (call_post t u (OpRelease i)) s.
Proof.
  intros Hu Ho. cbn [pool_call]. unfold call_post.
  destruct (u_reads u !! i) as [rb|] eqn:Hi; [|by eapply wp_own_ret].
  assert (forall rb', rb_ok rb' -> user_ok (set_reads (<[i := rb']> (u_reads u)) u)) as Hset.
  { intros rb' Hok. destruct Hu as [U1 U2 U3]. split; [done|by apply Forall_insert|done]. }
  destruct (read_var_cases u i rb Hu Hi) as [(d & Hrb & Hd & Hp)|(Ha & Hb & Hda & Hp)];
    rewrite Hp in Ho.
  - eapply wp_seq; [by eapply wp_release_read|]. intros buf s1 _ [-> H1].
    eapply wp_own_ret; [exact H1|]. intros s2 H2. cbn [track1]. split; [apply Hset; by right|].
    by rewrite (assets_set_read _ _ _ _ Hi).
  - unfold shared_buffer_pool_release_read_impl. rewrite Ha. cbn [negb].
    eapply wp_own_ret; [exact Ho|]. intros s1 H1. cbn [track1]. split; [apply Hset; by right|].
    rewrite (assets_set_read _ _ _ _ Hi). unfold read_asset. by rewrite Ha.
Qed.

Lemma wp_pool_call t u op s :
  pinv bsz cnt s -> user_ok u -> Owns t (assets u) s ->
  wp t (pool_call u op) (call_post t u op) s.
Proof.
  intros Hi Hu Ho. destruct op as [|i bytes|i|i|d|i|i| |].
  - by apply wp_call_acquire_write.
  - by apply wp_call_fill.
  - by apply wp_call_publish.
  - by apply wp_call_abort.
  - by apply wp_call_acquire_read.
  - by apply wp_call_read.
  - by apply wp_call_release.
  - cbn [pool_call]. eapply wp_own_readonly; [solve_readonly|exact Ho|]. intros r s1 H1.
    by apply (call_none t u _ r ResPoolStatus).
  - cbn [pool_call]. eapply wp_own_readonly; [solve_readonly|exact Ho|]. intros r s1 H1.
    eapply wp_own_ret; [exact H1|]. intros s2 H2. unfold call_post. cbn [track1].
    destruct Hu as [U1 U2 U3]. by destruct r as [h|e].
Qed.

(** * Any interleaving *)

(** The memory of a pool that [create] has just committed. *)
Record pool_fresh (m : ploc -> Z) : Prop := {
  pfr_block_size : m (PField pf_block_size) = bsz;
  pfr_block_count : m (PField pf_block_count) = cnt;
  pfr_ready : m (PField pf_init_state) = pi_kReady;
  pfr_blocks : forall b, 0 <= b < cnt -> m (BState b) = bs_kFree /\ m (BGeneration b) = 0
}.

Definition pghost_empty : pghost :=
  mkPGhost (fun _ => None) (fun _ _ => None) (fun _ _ => None).

Lemma fresh_pinv m : pool_fresh m -> pinv bsz cnt (mkCst m pghost_empty).
Proof.
  intros [H1 H2 H3 H4]. split; [done..|]. intros b Hb. destruct (H4 b Hb) as [Hs Hg].
  split; simpl; rewrite ?Hs, ?Hg; try done.
  - unfold UINT64_MAX. lia.
  - by intros [|[|]].
Qed.

Definition pool_reachable (hdl : tid -> SharedBufferPoolHandle) (m : ploc -> Z)
    : config (L := ploc) (G := pghost) -> Prop :=
  reachable (fun t h op => pool_call (track (hdl t) h) op) (mkCst m pghost_empty).

Section Reachable.
Context (hdl : tid -> SharedBufferPoolHandle) (m : ploc -> Z) (Hm : pool_fresh m).

Lemma pool_idle_stable t h : stable t (pool_idle hdl t h).
Proof. intros s s' [Hu Ho] Hr Hi. split; [done|]. by eapply Own_stable. Qed.

Lemma pool_op_wp t op h s :
  pinv bsz cnt s -> pool_idle hdl t h s ->
  wp t (pool_call (track (hdl t) h) op) (fun r s' => pool_idle hdl t (h ++ [(op, r)]) s') s.
Proof.
  intros Hi [Hu Ho]. eapply wp_mono; [|by apply wp_pool_call]. intros r s' _ Hpost.
  unfold pool_idle, track. rewrite !foldl_app. exact Hpost.
Qed.

Lemma pool_idle_start t : pool_idle hdl t [] (mkCst m pghost_empty).
Proof. repeat split; try constructor. Qed.

Lemma pool_reachable_ok c :
  pool_reachable hdl m c -> config_ok (pool_idle hdl) c.
Proof.
  intros Hr. eapply (client_reachable (fun t h op => pool_call (track (hdl t) h) op));
    [apply pool_idle_stable|apply pool_op_wp|by apply fresh_pinv|apply pool_idle_start|exact Hr].
Qed.

(** What a thread has done holds from then on. *)
Definition pool_past (t : tid) (h : list (pool_op * pool_res)) (s : pst) : Prop :=
  Owns t (past_assets (track (hdl t) h)) s /\
  Forall (fun x => length x.2 = Z.to_nat bsz) (u_seen (track (hdl t) h)).

Lemma past_asset_mono t a s s' :
  asset_block a = None -> (forall b, mono (view bsz s b) (view bsz s' b)) ->
  asset_ok bsz cnt t s a -> asset_ok bsz cnt t s' a.
Proof.
  intros Hb Hm'. destruct a as [|b g c|b g|b g]; [done|..]; cbn [asset_ok];
    destruct (Hm' b) as [Hp Ht].
  - intros (u & bytes & H1 & H2). exists u, bytes. eauto.
  - intros (bytes & H1). eauto.
  - apply Ht.
Qed.

Lemma past_assets_held u : Forall (fun a => asset_block a = None) (past_assets u).
Proof. unfold past_assets. rewrite !Forall_app, !Forall_map. repeat split; by apply Forall_true. Qed.

Lemma pool_reachable_past c t :
  pool_reachable hdl m c -> pool_past t (th_hist (cf_threads c t)) (cf_st c).
Proof.
  intros Hr. eapply (client_past (fun t h op => pool_call (track (hdl t) h) op) (pool_idle hdl));
    [apply pool_idle_stable|apply pool_op_wp| | |by apply fresh_pinv|apply pool_idle_start|exact Hr].
  - clear. intros t h s [Hu Ho]. split; [|apply Hu]. unfold assets in Ho.
    destruct Ho as [H1 H2 H3]. rewrite !Forall_app in H1. rewrite !omap_app in H2. rewrite !omap_app in H3.
    split; [apply H1|..].
    + by apply NoDup_app in H2 as (_ & _ & (_ & _ & ?)%NoDup_app).
    + by apply NoDup_app in H3 as (_ & _ & (_ & _ & ?)%NoDup_app).
  - clear. intros t u h X e x s s' _ [_ Hg] [[H1 H2 H3] Hs]. split; [|done].
    split; [|done|done]. pose proof (past_assets_held (track (hdl t) h)) as Hb.
    rewrite Forall_forall in H1, Hb |- *. intros a Ha.
    eapply past_asset_mono; [by apply Hb| |by apply H1].
    intros b. apply (Hg (S u)). lia.
Qed.
End Reachable.
End Client.
