(* ===== verification/PoolTheorems.v ===== *)
(** The properties of the shared buffer pool under concurrency.

    [Demo] runs the operations of two users on a pool of one block; the theorems
    are applied to what it reaches. *)
From S2P Require Import Prelude Errors CheckedMath Prog Concur ProcIdentity OwnerSnapshot.
From S2P Require Import ShmObject PoolLayout SharedBufferPool PoolProtocol PoolSafety PoolClient.

Abbreviation pool_config := (config (L := ploc) (G := pghost) (Op := pool_op) (Res := pool_res)).

(** The variables of thread [t]. *)
Definition user_of (hdl : tid -> SharedBufferPoolHandle) (c : pool_config) (t : tid) : user :=
  track (hdl t) (th_hist (cf_threads c t)).

(** Two descriptors of the same publication. *)
Definition same_publication (d d' : BufferHandle) : Prop :=
  bh_block_id d = bh_block_id d' /\ bh_block_generation d = bh_block_generation d'.

(** The blocks a thread's variables hold. *)
Definition held_blocks (u : user) : list Z :=
  omap (fun x => write_asset x ≫= asset_block) (u_writes u) ++
  omap (fun rb => read_asset rb ≫= asset_block) (u_reads u).

(** * A concrete pool *)

Module PoolDemo.
Definition handle (t : tid) : SharedBufferPoolHandle :=
  mkPoolHandle (mkShmObject "/edgeruntime.bufferpool.1000.p" 3 1 1 4352)
    "/edgeruntime.bufferpool.1000.p" (mkIdentity (100 + Z.of_nat t) 7 5 9) false false.
Definition memory (l : ploc) : Z :=
  match l with
  | PField pf_block_size => 4096
  | PField pf_block_count => 1
  | PField pf_init_state => pi_kReady
  | PField pf_generation => 1
  | PField pf_instance_nonce_hi => 3
  | PField pf_schema_version => 1
  | _ => 0
  end.
Definition os : os_model unit := fun X c _ => (sys_default c, tt).

(** The descriptor of the first publication. *)
Definition first : BufferHandle := mkBufferHandle 1 1 3 0 256 0 4096 1 0 (replicate 32 0).
Definition first_descriptor : descriptor := exist _ first (Z.le_refl 0).

Lemma demo_fresh : pool_fresh 4096 1 memory.
Proof. by split. Qed.

(** Thread 0 publishes a block and thread 1 reads it and keeps it. *)
Definition calls : list (tid * pool_op) :=
  [ (0%nat, OpAcquireWrite); (0%nat, OpFill 0 [5; 6; 7]); (0%nat, OpPublish 0);
    (1%nat, OpAcquireRead first_descriptor); (1%nat, OpRead 0) ].

Definition impl (t : tid) (h : list (pool_op * pool_res)) (op : pool_op) : pprog pool_res :=
  pool_call (track (handle t) h) op.

Definition final : pst * (tid -> list (pool_op * pool_res)) :=
  script (P := pool_protocol 4096 1) os impl calls (mkCst memory pghost_empty) (fun _ => []) tt.

Lemma demo_published : u_published (track (handle 0%nat) (final.2 0%nat)) = [(first, [5; 6; 7])].
Proof. by vm_compute. Qed.
Lemma demo_acquired : u_acquired (track (handle 1%nat) (final.2 1%nat)) = [first].
Proof. by vm_compute. Qed.
Lemma demo_seen :
  u_seen (track (handle 1%nat) (final.2 1%nat)) = [(first, 5 :: 6 :: 7 :: replicate 4093 0)].
Proof. by vm_compute. Qed.
Lemma demo_holds : held_blocks (track (handle 1%nat) (final.2 1%nat)) = [0].
Proof. by vm_compute. Qed.

Lemma demo_reached :
  exists c, pool_reachable 4096 1 handle memory c /\
    forall t, cf_threads c t = mkThread None (final.2 t).
Proof.
  destruct (script_reachable (P := pool_protocol 4096 1) os impl (mkCst memory pghost_empty)
    calls tt) as (c & Hr & _ & Ht). by exists c.
Qed.
End PoolDemo.

Section Theorems.
Context (bsz cnt : Z) (hdl : tid -> SharedBufferPoolHandle) (m : ploc -> Z) (c : pool_config).
Hypothesis Hm : pool_fresh bsz cnt m.
Hypothesis Hr : pool_reachable bsz cnt hdl m c.

Lemma user_past t :
  Own bsz cnt t (past_assets (user_of hdl c t)) (cf_st c) /\
  Forall (fun x => length x.2 = Z.to_nat bsz) (u_seen (user_of hdl c t)).
Proof. exact (pool_reachable_past bsz cnt hdl m Hm c t Hr). Qed.

Lemma past_ok t a : a ∈ past_assets (user_of hdl c t) -> asset_ok bsz cnt t (cf_st c) a.
Proof. destruct (user_past t) as [[H _ _] _]. rewrite Forall_forall in H. apply H. Qed.

Lemma published_once_owner t d x :
  (d, x) ∈ u_published (user_of hdl c t) ->
  asset_ok bsz cnt t (cf_st c) (author_asset (d, x)) /\
  asset_ok bsz cnt t (cf_st c) (pub_asset (d, x)).
Proof.
  intros Hin. split; apply past_ok; unfold past_assets; rewrite !elem_of_app.
  - left. by apply (list_elem_of_fmap_2 author_asset).
  - right. left. by apply (list_elem_of_fmap_2 pub_asset).
Qed.

Lemma seen_ok t d bytes :
  (d, bytes) ∈ u_seen (user_of hdl c t) ->
  asset_ok bsz cnt t (cf_st c) (pub_asset (d, bytes)) /\ length bytes = Z.to_nat bsz.
Proof.
  intros Hin. split.
  - apply past_ok. unfold past_assets. rewrite !elem_of_app. do 3 right.
    by apply (list_elem_of_fmap_2 pub_asset).
  - destruct (user_past t) as [_ H]. rewrite Forall_forall in H. exact (H _ Hin).
Qed.

Lemma taken_ok t d :
  d ∈ u_acquired (user_of hdl c t) -> asset_ok bsz cnt t (cf_st c) (taken_asset d).
Proof.
  intros Hin. apply past_ok. unfold past_assets. rewrite !elem_of_app. do 2 right. left.
  by apply (list_elem_of_fmap_2 taken_asset).
Qed.

Lemma past_tokens u :
  omap asset_token (past_assets u) =
  map (fun x => (true, bh_block_id x.1, bh_block_generation x.1)) (u_published u) ++
  map (fun d => (false, bh_block_id d, bh_block_generation d)) (u_acquired u).
Proof.
  unfold past_assets. rewrite !omap_app.
  assert (forall l, omap asset_token (map pub_asset l) = []) as Hpub
    by (intros l; by induction l as [|x l IH]).
  rewrite !Hpub, app_nil_r. simpl. f_equal.
  - induction (u_published u) as [|x l IH]; [done|]. cbn. by f_equal.
  - induction (u_acquired u) as [|d l IH]; [done|]. cbn. by f_equal.
Qed.

Lemma tokens_distinct t :
  NoDup (map (fun x => (true, bh_block_id x.1, bh_block_generation x.1))
           (u_published (user_of hdl c t))) /\
  NoDup (map (fun d => (false, bh_block_id d, bh_block_generation d))
           (u_acquired (user_of hdl c t))).
Proof.
  destruct (user_past t) as [[_ _ H] _]. rewrite past_tokens in H.
  by apply NoDup_app in H as (? & _ & ?).
Qed.

(** Two copies of one publication are the same list. *)
Lemma same_bytes t u d d' x y :
  asset_ok bsz cnt t (cf_st c) (pub_asset (d, x)) ->
  asset_ok bsz cnt u (cf_st c) (pub_asset (d', y)) -> same_publication d d' ->
  length y = Z.to_nat bsz -> x `prefix_of` y.
Proof.
  intros (w & p & Hp & Hx & Hl) (w' & p' & Hp' & Hy & Hl') [Hb Hg] Hlen. simpl in *.
  rewrite Hb, Hg, Hp' in Hp. injection Hp as -> ->.
  destruct Hy as [k ->]. rewrite length_app in Hl. destruct k; [|simpl in *; lia].
  by rewrite app_nil_r in Hx.
Qed.

Lemma held_blocks_assets u : held_blocks u = omap asset_block (assets u).
Proof.
  unfold held_blocks, assets. rewrite !omap_app.
  assert (omap asset_block (past_assets u) = []) as ->.
  { pose proof (past_assets_held u) as H. induction (past_assets u) as [|a l IH]; [done|].
    apply Forall_cons in H as [Ha H]. cbn. rewrite Ha. by apply IH. }
  rewrite app_nil_r. f_equal.
  - induction (u_writes u) as [|x l IH]; [done|]. cbn. destruct (write_asset x); [|done].
    cbn. case_match; by rewrite IH.
  - induction (u_reads u) as [|x l IH]; [done|]. cbn. destruct (read_asset x); [|done].
    cbn. case_match; by rewrite IH.
Qed.

(** A thread between two calls has the blocks of its variables. *)
Lemma idle_holds t b :
  th_run (cf_threads c t) = None -> b ∈ held_blocks (user_of hdl c t) ->
  exists wr, pg_holder (c_gh (cf_st c)) b = Some (t, wr).
Proof.
  intros Hidle Hb. destruct (pool_reachable_ok bsz cnt hdl m Hm c Hr) as [_ Ht].
  specialize (Ht t). unfold thread_ok in Ht. rewrite Hidle in Ht. destruct Ht as [_ [Hok _ _]].
  rewrite held_blocks_assets in Hb. apply list_elem_of_omap in Hb as (a & Ha & Hab).
  rewrite Forall_forall in Hok. specialize (Hok a Ha). destruct a; simplify_eq/=.
  destruct Hok as (_ & Hh & _). by exists writer.
Qed.

Lemma idle_distinct t :
  th_run (cf_threads c t) = None -> NoDup (held_blocks (user_of hdl c t)).
Proof.
  intros Hidle. destruct (pool_reachable_ok bsz cnt hdl m Hm c Hr) as [_ Ht].
  specialize (Ht t). unfold thread_ok in Ht. rewrite Hidle in Ht. destruct Ht as [_ [_ Hnd _]].
  by rewrite held_blocks_assets.
Qed.
End Theorems.

(** * The theorems *)

(** C13: a reader sees exactly what was published. Whatever threads do around
    them, the bytes a thread reads through a read buffer begin with the bytes the
    publisher of that block and generation had filled in, there are [block_size]
    of them, and every two readings of one publication agree. *)
Theorem pool_reader_sees_publication bsz cnt hdl m c u d bytes :
  pool_fresh bsz cnt m -> pool_reachable bsz cnt hdl m c ->
  (d, bytes) ∈ u_seen (user_of hdl c u) ->
  length bytes = Z.to_nat bsz /\
  (forall t d' content, (d', content) ∈ u_published (user_of hdl c t) ->
     same_publication d' d -> content `prefix_of` bytes) /\
  (forall t d' bytes', (d', bytes') ∈ u_seen (user_of hdl c t) ->
     same_publication d' d -> bytes' = bytes).
Proof.
  intros Hm Hr Hs. destruct (seen_ok bsz cnt hdl m c Hm Hr u d bytes Hs) as [Hb Hl].
  split; [done|]. split.
  - intros t d' x Hx Hd. destruct (published_once_owner bsz cnt hdl m c Hm Hr t d' x Hx) as [_ Hp].
    by eapply same_bytes.
  - intros t d' y Hy Hd. destruct (seen_ok bsz cnt hdl m c Hm Hr t d' y Hy) as [Hp Hl'].
    pose proof (same_bytes _ _ _ _ _ _ _ _ _ Hp Hb Hd Hl) as [k ->].
    rewrite length_app in Hl. destruct k; [by rewrite app_nil_r|simpl in *; lia].
Qed.

Lemma pool_reader_sees_publication_witness :
  exists c : pool_config, pool_reachable 4096 1 PoolDemo.handle PoolDemo.memory c /\
    exists bytes, (PoolDemo.first, bytes) ∈ u_seen (user_of PoolDemo.handle c 1%nat) /\
      [5; 6; 7] `prefix_of` bytes.
Proof.
  destruct PoolDemo.demo_reached as (c & Hr & Ht). exists c. split; [exact Hr|].
  exists (5 :: 6 :: 7 :: replicate 4093 0).
  assert ((PoolDemo.first, 5 :: 6 :: 7 :: replicate 4093 0) ∈ u_seen (user_of PoolDemo.handle c 1%nat))
    as Hin by (unfold user_of; rewrite (Ht 1%nat); cbn [th_hist]; rewrite PoolDemo.demo_seen; by left).
  split; [exact Hin|].
  apply (proj1 (proj2 (pool_reader_sees_publication 4096 1 PoolDemo.handle PoolDemo.memory c
           1%nat PoolDemo.first _ PoolDemo.demo_fresh Hr Hin)) 0%nat PoolDemo.first); [|by split].
  unfold user_of. rewrite (Ht 0%nat). cbn [th_hist]. rewrite PoolDemo.demo_published. by left.
Defined.

(** Of all successful [acquire_read] calls no two are for the same block and generation. *)
Lemma acquired_once bsz cnt hdl m c t u i j d d' :
  pool_fresh bsz cnt m -> pool_reachable bsz cnt hdl m c ->
  u_acquired (user_of hdl c t) !! i = Some d -> u_acquired (user_of hdl c u) !! j = Some d' ->
  same_publication d d' -> t = u /\ i = j.
Proof.
  intros Hm Hr Hi Hj Hsame. assert (t = u) as <-.
  { pose proof (taken_ok bsz cnt hdl m c Hm Hr t d (list_elem_of_lookup_2 _ _ _ Hi)) as H1.
    pose proof (taken_ok bsz cnt hdl m c Hm Hr u d' (list_elem_of_lookup_2 _ _ _ Hj)) as H2.
    destruct Hsame as [Hb Hg]. simpl in H1, H2. rewrite Hb, Hg, H2 in H1. by injection H1. }
  split; [done|]. destruct (tokens_distinct bsz cnt hdl m c Hm Hr t) as [_ Hnd].
  eapply NoDup_lookup; [exact Hnd|rewrite list_lookup_fmap, Hi; done|].
  rewrite list_lookup_fmap, Hj. simpl. destruct Hsame as [-> ->]. done.
Qed.

(** Of all successful [publish] calls no two return the same block and generation. *)
Lemma published_once bsz cnt hdl m c t u i j d d' x y :
  pool_fresh bsz cnt m -> pool_reachable bsz cnt hdl m c ->
  u_published (user_of hdl c t) !! i = Some (d, x) ->
  u_published (user_of hdl c u) !! j = Some (d', y) ->
  same_publication d d' -> t = u /\ i = j.
Proof.
  intros Hm Hr Hi Hj Hsame. assert (t = u) as <-.
  { destruct (published_once_owner bsz cnt hdl m c Hm Hr t d x (list_elem_of_lookup_2 _ _ _ Hi))
      as [[p H1] _].
    destruct (published_once_owner bsz cnt hdl m c Hm Hr u d' y (list_elem_of_lookup_2 _ _ _ Hj))
      as [[p' H2] _].
    destruct Hsame as [Hb Hg]. simpl in H1, H2. rewrite Hb, Hg, H2 in H1. by injection H1. }
  split; [done|]. destruct (tokens_distinct bsz cnt hdl m c Hm Hr t) as [Hnd _].
  eapply NoDup_lookup; [exact Hnd|rewrite list_lookup_fmap, Hi; done|].
  rewrite list_lookup_fmap, Hj. simpl. destruct Hsame as [-> ->]. done.
Qed.

(** C14: a publication is read once and named once. Of all successful [acquire_read] calls, by
    all threads and for all descriptors, no two are for the same block and generation; and of
    all successful [publish] calls no two return the same block and generation, so a
    descriptor kept from an earlier publication never names a later one. *)
Theorem pool_read_once bsz cnt hdl m c t u i j d d' :
  pool_fresh bsz cnt m -> pool_reachable bsz cnt hdl m c -> same_publication d d' ->
  (u_acquired (user_of hdl c t) !! i = Some d -> u_acquired (user_of hdl c u) !! j = Some d' ->
   t = u /\ i = j) /\
  (forall x y, u_published (user_of hdl c t) !! i = Some (d, x) ->
     u_published (user_of hdl c u) !! j = Some (d', y) -> t = u /\ i = j).
Proof.
  intros Hm Hr Hs. split; [intros Hi Hj; by eapply acquired_once|intros x y Hi Hj; by eapply published_once].
Qed.

Lemma pool_read_once_witness :
  exists c : pool_config, pool_reachable 4096 1 PoolDemo.handle PoolDemo.memory c /\
    forall u j d', same_publication PoolDemo.first d' ->
      (u_acquired (user_of PoolDemo.handle c u) !! j = Some d' -> 1%nat = u /\ 0%nat = j) /\
      (forall y, u_published (user_of PoolDemo.handle c u) !! j = Some (d', y) -> 0%nat = u /\ 0%nat = j).
Proof.
  destruct PoolDemo.demo_reached as (c & Hr & Ht). exists c. split; [exact Hr|].
  intros u j d' Hs. split.
  - apply (proj1 (pool_read_once 4096 1 PoolDemo.handle PoolDemo.memory c 1%nat u 0%nat j
             PoolDemo.first d' PoolDemo.demo_fresh Hr Hs)).
    unfold user_of. rewrite (Ht 1%nat). cbn [th_hist]. by rewrite PoolDemo.demo_acquired.
  - intros y. apply (proj2 (pool_read_once 4096 1 PoolDemo.handle PoolDemo.memory c 0%nat u 0%nat j
             PoolDemo.first d' PoolDemo.demo_fresh Hr Hs) [5; 6; 7] y).
    unfold user_of. rewrite (Ht 0%nat). cbn [th_hist]. by rewrite PoolDemo.demo_published.
Defined.

(** C16: a buffer is the exclusive right to its block: at every moment, no two
    active write or read buffers of threads between calls, in the same thread or
    in different ones, are on the same block. *)
Theorem pool_exclusive bsz cnt hdl m c t u i j b :
  pool_fresh bsz cnt m -> pool_reachable bsz cnt hdl m c ->
  th_run (cf_threads c t) = None -> th_run (cf_threads c u) = None ->
  held_blocks (user_of hdl c t) !! i = Some b -> held_blocks (user_of hdl c u) !! j = Some b ->
  t = u /\ i = j.
Proof.
  intros Hm Hr It Iu Hi Hj. assert (t = u) as <-.
  { destruct (idle_holds bsz cnt hdl m c Hm Hr t b It (list_elem_of_lookup_2 _ _ _ Hi)) as [w H1].
    destruct (idle_holds bsz cnt hdl m c Hm Hr u b Iu (list_elem_of_lookup_2 _ _ _ Hj)) as [w' H2].
    rewrite H2 in H1. by injection H1. }
  split; [done|]. eapply NoDup_lookup; [by eapply (idle_distinct bsz cnt)|exact Hi|exact Hj].
Qed.

Lemma pool_exclusive_witness :
  exists c : pool_config, pool_reachable 4096 1 PoolDemo.handle PoolDemo.memory c /\
    forall u j, held_blocks (user_of PoolDemo.handle c u) !! j = Some 0 ->
      1%nat = u /\ 0%nat = j.
Proof.
  destruct PoolDemo.demo_reached as (c & Hr & Ht). exists c. split; [exact Hr|].
  intros u j.
  apply (pool_exclusive 4096 1 PoolDemo.handle PoolDemo.memory c 1%nat u 0%nat j 0
           PoolDemo.demo_fresh Hr); [by rewrite Ht..|].
  unfold user_of. rewrite (Ht 1%nat). cbn [th_hist]. by rewrite PoolDemo.demo_holds.
Defined.
