(* ===== verification/PoolCreate.v ===== *)
(** Creating and opening a buffer pool.

    A successful [shared_buffer_pool_create_impl] leaves a pool of free blocks in
    the segment, whatever bytes it held before, with a header that
    [validate_header] accepts for the same options; a header with one corrupted
    byte is refused. *)
From S2P Require Import Prelude Errors CheckedMath Checksum Prog SeqLogic Concur ProcIdentity.
From S2P Require Import OwnerSnapshot ShmObject ChannelLayout PoolLayout SharedBufferPool.
From S2P Require Import PoolProtocol PoolSafety PoolClient.

Abbreviation pmem := (ploc -> Z).

(** * The stores of the creation *)

Lemma pool_magic_nodup : NoDup magic_locs.
Proof. apply (bool_decide_unpack _). by vm_compute. Qed.
Lemma pool_fingerprint_nodup : NoDup fingerprint_locs.
Proof. apply (bool_decide_unpack _). by vm_compute. Qed.
Lemma pool_magic_only l : l ∈ magic_locs -> exists i, l = PMagic i.
Proof. intros (i & -> & _)%list_elem_of_fmap. eauto. Qed.
Lemma pool_fingerprint_only l : l ∈ fingerprint_locs -> exists i, l = PFingerprint i.
Proof. intros (i & -> & _)%list_elem_of_fmap. eauto. Qed.

Ltac not_in_pool_kind :=
  match goal with
  | |- ?l ∉ magic_locs => intros [? ?]%pool_magic_only; discriminate
  | |- ?l ∉ fingerprint_locs => intros [? ?]%pool_fingerprint_only; discriminate
  end.

Record pool_header_is (options : SharedBufferPoolOptions) (mapping_size hi lo : Z)
    (self : ProcessIdentity) (m : pmem) : Prop := {
  phi_magic : map m magic_locs = string_codes kSharedBufferPoolMagic;
  phi_fingerprint : map m fingerprint_locs = sd_fingerprint (po_schema options);
  phi_major : m (PField pf_abi_major) = kSharedBufferPoolAbiMajor;
  phi_minor : m (PField pf_abi_minor) = kSharedBufferPoolAbiMinor;
  phi_endian : m (PField pf_endian_marker) = kSharedBufferPoolEndianMarker;
  phi_header_size : m (PField pf_header_size) = kPoolHeaderSize;
  phi_block_size : m (PField pf_block_size) = po_block_size options;
  phi_block_count : m (PField pf_block_count) = po_block_count options;
  phi_mapping : m (PField pf_mapping_size) = mapping_size;
  phi_generation : m (PField pf_generation) = 1;
  phi_nonce_hi : m (PField pf_instance_nonce_hi) = hi;
  phi_nonce_lo : m (PField pf_instance_nonce_lo) = lo;
  phi_version : m (PField pf_schema_version) = sd_version (po_schema options);
  phi_creator : forall f, m (PCreator f) = owner_get self f
}.

(** The header does not depend on the blocks, on [init_state] and on the
    checksum. *)
Lemma pool_header_ext options size hi lo self m m' :
  (forall l, ploc_block l = None -> l <> PField pf_init_state ->
     l <> PField pf_header_checksum -> m' l = m l) ->
  pool_header_is options size hi lo self m -> pool_header_is options size hi lo self m'.
Proof.
  intros H []. split; rewrite ?H by done; try done.
  - rewrite <- phi_magic0. apply map_ext_in. intros l Hl%list_elem_of_In.
    by apply pool_magic_only in Hl as [i ->]; apply H.
  - rewrite <- phi_fingerprint0. apply map_ext_in. intros l Hl%list_elem_of_In.
    by apply pool_fingerprint_only in Hl as [i ->]; apply H.
  - intros f. by rewrite H.
Qed.

Lemma seq_pool_init_header options size hi lo self m :
  length (sd_fingerprint (po_schema options)) = 32%nat ->
  swp (init_header options size hi lo self) (fun _ m' =>
    pool_header_is options size hi lo self m' /\
    forall l, ploc_block l <> None -> m' l = m l) m.
Proof.
  intros Hfp. unfold init_header.
  eapply swp_seq; [apply swp_store_list; [apply pool_magic_nodup|by vm_compute]|].
  intros _ m1 [Hmagic H1].
  cbn -[upd store_list sd_fingerprint fingerprint_locs].
  eapply swp_seq; [apply swp_store_list; [apply pool_fingerprint_nodup|done]|].
  intros _ m2 [Hprint H2]. cbn -[upd magic_locs fingerprint_locs map string_codes].
  split.
  - split; upd_simpl; try (rewrite H2 by not_in_pool_kind); upd_simpl; try done.
    + rewrite <- Hmagic. apply map_ext_in. intros l Hl%list_elem_of_In.
      apply pool_magic_only in Hl as [i ->]. upd_simpl. rewrite H2 by not_in_pool_kind.
      by upd_simpl.
    + intros []; by upd_simpl.
  - intros l Hl. rewrite !upd_ne by (intros ->; by apply Hl).
    rewrite H2 by (intros (i & ->)%pool_fingerprint_only; by apply Hl).
    rewrite !upd_ne by (intros ->; by apply Hl).
    apply H1. intros (i & ->)%pool_magic_only. by apply Hl.
Qed.

(** Every block free, of generation 0. *)
Lemma seq_init_blocks bsz cnt ids m :
  shared_buffer_pool_block_size_valid bsz = true -> 0 < cnt <= kSharedBufferPoolMaxBlockCount ->
  NoDup ids -> Forall (fun b => 0 <= b < cnt) ids ->
  swp (init_blocks bsz cnt ids) (fun ok m' => ok = true /\
    (forall b, b ∈ ids -> m' (BState b) = bs_kFree /\ m' (BGeneration b) = 0) /\
    (forall l, (forall b, ploc_block l = Some b -> b ∉ ids) -> m' l = m l)) m.
Proof.
  intros Hs Hc. revert m. induction ids as [|b ids IH]; intros m Hnd Hr.
  { simpl. split; [done|]. split; [|done]. intros i Hi. by apply elem_of_nil in Hi. }
  apply NoDup_cons in Hnd as [Hb Hnd]. apply Forall_cons in Hr as [Hrb Hr].
  cbn [init_blocks]. rewrite pool_block_offset_spec by done.
  cbn -[upd]. eapply swp_mono; [by apply IH|]. intros ok m' (-> & Hin & Hout).
  split; [done|]. split.
  - intros b' Hb'. apply elem_of_cons in Hb' as [->|Hb']; [|by apply Hin].
    rewrite !Hout by (intros ? [= <-]; done). by upd_simpl.
  - intros l Hl. rewrite Hout by (intros b' Hb' Hin'; apply (Hl b' Hb'); by right).
    rewrite !upd_ne; [done|..]; intros ->; apply (Hl b eq_refl); by left.
Qed.

(** The bytes the checksum covers. *)
Definition copy_of (fields : list (nat * option ploc)) (m : pmem) : list Z :=
  concat (map (fun '(width, l) => le_bytes width match l with Some l => m l | None => 0 end)
            fields).

Lemma seq_load_copy fields m :
  swp (load_copy fields) (fun bs m' => bs = copy_of fields m /\ m' = m) m.
Proof.
  induction fields as [|[w [l|]] fields IH]; simpl; [done|..];
    (eapply swp_seq; [exact IH|]; by intros bs m' [-> ->]).
Qed.

Lemma seq_pool_checksum m :
  swp header_checksum (fun c m' => c = fnv1a64 (copy_of checksum_fields m) /\ m' = m) m.
Proof.
  unfold header_checksum. eapply swp_seq; [apply seq_load_copy|]. by intros bs m' [-> ->].
Qed.

Lemma copy_of_ext fields m m' :
  (forall l, Some l ∈ map snd fields -> m' l = m l) -> copy_of fields m' = copy_of fields m.
Proof.
  intros H. unfold copy_of. f_equal. apply map_ext_in. intros [w [l|]] Hl; [|done].
  rewrite H; [done|]. apply list_elem_of_In, (in_map snd _ _ Hl).
Qed.

(** The checksum covers neither itself nor [init_state]. *)
Lemma copy_of_commit m c v :
  copy_of checksum_fields (upd (PField pf_init_state) v (upd (PField pf_header_checksum) c m))
  = copy_of checksum_fields m.
Proof.
  apply copy_of_ext. intros l Hl. rewrite !upd_ne; [done|..]; intros ->; revert Hl;
    apply (bool_decide_unpack _); by vm_compute.
Qed.

(** * A created segment *)

Record pool_created (options : SharedBufferPoolOptions) (size : Z) (m : pmem) : Prop := {
  pc_header : exists hi lo self, pool_header_is options size hi lo self m /\
    ~ (hi = 0 /\ lo = 0) /\ owner_valid self = true;
  pc_checksum : m (PField pf_header_checksum) = fnv1a64 (copy_of checksum_fields m);
  pc_ready : m (PField pf_init_state) = pi_kReady;
  pc_blocks : forall b, 0 <= b < po_block_count options ->
    m (BState b) = bs_kFree /\ m (BGeneration b) = 0
}.

Lemma block_ids_elem n b : b ∈ block_ids n <-> 0 <= b < n.
Proof.
  unfold block_ids. rewrite list_elem_of_fmap. split.
  - intros (j & -> & Hj%elem_of_seq). lia.
  - intros Hb. exists (Z.to_nat b). split; [lia|]. apply elem_of_seq. lia.
Qed.
Lemma block_ids_nodup n : NoDup (block_ids n).
Proof. apply NoDup_fmap_2; [intros ? ?; lia|apply NoDup_seq]. Qed.

(** The nonces are not both zero, and the creator is a real process. *)
Lemma seq_pool_nonces self m :
  swp (pool_nonces self) (fun r m' => m' = m /\
    match r with
    | Some (hi, lo) => ~ (hi = 0 /\ lo = 0) /\ owner_valid self = true
    | None => True
    end) m.
Proof.
  unfold pool_nonces. replace (owner_valid (owner_from_process self)) with (owner_valid self) by done.
  destruct (owner_valid self) eqn:Hv; cbn [negb]; [|done].
  assert (readonly random_u64) as Hro by (unfold random_u64; solve_readonly).
  eapply swp_seq; [by apply swp_readonly|]. intros [hi|] m1 ->; [|done].
  eapply swp_seq; [by apply swp_readonly|]. intros [lo|] m2 ->; [|done].
  cbn [swp]. split; [done|]. bdestr (hi =? 0); cbn [andb]; [|split; [lia|done]].
  bdestr (lo =? 0); [done|]. split; [lia|done].
Qed.

Definition pool_create_post (options : SharedBufferPoolOptions) (size : Z)
    (r : Result SharedBufferPoolHandle) (m : pmem) : Prop :=
  match r with
  | Ok h => pool_created options size m /\ ph_removed h = false /\ ph_created h = true
  | Err _ => True
  end.

Lemma pool_create_post_err {options size} (p : pprog (Result SharedBufferPoolHandle)) m :
  leaves is_err p -> swp p (pool_create_post options size) m.
Proof.
  intros Hl. eapply swp_mono; [by apply swp_leaves|]. by intros r m' [e ->].
Qed.

Lemma pool_cleanup_err shm_name dev ino e :
  leaves is_err (@cleanup_and_fail SharedBufferPoolHandle shm_name dev ino e).
Proof. unfold cleanup_and_fail. solve_leaves. Qed.
#[local] Hint Resolve pool_cleanup_err : prog_db.

(** The final two stores complete a segment whose header and blocks are set. *)
Lemma pool_created_commit options size hi lo self m :
  pool_header_is options size hi lo self m -> ~ (hi = 0 /\ lo = 0) -> owner_valid self = true ->
  (forall b, 0 <= b < po_block_count options -> m (BState b) = bs_kFree /\ m (BGeneration b) = 0) ->
  pool_created options size
    (upd (PField pf_init_state) pi_kReady
       (upd (PField pf_header_checksum) (fnv1a64 (copy_of checksum_fields m)) m)).
Proof.
  intros Hh Hn Hv Hb. split.
  - exists hi, lo, self. split; [|done]. eapply pool_header_ext; [|exact Hh].
    intros l _ H1 H2. by rewrite !upd_ne.
  - rewrite copy_of_commit. by rewrite upd_ne, upd_eq.
  - apply upd_eq.
  - intros b Hbr. rewrite !upd_ne by done. by apply Hb.
Qed.

Lemma seq_pool_create_mapped options size self object m :
  shared_buffer_pool_block_size_valid (po_block_size options) = true ->
  0 < po_block_count options <= kSharedBufferPoolMaxBlockCount ->
  length (sd_fingerprint (po_schema options)) = 32%nat ->
  swp (create_mapped options size self object) (pool_create_post options size) m.
Proof.
  intros Hs Hc Hf. unfold create_mapped.
  eapply swp_seq; [apply swp_zero|]. intros _ m1 _.
  eapply swp_seq; [apply seq_pool_nonces|].
  intros [[hi lo]|] m2 [-> Hn]; [|apply pool_create_post_err, pool_cleanup_err].
  destruct Hn as [Hn Hv].
  eapply swp_seq; [by apply seq_pool_init_header|]. intros _ m3 [Hh _].
  eapply swp_seq; [apply seq_init_blocks; try done; [apply block_ids_nodup|]|].
  { apply Forall_forall. intros b Hb. by apply block_ids_elem. }
  intros ok m4 (-> & Hblocks & H4). cbn [negb].
  eapply swp_seq; [apply seq_pool_checksum|]. intros c m5 [-> ->].
  cbn [bind plain_store shared_store_release trigger swp sev pool_create_post ph_removed
       ph_created].
  split; [|done]. eapply pool_created_commit; [|done|done|].
  - eapply pool_header_ext; [|exact Hh]. intros l Hl _ _. apply H4. by rewrite Hl.
  - intros b Hb. apply Hblocks. by apply block_ids_elem.
Qed.

(** What [validate_options] guarantees. *)
Lemma pool_options_ok options :
  is_u32 (po_block_count options) -> validate_options options = Ok tt ->
  shared_buffer_pool_block_size_valid (po_block_size options) = true /\
  0 < po_block_count options <= kSharedBufferPoolMaxBlockCount /\
  sd_version (po_schema options) <> 0.
Proof.
  intros Hc. unfold validate_options. destruct (_ || _) eqn:E1; [done|].
  destruct (_ || _ || _) eqn:E2; [done|]. intros _. bprop. unfold is_u32 in Hc.
  repeat split; try lia; try done.
Qed.

Section CreateImpl.
Context (options : SharedBufferPoolOptions).
Hypothesis count_u32 : is_u32 (po_block_count options).
Hypothesis fingerprint_len : length (sd_fingerprint (po_schema options)) = 32%nat.

Definition pool_create_ok (r : Result SharedBufferPoolHandle) (m : pmem) : Prop :=
  match r with
  | Ok _ => validate_options options = Ok tt /\
      exists size, shared_buffer_pool_mapping_size_for (po_block_size options)
                     (po_block_count options) = Some size /\ pool_create_post options size r m
  | Err _ => True
  end.

Lemma pool_create_ok_err (p : pprog (Result SharedBufferPoolHandle)) m :
  leaves is_err p -> swp p pool_create_ok m.
Proof. intros Hl. eapply swp_mono; [by apply swp_leaves|]. by intros r m' [e ->]. Qed.

(** A step whose error ends the creation. *)
Lemma pool_create_step {A} (p : pprog (Result A)) (f : A -> pprog (Result SharedBufferPoolHandle)) m :
  (forall a m', swp (f a) pool_create_ok m') -> swp (let? a := p in f a) pool_create_ok m.
Proof.
  intros Hf. eapply swp_seq; [apply (swp_leaves (fun _ => True)), leaves_true|].
  intros [a|e] m' _; [apply Hf|done].
Qed.

Lemma seq_pool_create m : swp (shared_buffer_pool_create_impl options) pool_create_ok m.
Proof.
  unfold shared_buffer_pool_create_impl.
  destruct (validate_options options) as [[]|e] eqn:Hv; [|done].
  destruct (pool_options_ok options) as (Hs & Hc & _); [done..|]. cbn [lift bind].
  apply pool_create_step. intros self m1.
  destruct (shared_buffer_pool_mapping_size_for _ _) as [size|] eqn:Hm; [|done].
  eapply swp_seq; [apply (swp_leaves (fun _ => True)), leaves_true|]. intros name m2 _.
  apply pool_create_step. intros fd m3.
  eapply swp_seq; [apply (swp_leaves (fun _ => True)), leaves_true|].
  intros [[[dev ino] sz]|e] m4 _.
  2: { apply pool_create_ok_err. solve_leaves. }
  eapply swp_seq; [apply (swp_leaves (fun _ => True)), leaves_true|].
  intros [[]|e] m5 _; [|apply pool_create_ok_err, pool_cleanup_err].
  eapply swp_seq; [apply (swp_leaves (fun _ => True)), leaves_true|].
  intros [addr|e] m6 _; [|apply pool_create_ok_err, pool_cleanup_err].
  eapply swp_mono; [by apply seq_pool_create_mapped|]. intros [h|e] m7 Hpost; [|done].
  split; [done|]. by exists size.
Qed.
End CreateImpl.

Lemma pool_created_fresh options size m :
  pool_created options size m ->
  pool_fresh (po_block_size options) (po_block_count options) m.
Proof. intros [(hi & lo & self & [] & _) _ Hr Hb]. by split. Qed.

(** * Validation *)

(** The headers [validate_header] accepts. *)
Record pool_header_accepted (actual_size : Z) (options : SharedBufferPoolOptions) (m : pmem)
    : Prop := {
  pha_magic : map m magic_locs = string_codes kSharedBufferPoolMagic;
  pha_major : m (PField pf_abi_major) = kSharedBufferPoolAbiMajor;
  pha_minor : m (PField pf_abi_minor) <= kSharedBufferPoolAbiMinor;
  pha_header_size : m (PField pf_header_size) = kPoolHeaderSize;
  pha_endian : m (PField pf_endian_marker) = kSharedBufferPoolEndianMarker;
  pha_block_size : m (PField pf_block_size) = po_block_size options;
  pha_block_count : m (PField pf_block_count) = po_block_count options;
  pha_shape : shared_buffer_pool_block_size_valid (po_block_size options) = true /\
    po_block_count options <> 0 /\ po_block_count options <= kSharedBufferPoolMaxBlockCount;
  pha_generation : m (PField pf_generation) <> 0;
  pha_nonces : ~ (m (PField pf_instance_nonce_hi) = 0 /\ m (PField pf_instance_nonce_lo) = 0);
  pha_creator : owner_valid (mkIdentity (m (PCreator of_pid)) (m (PCreator of_start))
                  (m (PCreator of_boot_hi)) (m (PCreator of_boot_lo))) = true;
  pha_mapping : shared_buffer_pool_mapping_size_for (po_block_size options)
                  (po_block_count options) = Some (m (PField pf_mapping_size)) /\
                actual_size = m (PField pf_mapping_size);
  pha_ready : m (PField pf_init_state) = pi_kReady;
  pha_checksum : m (PField pf_header_checksum) = fnv1a64 (copy_of checksum_fields m);
  pha_version : m (PField pf_schema_version) = sd_version (po_schema options) /\
                sd_version (po_schema options) <> 0;
  pha_fingerprint : map m fingerprint_locs = sd_fingerprint (po_schema options)
}.

Lemma seq_pool_same_schema schema m :
  swp (same_schema schema) (fun b m' =>
    b = bool_decide (m (PField pf_schema_version) = sd_version schema /\
                     map m fingerprint_locs = sd_fingerprint schema) /\ m' = m) m.
Proof.
  unfold same_schema. loads.
  bdestr (m (PField pf_schema_version) =? sd_version schema); cbn [negb].
  - eapply swp_seq; [apply swp_load_list|]. intros ? ? [-> ->]. cbn [swp]. split; [|done].
    apply bool_decide_ext. tauto.
  - cbn [swp]. split; [|done]. symmetry. apply bool_decide_eq_false. tauto.
Qed.

Lemma seq_load_creator m :
  swp load_creator (fun c m' => c = mkIdentity (m (PCreator of_pid)) (m (PCreator of_start))
    (m (PCreator of_boot_hi)) (m (PCreator of_boot_lo)) /\ m' = m) m.
Proof. done. Qed.

Lemma seq_pool_validate_header size options m :
  swp (validate_header size options) (fun r m' =>
    (r = Ok tt <-> pool_header_accepted size options m) /\ m' = m) m.
Proof.
  unfold validate_header. eapply swp_seq_value; [apply swp_load_list|].
  case_bool_decide as Hleg; [refuse; by rewrite Hleg in *|].
  case_bool_decide as Hmagic; cbn [negb]; [|by refuse]. loads.
  cond E1; [refuse; bprop; lia|]. loads.
  cond E2; [refuse; bprop; lia|]. loads.
  eapply swp_seq_value; [apply seq_load_creator|].
  cond E3.
  { refuse. destruct pha_shape0 as (S1 & S2 & S3). rewrite pha_block_size0, pha_block_count0 in E3.
    rewrite S1, pha_creator0 in E3. cbn [negb orb] in E3. rewrite orb_false_r in E3.
    destruct pha_version0. bprop. lia. }
  loads. cond E4.
  { refuse. destruct pha_mapping0. rewrite pha_block_size0, pha_block_count0 in E4.
    bprop. destruct E4 as [E4|E4]; bprop; [|lia]. by apply bool_decide_eq_false in E4. }
  apply orb_false_iff in E4 as [E4 E4']. apply negb_false_iff, bool_decide_eq_true in E4.
  loads. cond E5; [refuse; bprop; lia|]. loads.
  eapply swp_seq_value; [apply seq_pool_checksum|].
  bdestr (m (PField pf_header_checksum) =? fnv1a64 (copy_of checksum_fields m)); cbn [negb];
    [|by refuse].
  cond E6; [refuse; bprop; lia|].
  eapply swp_seq_value; [apply seq_pool_same_schema|].
  case_bool_decide as Hsch; cbn [negb]; [|refuse; tauto].
  cbn [swp]. split; [|done]. split; [intros _|done].
  destruct Hsch as [Hver Hfp].
  bprop. split; try done; try lia; try congruence.
  - repeat split; congruence.
  - split; congruence.
Qed.

(** * Theorems *)

(** What [create] writes, [open] accepts: the header check of [open], for the
    same options and the size of the created mapping, succeeds on every segment
    that [create] returned. *)
Lemma pool_created_header_accepted options OS (os : os_model OS) OS' (os' : os_model OS') o o' m h w size :
  is_u32 (po_block_count options) -> length (sd_fingerprint (po_schema options)) = 32%nat ->
  shared_buffer_pool_mapping_size_for (po_block_size options) (po_block_count options)
    = Some size ->
  run os (shared_buffer_pool_create_impl options) (mkWorld m o) = (Ok h, w) ->
  (run os' (validate_header size options) (mkWorld (w_mem w) o')).1 = Ok tt.
Proof.
  intros Hc Hf Hsize Hrun.
  pose proof (swp_run os _ _ m o (seq_pool_create options Hc Hf m)) as H.
  rewrite Hrun in H. simpl in H.
  destruct H as (Hopt & size' & Hsize' & [(hi & lo & self & [] & Hn & Hv) Hck Hrd _] & _).
  destruct (pool_options_ok options Hc Hopt) as (Hs & Hcnt & Hver).
  rewrite Hsize in Hsize'. injection Hsize' as <-.
  pose proof (swp_run os' _ _ (w_mem w) o' (seq_pool_validate_header size options (w_mem w)))
    as [Hiff _].
  apply Hiff. split; try done; try lia.
  - repeat split; try done; lia.
  - rewrite !phi_creator0. by destruct self.
  - by rewrite phi_mapping0.
Qed.

(** C17: a successful [create] leaves a pool of free blocks. Whatever the segment
    held before and whatever the operating system answered on the way, if
    [shared_buffer_pool_create_impl] returns a handle then the segment is a fresh
    pool of the requested shape, where the concurrent theorems start; and the header check
    of [open] accepts it, for the same options and the size of the mapping. *)
Theorem pool_create_fresh options OS (os : os_model OS) o m h w :
  is_u32 (po_block_count options) -> length (sd_fingerprint (po_schema options)) = 32%nat ->
  run os (shared_buffer_pool_create_impl options) (mkWorld m o) = (Ok h, w) ->
  pool_fresh (po_block_size options) (po_block_count options) (w_mem w) /\
  ph_created h = true /\ ph_removed h = false /\
  forall OS' (os' : os_model OS') o' size,
    shared_buffer_pool_mapping_size_for (po_block_size options) (po_block_count options) = Some size ->
    (run os' (validate_header size options) (mkWorld (w_mem w) o')).1 = Ok tt.
Proof.
  intros Hc Hf Hrun.
  pose proof (swp_run os _ _ m o (seq_pool_create options Hc Hf m)) as H.
  rewrite Hrun in H. simpl in H. destruct H as (_ & size & _ & Hcr & Hrem & Hcreated).
  split; [by eapply pool_created_fresh|]. split; [done|]. split; [done|].
  intros OS' os' o' size' Hsize. by eapply pool_created_header_accepted.
Qed.

(** A kernel on which creation succeeds. *)
Module PoolCreateDemo.
Definition options : SharedBufferPoolOptions :=
  mkPoolOptions "p" 4096 1 (mkSchema (replicate 32 9) 1).
Definition stat_line : list Z :=
  string_codes "100 (p) S 1 1 1 1 1 1 1 1 1 1 1 1 1 1 1 1 1 1 7 0".
Definition boot_id : list Z := string_codes "0123abcd-0000-4000-8000-0123456789ab".
Definition os : os_model unit := fun X c _ =>
  (match c in sys Y return Y with
   | sys_getpid => 100
   | sys_getuid | sys_geteuid => 1000
   | sys_open _ => SysOk 3
   | sys_read _ count => SysOk (if count =? 63 then boot_id else stat_line)
   | sys_getrandom n => SysOk (replicate (Z.to_nat n) 1)
   | sys_shm_open _ _ => SysOk 4
   | sys_fstat _ => SysOk (mkStat 33152 1000 1 2 0 1)
   | sys_ftruncate _ _ => SysOk tt
   | sys_mmap _ _ _ => SysOk 0
   | c => sys_default c
   end, tt).
(** The segment before: garbage. *)
Definition garbage : pmem := fun _ => 77.
Definition after : Result SharedBufferPoolHandle * world ploc unit :=
  run os (shared_buffer_pool_create_impl options) (mkWorld garbage tt).
Definition handle : SharedBufferPoolHandle :=
  match after.1 with
  | Ok h => h
  | Err _ => mkPoolHandle (mkShmObject "" 0 0 0 0) "" zero_identity false false
  end.
Lemma pool_create_succeeds : after.1 = Ok handle.
Proof. by vm_compute. Qed.
Lemma pool_create_returns :
  run os (shared_buffer_pool_create_impl options) (mkWorld garbage tt) = (Ok handle, after.2).
Proof. rewrite <- pool_create_succeeds. unfold after. by destruct (run _ _ _). Qed.
Lemma pool_count_u32 : is_u32 (po_block_count options).
Proof. unfold is_u32, UINT32_MAX. simpl. lia. Qed.
End PoolCreateDemo.

Lemma pool_create_fresh_witness :
  pool_fresh 4096 1 (w_mem PoolCreateDemo.after.2) /\
  ph_created PoolCreateDemo.handle = true /\ ph_removed PoolCreateDemo.handle = false /\
  (run PoolCreateDemo.os (validate_header 4352 PoolCreateDemo.options)
     (mkWorld (w_mem PoolCreateDemo.after.2) tt)).1 = Ok tt.
Proof.
  destruct (pool_create_fresh PoolCreateDemo.options unit PoolCreateDemo.os tt
           PoolCreateDemo.garbage PoolCreateDemo.handle PoolCreateDemo.after.2
           PoolCreateDemo.pool_count_u32 eq_refl PoolCreateDemo.pool_create_returns) as (H1 & H2 & H3 & H4).
  repeat (split; [assumption|]). exact (H4 unit PoolCreateDemo.os tt 4352 eq_refl).
Defined.

(** C19: [open] refuses a pool header with a corrupted byte: if the bytes the
    checksum covers differ from an accepted header's in exactly one byte and the
    stored checksum is unchanged, the header check fails for every expectation of
    the opener. *)
Theorem pool_corrupt_header_refused size size' options options' m m'
    OS (os : os_model OS) o pre b b' post :
  pool_header_accepted size options m ->
  copy_of checksum_fields m = pre ++ b :: post ->
  copy_of checksum_fields m' = pre ++ b' :: post -> b <> b' ->
  m' (PField pf_header_checksum) = m (PField pf_header_checksum) ->
  (run os (validate_header size' options') (mkWorld m' o)).1 <> Ok tt.
Proof.
  intros Ha Him Him' Hne Hck Hok.
  pose proof (swp_run os _ _ m' o (seq_pool_validate_header size' options' m')) as [Hv _].
  apply Hv in Hok. pose proof (pha_checksum _ _ _ Ha) as H1.
  pose proof (pha_checksum _ _ _ Hok) as H2. rewrite Hck, H1, Him, Him' in H2.
  assert (forall m0 x y z, copy_of checksum_fields m0 = x ++ y :: z -> is_byte y) as Hbyte.
  { intros m0 x y z Hi. assert (Forall is_byte (copy_of checksum_fields m0)) as Hall.
    { unfold copy_of. apply Forall_concat, Forall_forall. intros l Hl.
      apply list_elem_of_fmap in Hl as ([wd l'] & -> & _). apply le_bytes_are_bytes. }
    rewrite Hi, Forall_app, Forall_cons in Hall. tauto. }
  by apply (fnv1a64_single_byte pre b b' post) in H2; eauto.
Qed.

(** An accepted pool header, and the same with a changed reserved byte. *)
Module PoolCorruptDemo.
Definition base (l : ploc) : Z :=
  match l with
  | PMagic i => default 0 (string_codes kSharedBufferPoolMagic !! i)
  | PFingerprint _ => 9
  | PField pf_abi_major => kSharedBufferPoolAbiMajor
  | PField pf_abi_minor => kSharedBufferPoolAbiMinor
  | PField pf_header_size => kPoolHeaderSize
  | PField pf_endian_marker => kSharedBufferPoolEndianMarker
  | PField pf_block_size => 4096
  | PField pf_mapping_size => 4352
  | PField pf_init_state => pi_kReady
  | PField pf_block_count | PField pf_schema_version | PField pf_generation
  | PField pf_instance_nonce_hi | PCreator _ => 1
  | _ => 0
  end.
Definition good : pmem :=
  upd (PField pf_header_checksum) (fnv1a64 (copy_of checksum_fields base)) base.
Definition bad : pmem := upd (PReserved 0) 1 good.
Definition image : list Z := Eval vm_compute in copy_of checksum_fields base.

Lemma pool_good_accepted : pool_header_accepted 4352 PoolCreateDemo.options good.
Proof. split; try (by vm_compute); try discriminate. by intros [? _]. Qed.
End PoolCorruptDemo.

Lemma pool_corrupt_header_refused_witness :
  pool_header_accepted 4352 PoolCreateDemo.options PoolCorruptDemo.good /\
  (run PoolCreateDemo.os (validate_header 4352 PoolCreateDemo.options)
     (mkWorld PoolCorruptDemo.bad tt)).1 <> Ok tt.
Proof.
  split; [exact PoolCorruptDemo.pool_good_accepted|].
  apply (pool_corrupt_header_refused 4352 4352 PoolCreateDemo.options PoolCreateDemo.options
           PoolCorruptDemo.good PoolCorruptDemo.bad unit PoolCreateDemo.os tt
           (take 144 PoolCorruptDemo.image) 0 1 (drop 145 PoolCorruptDemo.image)
           PoolCorruptDemo.pool_good_accepted);
    [vm_compute; reflexivity|vm_compute; reflexivity|discriminate|reflexivity].
Defined.

(** * Removal *)

(** The pool in memory may be removed through this handle: the handle's process
    created it, and no block is in use. *)
Definition pool_removable (h : SharedBufferPoolHandle) (m : pmem) : bool :=
  owner_matches (mkIdentity (m (PCreator of_pid)) (m (PCreator of_start))
                   (m (PCreator of_boot_hi)) (m (PCreator of_boot_lo))) (ph_self h)
  && forallb (fun b => m (BState b) =? bs_kFree) (block_ids (m (PField pf_block_count))).

Lemma snapshot_block_owner_loads b : loads_only (snapshot_block_owner b).
Proof. unfold snapshot_block_owner. solve_loads. Qed.
Lemma block_at_loads h id : loads_only (block_at h id).
Proof. unfold block_at. solve_loads. Qed.
#[local] Hint Resolve snapshot_block_owner_loads block_at_loads : loads_db.
Lemma remove_check_loads h ids : loads_only (remove_check_blocks h ids).
Proof. induction ids as [|b ids IH]; cbn [remove_check_blocks]; solve_loads. Qed.
Lemma validate_live_pool_loads h op : loads_only (validate_live_pool h op).
Proof. unfold validate_live_pool. solve_loads. Qed.
#[local] Hint Resolve remove_check_loads validate_live_pool_loads : loads_db.

Lemma validate_live_pool_handle h op :
  leaves (fun r => forall h', r = Ok h' -> h' = h) (validate_live_pool (Some h) op).
Proof.
  unfold validate_live_pool. destruct (ph_removed h); cbn -[Z.eqb]; [by intros|].
  intros x. destruct (negb _); cbn; [by intros|]. by intros h' [= <-].
Qed.

(** The check passes only when every block is free. *)
Lemma seq_remove_check h ids m :
  swp (remove_check_blocks h ids) (fun r _ =>
    r = Ok tt -> forallb (fun b => m (BState b) =? bs_kFree) ids = true) m.
Proof.
  induction ids as [|b ids IH]; [done|]. cbn [remove_check_blocks].
  unfold block_at. loads. destruct (shared_buffer_pool_block_offset_for _ _ _) as [[? ?]|]; [|done].
  destruct (_ || _); [done|]. cbn [shared_load_seq_cst trigger bind swp sev].
  cbn [forallb]. destruct (m (BState b) =? bs_kFree); [exact IH|].
  destruct (_ =? _); [done|]. eapply swp_seq; [apply swp_readonly, snapshot_block_owner_readonly|].
  intros o m' _. by destruct (_ || _).
Qed.

(** C30: a pool that is in use, or that somebody else created, is not removed. A
    [remove_if_creator] on such a pool returns an error without a single system
    call, so the name stays; in every case the segment's bytes are left as they
    are. *)
Theorem pool_remove_guarded {OS} (os : os_model OS) o m h :
  (pool_removable h m = false ->
     exists e, run os (shared_buffer_pool_remove_if_creator_impl (Some h)) (mkWorld m o)
               = (Err e, mkWorld m o)) /\
  w_mem (run os (shared_buffer_pool_remove_if_creator_impl (Some h)) (mkWorld m o)).2 = m.
Proof.
  split; [|exact (swp_run os _ _ m o (swp_readonly _ m (pool_remove_readonly (Some h))))].
  intros Hrem. unfold shared_buffer_pool_remove_if_creator_impl. rewrite run_bind.
  pose proof (loads_only_run os _ (mkWorld m o) (validate_live_pool_loads (Some h) op_remove)) as Hv.
  pose proof (swp_run os _ _ m o (swp_leaves _ _ m (validate_live_pool_handle h op_remove))) as Hh.
  cbn beta in Hh.
  destruct (run os (validate_live_pool _ _) _) as [[h'|e] w']; cbn [fst snd] in *; subst w';
    [|by eexists]. rewrite (Hh h' eq_refl). clear Hh h'. rewrite run_bind. cbn [run load_creator].
  unfold pool_removable in Hrem. cbn -[owner_matches block_ids forallb Z.eqb remove_check_blocks].
  destruct (owner_matches _ _); cbn [negb andb] in *; [|by eexists].
  cbn -[block_ids forallb Z.eqb remove_check_blocks]. rewrite run_bind.
  set (ids := block_ids (m (PField pf_block_count))) in *.
  pose proof (loads_only_run os _ (mkWorld m o) (remove_check_loads h ids)) as Hw.
  pose proof (swp_run os _ _ m o (seq_remove_check h ids m)) as Hr. cbn beta in Hr.
  destruct (run os (remove_check_blocks _ _) _) as [[[]|e] w']; cbn [fst snd] in *; subst w';
    [|by eexists]. rewrite Hr in Hrem by done. discriminate.
Qed.
