(* ===== verification/MpmcLayout.v ===== *)
(** The MPMC queue segment: [src/edge_runtime/queue/mpmc_layout.hpp].

    The header, the slot headers and the payload bytes are the locations [mloc]
    of the segment's memory. [mloc_offset] and [mloc_size] give the bytes each
    location stands for; [mloc_disjoint] and [mloc_in_mapping] show that the
    locations of a queue of any accepted shape never overlap and stay inside the
    mapping [mpmc_mapping_size_for] computes, so a store to one location cannot
    change another. *)
From S2P Require Import Prelude Errors CheckedMath Prog ProcIdentity OwnerSnapshot.
From S2P Require Import ChannelLayout.

Definition kMpmcHeaderMagic : string := "EDGMPMC2".
Definition kMpmcLegacyHeaderMagic : string := "EDGMPMC1".
Definition kMpmcAbiMajor : Z := 2.
Definition kMpmcAbiMinor : Z := 0.
Definition kMpmcAbiMinorMax : Z := 0.
Definition kMpmcEndianMarker : Z := 16909060.
Definition kMpmcHeaderSize : Z := 320.
Definition kMpmcFirstSlotOffset : Z := kMpmcHeaderSize.
Definition kMpmcMaxCapacity : Z := 4096.
Definition kMpmcMaxPayloadSize : Z := 65536.
Definition kMpmcMaxNameLength : Z := 64.
(** [sizeof(MpmcSlotHeaderAbi)]. *)
Definition kMpmcSlotHeaderSize : Z := 64.

(** [MpmcInitState]. *)
Definition mi_kEmpty : Z := 0.
Definition mi_kInitializing : Z := 1.
Definition mi_kReady : Z := 2.

(** [MpmcLockState]. *)
Definition ml_kFree : Z := 0.
Definition ml_kClaiming : Z := 1.
Definition ml_kOwned : Z := 2.
Definition ml_kEpochExhausted : Z := 3.
Definition ml_kOwnerProtocolFault : Z := 4.

(** [MpmcSlotState]. *)
Definition ms_kFree : Z := 0.
Definition ms_kEnqueueClaiming : Z := 1.
Definition ms_kEnqueueOwned : Z := 2.
Definition ms_kReady : Z := 3.
Definition ms_kDequeueClaiming : Z := 4.
Definition ms_kDequeueOwned : Z := 5.
Definition ms_kEpochExhausted : Z := 6.
Definition ms_kOwnerProtocolFault : Z := 7.

(** The scalar fields of [MpmcQueueHeaderAbi]; [hf_padding0] is the four bytes
    the compiler leaves between [reserved0] and [mapping_size]. *)
Inductive header_field : Type :=
| hf_abi_major | hf_abi_minor | hf_header_size | hf_endian_marker | hf_capacity
| hf_payload_size | hf_schema_version | hf_reserved0 | hf_padding0 | hf_mapping_size
| hf_generation | hf_instance_nonce_hi | hf_instance_nonce_lo
| hf_enqueue_position | hf_dequeue_position | hf_init_state | hf_reserved1
| hf_header_checksum | hf_notify_epoch.

#[global] Instance header_field_eq_dec : EqDecision header_field.
Proof. solve_decision. Defined.

(** The locations of a queue segment: the header's arrays, scalars and owners,
    the two gates ([true] is the enqueue gate), and per slot index the fields of
    [MpmcSlotHeaderAbi] and the payload bytes. *)
Inductive mloc : Type :=
| HMagic (i : nat)
| HFingerprint (i : nat)
| HField (f : header_field)
| HCreator (f : owner_field)
| HLock (enqueue : bool)
| HOwnerEpoch (enqueue : bool)
| HOwner (enqueue : bool) (f : owner_field)
| SSequence (slot : Z)
| SState (slot : Z)
| SReserved0 (slot : Z)
| SOwner (slot : Z) (f : owner_field)
| STicket (slot : Z)
| SOwnerEpoch (slot : Z)
| SPayload (slot : Z) (byte : nat).

#[global] Instance mloc_eq_dec : EqDecision mloc.
Proof. solve_decision. Defined.

Definition mpmc_stride (payload_size : Z) : option Z :=
  round_up_to_multiple_u64 (u64 (kMpmcSlotHeaderSize + payload_size)) 64.

Definition mpmc_mapping_size_for (capacity payload_size : Z) : option Z :=
  if (capacity =? 0) || (kMpmcMaxCapacity <? capacity) || (payload_size =? 0)
     || (kMpmcMaxPayloadSize <? payload_size) then None
  else
    stride ← round_up_to_multiple_u64 (u64 (kMpmcSlotHeaderSize + payload_size)) 64;
    slots ← checked_mul_u64 capacity stride;
    checked_add_u64 kMpmcFirstSlotOffset slots.

Definition mpmc_slot_offset (slot_index capacity stride : Z) : option Z :=
  if capacity <=? slot_index then None
  else
    offset ← checked_mul_u64 slot_index stride;
    checked_add_u64 kMpmcFirstSlotOffset offset.

(** [(next_ticket, reclaim_sequence)]; the out-parameters are never null. *)
Definition mpmc_checked_ticket_bounds (ticket capacity : Z) : option (Z * Z) :=
  if capacity =? 0 then None
  else
    next_ticket ← checked_add_u64 ticket 1;
    reclaim_sequence ← checked_add_u64 ticket capacity;
    Some (next_ticket, reclaim_sequence).

(** * Byte ranges *)

Definition header_field_range (f : header_field) : Z * Z :=
  match f with
  | hf_abi_major => (8, 2) | hf_abi_minor => (10, 2) | hf_header_size => (12, 4)
  | hf_endian_marker => (16, 4) | hf_capacity => (20, 4) | hf_payload_size => (24, 4)
  | hf_schema_version => (28, 4) | hf_reserved0 => (32, 4) | hf_padding0 => (36, 4)
  | hf_mapping_size => (40, 8) | hf_generation => (80, 8)
  | hf_instance_nonce_hi => (88, 8) | hf_instance_nonce_lo => (96, 8)
  | hf_enqueue_position => (136, 8) | hf_dequeue_position => (144, 8)
  | hf_init_state => (160, 4) | hf_reserved1 => (164, 4)
  | hf_header_checksum => (232, 8) | hf_notify_epoch => (240, 4)
  end.

Definition owner_field_offset (f : owner_field) : Z :=
  match f with of_pid => 0 | of_start => 8 | of_boot_hi => 16 | of_boot_lo => 24 end.

(** The first byte of a location in a segment with the given slot stride, and
    its size. *)
Definition mloc_range (stride : Z) (l : mloc) : Z * Z :=
  let slot i := kMpmcFirstSlotOffset + i * stride in
  match l with
  | HMagic i => (Z.of_nat i, 1)
  | HFingerprint i => (48 + Z.of_nat i, 1)
  | HField f => header_field_range f
  | HCreator f => (104 + owner_field_offset f, 8)
  | HLock enqueue => (if enqueue then 152 else 156, 4)
  | HOwnerEpoch enqueue => (if enqueue then 256 else 264, 8)
  | HOwner enqueue f => ((if enqueue then 168 else 200) + owner_field_offset f, 8)
  | SSequence i => (slot i, 8)
  | SState i => (slot i + 8, 4)
  | SReserved0 i => (slot i + 12, 4)
  | SOwner i f => (slot i + 16 + owner_field_offset f, 8)
  | STicket i => (slot i + 48, 8)
  | SOwnerEpoch i => (slot i + 56, 8)
  | SPayload i b => (slot i + kMpmcSlotHeaderSize + Z.of_nat b, 1)
  end.

Definition mloc_offset (stride : Z) (l : mloc) : Z := (mloc_range stride l).1.
Definition mloc_size (l : mloc) : Z := (mloc_range 0 l).2.

(** The locations a queue of this shape has. *)
Definition mloc_valid (capacity payload_size : Z) (l : mloc) : Prop :=
  match l with
  | HMagic i => (i < 8)%nat
  | HFingerprint i => (i < 32)%nat
  | HField _ | HCreator _ | HLock _ | HOwnerEpoch _ | HOwner _ _ => True
  | SSequence i | SState i | SReserved0 i | SOwner i _ | STicket i | SOwnerEpoch i =>
      0 <= i < capacity
  | SPayload i b => 0 <= i < capacity /\ Z.of_nat b < payload_size
  end.

(** The fields of the immutable prefix, in address order, with their widths: the
    bytes [header_checksum] covers. *)
Definition header_prefix : list (nat * mloc) :=
  map (fun i => (1%nat, HMagic i)) (seq 0 8) ++
  [ (2%nat, HField hf_abi_major); (2%nat, HField hf_abi_minor);
    (4%nat, HField hf_header_size); (4%nat, HField hf_endian_marker);
    (4%nat, HField hf_capacity); (4%nat, HField hf_payload_size);
    (4%nat, HField hf_schema_version); (4%nat, HField hf_reserved0);
    (4%nat, HField hf_padding0); (8%nat, HField hf_mapping_size) ] ++
  map (fun i => (1%nat, HFingerprint i)) (seq 0 32) ++
  [ (8%nat, HField hf_generation); (8%nat, HField hf_instance_nonce_hi);
    (8%nat, HField hf_instance_nonce_lo); (8%nat, HCreator of_pid);
    (8%nat, HCreator of_start); (8%nat, HCreator of_boot_hi);
    (8%nat, HCreator of_boot_lo) ].

(** The rest of the header in address order; its reserved bytes are never read. *)
Definition header_mutable : list mloc :=
  [ HField hf_enqueue_position; HField hf_dequeue_position; HLock true; HLock false;
    HField hf_init_state; HField hf_reserved1 ] ++
  map (HOwner true) [of_pid; of_start; of_boot_hi; of_boot_lo] ++
  map (HOwner false) [of_pid; of_start; of_boot_hi; of_boot_lo] ++
  [ HField hf_header_checksum; HField hf_notify_epoch; HOwnerEpoch true; HOwnerEpoch false ].

Definition header_locs : list mloc := map snd header_prefix ++ header_mutable.

Definition slot_locs (payload_size : Z) (i : Z) : list mloc :=
  [ SSequence i; SState i; SReserved0 i ] ++
  map (SOwner i) [of_pid; of_start; of_boot_hi; of_boot_lo] ++
  [ STicket i; SOwnerEpoch i ] ++ map (SPayload i) (seq 0 (Z.to_nat payload_size)).

(** [0, 1, ..., n - 1] as loop indices. *)
Definition indices (n : Z) : list Z := map Z.of_nat (seq 0 (Z.to_nat n)).

Definition segment_locs (capacity payload_size : Z) : list mloc :=
  header_locs ++ concat (map (slot_locs payload_size) (indices capacity)).

(** * Facts about the layout *)

Lemma mpmc_stride_spec payload_size :
  0 < payload_size <= kMpmcMaxPayloadSize ->
  exists stride, mpmc_stride payload_size = Some stride /\
    kMpmcSlotHeaderSize + payload_size <= stride
      < kMpmcSlotHeaderSize + payload_size + 64 /\
    stride mod 64 = 0.
Proof.
  unfold kMpmcMaxPayloadSize, mpmc_stride, kMpmcSlotHeaderSize. intros Hp.
  rewrite u64_small by mlia.
  destruct (round_up_ok (64 + payload_size) 64) as [r Hr]; [mlia..|].
  exists r. split; [done|].
  apply round_up_Some in Hr; [|mlia..]. tauto.
Qed.

Lemma mpmc_mapping_size_spec capacity payload_size :
  0 < capacity <= kMpmcMaxCapacity -> 0 < payload_size <= kMpmcMaxPayloadSize ->
  exists stride, mpmc_stride payload_size = Some stride /\
    mpmc_mapping_size_for capacity payload_size
      = Some (kMpmcFirstSlotOffset + capacity * stride).
Proof.
  intros Hc Hp. destruct (mpmc_stride_spec payload_size Hp) as (r & Hr & Hb & _).
  exists r. split; [done|]. unfold mpmc_mapping_size_for, mpmc_stride in *.
  unfold kMpmcMaxCapacity, kMpmcMaxPayloadSize, kMpmcFirstSlotOffset, kMpmcHeaderSize,
    kMpmcSlotHeaderSize in *.
  replace (_ || _ || _ || _) with false
    by (symmetry; rewrite !orb_false_iff, !Z.eqb_neq, !Z.ltb_ge; lia).
  rewrite Hr. simpl. assert (0 <= capacity * r <= 4096 * 65664) by nia.
  rewrite checked_mul_u64_ok by mlia. simpl. rewrite checked_add_u64_ok by mlia. done.
Qed.

Lemma mpmc_mapping_size_None capacity payload_size :
  0 <= capacity -> 0 <= payload_size ->
  ~ (0 < capacity <= kMpmcMaxCapacity /\ 0 < payload_size <= kMpmcMaxPayloadSize) ->
  mpmc_mapping_size_for capacity payload_size = None.
Proof.
  intros ?? H. unfold mpmc_mapping_size_for.
  replace (_ || _ || _ || _) with true; [done|].
  symmetry. rewrite !orb_true_iff, !Z.eqb_eq, !Z.ltb_lt. lia.
Qed.

Lemma mpmc_slot_offset_ok i capacity payload_size stride :
  0 <= i < capacity -> capacity <= kMpmcMaxCapacity ->
  0 < payload_size <= kMpmcMaxPayloadSize -> mpmc_stride payload_size = Some stride ->
  mpmc_slot_offset i capacity stride = Some (kMpmcFirstSlotOffset + i * stride).
Proof.
  intros Hi Hc Hp Hs. destruct (mpmc_stride_spec payload_size Hp) as (r & Hr & Hb & _).
  rewrite Hs in Hr. injection Hr as <-.
  unfold mpmc_slot_offset, kMpmcMaxCapacity, kMpmcMaxPayloadSize, kMpmcFirstSlotOffset,
    kMpmcHeaderSize, kMpmcSlotHeaderSize in *.
  bdestr (capacity <=? i); [lia|]. assert (0 <= i * stride <= 4096 * 65664) by nia.
  rewrite checked_mul_u64_ok by mlia. simpl. by rewrite checked_add_u64_ok by mlia.
Qed.

Lemma ticket_bounds_spec ticket capacity :
  is_u64 ticket -> 0 < capacity <= kMpmcMaxCapacity ->
  mpmc_checked_ticket_bounds ticket capacity =
    if decide (ticket + capacity <= UINT64_MAX)
    then Some (ticket + 1, ticket + capacity) else None.
Proof.
  intros Ht Hc. unfold mpmc_checked_ticket_bounds, kMpmcMaxCapacity in *.
  bdestr (capacity =? 0); [lia|].
  rewrite !checked_add_u64_spec by mlia.
  repeat case_decide; simpl; try done; lia.
Qed.

(** ** Locations do not overlap *)

(** The slot a location belongs to; [None] for the header. *)
Definition mloc_slot (l : mloc) : option Z :=
  match l with
  | SSequence i | SState i | SReserved0 i | SOwner i _ | STicket i | SOwnerEpoch i
  | SPayload i _ => Some i
  | _ => None
  end.

Lemma header_locs_complete capacity payload_size l :
  mloc_valid capacity payload_size l -> mloc_slot l = None -> l ∈ header_locs.
Proof.
  intros Hv Hs. destruct l as [i|i|f|f|b|b|b f| | | | | | |]; simpl in Hs; try done;
    simpl in Hv;
    [do 8 (destruct i as [|i]; [by apply (bool_decide_unpack _); vm_compute|]); lia
    |do 32 (destruct i as [|i]; [by apply (bool_decide_unpack _); vm_compute|]); lia
    |destruct f|destruct f|destruct b|destruct b|destruct b, f];
    by apply (bool_decide_unpack _); vm_compute.
Qed.

Lemma header_locs_disjoint :
  Forall (fun l1 => Forall (fun l2 =>
    l1 = l2 \/ ranges_disjoint (mloc_range 0 l1) (mloc_range 0 l2)) header_locs) header_locs.
Proof. apply (bool_decide_unpack _). by vm_compute. Qed.

Lemma header_locs_bound :
  Forall (fun l => 0 <= (mloc_range 0 l).1 /\
                   (mloc_range 0 l).1 + (mloc_range 0 l).2 <= kMpmcHeaderSize) header_locs.
Proof. apply (bool_decide_unpack _). by vm_compute. Qed.

Lemma mloc_range_header stride l :
  mloc_slot l = None -> mloc_range stride l = mloc_range 0 l.
Proof. by destruct l. Qed.

(** A slot's locations stay inside the slot's header and payload. *)
Lemma mloc_range_slot capacity payload_size stride l i :
  mloc_valid capacity payload_size l -> mloc_slot l = Some i ->
  0 < payload_size ->
  let base := kMpmcFirstSlotOffset + i * stride in
  0 <= i < capacity /\ base <= (mloc_range stride l).1 /\
  (mloc_range stride l).1 + (mloc_range stride l).2
    <= base + kMpmcSlotHeaderSize + payload_size.
Proof.
  intros Hv Hs Hp. unfold kMpmcSlotHeaderSize.
  destruct l as [| | | | | | |?|?|?|? f|?|?|? b]; simpl in *; try done;
    injection Hs as ->; try destruct f; simpl; unfold kMpmcSlotHeaderSize; lia.
Qed.

Lemma mloc_disjoint_same_slot stride l1 l2 i :
  mloc_slot l1 = Some i -> mloc_slot l2 = Some i -> l1 <> l2 ->
  ranges_disjoint (mloc_range stride l1) (mloc_range stride l2).
Proof.
  intros H1 H2 Hne. unfold ranges_disjoint.
  destruct l1 as [| | | | | | |?|?|?|? f1|?|?|? b1]; simpl in H1; try done;
    injection H1 as ->;
    destruct l2 as [| | | | | | |?|?|?|? f2|?|?|? b2]; simpl in H2; try done;
    injection H2 as ->; try done; simpl; unfold kMpmcSlotHeaderSize;
    try destruct f1; try destruct f2; simpl; try lia; try congruence.
  assert (b1 <> b2) by congruence. lia.
Qed.

Section Shape.
Context (capacity payload_size stride : Z).
Hypothesis (Hcap : 0 < capacity <= kMpmcMaxCapacity).
Hypothesis (Hpay : 0 < payload_size <= kMpmcMaxPayloadSize).
Hypothesis (Hstride : mpmc_stride payload_size = Some stride).

Lemma stride_bound : kMpmcSlotHeaderSize + payload_size <= stride.
Proof.
  destruct (mpmc_stride_spec payload_size Hpay) as (r & Hr & Hb & _).
  rewrite Hstride in Hr. injection Hr as <-. lia.
Qed.

Lemma mloc_in_mapping_aux l mapping_size :
  mpmc_mapping_size_for capacity payload_size = Some mapping_size ->
  mloc_valid capacity payload_size l ->
  0 <= (mloc_range stride l).1 /\
  (mloc_range stride l).1 + (mloc_range stride l).2 <= mapping_size.
Proof.
  intros Hm Hv. destruct (mpmc_mapping_size_spec capacity payload_size) as (r & Hr & Hs);
    [done..|].
  rewrite Hstride in Hr. injection Hr as <-. rewrite Hm in Hs. injection Hs as ->.
  pose proof stride_bound as Hb. unfold kMpmcSlotHeaderSize in *.
  destruct (mloc_slot l) as [i|] eqn:Hl.
  - destruct (mloc_range_slot _ _ stride _ _ Hv Hl ltac:(lia)) as (Hi & Hlo & Hhi).
    unfold kMpmcSlotHeaderSize, kMpmcFirstSlotOffset, kMpmcHeaderSize in *. nia.
  - rewrite mloc_range_header by done.
    pose proof header_locs_bound as Hf. rewrite Forall_forall in Hf.
    specialize (Hf l (header_locs_complete _ _ _ Hv Hl)).
    unfold kMpmcFirstSlotOffset. nia.
Qed.

Lemma mloc_disjoint_aux l1 l2 :
  mloc_valid capacity payload_size l1 -> mloc_valid capacity payload_size l2 -> l1 <> l2 ->
  ranges_disjoint (mloc_range stride l1) (mloc_range stride l2).
Proof.
  intros Hv1 Hv2 Hne. pose proof stride_bound as Hb.
  unfold kMpmcSlotHeaderSize in Hb.
  pose proof header_locs_bound as Hf. rewrite Forall_forall in Hf.
  pose proof header_locs_disjoint as Hd. rewrite Forall_forall in Hd.
  destruct (mloc_slot l1) as [i|] eqn:H1, (mloc_slot l2) as [j|] eqn:H2.
  - destruct (decide (i = j)) as [->|Hij]; [by eapply mloc_disjoint_same_slot|].
    destruct (mloc_range_slot _ _ stride _ _ Hv1 H1 ltac:(lia)) as (? & ? & ?).
    destruct (mloc_range_slot _ _ stride _ _ Hv2 H2 ltac:(lia)) as (? & ? & ?).
    unfold ranges_disjoint, kMpmcSlotHeaderSize in *.
    destruct (decide (i < j)); [left|right]; nia.
  - destruct (mloc_range_slot _ _ stride _ _ Hv1 H1 ltac:(lia)) as (? & ? & ?).
    right. rewrite (mloc_range_header _ l2) by done.
    specialize (Hf l2 (header_locs_complete _ _ _ Hv2 H2)).
    unfold kMpmcFirstSlotOffset in *. nia.
  - destruct (mloc_range_slot _ _ stride _ _ Hv2 H2 ltac:(lia)) as (? & ? & ?).
    left. rewrite (mloc_range_header _ l1) by done.
    specialize (Hf l1 (header_locs_complete _ _ _ Hv1 H1)).
    unfold kMpmcFirstSlotOffset in *. nia.
  - rewrite !(mloc_range_header stride) by done.
    specialize (Hd l1 (header_locs_complete _ _ _ Hv1 H1)). rewrite Forall_forall in Hd.
    destruct (Hd l2 (header_locs_complete _ _ _ Hv2 H2)); done.
Qed.
End Shape.

(** C20: the segment of a queue of every accepted shape is laid out soundly. The
    size computation does not overflow, every location the code accesses lies
    inside the mapping, and two different locations never share a byte, so the
    model's memory, a function of locations, is faithful to the bytes. *)
Theorem mpmc_layout_sound capacity payload_size :
  0 < capacity <= kMpmcMaxCapacity -> 0 < payload_size <= kMpmcMaxPayloadSize ->
  exists stride size, mpmc_stride payload_size = Some stride /\
    mpmc_mapping_size_for capacity payload_size = Some size /\
    (forall i, 0 <= i < capacity ->
       mpmc_slot_offset i capacity stride = Some (mloc_range stride (SSequence i)).1) /\
    (forall l, mloc_valid capacity payload_size l ->
       0 <= (mloc_range stride l).1 /\
       (mloc_range stride l).1 + (mloc_range stride l).2 <= size) /\
    (forall l1 l2, mloc_valid capacity payload_size l1 -> mloc_valid capacity payload_size l2 ->
       l1 <> l2 -> ranges_disjoint (mloc_range stride l1) (mloc_range stride l2)).
Proof.
  intros Hc Hp. destruct (mpmc_mapping_size_spec capacity payload_size Hc Hp) as (stride & Hs & Hm).
  exists stride, (kMpmcFirstSlotOffset + capacity * stride). split; [done|]. split; [done|].
  split; [|split].
  - intros i Hi. rewrite (mpmc_slot_offset_ok i capacity payload_size) by (done || lia).
    reflexivity.
  - intros l Hv. by apply (mloc_in_mapping_aux capacity payload_size).
  - intros l1 l2. by apply mloc_disjoint_aux.
Qed.

Lemma mpmc_layout_sound_witness :
  exists stride size, mpmc_stride 24 = Some stride /\ mpmc_mapping_size_for 8 24 = Some size /\
    0 <= (mloc_range stride (SPayload 7 23)).1 /\
    (mloc_range stride (SPayload 7 23)).1 + (mloc_range stride (SPayload 7 23)).2 <= size /\
    ranges_disjoint (mloc_range stride (SPayload 6 23)) (mloc_range stride (SSequence 7)).
Proof.
  destruct (mpmc_layout_sound 8 24) as (stride & size & Hs & Hm & _ & Hin & Hd);
    [unfold kMpmcMaxCapacity; lia|unfold kMpmcMaxPayloadSize; lia|].
  exists stride, size. split; [exact Hs|]. split; [exact Hm|].
  assert (mloc_valid 8 24 (SPayload 7 23)) as H7 by (split; [lia|reflexivity]).
  split; [apply (Hin _ H7)|]. split; [apply (Hin _ H7)|].
  apply Hd; [split; [lia|reflexivity]|simpl; lia|discriminate].
Defined.
