(* ===== verification/MpmcQueue.v ===== *)
(** The MPMC queue: [src/edge_runtime/queue/mpmc_queue.cpp], release build (the
    failpoint hooks are empty).

    Every function of the file is a program over the segment's locations: the
    gates with their owner protocol, the position snapshots, the drain
    admission, [try_push], [try_pop], the waiting variants, create, open, status
    and removal. The loops of the waiting variants take a fuel; all the others
    are bounded by the code itself. *)
From stdpp Require Import pretty.
From S2P Require Import Prelude Errors CheckedMath Checksum Prog ProcIdentity OwnerSnapshot.
From S2P Require Import ShmObject ChannelLayout MpmcLayout.

Abbreviation mprog := (prog mloc).

Record MpmcQueueOptions : Type := mkMpmcOptions { mo_name : string; mo_capacity : Z }.

Record MpmcQueueHandle : Type := mkHandle {
  h_object : ShmObject;
  h_shm_name : string;
  h_self : ProcessIdentity;
  h_slot_stride : Z;
  h_created : bool;
  h_removed : bool
}.

Definition kMpmcWaitSliceNs : Z := 10000000.

(** * Gates *)

Definition gate_operation (enqueue : bool) : string :=
  if enqueue then "MpmcQueue::enqueue_gate" else "MpmcQueue::dequeue_gate".

Definition gate_for (enqueue : bool) : owner_locs mloc :=
  mkOwnerLocs (HLock enqueue) (HOwnerEpoch enqueue) (HOwner enqueue).

Inductive OwnerObservationDisposition : Type :=
| kNotUnrecoverable | kChanged | kUnrecoverable.

#[global] Instance OwnerObservationDisposition_eq_dec : EqDecision OwnerObservationDisposition.
Proof. solve_decision. Defined.

Definition owner_from_process (id : ProcessIdentity) : ProcessIdentity :=
  mkIdentity (pid id) (proc_start_ticks id) (boot_id_hash_hi id) (boot_id_hash_lo id).

Definition owner_valid (owner : ProcessIdentity) : bool :=
  negb (pid owner =? 0) && negb (proc_start_ticks owner =? 0)
  && negb (boot_id_hash_hi owner =? 0) && negb (boot_id_hash_lo owner =? 0).

Definition owner_matches (owner id : ProcessIdentity) : bool :=
  (pid owner =? pid id) && (proc_start_ticks owner =? proc_start_ticks id)
  && (boot_id_hash_hi owner =? boot_id_hash_hi id)
  && (boot_id_hash_lo owner =? boot_id_hash_lo id).

Definition same_stable_owner_observation (first second : OwnerSnapshot) : bool :=
  bool_decide (os_kind first = osk_Stable) && bool_decide (os_kind second = osk_Stable)
  && (os_state first =? os_state second) && (os_epoch first =? os_epoch second)
  && owner_matches (os_owner first) (os_owner second).

Definition set_owner (owner : owner_field -> mloc) (id : ProcessIdentity) : mprog unit :=
  store_owner_seq_cst owner (owner_from_process id).

Definition classify_owner_state (inactive claiming owned exhausted fault current : Z)
    : OwnerStateKind :=
  if current =? inactive then st_Inactive
  else if current =? claiming then st_Claiming
  else if current =? owned then st_Owned
  else if current =? exhausted then st_EpochExhausted
  else if current =? fault then st_ProtocolFault
  else st_Unexpected.

Definition snapshot_owner (locs : owner_locs mloc) (inactive claiming owned exhausted fault : Z)
    : mprog OwnerSnapshot :=
  snapshot_owner_seq_cst locs (classify_owner_state inactive claiming owned exhausted fault)
    owner_valid.

Definition snapshot_gate_owner (enqueue : bool) : mprog OwnerSnapshot :=
  snapshot_owner (gate_for enqueue) ml_kFree ml_kClaiming ml_kOwned ml_kEpochExhausted
    ml_kOwnerProtocolFault.

Definition foreign_boot (handle : MpmcQueueHandle) (owner : ProcessIdentity) : bool :=
  negb (boot_id_hash_hi owner =? boot_id_hash_hi (h_self handle))
  || negb (boot_id_hash_lo owner =? boot_id_hash_lo (h_self handle)).

Definition confirm_owner_liveness (handle : MpmcQueueHandle) (enqueue : bool)
    (observation : OwnerSnapshot) : mprog OwnerObservationDisposition :=
  let owner := os_owner observation in
  let foreign := foreign_boot handle owner in
  let! liveness := if foreign then Ret kUnverifiable
                   else probe_liveness (pid owner) (proc_start_ticks owner) in
  let! confirmed := snapshot_gate_owner enqueue in
  if negb (same_stable_owner_observation observation confirmed) then Ret kChanged
  else if foreign then Ret kUnrecoverable
  else Ret (if bool_decide (liveness = kAlive) then kNotUnrecoverable else kUnrecoverable).

Definition mark_gate_protocol_failure (enqueue : bool) (result : OwnerCommitResult)
    : mprog unit :=
  shared_store_seq_cst (HLock enqueue)
    (if bool_decide (result = oc_EpochExhausted) then ml_kEpochExhausted
     else ml_kOwnerProtocolFault).

Definition gate_busy_result {A} (handle : MpmcQueueHandle) (enqueue : bool)
    : mprog (Result A) :=
  let operation := gate_operation enqueue in
  let! observation := snapshot_gate_owner enqueue in
  match os_kind observation with
  | osk_Inactive | osk_Claiming | osk_Unstable =>
      fail kQueueContention operation "gate owner snapshot is not stable"
  | osk_Corrupt | osk_EpochExhausted =>
      fail kRecoveryBlocked operation "gate owner protocol is not recoverable"
  | osk_Stable =>
      if owner_matches (os_owner observation) (h_self handle) then
        let! disposition := confirm_owner_liveness handle enqueue observation in
        if bool_decide (disposition = kChanged) then
          fail kQueueContention operation "gate owner changed while checking concurrent use"
        else fail kConcurrentHandleUse operation "gate is owned by this process"
      else
        let! disposition := confirm_owner_liveness handle enqueue observation in
        match disposition with
        | kNotUnrecoverable =>
            fail kQueueContention operation "gate is owned by a live process"
        | kChanged =>
            fail kQueueContention operation "gate owner changed while probing liveness"
        | kUnrecoverable =>
            fail kRecoveryBlocked operation "gate owner is dead or unverifiable"
        end
  end.

Definition claim_gate (handle : MpmcQueueHandle) (enqueue : bool) : mprog (Result unit) :=
  let! observed := shared_load_seq_cst (HLock enqueue) in
  if negb (observed =? ml_kFree) then gate_busy_result handle enqueue
  else
    let! ok := shared_cas_seq_cst (HLock enqueue) ml_kFree ml_kClaiming in
    if negb ok then
      fail kQueueContention (gate_operation enqueue) "gate was claimed concurrently"
    else Ret (Ok tt).

Definition commit_claimed_gate (handle : MpmcQueueHandle) (enqueue : bool)
    : mprog (Result unit) :=
  let! (owner_commit, committed_epoch) := begin_owner_commit (HOwnerEpoch enqueue) 2 in
  match owner_commit with
  | oc_Ready =>
      do! set_owner (HOwner enqueue) (h_self handle);
      do! shared_store_seq_cst (HOwnerEpoch enqueue) committed_epoch;
      do! shared_store_seq_cst (HLock enqueue) ml_kOwned;
      Ret (Ok tt)
  | _ =>
      do! mark_gate_protocol_failure enqueue owner_commit;
      fail kRecoveryBlocked (gate_operation enqueue)
        (if bool_decide (owner_commit = oc_EpochExhausted) then "gate owner epoch exhausted"
         else "gate owner epoch protocol is corrupt")
  end.

Definition acquire_gate (handle : MpmcQueueHandle) (enqueue : bool) : mprog (Result unit) :=
  let? _ := claim_gate handle enqueue in
  commit_claimed_gate handle enqueue.

Definition release_gate (enqueue : bool) : mprog unit :=
  shared_store_seq_cst (HLock enqueue) ml_kFree.

Definition notify_waiters : mprog unit :=
  do! shared_fetch_add_relaxed_u32 (HField hf_notify_epoch) 1;
  do! futex_wake (HField hf_notify_epoch) INT32_MAX;
  Ret tt.

Definition classify_gate_owner (enqueue : bool) : mprog OwnerSnapshot :=
  snapshot_gate_owner enqueue.

Definition owner_observation_is_unrecoverable (handle : MpmcQueueHandle) (enqueue : bool)
    (observation : OwnerSnapshot) : mprog OwnerObservationDisposition :=
  match os_kind observation with
  | osk_Inactive | osk_Claiming | osk_Unstable => Ret kNotUnrecoverable
  | osk_Corrupt | osk_EpochExhausted => Ret kUnrecoverable
  | osk_Stable => confirm_owner_liveness handle enqueue observation
  end.

(** * Positions and admission *)

Definition dequeue_drain_budget (handle : MpmcQueueHandle) (operation : string)
    : mprog (Result Z) :=
  let! observation := classify_gate_owner false in
  match os_kind observation with
  | osk_Claiming | osk_Unstable =>
      fail kQueueContention operation "dequeue gate owner claim is in progress"
  | osk_EpochExhausted =>
      fail kSequenceExhausted operation "dequeue gate owner epoch is exhausted"
  | osk_Corrupt =>
      fail kRecoveryBlocked operation "dequeue gate owner protocol is corrupt"
  | osk_Inactive | osk_Stable =>
      if epoch_odd (os_epoch observation) || (kMaxCommittedOwnerEpoch <? os_epoch observation)
      then fail kRecoveryBlocked operation "dequeue gate owner epoch is invalid"
      else if bool_decide (os_kind observation = osk_Stable) then
        let! disposition := owner_observation_is_unrecoverable handle false observation in
        match disposition with
        | kChanged =>
            fail kQueueContention operation "dequeue gate owner changed while probing liveness"
        | kUnrecoverable =>
            fail kRecoveryBlocked operation "dequeue gate owner is dead or unverifiable"
        | kNotUnrecoverable =>
            fail kQueueContention operation "dequeue gate is owned by an active consumer"
        end
      else Ret (Ok (u64 (kMaxCommittedOwnerEpoch - os_epoch observation) / 2))
  end.

Definition validate_queue_positions (enqueue dequeue capacity : Z) (operation : string)
    : Result unit :=
  if enqueue <? dequeue then
    Err (make_error kRecoveryBlocked operation "queue positions are inconsistent")
  else if capacity <? u64 (enqueue - dequeue) then
    Err (make_error kRecoveryBlocked operation "queue positions exceed capacity")
  else Ok tt.

(** The pair is a [QueuePositionSnapshot]: [(enqueue, dequeue)]. *)
Fixpoint snapshot_queue_positions_loop (attempts : nat) (operation : string)
    : mprog (Result (Z * Z)) :=
  match attempts with
  | O => fail kQueueContention operation
           "queue positions changed while taking a consistent snapshot"
  | S attempts' =>
      let! first_enqueue := shared_load_seq_cst (HField hf_enqueue_position) in
      let! first_dequeue := shared_load_seq_cst (HField hf_dequeue_position) in
      let! second_enqueue := shared_load_seq_cst (HField hf_enqueue_position) in
      let! second_dequeue := shared_load_seq_cst (HField hf_dequeue_position) in
      if (first_enqueue =? second_enqueue) && (first_dequeue =? second_dequeue) then
        Ret (Ok (second_enqueue, second_dequeue))
      else snapshot_queue_positions_loop attempts' operation
  end.

Definition snapshot_queue_positions (operation : string) : mprog (Result (Z * Z)) :=
  snapshot_queue_positions_loop kOwnerSnapshotRetries operation.

(** The in/out positions are threaded; the result is their final value. *)
Fixpoint push_drain_admission_loop (attempts : nat) (handle : MpmcQueueHandle)
    (capacity enqueue dequeue : Z) (operation : string) : mprog (Result (Z * Z)) :=
  match attempts with
  | O => fail kQueueContention operation "positions changed while taking push admission"
  | S attempts' =>
      let? _ := lift (validate_queue_positions enqueue dequeue capacity operation) in
      let pending := u64 (enqueue - dequeue) in
      match checked_add_u64 pending 1 with
      | None => fail kSequenceExhausted operation "pending message count cannot advance"
      | Some pending_after =>
          let? budget := dequeue_drain_budget handle operation in
          if pending =? capacity then
            if budget =? 0 then
              fail kSequenceExhausted operation
                "dequeue gate budget cannot drain the published message"
            else fail kQueueFull operation "queue became full while admitting push"
          else
            let? (refreshed_enqueue, refreshed_dequeue) := snapshot_queue_positions operation in
            if negb (refreshed_enqueue =? enqueue) || negb (refreshed_dequeue =? dequeue) then
              push_drain_admission_loop attempts' handle capacity refreshed_enqueue
                refreshed_dequeue operation
            else if budget <? pending_after then
              fail kSequenceExhausted operation
                "dequeue gate budget cannot drain the published message"
            else Ret (Ok (enqueue, dequeue))
      end
  end.

Definition validate_push_drain_admission (handle : MpmcQueueHandle) (enqueue dequeue : Z)
    (operation : string) : mprog (Result (Z * Z)) :=
  let! capacity := plain_load (HField hf_capacity) in
  push_drain_admission_loop kOwnerSnapshotRetries handle capacity enqueue dequeue operation.

(** [(next_ticket, reclaim_sequence)]. *)
Definition validate_ticket_bounds (ticket capacity : Z) (operation : string)
    : Result (Z * Z) :=
  match mpmc_checked_ticket_bounds ticket capacity with
  | Some r => Ok r
  | None => Err (make_error kSequenceExhausted operation
                   "queue ticket cannot advance without wraparound")
  end.

(** Returns the handle the shared pointer holds. *)
Definition validate_live_handle (handle : option MpmcQueueHandle) (operation : string)
    : mprog (Result MpmcQueueHandle) :=
  match handle with
  | None => fail kStaleHandle operation ""
  | Some h =>
      if h_removed h then fail kStaleHandle operation ""
      else
        let! init := shared_load_acquire (HField hf_init_state) in
        if negb (init =? mi_kReady) then
          fail kInitializationIncomplete operation "queue is not ready"
        else Ret (Ok h)
  end.

(** * Slots *)

(** The slot at [kMpmcFirstSlotOffset + index * slot_stride] is named by its
    index; [None] is the null pointer. *)
Definition slot_at (handle : MpmcQueueHandle) (position : Z) : mprog (option Z) :=
  let! capacity := plain_load (HField hf_capacity) in
  let index := u32 (position mod capacity) in
  let! capacity' := plain_load (HField hf_capacity) in
  Ret match mpmc_slot_offset index capacity' (h_slot_stride handle) with
      | None => None
      | Some _ => Some index
      end.

Definition payload_at (handle : MpmcQueueHandle) (position : Z) : mprog (option (nat -> mloc)) :=
  let! slot := slot_at handle position in
  Ret match slot with None => None | Some i => Some (SPayload i) end.

(** [memcpy] to and from [payload_at]. Its null case is not reached: the callers
    have just resolved the same position to a slot. *)
Definition copy_payload_in (dst : option (nat -> mloc)) (payload : list Z) (payload_size : Z)
    : mprog unit :=
  match dst with
  | None => Ret tt
  | Some dst => store_list (zip (map dst (seq 0 (Z.to_nat payload_size))) payload)
  end.

Definition copy_payload_out (src : option (nat -> mloc)) (payload_size : Z)
    : mprog (list Z) :=
  match src with
  | None => Ret []
  | Some src => load_list (map src (seq 0 (Z.to_nat payload_size)))
  end.

Definition slot_owner_locs (slot : Z) : owner_locs mloc :=
  mkOwnerLocs (SState slot) (SOwnerEpoch slot) (SOwner slot).

Definition snapshot_slot_owner (slot : Z) (enqueue : bool) : mprog OwnerSnapshot :=
  snapshot_owner (slot_owner_locs slot)
    (if enqueue then ms_kFree else ms_kReady)
    (if enqueue then ms_kEnqueueClaiming else ms_kDequeueClaiming)
    (if enqueue then ms_kEnqueueOwned else ms_kDequeueOwned)
    ms_kEpochExhausted ms_kOwnerProtocolFault.

Definition slot_terminal_state (result : OwnerCommitResult) : Z :=
  if bool_decide (result = oc_EpochExhausted) then ms_kEpochExhausted
  else ms_kOwnerProtocolFault.

Definition mark_slot_protocol_failure (slot : Z) (result : OwnerCommitResult) : mprog unit :=
  shared_store_seq_cst (SState slot) (slot_terminal_state result).

(** [if (!r) { release_gate(...); return r.error(); }]. *)
Definition or_release {A B} (enqueue : bool) (r : Result A) (k : A -> mprog (Result B))
    : mprog (Result B) :=
  match r with
  | Ok a => k a
  | Err e => do! release_gate enqueue; Ret (Err e)
  end.

Definition release_and_fail {A} (enqueue : bool) (c : ErrorCode) (op ctx : string)
    : mprog (Result A) :=
  do! release_gate enqueue; fail c op ctx.

(** * try_push *)

Definition op_push : string := "MpmcQueue::try_push".
Definition op_pop : string := "MpmcQueue::try_pop".

(** The verdict on the consumer gate of a full queue, after the disposition of
    its owner is known. *)
Definition full_queue_verdict (handle : MpmcQueueHandle)
    (consumer_state : OwnerObservationDisposition) : mprog (Result unit) :=
  match consumer_state with
  | kChanged => fail kQueueContention op_push "consumer gate changed while probing liveness"
  | kUnrecoverable => fail kRecoveryBlocked op_push "consumer gate has an unrecoverable claim"
  | kNotUnrecoverable =>
      let! drain_budget := dequeue_drain_budget handle op_push in
      match drain_budget with
      | Err e =>
          if negb (bool_decide (err_code e = kQueueContention)) then Ret (Err e)
          else fail kQueueFull op_push "queue is full"
      | Ok budget =>
          if budget =? 0 then
            fail kSequenceExhausted op_push "dequeue gate has no remaining drain budget"
          else fail kQueueFull op_push "queue is full"
      end
  end.

(** The queue looks full before the gate is taken. *)
Definition push_full_unlocked (handle : MpmcQueueHandle) : mprog (Result unit) :=
  let! enqueue_state := shared_load_seq_cst (HLock true) in
  if negb (enqueue_state =? ml_kFree) then gate_busy_result handle true
  else
    let! consumer := classify_gate_owner false in
    let! consumer_state := owner_observation_is_unrecoverable handle false consumer in
    full_queue_verdict handle consumer_state.

(** The queue is full under the gate. *)
Definition push_full_locked (handle : MpmcQueueHandle) : mprog (Result unit) :=
  let! consumer := classify_gate_owner false in
  let! consumer_state := owner_observation_is_unrecoverable handle false consumer in
  do! release_gate true;
  full_queue_verdict handle consumer_state.

(** [slot_invalid]: the loads stop at the first mismatch. *)
Definition slot_invalid (slot : option Z) (sequence state : Z) : mprog bool :=
  match slot with
  | None => Ret true
  | Some i =>
      let! seq_ := shared_load_acquire (SSequence i) in
      if negb (seq_ =? sequence) then Ret true
      else
        let! st := shared_load_seq_cst (SState i) in
        Ret (negb (st =? state))
  end.

(** The claimed slot: owner commit, payload, publication. *)
Definition push_publish (handle : MpmcQueueHandle) (i enqueue next_enqueue : Z)
    (payload : list Z) (payload_size : Z) : mprog (Result unit) :=
  let! (owner_commit, committed_epoch) := begin_owner_commit (SOwnerEpoch i) 4 in
  match owner_commit with
  | oc_Ready =>
      do! set_owner (SOwner i) (h_self handle);
      do! plain_store (STicket i) enqueue;
      do! shared_store_seq_cst (SOwnerEpoch i) committed_epoch;
      do! shared_store_seq_cst (SState i) ms_kEnqueueOwned;
      let! dst := payload_at handle enqueue in
      do! copy_payload_in dst payload payload_size;
      do! shared_store_release (SSequence i) next_enqueue;
      do! shared_store_seq_cst (SState i) ms_kReady;
      do! shared_store_seq_cst (HField hf_enqueue_position) next_enqueue;
      do! release_gate true;
      do! notify_waiters;
      Ret (Ok tt)
  | _ =>
      do! mark_slot_protocol_failure i owner_commit;
      release_and_fail true kRecoveryBlocked op_push
        (if bool_decide (owner_commit = oc_EpochExhausted) then "slot owner epoch exhausted"
         else "slot owner epoch protocol is corrupt")
  end.

(** From the slot lookup to the end, with the enqueue gate held. *)
Definition push_slot (handle : MpmcQueueHandle) (enqueue next_enqueue : Z)
    (payload : list Z) (payload_size : Z) : mprog (Result unit) :=
  let! slot := slot_at handle enqueue in
  let! invalid := slot_invalid slot enqueue ms_kFree in
  match slot, invalid with
  | Some i, false =>
      let! slot_capacity := owner_epoch_capacity (SOwnerEpoch i) 4 in
      if negb (bool_decide (slot_capacity = oc_Ready)) then
        do! shared_store_seq_cst (SState i) (slot_terminal_state slot_capacity);
        release_and_fail true kRecoveryBlocked op_push
          (if bool_decide (slot_capacity = oc_EpochExhausted) then "slot owner epoch exhausted"
           else "slot owner epoch protocol is corrupt")
      else
        let! ok := shared_cas_seq_cst (SState i) ms_kFree ms_kEnqueueClaiming in
        if negb ok then
          release_and_fail true kQueueContention op_push "slot was claimed concurrently"
        else push_publish handle i enqueue next_enqueue payload payload_size
  | Some i, true =>
      let! slot_owner := snapshot_slot_owner i true in
      if bool_decide (os_kind slot_owner = osk_EpochExhausted) then
        release_and_fail true kRecoveryBlocked op_push "slot owner epoch is exhausted"
      else
        release_and_fail true kRecoveryBlocked op_push
          "free slot sequence or state is inconsistent"
  | None, _ =>
      release_and_fail true kRecoveryBlocked op_push
        "free slot sequence or state is inconsistent"
  end.

(** With the enqueue gate held. *)
Definition push_locked (handle : MpmcQueueHandle) (capacity : Z) (payload : list Z)
    (payload_size : Z) : mprog (Result unit) :=
  let! position_snapshot := snapshot_queue_positions op_push in
  or_release true position_snapshot (fun '(enqueue, dequeue) =>
  or_release true (validate_queue_positions enqueue dequeue capacity op_push) (fun _ =>
  or_release true (validate_ticket_bounds enqueue capacity op_push)
    (fun '(next_enqueue, _) =>
  if u64 (enqueue - dequeue) =? capacity then push_full_locked handle
  else
    let! admission := validate_push_drain_admission handle enqueue dequeue op_push in
    or_release true admission (fun '(enqueue, _) =>
      push_slot handle enqueue next_enqueue payload payload_size)))).

Definition mpmc_try_push_impl (handle : option MpmcQueueHandle) (payload : option (list Z))
    (payload_size : Z) : mprog (Result unit) :=
  let? h := validate_live_handle handle op_push in
  match payload with
  | None => fail kInvalidOptions op_push "payload size mismatch"
  | Some payload =>
      let! header_payload_size := plain_load (HField hf_payload_size) in
      if negb (payload_size =? header_payload_size) then
        fail kInvalidOptions op_push "payload size mismatch"
      else
        let! capacity := plain_load (HField hf_capacity) in
        let? (enqueue, dequeue) := snapshot_queue_positions op_push in
        let? _ := lift (validate_queue_positions enqueue dequeue capacity op_push) in
        let? _ := lift (validate_ticket_bounds enqueue capacity op_push) in
        if u64 (enqueue - dequeue) =? capacity then push_full_unlocked h
        else
          let? _ := validate_push_drain_admission h enqueue dequeue op_push in
          let? _ := acquire_gate h true in
          push_locked h capacity payload payload_size
  end.

(** * try_pop *)

Definition empty_queue_verdict (producer_state : OwnerObservationDisposition)
    : mprog (Result (list Z)) :=
  match producer_state with
  | kChanged => fail kQueueContention op_pop "producer gate changed while probing liveness"
  | kUnrecoverable => fail kRecoveryBlocked op_pop "producer gate has an unrecoverable claim"
  | kNotUnrecoverable => fail kQueueEmpty op_pop "queue is empty"
  end.

Definition pop_empty_unlocked (handle : MpmcQueueHandle) : mprog (Result (list Z)) :=
  let! dequeue_state := shared_load_seq_cst (HLock false) in
  if negb (dequeue_state =? ml_kFree) then gate_busy_result handle false
  else
    let! producer := classify_gate_owner true in
    let! producer_state := owner_observation_is_unrecoverable handle true producer in
    empty_queue_verdict producer_state.

Definition pop_empty_locked (handle : MpmcQueueHandle) : mprog (Result (list Z)) :=
  let! producer := classify_gate_owner true in
  let! producer_state := owner_observation_is_unrecoverable handle true producer in
  do! release_gate false;
  empty_queue_verdict producer_state.

(** The claimed slot: owner commit, payload, reclamation. *)
Definition pop_consume (handle : MpmcQueueHandle) (i dequeue next_dequeue reclaim_sequence : Z)
    (payload_size : Z) : mprog (Result (list Z)) :=
  let! (owner_commit, committed_epoch) := begin_owner_commit (SOwnerEpoch i) 2 in
  match owner_commit with
  | oc_Ready =>
      do! set_owner (SOwner i) (h_self handle);
      do! plain_store (STicket i) dequeue;
      do! shared_store_seq_cst (SOwnerEpoch i) committed_epoch;
      do! shared_store_seq_cst (SState i) ms_kDequeueOwned;
      let! src := payload_at handle dequeue in
      let! payload := copy_payload_out src payload_size in
      do! shared_store_release (SSequence i) reclaim_sequence;
      do! shared_store_seq_cst (SState i) ms_kFree;
      do! shared_store_seq_cst (HField hf_dequeue_position) next_dequeue;
      do! release_gate false;
      do! notify_waiters;
      Ret (Ok payload)
  | _ =>
      do! shared_store_seq_cst (SState i) ms_kReady;
      release_and_fail false kRecoveryBlocked op_pop
        (if bool_decide (owner_commit = oc_EpochExhausted) then "slot owner epoch exhausted"
         else "slot owner epoch protocol is corrupt")
  end.

Definition pop_slot (handle : MpmcQueueHandle) (dequeue next_dequeue reclaim_sequence : Z)
    (payload_size : Z) : mprog (Result (list Z)) :=
  let! slot := slot_at handle dequeue in
  let! invalid := slot_invalid slot next_dequeue ms_kReady in
  match slot, invalid with
  | Some i, false =>
      let! slot_capacity := owner_epoch_capacity (SOwnerEpoch i) 2 in
      if negb (bool_decide (slot_capacity = oc_Ready)) then
        release_and_fail false kRecoveryBlocked op_pop
          (if bool_decide (slot_capacity = oc_EpochExhausted)
           then "slot owner epoch exhausted before read"
           else "slot owner epoch protocol is corrupt")
      else
        let! ok := shared_cas_seq_cst (SState i) ms_kReady ms_kDequeueClaiming in
        if negb ok then
          release_and_fail false kQueueContention op_pop "slot was claimed concurrently"
        else pop_consume handle i dequeue next_dequeue reclaim_sequence payload_size
  | Some i, true =>
      let! slot_owner := snapshot_slot_owner i false in
      if bool_decide (os_kind slot_owner = osk_EpochExhausted) then
        release_and_fail false kRecoveryBlocked op_pop "slot owner epoch is exhausted"
      else
        release_and_fail false kRecoveryBlocked op_pop
          "published slot sequence or state is inconsistent"
  | None, _ =>
      release_and_fail false kRecoveryBlocked op_pop
        "published slot sequence or state is inconsistent"
  end.

(** With the dequeue gate claimed. *)
Definition pop_claimed (handle : MpmcQueueHandle) (capacity payload_size : Z)
    : mprog (Result (list Z)) :=
  let! position_snapshot := snapshot_queue_positions op_pop in
  or_release false position_snapshot (fun '(enqueue, dequeue) =>
  or_release false (validate_queue_positions enqueue dequeue capacity op_pop) (fun _ =>
  or_release false (validate_ticket_bounds dequeue capacity op_pop)
    (fun '(next_dequeue, reclaim_sequence) =>
  if dequeue =? enqueue then pop_empty_locked handle
  else
    let? _ := commit_claimed_gate handle false in
    pop_slot handle dequeue next_dequeue reclaim_sequence payload_size))).

(** [payload] is the out-parameter: the copied bytes are the result, and
    [payload_null] says that the caller passed a null pointer. *)
Definition mpmc_try_pop_impl (handle : option MpmcQueueHandle) (payload_null : bool)
    (payload_size : Z) : mprog (Result (list Z)) :=
  let? h := validate_live_handle handle op_pop in
  if payload_null then fail kInvalidOptions op_pop "payload size mismatch"
  else
    let! header_payload_size := plain_load (HField hf_payload_size) in
    if negb (payload_size =? header_payload_size) then
      fail kInvalidOptions op_pop "payload size mismatch"
    else
      let! capacity := plain_load (HField hf_capacity) in
      let? (enqueue, dequeue) := snapshot_queue_positions op_pop in
      let? _ := lift (validate_queue_positions enqueue dequeue capacity op_pop) in
      let? _ := lift (validate_ticket_bounds dequeue capacity op_pop) in
      if dequeue =? enqueue then pop_empty_unlocked h
      else
        let? budget := dequeue_drain_budget h op_pop in
        if budget =? 0 then
          fail kSequenceExhausted op_pop "dequeue gate has no remaining drain budget"
        else
          let? _ := claim_gate h false in
          pop_claimed h capacity payload_size.
