(* ===== verification/MpmcApi.v ===== *)
(** The life of an MPMC queue: creation, opening, the waiting variants of push
    and pop, status and removal ([src/edge_runtime/queue/mpmc_queue.cpp]). *)
From stdpp Require Import pretty.
From S2P Require Import Prelude Errors CheckedMath Checksum Prog ProcIdentity OwnerSnapshot.
From S2P Require Import ShmObject ChannelLayout MpmcLayout MpmcQueue.

(** * Header validation *)

(** The bytes of the immutable prefix as the segment holds them. *)
Fixpoint load_image (fields : list (nat * mloc)) : mprog (list Z) :=
  match fields with
  | [] => Ret []
  | (width, l) :: fields' =>
      let! v := plain_load l in
      let! rest := load_image fields' in
      Ret (le_bytes width v ++ rest)
  end.

Definition header_checksum : mprog Z :=
  let! image := load_image header_prefix in
  Ret (fnv1a64 image).

Definition magic_locs : list mloc := map HMagic (seq 0 8).
Definition fingerprint_locs : list mloc := map HFingerprint (seq 0 32).

Definition same_schema (schema : SchemaDescriptor) : mprog bool :=
  let! version := plain_load (HField hf_schema_version) in
  if negb (version =? sd_version schema) then Ret false
  else
    let! fingerprint := load_list fingerprint_locs in
    Ret (bool_decide (fingerprint = sd_fingerprint schema)).

Definition valid_header_magic : mprog bool :=
  let! magic := load_list magic_locs in
  Ret (bool_decide (magic = string_codes kMpmcHeaderMagic)).

Definition legacy_header_magic : mprog bool :=
  let! magic := load_list magic_locs in
  Ret (bool_decide (magic = string_codes kMpmcLegacyHeaderMagic)).

Definition validate_options (options : MpmcQueueOptions) (schema : SchemaDescriptor)
    (payload_size : Z) : Result unit :=
  if negb (validate_channel_name (mo_name options))
     || (kMpmcMaxNameLength <? Z.of_nat (String.length (mo_name options))) then
    Err (make_error kInvalidName "MpmcQueue::options" "invalid queue name")
  else if (mo_capacity options =? 0) || (kMpmcMaxCapacity <? mo_capacity options)
          || (payload_size =? 0) || (kMpmcMaxPayloadSize <? payload_size)
          || (sd_version schema =? 0) then
    Err (make_error kInvalidOptions "MpmcQueue::options"
           "capacity, payload, or schema version out of range")
  else Ok tt.

Definition op_open : string := "MpmcQueue::open".
Definition op_create : string := "MpmcQueue::create".

Definition validate_header (actual_size : Z) (options : MpmcQueueOptions)
    (schema : SchemaDescriptor) (payload_size : Z) : mprog (Result unit) :=
  let! legacy := legacy_header_magic in
  if legacy then fail kAbiMismatch op_open "legacy MPMC ABI requires recreation"
  else
  let! magic := valid_header_magic in
  if negb magic then fail kCorruptHeader op_open "magic mismatch"
  else
  let! abi_major := plain_load (HField hf_abi_major) in
  let! abi_minor := plain_load (HField hf_abi_minor) in
  if negb (abi_major =? kMpmcAbiMajor) || negb (abi_minor =? kMpmcAbiMinor) then
    fail kAbiMismatch op_open "unsupported ABI version"
  else
  let! header_size := plain_load (HField hf_header_size) in
  let! endian_marker := plain_load (HField hf_endian_marker) in
  if negb (header_size =? kMpmcHeaderSize) || negb (endian_marker =? kMpmcEndianMarker) then
    fail kCorruptHeader op_open "header shape mismatch"
  else
  let! capacity := plain_load (HField hf_capacity) in
  let! header_payload := plain_load (HField hf_payload_size) in
  let! generation := plain_load (HField hf_generation) in
  if (capacity =? 0) || (kMpmcMaxCapacity <? capacity) || (header_payload =? 0)
     || (kMpmcMaxPayloadSize <? header_payload) || (generation =? 0) then
    fail kCorruptHeader op_open "invalid header values"
  else
  let! mapping_size := plain_load (HField hf_mapping_size) in
  if negb (bool_decide (mpmc_mapping_size_for capacity header_payload = Some mapping_size))
     || negb (actual_size =? mapping_size) then
    fail kCorruptHeader op_open "mapping size mismatch"
  else
  let! stored := plain_load (HField hf_header_checksum) in
  let! computed := header_checksum in
  if negb (stored =? computed) then fail kCorruptHeader op_open "header checksum mismatch"
  else if negb (capacity =? mo_capacity options) || negb (header_payload =? payload_size) then
    fail kInvalidOptions op_open "queue capacity or payload size mismatch"
  else
  let! same := same_schema schema in
  if negb same then fail kSchemaMismatch op_open "schema mismatch"
  else
  let! init := shared_load_acquire (HField hf_init_state) in
  if negb (init =? mi_kReady) then
    fail kInitializationIncomplete op_open "queue is not ready"
  else Ret (Ok tt).

(** * Open *)

Definition mpmc_shm_name (queue_name : string) : mprog string :=
  let! uid := syscall sys_getuid in
  Ret ("/edgeruntime.mpmc." +:+ pretty uid +:+ "." +:+ queue_name)%string.

(** [offsetof(MpmcQueueHeaderAbi, init_state) + sizeof(uint32_t)]. *)
Definition kMpmcHeaderProbeSize : Z := 160 + 4.

Definition open_existing (options : MpmcQueueOptions) (schema : SchemaDescriptor)
    (payload_size : Z) : mprog (Result MpmcQueueHandle) :=
  let? identity := read_current_process_identity in
  let! shm_name := mpmc_shm_name (mo_name options) in
  let? fd := shm_open_existing shm_name in
  let? (dev, ino, size) := shm_fstat_and_capture fd in
  if size <? kMpmcHeaderProbeSize then
    fail kInitializationIncomplete op_open "object is smaller than the queue header probe"
  else
  let? _ := mmap_region fd size in
  let! legacy := legacy_header_magic in
  let! abi_major := plain_load (HField hf_abi_major) in
  let! header_size := plain_load (HField hf_header_size) in
  if legacy || negb (abi_major =? kMpmcAbiMajor) || negb (header_size =? kMpmcHeaderSize)
     || (size <? kMpmcHeaderSize) then
    fail kAbiMismatch op_open "queue requires the v2 MPMC mapping ABI"
  else
  let! init := shared_load_acquire (HField hf_init_state) in
  if negb (init =? mi_kReady) then
    if init =? mi_kInitializing then
      fail kInitializationIncomplete op_open "creator did not commit READY"
    else fail kCorruptHeader op_open "invalid init state"
  else
  let? _ := validate_header size options schema payload_size in
  match mpmc_stride payload_size with
  | None => fail kInvalidOptions op_open "slot stride overflow"
  | Some stride =>
      Ret (Ok (mkHandle (mkShmObject shm_name fd dev ino size) shm_name identity stride
                 false false))
  end.

Definition mpmc_open_impl (options : MpmcQueueOptions) (schema : SchemaDescriptor)
    (payload_size : Z) : mprog (Result MpmcQueueHandle) :=
  let? _ := lift (validate_options options schema payload_size) in
  open_existing options schema payload_size.

(** * Create *)

Definition cleanup_created (shm_name : string) (dev ino : Z) : mprog (Result unit) :=
  if (dev =? 0) || (ino =? 0) then Ret (Ok tt)
  else shm_unlink_checked shm_name dev ino.

Definition cleanup_and_fail {A} (shm_name : string) (dev ino : Z) (e : Error)
    : mprog (Result A) :=
  do! cleanup_created shm_name dev ino; Ret (Err e).

(** [random_bytes(&header->field, sizeof(uint64_t))]. *)
Definition random_u64_into (l : mloc) : mprog bool :=
  let! bytes := random_bytes kRandomFuel 8 [] in
  match bytes with
  | SysErr _ => Ret false
  | SysOk bs => do! plain_store l (le_value bs); Ret true
  end.

(** The slot loop of [mpmc_create_impl]; [false] when an offset overflows. *)
Fixpoint init_slots (capacity stride : Z) (ixs : list Z) : mprog bool :=
  match ixs with
  | [] => Ret true
  | i :: ixs' =>
      match mpmc_slot_offset i capacity stride with
      | None => Ret false
      | Some _ =>
          do! shared_store_relaxed (SSequence i) i;
          do! shared_store_seq_cst (SState i) ms_kFree;
          do! plain_store (STicket i) i;
          do! shared_store_seq_cst (SOwnerEpoch i) 0;
          init_slots capacity stride ixs'
      end
  end.

(** The header stores before the slots. *)
Definition init_header (options : MpmcQueueOptions) (schema : SchemaDescriptor)
    (payload_size mapping_size : Z) (self : ProcessIdentity) : mprog unit :=
  do! store_list (zip magic_locs (string_codes kMpmcHeaderMagic));
  do! plain_store (HField hf_abi_major) kMpmcAbiMajor;
  do! plain_store (HField hf_abi_minor) kMpmcAbiMinor;
  do! plain_store (HField hf_header_size) kMpmcHeaderSize;
  do! plain_store (HField hf_endian_marker) kMpmcEndianMarker;
  do! plain_store (HField hf_capacity) (mo_capacity options);
  do! plain_store (HField hf_payload_size) payload_size;
  do! plain_store (HField hf_schema_version) (sd_version schema);
  do! plain_store (HField hf_mapping_size) mapping_size;
  do! store_list (zip fingerprint_locs (sd_fingerprint schema));
  do! plain_store (HField hf_generation) 1;
  do! store_owner_seq_cst HCreator (owner_from_process self);
  do! shared_store_relaxed (HField hf_notify_epoch) 0;
  do! shared_store_seq_cst (HOwnerEpoch true) 0;
  do! shared_store_seq_cst (HOwnerEpoch false) 0;
  shared_store_relaxed (HField hf_init_state) mi_kInitializing.

(** The fresh mapping: zeroed, filled in and committed with [kReady]. *)
Definition create_mapped (options : MpmcQueueOptions) (schema : SchemaDescriptor)
    (payload_size mapping_size : Z) (self : ProcessIdentity) (object : ShmObject)
    : mprog (Result MpmcQueueHandle) :=
  let shm_name := so_name object in
  let cleanup e := cleanup_and_fail shm_name (so_dev object) (so_ino object) e in
  do! store_list (map (fun l => (l, 0)) (segment_locs (mo_capacity options) payload_size));
  let! seeded :=
    if (pid self =? 0) || (proc_start_ticks self =? 0) || (boot_id_hash_hi self =? 0)
       || (boot_id_hash_lo self =? 0) then Ret false
    else
      let! hi := random_u64_into (HField hf_instance_nonce_hi) in
      if negb hi then Ret false else random_u64_into (HField hf_instance_nonce_lo) in
  if negb seeded then cleanup (make_error kSystemError op_create "identity or nonce failed")
  else
  do! init_header options schema payload_size mapping_size self;
  match mpmc_stride payload_size with
  | None => cleanup (make_error kInvalidOptions op_create "slot stride overflow")
  | Some stride =>
      let! ok := init_slots (mo_capacity options) stride (indices (mo_capacity options)) in
      if negb ok then cleanup (make_error kInvalidOptions op_create "slot offset overflow")
      else
      let! checksum := header_checksum in
      do! plain_store (HField hf_header_checksum) checksum;
      do! shared_store_release (HField hf_init_state) mi_kReady;
      Ret (Ok (mkHandle object shm_name self stride true false))
  end.

Definition mpmc_create_impl (options : MpmcQueueOptions) (schema : SchemaDescriptor)
    (payload_size : Z) : mprog (Result MpmcQueueHandle) :=
  let? _ := lift (validate_options options schema payload_size) in
  let? self := read_current_process_identity in
  match mpmc_mapping_size_for (mo_capacity options) payload_size with
  | None => fail kInvalidOptions op_create "mapping size overflow"
  | Some mapping_size =>
      let! shm_name := mpmc_shm_name (mo_name options) in
      let? fd := shm_open_create shm_name in
      let! stat_before := shm_fstat_and_capture fd in
      match stat_before with
      | Err stat_error =>
          let? (dev, ino) := shm_capture_created_identity fd in
          let! removed := shm_unlink_checked shm_name dev ino in
          match removed with
          | Err e => if negb (bool_decide (err_code e = kNotFound)) then Ret (Err e)
                     else Ret (Err stat_error)
          | Ok _ => Ret (Err stat_error)
          end
      | Ok (dev, ino, _) =>
          let! truncated := shm_truncate fd mapping_size in
          match truncated with
          | Err e => cleanup_and_fail shm_name dev ino e
          | Ok _ =>
              let! mapping := mmap_region fd mapping_size in
              match mapping with
              | Err e => cleanup_and_fail shm_name dev ino e
              | Ok _ =>
                  create_mapped options schema payload_size mapping_size self
                    (mkShmObject shm_name fd dev ino mapping_size)
              end
          end
      end
  end.

(** * Waiting *)

Definition is_push_waitable (code : ErrorCode) : bool :=
  bool_decide (code = kQueueFull) || bool_decide (code = kQueueContention).
Definition is_pop_waitable (code : ErrorCode) : bool :=
  bool_decide (code = kQueueEmpty) || bool_decide (code = kQueueContention).

(** A [steady_clock] time point is a count of nanoseconds. *)
Definition deadline_has_time (deadline : Z) : mprog bool :=
  let! now := syscall sys_steady_now in
  Ret (now <? deadline).

Definition remaining_wait_ns (deadline : Z) : mprog (option Z) :=
  let! now := syscall sys_steady_now in
  let remaining := deadline - now in
  Ret (if remaining <=? 0 then None else Some (u64 remaining)).

(** [(tv_sec, tv_nsec)]. *)
Definition relative_wait_timespec (remaining_ns : Z) : Z * Z :=
  let bounded_ns := Z.min remaining_ns kMpmcWaitSliceNs in
  (bounded_ns / 1000000000, bounded_ns mod 1000000000).

Definition wait_on_notify_epoch (deadline expected : Z) : mprog (Result unit) :=
  let! remaining := remaining_wait_ns deadline in
  match remaining with
  | None => fail kTimeout "MpmcQueue::wait" "deadline expired"
  | Some remaining_ns =>
      let '(sec, nsec) := relative_wait_timespec remaining_ns in
      let! rc := futex_wait (HField hf_notify_epoch) expected sec nsec in
      match rc with
      | SysOk _ => Ret (Ok tt)
      | SysErr e =>
          if (e =? EAGAIN) || (e =? EINTR) || (e =? ETIMEDOUT) then Ret (Ok tt)
          else Ret (Err (make_errno_error_as kSystemError e "MpmcQueue::wait"
                           "futex_wait failed"))
      end
  end.

Definition op_wait_push : string := "MpmcQueue::wait_push_until".
Definition op_wait_pop : string := "MpmcQueue::wait_pop_until".

(** The waiting loops, at most [fuel] rounds; [None] when they are used up. A
    round is an attempt, a look at the clock, a second attempt between two reads
    of the notify epoch, and a futex wait of at most one slice. *)
Fixpoint mpmc_wait_push_until_impl (fuel : nat) (handle : option MpmcQueueHandle)
    (payload : option (list Z)) (payload_size deadline : Z) : mprog (option (Result unit)) :=
  match fuel with
  | O => Ret None
  | S fuel' =>
      let! attempt := mpmc_try_push_impl handle payload payload_size in
      match attempt with
      | Ok _ => Ret (Some attempt)
      | Err e =>
          if negb (is_push_waitable (err_code e)) then Ret (Some (Err e))
          else
          let! has_time := deadline_has_time deadline in
          if negb has_time then
            Ret (Some (Err (make_error kTimeout op_wait_push
                              "deadline expired while queue was not writable")))
          else
          let! before := shared_load_acquire (HField hf_notify_epoch) in
          let! attempt := mpmc_try_push_impl handle payload payload_size in
          match attempt with
          | Ok _ => Ret (Some attempt)
          | Err e =>
              if negb (is_push_waitable (err_code e)) then Ret (Some (Err e))
              else
              let! after := shared_load_acquire (HField hf_notify_epoch) in
              if negb (before =? after) then
                mpmc_wait_push_until_impl fuel' handle payload payload_size deadline
              else
              let! waited := wait_on_notify_epoch deadline after in
              match waited with
              | Err e =>
                  Ret (Some (if bool_decide (err_code e = kTimeout) then
                               Err (make_error kTimeout op_wait_push
                                      "deadline expired while queue was not writable")
                             else Err e))
              | Ok _ => mpmc_wait_push_until_impl fuel' handle payload payload_size deadline
              end
          end
      end
  end.

(** The check of the drain budget after an empty pop: [Some e] ends the wait. *)
Definition pop_budget_exhausted (handle : option MpmcQueueHandle) (code : ErrorCode)
    : mprog (option Error) :=
  match handle with
  | Some h =>
      if bool_decide (code = kQueueEmpty) then
        let! drain_budget := dequeue_drain_budget h op_wait_pop in
        match drain_budget with
        | Err e => Ret (if negb (bool_decide (err_code e = kQueueContention)) then Some e
                        else None)
        | Ok budget =>
            Ret (if budget =? 0 then
                   Some (make_error kSequenceExhausted op_wait_pop
                           "dequeue gate has no remaining drain budget")
                 else None)
        end
      else Ret None
  | None => Ret None (* a null handle fails with [kStaleHandle], which is not waitable *)
  end.

Fixpoint mpmc_wait_pop_until_impl (fuel : nat) (handle : option MpmcQueueHandle)
    (payload_null : bool) (payload_size deadline : Z) : mprog (option (Result (list Z))) :=
  match fuel with
  | O => Ret None
  | S fuel' =>
      let! attempt := mpmc_try_pop_impl handle payload_null payload_size in
      match attempt with
      | Ok _ => Ret (Some attempt)
      | Err e =>
          if negb (is_pop_waitable (err_code e)) then Ret (Some (Err e))
          else
          let! exhausted := pop_budget_exhausted handle (err_code e) in
          match exhausted with
          | Some e => Ret (Some (Err e))
          | None =>
          let! has_time := deadline_has_time deadline in
          if negb has_time then
            Ret (Some (Err (make_error kTimeout op_wait_pop
                              "deadline expired while queue was not readable")))
          else
          let! before := shared_load_acquire (HField hf_notify_epoch) in
          let! attempt := mpmc_try_pop_impl handle payload_null payload_size in
          match attempt with
          | Ok _ => Ret (Some attempt)
          | Err e =>
              if negb (is_pop_waitable (err_code e)) then Ret (Some (Err e))
              else
              let! exhausted := pop_budget_exhausted handle (err_code e) in
              match exhausted with
              | Some e => Ret (Some (Err e))
              | None =>
              let! after := shared_load_acquire (HField hf_notify_epoch) in
              if negb (before =? after) then
                mpmc_wait_pop_until_impl fuel' handle payload_null payload_size deadline
              else
              let! waited := wait_on_notify_epoch deadline after in
              match waited with
              | Err e =>
                  Ret (Some (if bool_decide (err_code e = kTimeout) then
                               Err (make_error kTimeout op_wait_pop
                                      "deadline expired while queue was not readable")
                             else Err e))
              | Ok _ => mpmc_wait_pop_until_impl fuel' handle payload_null payload_size deadline
              end
              end
          end
          end
      end
  end.

(** * Status and removal *)

Record MpmcQueueStatus : Type := mkMpmcStatus {
  qs_ready : bool;
  qs_abi_major : Z;
  qs_abi_minor : Z;
  qs_capacity : Z;
  qs_payload_size : Z;
  qs_mapping_size : Z;
  qs_generation : Z;
  qs_instance_nonce_hi : Z;
  qs_instance_nonce_lo : Z;
  qs_enqueue_position : Z;
  qs_dequeue_position : Z;
  qs_enqueue_lock_state : Z;
  qs_dequeue_lock_state : Z;
  qs_enqueue_owner_pid : Z;
  qs_dequeue_owner_pid : Z;
  qs_enqueue_owner_alive : bool;
  qs_dequeue_owner_alive : bool
}.

(** [(lock_state, owner_pid, owner_alive)] of one gate. *)
Definition fill_status_owner (handle : MpmcQueueHandle) (enqueue : bool)
    : mprog (Result (Z * Z * bool)) :=
  let operation := gate_operation enqueue in
  let! observation := snapshot_gate_owner enqueue in
  match os_kind observation with
  | osk_Inactive => Ret (Ok (os_state observation, 0, false))
  | osk_Claiming | osk_Unstable =>
      fail kQueueContention operation "gate owner snapshot is not stable"
  | osk_Corrupt | osk_EpochExhausted =>
      fail kRecoveryBlocked operation "gate owner protocol is not recoverable"
  | osk_Stable =>
      let! disposition := confirm_owner_liveness handle enqueue observation in
      if bool_decide (disposition = kChanged) then
        fail kQueueContention operation "gate owner changed while probing liveness"
      else if foreign_boot handle (os_owner observation) then
        fail kRecoveryBlocked operation "gate owner belongs to another boot"
      else Ret (Ok (os_state observation, pid (os_owner observation),
                    bool_decide (disposition = kNotUnrecoverable)))
  end.

Definition mpmc_status_impl (handle : option MpmcQueueHandle)
    : mprog (Result MpmcQueueStatus) :=
  let? h := validate_live_handle handle "MpmcQueue::status" in
  let! init := shared_load_acquire (HField hf_init_state) in
  let! abi_major := plain_load (HField hf_abi_major) in
  let! abi_minor := plain_load (HField hf_abi_minor) in
  let! capacity := plain_load (HField hf_capacity) in
  let! payload_size := plain_load (HField hf_payload_size) in
  let! mapping_size := plain_load (HField hf_mapping_size) in
  let! generation := plain_load (HField hf_generation) in
  let! nonce_hi := plain_load (HField hf_instance_nonce_hi) in
  let! nonce_lo := plain_load (HField hf_instance_nonce_lo) in
  let! enqueue_position := shared_load_acquire (HField hf_enqueue_position) in
  let! dequeue_position := shared_load_acquire (HField hf_dequeue_position) in
  do! shared_load_seq_cst (HLock true);
  do! shared_load_seq_cst (HLock false);
  let? (enqueue_lock, enqueue_pid, enqueue_alive) := fill_status_owner h true in
  let? (dequeue_lock, dequeue_pid, dequeue_alive) := fill_status_owner h false in
  Ret (Ok (mkMpmcStatus (init =? mi_kReady) abi_major abi_minor capacity payload_size
             mapping_size generation nonce_hi nonce_lo enqueue_position dequeue_position
             enqueue_lock dequeue_lock enqueue_pid dequeue_pid enqueue_alive dequeue_alive)).

Definition op_remove : string := "MpmcQueue::remove_if_creator".

(** One gate's part of the removal check; [Ok] lets the removal go on. *)
Definition remove_check_gate (handle : MpmcQueueHandle) (enqueue active : bool)
    : mprog (Result unit) :=
  if negb active then Ret (Ok tt)
  else
    let! observation := classify_gate_owner enqueue in
    let! disposition := owner_observation_is_unrecoverable handle enqueue observation in
    if negb (bool_decide (disposition = kUnrecoverable)) then
      fail kQueueContention op_remove
        (if enqueue then "enqueue operation is still active or unstable"
         else "dequeue operation is still active or unstable")
    else if bool_decide (os_kind observation = osk_Corrupt)
            || bool_decide (os_kind observation = osk_EpochExhausted) then
      fail kRecoveryBlocked op_remove
        (if enqueue then "enqueue owner protocol is corrupt"
         else "dequeue owner protocol is corrupt")
    else Ret (Ok tt).

(** [Ok h'] returns the handle with [removed] set. *)
Definition mpmc_remove_if_creator_impl (handle : option MpmcQueueHandle)
    : mprog (Result MpmcQueueHandle) :=
  let? h := validate_live_handle handle op_remove in
  let! creator := load_owner_seq_cst HCreator in
  if negb (owner_matches creator (h_self h)) then
    fail kPermissionDenied op_remove "handle is not the creator"
  else
  let! enqueue_lock := shared_load_seq_cst (HLock true) in
  let! dequeue_lock := shared_load_seq_cst (HLock false) in
  let? _ := remove_check_gate h true (negb (enqueue_lock =? ml_kFree)) in
  let? _ := remove_check_gate h false (negb (dequeue_lock =? ml_kFree)) in
  let? _ := shm_unlink_checked (h_shm_name h) (so_dev (h_object h)) (so_ino (h_object h)) in
  Ret (Ok (mkHandle (h_object h) (h_shm_name h) (h_self h) (h_slot_stride h) (h_created h)
             true)).

Definition mpmc_capacity_impl (handle : option MpmcQueueHandle) : mprog Z :=
  match handle with
  | None => Ret 0
  | Some h => if h_removed h then Ret 0 else plain_load (HField hf_capacity)
  end.

Definition mpmc_generation_impl (handle : option MpmcQueueHandle) : mprog Z :=
  match handle with
  | None => Ret 0
  | Some h => if h_removed h then Ret 0 else plain_load (HField hf_generation)
  end.
