(* ===== verification/MpmcProgress.v ===== *)
(** Progress of the MPMC queue.

    [try_push], [try_pop] and [status] make a bounded number of shared-memory
    accesses and system calls, whatever the other threads do and whatever the
    kernel answers: they are wait-free. The waiting variants return once the
    clock passes their deadline. *)
From S2P Require Import Prelude Errors CheckedMath Prog ProcIdentity OwnerSnapshot.
From S2P Require Import ShmObject ChannelLayout MpmcLayout MpmcQueue MpmcApi.

(** * Bounds on the owner snapshots *)

Lemma load_owner_depth {L} (o : owner_field -> L) : tree_depth 4 (load_owner_seq_cst o).
Proof. unfold load_owner_seq_cst. solve_depth. Qed.
Lemma store_owner_depth {L} (o : owner_field -> L) v : tree_depth 4 (store_owner_seq_cst o v).
Proof. unfold store_owner_seq_cst. solve_depth. Qed.
Lemma begin_owner_commit_depth {L} (l : L) r : tree_depth 2 (begin_owner_commit l r).
Proof. unfold begin_owner_commit. solve_depth. Qed.
Lemma owner_epoch_capacity_depth {L} (l : L) r : tree_depth 1 (owner_epoch_capacity l r).
Proof. unfold owner_epoch_capacity. solve_depth. Qed.
#[global] Hint Resolve load_owner_depth store_owner_depth begin_owner_commit_depth
  owner_epoch_capacity_depth : depth_db.

Lemma snapshot_owner_loop_depth {L} (locs : owner_locs L) cl va n :
  tree_depth (9 * n + 2) (snapshot_owner_loop locs cl va n).
Proof.
  induction n as [|n IH]; cbn [snapshot_owner_loop]; unfold snapshot_final; solve_depth.
Qed.

Lemma snapshot_gate_owner_depth side : tree_depth 38 (snapshot_gate_owner side).
Proof. apply (snapshot_owner_loop_depth _ _ _ 4). Qed.
Lemma snapshot_slot_owner_depth i side : tree_depth 38 (snapshot_slot_owner i side).
Proof. apply (snapshot_owner_loop_depth _ _ _ 4). Qed.
Lemma classify_gate_owner_depth side : tree_depth 38 (classify_gate_owner side).
Proof. apply snapshot_gate_owner_depth. Qed.
#[global] Hint Resolve snapshot_gate_owner_depth snapshot_slot_owner_depth
  classify_gate_owner_depth : depth_db.

Lemma confirm_owner_liveness_depth h side o : tree_depth 65 (confirm_owner_liveness h side o).
Proof.
  unfold confirm_owner_liveness. apply (tree_depth_seq 27); [solve_depth|lia|].
  intros x. solve_depth.
Qed.
#[global] Hint Resolve confirm_owner_liveness_depth : depth_db.

Lemma owner_observation_depth h side o :
  tree_depth 65 (owner_observation_is_unrecoverable h side o).
Proof. unfold owner_observation_is_unrecoverable. solve_depth. Qed.
#[global] Hint Resolve owner_observation_depth : depth_db.
Lemma gate_busy_result_depth {A} h side : tree_depth 103 (@gate_busy_result A h side).
Proof. unfold gate_busy_result. solve_depth. Qed.
Lemma dequeue_drain_budget_depth h op : tree_depth 103 (dequeue_drain_budget h op).
Proof. unfold dequeue_drain_budget. solve_depth. Qed.
#[global] Hint Resolve gate_busy_result_depth dequeue_drain_budget_depth : depth_db.

(** * Bounds on the operations *)

Lemma snapshot_queue_positions_depth op : tree_depth 16 (snapshot_queue_positions op).
Proof.
  unfold snapshot_queue_positions. change 16%nat with (4 * kOwnerSnapshotRetries)%nat.
  generalize kOwnerSnapshotRetries as n. intros n.
  induction n as [|n IH]; cbn [snapshot_queue_positions_loop]; solve_depth.
Qed.
#[global] Hint Resolve snapshot_queue_positions_depth : depth_db.

Lemma push_drain_admission_loop_depth n h c e d op :
  tree_depth (119 * n) (push_drain_admission_loop n h c e d op).
Proof.
  revert e d. induction n as [|n IH]; intros e d; cbn [push_drain_admission_loop];
    [apply tree_depth_ret|].
  apply (tree_depth_seq 0); [apply tree_depth_ret|lia|]. intros [[]|er]; solve_depth.
Qed.

Lemma validate_push_drain_admission_depth h e d op :
  tree_depth 477 (validate_push_drain_admission h e d op).
Proof.
  unfold validate_push_drain_admission. eapply tree_depth_seq; [apply tree_depth_trigger|lia|].
  intros c. apply (push_drain_admission_loop_depth 4).
Qed.
#[global] Hint Resolve validate_push_drain_admission_depth : depth_db.

Lemma validate_live_handle_depth h op : tree_depth 1 (validate_live_handle h op).
Proof. unfold validate_live_handle. solve_depth. Qed.
Lemma slot_at_depth h p : tree_depth 2 (slot_at h p).
Proof. unfold slot_at. solve_depth. Qed.
Lemma slot_invalid_depth s q st : tree_depth 2 (slot_invalid s q st).
Proof. unfold slot_invalid. solve_depth. Qed.
Lemma release_gate_depth side : tree_depth 1 (release_gate side).
Proof. apply tree_depth_trigger. Qed.
Lemma set_owner_depth o id : tree_depth 4 (set_owner o id).
Proof. apply store_owner_depth. Qed.
Lemma notify_waiters_depth : tree_depth 2 notify_waiters.
Proof. unfold notify_waiters. solve_depth. Qed.
#[global] Hint Resolve validate_live_handle_depth slot_at_depth slot_invalid_depth
  release_gate_depth set_owner_depth notify_waiters_depth : depth_db.

Lemma payload_at_depth h p : tree_depth 2 (payload_at h p).
Proof. unfold payload_at. solve_depth. Qed.
Lemma release_and_fail_depth {A} side c op ctx :
  tree_depth 1 (@release_and_fail A side c op ctx).
Proof. unfold release_and_fail. solve_depth. Qed.
Lemma mark_slot_depth i r : tree_depth 1 (mark_slot_protocol_failure i r).
Proof. apply tree_depth_trigger. Qed.
Lemma mark_gate_depth side r : tree_depth 1 (mark_gate_protocol_failure side r).
Proof. apply tree_depth_trigger. Qed.
Lemma copy_in_depth dst bytes ps : tree_depth (Z.to_nat ps) (copy_payload_in dst bytes ps).
Proof.
  destruct dst as [dst|]; simpl; [|apply tree_depth_ret].
  eapply tree_depth_mono; [|apply tree_depth_store_list].
  rewrite length_zip_with, length_map, length_seq. lia.
Qed.
Lemma copy_out_depth src ps : tree_depth (Z.to_nat ps) (copy_payload_out src ps).
Proof.
  destruct src as [src|]; simpl; [|apply tree_depth_ret].
  eapply tree_depth_mono; [|apply tree_depth_load_list].
  rewrite length_map, length_seq. lia.
Qed.
#[global] Hint Resolve payload_at_depth release_and_fail_depth mark_slot_depth mark_gate_depth
  copy_in_depth copy_out_depth : depth_db.

Lemma claim_gate_depth h side : tree_depth 104 (claim_gate h side).
Proof. unfold claim_gate. solve_depth. Qed.
Lemma commit_claimed_gate_depth h side : tree_depth 8 (commit_claimed_gate h side).
Proof. unfold commit_claimed_gate. solve_depth. Qed.
#[global] Hint Resolve claim_gate_depth commit_claimed_gate_depth : depth_db.
Lemma acquire_gate_depth h side : tree_depth 112 (acquire_gate h side).
Proof. unfold acquire_gate. solve_depth. Qed.
#[global] Hint Resolve acquire_gate_depth : depth_db.

Lemma full_queue_verdict_depth h st : tree_depth 103 (full_queue_verdict h st).
Proof. unfold full_queue_verdict. solve_depth. Qed.
#[global] Hint Resolve full_queue_verdict_depth : depth_db.
Lemma push_full_unlocked_depth h : tree_depth 207 (push_full_unlocked h).
Proof. unfold push_full_unlocked. solve_depth. Qed.
Lemma push_full_locked_depth h : tree_depth 207 (push_full_locked h).
Proof. unfold push_full_locked. solve_depth. Qed.
Lemma push_publish_depth h i e n bytes ps :
  tree_depth (17 + Z.to_nat ps) (push_publish h i e n bytes ps).
Proof. unfold push_publish. solve_depth. Qed.
#[global] Hint Resolve push_full_unlocked_depth push_full_locked_depth push_publish_depth
  : depth_db.
Lemma push_slot_depth h e n bytes ps : tree_depth (43 + Z.to_nat ps) (push_slot h e n bytes ps).
Proof. unfold push_slot. solve_depth. Qed.
#[global] Hint Resolve push_slot_depth : depth_db.

Lemma or_release_depth {A B} n side (r : Result A) (k : A -> mprog (Result B)) :
  (1 <= n)%nat -> (forall a, tree_depth n (k a)) -> tree_depth n (or_release side r k).
Proof. intros Hn Hk. destruct r; cbn [or_release]; [apply Hk|]. solve_depth. Qed.

(** [solve_depth] through the calls of [or_release]. *)
Ltac solve_depth_or :=
  repeat first [ solve_depth_step
               | match goal with |- tree_depth _ (or_release _ _ _) =>
                   apply or_release_depth; [lia|intros ?] end
               | match goal with |- tree_depth _ (lift _) => apply tree_depth_ret end ].

Lemma lift_depth {L A} (r : Result A) : @tree_depth L _ 0 (lift r).
Proof. done. Qed.
#[global] Hint Resolve lift_depth : depth_db.

Lemma push_locked_depth h c bytes ps :
  tree_depth (537 + Z.to_nat ps) (push_locked h c bytes ps).
Proof. unfold push_locked. solve_depth_or. Qed.
#[global] Hint Resolve push_locked_depth : depth_db.

Lemma try_push_depth h bytes ps :
  tree_depth (1145 + Z.to_nat ps) (mpmc_try_push_impl h bytes ps).
Proof. unfold mpmc_try_push_impl. solve_depth_or. Qed.
#[global] Hint Resolve try_push_depth : depth_db.

Lemma empty_queue_verdict_depth st : tree_depth 0 (empty_queue_verdict st).
Proof. unfold empty_queue_verdict. solve_depth. Qed.
#[global] Hint Resolve empty_queue_verdict_depth : depth_db.
Lemma pop_empty_unlocked_depth h : tree_depth 104 (pop_empty_unlocked h).
Proof. unfold pop_empty_unlocked. solve_depth. Qed.
Lemma pop_empty_locked_depth h : tree_depth 104 (pop_empty_locked h).
Proof. unfold pop_empty_locked. solve_depth. Qed.
Lemma pop_consume_depth h i d n q ps : tree_depth (17 + Z.to_nat ps) (pop_consume h i d n q ps).
Proof. unfold pop_consume. solve_depth. Qed.
#[global] Hint Resolve pop_empty_unlocked_depth pop_empty_locked_depth pop_consume_depth
  : depth_db.
Lemma pop_slot_depth h d n q ps : tree_depth (43 + Z.to_nat ps) (pop_slot h d n q ps).
Proof. unfold pop_slot. solve_depth. Qed.
#[global] Hint Resolve pop_slot_depth : depth_db.
Lemma pop_claimed_depth h c ps : tree_depth (120 + Z.to_nat ps) (pop_claimed h c ps).
Proof. unfold pop_claimed. solve_depth_or. Qed.
#[global] Hint Resolve pop_claimed_depth : depth_db.

Lemma try_pop_depth h nul ps : tree_depth (346 + Z.to_nat ps) (mpmc_try_pop_impl h nul ps).
Proof. unfold mpmc_try_pop_impl. solve_depth_or. Qed.
#[global] Hint Resolve try_pop_depth : depth_db.

Lemma fill_status_owner_depth h side : tree_depth 103 (fill_status_owner h side).
Proof. unfold fill_status_owner. solve_depth. Qed.
#[global] Hint Resolve fill_status_owner_depth : depth_db.
Lemma status_depth h : tree_depth 220 (mpmc_status_impl h).
Proof. unfold mpmc_status_impl. solve_depth. Qed.

(** * Readings of the clock *)

(** The reading when the access is [steady_clock::now]. *)
Definition clock_reading {L X} (e : ev L X) : X -> option Z :=
  match e with
  | Sys c => match c with sys_steady_now => fun z => Some z | _ => fun _ => None end
  | _ => fun _ => None
  end.

(** [path p tr a]: some answers of the memory and of the kernel make [p] return
    [a], and [tr] are the readings of the clock on the way. *)
Fixpoint path {L A} (p : prog L A) (tr : list Z) (a : A) : Prop :=
  match p with
  | Ret b => a = b /\ tr = []
  | Vis e k => exists x,
      match clock_reading e x with
      | Some z => exists tr', tr = z :: tr' /\ path (k x) tr' a
      | None => path (k x) tr a
      end
  end.

Lemma path_bind {L A B} (p : prog L A) (f : A -> prog L B) tr b :
  path (bind p f) tr b -> exists a tr1 tr2, tr = tr1 ++ tr2 /\ path p tr1 a /\ path (f a) tr2 b.
Proof.
  revert tr. induction p as [a|X e k IH]; intros tr; simpl; [by exists a, [], tr|].
  intros (x & Hx). destruct (clock_reading e x) as [z|] eqn:Hz.
  - destruct Hx as (tr' & -> & Hp). destruct (IH x tr' Hp) as (a & tr1 & tr2 & -> & H1 & H2).
    exists a, (z :: tr1), tr2. split; [done|]. split; [|done]. exists x. rewrite Hz. eauto.
  - destruct (IH x tr Hx) as (a & tr1 & tr2 & -> & H1 & H2).
    exists a, tr1, tr2. split; [done|]. split; [|done]. exists x. by rewrite Hz.
Qed.

Lemma path_leaves {L A} (phi : A -> Prop) (p : prog L A) tr a :
  leaves phi p -> path p tr a -> phi a.
Proof.
  revert tr. induction p as [b|X e k IH]; intros tr Hl; simpl; [by intros [-> _]|].
  intros (x & Hx). destruct (clock_reading e x); [destruct Hx as (? & _ & Hx)|]; by eapply IH.
Qed.

(** A run of the sequential semantics with its readings. *)
Fixpoint run_clock {L OS A} `{EqDecision L} (os : os_model OS) (p : prog L A) (w : world L OS)
    : A * list Z :=
  match p with
  | Ret a => (a, [])
  | Vis e k =>
      let '(x, w') := run_ev os e w in
      let '(a, tr) := run_clock os (k x) w' in
      (a, match clock_reading e x with Some z => z :: tr | None => tr end)
  end.

Lemma run_clock_path {L OS A} `{EqDecision L} (os : os_model OS) (p : prog L A) w :
  path p (run_clock os p w).2 (run_clock os p w).1.
Proof.
  revert w. induction p as [a|X e k IH]; intros w; simpl; [done|].
  destruct (run_ev os e w) as [x w']. specialize (IH x w').
  destruct (run_clock os (k x) w') as [a tr]. exists x. destruct (clock_reading e x); simpl; eauto.
Qed.

(** The readings before the deadline. *)
Definition early (deadline : Z) (tr : list Z) : nat :=
  length (filter (fun z => z < deadline) tr).

Lemma early_app d tr1 tr2 : early d (tr1 ++ tr2) = (early d tr1 + early d tr2)%nat.
Proof. unfold early. by rewrite filter_app, length_app. Qed.

Lemma path_deadline_has_time d tr b :
  path (deadline_has_time d) tr b -> exists z, tr = [z] /\ b = (z <? d).
Proof. simpl. intros (z & tr' & -> & -> & ->). by exists z. Qed.

(** [pb H]: split a path through a [bind] at its first call. *)
Ltac pb H :=
  let a := fresh "a" in let t1 := fresh "tr" in let t2 := fresh "tr" in
  let H1 := fresh "H" in let H2 := fresh "H" in
  apply path_bind in H; destruct H as (a & t1 & t2 & -> & H1 & H2); rename H2 into H.

Lemma wait_push_early fuel h bytes ps deadline tr :
  path (mpmc_wait_push_until_impl fuel h bytes ps deadline) tr None ->
  (fuel <= early deadline tr)%nat.
Proof.
  revert tr. induction fuel as [|fuel IH]; intros tr H; [lia|].
  cbn [mpmc_wait_push_until_impl] in H.
  pb H. destruct a as [u|e]; [by destruct H|]. destruct (negb (is_push_waitable _)); [by destruct H|].
  pb H. apply path_deadline_has_time in H1 as (z & -> & ->).
  destruct (z <? deadline) eqn:Hz; [|by destruct H]. bprop. cbn [negb] in H.
  assert (early deadline [z] = 1%nat) as He
    by (unfold early; rewrite filter_cons, decide_True by done; done).
  rewrite !early_app, He. enough (fuel <= early deadline tr2)%nat by lia. clear He.
  do 2 pb H. destruct a0 as [u|e']; [by destruct H|].
  destruct (negb (is_push_waitable _)); [by destruct H|]. pb H. rewrite !early_app.
  destruct (negb _); [apply IH in H; lia|]. pb H.
  destruct a1 as [u|e'']; [|by destruct H]. apply IH in H. rewrite early_app. lia.
Qed.

Lemma wait_pop_early fuel h nul ps deadline tr :
  path (mpmc_wait_pop_until_impl fuel h nul ps deadline) tr None ->
  (fuel <= early deadline tr)%nat.
Proof.
  revert tr. induction fuel as [|fuel IH]; intros tr H; [lia|].
  cbn [mpmc_wait_pop_until_impl] in H.
  pb H. destruct a as [u|e]; [by destruct H|]. destruct (negb (is_pop_waitable _)); [by destruct H|].
  pb H. destruct a as [ex|]; [by destruct H|].
  pb H. apply path_deadline_has_time in H2 as (z & -> & ->).
  destruct (z <? deadline) eqn:Hz; [|by destruct H]. bprop. cbn [negb] in H.
  assert (early deadline [z] = 1%nat) as He
    by (unfold early; rewrite filter_cons, decide_True by done; done).
  rewrite !early_app, He. enough (fuel <= early deadline tr3)%nat by lia. clear He.
  do 2 pb H. destruct a0 as [u|e']; [by destruct H|].
  destruct (negb (is_pop_waitable _)); [by destruct H|].
  pb H. destruct a0 as [ex|]; [by destruct H|]. pb H. rewrite !early_app.
  destruct (negb _); [apply IH in H; lia|]. pb H.
  destruct a1 as [u|e'']; [|by destruct H]. apply IH in H. rewrite early_app. lia.
Qed.

(** * Error codes *)

Definition err_in (cs : list ErrorCode) {A} (r : Result A) : Prop :=
  match r with Err e => err_code e ∈ cs | Ok _ => True end.

(** The codes of the parts both operations share. *)
Definition common_codes : list ErrorCode :=
  [kStaleHandle; kInitializationIncomplete; kInvalidOptions; kQueueContention;
   kRecoveryBlocked; kConcurrentHandleUse; kSequenceExhausted].
Definition push_codes : list ErrorCode := kQueueFull :: common_codes.
Definition pop_codes : list ErrorCode := kQueueEmpty :: common_codes.

Lemma err_in_push {A} (r : Result A) : err_in common_codes r -> err_in push_codes r.
Proof. destruct r; simpl; [done|]. unfold push_codes. intros. by right. Qed.
Lemma err_in_pop {A} (r : Result A) : err_in common_codes r -> err_in pop_codes r.
Proof. destruct r; simpl; [done|]. unfold pop_codes. intros. by right. Qed.

Lemma leaves_push {L A} (p : prog L (Result A)) :
  leaves (err_in common_codes) p -> leaves (err_in push_codes) p.
Proof. apply leaves_mono, err_in_push. Qed.
Lemma leaves_pop {L A} (p : prog L (Result A)) :
  leaves (err_in common_codes) p -> leaves (err_in pop_codes) p.
Proof. apply leaves_mono, err_in_pop. Qed.

(** [solve_codes]: goals [leaves (err_in cs) p]; the calls have their own lemmas
    in [codes_db]. *)
Create HintDb codes_db.
#[global] Hint Resolve leaves_push leaves_pop : codes_db.

Ltac code_in :=
  match goal with
  | |- ?c ∈ _ => apply (bool_decide_unpack _); reflexivity
  end.
Ltac solve_codes_step :=
  match goal with
  | H : err_in ?cs (Err ?e) |- leaves (err_in ?cs) (Ret (Err ?e)) => exact H
  | |- leaves _ (bind _ _) =>
      first [ eapply (leaves_bind (err_in _)); [solve [eauto with codes_db]|intros ? ?]
            | apply leaves_bind_any; intros ? ]
  | |- leaves _ (Ret (Ok _)) => exact I
  | |- leaves _ (Ret (Err (make_error _ _ _))) => cbn [leaves err_in err_code make_error]; code_in
  | |- leaves _ (fail _ _ _) => cbn [leaves fail err_in err_code make_error]; code_in
  | |- leaves _ (match ?x with _ => _ end) => destruct x
  | |- leaves _ (if ?x then _ else _) => destruct x
  | |- leaves _ (let _ := _ in _) => cbv zeta
  | |- leaves _ _ => solve [eauto with codes_db]
  end.
Ltac solve_codes := repeat solve_codes_step.

Lemma gate_busy_result_codes {A} h side : leaves (err_in common_codes) (@gate_busy_result A h side).
Proof. unfold gate_busy_result. solve_codes. Qed.
Lemma dequeue_drain_budget_codes h op : leaves (err_in common_codes) (dequeue_drain_budget h op).
Proof. unfold dequeue_drain_budget. solve_codes. Qed.
#[global] Hint Resolve @gate_busy_result_codes dequeue_drain_budget_codes : codes_db.

Lemma snapshot_queue_positions_codes op :
  leaves (err_in common_codes) (snapshot_queue_positions op).
Proof.
  unfold snapshot_queue_positions. generalize kOwnerSnapshotRetries as n. intros n.
  induction n as [|n IH]; cbn [snapshot_queue_positions_loop]; solve_codes.
Qed.
Lemma validate_queue_positions_codes e d c op :
  err_in common_codes (validate_queue_positions e d c op).
Proof. unfold validate_queue_positions. repeat case_match; simpl; first [exact I|code_in]. Qed.
Lemma validate_ticket_bounds_codes t c op : err_in common_codes (validate_ticket_bounds t c op).
Proof. unfold validate_ticket_bounds. case_match; simpl; first [exact I|code_in]. Qed.
Lemma lift_codes {L A} cs (r : Result A) : err_in cs r -> @leaves L _ (err_in cs) (lift r).
Proof. done. Qed.
Lemma validate_live_handle_codes h op :
  leaves (err_in common_codes) (validate_live_handle h op).
Proof. unfold validate_live_handle. solve_codes. Qed.
#[global] Hint Resolve snapshot_queue_positions_codes validate_queue_positions_codes
  validate_ticket_bounds_codes validate_live_handle_codes lift_codes err_in_push err_in_pop
  : codes_db.

Lemma push_drain_admission_codes h e d op :
  leaves (err_in push_codes) (validate_push_drain_admission h e d op).
Proof.
  unfold validate_push_drain_admission. apply leaves_bind_any. intros c.
  generalize kOwnerSnapshotRetries as n. intros n. revert e d.
  induction n as [|n IH]; intros e d; cbn [push_drain_admission_loop]; solve_codes.
Qed.
Lemma release_and_fail_codes {A} cs side c op ctx :
  c ∈ cs -> leaves (err_in cs) (@release_and_fail A side c op ctx).
Proof. intros Hc. unfold release_and_fail. by apply leaves_bind_any. Qed.
Lemma or_release_codes {A B} cs side (r : Result A) (k : A -> mprog (Result B)) :
  err_in cs r -> (forall a, leaves (err_in cs) (k a)) -> leaves (err_in cs) (or_release side r k).
Proof. intros Hr Hk. destruct r; simpl; [apply Hk|done]. Qed.
Lemma claim_gate_codes h side : leaves (err_in common_codes) (claim_gate h side).
Proof. unfold claim_gate. solve_codes. Qed.
Lemma commit_claimed_gate_codes h side : leaves (err_in common_codes) (commit_claimed_gate h side).
Proof. unfold commit_claimed_gate. solve_codes. Qed.
#[global] Hint Resolve push_drain_admission_codes claim_gate_codes commit_claimed_gate_codes
  : codes_db.
Lemma acquire_gate_codes h side : leaves (err_in common_codes) (acquire_gate h side).
Proof. unfold acquire_gate. solve_codes. Qed.
#[global] Hint Resolve acquire_gate_codes : codes_db.

Ltac solve_codes_gate :=
  repeat first [ solve_codes_step
               | match goal with
                 | |- leaves _ (release_and_fail _ _ _ _) => apply release_and_fail_codes; code_in
                 | |- leaves _ (or_release _ _ _) =>
                     apply or_release_codes;
                       [solve [eauto with codes_db]|intros ?]
                 end ].

Lemma full_queue_verdict_codes h st : leaves (err_in push_codes) (full_queue_verdict h st).
Proof. unfold full_queue_verdict. solve_codes. Qed.
#[global] Hint Resolve full_queue_verdict_codes : codes_db.
Lemma push_full_unlocked_codes h : leaves (err_in push_codes) (push_full_unlocked h).
Proof. unfold push_full_unlocked. solve_codes. Qed.
Lemma push_full_locked_codes h : leaves (err_in push_codes) (push_full_locked h).
Proof. unfold push_full_locked. solve_codes. Qed.
Lemma push_publish_codes h i e n bytes ps :
  leaves (err_in push_codes) (push_publish h i e n bytes ps).
Proof. unfold push_publish. solve_codes_gate. Qed.
#[global] Hint Resolve push_full_unlocked_codes push_full_locked_codes push_publish_codes
  : codes_db.
Lemma push_slot_codes h e n bytes ps : leaves (err_in push_codes) (push_slot h e n bytes ps).
Proof. unfold push_slot. solve_codes_gate. Qed.
#[global] Hint Resolve push_slot_codes : codes_db.
Lemma push_locked_codes h c bytes ps : leaves (err_in push_codes) (push_locked h c bytes ps).
Proof. unfold push_locked. solve_codes_gate. Qed.
#[global] Hint Resolve push_locked_codes : codes_db.
Lemma try_push_codes h bytes ps : leaves (err_in push_codes) (mpmc_try_push_impl h bytes ps).
Proof. unfold mpmc_try_push_impl. solve_codes. Qed.

Lemma empty_queue_verdict_codes st : leaves (err_in pop_codes) (empty_queue_verdict st).
Proof. unfold empty_queue_verdict. solve_codes. Qed.
#[global] Hint Resolve empty_queue_verdict_codes : codes_db.
Lemma pop_empty_unlocked_codes h : leaves (err_in pop_codes) (pop_empty_unlocked h).
Proof. unfold pop_empty_unlocked. solve_codes. Qed.
Lemma pop_empty_locked_codes h : leaves (err_in pop_codes) (pop_empty_locked h).
Proof. unfold pop_empty_locked. solve_codes. Qed.
Lemma pop_consume_codes h i d n q ps : leaves (err_in pop_codes) (pop_consume h i d n q ps).
Proof. unfold pop_consume. solve_codes_gate. Qed.
#[global] Hint Resolve pop_empty_unlocked_codes pop_empty_locked_codes pop_consume_codes
  : codes_db.
Lemma pop_slot_codes h d n q ps : leaves (err_in pop_codes) (pop_slot h d n q ps).
Proof. unfold pop_slot. solve_codes_gate. Qed.
#[global] Hint Resolve pop_slot_codes : codes_db.
Lemma pop_claimed_codes h c ps : leaves (err_in pop_codes) (pop_claimed h c ps).
Proof. unfold pop_claimed. solve_codes_gate. Qed.
#[global] Hint Resolve pop_claimed_codes : codes_db.
Lemma try_pop_codes h nul ps : leaves (err_in pop_codes) (mpmc_try_pop_impl h nul ps).
Proof. unfold mpmc_try_pop_impl. solve_codes. Qed.

(** * The waiting variants *)

(** A deadline error is backed by a reading of the clock. *)
Definition timeout_true (deadline : Z) (tr : list Z) (e : Error) : Prop :=
  err_code e = kTimeout -> Exists (fun z => deadline <= z) tr.

Lemma timeout_true_app d tr1 tr2 e : timeout_true d tr2 e -> timeout_true d (tr1 ++ tr2) e.
Proof. intros H Hc. apply Exists_app. right. auto. Qed.

Lemma path_wait_on_notify d expected tr e :
  path (wait_on_notify_epoch d expected) tr (Err e) ->
  timeout_true d tr e /\ err_code e ∈ [kTimeout; kSystemError].
Proof.
  unfold wait_on_notify_epoch, remaining_wait_ns. intros H. pb H. simpl in H0.
  destruct H0 as (z & tr' & -> & -> & ->). bdestr (d - z <=? 0).
  - destruct H as [[= ->] ->]. split; [|code_in]. intros _. apply Exists_cons. left. lia.
  - simpl in H. destruct H as (rc & H). destruct rc as [v|en]; [by destruct H|].
    destruct (_ || _); destruct H as [[= ->] ->]. split; [done|]. right. by left.
Qed.

Lemma code_not_waitable_push e :
  negb (is_push_waitable (err_code e)) = true ->
  err_code e <> kQueueFull /\ err_code e <> kQueueContention.
Proof. unfold is_push_waitable. by destruct (err_code e). Qed.
Lemma code_not_waitable_pop e :
  negb (is_pop_waitable (err_code e)) = true ->
  err_code e <> kQueueEmpty /\ err_code e <> kQueueContention.
Proof. unfold is_pop_waitable. by destruct (err_code e). Qed.

(** An error of an attempt is not a deadline error. *)
Lemma attempt_not_timeout {A} cs d tr tr' (p : mprog (Result A)) e :
  leaves (err_in cs) p -> kTimeout ∉ cs -> path p tr (Err e) -> timeout_true d tr' e.
Proof.
  intros Hl Hn Hp Hc. pose proof (path_leaves _ _ _ _ Hl Hp) as He. simpl in He.
  by rewrite Hc in He.
Qed.

(** The error of the last wait of a round. *)
Lemma notify_error {A} d tr e op ctx e' :
  timeout_true d tr e -> err_code e ∈ [kTimeout; kSystemError] ->
  Some (Err e') = Some (if bool_decide (err_code e = kTimeout)
                        then Err (make_error kTimeout op ctx) else @Err A e) ->
  timeout_true d (tr ++ []) e' /\ (err_code e' = kTimeout \/ err_code e' = kSystemError).
Proof.
  intros Ht Hc Heq. rewrite app_nil_r. case_bool_decide as Hcode; injection Heq as ->.
  - split; [intros _; by apply Ht|by left].
  - split; [done|]. rewrite !elem_of_cons, elem_of_nil in Hc. tauto.
Qed.

(** Look past the readings before the last ones. *)
Ltac skip_readings :=
  repeat match goal with |- timeout_true _ (_ ++ _ ++ _) _ => apply timeout_true_app end.

Lemma wait_push_error fuel h bytes ps deadline tr e :
  path (mpmc_wait_push_until_impl fuel h bytes ps deadline) tr (Some (Err e)) ->
  timeout_true deadline tr e /\ err_code e <> kQueueFull /\ err_code e <> kQueueContention.
Proof.
  revert tr. induction fuel as [|fuel IH]; intros tr H; [by destruct H|].
  cbn [mpmc_wait_push_until_impl] in H.
  pb H. destruct a as [u|e1]; [by destruct H|].
  destruct (negb (is_push_waitable _)) eqn:Hw.
  { destruct H as [[= ->] ->]. split; [|by apply code_not_waitable_push].
    eapply attempt_not_timeout; [apply try_push_codes| |done].
    apply (bool_decide_unpack _). reflexivity. }
  clear Hw. pb H. apply path_deadline_has_time in H1 as (z & -> & ->).
  destruct (z <? deadline) eqn:Hz; bprop; cbn [negb] in H.
  2: { destruct H as [[= ->] ->]. split; [|done]. apply timeout_true_app. intros _.
       apply Exists_cons. by left. }
  do 2 pb H. destruct a0 as [u|e2]; [by destruct H|].
  destruct (negb (is_push_waitable _)) eqn:Hw.
  { destruct H as [[= ->] ->]. split; [|by apply code_not_waitable_push].
    eapply attempt_not_timeout; [apply try_push_codes| |done].
    apply (bool_decide_unpack _). reflexivity. }
  pb H. destruct (negb (_ =? _)).
  { apply IH in H as [? ?]. split; [|done]. by repeat apply timeout_true_app. }
  pb H. destruct a1 as [u|e3].
  { apply IH in H as [? ?]. split; [|done]. by repeat apply timeout_true_app. }
  match goal with Hn : path (wait_on_notify_epoch _ _) _ _ |- _ =>
    apply path_wait_on_notify in Hn as [Ht Hc] end.
  destruct H as [Heq ->]. destruct (notify_error _ _ _ _ _ _ Ht Hc Heq) as [Ht' Hc'].
  split; [by skip_readings|]. destruct Hc' as [-> | ->]; done.
Qed.

Lemma pop_budget_codes h code tr e :
  path (pop_budget_exhausted h code) tr (Some e) ->
  err_code e ∈ [kRecoveryBlocked; kSequenceExhausted; kStaleHandle; kInitializationIncomplete;
                kInvalidOptions; kConcurrentHandleUse].
Proof.
  unfold pop_budget_exhausted. destruct h as [h|]; [|by intros [? _]].
  case_bool_decide; [|by intros [? _]]. intros H0. pb H0. destruct a as [b|e1].
  - destruct H0 as [Heq _]. destruct (b =? 0); [|done]. injection Heq as ->. code_in.
  - destruct H0 as [Heq _]. case_bool_decide as Hc; [done|]. injection Heq as ->.
    pose proof (path_leaves _ _ _ _ (dequeue_drain_budget_codes h op_wait_pop) H1) as Hl.
    simpl in Hl. unfold common_codes in Hl. rewrite !elem_of_cons, elem_of_nil in Hl. rewrite !elem_of_cons. tauto.
Qed.

(** What ends a wait on an exhausted drain budget is neither a deadline error nor
    waitable. *)
Lemma pop_budget_error d h code tr tr' e :
  path (pop_budget_exhausted h code) tr (Some e) ->
  timeout_true d tr' e /\ err_code e <> kQueueEmpty /\ err_code e <> kQueueContention.
Proof.
  intros H. apply pop_budget_codes in H.
  assert (err_code e <> kTimeout /\ err_code e <> kQueueEmpty /\ err_code e <> kQueueContention)
    as (Ht & Hn); [|split; [by intros ?|done]].
  revert H. destruct (err_code e); intros H; (split; [|split]); try done; exfalso; revert H;
    apply (bool_decide_unpack _); reflexivity.
Qed.

Lemma wait_pop_error fuel h nul ps deadline tr e :
  path (mpmc_wait_pop_until_impl fuel h nul ps deadline) tr (Some (Err e)) ->
  timeout_true deadline tr e /\ err_code e <> kQueueEmpty /\ err_code e <> kQueueContention.
Proof.
  revert tr. induction fuel as [|fuel IH]; intros tr H; [by destruct H|].
  cbn [mpmc_wait_pop_until_impl] in H.
  pb H. destruct a as [u|e1]; [by destruct H|].
  destruct (negb (is_pop_waitable _)) eqn:Hw.
  { destruct H as [[= ->] ->]. split; [|by apply code_not_waitable_pop].
    eapply attempt_not_timeout; [apply try_pop_codes| |done].
    apply (bool_decide_unpack _). reflexivity. }
  clear Hw. pb H. destruct a as [ex|].
  { destruct H as [[= ->] ->]. by eapply pop_budget_error. }
  pb H. apply path_deadline_has_time in H2 as (z & -> & ->).
  destruct (z <? deadline) eqn:Hz; bprop; cbn [negb] in H.
  2: { destruct H as [[= ->] ->]. split; [|done]. do 2 apply timeout_true_app. intros _.
       apply Exists_cons. by left. }
  do 2 pb H. destruct a0 as [u|e2]; [by destruct H|].
  destruct (negb (is_pop_waitable _)) eqn:Hw.
  { destruct H as [[= ->] ->]. split; [|by apply code_not_waitable_pop].
    eapply attempt_not_timeout; [apply try_pop_codes| |done].
    apply (bool_decide_unpack _). reflexivity. }
  pb H. destruct a0 as [ex|].
  { destruct H as [[= ->] ->]. by eapply pop_budget_error. }
  pb H. destruct (negb (_ =? _)).
  { apply IH in H as [? ?]. split; [|done]. by repeat apply timeout_true_app. }
  pb H. destruct a1 as [u|e3].
  { apply IH in H as [? ?]. split; [|done]. by repeat apply timeout_true_app. }
  match goal with Hn : path (wait_on_notify_epoch _ _) _ _ |- _ =>
    apply path_wait_on_notify in Hn as [Ht Hc] end.
  destruct H as [Heq ->]. destruct (notify_error _ _ _ _ _ _ Ht Hc Heq) as [Ht' Hc'].
  split; [by skip_readings|]. destruct Hc' as [-> | ->]; done.
Qed.

(** What is to be shown of a waiting call: it returned, a [kTimeout] error means that the
    clock was seen at or past the deadline, and the errors worth waiting for are never
    what it returns. *)
Definition returned {A} (deadline : Z) (waitable : list ErrorCode) (tr : list Z)
    (r : option (Result A)) : Prop :=
  exists res, r = Some res /\
    forall e, res = Err e ->
      (err_code e = kTimeout -> Exists (fun z => deadline <= z) tr) /\ err_code e ∉ waitable.

(** A waiting push or pop returns. In every execution, whatever the other threads and
    the kernel do, if the clock has been read before the deadline fewer times than the
    loop has gone round, the call has returned; a [kTimeout] error means that the clock
    was seen at or past the deadline; and the errors worth waiting for ([kQueueFull] or
    [kQueueEmpty], and [kQueueContention]) are never what it returns. *)
Lemma waiting_returns fuel handle payload_size deadline tr :
  (early deadline tr < fuel)%nat ->
  (forall payload r,
     path (mpmc_wait_push_until_impl fuel handle payload payload_size deadline) tr r ->
     returned deadline [kQueueFull; kQueueContention] tr r) /\
  (forall payload_null r,
     path (mpmc_wait_pop_until_impl fuel handle payload_null payload_size deadline) tr r ->
     returned deadline [kQueueEmpty; kQueueContention] tr r).
Proof.
  intros Hf. split; intros ? [res|] H.
  - exists res. split; [done|]. intros e ->. apply wait_push_error in H as (? & ? & ?).
    rewrite !not_elem_of_cons. auto using not_elem_of_nil.
  - apply wait_push_early in H. lia.
  - exists res. split; [done|]. intros e ->. apply wait_pop_error in H as (? & ? & ?).
    rewrite !not_elem_of_cons. auto using not_elem_of_nil.
  - apply wait_pop_early in H. lia.
Qed.

(** C6: progress of every queue operation. [try_push], [try_pop] and [status] are wait-free:
    whatever the other threads and processes do to the segment, whatever the kernel answers
    and wherever others have crashed, they return after at most [1145 + payload_size],
    [346 + payload_size] and 220 accesses and system calls. A waiting push or pop returns: in
    every execution, if the clock has been read before the deadline fewer times than the loop
    has gone round, the call has returned; a [kTimeout] error means that the clock was seen at
    or past the deadline; and the errors worth waiting for ([kQueueFull] or [kQueueEmpty], and
    [kQueueContention]) are never what it returns. *)
Theorem mpmc_progress handle payload_size :
  (forall payload, tree_depth (1145 + Z.to_nat payload_size) (mpmc_try_push_impl handle payload payload_size)) /\
  (forall payload_null,
     tree_depth (346 + Z.to_nat payload_size) (mpmc_try_pop_impl handle payload_null payload_size)) /\
  tree_depth 220 (mpmc_status_impl handle) /\
  forall fuel deadline tr,
    (early deadline tr < fuel)%nat ->
    (forall payload r,
       path (mpmc_wait_push_until_impl fuel handle payload payload_size deadline) tr r ->
       returned deadline [kQueueFull; kQueueContention] tr r) /\
    (forall payload_null r,
       path (mpmc_wait_pop_until_impl fuel handle payload_null payload_size deadline) tr r ->
       returned deadline [kQueueEmpty; kQueueContention] tr r).
Proof.
  split; [intros; apply try_push_depth|]. split; [intros; apply try_pop_depth|].
  split; [apply status_depth|]. intros. by apply waiting_returns.
Qed.

(** A queue of one slot, empty or full, and a kernel whose clock says 5. *)
Module WaitDemo.
Definition handle : MpmcQueueHandle :=
  mkHandle (mkShmObject "/edgeruntime.mpmc.1000.q" 3 1 1 448) "/edgeruntime.mpmc.1000.q"
    (mkIdentity 100 7 5 9) 128 true false.
Definition memory (enqueue : Z) (l : mloc) : Z :=
  match l with
  | HField hf_capacity => 1
  | HField hf_payload_size => 1
  | HField hf_init_state => mi_kReady
  | HField hf_enqueue_position => enqueue
  | _ => 0
  end.
Definition os : os_model unit := fun X c _ =>
  (match c in sys Y return Y with sys_steady_now => 5 | c => sys_default c end, tt).
Definition full : world mloc unit := mkWorld (memory 1) tt.
Definition empty : world mloc unit := mkWorld (memory 0) tt.
Definition timeout (op ctx : string) {A} : option (Result A) :=
  Some (Err (make_error kTimeout op ctx)).
End WaitDemo.

Lemma mpmc_progress_witness :
  (exists tr r, path (mpmc_wait_push_until_impl 1 (Some WaitDemo.handle) (Some [7]) 1 5) tr r /\
     returned 5 [kQueueFull; kQueueContention] tr r) /\
  (exists tr r, path (mpmc_wait_pop_until_impl 1 (Some WaitDemo.handle) false 1 5) tr r /\
     returned 5 [kQueueEmpty; kQueueContention] tr r).
Proof.
  pose proof (run_clock_path WaitDemo.os
    (mpmc_wait_push_until_impl 1 (Some WaitDemo.handle) (Some [7]) 1 5) WaitDemo.full) as H1.
  pose proof (run_clock_path WaitDemo.os
    (mpmc_wait_pop_until_impl 1 (Some WaitDemo.handle) false 1 5) WaitDemo.empty) as H2.
  split; eexists _, _.
  - split; [exact H1|]. refine (proj1 (proj2 (proj2 (proj2 (mpmc_progress (Some WaitDemo.handle) 1))) 1%nat 5 _ _) _ _ H1).
    apply (bool_decide_unpack _). vm_compute. exact I.
  - split; [exact H2|]. refine (proj2 (proj2 (proj2 (proj2 (mpmc_progress (Some WaitDemo.handle) 1))) 1%nat 5 _ _) _ _ H2).
    apply (bool_decide_unpack _). vm_compute. exact I.
Defined.

(** Both calls end with the deadline error after one reading. *)
Lemma wait_demo_timeout :
  run_clock WaitDemo.os (mpmc_wait_push_until_impl 1 (Some WaitDemo.handle) (Some [7]) 1 5)
    WaitDemo.full
  = (WaitDemo.timeout op_wait_push "deadline expired while queue was not writable", [5]) /\
  run_clock WaitDemo.os (mpmc_wait_pop_until_impl 1 (Some WaitDemo.handle) false 1 5)
    WaitDemo.empty
  = (WaitDemo.timeout op_wait_pop "deadline expired while queue was not readable", [5]).
Proof. by vm_compute. Qed.
