(* ===== verification/MpmcProtocol.v ===== *)
(** The contract between the threads and processes that share an MPMC queue.

    The history variables say who holds each gate, whether the holder is in the
    middle of changing its slot, the global sequence of published messages
    ([g_log], appended by the store of [enqueue_position]), the thread that took
    each message ([g_pops], appended by the store of [dequeue_position]) and the
    thread that committed each owner epoch. [minv] ties them to the memory:
    the slots of the published tickets hold the logged messages, the others are
    free, and an even owner epoch goes with the identity of its committer.
    [mrely t] is what the other threads leave alone while [t] works. The lemmas
    [step_*] show that every kind of write the code makes keeps both. *)
From S2P Require Import Prelude Errors Prog Concur ProcIdentity OwnerSnapshot MpmcLayout.
From S2P Require Import MpmcQueue.

Record mghost : Type := mkGhost {
  g_holder : bool -> option tid;
  g_dirty : bool -> bool;
  g_log : list (tid * list Z);
  g_pops : list tid;
  g_commit : bool -> Z -> option tid
}.

Abbreviation mst := (cst mloc mghost).

Definition pos_field (side : bool) : header_field :=
  if side then hf_enqueue_position else hf_dequeue_position.
Definition pos (side : bool) (s : mst) : Z := c_mem s (HField (pos_field side)).
Definition epoch (side : bool) (s : mst) : Z := c_mem s (HOwnerEpoch side).
Definition holder (side : bool) (s : mst) : option tid := g_holder (c_gh s) side.
Definition dirty (side : bool) (s : mst) : bool := g_dirty (c_gh s) side.
Definition log (s : mst) : list (tid * list Z) := g_log (c_gh s).
Definition pops (s : mst) : list tid := g_pops (c_gh s).

(** The messages [t] pushed, and the messages [t] took, in order. *)
Definition pushed_by (t : tid) (lg : list (tid * list Z)) : list (list Z) :=
  snd <$> filter (fun x => fst x = t) lg.
Definition popped_by (t : tid) (pp : list tid) (lg : list (tid * list Z)) : list (list Z) :=
  (fun x => snd (snd x)) <$> filter (fun x => fst x = t) (zip pp lg).

Section Protocol.
Context (cap ps : Z) (ident : tid -> ProcessIdentity).
Hypothesis cap_range : 0 < cap <= kMpmcMaxCapacity.

Definition payload_of (m : mloc -> Z) (i : Z) : list Z :=
  map (fun b => m (SPayload i b)) (seq 0 (Z.to_nat ps)).

Definition set_holder (side : bool) (h : option tid) (g : mghost) : mghost :=
  mkGhost (upd side h (g_holder g)) (upd side false (g_dirty g)) (g_log g) (g_pops g)
    (g_commit g).
Definition set_dirty (side b : bool) (g : mghost) : mghost :=
  mkGhost (g_holder g) (upd side b (g_dirty g)) (g_log g) (g_pops g) (g_commit g).

(** How a write by [t] moves the history. *)
Definition mghost_step (t : tid) (l : mloc) (v : Z) (m : mloc -> Z) (g : mghost) : mghost :=
  match l with
  | HLock side =>
      if v =? ml_kClaiming then set_holder side (Some t) g
      else if v =? ml_kOwned then g
      else set_holder side None g
  | SState _ =>
      if v =? ms_kEnqueueClaiming then set_dirty true true g
      else if v =? ms_kDequeueClaiming then set_dirty false true g
      else g
  | HField hf_enqueue_position =>
      let message := payload_of m (m (HField hf_enqueue_position) mod cap) in
      mkGhost (g_holder g) (upd true false (g_dirty g)) (g_log g ++ [(t, message)])
        (g_pops g) (g_commit g)
  | HField hf_dequeue_position =>
      mkGhost (g_holder g) (upd false false (g_dirty g)) (g_log g) (g_pops g ++ [t])
        (g_commit g)
  | HOwnerEpoch side =>
      if Z.even v then
        mkGhost (g_holder g) (g_dirty g) (g_log g) (g_pops g)
          (upd side (upd v (Some t) (g_commit g side)) (g_commit g))
      else g
  | _ => g
  end.

(** ** The invariant *)

(** Ticket [T]'s slot, when no thread is changing it. *)
Definition slot_ok (s : mst) (T : Z) : Prop :=
  let i := T mod cap in
  if decide (T < pos true s) then
    c_mem s (SSequence i) = T + 1 /\ c_mem s (SState i) = ms_kReady /\
    exists u, log s !! Z.to_nat T = Some (u, payload_of (c_mem s) i)
  else
    c_mem s (SSequence i) = T /\
    (c_mem s (SState i) = ms_kFree \/ c_mem s (SState i) = ms_kEpochExhausted \/
     c_mem s (SState i) = ms_kOwnerProtocolFault).

(** Ticket [T] is the one the holder of [side] is working on. *)
Definition slot_busy (s : mst) (side : bool) (T : Z) : Prop :=
  T = pos side s /\ dirty side s = true.

Definition slot_inv (s : mst) (T : Z) : Prop :=
  slot_busy s true T \/ (slot_busy s false T /\ T < pos true s) \/ slot_ok s T.

Definition gate_inv (s : mst) (side : bool) : Prop :=
  let lock := c_mem s (HLock side) in
  match holder side s with
  | None => dirty side s = false /\
            (lock = ml_kFree \/ lock = ml_kEpochExhausted \/ lock = ml_kOwnerProtocolFault)
  | Some _ => lock = ml_kClaiming \/ lock = ml_kOwned
  end.

Definition owner_inv (s : mst) (side : bool) : Prop :=
  0 <= epoch side s /\
  (forall e u, g_commit (c_gh s) side e = Some u -> e <= epoch side s) /\
  (Z.even (epoch side s) = true ->
   (forall f, c_mem s (HOwner side f) = 0) \/
   exists u, g_commit (c_gh s) side (epoch side s) = Some u /\
             forall f, c_mem s (HOwner side f) = owner_get (ident u) f).

Record minv (s : mst) : Prop := {
  inv_capacity : c_mem s (HField hf_capacity) = cap;
  inv_payload : c_mem s (HField hf_payload_size) = ps;
  inv_ready : c_mem s (HField hf_init_state) = mi_kReady;
  inv_order : 0 <= pos false s <= pos true s;
  inv_window : pos true s <= pos false s + cap;
  inv_u64 : pos true s <= UINT64_MAX;
  inv_log : Z.of_nat (length (log s)) = pos true s;
  inv_pops : Z.of_nat (length (pops s)) = pos false s;
  inv_slots : forall T, pos false s <= T < pos false s + cap -> slot_inv s T;
  inv_gate : forall side, gate_inv s side;
  inv_owner : forall side, owner_inv s side
}.

(** ** The rely *)

(** The holder of [side] has a slot to work on. *)
Definition slot_open (s : mst) (side : bool) : Prop :=
  if side then pos true s < pos false s + cap else pos false s < pos true s.

(** The words of slot [i] the proof tracks. *)
Definition same_slot (s s' : mst) (i : Z) : Prop :=
  c_mem s' (SSequence i) = c_mem s (SSequence i) /\
  c_mem s' (SState i) = c_mem s (SState i) /\
  payload_of (c_mem s') i = payload_of (c_mem s) i.

Definition same_gate (s s' : mst) (side : bool) : Prop :=
  pos side s' = pos side s /\ dirty side s' = dirty side s /\
  c_mem s' (HLock side) = c_mem s (HLock side) /\ epoch side s' = epoch side s /\
  forall f, c_mem s' (HOwner side f) = c_mem s (HOwner side f).

Record mrely (t : tid) (s s' : mst) : Prop := {
  rely_pos : forall side, pos side s <= pos side s';
  rely_epoch : forall side, epoch side s <= epoch side s';
  rely_log : log s `prefix_of` log s';
  rely_pops : pops s `prefix_of` pops s';
  rely_commit : forall side e u,
    g_commit (c_gh s) side e = Some u -> g_commit (c_gh s') side e = Some u;
  rely_holder : forall side, holder side s' = Some t <-> holder side s = Some t;
  rely_gate : forall side, holder side s = Some t -> same_gate s s' side;
  rely_slot : forall side, holder side s = Some t -> slot_open s side ->
    same_slot s s' (pos side s mod cap);
  rely_pushed : pushed_by t (log s') = pushed_by t (log s);
  rely_popped : popped_by t (pops s') (log s') = popped_by t (pops s) (log s)
}.

Lemma mrely_refl t s : mrely t s s.
Proof. by split. Qed.

Lemma slot_open_rely t s s' side :
  mrely t s s' -> holder side s = Some t -> slot_open s side -> slot_open s' side.
Proof.
  intros Hr Hh. destruct (rely_gate _ _ _ Hr side Hh) as [Hp _].
  pose proof (rely_pos _ _ _ Hr (negb side)). unfold slot_open. destruct side; simpl in *; lia.
Qed.

Lemma mrely_trans t s1 s2 s3 : mrely t s1 s2 -> mrely t s2 s3 -> mrely t s1 s3.
Proof.
  intros H1 H2. split.
  - intros side. pose proof (rely_pos _ _ _ H1 side). pose proof (rely_pos _ _ _ H2 side). lia.
  - intros side. pose proof (rely_epoch _ _ _ H1 side).
    pose proof (rely_epoch _ _ _ H2 side). lia.
  - etrans; eapply rely_log; done.
  - etrans; eapply rely_pops; done.
  - intros. eapply rely_commit; [done|]. by eapply rely_commit.
  - intros side. rewrite (rely_holder _ _ _ H2 side). apply (rely_holder _ _ _ H1 side).
  - intros side Hh. destruct (rely_gate _ _ _ H1 side Hh) as (? & ? & ? & ? & Ho1).
    destruct (rely_gate _ _ _ H2 side) as (? & ? & ? & ? & Ho2);
      [by apply (rely_holder _ _ _ H1)|].
    repeat split; try congruence.
  - intros side Hh Ho. destruct (rely_slot _ _ _ H1 side Hh Ho) as (? & ? & ?).
    destruct (rely_gate _ _ _ H1 side Hh) as [Hp _].
    destruct (rely_slot _ _ _ H2 side) as (? & ? & ?);
      [by apply (rely_holder _ _ _ H1)|by eapply slot_open_rely|].
    rewrite Hp in *. repeat split; congruence.
  - rewrite (rely_pushed _ _ _ H2). apply (rely_pushed _ _ _ H1).
  - rewrite (rely_popped _ _ _ H2). apply (rely_popped _ _ _ H1).
Qed.

#[local] Instance mpmc_protocol : Protocol mloc mghost := {|
  p_ghost := mghost_step;
  p_inv := minv;
  p_rely := mrely;
  p_rely_refl := mrely_refl;
  p_rely_trans := mrely_trans
|}.

(** ** Writes *)

Lemma write_mem t l v s : c_mem (write t l v s) = upd l v (c_mem s).
Proof. done. Qed.
Lemma write_gh t l v s : c_gh (write t l v s) = mghost_step t l v (c_mem s) (c_gh s).
Proof. done. Qed.

Lemma payload_of_upd_ne m l v i :
  (forall b, l <> SPayload i b) -> payload_of (upd l v m) i = payload_of m i.
Proof.
  intros Hl. unfold payload_of. apply map_ext. intros b. apply upd_ne.
  intros H. by apply (Hl b).
Qed.

(** Everything but the gates is as before. *)
Record same_data (s s' : mst) : Prop := {
  sd_const : forall f, f <> hf_notify_epoch -> c_mem s' (HField f) = c_mem s (HField f);
  sd_log : log s' = log s;
  sd_pops : pops s' = pops s;
  sd_slots : forall i, same_slot s s' i
}.

Lemma sd_pos s s' side : same_data s s' -> pos side s' = pos side s.
Proof. intros H. apply (sd_const _ _ H). by destruct side. Qed.

Lemma slot_ok_ext s s' T :
  same_data s s' -> slot_ok s T -> slot_ok s' T.
Proof.
  intros H. unfold slot_ok. rewrite (sd_pos _ _ true H), (sd_log _ _ H).
  destruct (sd_slots _ _ H (T mod cap)) as (-> & -> & ->). done.
Qed.

Lemma minv_gate_step s s' :
  minv s -> same_data s s' ->
  (forall side, dirty side s' = dirty side s \/ slot_ok s (pos side s)) ->
  (forall side, gate_inv s' side) -> (forall side, owner_inv s' side) -> minv s'.
Proof.
  intros Hi Hd Hdirty Hg Ho.
  pose proof (sd_const _ _ Hd) as Hc.
  pose proof (sd_pos _ _ true Hd) as Hpt. pose proof (sd_pos _ _ false Hd) as Hpf.
  split; rewrite ?Hpt, ?Hpf, ?(sd_log _ _ Hd), ?(sd_pops _ _ Hd), ?Hc by done; try apply Hi;
    try done.
  intros T HT. destruct (inv_slots _ Hi T HT) as [[-> Hb]|[[[-> Hb] Hlt]|Hok]].
  - destruct (Hdirty true) as [Hs|Hok]; [left|right; right; by eapply slot_ok_ext].
    split; [done|congruence].
  - destruct (Hdirty false) as [Hs|Hok]; [right; left|right; right; by eapply slot_ok_ext].
    rewrite Hpt. split; [split; [done|congruence]|done].
  - right; right. by eapply slot_ok_ext.
Qed.

Lemma mrely_gate_step u s s' :
  same_data s s' -> (forall side, epoch side s <= epoch side s') ->
  (forall side e w, g_commit (c_gh s) side e = Some w -> g_commit (c_gh s') side e = Some w) ->
  (forall side, holder side s' = Some u <-> holder side s = Some u) ->
  (forall side, holder side s = Some u -> same_gate s s' side) -> mrely u s s'.
Proof.
  intros Hd He Hc Hh Hg. split; try done.
  - intros side. rewrite (sd_pos _ _ _ Hd). lia.
  - by rewrite (sd_log _ _ Hd).
  - by rewrite (sd_pops _ _ Hd).
  - intros side _ _. apply (sd_slots _ _ Hd).
  - by rewrite (sd_log _ _ Hd).
  - by rewrite (sd_log _ _ Hd), (sd_pops _ _ Hd).
Qed.

(** Locations of the gates and of the bookkeeping the invariant ignores. *)
Definition is_gate_loc (l : mloc) : bool :=
  match l with
  | HLock _ | HOwnerEpoch _ | HOwner _ _ | SOwner _ _ | STicket _ | SOwnerEpoch _
  | HField hf_notify_epoch => true
  | _ => false
  end.

Lemma same_data_gate_write t l v s : is_gate_loc l = true -> same_data s (write t l v s).
Proof.
  intros Hl. split.
  - intros f Hf. rewrite write_mem. apply upd_ne. intros <-. by destruct f.
  - unfold log. rewrite write_gh. destruct l as [| |[]| | | | | | | | | | |]; try done; simpl;
      repeat case_match; done.
  - unfold pops. rewrite write_gh. destruct l as [| |[]| | | | | | | | | | |]; try done; simpl;
      repeat case_match; done.
  - intros i. unfold same_slot. rewrite write_mem. repeat split;
      [apply upd_ne; by intros <-..|apply payload_of_upd_ne; by intros b ->].
Qed.

(** What a write to a gate's words leaves alone on the other gate. *)
Lemma gate_write_other t l v s side :
  match l with
  | HLock x | HOwnerEpoch x | HOwner x _ => x <> side
  | HField hf_notify_epoch | SOwner _ _ | STicket _ | SOwnerEpoch _ => True
  | _ => False
  end ->
  same_gate s (write t l v s) side /\ holder side (write t l v s) = holder side s /\
  g_commit (c_gh (write t l v s)) side = g_commit (c_gh s) side.
Proof.
  intros Hl. unfold same_gate, pos, epoch, dirty, holder. rewrite write_mem, write_gh.
  destruct l as [| |[]| | | | | | | | | | |]; try done; simpl;
    repeat case_match; simpl; repeat split; intros;
    rewrite ?upd_ne by (destruct side; simpl; congruence); done.
Qed.

Lemma owner_inv_ext s s' side :
  epoch side s' = epoch side s ->
  (forall f, c_mem s' (HOwner side f) = c_mem s (HOwner side f)) ->
  g_commit (c_gh s') side = g_commit (c_gh s) side -> owner_inv s side -> owner_inv s' side.
Proof.
  intros He Ho Hc. unfold owner_inv. rewrite He, Hc. intros (? & ? & Hv).
  split; [done|split; [done|]]. intros Hev.
  destruct (Hv Hev) as [Hz|(u & Hu & Hf)]; [left|right; exists u; split; [done|]];
    intros f; by rewrite Ho.
Qed.

Definition gate_loc_of (side : bool) (l : mloc) : Prop :=
  match l with HLock x | HOwnerEpoch x | HOwner x _ => x = side | _ => False end.

(** The gate is free or held by [t]. *)
Definition mine_or_free (t : tid) (s : mst) (side : bool) : Prop :=
  holder side s = None \/ holder side s = Some t.

Lemma gate_write_guarantee t l v s side :
  minv s -> gate_loc_of side l ->
  let s' := write t l v s in
  mine_or_free t s side -> mine_or_free t s' side ->
  dirty side s' = dirty side s \/ slot_ok s (pos side s) ->
  gate_inv s' side -> owner_inv s' side -> epoch side s <= epoch side s' ->
  (forall e w, g_commit (c_gh s) side e = Some w -> g_commit (c_gh s') side e = Some w) ->
  guarantee t s s'.
Proof.
  intros Hi Hl s' Hm Hm' Hd Hg Ho He Hc.
  assert (same_data s s') as Hsd.
  { apply same_data_gate_write. by destruct l. }
  destruct (gate_write_other t l v s (negb side)) as (Hsg & Hh & Hcc).
  { destruct l; simpl in Hl; try done; subst; by destruct side. }
  fold s' in Hsg, Hh, Hcc. destruct Hsg as (Hp & Hdd & Hll & Hee & Hoo).
  assert (forall x, x = side \/ x = negb side) as Hside by (intros []; destruct side; auto).
  split.
  - eapply minv_gate_step; [done|done|..]; intros x; destruct (Hside x) as [->| ->]; auto.
    + unfold gate_inv. rewrite Hll, Hh, Hdd. apply (inv_gate _ Hi).
    + by apply (owner_inv_ext s); [..|apply (inv_owner _ Hi)].
  - intros u Hu. apply mrely_gate_step; [done|..]; intros x; destruct (Hside x) as [->| ->].
    + done.
    + rewrite Hee. done.
    + done.
    + by rewrite Hcc.
    + destruct Hm as [Hm|Hm], Hm' as [Hm'|Hm']; rewrite Hm, Hm'; naive_solver.
    + by rewrite Hh.
    + destruct Hm as [Hm|Hm]; rewrite Hm; naive_solver.
    + intros _. by repeat split.
Qed.

Ltac gate_simpl :=
  unfold gate_inv, owner_inv, mine_or_free, holder, dirty, epoch, pos, log, pops in *;
  rewrite ?write_mem, ?write_gh in *; simpl in *; rewrite ?upd_eq in *;
  rewrite ?upd_ne in * by (simpl; congruence).

(** The claim of a free gate. *)
Lemma step_claim t s side :
  minv s -> c_mem s (HLock side) = ml_kFree ->
  let s' := write t (HLock side) ml_kClaiming s in
  guarantee t s s' /\ holder side s' = Some t /\
  holder (negb side) s' = holder (negb side) s /\ dirty side s' = false /\
  dirty (negb side) s' = dirty (negb side) s.
Proof.
  intros Hi Hfree s'.
  pose proof (inv_gate _ Hi side) as Hg. unfold gate_inv in Hg. rewrite Hfree in Hg.
  destruct (holder side s) as [u|] eqn:Hh; [by destruct Hg|]. destruct Hg as [Hd _].
  split.
  - apply (gate_write_guarantee _ _ _ _ side); [done|done|by left|..].
    + right. subst s'. gate_simpl. done.
    + left. subst s'. gate_simpl. done.
    + subst s'. gate_simpl. by left.
    + by apply (owner_inv_ext s); [subst s'; gate_simpl; intros; try rewrite upd_ne..
                                   |apply (inv_owner _ Hi)].
    + subst s'. gate_simpl. done.
    + subst s'. gate_simpl. done.
  - subst s'. gate_simpl. rewrite !upd_ne by (destruct side; done). done.
Qed.

(** ** What a thread knows *)

(** [t] has pushed [P] and taken [Q], and holds no gate. *)
Record Free (t : tid) (P Q : list (list Z)) (s : mst) : Prop := {
  fr_holder : forall side, holder side s <> Some t;
  fr_pushed : pushed_by t (log s) = P;
  fr_popped : popped_by t (pops s) (log s) = Q
}.

(** [t] holds the gate of [side], whose position is [p]; the other position is
    at least [lo]; [d] says whether [t] is changing its slot. *)
Record Gate (t : tid) (side : bool) (P Q : list (list Z)) (p lo : Z) (d : bool) (s : mst)
    : Prop := {
  gt_holder : holder side s = Some t;
  gt_other : holder (negb side) s <> Some t;
  gt_pushed : pushed_by t (log s) = P;
  gt_popped : popped_by t (pops s) (log s) = Q;
  gt_pos : pos side s = p;
  gt_lo : lo <= pos (negb side) s;
  gt_dirty : dirty side s = d
}.

Lemma Free_stable t P Q : stable t (Free t P Q).
Proof.
  intros s s' [Hh Hp Hq] Hr _. split.
  - intros side H. apply (Hh side). by apply (rely_holder _ _ _ Hr).
  - by rewrite (rely_pushed _ _ _ Hr).
  - by rewrite (rely_popped _ _ _ Hr).
Qed.

Lemma Gate_stable t side P Q p lo d : stable t (Gate t side P Q p lo d).
Proof.
  intros s s' [] Hr _. destruct (rely_gate _ _ _ Hr side) as (Hp & Hd & _); [done|].
  pose proof (rely_pos _ _ _ Hr (negb side)). split.
  - by apply (rely_holder _ _ _ Hr).
  - intros H'. by apply (rely_holder _ _ _ Hr) in H'.
  - by rewrite (rely_pushed _ _ _ Hr).
  - by rewrite (rely_popped _ _ _ Hr).
  - congruence.
  - lia.
  - congruence.
Qed.

Lemma Gate_weaken t side P Q p lo lo' d s :
  lo' <= lo -> Gate t side P Q p lo d s -> Gate t side P Q p lo' d s.
Proof. intros ? []. split; try done. lia. Qed.

(** Writes to bookkeeping words keep what [t] knows. *)
Lemma Gate_gate_write t side P Q p lo d l v s :
  is_gate_loc l = true -> (forall x, l = HLock x -> v = ml_kOwned) ->
  Gate t side P Q p lo d s -> Gate t side P Q p lo d (write t l v s).
Proof.
  intros Hl Hv []. pose proof (same_data_gate_write t l v s Hl) as Hsd.
  assert (forall x, holder x (write t l v s) = holder x s /\
                    dirty x (write t l v s) = dirty x s) as Hhd.
  { intros x. unfold holder, dirty. rewrite write_gh.
    destruct l as [| |[]| | | | | | | | | | |]; try done; simpl.
    - by rewrite (Hv _ eq_refl).
    - by case_match. }
  destruct (Hhd side) as [Hs1 Hs2], (Hhd (negb side)) as [Hs3 _].
  by split; rewrite ?(sd_log _ _ Hsd), ?(sd_pops _ _ Hsd), ?(sd_pos _ _ _ Hsd), ?Hs1, ?Hs2, ?Hs3.
Qed.

(** ** Gate steps of the holder *)

Section GateSteps.
Context (t : tid) (side : bool) (P Q : list (list Z)) (p lo : Z) (d : bool) (s : mst).
Hypothesis Hi : minv s.
Hypothesis HG : Gate t side P Q p lo d s.

Lemma step_owned : guarantee t s (write t (HLock side) ml_kOwned s).
Proof.
  pose proof (gt_holder _ _ _ _ _ _ _ _ HG) as Hh.
  apply (gate_write_guarantee _ _ _ _ side); [done|done|by right|..].
  - right. gate_simpl. done.
  - left. gate_simpl. done.
  - gate_simpl. rewrite Hh. auto.
  - by apply (owner_inv_ext s); [gate_simpl; intros; try rewrite upd_ne..|apply (inv_owner _ Hi)].
  - gate_simpl. done.
  - gate_simpl. done.
Qed.

Lemma step_epoch_odd v :
  epoch side s <= v -> Z.even v = false -> guarantee t s (write t (HOwnerEpoch side) v s).
Proof.
  intros Hle Hodd. pose proof (gt_holder _ _ _ _ _ _ _ _ HG) as Hh.
  apply (gate_write_guarantee _ _ _ _ side); [done|done|by right|..].
  - right. gate_simpl. by rewrite Hodd.
  - left. gate_simpl. by rewrite Hodd.
  - pose proof (inv_gate _ Hi side) as Hg. gate_simpl. rewrite Hodd. by rewrite Hh in *.
  - destruct (inv_owner _ Hi side) as (? & Hc & _). gate_simpl. rewrite Hodd.
    split; [lia|split; [|done]]. intros e u Hu. specialize (Hc e u Hu). lia.
  - gate_simpl. done.
  - gate_simpl. by rewrite Hodd.
Qed.

Lemma step_owner_field f v :
  Z.even (epoch side s) = false -> guarantee t s (write t (HOwner side f) v s).
Proof.
  intros Hodd. pose proof (gt_holder _ _ _ _ _ _ _ _ HG) as Hh.
  apply (gate_write_guarantee _ _ _ _ side); [done|done|by right|..].
  - right. gate_simpl. done.
  - left. gate_simpl. done.
  - pose proof (inv_gate _ Hi side) as Hg. gate_simpl. by rewrite Hh in *.
  - destruct (inv_owner _ Hi side) as (? & ? & _). gate_simpl. by rewrite Hodd.
  - gate_simpl. done.
  - gate_simpl. done.
Qed.

Lemma step_epoch_even v :
  epoch side s < v -> Z.even v = true ->
  (forall f, c_mem s (HOwner side f) = owner_get (ident t) f) ->
  guarantee t s (write t (HOwnerEpoch side) v s).
Proof.
  intros Hlt Hev Hf. pose proof (gt_holder _ _ _ _ _ _ _ _ HG) as Hh.
  destruct (inv_owner _ Hi side) as (? & Hc & _).
  apply (gate_write_guarantee _ _ _ _ side); [done|done|by right|..].
  - right. gate_simpl. by rewrite Hev.
  - left. gate_simpl. by rewrite Hev.
  - pose proof (inv_gate _ Hi side) as Hg. gate_simpl. rewrite Hev. simpl. by rewrite Hh in *.
  - gate_simpl. rewrite Hev. simpl. rewrite upd_eq. split; [lia|split].
    + intros e u. unfold upd at 1. case_decide; [intros _; lia|]. intros Hu.
      specialize (Hc e u Hu). lia.
    + intros _. right. exists t. rewrite upd_eq. split; [done|]. intros f.
      rewrite upd_ne by done. apply Hf.
  - gate_simpl. lia.
  - gate_simpl. rewrite Hev. simpl. rewrite upd_eq. intros e w Hw.
    rewrite upd_ne; [done|]. intros ->. specialize (Hc v w Hw). lia.
Qed.

(** Releasing the gate, to [kFree] or to a terminal state. *)
Lemma step_release v :
  v = ml_kFree \/ v = ml_kEpochExhausted \/ v = ml_kOwnerProtocolFault ->
  (d = true -> slot_ok s p) ->
  let s' := write t (HLock side) v s in
  guarantee t s s' /\ Free t P Q s'.
Proof.
  intros Hv Hok s'. destruct HG as [Hh Ho HP HQ Hp Hlo Hd].
  assert (g_holder (c_gh s') = upd side None (g_holder (c_gh s)) /\
          g_dirty (c_gh s') = upd side false (g_dirty (c_gh s)) /\
          g_commit (c_gh s') = g_commit (c_gh s)) as (Eh & Ed & Ec).
  { subst s'. rewrite write_gh. simpl. by destruct Hv as [->|[->| ->]]. }
  pose proof (same_data_gate_write t (HLock side) v s eq_refl) as Hsd. fold s' in Hsd.
  split.
  - apply (gate_write_guarantee _ _ _ _ side); [done|done|by right|..]; fold s'.
    + left. unfold holder. by rewrite Eh, upd_eq.
    + unfold dirty. rewrite Ed, upd_eq. destruct d; [right|left].
      * rewrite Hp. auto.
      * by unfold dirty in Hd.
    + unfold gate_inv, holder, dirty. rewrite Eh, Ed, !upd_eq. split; [done|].
      subst s'. by rewrite write_mem, upd_eq.
    + apply (owner_inv_ext s); [..|apply (inv_owner _ Hi)].
      * subst s'. by gate_simpl.
      * intros f. subst s'. by gate_simpl.
      * by rewrite Ec.
    + subst s'. by gate_simpl.
    + by rewrite Ec.
  - split.
    + intros x. unfold holder. rewrite Eh. unfold upd. case_decide; [done|].
      replace x with (negb side) by (destruct x, side; simpl; congruence). done.
    + by rewrite (sd_log _ _ Hsd).
    + by rewrite (sd_log _ _ Hsd), (sd_pops _ _ Hsd).
Qed.
End GateSteps.

(** ** Slot steps *)

Definition slot_word (i : Z) (l : mloc) : Prop :=
  match l with SSequence j | SState j | SPayload j _ => j = i | _ => False end.

(** A write to a slot word leaves everything else but the dirty marks alone. *)
Record slot_frame (s s' : mst) (i : Z) : Prop := {
  sf_other : forall l, ~ slot_word i l -> c_mem s' l = c_mem s l;
  sf_holder : g_holder (c_gh s') = g_holder (c_gh s);
  sf_log : log s' = log s;
  sf_pops : pops s' = pops s;
  sf_commit : g_commit (c_gh s') = g_commit (c_gh s)
}.

Lemma slot_write_frame t l v s i : slot_word i l -> slot_frame s (write t l v s) i.
Proof.
  intros Hl. split.
  - intros l' Hl'. rewrite write_mem. apply upd_ne. by intros ->.
  - rewrite write_gh. destruct l; try done; simpl; by repeat case_match.
  - unfold log. rewrite write_gh. destruct l; try done; simpl; by repeat case_match.
  - unfold pops. rewrite write_gh. destruct l; try done; simpl; by repeat case_match.
  - rewrite write_gh. destruct l; try done; simpl; by repeat case_match.
Qed.

Lemma sf_same_slot s s' i j : slot_frame s s' i -> j <> i -> same_slot s s' j.
Proof.
  intros H Hj. repeat split; [apply (sf_other _ _ _ H); exact Hj..|].
  unfold payload_of. apply map_ext. intros b. apply (sf_other _ _ _ H). exact Hj.
Qed.

Lemma sf_pos s s' i side : slot_frame s s' i -> pos side s' = pos side s.
Proof. intros H. apply (sf_other _ _ _ H). intros []. Qed.

Lemma slot_ok_frame s s' i T :
  slot_frame s s' i -> T mod cap <> i -> slot_ok s T -> slot_ok s' T.
Proof.
  intros H HT. unfold slot_ok. rewrite (sf_pos _ _ _ true H), (sf_log _ _ _ H).
  by destruct (sf_same_slot _ _ _ _ H HT) as (-> & -> & ->).
Qed.

(** The ticket of an open slot is in the window of the ring. *)
Lemma slot_open_window s side :
  minv s -> slot_open s side -> pos false s <= pos side s < pos false s + cap.
Proof.
  intros Hi Ho. pose proof (inv_order _ Hi). pose proof (inv_window _ Hi).
  unfold slot_open in Ho. destruct side; lia.
Qed.

Lemma window_slot_ne s T T' :
  pos false s <= T < pos false s + cap -> pos false s <= T' < pos false s + cap ->
  T <> T' -> T mod cap <> T' mod cap.
Proof. intros H1 H2 Hne Heq. apply Hne, (ring_slot_inj cap); [lia|done|lia]. Qed.

Lemma minv_slot_step s s' side :
  minv s -> slot_open s side -> slot_frame s s' (pos side s mod cap) ->
  dirty (negb side) s' = dirty (negb side) s ->
  dirty side s' = true \/ slot_ok s' (pos side s) ->
  (dirty side s' = true -> holder side s <> None) -> minv s'.
Proof.
  intros Hi Ho Hf Hd' Hd Hh. set (i := pos side s mod cap) in *.
  pose proof (sf_pos _ _ _ true Hf) as Ht. pose proof (sf_pos _ _ _ false Hf) as Hfp.
  assert (forall x, holder x s' = holder x s) as Hhh
    by (intros x; unfold holder; by rewrite (sf_holder _ _ _ Hf)).
  pose proof (slot_open_window s side Hi Ho) as Hw.
  split; rewrite ?Ht, ?Hfp, ?(sf_log _ _ _ Hf), ?(sf_pops _ _ _ Hf),
    ?(sf_other _ _ _ Hf (HField _)) by (intros []); try apply Hi.
  - intros T HT. destruct (decide (T = pos side s)) as [->|Hne].
    + destruct Hd as [Hd|Hd]; [|by right; right].
      unfold slot_inv, slot_busy. rewrite Ht, Hfp. unfold slot_open in Ho.
      destruct side; [left; done|right; left; done].
    + pose proof (window_slot_ne s T (pos side s) HT Hw Hne) as Hslot.
      destruct (inv_slots _ Hi T HT) as [[-> Hb]|[[[-> Hb] Hlt]|Hok]].
      * destruct side; [done|]. left. split; [done|]. simpl in Hd'. by rewrite Hd'.
      * destruct side; [|done]. right; left. rewrite Ht. split; [|done].
        split; [done|]. simpl in Hd'. by rewrite Hd'.
      * right; right. by eapply slot_ok_frame.
  - intros x. pose proof (inv_gate _ Hi x) as Hg. unfold gate_inv in *.
    rewrite Hhh, (sf_other _ _ _ Hf (HLock x)) by (intros []).
    destruct (holder x s) eqn:Hx; [done|]. destruct Hg as [Hg ?]. split; [|done].
    destruct (decide (x = side)) as [->|Hxs].
    + destruct (dirty side s') eqn:Hds; [|done]. by specialize (Hh eq_refl).
    + replace x with (negb side) in * by (destruct x, side; simpl; congruence). congruence.
  - intros x. apply (owner_inv_ext s); [..|apply (inv_owner _ Hi)].
    + apply (sf_other _ _ _ Hf). intros [].
    + intros f. apply (sf_other _ _ _ Hf). intros [].
    + by rewrite (sf_commit _ _ _ Hf).
Qed.

Lemma mrely_slot_step u s s' side :
  minv s -> slot_open s side -> holder side s <> Some u ->
  slot_frame s s' (pos side s mod cap) -> dirty (negb side) s' = dirty (negb side) s ->
  mrely u s s'.
Proof.
  intros Hi Ho Hu Hf Hd. pose proof (slot_open_window s side Hi Ho) as Hw.
  assert (forall x, epoch x s' = epoch x s) as He
    by (intros x; apply (sf_other _ _ _ Hf); intros []).
  split.
  - intros x. by rewrite (sf_pos _ _ _ _ Hf).
  - intros x. by rewrite He.
  - by rewrite (sf_log _ _ _ Hf).
  - by rewrite (sf_pops _ _ _ Hf).
  - by rewrite (sf_commit _ _ _ Hf).
  - intros x. unfold holder. by rewrite (sf_holder _ _ _ Hf).
  - intros x Hx. assert (x = negb side) as -> by (destruct x, side; simpl in *; congruence).
    repeat split; [apply (sf_pos _ _ _ _ Hf)|done|..|apply He|];
      intros; apply (sf_other _ _ _ Hf); intros [].
  - intros x Hx Hox. assert (x = negb side) as -> by (destruct x, side; simpl in *; congruence).
    eapply sf_same_slot; [done|]. pose proof (slot_open_window s _ Hi Hox).
    apply (window_slot_ne s); [done|done|]. unfold slot_open in *. destruct side; simpl in *; lia.
  - by rewrite (sf_log _ _ _ Hf).
  - by rewrite (sf_log _ _ _ Hf), (sf_pops _ _ _ Hf).
Qed.

(** [t] is changing the slot of its ticket [p], whose words are [st], [sq] and
    [pay]; a consumer also knows that [pay] is the message of that ticket. *)
Definition lo_open (side : bool) (p lo : Z) : Prop := if side then p < lo + cap else p < lo.

Record Slot (t : tid) (side : bool) (P Q : list (list Z)) (p lo st sq : Z) (pay : list Z)
    (s : mst) : Prop := {
  sl_gate : Gate t side P Q p lo true s;
  sl_open : lo_open side p lo;
  sl_state : c_mem s (SState (p mod cap)) = st;
  sl_seq : c_mem s (SSequence (p mod cap)) = sq;
  sl_pay : payload_of (c_mem s) (p mod cap) = pay;
  sl_log : side = false -> exists u, log s !! Z.to_nat p = Some (u, pay)
}.

Lemma Gate_open t side P Q p lo d s :
  Gate t side P Q p lo d s -> lo_open side p lo -> slot_open s side.
Proof. intros [] H. unfold lo_open, slot_open in *. destruct side; simpl in *; lia. Qed.

Lemma Slot_stable t side P Q p lo st sq pay : stable t (Slot t side P Q p lo st sq pay).
Proof.
  intros s s' [HG Ho Hst Hsq Hpay Hlog] Hr Hi.
  destruct (rely_slot _ _ _ Hr side (gt_holder _ _ _ _ _ _ _ _ HG)) as (H1 & H2 & H3);
    [by eapply Gate_open|].
  rewrite (gt_pos _ _ _ _ _ _ _ _ HG) in *. split; try congruence.
  - by eapply Gate_stable.
  - intros Hs. destruct (Hlog Hs) as [u Hu]. exists u.
    eapply prefix_lookup; [apply (rely_log _ _ _ Hr)|done].
Qed.

Lemma Slot_ok t side P Q p lo st sq pay s :
  Slot t side P Q p lo st sq pay s ->
  (if side then sq = p /\ (st = ms_kFree \/ st = ms_kEpochExhausted \/
                           st = ms_kOwnerProtocolFault)
   else sq = p + 1 /\ st = ms_kReady) -> slot_ok s p.
Proof.
  intros [HG Ho Hst Hsq Hpay Hlog] H. pose proof (Gate_open _ _ _ _ _ _ _ _ HG Ho) as Hso.
  pose proof (gt_pos _ _ _ _ _ _ _ _ HG) as Hp. unfold slot_open in Hso.
  unfold slot_ok. destruct side.
  - rewrite decide_False by lia. rewrite Hsq, Hst. done.
  - rewrite decide_True by lia. destruct H as [-> ->]. rewrite Hsq, Hst, Hpay.
    split; [done|split; [done|]]. by apply Hlog.
Qed.

Lemma Gate_slot_write t side P Q p lo d d' l v s i :
  slot_word i l -> dirty side (write t l v s) = d' ->
  Gate t side P Q p lo d s -> Gate t side P Q p lo d' (write t l v s).
Proof.
  intros Hl Hd []. pose proof (slot_write_frame t l v s i Hl) as Hf.
  by split; unfold holder in *;
    rewrite ?(sf_holder _ _ _ Hf), ?(sf_log _ _ _ Hf), ?(sf_pops _ _ _ Hf),
      ?(sf_pos _ _ _ _ Hf).
Qed.

(** A write to a word of the slot being changed, which stays marked. *)
Lemma slot_write_guarantee t side P Q p lo d l v s :
  minv s -> Gate t side P Q p lo d s -> lo_open side p lo -> slot_word (p mod cap) l ->
  let s' := write t l v s in
  dirty (negb side) s' = dirty (negb side) s ->
  dirty side s' = true \/ slot_ok s' p -> guarantee t s s'.
Proof.
  intros Hi HG Ho Hl s' Hd Hd'. pose proof (gt_holder _ _ _ _ _ _ _ _ HG) as Hh.
  pose proof (gt_pos _ _ _ _ _ _ _ _ HG) as Hp.
  pose proof (slot_write_frame t l v s _ Hl) as Hf. fold s' in Hf. rewrite <- Hp in Hf.
  pose proof (Gate_open _ _ _ _ _ _ _ _ HG Ho) as Hso. split.
  - eapply minv_slot_step; [done|done|done|done|by rewrite Hp|congruence].
  - intros u Hu. eapply mrely_slot_step; [done|done|congruence|done|done].
Qed.

(** The claim of the slot by the compare-and-swap on its state. *)
Definition claim_from (side : bool) : Z := if side then ms_kFree else ms_kReady.
Definition claim_to (side : bool) : Z :=
  if side then ms_kEnqueueClaiming else ms_kDequeueClaiming.
Definition claim_seq (side : bool) (p : Z) : Z := if side then p else p + 1.

Lemma step_slot_claim t side P Q p lo s :
  minv s -> Gate t side P Q p lo false s -> lo_open side p lo ->
  let s' := write t (SState (p mod cap)) (claim_to side) s in
  guarantee t s s' /\
  exists pay, Slot t side P Q p lo (claim_to side) (claim_seq side p) pay s'.
Proof.
  intros Hi HG Ho s'. pose proof (gt_pos _ _ _ _ _ _ _ _ HG) as Hp.
  pose proof (Gate_open _ _ _ _ _ _ _ _ HG Ho) as Hso.
  pose proof (slot_write_frame t (SState (p mod cap)) (claim_to side) s _ eq_refl) as Hf.
  fold s' in Hf.
  assert (dirty side s' = true /\ dirty (negb side) s' = dirty (negb side) s) as [Hd Hd'].
  { subst s'. unfold dirty. rewrite write_gh. by destruct side. }
  split.
  - eapply slot_write_guarantee; [done|done|done|done|done|by left].
  - assert (slot_ok s p) as Hok.
    { pose proof (slot_open_window s side Hi Hso) as Hw.
      destruct (inv_slots _ Hi _ Hw) as [[Heq Hb]|[[[Heq Hb] Hlt]|Hok]]; rewrite Hp in *;
        [| |done]; pose proof (gt_dirty _ _ _ _ _ _ _ _ HG); unfold slot_open in Hso;
        destruct side; simpl in *; try congruence; lia. }
    exists (payload_of (c_mem s) (p mod cap)). unfold slot_ok in Hok.
    split; [by eapply Gate_slot_write|done|..].
    + subst s'. by rewrite write_mem, upd_eq.
    + subst s'. rewrite write_mem, upd_ne by done. unfold slot_open in Hso.
      destruct side; [rewrite decide_False in Hok by lia|rewrite decide_True in Hok by lia];
        simpl; tauto.
    + subst s'. by rewrite write_mem, payload_of_upd_ne.
    + intros ->. unfold slot_open in Hso. rewrite decide_True in Hok by lia.
      rewrite (sf_log _ _ _ Hf). tauto.
Qed.

(** Words the invariant ignores: the slots' owners, the notification counter. *)
Definition is_bookkeeping (l : mloc) : bool :=
  match l with
  | SOwner _ _ | STicket _ | SOwnerEpoch _ | HField hf_notify_epoch => true
  | _ => false
  end.

Lemma bookkeeping_guarantee t l v s :
  minv s -> is_bookkeeping l = true -> guarantee t s (write t l v s).
Proof.
  intros Hi Hl. set (s' := write t l v s).
  assert (same_data s s') as Hsd
    by (apply same_data_gate_write; destruct l as [| |[]| | | | | | | | | | |]; done).
  assert (forall x, same_gate s s' x /\ holder x s' = holder x s /\
            g_commit (c_gh s') x = g_commit (c_gh s) x) as Hother.
  { intros x. apply gate_write_other. destruct l as [| |[]| | | | | | | | | | |]; done. }
  split.
  - eapply minv_gate_step; [done|done|..]; intros x;
      destruct (Hother x) as ((Hp & Hd & Hlk & He & Hoo) & Hh & Hc).
    + by left.
    + unfold gate_inv. rewrite Hlk, Hh, Hd. apply (inv_gate _ Hi).
    + by apply (owner_inv_ext s); [..|apply (inv_owner _ Hi)].
  - intros u Hu. apply mrely_gate_step; [done|..]; intros x;
      destruct (Hother x) as ((Hp & Hd & Hlk & He & Hoo) & Hh & Hc).
    + by rewrite He.
    + by rewrite Hc.
    + by rewrite Hh.
    + intros _. by repeat split.
Qed.

Lemma step_notify t P Q v s :
  minv s -> Free t P Q s ->
  let s' := write t (HField hf_notify_epoch) v s in guarantee t s s' /\ Free t P Q s'.
Proof.
  intros Hi [Hh HP HQ] s'. by split; [apply bookkeeping_guarantee|].
Qed.

Section SlotSteps.
Context (t : tid) (side : bool) (P Q : list (list Z)) (p lo st sq : Z) (pay : list Z) (s : mst).
Hypothesis Hi : minv s.
Hypothesis HS : Slot t side P Q p lo st sq pay s.

(** A word of the claimed slot other than a claim of its state. *)
Lemma slot_word_step l v :
  slot_word (p mod cap) l ->
  (forall i, l = SState i -> v <> ms_kEnqueueClaiming /\ v <> ms_kDequeueClaiming) ->
  guarantee t s (write t l v s) /\ Gate t side P Q p lo true (write t l v s) /\
  log (write t l v s) = log s.
Proof.
  intros Hl Hv. destruct HS as [HG Ho Hst Hsq Hpay Hlog].
  assert (forall x, dirty x (write t l v s) = dirty x s) as Hd.
  { intros x. unfold dirty. rewrite write_gh. destruct l; try done; simpl.
    destruct (Hv _ eq_refl) as [H1 H2].
    by rewrite (proj2 (Z.eqb_neq _ _) H1), (proj2 (Z.eqb_neq _ _) H2). }
  pose proof (gt_dirty _ _ _ _ _ _ _ _ HG) as Hdd. split; [|split].
  - eapply slot_write_guarantee; [done|done|done|done|done|left; by rewrite Hd].
  - eapply Gate_slot_write; [done|by rewrite Hd|done].
  - by rewrite (sf_log _ _ _ (slot_write_frame t l v s _ Hl)).
Qed.

Lemma step_slot_state v :
  v <> ms_kEnqueueClaiming -> v <> ms_kDequeueClaiming ->
  let s' := write t (SState (p mod cap)) v s in
  guarantee t s s' /\ Slot t side P Q p lo v sq pay s'.
Proof.
  intros H1 H2 s'. destruct (slot_word_step (SState (p mod cap)) v) as (Hg & HG & Hl);
    [done|by intros|]. fold s' in Hg, HG, Hl. destruct HS as [_ Ho Hst Hsq Hpay Hlog].
  split; [done|]. split; [done|done|..]; try (by rewrite Hl).
  - subst s'. by rewrite write_mem, upd_eq.
  - subst s'. by rewrite write_mem, upd_ne.
  - subst s'. by rewrite write_mem, payload_of_upd_ne.
Qed.

Lemma step_slot_seq v :
  let s' := write t (SSequence (p mod cap)) v s in
  guarantee t s s' /\ Slot t side P Q p lo st v pay s'.
Proof.
  intros s'. destruct (slot_word_step (SSequence (p mod cap)) v) as (Hg & HG & Hl);
    [done|by intros|]. fold s' in Hg, HG, Hl. destruct HS as [_ Ho Hst Hsq Hpay Hlog].
  split; [done|]. split; [done|done|..]; try (by rewrite Hl).
  - subst s'. by rewrite write_mem, upd_ne.
  - subst s'. by rewrite write_mem, upd_eq.
  - subst s'. by rewrite write_mem, payload_of_upd_ne.
Qed.

Lemma step_slot_payload b v :
  side = true ->
  let s' := write t (SPayload (p mod cap) b) v s in
  guarantee t s s' /\ Slot t side P Q p lo st sq (payload_of (c_mem s') (p mod cap)) s'.
Proof.
  intros Hside s'. destruct (slot_word_step (SPayload (p mod cap) b) v) as (Hg & HG & Hl);
    [done|by intros|]. fold s' in Hg, HG, Hl. destruct HS as [_ Ho Hst Hsq Hpay Hlog].
  split; [done|]. split; [done|done|..|done|congruence].
  - subst s'. by rewrite write_mem, upd_ne.
  - subst s'. by rewrite write_mem, upd_ne.
Qed.

(** Bookkeeping words of the slot. *)
Lemma step_slot_bookkeeping l v :
  is_bookkeeping l = true ->
  let s' := write t l v s in guarantee t s s' /\ Slot t side P Q p lo st sq pay s'.
Proof.
  intros Hl s'. assert (is_gate_loc l = true) as Hgl by (destruct l as [| |[]| | | | | | | | | | |]; done).
  pose proof (same_data_gate_write t l v s Hgl) as Hsd. fold s' in Hsd.
  split; [by apply bookkeeping_guarantee|].
  destruct HS as [HG Ho Hst Hsq Hpay Hlog].
  destruct (sd_slots _ _ Hsd (p mod cap)) as (H1 & H2 & H3).
  split; [|done|congruence|congruence|congruence|by rewrite (sd_log _ _ Hsd)].
  apply Gate_gate_write; [done| |done]. by intros x ->.
Qed.
End SlotSteps.

(** Marking a free slot as unusable before it is claimed. *)
Lemma step_slot_terminal t P Q p lo v s :
  minv s -> Gate t true P Q p lo false s -> lo_open true p lo ->
  v = ms_kEpochExhausted \/ v = ms_kOwnerProtocolFault ->
  let s' := write t (SState (p mod cap)) v s in
  guarantee t s s' /\ Gate t true P Q p lo false s'.
Proof.
  intros Hi HG Ho Hv s'. pose proof (Gate_open _ _ _ _ _ _ _ _ HG Ho) as Hso.
  destruct (gt_pos _ _ _ _ _ _ _ _ HG). pose proof (gt_dirty _ _ _ _ _ _ _ _ HG) as Hdd.
  assert (forall x, dirty x s' = dirty x s) as Hd.
  { intros x. subst s'. unfold dirty. rewrite write_gh. by destruct Hv as [->| ->]. }
  split; [|eapply Gate_slot_write; [done|by rewrite Hd|done]].
  eapply slot_write_guarantee; [done|done|done|done|done|]. right. fold s'.
  pose proof (slot_open_window s true Hi Hso) as Hw.
  unfold slot_open in Hso. unfold slot_ok.
  replace (pos true s') with (pos true s) by (subst s'; unfold pos; by rewrite write_mem, upd_ne).
  rewrite decide_False by lia.
  destruct (inv_slots _ Hi _ Hw) as [[_ Hb]|[[_ Hlt]|Hok]]; [congruence|lia|].
  unfold slot_ok in Hok. rewrite decide_False in Hok by lia. subst s'.
  rewrite write_mem, upd_eq, upd_ne by done. tauto.
Qed.

(** ** Publication and consumption *)

Lemma pushed_by_app t u lg m :
  pushed_by u (lg ++ [(t, m)]) = pushed_by u lg ++ (if decide (t = u) then [m] else []).
Proof.
  unfold pushed_by. rewrite filter_app, fmap_app. f_equal.
  rewrite filter_cons, filter_nil. simpl. by case_decide.
Qed.

Lemma popped_by_log u pp lg x :
  (length pp <= length lg)%nat -> popped_by u pp (lg ++ [x]) = popped_by u pp lg.
Proof.
  intros Hl. unfold popped_by. rewrite <- (zip_prefix pp lg (lg ++ [x])); [done|done|].
  by exists [x].
Qed.

Lemma popped_by_app t u pp lg w m :
  lg !! length pp = Some (w, m) ->
  popped_by u (pp ++ [t]) lg = popped_by u pp lg ++ (if decide (t = u) then [m] else []).
Proof.
  intros Hl. unfold popped_by. rewrite (zip_snoc _ _ _ _ Hl), filter_app, fmap_app. f_equal.
  rewrite filter_cons, filter_nil. simpl. by case_decide.
Qed.

Section Publish.
Context (t : tid) (P Q : list (list Z)) (p lo : Z) (pay : list Z) (s : mst).
Hypothesis Hi : minv s.
Hypothesis HS : Slot t true P Q p lo ms_kReady (p + 1) pay s.

Let s' := write t (HField hf_enqueue_position) (p + 1) s.

Lemma publish_mem l : l <> HField hf_enqueue_position -> c_mem s' l = c_mem s l.
Proof. intros Hl. subst s'. by rewrite write_mem, upd_ne. Qed.

Lemma publish_payload i : payload_of (c_mem s') i = payload_of (c_mem s) i.
Proof. subst s'. by rewrite write_mem, payload_of_upd_ne. Qed.

Lemma publish_ghost :
  c_gh s' = mkGhost (g_holder (c_gh s)) (upd true false (g_dirty (c_gh s)))
              (log s ++ [(t, pay)]) (pops s) (g_commit (c_gh s)).
Proof.
  destruct HS as [HG _ _ _ Hpay _]. pose proof (gt_pos _ _ _ _ _ _ _ _ HG) as Hp.
  subst s'. rewrite write_gh. simpl. unfold pos in Hp. simpl in Hp. by rewrite Hp, Hpay.
Qed.

Lemma publish_pos : pos true s' = p + 1 /\ pos false s' = pos false s.
Proof.
  split; [subst s'; unfold pos; by rewrite write_mem, upd_eq|].
  unfold pos. by apply publish_mem.
Qed.

Lemma publish_slot T :
  pos false s <= T < pos false s + cap -> slot_inv s' T.
Proof.
  intros HT. destruct HS as [HG Ho Hst Hsq Hpay _]. pose proof (gt_pos _ _ _ _ _ _ _ _ HG) as Hp.
  destruct publish_pos as [Hpt Hpf]. pose proof (inv_log _ Hi) as Hlen.
  pose proof (inv_order _ Hi) as Hord.
  destruct (decide (T = p)) as [->|Hne].
  - right; right. unfold slot_ok. rewrite Hpt, decide_True by lia.
    rewrite !publish_mem by done. rewrite publish_payload, Hst, Hsq.
    split; [done|split; [done|]]. exists t. unfold log at 1. rewrite publish_ghost. simpl.
    rewrite Hpay. apply list_lookup_middle. lia.
  - destruct (inv_slots _ Hi T HT) as [[-> Hb]|[[[-> Hb] Hlt]|Hok]]; [by rewrite Hp in Hne|..].
    + right; left. split; [split; [by rewrite Hpf|]|by rewrite Hpt; lia].
      unfold dirty in *. by rewrite publish_ghost.
    + right; right. unfold slot_ok in *. rewrite Hpt, !publish_mem by done.
      rewrite publish_payload. rewrite Hp in Hok.
      destruct (decide (T < p)); [rewrite decide_True by lia|rewrite decide_False by lia; done].
      destruct Hok as (? & ? & u & Hu). split; [done|split; [done|]]. exists u.
      unfold log at 1. rewrite publish_ghost. simpl. by apply lookup_app_l_Some.
Qed.

Lemma publish_inv : p + 1 <= UINT64_MAX -> minv s'.
Proof.
  intros Hmax. destruct HS as [HG Ho _ _ _ _]. destruct HG as [Hh Hno _ _ Hp Hlo Hd].
  destruct publish_pos as [Hpt Hpf]. pose proof (inv_order _ Hi). unfold lo_open in Ho.
  simpl in Hlo. split; rewrite ?Hpt, ?Hpf, ?publish_mem by done; try apply Hi; try lia.
  - unfold log. rewrite publish_ghost. simpl. rewrite length_app. simpl.
    pose proof (inv_log _ Hi). lia.
  - apply publish_slot.
  - intros x. pose proof (inv_gate _ Hi x) as Hg. unfold gate_inv, holder, dirty in *.
    rewrite publish_ghost, publish_mem by done. simpl. case_match; [done|].
    unfold upd. case_decide; [|done]. by destruct Hg.
Qed.

Lemma publish_rely u : u <> t -> mrely u s s'.
Proof.
  intros Hu. destruct HS as [HG Ho _ _ _ _]. destruct HG as [Hh Hno _ _ Hp Hlo Hd].
  destruct publish_pos as [Hpt Hpf]. pose proof (inv_order _ Hi).
  pose proof (inv_log _ Hi). pose proof (inv_pops _ Hi).
  assert (forall x, holder x s = Some u -> x = false) as Hx
    by (intros [] Hx; [congruence|done]).
  split.
  - intros []; rewrite ?Hpt, ?Hpf; lia.
  - intros x. unfold epoch. by rewrite publish_mem.
  - unfold log at 2. rewrite publish_ghost. by exists [(t, pay)].
  - unfold pops at 2. by rewrite publish_ghost.
  - by rewrite publish_ghost.
  - intros x. unfold holder. by rewrite publish_ghost.
  - intros x Hxu. apply Hx in Hxu as ->. unfold same_gate. rewrite Hpf.
    unfold dirty, epoch. rewrite publish_ghost, !publish_mem by done. by repeat split.
  - intros x Hxu _. apply Hx in Hxu as ->. unfold same_slot.
    by rewrite publish_payload, !publish_mem.
  - unfold log at 1. rewrite publish_ghost. simpl. rewrite pushed_by_app.
    rewrite decide_False by done. by rewrite app_nil_r.
  - unfold log at 1, pops at 1. rewrite publish_ghost. simpl. apply popped_by_log.
    unfold log, pops in *. lia.
Qed.

Lemma step_publish :
  p + 1 <= UINT64_MAX -> guarantee t s s' /\ Gate t true (P ++ [pay]) Q (p + 1) lo false s'.
Proof.
  intros Hmax. split; [split; [by apply publish_inv|apply publish_rely]|].
  destruct HS as [[Hh Hno HP HQ Hp Hlo Hd] Ho _ _ _ _].
  destruct publish_pos as [Hpt Hpf]. pose proof (inv_order _ Hi).
  pose proof (inv_log _ Hi). pose proof (inv_pops _ Hi).
  split; unfold holder, dirty, log, pops; try rewrite publish_ghost; simpl; try done.
  - rewrite pushed_by_app, decide_True by done. by rewrite HP.
  - rewrite popped_by_log; [done|]. lia.
Qed.
End Publish.

Section Consume.
Context (t : tid) (P Q : list (list Z)) (p lo : Z) (pay : list Z) (s : mst).
Hypothesis Hi : minv s.
Hypothesis HS : Slot t false P Q p lo ms_kFree (p + cap) pay s.

Let s' := write t (HField hf_dequeue_position) (p + 1) s.

Lemma consume_mem l : l <> HField hf_dequeue_position -> c_mem s' l = c_mem s l.
Proof. intros Hl. subst s'. by rewrite write_mem, upd_ne. Qed.

Lemma consume_payload i : payload_of (c_mem s') i = payload_of (c_mem s) i.
Proof. subst s'. by rewrite write_mem, payload_of_upd_ne. Qed.

Lemma consume_ghost :
  c_gh s' = mkGhost (g_holder (c_gh s)) (upd false false (g_dirty (c_gh s)))
              (log s) (pops s ++ [t]) (g_commit (c_gh s)).
Proof. done. Qed.

Lemma consume_pos : pos true s' = pos true s /\ pos false s' = p + 1.
Proof.
  split; [unfold pos; by apply consume_mem|].
  subst s'. unfold pos. by rewrite write_mem, upd_eq.
Qed.

Lemma consume_log : exists u, log s !! length (pops s) = Some (u, pay).
Proof.
  destruct HS as [HG _ _ _ _ Hlog]. destruct (Hlog eq_refl) as [u Hu]. exists u.
  pose proof (inv_pops _ Hi) as Hl. pose proof (gt_pos _ _ _ _ _ _ _ _ HG) as Hp.
  rewrite Hp in Hl. by replace (length (pops s)) with (Z.to_nat p) by lia.
Qed.

Lemma consume_slot T : p + 1 <= T < p + 1 + cap -> slot_inv s' T.
Proof.
  intros HT. destruct HS as [HG Ho Hst Hsq Hpay _]. pose proof (gt_pos _ _ _ _ _ _ _ _ HG) as Hp.
  destruct consume_pos as [Hpt Hpf]. pose proof (inv_order _ Hi) as Hord.
  pose proof (inv_window _ Hi) as Hwin.
  destruct (decide (T = p + cap)) as [->|Hne].
  - destruct (decide (slot_busy s' true (p + cap))) as [Hb|Hb]; [by left|]. right; right.
    unfold slot_ok. rewrite Hpt, decide_False by lia.
    rewrite !consume_mem by done. rewrite ring_slot_next_lap, Hst, Hsq by lia. auto.
  - destruct (inv_slots _ Hi T ltac:(lia)) as [[-> Hb]|[[[-> Hb] Hlt]|Hok]]; [|lia|].
    + by left.
    + right; right. unfold slot_ok in *. rewrite Hpt, !consume_mem, consume_payload by done.
      done.
Qed.

Lemma consume_inv : minv s'.
Proof.
  destruct HS as [HG Ho _ _ _ _]. destruct HG as [Hh Hno _ _ Hp Hlo Hd].
  destruct consume_pos as [Hpt Hpf]. pose proof (inv_order _ Hi). unfold lo_open in Ho.
  simpl in Hlo. pose proof (inv_window _ Hi).
  split; rewrite ?Hpt, ?Hpf, ?consume_mem by done; try apply Hi; try lia.
  - unfold pops. rewrite consume_ghost. simpl. rewrite length_app. simpl.
    pose proof (inv_pops _ Hi). lia.
  - apply consume_slot.
  - intros x. pose proof (inv_gate _ Hi x) as Hg. unfold gate_inv, holder, dirty in *.
    rewrite consume_ghost, consume_mem by done. simpl. case_match; [done|].
    unfold upd. case_decide; [|done]. by destruct Hg.
Qed.

Lemma consume_rely u : u <> t -> mrely u s s'.
Proof.
  intros Hu. destruct HS as [HG Ho _ _ _ _]. destruct HG as [Hh Hno _ _ Hp Hlo Hd].
  destruct consume_pos as [Hpt Hpf]. destruct consume_log as [w Hw].
  assert (forall x, holder x s = Some u -> x = true) as Hx
    by (intros [] Hx; [done|congruence]).
  split.
  - intros []; rewrite ?Hpt, ?Hpf; lia.
  - intros x. unfold epoch. by rewrite consume_mem.
  - done.
  - unfold pops at 2. rewrite consume_ghost. by exists [t].
  - done.
  - done.
  - intros x Hxu. apply Hx in Hxu as ->. unfold same_gate. rewrite Hpt.
    unfold dirty, epoch. rewrite consume_ghost, !consume_mem by done. by repeat split.
  - intros x Hxu _. apply Hx in Hxu as ->. unfold same_slot.
    by rewrite consume_payload, !consume_mem.
  - done.
  - unfold log at 1, pops at 1. rewrite consume_ghost. simpl.
    rewrite (popped_by_app _ _ _ _ _ _ Hw), decide_False by done. by rewrite app_nil_r.
Qed.

Lemma step_consume : guarantee t s s' /\ Gate t false P (Q ++ [pay]) (p + 1) lo false s'.
Proof.
  split; [split; [by apply consume_inv|apply consume_rely]|].
  destruct HS as [[Hh Hno HP HQ Hp Hlo Hd] Ho _ _ _ _].
  destruct consume_pos as [Hpt Hpf]. destruct consume_log as [w Hw].
  split; try done.
  unfold log at 1, pops at 1. rewrite consume_ghost. simpl.
  rewrite (popped_by_app _ _ _ _ _ _ Hw), decide_True by done. by rewrite HQ.
Qed.
End Consume.
End Protocol.
