(* ===== verification/MpmcSafety.v ===== *)
(** [try_push] and [try_pop] keep the contract of [MpmcProtocol].

    Each program of the queue is followed through its accesses with what its
    thread knows ([Free], [Gate], [Slot]). The result is one lemma per
    operation: a push that returns [Ok] has appended exactly its payload to the
    thread's pushed messages, a pop that returns [Ok m] has taken exactly [m],
    and an operation that returns an error has done neither. *)
From S2P Require Import Prelude Errors CheckedMath Prog Concur ProcIdentity OwnerSnapshot.
From S2P Require Import ChannelLayout MpmcLayout MpmcQueue MpmcApi MpmcProtocol.

(** * Read-only parts *)

Lemma snapshot_gate_owner_readonly side : readonly (snapshot_gate_owner side).
Proof. unfold snapshot_gate_owner, snapshot_owner. solve_readonly. Qed.
#[global] Hint Resolve snapshot_gate_owner_readonly : prog_db.

Lemma snapshot_slot_owner_readonly i side : readonly (snapshot_slot_owner i side).
Proof. unfold snapshot_slot_owner, snapshot_owner. solve_readonly. Qed.
#[global] Hint Resolve snapshot_slot_owner_readonly : prog_db.

Lemma classify_gate_owner_readonly side : readonly (classify_gate_owner side).
Proof. apply snapshot_gate_owner_readonly. Qed.
#[global] Hint Resolve classify_gate_owner_readonly : prog_db.

Lemma confirm_owner_liveness_readonly h side o : readonly (confirm_owner_liveness h side o).
Proof. unfold confirm_owner_liveness. solve_readonly. Qed.
#[global] Hint Resolve confirm_owner_liveness_readonly : prog_db.

Lemma owner_observation_readonly h side o :
  readonly (owner_observation_is_unrecoverable h side o).
Proof. unfold owner_observation_is_unrecoverable. solve_readonly. Qed.
#[global] Hint Resolve owner_observation_readonly : prog_db.

Lemma gate_busy_result_readonly {A} h side : readonly (@gate_busy_result A h side).
Proof. unfold gate_busy_result. solve_readonly. Qed.
#[global] Hint Resolve gate_busy_result_readonly : prog_db.

Lemma dequeue_drain_budget_readonly h op : readonly (dequeue_drain_budget h op).
Proof. unfold dequeue_drain_budget. solve_readonly. Qed.
#[global] Hint Resolve dequeue_drain_budget_readonly : prog_db.

Lemma snapshot_queue_positions_readonly op : readonly (snapshot_queue_positions op).
Proof.
  unfold snapshot_queue_positions. generalize kOwnerSnapshotRetries. intros n.
  induction n as [|n IH]; cbn [snapshot_queue_positions_loop]; solve_readonly.
Qed.
#[global] Hint Resolve snapshot_queue_positions_readonly : prog_db.

Lemma push_drain_admission_loop_readonly n h c e d op :
  readonly (push_drain_admission_loop n h c e d op).
Proof.
  revert e d. induction n as [|n IH]; intros e d; cbn [push_drain_admission_loop];
    unfold lift; solve_readonly.
Qed.
#[global] Hint Resolve push_drain_admission_loop_readonly : prog_db.

Lemma validate_push_drain_admission_readonly h e d op :
  readonly (validate_push_drain_admission h e d op).
Proof. unfold validate_push_drain_admission. solve_readonly. Qed.
#[global] Hint Resolve validate_push_drain_admission_readonly : prog_db.

Lemma validate_live_handle_readonly h op : readonly (validate_live_handle h op).
Proof. unfold validate_live_handle. solve_readonly. Qed.
#[global] Hint Resolve validate_live_handle_readonly : prog_db.

Lemma full_queue_verdict_readonly h c : readonly (full_queue_verdict h c).
Proof. unfold full_queue_verdict. solve_readonly. Qed.
Lemma empty_queue_verdict_readonly c : readonly (empty_queue_verdict c).
Proof. unfold empty_queue_verdict. solve_readonly. Qed.
#[global] Hint Resolve full_queue_verdict_readonly empty_queue_verdict_readonly : prog_db.

Lemma push_full_unlocked_readonly h : readonly (push_full_unlocked h).
Proof. unfold push_full_unlocked. solve_readonly. Qed.
Lemma pop_empty_unlocked_readonly h : readonly (pop_empty_unlocked h).
Proof. unfold pop_empty_unlocked. solve_readonly. Qed.
#[global] Hint Resolve push_full_unlocked_readonly pop_empty_unlocked_readonly : prog_db.

Section Safety.
Context (cap ps stride : Z) (ident : tid -> ProcessIdentity) (hdl : tid -> MpmcQueueHandle).
Hypothesis cap_range : 0 < cap <= kMpmcMaxCapacity.
Hypothesis ps_range : 0 < ps <= kMpmcMaxPayloadSize.
Hypothesis stride_eq : mpmc_stride ps = Some stride.
Hypothesis hdl_self : forall t, h_self (hdl t) = ident t.
Hypothesis hdl_stride : forall t, h_slot_stride (hdl t) = stride.

#[local] Hint Extern 0 (Protocol mloc mghost) =>
  exact (mpmc_protocol cap ps ident) : typeclass_instances.

Abbreviation Free := (MpmcProtocol.Free).
Abbreviation Slot := (MpmcProtocol.Slot cap ps).

Lemma stable_Free t P Q : stable t (Free t P Q).
Proof. apply Free_stable. Qed.
Lemma stable_Gate t side P Q p lo d : stable t (Gate t side P Q p lo d).
Proof. apply Gate_stable. Qed.
Lemma stable_Slot t side P Q p lo st sq pay : stable t (Slot t side P Q p lo st sq pay).
Proof. by apply Slot_stable. Qed.
#[local] Hint Resolve stable_Free stable_Gate stable_Slot : prog_db.

(** An operation that ends without effect. *)
Definition no_effect {A} (t : tid) (P Q : list (list Z)) (r : Result A) (s : mst) : Prop :=
  (exists e, r = Err e) /\ Free t P Q s.

Lemma wp_fail {A} t P Q c op ctx s :
  Free t P Q s -> wp t (@fail mloc A c op ctx) (no_effect t P Q) s.
Proof.
  intros H s' Hr Hi. split; [by eexists|]. by eapply stable_Free.
Qed.

(** ** Gates *)

Lemma wp_release t side P Q p lo s :
  Gate t side P Q p lo false s -> wp t (release_gate side) (fun _ s' => Free t P Q s') s.
Proof.
  intros HG. apply (wp_trigger_store _ _ _ (Gate t side P Q p lo false)); auto with prog_db.
  intros s' Hi HG'. eapply (step_release cap ps ident cap_range); [done|done|by left|done].
Qed.

Lemma wp_release_slot t side P Q p lo st sq pay s :
  Slot t side P Q p lo st sq pay s ->
  (if side then sq = p /\ (st = ms_kFree \/ st = ms_kEpochExhausted \/
                           st = ms_kOwnerProtocolFault)
   else sq = p + 1 /\ st = ms_kReady) ->
  wp t (release_gate side) (fun _ s' => Free t P Q s') s.
Proof.
  intros HS Hok. apply (wp_trigger_store _ _ _ (Slot t side P Q p lo st sq pay));
    auto with prog_db.
  intros s' Hi HS'. eapply (step_release cap ps ident cap_range); [done|by eapply sl_gate|by left|].
  intros _. by eapply Slot_ok.
Qed.

Lemma gate_busy_result_err {A} h side : leaves is_err (@gate_busy_result A h side).
Proof. unfold gate_busy_result. solve_leaves. Qed.

(** An operation result: the thread has pushed [P] and taken [Q] on success, and
    holds nothing and has done nothing on failure. *)
Definition gate_post t side P Q p lo (r : Result unit) (s : mst) : Prop :=
  match r with Ok _ => Gate t side P Q p lo false s | Err _ => Free t P Q s end.

Lemma wp_claim_gate t side P Q s :
  Free t P Q s ->
  wp t (claim_gate (hdl t) side) (fun r s' => exists p, gate_post t side P Q p 0 r s') s.
Proof.
  intros HF. unfold claim_gate.
  eapply wp_readonly_bind; [by solve_readonly|apply stable_Free|done|].
  intros observed s1 Hi1 HF1. destruct (negb (observed =? ml_kFree)).
  - eapply wp_readonly_leaves; [by solve_readonly|apply gate_busy_result_err
      |apply stable_Free|done|].
    intros r s2 _ [e ->] HF2. by exists 0.
  - eapply wp_seq.
    { apply (wp_trigger_cas _ _ _ _ (Free t P Q) (fun s' => exists p, Gate t side P Q p 0 false s')
               (Free t P Q)); [auto with prog_db| |auto with prog_db|done| |done].
      - intros s2 s3 [p HG] Hr Hi. exists p. by eapply stable_Gate.
      - intros s2 Hi2 [Hh HP HQ] He. destruct (step_claim cap ps ident cap_range t s2 side Hi2 He)
          as (Hg & Hhold & Hoth & Hd & _). split; [done|].
        pose proof (same_data_gate_write cap ps ident t (HLock side) ml_kClaiming s2 eq_refl)
          as Hsd.
        exists (pos side s2). split; rewrite ?(sd_log _ _ _ Hsd), ?(sd_pops _ _ _ Hsd),
          ?(sd_pos _ _ _ _ Hsd); try done.
        + by rewrite Hoth.
        + pose proof (inv_order _ _ _ _ Hi2). destruct side; simpl; lia. }
    intros [] s2 Hi2 H2; cbn [negb].
    + destruct H2 as [p HG]. eapply (wp_ret _ _ (Gate t side P Q p 0 false));
        [auto with prog_db|done|]. intros. by exists p.
    + eapply (wp_ret _ _ (Free t P Q)); [auto with prog_db|done|]. intros. by exists 0.
Qed.

(** The gate with its owner epoch, and the owner fields already written. *)
Definition GateO t side P Q p lo e (fs : list owner_field) (s : mst) : Prop :=
  Gate t side P Q p lo false s /\ epoch side s = e /\
  forall f, f ∈ fs -> c_mem s (HOwner side f) = owner_get (ident t) f.

Lemma stable_GateO t side P Q p lo e fs : stable t (GateO t side P Q p lo e fs).
Proof.
  intros s s' (HG & He & Hf) Hr Hi. split; [by eapply stable_Gate|].
  destruct (rely_gate _ _ _ _ _ Hr side (gt_holder _ _ _ _ _ _ _ _ HG))
    as (_ & _ & _ & He' & Ho).
  split; [congruence|]. intros f Hin. rewrite Ho. auto.
Qed.
#[local] Hint Resolve stable_GateO : prog_db.

Lemma wp_begin_gate_commit t side P Q p lo r s :
  2 <= r -> Gate t side P Q p lo false s ->
  wp t (begin_owner_commit (HOwnerEpoch side) r) (fun '(res, committed) s' =>
    match res with
    | oc_Ready => exists e, Z.even e = true /\ committed = e + 2 /\
                            GateO t side P Q p lo (e + 1) [] s'
    | _ => Gate t side P Q p lo false s'
    end) s.
Proof.
  intros Hr HG. unfold begin_owner_commit.
  eapply wp_load; [apply stable_Gate|exact HG|]. intros s1 Hi1 HG1.
  set (e := c_mem s1 (HOwnerEpoch side)). cbn [bind].
  assert (0 <= e) as He0 by apply (inv_owner _ _ _ _ Hi1 side).
  destruct (epoch_odd e || (kMaxCommittedOwnerEpoch <? e)) eqn:Ec.
  { eapply wp_ret; [apply stable_Gate|exact HG1|done]. }
  apply orb_false_iff in Ec as [Hodd Hmax]. apply epoch_odd_false in Hodd. bprop.
  unfold kMaxCommittedOwnerEpoch in Hmax.
  rewrite (u64_small (_ - e)) by (unfold kMaxCommittedOwnerEpoch; mlia).
  unfold kMaxCommittedOwnerEpoch. bdestr (UINT64_MAX - 1 - e <? r).
  { eapply wp_ret; [apply stable_Gate|exact HG1|done]. }
  assert (GateO t side P Q p lo e [] s1) as HGO.
  { split; [done|split; [done|]]. intros f Hf. by apply elem_of_nil in Hf. }
  assert (Z.even (e + 1) = false) as Hodd1 by (rewrite Z.even_add; by rewrite Hodd).
  rewrite (u64_small (e + 1)) by mlia.
  eapply wp_seq.
  { apply (wp_trigger_cas _ _ _ _ (GateO t side P Q p lo e []) (GateO t side P Q p lo (e + 1) [])
             (Gate t side P Q p lo false)); auto with prog_db.
    - intros s2 Hi2 (HG2 & He2 & _) _. split.
      + eapply (step_epoch_odd cap ps ident cap_range); [done|done|lia|done].
      + split; [|split].
        * by apply Gate_gate_write.
        * unfold epoch. by rewrite write_mem, upd_eq.
        * intros f Hf. by apply elem_of_nil in Hf.
    - by intros s2 _ [HG2 _] _. }
  intros [] s2 Hi2 H2; cbn [negb].
  - eapply wp_ret; [apply stable_GateO|exact H2|]. intros s3 _ H3. exists e.
    rewrite u64_small by mlia. done.
  - eapply wp_ret; [apply stable_Gate|exact H2|done].
Qed.

Lemma wp_store_owner_field t side P Q p lo e fs f v s :
  v = owner_get (ident t) f -> Z.even e = false -> GateO t side P Q p lo e fs s ->
  wp t (shared_store_seq_cst (HOwner side f) v)
    (fun _ s' => GateO t side P Q p lo e (f :: fs) s') s.
Proof.
  intros -> Hodd HG. eapply wp_trigger_store; [apply stable_GateO|auto with prog_db|exact HG|].
  intros s' Hi (HG' & He & Hf). split.
  - eapply (step_owner_field cap ps ident cap_range); [done|done|by rewrite He].
  - split; [by apply Gate_gate_write|split].
    + unfold epoch. by rewrite write_mem, upd_ne.
    + intros f' Hin. rewrite write_mem. unfold upd. case_decide as Heq; [by simplify_eq|].
      apply Hf. apply elem_of_cons in Hin as [->|]; [done|done].
Qed.

Lemma wp_set_gate_owner t side P Q p lo e s :
  Z.even e = false -> GateO t side P Q p lo e [] s ->
  wp t (set_owner (HOwner side) (h_self (hdl t)))
    (fun _ s' => GateO t side P Q p lo e [of_boot_lo; of_boot_hi; of_start; of_pid] s') s.
Proof.
  intros Hodd HG. rewrite hdl_self. unfold set_owner, store_owner_seq_cst, owner_from_process.
  simpl pid. simpl proc_start_ticks. simpl boot_id_hash_hi. simpl boot_id_hash_lo.
  eapply wp_seq; [by eapply wp_store_owner_field|]. intros [] s1 _ H1. cbv beta in H1.
  eapply wp_seq; [by eapply wp_store_owner_field|]. intros [] s2 _ H2. cbv beta in H2.
  eapply wp_seq; [by eapply wp_store_owner_field|]. intros [] s3 _ H3. cbv beta in H3.
  by eapply wp_store_owner_field.
Qed.

Lemma wp_commit_claimed_gate t side P Q p lo s :
  Gate t side P Q p lo false s ->
  wp t (commit_claimed_gate (hdl t) side) (gate_post t side P Q p lo) s.
Proof.
  intros HG. unfold commit_claimed_gate.
  eapply wp_seq; [by eapply wp_begin_gate_commit|]. intros [res committed] s1 Hi1 H1.
  destruct res.
  - destruct H1 as (e & Hev & -> & H1).
    assert (Z.even (e + 1) = false) as Hodd by (rewrite Z.even_add; by rewrite Hev).
    assert (Z.even (e + 2) = true) as Hev2 by (rewrite Z.even_add; by rewrite Hev).
    eapply wp_seq; [by apply wp_set_gate_owner|]. intros [] s2 Hi2 H2. cbv beta in H2.
    eapply wp_seq.
    { eapply (wp_trigger_store _ _ _ _ (Gate t side P Q p lo false));
        [apply stable_GateO|auto with prog_db|exact H2|].
      intros s3 Hi3 (HG3 & He3 & Hf3). split.
      - eapply (step_epoch_even cap ps ident cap_range); [done|done|lia|done|].
        intros []; apply Hf3; rewrite !elem_of_cons; tauto.
      - by apply Gate_gate_write. }
    intros [] s3 Hi3 H3. cbv beta in H3.
    eapply wp_seq.
    { eapply (wp_trigger_store _ _ _ _ (Gate t side P Q p lo false));
        [apply stable_Gate|auto with prog_db|exact H3|].
      intros s4 Hi4 H4. split.
      - by eapply (step_owned cap ps ident cap_range).
      - by apply Gate_gate_write. }
    intros [] s4 Hi4 H4. eapply wp_ret; [apply stable_Gate|exact H4|done].
  - eapply wp_seq.
    { eapply (wp_trigger_store _ _ _ _ (Free t P Q)); [apply stable_Gate|auto with prog_db|exact H1|].
      intros s2 Hi2 H2. eapply (step_release cap ps ident cap_range); [done|done|by auto|done]. }
    intros [] s2 Hi2 H2. eapply wp_ret; [apply stable_Free|exact H2|done].
  - eapply wp_seq.
    { eapply (wp_trigger_store _ _ _ _ (Free t P Q)); [apply stable_Gate|auto with prog_db|exact H1|].
      intros s2 Hi2 H2. eapply (step_release cap ps ident cap_range); [done|done|by auto|done]. }
    intros [] s2 Hi2 H2. eapply wp_ret; [apply stable_Free|exact H2|done].
Qed.

(** ** Positions under a gate *)

Definition own_pos (side : bool) (e d : Z) : Z := if side then e else d.

Definition snapshot_post t side P Q p lo (r : Result (Z * Z)) (s : mst) : Prop :=
  match r with
  | Ok (e, d) => own_pos side e d = p /\ 0 <= e <= UINT64_MAX /\ 0 <= d <= UINT64_MAX /\
                 Gate t side P Q p (own_pos side d e) false s
  | Err _ => Gate t side P Q p lo false s
  end.

Lemma pos_range s side : minv cap ps ident s -> 0 <= pos side s <= UINT64_MAX.
Proof.
  intros Hi. pose proof (inv_order _ _ _ _ Hi). pose proof (inv_u64 _ _ _ _ Hi).
  destruct side; lia.
Qed.

Lemma wp_snapshot_positions t side P Q p lo op s :
  Gate t side P Q p lo false s ->
  wp t (snapshot_queue_positions op) (snapshot_post t side P Q p lo) s.
Proof.
  unfold snapshot_queue_positions. generalize kOwnerSnapshotRetries. intros n. revert s.
  induction n as [|n IH]; intros s HG; cbn [snapshot_queue_positions_loop].
  { eapply wp_ret; [apply stable_Gate|exact HG|done]. }
  eapply wp_load; [apply stable_Gate|exact HG|]. intros s1 Hi1 HG1.
  eapply wp_load; [apply stable_Gate|exact HG1|]. intros s2 Hi2 HG2.
  eapply wp_load; [apply stable_Gate|exact HG2|]. intros s3 Hi3 HG3. cbn [bind].
  pose proof (pos_range s3 true Hi3) as He2.
  set (e2 := c_mem s3 (HField hf_enqueue_position)) in *.
  assert (Gate t side P Q p (if side then lo else e2) false s3) as HG3'
    by (destruct HG3; split; try done; destruct side; done).
  assert (side = true -> e2 = p) as Hown by (intros ->; apply (gt_pos _ _ _ _ _ _ _ _ HG3)).
  eapply (wp_load _ _ _ (fun s' => Gate t side P Q p lo false s' /\
                           Gate t side P Q p (if side then lo else e2) false s'));
    [apply stable_and; apply stable_Gate|by split|]. intros s4 Hi4 [HG4 HG4']. cbn [bind].
  pose proof (pos_range s4 false Hi4) as Hd2.
  set (d2 := c_mem s4 (HField hf_dequeue_position)) in *.
  assert (Gate t side P Q p (own_pos side d2 e2) false s4) as HG5
    by (destruct HG4'; split; try done; destruct side; done).
  assert (side = false -> d2 = p) as Hown' by (intros ->; apply (gt_pos _ _ _ _ _ _ _ _ HG4)).
  destruct (_ && _); [|by apply IH].
  eapply wp_ret; [apply stable_Gate|exact HG5|]. intros s5 _ HG6.
  split; [destruct side; simpl; auto|]. split; [done|]. by split.
Qed.

(** ** Push admission under the enqueue gate *)

Lemma validate_queue_positions_Ok e d op :
  0 <= e <= UINT64_MAX -> 0 <= d <= UINT64_MAX ->
  validate_queue_positions e d cap op = Ok tt -> d <= e <= d + cap.
Proof.
  intros He Hd. unfold validate_queue_positions. bdestr (e <? d); [done|].
  rewrite u64_small by mlia. bdestr (cap <? e - d); [done|]. lia.
Qed.

Definition admission_post t P Q p (r : Result (Z * Z)) (s : mst) : Prop :=
  match r with
  | Ok (e, d) => e = p /\ Gate t true P Q p d false s /\ p < d + cap
  | Err _ => Gate t true P Q p 0 false s
  end.

Lemma wp_ret_Gate {A} t side P Q p lo (a : A) (Ps : A -> mst -> Prop) s :
  Gate t side P Q p lo false s ->
  (forall s', Gate t side P Q p lo false s' -> Ps a s') -> wp t (Ret a) Ps s.
Proof. intros HG HP. eapply wp_ret; [apply stable_Gate|exact HG|auto]. Qed.

Lemma wp_admission_loop t P Q p d op n s :
  0 <= p <= UINT64_MAX -> 0 <= d <= UINT64_MAX -> Gate t true P Q p d false s ->
  wp t (push_drain_admission_loop n (hdl t) cap p d op) (admission_post t P Q p) s.
Proof.
  intros Hp. revert d s. induction n as [|n IH]; intros d s Hd HG;
    cbn [push_drain_admission_loop].
  { eapply wp_ret_Gate; [done|]. intros. eapply Gate_weaken; [|done]. lia. }
  unfold lift. cbn [bind].
  destruct (validate_queue_positions p d cap op) as [[]|e] eqn:Ev.
  2: { eapply wp_ret_Gate; [done|]. intros. eapply Gate_weaken; [|done]. lia. }
  apply validate_queue_positions_Ok in Ev as Hpd; [|done..]. rewrite u64_small by mlia.
  destruct (checked_add_u64 (p - d) 1) as [pa|].
  2: { eapply wp_ret_Gate; [done|]. intros. eapply Gate_weaken; [|done]. lia. }
  eapply wp_readonly_bind; [by solve_readonly|apply stable_Gate|exact HG|].
  intros [budget|e] s1 Hi1 HG1.
  2: { eapply wp_ret_Gate; [done|]. intros. eapply Gate_weaken; [|done]. lia. }
  bdestr (p - d =? cap).
  { destruct (budget =? 0); (eapply wp_ret_Gate; [done|]);
      intros; (eapply Gate_weaken; [|done]); lia. }
  eapply wp_seq; [by apply wp_snapshot_positions|]. intros [[e2 d2]|e] s2 Hi2 H2.
  2: { eapply wp_ret_Gate; [done|]. intros. eapply Gate_weaken; [|done]. lia. }
  destruct H2 as (Hown & He2 & Hd2 & HG2). simpl in Hown, HG2. subst e2.
  rewrite Z.eqb_refl. cbn [negb orb]. bdestr (d2 =? d); cbn [negb].
  - subst d2. destruct (budget <? pa).
    + eapply wp_ret_Gate; [done|]. intros. eapply Gate_weaken; [|done]. lia.
    + eapply wp_ret_Gate; [done|]. intros. split; [done|]. split; [done|]. lia.
  - by apply IH.
Qed.

Lemma wp_admission t P Q p d op s :
  0 <= p <= UINT64_MAX -> 0 <= d <= UINT64_MAX -> Gate t true P Q p d false s ->
  wp t (validate_push_drain_admission (hdl t) p d op) (admission_post t P Q p) s.
Proof.
  intros Hp Hd HG. unfold validate_push_drain_admission.
  eapply wp_seq; [apply (wp_trigger_load_const _ _ cap (Gate t true P Q p d false));
    [apply inv_capacity|apply stable_Gate|done]|].
  intros c s1 Hi1 [-> HG1]. by apply wp_admission_loop.
Qed.

(** ** Slots *)

Lemma wp_slot_at t (R : mst -> Prop) p s :
  0 <= p -> stable t R -> R s ->
  wp t (slot_at (hdl t) p) (fun o s' => o = Some (p mod cap) /\ R s') s.
Proof.
  intros Hp HR Hs. unfold slot_at. pose proof (Z.mod_pos_bound p cap ltac:(lia)) as Hm.
  eapply wp_seq; [apply (wp_trigger_load_const _ _ cap R); [apply inv_capacity|done..]|].
  intros c s1 Hi1 [-> H1]. cbv zeta.
  eapply wp_seq; [apply (wp_trigger_load_const _ _ cap R); [apply inv_capacity|done..]|].
  intros c s2 Hi2 [-> H2]. unfold kMpmcMaxCapacity in *. rewrite u32_small by mlia.
  rewrite hdl_stride, (mpmc_slot_offset_ok _ _ ps) by (unfold kMpmcMaxCapacity; done || lia).
  eapply wp_ret; [exact HR|done|]. by intros.
Qed.

(** A bookkeeping store to the slot. *)
Lemma wp_slot_bookkeeping t side P Q p lo st sq pay l v s :
  is_bookkeeping l = true -> Slot t side P Q p lo st sq pay s ->
  wp t (trigger (Store l v)) (fun _ s' => Slot t side P Q p lo st sq pay s') s.
Proof.
  intros Hl HS. eapply wp_trigger_store; [apply stable_Slot|auto with prog_db|exact HS|].
  intros s' Hi HS'. by apply (step_slot_bookkeeping cap ps ident).
Qed.

Lemma wp_slot_state t side P Q p lo st sq pay v s :
  v <> ms_kEnqueueClaiming -> v <> ms_kDequeueClaiming ->
  Slot t side P Q p lo st sq pay s ->
  wp t (trigger (Store (SState (p mod cap)) v))
    (fun _ s' => Slot t side P Q p lo v sq pay s') s.
Proof.
  intros H1 H2 HS. eapply wp_trigger_store; [apply stable_Slot|auto with prog_db|exact HS|].
  intros s' Hi HS'. by apply (step_slot_state cap ps ident cap_range _ _ _ _ _ _ st).
Qed.

Lemma wp_slot_seq t side P Q p lo st sq pay v s :
  Slot t side P Q p lo st sq pay s ->
  wp t (trigger (Store (SSequence (p mod cap)) v))
    (fun _ s' => Slot t side P Q p lo st v pay s') s.
Proof.
  intros HS. eapply wp_trigger_store; [apply stable_Slot|auto with prog_db|exact HS|].
  intros s' Hi HS'. by apply (step_slot_seq cap ps ident cap_range _ _ _ _ _ _ _ sq).
Qed.

(** The owner commit of a slot: it writes only bookkeeping words. *)
Lemma wp_begin_slot_commit t side P Q p lo st sq pay i r s :
  Slot t side P Q p lo st sq pay s ->
  wp t (begin_owner_commit (SOwnerEpoch i) r)
    (fun _ s' => Slot t side P Q p lo st sq pay s') s.
Proof.
  intros HS. unfold begin_owner_commit.
  eapply wp_readonly_bind; [by solve_readonly|apply stable_Slot|exact HS|].
  intros current s1 Hi1 H1.
  destruct (_ || _). { eapply wp_ret; [apply stable_Slot|exact H1|done]. }
  destruct (_ <? r). { eapply wp_ret; [apply stable_Slot|exact H1|done]. }
  eapply wp_seq.
  { apply (wp_trigger_cas _ _ _ _ (Slot t side P Q p lo st sq pay)
             (Slot t side P Q p lo st sq pay) (Slot t side P Q p lo st sq pay));
      auto with prog_db.
    intros s2 Hi2 H2 _. by apply (step_slot_bookkeeping cap ps ident). }
  intros ok s2 Hi2 H2. assert (Slot t side P Q p lo st sq pay s2) by by destruct ok.
  destruct (negb ok); (eapply wp_ret; [apply stable_Slot|done|done]).
Qed.

Lemma wp_set_slot_owner t side P Q p lo st sq pay i id s :
  Slot t side P Q p lo st sq pay s ->
  wp t (set_owner (SOwner i) id) (fun _ s' => Slot t side P Q p lo st sq pay s') s.
Proof.
  intros HS. unfold set_owner, store_owner_seq_cst.
  do 3 (eapply wp_seq; [by apply wp_slot_bookkeeping|]; clear dependent s;
        intros [] s _ HS; cbv beta in HS).
  by apply wp_slot_bookkeeping.
Qed.

(** ** The payload *)

Lemma payload_of_length m i : length (payload_of ps m i) = Z.to_nat ps.
Proof. unfold payload_of. by rewrite length_map, length_seq. Qed.

Lemma payload_of_upd m i k v :
  payload_of ps (upd (SPayload i k) v m) i = <[k:=v]> (payload_of ps m i).
Proof.
  apply list_eq. intros j. unfold payload_of. destruct (decide (j = k)) as [->|Hne].
  - destruct (decide (k < Z.to_nat ps)%nat) as [Hk|Hk].
    + rewrite list_lookup_insert_eq by (by rewrite length_map, length_seq).
      rewrite list_lookup_fmap, lookup_seq_lt by done. simpl. by rewrite upd_eq.
    + rewrite list_insert_ge by (rewrite length_map, length_seq; lia).
      by rewrite !list_lookup_fmap, !lookup_seq_ge by lia.
  - rewrite list_lookup_insert_ne by done. rewrite !list_lookup_fmap.
    destruct (seq 0 (Z.to_nat ps) !! j) as [x|] eqn:Hx; simpl; [|done].
    apply lookup_seq in Hx as [Hx _]. simpl in Hx. subst x.
    rewrite upd_ne; [done|congruence].
Qed.

Lemma wp_slot_payload t P Q p lo st sq pay k v s :
  Slot t true P Q p lo st sq pay s ->
  wp t (trigger (Store (SPayload (p mod cap) k) v))
    (fun _ s' => Slot t true P Q p lo st sq (<[k:=v]> pay) s') s.
Proof.
  intros HS. eapply wp_trigger_store; [apply stable_Slot|auto with prog_db|exact HS|].
  intros s' Hi HS'.
  destruct (step_slot_payload cap ps ident cap_range _ _ _ _ _ _ _ _ _ _ Hi HS' k v eq_refl)
    as [Hg Hs]. split; [done|].
  rewrite write_mem, payload_of_upd, (sl_pay _ _ _ _ _ _ _ _ _ _ _ _ HS') in Hs. done.
Qed.

Lemma wp_copy_in t P Q p lo st sq pay bytes k s :
  (k + length bytes = length pay)%nat -> Slot t true P Q p lo st sq pay s ->
  wp t (store_list (zip (map (SPayload (p mod cap)) (seq k (length bytes))) bytes))
    (fun _ s' => Slot t true P Q p lo st sq (take k pay ++ bytes) s') s.
Proof.
  revert k pay s. induction bytes as [|v bytes IH]; intros k pay s Hlen HS;
    cbn [length seq map zip_with store_list].
  - eapply wp_ret; [apply stable_Slot|exact HS|]. intros s' _ H.
    simpl in Hlen. rewrite app_nil_r, take_ge by lia. done.
  - eapply wp_seq; [by apply wp_slot_payload|]. intros [] s1 Hi1 H1. cbv beta in H1.
    simpl in Hlen. eapply wp_mono; [|apply IH; [|exact H1]].
    + intros [] s2 Hi2 H2. cbv beta in *.
      replace (take k pay ++ v :: bytes) with (take (S k) (<[k:=v]> pay) ++ bytes); [done|].
      rewrite (take_S_r _ _ v) by (apply list_lookup_insert_eq; lia).
      rewrite take_insert_ge by done. by rewrite <- app_assoc.
    + rewrite length_insert. lia.
Qed.

Lemma wp_payload_at t (R : mst -> Prop) p s :
  0 <= p -> stable t R -> R s ->
  wp t (payload_at (hdl t) p) (fun o s' => o = Some (SPayload (p mod cap)) /\ R s') s.
Proof.
  intros Hp HR Hs. unfold payload_at. eapply wp_seq; [by apply (wp_slot_at _ R)|].
  intros o s1 Hi1 [-> H1]. eapply wp_ret; [exact HR|exact H1|]. by intros.
Qed.

Lemma wp_copy_payload_in t P Q p lo st sq pay bytes s :
  length bytes = Z.to_nat ps -> Slot t true P Q p lo st sq pay s ->
  wp t (copy_payload_in (Some (SPayload (p mod cap))) bytes ps)
    (fun _ s' => Slot t true P Q p lo st sq bytes s') s.
Proof.
  intros Hlen HS. unfold copy_payload_in. rewrite <- Hlen.
  apply (wp_copy_in _ _ _ _ _ _ _ pay bytes 0); [|done]. simpl.
  destruct HS as [_ _ _ _ <- _]. rewrite payload_of_length. lia.
Qed.

(** ** Publication *)

Lemma wp_notify t P Q s :
  Free t P Q s -> wp t notify_waiters (fun _ s' => Free t P Q s') s.
Proof.
  intros HF. unfold notify_waiters. eapply wp_seq.
  { eapply wp_trigger_fetch_add; [apply stable_Free|apply stable_Free|exact HF|].
    intros s' Hi HF'. by apply (step_notify cap ps ident). }
  intros v s1 Hi1 H1. cbv beta in H1.
  eapply wp_readonly; [by solve_readonly|apply stable_Free|exact H1|]. by intros.
Qed.

Definition push_post t P Q bytes (r : Result unit) (s : mst) : Prop :=
  match r with Ok _ => Free t (P ++ [bytes]) Q s | Err _ => Free t P Q s end.

Lemma wp_ret_Free {A} t P Q (a : A) (Ps : A -> mst -> Prop) s :
  Free t P Q s -> (forall s', Free t P Q s' -> Ps a s') -> wp t (Ret a) Ps s.
Proof. intros HG HP. eapply wp_ret; [apply stable_Free|exact HG|auto]. Qed.

Lemma wp_release_and_fail {A} t side P Q p lo c op ctx (Ps : Result A -> mst -> Prop) s :
  Gate t side P Q p lo false s -> (forall e s', Free t P Q s' -> Ps (Err e) s') ->
  wp t (release_and_fail side c op ctx) Ps s.
Proof.
  intros HG HP. unfold release_and_fail. eapply wp_seq; [by eapply wp_release|].
  intros [] s1 Hi1 H1. cbv beta in H1. eapply wp_ret_Free; [exact H1|auto].
Qed.

Lemma wp_push_publish t P Q p lo pay bytes s :
  0 <= p -> p + 1 <= UINT64_MAX -> length bytes = Z.to_nat ps ->
  Slot t true P Q p lo ms_kEnqueueClaiming p pay s ->
  wp t (push_publish (hdl t) (p mod cap) p (p + 1) bytes ps) (push_post t P Q bytes) s.
Proof.
  intros Hp Hmax Hlen HS. unfold push_publish.
  eapply wp_seq; [by apply wp_begin_slot_commit|]. intros [res ce] s1 Hi1 H1. cbv beta in H1.
  assert (forall c ctx, wp t (do! mark_slot_protocol_failure (p mod cap) c;
            release_and_fail true kRecoveryBlocked op_push ctx) (push_post t P Q bytes) s1) as Hfail.
  { intros c ctx. unfold release_and_fail. eapply wp_seq.
    { eapply wp_slot_state; [..|exact H1]; unfold slot_terminal_state; by case_bool_decide. }
    intros [] s2 Hi2 H2. cbv beta in H2. eapply wp_seq.
    { eapply wp_release_slot; [exact H2|]. split; [done|]. right.
      unfold slot_terminal_state. case_bool_decide; auto. }
    intros [] s3 Hi3 H3. cbv beta in H3. eapply wp_ret_Free; [exact H3|done]. }
  destruct res; [|apply Hfail..].
  eapply wp_seq; [by apply wp_set_slot_owner|]. intros [] s2 Hi2 H2. cbv beta in H2.
  eapply wp_seq; [by apply wp_slot_bookkeeping|]. intros [] s3 Hi3 H3. cbv beta in H3.
  eapply wp_seq; [by apply wp_slot_bookkeeping|]. intros [] s4 Hi4 H4. cbv beta in H4.
  eapply wp_seq; [by eapply wp_slot_state|]. intros [] s5 Hi5 H5. cbv beta in H5.
  eapply wp_seq; [by eapply wp_payload_at; [|apply stable_Slot|exact H5]|].
  intros dst s6 Hi6 [-> H6].
  eapply wp_seq; [by eapply wp_copy_payload_in|]. intros [] s7 Hi7 H7. cbv beta in H7.
  eapply wp_seq; [by eapply wp_slot_seq|]. intros [] s8 Hi8 H8. cbv beta in H8.
  eapply wp_seq; [by eapply wp_slot_state|]. intros [] s9 Hi9 H9. cbv beta in H9.
  eapply wp_seq.
  { eapply (wp_trigger_store _ _ _ _ (Gate t true (P ++ [bytes]) Q (p + 1) lo false));
      [apply stable_Slot|auto with prog_db|exact H9|].
    intros s' Hi' H'. by apply (step_publish cap ps ident). }
  intros [] s10 Hi10 H10. cbv beta in H10.
  eapply wp_seq; [by eapply wp_release|]. intros [] s11 Hi11 H11. cbv beta in H11.
  eapply wp_seq; [by eapply wp_notify|]. intros [] s12 Hi12 H12. cbv beta in H12.
  eapply wp_ret_Free; [exact H12|done].
Qed.

(** The slot checks read the slot of the ticket and change nothing. *)
Lemma slot_invalid_readonly slot sq st : readonly (slot_invalid slot sq st).
Proof. unfold slot_invalid. solve_readonly. Qed.
#[local] Hint Resolve slot_invalid_readonly : prog_db.

Lemma wp_push_slot t P Q p lo bytes s :
  0 <= p -> p + 1 <= UINT64_MAX -> length bytes = Z.to_nat ps -> p < lo + cap ->
  Gate t true P Q p lo false s ->
  wp t (push_slot (hdl t) p (p + 1) bytes ps) (push_post t P Q bytes) s.
Proof.
  intros Hp Hmax Hlen Hopen HG. unfold push_slot.
  eapply wp_seq; [by eapply wp_slot_at; [|apply stable_Gate|exact HG]|].
  intros o s1 Hi1 [-> H1].
  eapply wp_readonly_bind; [by solve_readonly|apply stable_Gate|exact H1|].
  intros [] s2 Hi2 H2.
  - eapply wp_readonly_bind; [by solve_readonly|apply stable_Gate|exact H2|].
    intros so s3 Hi3 H3. case_bool_decide; by eapply wp_release_and_fail.
  - eapply wp_readonly_bind; [by solve_readonly|apply stable_Gate|exact H2|].
    intros sc s3 Hi3 H3. destruct (negb (bool_decide (sc = oc_Ready))).
    + eapply wp_seq.
      { eapply wp_trigger_store; [apply stable_Gate|apply (stable_Gate t true P Q p lo false)
          |exact H3|].
        intros s' Hi' H'. eapply (step_slot_terminal cap ps ident cap_range); [done|done|done|].
        unfold slot_terminal_state. case_bool_decide; auto. }
      intros [] s4 Hi4 H4. cbv beta in H4. by eapply wp_release_and_fail.
    + eapply wp_seq.
      { apply (wp_trigger_cas _ _ _ _ (Gate t true P Q p lo false)
          (fun s' => exists pay, Slot t true P Q p lo ms_kEnqueueClaiming p pay s')
          (Gate t true P Q p lo false)); [auto with prog_db| |auto with prog_db|done| |done].
        - intros s4 s5 [pay H] Hr Hi. exists pay. by eapply stable_Slot.
        - intros s' Hi' H' _. by apply (step_slot_claim cap ps ident cap_range t true P Q p lo). }
      intros [] s4 Hi4 H4; cbn [negb].
      * destruct H4 as [pay H4]. by eapply wp_push_publish.
      * by eapply wp_release_and_fail.
Qed.

Lemma validate_ticket_bounds_Ok p op next reclaim :
  0 <= p <= UINT64_MAX -> validate_ticket_bounds p cap op = Ok (next, reclaim) ->
  next = p + 1 /\ reclaim = p + cap /\ p + 1 <= UINT64_MAX.
Proof.
  intros Hp. unfold validate_ticket_bounds. rewrite ticket_bounds_spec by done.
  case_decide; [|done]. intros [= <- <-]. lia.
Qed.

Lemma wp_or_release {A B} t side P Q p lo (r : Result A) (k : A -> mprog (Result B))
    (Ps : Result B -> mst -> Prop) s :
  Gate t side P Q p lo false s -> (forall e s', Free t P Q s' -> Ps (Err e) s') ->
  (forall a, r = Ok a -> wp t (k a) Ps s) -> wp t (or_release side r k) Ps s.
Proof.
  intros HG He Hk. destruct r as [a|e]; cbn [or_release]; [auto|].
  eapply wp_seq; [by eapply wp_release|]. intros [] s1 Hi1 H1. cbv beta in H1.
  eapply wp_ret_Free; [exact H1|auto].
Qed.

Lemma wp_push_full_locked t P Q p lo bytes s :
  Gate t true P Q p lo false s ->
  wp t (push_full_locked (hdl t)) (push_post t P Q bytes) s.
Proof.
  intros HG. unfold push_full_locked.
  eapply wp_readonly_bind; [by solve_readonly|apply stable_Gate|exact HG|]. intros c s1 Hi1 H1.
  eapply wp_readonly_bind; [by solve_readonly|apply stable_Gate|exact H1|]. intros d s2 Hi2 H2.
  eapply wp_seq; [by eapply wp_release|]. intros [] s3 Hi3 H3. cbv beta in H3.
  eapply wp_readonly_leaves; [by solve_readonly| |apply stable_Free|exact H3|].
  - unfold full_queue_verdict. solve_leaves.
  - by intros r s4 _ [e ->] H4.
Qed.

Lemma wp_push_locked t P Q p lo bytes s :
  length bytes = Z.to_nat ps -> Gate t true P Q p lo false s ->
  wp t (push_locked (hdl t) cap bytes ps) (push_post t P Q bytes) s.
Proof.
  intros Hlen HG. unfold push_locked.
  eapply wp_seq; [by apply wp_snapshot_positions|]. intros r s1 Hi1 H1.
  assert (exists lo', Gate t true P Q p lo' false s1) as [lo' HG1].
  { destruct r as [[e d]|]; [|by eexists]. destruct H1 as (_ & _ & _ & ?). by eexists. }
  eapply wp_or_release; [exact HG1|done|]. intros [e d] ->.
  destruct H1 as (Hown & He & Hd & HG2). simpl in Hown, HG2. subst e.
  eapply wp_or_release; [exact HG2|done|]. intros [] Hv.
  eapply wp_or_release; [exact HG2|done|]. intros [next rec] Hb.
  apply validate_ticket_bounds_Ok in Hb as (-> & -> & Hmax); [|done].
  destruct (_ =? cap); [by eapply wp_push_full_locked|].
  eapply wp_seq; [by apply wp_admission|]. intros r s2 Hi2 H2.
  assert (exists lo', Gate t true P Q p lo' false s2) as [lo2 HG3].
  { destruct r as [[e d2]|]; [|by eexists]. destruct H2 as (_ & ? & _). by eexists. }
  eapply wp_or_release; [exact HG3|done|]. intros [e d2] ->. destruct H2 as (-> & HG4 & Hopen).
  eapply wp_push_slot; [lia|done|done|exact Hopen|exact HG4].
Qed.

Lemma wp_acquire_gate t side P Q s :
  Free t P Q s ->
  wp t (acquire_gate (hdl t) side) (fun r s' => exists p, gate_post t side P Q p 0 r s') s.
Proof.
  intros HF. unfold acquire_gate. eapply wp_seq; [by apply wp_claim_gate|].
  intros [[]|e] s1 Hi1 [p H1]; simpl in H1.
  - eapply wp_mono; [|by apply wp_commit_claimed_gate]. intros. by exists p.
  - eapply wp_ret_Free; [exact H1|]. intros. by exists 0.
Qed.

(** ** try_push *)

Lemma wp_try_push t P Q bytes s :
  length bytes = Z.to_nat ps -> Free t P Q s ->
  wp t (mpmc_try_push_impl (Some (hdl t)) (Some bytes) ps) (push_post t P Q bytes) s.
Proof.
  intros Hlen HF. unfold mpmc_try_push_impl.
  assert (leaves (fun r => r = Ok (hdl t) \/ is_err r)
            (validate_live_handle (Some (hdl t)) op_push)) as Hh.
  { unfold validate_live_handle. destruct (h_removed (hdl t)); [by right; eexists|].
    apply leaves_bind_any. intros a. destruct (negb _); [by right; eexists|by left]. }
  eapply wp_seq.
  { eapply (wp_readonly_leaves _ _ _ _ (fun r s' => (r = Ok (hdl t) \/ is_err r) /\ Free t P Q s'));
      [by solve_readonly|exact Hh|apply stable_Free|exact HF|auto]. }
  intros r s1 Hi1 [[->|[e ->]] H1]; [|by eapply wp_ret_Free].
  eapply wp_readonly_bind; [by solve_readonly|apply stable_Free|exact H1|]. intros hp s2 Hi2 H2.
  destruct (negb (ps =? hp)); [by eapply wp_ret_Free|].
  eapply wp_seq; [apply (wp_trigger_load_const _ _ cap (Free t P Q));
    [apply inv_capacity|apply stable_Free|exact H2]|].
  intros c s3 Hi3 [-> H3].
  eapply wp_readonly_bind; [by solve_readonly|apply stable_Free|exact H3|].
  intros [[e d]|e] s4 Hi4 H4; [|by eapply wp_ret_Free]. unfold lift. cbn [bind].
  destruct (validate_queue_positions e d cap op_push) as [[]|]; [|by eapply wp_ret_Free].
  destruct (validate_ticket_bounds e cap op_push) as [[]|]; [|by eapply wp_ret_Free].
  destruct (_ =? cap).
  { eapply wp_readonly_leaves; [by solve_readonly| |apply stable_Free|exact H4|].
    - unfold push_full_unlocked, full_queue_verdict. pose proof (@gate_busy_result_err unit).
      solve_leaves.
    - by intros r s5 _ [er ->] H5. }
  eapply wp_readonly_bind; [by solve_readonly|apply stable_Free|exact H4|].
  intros [[e' d']|e'] s5 Hi5 H5; [|by eapply wp_ret_Free].
  eapply wp_seq; [by apply wp_acquire_gate|].
  intros [[]|e''] s6 Hi6 [p H6]; simpl in H6; [|by eapply wp_ret_Free].
  by eapply wp_push_locked.
Qed.

(** ** try_pop *)

Definition pop_post t P Q (r : Result (list Z)) (s : mst) : Prop :=
  match r with Ok bytes => Free t P (Q ++ [bytes]) s | Err _ => Free t P Q s end.

Lemma wp_load_payload t P Q p lo st sq pay ks s :
  Slot t false P Q p lo st sq pay s -> Forall (fun k => (k < Z.to_nat ps)%nat) ks ->
  wp t (load_list (map (SPayload (p mod cap)) ks)) (fun bytes s' =>
    Slot t false P Q p lo st sq pay s' /\ bytes = map (fun k => nth k pay 0) ks) s.
Proof.
  intros HS Hks. revert s HS. induction ks as [|k ks IH]; intros s HS; cbn [map load_list].
  - eapply wp_ret; [apply stable_Slot|exact HS|by intros].
  - inversion Hks as [|? ? Hk Hks']; subst.
    eapply wp_load; [apply stable_Slot|exact HS|]. intros s1 Hi1 H1. cbn [bind].
    eapply wp_seq; [by apply IH|]. intros bytes s2 Hi2 [H2 ->].
    eapply wp_ret; [apply stable_Slot|exact H2|]. intros s3 Hi3 H3. split; [done|].
    f_equal. rewrite <- (sl_pay _ _ _ _ _ _ _ _ _ _ _ _ H1). unfold payload_of.
    rewrite (nth_indep _ 0 (c_mem s1 (SPayload (p mod cap) 0)))
      by (by rewrite length_map, length_seq).
    rewrite (map_nth (fun b => c_mem s1 (SPayload (p mod cap) b))).
    by rewrite seq_nth.
Qed.

Lemma map_nth_seq (l : list Z) : map (fun k => nth k l 0) (seq 0 (length l)) = l.
Proof.
  induction l as [|x l IH]; [done|]. simpl. f_equal. rewrite <- seq_shift, map_map. apply IH.
Qed.

Lemma wp_copy_payload_out t P Q p lo st sq pay s :
  Slot t false P Q p lo st sq pay s ->
  wp t (copy_payload_out (Some (SPayload (p mod cap))) ps) (fun bytes s' =>
    Slot t false P Q p lo st sq pay s' /\ bytes = pay) s.
Proof.
  intros HS. assert (length pay = Z.to_nat ps) as Hlen.
  { destruct HS as [_ _ _ _ <- _]. apply payload_of_length. }
  unfold copy_payload_out. eapply wp_mono; [|apply wp_load_payload; [exact HS|]].
  - intros bytes s' _ [H ->]. split; [done|]. rewrite <- Hlen. apply map_nth_seq.
  - apply Forall_forall. intros k Hk. apply elem_of_seq in Hk. lia.
Qed.

Lemma wp_pop_consume t P Q p lo pay s :
  0 <= p -> Slot t false P Q p lo ms_kDequeueClaiming (p + 1) pay s ->
  wp t (pop_consume (hdl t) (p mod cap) p (p + 1) (p + cap) ps) (pop_post t P Q) s.
Proof.
  intros Hp HS. unfold pop_consume.
  eapply wp_seq; [by apply wp_begin_slot_commit|]. intros [res ce] s1 Hi1 H1. cbv beta in H1.
  assert (forall ctx, wp t (do! shared_store_seq_cst (SState (p mod cap)) ms_kReady;
            release_and_fail false kRecoveryBlocked op_pop ctx) (pop_post t P Q) s1) as Hfail.
  { intros ctx. unfold release_and_fail. eapply wp_seq; [by eapply wp_slot_state|].
    intros [] s2 Hi2 H2. cbv beta in H2. eapply wp_seq; [by eapply wp_release_slot|].
    intros [] s3 Hi3 H3. cbv beta in H3. by eapply wp_ret_Free. }
  destruct res; [|apply Hfail..].
  eapply wp_seq; [by apply wp_set_slot_owner|]. intros [] s2 Hi2 H2. cbv beta in H2.
  eapply wp_seq; [by apply wp_slot_bookkeeping|]. intros [] s3 Hi3 H3. cbv beta in H3.
  eapply wp_seq; [by apply wp_slot_bookkeeping|]. intros [] s4 Hi4 H4. cbv beta in H4.
  eapply wp_seq; [by eapply wp_slot_state|]. intros [] s5 Hi5 H5. cbv beta in H5.
  eapply wp_seq; [by eapply wp_payload_at; [|apply stable_Slot|exact H5]|].
  intros dst s6 Hi6 [-> H6].
  eapply wp_seq; [by eapply wp_copy_payload_out|]. intros bytes s7 Hi7 [H7 ->].
  eapply wp_seq; [by eapply wp_slot_seq|]. intros [] s8 Hi8 H8. cbv beta in H8.
  eapply wp_seq; [by eapply wp_slot_state|]. intros [] s9 Hi9 H9. cbv beta in H9.
  eapply wp_seq.
  { eapply (wp_trigger_store _ _ _ _ (Gate t false P (Q ++ [pay]) (p + 1) lo false));
      [apply stable_Slot|auto with prog_db|exact H9|].
    intros s' Hi' H'. by apply (step_consume cap ps ident cap_range). }
  intros [] s10 Hi10 H10. cbv beta in H10.
  eapply wp_seq; [by eapply wp_release|]. intros [] s11 Hi11 H11. cbv beta in H11.
  eapply wp_seq; [by eapply wp_notify|]. intros [] s12 Hi12 H12. cbv beta in H12.
  by eapply wp_ret_Free.
Qed.

Lemma wp_pop_slot t P Q p lo s :
  0 <= p -> p < lo -> Gate t false P Q p lo false s ->
  wp t (pop_slot (hdl t) p (p + 1) (p + cap) ps) (pop_post t P Q) s.
Proof.
  intros Hp Hopen HG. unfold pop_slot.
  eapply wp_seq; [by eapply wp_slot_at; [|apply stable_Gate|exact HG]|].
  intros o s1 Hi1 [-> H1].
  eapply wp_readonly_bind; [by solve_readonly|apply stable_Gate|exact H1|].
  intros [] s2 Hi2 H2.
  - eapply wp_readonly_bind; [by solve_readonly|apply stable_Gate|exact H2|].
    intros so s3 Hi3 H3. case_bool_decide; by eapply wp_release_and_fail.
  - eapply wp_readonly_bind; [by solve_readonly|apply stable_Gate|exact H2|].
    intros sc s3 Hi3 H3. destruct (negb (bool_decide (sc = oc_Ready)));
      [by eapply wp_release_and_fail|].
    eapply wp_seq.
    { apply (wp_trigger_cas _ _ _ _ (Gate t false P Q p lo false)
        (fun s' => exists pay, Slot t false P Q p lo ms_kDequeueClaiming (p + 1) pay s')
        (Gate t false P Q p lo false)); [auto with prog_db| |auto with prog_db|done| |done].
      - intros s4 s5 [pay H] Hr Hi. exists pay. by eapply stable_Slot.
      - intros s' Hi' H' _. by apply (step_slot_claim cap ps ident cap_range t false P Q p lo). }
    intros [] s4 Hi4 H4; cbn [negb].
    + destruct H4 as [pay H4]. by eapply wp_pop_consume.
    + by eapply wp_release_and_fail.
Qed.

Lemma wp_pop_empty_locked t P Q p lo s :
  Gate t false P Q p lo false s -> wp t (pop_empty_locked (hdl t)) (pop_post t P Q) s.
Proof.
  intros HG. unfold pop_empty_locked.
  eapply wp_readonly_bind; [by solve_readonly|apply stable_Gate|exact HG|]. intros c s1 Hi1 H1.
  eapply wp_readonly_bind; [by solve_readonly|apply stable_Gate|exact H1|]. intros d s2 Hi2 H2.
  eapply wp_seq; [by eapply wp_release|]. intros [] s3 Hi3 H3. cbv beta in H3.
  eapply wp_readonly_leaves; [by solve_readonly| |apply stable_Free|exact H3|].
  - unfold empty_queue_verdict. solve_leaves.
  - by intros r s4 _ [e ->] H4.
Qed.

Lemma wp_pop_claimed t P Q p lo s :
  Gate t false P Q p lo false s ->
  wp t (pop_claimed (hdl t) cap ps) (pop_post t P Q) s.
Proof.
  intros HG. unfold pop_claimed.
  eapply wp_seq; [by apply wp_snapshot_positions|]. intros r s1 Hi1 H1.
  assert (exists lo', Gate t false P Q p lo' false s1) as [lo' HG1].
  { destruct r as [[e d]|]; [|by eexists]. destruct H1 as (_ & _ & _ & ?). by eexists. }
  eapply wp_or_release; [exact HG1|done|]. intros [e d] ->.
  destruct H1 as (Hown & He & Hd & HG2). simpl in Hown, HG2. subst d.
  eapply wp_or_release; [exact HG2|done|]. intros [] Hv.
  apply validate_queue_positions_Ok in Hv; [|done..].
  eapply wp_or_release; [exact HG2|done|]. intros [next rec] Hb.
  apply validate_ticket_bounds_Ok in Hb as (-> & -> & Hmax); [|done].
  bdestr (p =? e); [by eapply wp_pop_empty_locked|].
  eapply wp_seq; [apply wp_commit_claimed_gate; exact HG2|].
  intros [[]|er] s2 Hi2 H2; simpl in H2; [|by eapply wp_ret_Free].
  eapply wp_pop_slot; [| |exact H2]; simpl; lia.
Qed.

Lemma wp_try_pop t P Q s :
  Free t P Q s ->
  wp t (mpmc_try_pop_impl (Some (hdl t)) false ps) (pop_post t P Q) s.
Proof.
  intros HF. unfold mpmc_try_pop_impl.
  assert (leaves (fun r => r = Ok (hdl t) \/ is_err r)
            (validate_live_handle (Some (hdl t)) op_pop)) as Hh.
  { unfold validate_live_handle. destruct (h_removed (hdl t)); [by right; eexists|].
    apply leaves_bind_any. intros a. destruct (negb _); [by right; eexists|by left]. }
  eapply wp_seq.
  { eapply (wp_readonly_leaves _ _ _ _ (fun r s' => (r = Ok (hdl t) \/ is_err r) /\ Free t P Q s'));
      [by solve_readonly|exact Hh|apply stable_Free|exact HF|auto]. }
  intros r s1 Hi1 [[->|[e ->]] H1]; [|by eapply wp_ret_Free].
  eapply wp_readonly_bind; [by solve_readonly|apply stable_Free|exact H1|]. intros hp s2 Hi2 H2.
  destruct (negb (ps =? hp)); [by eapply wp_ret_Free|].
  eapply wp_seq; [apply (wp_trigger_load_const _ _ cap (Free t P Q));
    [apply inv_capacity|apply stable_Free|exact H2]|].
  intros c s3 Hi3 [-> H3].
  eapply wp_readonly_bind; [by solve_readonly|apply stable_Free|exact H3|].
  intros [[e d]|e] s4 Hi4 H4; [|by eapply wp_ret_Free]. unfold lift. cbn [bind].
  destruct (validate_queue_positions e d cap op_pop) as [[]|]; [|by eapply wp_ret_Free].
  destruct (validate_ticket_bounds d cap op_pop) as [[]|]; [|by eapply wp_ret_Free].
  destruct (d =? e).
  { eapply wp_readonly_leaves; [by solve_readonly| |apply stable_Free|exact H4|].
    - unfold pop_empty_unlocked, empty_queue_verdict.
      pose proof (@gate_busy_result_err (list Z)). solve_leaves.
    - by intros r s5 _ [er ->] H5. }
  eapply wp_readonly_bind; [by solve_readonly|apply stable_Free|exact H4|].
  intros [budget|e'] s5 Hi5 H5; [|by eapply wp_ret_Free].
  destruct (budget =? 0); [by eapply wp_ret_Free|].
  eapply wp_seq; [by apply wp_claim_gate|].
  intros [[]|e''] s6 Hi6 [p H6]; simpl in H6; [|by eapply wp_ret_Free].
  by eapply wp_pop_claimed.
Qed.
End Safety.
