(* ===== verification/MpmcSnapshot.v ===== *)
(** Consistent reads of the queue's words while others write them.

    The owner snapshot of a gate is a sequence lock: four identity fields read
    between equal even epochs. The position snapshot reads both positions twice.
    The lemmas show that what they return was true at one instant. *)
From S2P Require Import Prelude Errors Prog Concur ProcIdentity OwnerSnapshot.
From S2P Require Import MpmcLayout MpmcQueue MpmcApi MpmcProtocol MpmcSafety.

Section Snapshot.
Context (cap ps : Z) (ident : tid -> ProcessIdentity).

#[local] Hint Extern 0 (Protocol mloc mghost) =>
  exact (mpmc_protocol cap ps ident) : typeclass_instances.

(** * The owner of a gate *)

(** [v] was read from field [f] after the epoch [e] was seen: unless the epoch
    has moved on, it is the field of the thread that committed [e]. *)
Definition field_read (side : bool) (e v : Z) (f : owner_field) (s : mst) : Prop :=
  e <= epoch side s /\
  (epoch side s = e ->
   v = 0 \/ exists u, g_commit (c_gh s) side e = Some u /\ v = owner_get (ident u) f).

Lemma stable_field_read t side e v f : stable t (field_read side e v f).
Proof.
  intros s s' [Hle Hv] Hr Hi. pose proof (rely_epoch _ _ _ _ _ Hr side). split; [lia|].
  intros He. destruct Hv as [Hz|(u & Hu & Hvu)]; [lia|by left|].
  right. exists u. split; [|done]. by apply (rely_commit _ _ _ _ _ Hr).
Qed.

Lemma stable_epoch_ge t side e : stable t (fun s => e <= epoch side s).
Proof. intros s s' H Hr Hi. pose proof (rely_epoch _ _ _ _ _ Hr side). lia. Qed.

Ltac solve_stable :=
  repeat first [apply stable_field_read | apply stable_epoch_ge | apply stable_and].

Lemma field_read_now side e f s :
  minv cap ps ident s -> e <= epoch side s -> Z.even e = true ->
  field_read side e (c_mem s (HOwner side f)) f s.
Proof.
  intros Hi Hle Hev. split; [done|]. intros He. destruct (inv_owner _ _ _ _ Hi side) as (_ & _ & Ho).
  rewrite He in Ho. destruct (Ho Hev) as [Hz|(u & Hu & Hf)]; [left; apply Hz|].
  right. exists u. auto.
Qed.

(** [o] is the identity committed with epoch [e]. *)
Definition committed (side : bool) (o : ProcessIdentity) (e : Z) (s : mst) : Prop :=
  exists u, g_commit (c_gh s) side e = Some u /\ o = ident u.

Lemma stable_committed t side o e : stable t (committed side o e).
Proof.
  intros s s' (u & Hu & Ho) Hr Hi. exists u. split; [|done].
  by apply (rely_commit _ _ _ _ _ Hr).
Qed.

(** Four fields read under one epoch are one identity. *)
Lemma field_reads_committed side e p1 p2 p3 p4 s :
  epoch side s = e -> owner_valid (mkIdentity p1 p2 p3 p4) = true ->
  field_read side e p1 of_pid s -> field_read side e p2 of_start s ->
  field_read side e p3 of_boot_hi s -> field_read side e p4 of_boot_lo s ->
  committed side (mkIdentity p1 p2 p3 p4) e s.
Proof.
  intros He Hv [_ H1] [_ H2] [_ H3] [_ H4]. unfold owner_valid in Hv. simpl in Hv.
  rewrite !andb_true_iff, !negb_true_iff, !Z.eqb_neq in Hv.
  destruct Hv as [[[N1 N2] N3] N4].
  destruct (H1 He) as [?|(u1 & Hu1 & E1)]; [done|].
  destruct (H2 He) as [?|(u2 & Hu2 & E2)]; [done|].
  destruct (H3 He) as [?|(u3 & Hu3 & E3)]; [done|].
  destruct (H4 He) as [?|(u4 & Hu4 & E4)]; [done|].
  rewrite Hu1 in Hu2, Hu3, Hu4.
  injection Hu2 as <-. injection Hu3 as <-. injection Hu4 as <-.
  exists u1. split; [done|]. rewrite E1, E2, E3, E4. by destruct (ident u1).
Qed.

(** What a gate snapshot may claim. *)
Definition snapshot_true (side : bool) (r : OwnerSnapshot) (s : mst) : Prop :=
  os_kind r = osk_Stable -> committed side (os_owner r) (os_epoch r) s.

Lemma wp_ret_snapshot t side r s :
  os_kind r <> osk_Stable -> wp t (Ret r) (snapshot_true side) s.
Proof. intros Hk s' _ _ Hs. done. Qed.

Lemma wp_snapshot_final t side classify s :
  wp t (snapshot_final (gate_for side) classify) (snapshot_true side) s.
Proof.
  unfold snapshot_final. apply wp_bind.
  eapply (wp_readonly _ _ (fun _ => True)); [by solve_readonly|done|done|].
  intros st s1 _ _. destruct (classify st); apply wp_bind;
    (eapply (wp_readonly _ _ (fun _ => True)); [by solve_readonly|done|done|]);
    intros e s2 _ _; by apply wp_ret_snapshot.
Qed.

Lemma wp_load_field t side e f R s :
  Z.even e = true -> stable t R -> R s -> e <= epoch side s ->
  wp t (shared_load_seq_cst (HOwner side f)) (fun v s' =>
    (R s' /\ e <= epoch side s') /\ field_read side e v f s') s.
Proof.
  intros Hev HR Hs He.
  eapply (wp_load _ _ _ (fun s' => R s' /\ e <= epoch side s')).
  - apply stable_and; [done|apply stable_epoch_ge].
  - done.
  - intros s1 Hi1 [H1 H1']. pose proof (field_read_now side e f s1 Hi1 H1' Hev) as Hf.
    eapply (wp_ret _ _ (fun s' => (R s' /\ e <= epoch side s') /\
              field_read side e (c_mem s1 (HOwner side f)) f s')); [|done|by intros].
    apply stable_and; [apply stable_and; [done|apply stable_epoch_ge]|apply stable_field_read].
Qed.

(** The body of the owned case: fields between two reads of the epoch. *)
Lemma wp_owned_fields t side e s :
  Z.even e = true -> e <= epoch side s ->
  wp t (load_owner_seq_cst (ol_owner (gate_for side))) (fun o s' =>
    e <= epoch side s' /\
    field_read side e (pid o) of_pid s' /\ field_read side e (proc_start_ticks o) of_start s' /\
    field_read side e (boot_id_hash_hi o) of_boot_hi s' /\
    field_read side e (boot_id_hash_lo o) of_boot_lo s') s.
Proof.
  intros Hev He. unfold load_owner_seq_cst. cbn [ol_owner gate_for].
  eapply wp_seq; [apply (wp_load_field t side e of_pid (fun _ => True)); done|].
  intros p1 s1 _ [[_ He1] F1].
  eapply wp_seq; [apply (wp_load_field t side e of_start (field_read side e p1 of_pid));
    [done|apply stable_field_read|done|done]|]. clear F1.
  intros p2 s2 _ [[F1 He2] F2].
  eapply wp_seq; [apply (wp_load_field t side e of_boot_hi
    (fun s' => field_read side e p1 of_pid s' /\ field_read side e p2 of_start s'));
    [done|apply stable_and; apply stable_field_read|done|done]|]. clear F1 F2.
  intros p3 s3 _ [[[F1 F2] He3] F3].
  eapply wp_seq; [apply (wp_load_field t side e of_boot_lo
    (fun s' => (field_read side e p1 of_pid s' /\ field_read side e p2 of_start s') /\
               field_read side e p3 of_boot_hi s'));
    [done|solve_stable|done|done]|]. clear F1 F2 F3.
  intros p4 s4 _ [[[[F1 F2] F3] He4] F4].
  eapply (wp_ret _ _ (fun s' => e <= epoch side s' /\ field_read side e p1 of_pid s' /\
    field_read side e p2 of_start s' /\ field_read side e p3 of_boot_hi s' /\
    field_read side e p4 of_boot_lo s')); [|done|by intros].
  solve_stable.
Qed.

(** The candidate is a committed identity once the epoch is seen again. *)
Definition candidate_ok (side : bool) (e : Z) (o : ProcessIdentity) (e2 : Z) (s : mst) : Prop :=
  e2 = e -> owner_valid o = true -> committed side o e s.

Lemma stable_candidate_ok t side e o e2 : stable t (candidate_ok side e o e2).
Proof. intros s s' H Hr Hi He Hv. eapply stable_committed; [by apply H|done|done]. Qed.

Lemma wp_snapshot_loop t side n s :
  wp t (snapshot_owner_loop (gate_for side)
          (classify_owner_state ml_kFree ml_kClaiming ml_kOwned ml_kEpochExhausted
             ml_kOwnerProtocolFault) owner_valid n) (snapshot_true side) s.
Proof.
  set (classify := classify_owner_state _ _ _ _ _).
  revert s. induction n as [|n IH]; intros s; cbn [snapshot_owner_loop];
    [apply wp_snapshot_final|].
  apply wp_bind. eapply (wp_readonly _ _ (fun _ => True)); [by solve_readonly|done|done|].
  intros st s1 _ _. destruct (classify st).
  1: { do 3 (apply wp_bind; eapply (wp_readonly _ _ (fun _ => True));
         [by solve_readonly|done|done|]; intros ? ? _ _).
       repeat case_match; try (by apply wp_ret_snapshot); apply IH. }
  1, 3, 4, 5: (apply wp_bind; eapply (wp_readonly _ _ (fun _ => True));
    [by solve_readonly|done|done|]; intros ? ? _ _; by apply wp_ret_snapshot).
  cbn [ol_epoch gate_for].
  eapply wp_load; [apply (stable_pure t True)|done|]. intros s2 Hi2 _. cbn [bind].
  set (e := c_mem s2 (HOwnerEpoch side)).
  destruct (epoch_odd e) eqn:Hodd; [apply IH|]. apply epoch_odd_false in Hodd.
  eapply wp_seq; [apply (wp_owned_fields t side e); [done|done]|].
  intros o s3 Hi3 Hf3.
  eapply wp_load with (R := fun s' => e <= epoch side s' /\
    field_read side e (pid o) of_pid s' /\ field_read side e (proc_start_ticks o) of_start s' /\
    field_read side e (boot_id_hash_hi o) of_boot_hi s' /\
    field_read side e (boot_id_hash_lo o) of_boot_lo s'); [|exact Hf3|].
  { solve_stable. }
  intros s4 Hi4 (He4 & F1 & F2 & F3 & F4). cbn [bind]. set (e2 := c_mem s4 (HOwnerEpoch side)).
  assert (candidate_ok side e o e2 s4) as Hc.
  { intros He Hv. destruct o. by eapply field_reads_committed. }
  eapply wp_readonly_bind; [by solve_readonly|apply stable_candidate_ok|exact Hc|].
  intros st' s5 Hi5 H5.
  eapply wp_readonly_bind; [by solve_readonly|apply stable_candidate_ok|exact H5|].
  intros e3 s6 Hi6 H6.
  destruct (classify st'); try (by apply wp_ret_snapshot); try apply IH.
  destruct (_ && _) eqn:Heq; [|apply IH].
  apply andb_true_iff in Heq as [Heq _]. apply andb_true_iff in Heq as [E1 E2]. bprop.
  destruct (owner_valid o) eqn:Hv; [|by apply wp_ret_snapshot].
  eapply (wp_ret _ _ (committed side o e3)); [apply stable_committed| |intros s7 _ H7 _; exact H7].
  rewrite <- E2, <- E1. by apply H6.
Qed.

Lemma wp_snapshot_gate_owner t side s :
  wp t (snapshot_gate_owner side) (snapshot_true side) s.
Proof. apply wp_snapshot_loop. Qed.

(** * Both positions *)

(** [(e, d)] were the two positions at one instant. *)
Definition positions_at (t : tid) (e d : Z) (s : mst) : Prop :=
  exists s0, minv cap ps ident s0 /\ mrely cap ps t s0 s /\
             pos true s0 = e /\ pos false s0 = d.

Lemma stable_positions_at t e d : stable t (positions_at t e d).
Proof.
  intros s s' (s0 & Hi & Hr & He & Hd) Hr' _. exists s0. split; [done|]. split; [|done].
  by eapply mrely_trans.
Qed.

Lemma wp_snapshot_instant t op s :
  wp t (snapshot_queue_positions op) (fun r s' =>
    match r with Ok (e, d) => positions_at t e d s' | Err _ => True end) s.
Proof.
  unfold snapshot_queue_positions. generalize kOwnerSnapshotRetries. intros n. revert s.
  induction n as [|n IH]; intros s; cbn [snapshot_queue_positions_loop].
  { by intros s' _ _. }
  eapply wp_load; [apply (stable_pure t True)|done|]. intros s1 Hi1 _. cbn [bind].
  set (e1 := c_mem s1 _).
  eapply (wp_load _ _ _ (fun s' => e1 <= pos true s')).
  { intros s' s'' H Hr Hi. pose proof (rely_pos _ _ _ _ _ Hr true). lia. }
  { done. }
  intros s2 Hi2 He2. cbn [bind]. set (d1 := c_mem s2 _).
  eapply (wp_load _ _ _ (fun s' => mrely cap ps t s2 s')).
  { intros s' s'' H Hr Hi. by eapply mrely_trans. }
  { apply mrely_refl. }
  intros s3 Hi3 Hr3. cbn [bind]. set (e2 := c_mem s3 _).
  assert (e1 = e2 -> positions_at t e2 d1 s3) as Hpos.
  { intros Heq. exists s2. split; [done|]. split; [done|]. split; [|done].
    pose proof (rely_pos _ _ _ _ _ Hr3 true).
    assert (pos true s3 = e2) by done. lia. }
  eapply (wp_readonly_bind _ _ _ (fun s' => e1 = e2 -> positions_at t e2 d1 s'));
    [by solve_readonly| |exact Hpos|].
  { intros s' s'' H Hr Hi Heq. eapply stable_positions_at; [by apply H|done|done]. }
  intros d2 s4 Hi4 H4. destruct (_ && _) eqn:Heq; [|apply IH].
  apply andb_true_iff in Heq as [E1 E2]. bprop. subst d2.
  eapply (wp_ret _ _ (positions_at t e2 d1)); [apply stable_positions_at|by apply H4|by intros].
Qed.

(** * What status reports *)

(** No owner, or the process of one of the threads. *)
Definition pid_real (p : Z) : Prop := p = 0 \/ exists u, p = pid (ident u).

Lemma wp_fill_status_owner t h side (s : mst) :
  wp t (fill_status_owner h side) (fun r _ =>
    match r with Ok (_, p, _) => pid_real p | Err _ => True end) s.
Proof.
  unfold fill_status_owner. eapply wp_seq; [apply wp_snapshot_gate_owner|].
  intros o s1 _ Ho. destruct (os_kind o) eqn:Hk; try (by intros s' _ _).
  - intros s' _ _. by left.
  - destruct (Ho Hk) as (u & _ & Hu).
    eapply (wp_readonly_bind _ _ _ (fun _ => True)); [by solve_readonly|done|done|].
    intros d s2 _ _. repeat case_match; try (by intros s' _ _).
    intros s' _ _. right. exists u. by rewrite Hu.
Qed.

Lemma wp_status_owners t h (s : mst) :
  wp t (mpmc_status_impl h) (fun r _ =>
    match r with
    | Ok st => pid_real (qs_enqueue_owner_pid st) /\ pid_real (qs_dequeue_owner_pid st)
    | Err _ => True
    end) s.
Proof.
  unfold mpmc_status_impl.
  eapply (wp_readonly_bind _ _ _ (fun _ => True)); [by solve_readonly|done|done|].
  intros [hd|e] s1 _ _; [|by intros ? _ _].
  do 13 (eapply (wp_readonly_bind _ _ _ (fun _ => True)); [by solve_readonly|done|done|];
         intros ? ? _ _).
  eapply wp_seq; [apply wp_fill_status_owner|]. intros [[[l1 p1] al1]|er1] s3 _ H1; [|by intros ? _ _].
  eapply wp_seq; [apply wp_fill_status_owner|]. intros [[[l2 p2] al2]|er2] s4 _ H2; [|by intros ? _ _].
  by intros ? _ _.
Qed.
End Snapshot.
