(* ===== verification/MpmcSequential.v ===== *)
(** The MPMC queue used by one thread at a time.

    [queue_is] relates a segment to the list of messages it holds. From a segment
    that represents [xs], with nobody inside an operation, [try_push] and
    [try_pop] return exactly what a bounded first-in first-out list returns, and
    leave a segment that represents the list's next state. *)
From S2P Require Import Prelude Errors CheckedMath Prog SeqLogic ProcIdentity OwnerSnapshot.
From S2P Require Import ShmObject ChannelLayout MpmcLayout MpmcQueue MpmcApi MpmcProtocol MpmcSafety.

Abbreviation mem := (mloc -> Z).

(** An epoch far from exhaustion. *)
Definition epoch_ok (k e : Z) : Prop := Z.even e = true /\ 0 <= e <= 2 * k.

(** The operations a queue is good for, far below the 2^63 - 1 owner epochs. *)
Definition kSeqOps : Z := 1152921504606846976.

Lemma epoch_ok_even k e : epoch_ok k e -> epoch_odd e = false.
Proof. intros [He _]. by apply epoch_odd_false. Qed.

Lemma epoch_ok_next k e : 0 <= k -> epoch_ok k e -> epoch_ok (k + 1) (e + 2).
Proof. intros Hk [He Hr]. split; [by rewrite Z.even_add, He|lia]. Qed.

Lemma epoch_ok_later k e : 0 <= k -> epoch_ok k e -> epoch_ok (k + 1) e.
Proof. intros Hk [He Hr]. split; [done|lia]. Qed.

(** * A free gate *)

Definition gate_free (k : Z) (m : mem) (side : bool) : Prop :=
  m (HLock side) = ml_kFree /\ epoch_ok k (m (HOwnerEpoch side)).

(** The words of one gate. *)
Definition gate_loc (side : bool) (l : mloc) : bool :=
  match l with
  | HLock b | HOwnerEpoch b | HOwner b _ => Bool.eqb b side
  | _ => false
  end.

Section Gate.
Context (k : Z) (m : mem) (side : bool).
Hypothesis kr : 0 <= k < kSeqOps.
Hypothesis free : gate_free k m side.

Lemma seq_snapshot_gate :
  swp (snapshot_gate_owner side) (fun o m' =>
    o = mkSnapshot osk_Inactive ml_kFree zero_identity (m (HOwnerEpoch side)) /\ m' = m) m.
Proof.
  destruct free as [Hl He]. unfold snapshot_gate_owner, snapshot_owner, snapshot_owner_seq_cst.
  unfold kOwnerSnapshotRetries. cbn [snapshot_owner_loop]. simpl. rewrite Hl. simpl.
  rewrite Hl, !Z.eqb_refl. simpl. rewrite (epoch_ok_even _ _ He). destruct He as [_ He].
  bdestr (kMaxCommittedOwnerEpoch <? m (HOwnerEpoch side)); [|done].
  unfold kMaxCommittedOwnerEpoch, kSeqOps in *. mlia.
Qed.

(** Claiming: only the lock word changes. *)
Lemma seq_claim_gate h :
  swp (claim_gate h side) (fun r m' => r = Ok tt /\ m' = upd (HLock side) ml_kClaiming m) m.
Proof.
  destruct free as [Hl _]. unfold claim_gate. simpl. rewrite Hl. simpl. by rewrite Hl.
Qed.
End Gate.

(** Committing the owner of a claimed gate. *)
Lemma seq_commit_gate k m side h :
  0 <= k < kSeqOps -> epoch_ok k (m (HOwnerEpoch side)) ->
  swp (commit_claimed_gate h side) (fun r m' => r = Ok tt /\
    m' (HLock side) = ml_kOwned /\ m' (HOwnerEpoch side) = m (HOwnerEpoch side) + 2 /\
    forall l, gate_loc side l = false -> m' l = m l) m.
Proof.
  intros Hk He. unfold commit_claimed_gate, begin_owner_commit. simpl.
  rewrite (epoch_ok_even _ _ He). destruct He as [_ He].
  unfold kMaxCommittedOwnerEpoch, kSeqOps in *. rewrite (u64_small (_ - _)) by mlia.
  bdestr (UINT64_MAX - 1 <? m (HOwnerEpoch side)); [mlia|].
  bdestr (UINT64_MAX - 1 - m (HOwnerEpoch side) <? 2); [mlia|]. simpl.
  rewrite Z.eqb_refl. simpl. rewrite !u64_small by mlia.
  split; [done|]. upd_simpl. split; [done|]. split; [done|].
  intros l Hl. rewrite !upd_ne; [done|..]; intros ->; simpl in Hl; by rewrite Bool.eqb_reflx in Hl.
Qed.

Lemma seq_acquire_gate k m side h :
  0 <= k < kSeqOps -> gate_free k m side ->
  swp (acquire_gate h side) (fun r m' => r = Ok tt /\
    m' (HLock side) = ml_kOwned /\ m' (HOwnerEpoch side) = m (HOwnerEpoch side) + 2 /\
    forall l, gate_loc side l = false -> m' l = m l) m.
Proof.
  intros Hk Hf. unfold acquire_gate. eapply swp_seq; [by eapply seq_claim_gate|].
  intros r m' [-> ->]. destruct Hf as [_ He].
  assert (epoch_ok k (upd (HLock side) ml_kClaiming m (HOwnerEpoch side))) as He'
    by (by rewrite upd_ne).
  eapply swp_mono; [by apply (seq_commit_gate k)|]. intros r m' (-> & H1 & H2 & H3).
  split; [done|]. split; [done|]. rewrite upd_ne in H2 by done. split; [done|].
  intros l Hl. rewrite H3, upd_ne; [done| |done]. intros ->. simpl in Hl.
  by rewrite Bool.eqb_reflx in Hl.
Qed.

(** * The drain budget of a free dequeue gate *)

Definition budget_of (m : mem) : Z :=
  (kMaxCommittedOwnerEpoch - m (HOwnerEpoch false)) / 2.

Lemma budget_large k m :
  0 <= k < kSeqOps -> epoch_ok k (m (HOwnerEpoch false)) -> kMpmcMaxCapacity < budget_of m.
Proof.
  intros Hk [_ He]. unfold budget_of, kMaxCommittedOwnerEpoch, kMpmcMaxCapacity, kSeqOps in *.
  apply Z.lt_le_trans with (2 ^ 40); [lia|]. apply Z.div_le_lower_bound; mlia.
Qed.

Lemma seq_drain_budget k m h op :
  0 <= k < kSeqOps -> gate_free k m false ->
  swp (dequeue_drain_budget h op) (fun r m' => r = Ok (budget_of m) /\ m' = m) m.
Proof.
  intros Hk Hf. unfold dequeue_drain_budget, classify_gate_owner.
  eapply swp_seq_value; [by eapply seq_snapshot_gate|]. cbn [os_kind os_epoch].
  destruct Hf as [_ He]. rewrite (epoch_ok_even _ _ He). destruct He as [_ He].
  unfold budget_of, kMaxCommittedOwnerEpoch, kSeqOps in *.
  bdestr (UINT64_MAX - 1 <? m (HOwnerEpoch false)); [mlia|]. simpl.
  rewrite u64_small by mlia. done.
Qed.

Lemma seq_full_verdict k m h :
  0 <= k < kSeqOps -> gate_free k m false ->
  swp (full_queue_verdict h kNotUnrecoverable) (fun r m' =>
    r = Err (make_error kQueueFull op_push "queue is full") /\ m' = m) m.
Proof.
  intros Hk Hf. unfold full_queue_verdict.
  eapply swp_seq_value; [by eapply seq_drain_budget|].
  pose proof (budget_large k m Hk (proj2 Hf)). unfold kMpmcMaxCapacity in *.
  bdestr (budget_of m =? 0); [lia|done].
Qed.

(** * The messages of a segment *)

Definition pos_of (side : bool) (m : mem) : Z := m (HField (pos_field side)).

Section Queue.
Context (cap ps stride : Z).
Hypothesis cap_range : 0 < cap <= kMpmcMaxCapacity.
Hypothesis ps_range : 0 < ps <= kMpmcMaxPayloadSize.
Hypothesis stride_eq : mpmc_stride ps = Some stride.

(** [queue_body k m xs]: the positions and slots of segment [m], after at most [k]
    operations, hold the messages [xs], oldest first. *)
Record queue_body (k : Z) (m : mem) (xs : list (list Z)) : Prop := {
  qi_capacity : m (HField hf_capacity) = cap;
  qi_payload : m (HField hf_payload_size) = ps;
  qi_ready : m (HField hf_init_state) = mi_kReady;
  qi_pos : 0 <= pos_of false m /\ pos_of true m = pos_of false m + Z.of_nat (length xs) /\
           pos_of true m <= k;
  qi_bound : Z.of_nat (length xs) <= cap;
  qi_epoch : forall i, 0 <= i < cap -> epoch_ok k (m (SOwnerEpoch i));
  qi_free : forall T, pos_of true m <= T < pos_of false m + cap ->
    m (SSequence (T mod cap)) = T /\ m (SState (T mod cap)) = ms_kFree;
  qi_full : forall j x, xs !! j = Some x ->
    let T := pos_of false m + Z.of_nat j in
    m (SSequence (T mod cap)) = T + 1 /\ m (SState (T mod cap)) = ms_kReady /\
    payload_of ps m (T mod cap) = x
}.

(** [queue_is k m xs]: and nobody is inside an operation. *)
Definition queue_is (k : Z) (m : mem) (xs : list (list Z)) : Prop :=
  queue_body k m xs /\ forall side, gate_free k m side.

Lemma seq_positions m op :
  swp (snapshot_queue_positions op) (fun r m' =>
    r = Ok (pos_of true m, pos_of false m) /\ m' = m) m.
Proof.
  unfold snapshot_queue_positions, kOwnerSnapshotRetries. cbn [snapshot_queue_positions_loop].
  simpl. by rewrite !Z.eqb_refl.
Qed.

Lemma seq_slot_at h m T :
  h_slot_stride h = stride -> m (HField hf_capacity) = cap ->
  swp (slot_at h T) (fun r m' => r = Some (T mod cap) /\ m' = m) m.
Proof.
  intros Hs Hc. unfold slot_at. simpl. rewrite Hc, Hs.
  pose proof (Z.mod_pos_bound T cap ltac:(lia)) as Hm.
  assert (is_u32 (T mod cap)) by (unfold kMpmcMaxCapacity in *; mlia).
  rewrite u32_small by done. by rewrite (mpmc_slot_offset_ok _ _ ps) by (try done; lia).
Qed.

Lemma seq_payload_at h m T :
  h_slot_stride h = stride -> m (HField hf_capacity) = cap ->
  swp (payload_at h T) (fun r m' => r = Some (SPayload (T mod cap)) /\ m' = m) m.
Proof.
  intros Hs Hc. unfold payload_at. eapply swp_seq_value; [by apply seq_slot_at|]. done.
Qed.

Section Valid.
Context (k : Z) (m : mem) (xs : list (list Z)).
Hypothesis kr : 0 <= k < kSeqOps.
Hypothesis Hq : queue_body k m xs.

Lemma qi_order : 0 <= pos_of false m <= pos_of true m /\ pos_of true m <= k /\
  pos_of true m - pos_of false m = Z.of_nat (length xs) /\ Z.of_nat (length xs) <= cap.
Proof. destruct (qi_pos _ _ _ Hq) as (? & ? & ?). pose proof (qi_bound _ _ _ Hq). lia. Qed.

Lemma seq_validate_positions op :
  validate_queue_positions (pos_of true m) (pos_of false m) cap op = Ok tt.
Proof.
  destruct qi_order as (? & ? & ? & ?). unfold validate_queue_positions, kSeqOps in *.
  rewrite u64_small by mlia. bdestr (pos_of true m <? pos_of false m); [lia|].
  bdestr (cap <? pos_of true m - pos_of false m); [lia|done].
Qed.

Lemma seq_ticket_bounds side op :
  validate_ticket_bounds (pos_of side m) cap op = Ok (pos_of side m + 1, pos_of side m + cap).
Proof.
  destruct qi_order as (? & ? & ? & ?). unfold validate_ticket_bounds, kSeqOps in *.
  unfold kMpmcMaxCapacity in cap_range. assert (0 <= pos_of side m <= k) by (destruct side; lia).
  rewrite ticket_bounds_spec; [|mlia|done]. rewrite decide_True by mlia. done.
Qed.

Lemma seq_admission h op :
  gate_free k m false -> Z.of_nat (length xs) < cap ->
  swp (validate_push_drain_admission h (pos_of true m) (pos_of false m) op) (fun r m' =>
    r = Ok (pos_of true m, pos_of false m) /\ m' = m) m.
Proof.
  intros Hgate Hroom. unfold validate_push_drain_admission, kOwnerSnapshotRetries.
  generalize 3%nat as n. intros n. cbn [push_drain_admission_loop].
  cbn [bind plain_load trigger swp sev]. rewrite (qi_capacity _ _ _ Hq), seq_validate_positions.
  cbn [lift bind].
  destruct qi_order as (? & ? & ? & ?). unfold kMpmcMaxCapacity in *.
  rewrite u64_small by (unfold kSeqOps in *; mlia).
  rewrite checked_add_u64_ok by (unfold kSeqOps in *; mlia).
  eapply swp_seq_value; [by eapply seq_drain_budget|]. cbv beta iota.
  bdestr (pos_of true m - pos_of false m =? cap); [lia|].
  eapply swp_seq_value; [apply seq_positions|]. cbv beta iota. rewrite !Z.eqb_refl. simpl.
  pose proof (budget_large k m kr (proj2 Hgate)).
  unfold kMpmcMaxCapacity in *.
  bdestr (budget_of m <? pos_of true m - pos_of false m + 1); [lia|done].
Qed.
End Valid.

(** ** Publishing and consuming one slot *)

(** The words of one slot. *)
Definition slot_loc (i : Z) (l : mloc) : bool := bool_decide (mloc_slot l = Some i).

Lemma slot_loc_false i l : slot_loc i l = false -> mloc_slot l <> Some i.
Proof. unfold slot_loc. by case_bool_decide. Qed.

(** What an operation writes besides the slot. *)
Definition shared_loc (side : bool) (l : mloc) : bool :=
  bool_decide (l = HLock side) || bool_decide (l = HField (pos_field side))
  || bool_decide (l = HField hf_notify_epoch).

Lemma shared_loc_false side l :
  shared_loc side l = false ->
  l <> HLock side /\ l <> HField (pos_field side) /\ l <> HField hf_notify_epoch.
Proof. unfold shared_loc. repeat case_bool_decide; naive_solver. Qed.

(** [slot_frame]: the location of the goal is none of those written. *)
Ltac slot_frame :=
  match goal with
  | |- ?l <> _ => intros ->; simpl in *; congruence
  end.

(** The owner commit of a slot. *)
Lemma seq_begin_commit k m i r :
  0 <= k < kSeqOps -> epoch_ok k (m (SOwnerEpoch i)) -> r <= 4 ->
  swp (begin_owner_commit (SOwnerEpoch i) r) (fun res m' =>
    res = (oc_Ready, m (SOwnerEpoch i) + 2) /\
    m' = upd (SOwnerEpoch i) (m (SOwnerEpoch i) + 1) m) m.
Proof.
  intros Hk He Hr. unfold begin_owner_commit. simpl.
  rewrite (epoch_ok_even _ _ He). destruct He as [_ He].
  unfold kMaxCommittedOwnerEpoch, kSeqOps in *. rewrite (u64_small (_ - _)) by mlia.
  bdestr (UINT64_MAX - 1 <? m (SOwnerEpoch i)); [mlia|].
  bdestr (UINT64_MAX - 1 - m (SOwnerEpoch i) <? r); [mlia|]. simpl.
  rewrite Z.eqb_refl. simpl. by rewrite !u64_small by mlia.
Qed.

Lemma seq_capacity k m i r :
  0 <= k < kSeqOps -> epoch_ok k (m (SOwnerEpoch i)) -> r <= 4 ->
  swp (owner_epoch_capacity (SOwnerEpoch i) r) (fun res m' => res = oc_Ready /\ m' = m) m.
Proof.
  intros Hk He Hr. unfold owner_epoch_capacity. simpl.
  rewrite (epoch_ok_even _ _ He). destruct He as [_ He].
  unfold kMaxCommittedOwnerEpoch, kSeqOps in *. rewrite (u64_small (_ - _)) by mlia.
  bdestr (UINT64_MAX - 1 <? m (SOwnerEpoch i)); [mlia|]. simpl.
  bdestr (r <=? UINT64_MAX - 1 - m (SOwnerEpoch i)); [done|mlia].
Qed.

Lemma payload_locs_nodup i n : NoDup (map (SPayload i) (seq 0 n)).
Proof.
  apply NoDup_fmap_2; [intros ? ?; congruence|apply NoDup_seq].
Qed.

Lemma payload_loc_out i n l : mloc_slot l <> Some i -> l ∉ map (SPayload i) (seq 0 n).
Proof. intros Hl Hin. apply list_elem_of_fmap in Hin as (j & -> & _). done. Qed.

(** Storing the payload of slot [i]. *)
Lemma seq_copy_in m i bytes :
  length bytes = Z.to_nat ps ->
  swp (copy_payload_in (Some (SPayload i)) bytes ps) (fun _ m' =>
    payload_of ps m' i = bytes /\
    forall l, (forall j, l <> SPayload i j) -> m' l = m l) m.
Proof.
  intros Hlen. unfold copy_payload_in.
  eapply swp_mono; [apply swp_store_list; [apply payload_locs_nodup|]|].
  - by rewrite length_map, length_seq.
  - intros _ m' [H1 H2]. split; [by rewrite <- H1; unfold payload_of; rewrite map_map|].
    intros l Hl. apply H2. intros Hin. apply list_elem_of_fmap in Hin as (j & -> & _).
    by apply (Hl j).
Qed.

Lemma seq_copy_out m i :
  swp (copy_payload_out (Some (SPayload i)) ps) (fun r m' =>
    r = payload_of ps m i /\ m' = m) m.
Proof.
  unfold copy_payload_out. eapply swp_mono; [apply swp_load_list|].
  intros r m' [-> ->]. unfold payload_of. by rewrite map_map.
Qed.

Lemma seq_push_publish h m (e n : Z) bytes k :
  0 <= k < kSeqOps -> h_slot_stride h = stride -> m (HField hf_capacity) = cap ->
  length bytes = Z.to_nat ps ->
  let i := e mod cap in
  epoch_ok k (m (SOwnerEpoch i)) ->
  swp (push_publish h i e n bytes ps) (fun r m' => r = Ok tt /\
    m' (HLock true) = ml_kFree /\ pos_of true m' = n /\ m' (SSequence i) = n /\
    m' (SState i) = ms_kReady /\ payload_of ps m' i = bytes /\
    m' (SOwnerEpoch i) = m (SOwnerEpoch i) + 2 /\
    forall l, slot_loc i l = false -> shared_loc true l = false -> m' l = m l) m.
Proof.
  intros Hk Hs Hcap Hlen i He. unfold push_publish.
  eapply swp_seq; [by eapply seq_begin_commit|]. intros r m0 [-> ->].
  cbn -[u64 payload_at copy_payload_in release_gate notify_waiters upd].
  match goal with |- swp _ _ ?m1 => set (m1' := m1) end.
  eapply swp_seq_value; [apply seq_payload_at; [done|subst m1'; by upd_simpl]|].
  eapply swp_seq; [by apply seq_copy_in|]. intros _ m2 [Hpay Hf2].
  cbn -[upd]. intros _. split; [done|]. unfold pos_of, pos_field.
  assert (forall l v m', (forall j, l <> SPayload i j) ->
    payload_of ps (upd l v m') i = payload_of ps m' i) as Hup.
  { intros l v m' Hl. unfold payload_of. apply map_ext. intros j. by rewrite upd_ne. }
  upd_simpl. do 4 (split; [done|]). rewrite !Hup by done. split; [done|].
  rewrite Hf2 by done. subst m1'. upd_simpl. split; [done|].
  intros l Hl Hsh. apply slot_loc_false in Hl. apply shared_loc_false in Hsh as (? & ? & ?).
  rewrite !upd_ne by (done || slot_frame). rewrite Hf2 by (intros j ->; done).
  rewrite !upd_ne by (done || slot_frame). done.
Qed.

Lemma seq_pop_consume h m (d n q : Z) k :
  0 <= k < kSeqOps -> h_slot_stride h = stride -> m (HField hf_capacity) = cap ->
  let i := d mod cap in
  epoch_ok k (m (SOwnerEpoch i)) ->
  swp (pop_consume h i d n q ps) (fun r m' => r = Ok (payload_of ps m i) /\
    m' (HLock false) = ml_kFree /\ pos_of false m' = n /\ m' (SSequence i) = q /\
    m' (SState i) = ms_kFree /\ m' (SOwnerEpoch i) = m (SOwnerEpoch i) + 2 /\
    forall l, slot_loc i l = false -> shared_loc false l = false -> m' l = m l) m.
Proof.
  intros Hk Hs Hcap i He. unfold pop_consume.
  eapply swp_seq; [by eapply seq_begin_commit|]. intros r m0 [-> ->].
  cbn -[u64 payload_at copy_payload_out release_gate notify_waiters upd].
  match goal with |- swp _ _ ?m1 => set (m1' := m1) end.
  eapply swp_seq_value; [apply seq_payload_at; [done|subst m1'; by upd_simpl]|].
  eapply swp_seq_value; [apply seq_copy_out|].
  cbn -[upd]. intros _. unfold pos_of, pos_field. fold i.
  assert (payload_of ps m1' i = payload_of ps m i) as ->
    by (subst m1'; unfold payload_of; apply map_ext; intros j; by upd_simpl).
  upd_simpl. do 5 (split; [done|]). subst m1'. upd_simpl. split; [done|].
  intros l Hl Hsh. apply slot_loc_false in Hl. apply shared_loc_false in Hsh as (? & ? & ?).
  rewrite !upd_ne by (done || slot_frame). done.
Qed.

(** ** Frames *)

Lemma payload_of_ext m m' i :
  (forall j, m' (SPayload i j) = m (SPayload i j)) -> payload_of ps m' i = payload_of ps m i.
Proof. intros H. unfold payload_of. apply map_ext. auto. Qed.

(** Only a gate changes. *)
Lemma body_gate k m m' xs side :
  queue_body k m xs -> (forall l, gate_loc side l = false -> m' l = m l) -> queue_body k m' xs.
Proof.
  intros [Hc Hp Hr Hpos Hb He Hf Hx] Hm. unfold pos_of in *.
  split; unfold pos_of; rewrite ?Hm by done; try done.
  - intros i Hi. rewrite Hm by done. auto.
  - intros T HT. rewrite !Hm by done. auto.
  - intros j x Hj. simpl. rewrite !Hm by done. destruct (Hx j x Hj) as (H1 & H2 & H3).
    rewrite (payload_of_ext m) by (intros; by apply Hm). auto.
Qed.

Lemma body_later k m xs : 0 <= k -> queue_body k m xs -> queue_body (k + 1) m xs.
Proof.
  intros Hk [Hc Hp Hr Hpos Hb He Hf Hx]. split; try done; [lia|].
  intros i Hi. by apply epoch_ok_later; auto.
Qed.

(** Tickets of one window have different slots. *)
Lemma window_slot d T1 T2 :
  d <= T1 < d + cap -> d <= T2 < d + cap -> T1 <> T2 -> T1 mod cap <> T2 mod cap.
Proof. intros H1 H2 Hne Heq. apply Hne. apply (ring_slot_inj cap); lia. Qed.

(** What stays of the slots an operation does not work on. *)
Lemma other_slot m m' side i i' :
  (forall l, slot_loc i l = false -> shared_loc side l = false -> m' l = m l) -> i' <> i ->
  m' (SSequence i') = m (SSequence i') /\ m' (SState i') = m (SState i') /\
  m' (SOwnerEpoch i') = m (SOwnerEpoch i') /\ payload_of ps m' i' = payload_of ps m i'.
Proof.
  intros Hm Hne.
  assert (forall l, mloc_slot l = Some i' -> m' l = m l) as H.
  { intros l Hl. apply Hm.
    - unfold slot_loc. apply bool_decide_eq_false. rewrite Hl. congruence.
    - unfold shared_loc. repeat case_bool_decide; subst; try done. }
  rewrite !H by done. repeat split. apply payload_of_ext. intros j. by apply H.
Qed.

Lemma body_push k m m' xs bytes :
  0 <= k -> queue_body k m xs -> Z.of_nat (length xs) < cap ->
  let e := pos_of true m in let i := e mod cap in
  pos_of true m' = e + 1 -> m' (SSequence i) = e + 1 -> m' (SState i) = ms_kReady ->
  payload_of ps m' i = bytes -> m' (SOwnerEpoch i) = m (SOwnerEpoch i) + 2 ->
  (forall l, slot_loc i l = false -> shared_loc true l = false -> m' l = m l) ->
  queue_body (k + 1) m' (xs ++ [bytes]).
Proof.
  intros Hk Hq Hroom e i Hpos' Hseq Hst Hpay Hep Hm.
  destruct (qi_order _ _ _ Hq) as (Ho1 & Ho2 & Ho3 & Ho4). fold e in Ho1, Ho2, Ho3.
  pose proof Hq as [Hc Hp Hr _ Hb He Hf Hx].
  assert (pos_of false m' = pos_of false m) as Hd by (unfold pos_of; by apply Hm).
  split; rewrite ?length_app, ?Hpos', ?Hd; simpl; try lia; try (by rewrite Hm).
  - intros i' Hi'. destruct (decide (i' = i)) as [->|Hne].
    + rewrite Hep. apply epoch_ok_next; auto.
    + destruct (other_slot _ _ _ _ _ Hm Hne) as (_ & _ & -> & _). apply epoch_ok_later; auto.
  - intros T HT. destruct (other_slot _ _ _ _ (T mod cap) Hm) as (-> & -> & _ & _).
    { apply (window_slot (pos_of false m)); lia. }
    apply Hf. fold e. lia.
  - intros j x Hj. apply lookup_app_Some in Hj as [Hj|[Hj Hj']].
    + pose proof (lookup_lt_Some _ _ _ Hj).
      destruct (other_slot _ _ _ _ ((pos_of false m + Z.of_nat j) mod cap) Hm)
        as (-> & -> & _ & ->); [apply (window_slot (pos_of false m)); lia|]. by apply Hx.
    + apply list_lookup_singleton_Some in Hj' as [Hj' <-].
      replace (pos_of false m + Z.of_nat j) with e by lia. fold i. auto.
Qed.

Lemma body_pop k m m' x xs :
  0 <= k -> queue_body k m (x :: xs) ->
  let d := pos_of false m in let i := d mod cap in
  pos_of false m' = d + 1 -> m' (SSequence i) = d + cap -> m' (SState i) = ms_kFree ->
  m' (SOwnerEpoch i) = m (SOwnerEpoch i) + 2 ->
  (forall l, slot_loc i l = false -> shared_loc false l = false -> m' l = m l) ->
  queue_body (k + 1) m' xs.
Proof.
  intros Hk Hq d i Hpos' Hseq Hst Hep Hm.
  destruct (qi_order _ _ _ Hq) as (Ho1 & Ho2 & Ho3 & Ho4). fold d in Ho1, Ho3.
  pose proof Hq as [Hc Hp Hr _ Hb He Hf Hx]. simpl in Ho3, Ho4.
  assert (pos_of true m' = pos_of true m) as Hd by (unfold pos_of; by apply Hm).
  split; rewrite ?Hpos', ?Hd; simpl; try lia; try (by rewrite Hm).
  - intros i' Hi'. destruct (decide (i' = i)) as [->|Hne].
    + rewrite Hep. apply epoch_ok_next; auto.
    + destruct (other_slot _ _ _ _ _ Hm Hne) as (_ & _ & -> & _). apply epoch_ok_later; auto.
  - intros T HT. destruct (decide (T = d + cap)) as [->|Hne].
    + rewrite ring_slot_next_lap by lia. fold i. auto.
    + destruct (other_slot _ _ _ _ (T mod cap) Hm) as (-> & -> & _ & _).
      { apply (window_slot d); lia. }
      apply Hf. fold d. lia.
  - intros j y Hj. pose proof (lookup_lt_Some _ _ _ Hj).
    replace (d + 1 + Z.of_nat j) with (d + Z.of_nat (S j)) by lia.
    destruct (other_slot _ _ _ _ ((d + Z.of_nat (S j)) mod cap) Hm)
      as (-> & -> & _ & ->); [apply (window_slot d); lia|]. by apply (Hx (S j)).
Qed.

(** * The operations *)

(** A bounded first-in first-out list. *)
Definition spec_push (xs : list (list Z)) (x : list Z) : Result unit * list (list Z) :=
  if Z.of_nat (length xs) <? cap then (Ok tt, xs ++ [x])
  else (Err (make_error kQueueFull op_push "queue is full"), xs).

Definition spec_pop (xs : list (list Z)) : Result (list Z) * list (list Z) :=
  match xs with
  | [] => (Err (make_error kQueueEmpty op_pop "queue is empty"), [])
  | x :: xs' => (Ok x, xs')
  end.

(** The queue of a live handle of this shape. *)
Definition handle_ok (h : MpmcQueueHandle) : Prop :=
  h_slot_stride h = stride /\ h_removed h = false.

Lemma gate_later k m side : 0 <= k -> gate_free k m side -> gate_free (k + 1) m side.
Proof. intros Hk [Hl He]. split; [done|by apply epoch_ok_later]. Qed.

Lemma is_later k m xs : 0 <= k -> queue_is k m xs -> queue_is (k + 1) m xs.
Proof.
  intros Hk [Hq Hg]. split; [by apply body_later|]. intros side. by apply gate_later.
Qed.

(** The enqueue gate is held and the queue has room. *)
Lemma seq_push_locked k m xs h bytes :
  0 <= k < kSeqOps -> queue_body k m xs -> gate_free k m false ->
  epoch_ok (k + 1) (m (HOwnerEpoch true)) -> handle_ok h ->
  length bytes = Z.to_nat ps -> Z.of_nat (length xs) < cap ->
  swp (push_locked h cap bytes ps) (fun r m' =>
    r = Ok tt /\ queue_is (k + 1) m' (xs ++ [bytes])) m.
Proof.
  intros Hk Hq Hd Hep [Hs Hrem] Hlen Hroom. unfold push_locked.
  eapply swp_seq_value; [apply seq_positions|]. cbn [or_release].
  rewrite (seq_validate_positions k m xs) by done. cbn [or_release].
  rewrite (seq_ticket_bounds k m xs) by done. cbn [or_release].
  destruct (qi_order _ _ _ Hq) as (? & ? & ? & ?). unfold kSeqOps in Hk.
  rewrite u64_small by (unfold kMpmcMaxCapacity in *; mlia).
  bdestr (pos_of true m - pos_of false m =? cap); [lia|].
  eapply swp_seq_value; [by apply (seq_admission k m xs)|]. cbn [or_release].
  unfold push_slot. set (e := pos_of true m). set (i := e mod cap).
  eapply swp_seq_value; [apply seq_slot_at; [done|apply Hq]|]. fold e i.
  destruct (qi_free _ _ _ Hq e) as [Hseq Hst]; [unfold e; lia|]. fold i in Hseq, Hst.
  assert (epoch_ok k (m (SOwnerEpoch i))) as Hsl.
  { apply (qi_epoch _ _ _ Hq). apply Z.mod_pos_bound. lia. }
  eapply (swp_seq_value _ _ false).
  { simpl. rewrite Hseq, Z.eqb_refl. simpl. by rewrite Hst. }
  eapply swp_seq_value; [by eapply seq_capacity|]. simpl negb. cbv iota.
  cbn [bind shared_cas_seq_cst trigger swp sev]. rewrite Hst, Z.eqb_refl. cbn [negb].
  set (m1 := upd (SState i) ms_kEnqueueClaiming m).
  eapply swp_mono; [eapply (seq_push_publish h m1 e (e + 1) bytes k); try done|].
  { subst m1. rewrite upd_ne by done. apply Hq. }
  intros r m' (-> & Hlock & Hpos & Hseq' & Hst' & Hpay & Hep' & Hm). split; [done|].
  subst m1. fold i in Hseq', Hst', Hpay, Hep', Hm. rewrite upd_ne in Hep' by done.
  assert (forall l, slot_loc i l = false -> shared_loc true l = false -> m' l = m l) as Hm'.
  { intros l Hl Hsh. rewrite Hm by done. apply upd_ne. intros ->. unfold slot_loc in Hl.
    by rewrite bool_decide_eq_false in Hl. }
  split; [apply (body_push k m); (lia || done)|]. intros [].
  - split; [done|]. by rewrite Hm'.
  - apply gate_later in Hd; [|lia]. destruct Hd. split; by rewrite Hm'.
Qed.

(** A call on a live handle reaches the queue. *)
Lemma seq_live k m xs h op :
  queue_body k m xs -> handle_ok h ->
  swp (validate_live_handle (Some h) op) (fun r m' => r = Ok h /\ m' = m) m.
Proof.
  intros Hq [_ Hrem]. unfold validate_live_handle. rewrite Hrem. simpl.
  by rewrite (qi_ready _ _ _ Hq), Z.eqb_refl.
Qed.

Lemma seq_push_full k m h :
  0 <= k < kSeqOps -> (forall side, gate_free k m side) ->
  swp (push_full_unlocked h) (fun r m' =>
    r = Err (make_error kQueueFull op_push "queue is full") /\ m' = m) m.
Proof.
  intros Hk Hg. unfold push_full_unlocked. cbn [bind shared_load_seq_cst trigger swp sev].
  destruct (Hg true) as [-> _]. rewrite Z.eqb_refl. cbn [negb].
  unfold classify_gate_owner. eapply swp_seq_value; [by eapply seq_snapshot_gate|].
  cbn [owner_observation_is_unrecoverable os_kind bind]. by eapply seq_full_verdict.
Qed.

Lemma seq_try_push k m xs h bytes :
  0 <= k < kSeqOps -> queue_is k m xs -> handle_ok h -> length bytes = Z.to_nat ps ->
  swp (mpmc_try_push_impl (Some h) (Some bytes) ps) (fun r m' =>
    exists xs', spec_push xs bytes = (r, xs') /\ queue_is (k + 1) m' xs') m.
Proof.
  intros Hk Hqi Hh Hlen. pose proof Hqi as [Hq Hg]. unfold mpmc_try_push_impl.
  eapply swp_seq_value; [by eapply seq_live|]. cbv beta iota.
  cbn [bind plain_load trigger swp sev].
  rewrite (qi_payload _ _ _ Hq), Z.eqb_refl. cbn [negb bind plain_load trigger swp sev].
  rewrite (qi_capacity _ _ _ Hq).
  eapply swp_seq_value; [apply seq_positions|]. cbv beta iota.
  rewrite (seq_validate_positions k m xs) by done. cbn [bind lift].
  rewrite (seq_ticket_bounds k m xs) by done. cbn [bind lift].
  destruct (qi_order _ _ _ Hq) as (? & ? & ? & ?). unfold spec_push.
  rewrite u64_small by (unfold kSeqOps, kMpmcMaxCapacity in *; mlia).
  bdestr (pos_of true m - pos_of false m =? cap).
  { bdestr (Z.of_nat (length xs) <? cap); [lia|].
    eapply swp_mono; [by eapply seq_push_full|]. intros r m' [-> ->]. eexists.
    split; [done|]. apply is_later; [lia|done]. }
  bdestr (Z.of_nat (length xs) <? cap); [|lia].
  eapply swp_seq_value; [by apply (seq_admission k m xs)|]. cbv beta iota.
  eapply swp_seq; [by eapply seq_acquire_gate|]. intros r m1 (-> & Hl1 & He1 & Hm1).
  cbv beta iota. eapply swp_mono; [apply (seq_push_locked k m1 xs); try done|].
  - by eapply body_gate.
  - destruct (Hg false). split; by rewrite Hm1.
  - rewrite He1. apply epoch_ok_next; [lia|apply Hg].
  - intros r m' [-> Hq']. eauto.
Qed.

Lemma seq_pop_empty k m h :
  0 <= k < kSeqOps -> (forall side, gate_free k m side) ->
  swp (pop_empty_unlocked h) (fun r m' =>
    r = Err (make_error kQueueEmpty op_pop "queue is empty") /\ m' = m) m.
Proof.
  intros Hk Hg. unfold pop_empty_unlocked. cbn [bind shared_load_seq_cst trigger swp sev].
  destruct (Hg false) as [-> _]. rewrite Z.eqb_refl. cbn [negb].
  unfold classify_gate_owner. eapply swp_seq_value; [by eapply seq_snapshot_gate|].
  cbn [owner_observation_is_unrecoverable os_kind bind]. done.
Qed.

(** The dequeue gate is claimed and the queue is not empty. *)
Lemma seq_pop_claimed k m x xs h :
  0 <= k < kSeqOps -> queue_body k m (x :: xs) -> gate_free k m true ->
  epoch_ok k (m (HOwnerEpoch false)) -> handle_ok h ->
  swp (pop_claimed h cap ps) (fun r m' => r = Ok x /\ queue_is (k + 1) m' xs) m.
Proof.
  intros Hk Hq Hd Hep [Hs Hrem]. unfold pop_claimed.
  eapply swp_seq_value; [apply seq_positions|]. cbn [or_release].
  rewrite (seq_validate_positions k m (x :: xs)) by done. cbn [or_release].
  rewrite (seq_ticket_bounds k m (x :: xs)) by done. cbn [or_release].
  destruct (qi_order _ _ _ Hq) as (? & ? & ? & ?). simpl in *.
  bdestr (pos_of false m =? pos_of true m); [lia|]. set (d := pos_of false m) in *.
  eapply swp_seq; [by eapply seq_commit_gate|]. intros r m1 (-> & Hl1 & He1 & Hm1).
  cbv beta iota. pose proof (body_gate _ _ _ _ _ Hq Hm1) as Hq1.
  assert (pos_of false m1 = d) as Hd1 by (unfold pos_of; by rewrite Hm1).
  unfold pop_slot. set (i := d mod cap).
  eapply swp_seq_value; [apply seq_slot_at; [done|apply Hq1]|]. fold i.
  destruct (qi_full _ _ _ Hq1 0%nat x) as (Hseq & Hst & Hpay); [done|].
  rewrite Hd1, Z.add_0_r in Hseq, Hst, Hpay. fold i in Hseq, Hst, Hpay.
  assert (epoch_ok k (m1 (SOwnerEpoch i))) as Hsl.
  { apply (qi_epoch _ _ _ Hq1). apply Z.mod_pos_bound. lia. }
  eapply (swp_seq_value _ _ false).
  { simpl. rewrite Hseq, Z.eqb_refl. simpl. by rewrite Hst. }
  eapply swp_seq_value; [by eapply seq_capacity|]. simpl negb. cbv iota.
  cbn [bind shared_cas_seq_cst trigger swp sev]. rewrite Hst, Z.eqb_refl. cbn [negb].
  set (m2 := upd (SState i) ms_kDequeueClaiming m1).
  eapply swp_mono; [eapply (seq_pop_consume h m2 d (d + 1) (d + cap) k); try done|].
  { subst m2. rewrite upd_ne by done. apply Hq1. }
  intros r m' (-> & Hlock & Hpos & Hseq' & Hst' & Hep' & Hm). fold i in Hseq', Hst', Hep', Hm.
  subst m2. rewrite upd_ne in Hep' by done.
  assert (forall l, slot_loc i l = false -> shared_loc false l = false -> m' l = m1 l) as Hm'.
  { intros l Hl Hsh. rewrite Hm by done. apply upd_ne. intros ->. unfold slot_loc in Hl.
    by rewrite bool_decide_eq_false in Hl. }
  split; [f_equal; rewrite <- Hpay; apply payload_of_ext; intros j; by rewrite upd_ne|].
  split; [apply (body_pop k m1 m' x); rewrite ?Hd1; (lia || done)|]. intros [].
  - destruct Hd. apply gate_later; [lia|]. split; rewrite Hm', Hm1; done.
  - split; [done|]. rewrite Hm' by done. rewrite He1. apply epoch_ok_next; [lia|done].
Qed.

Lemma seq_try_pop k m xs h :
  0 <= k < kSeqOps -> queue_is k m xs -> handle_ok h ->
  swp (mpmc_try_pop_impl (Some h) false ps) (fun r m' =>
    exists xs', spec_pop xs = (r, xs') /\ queue_is (k + 1) m' xs') m.
Proof.
  intros Hk Hqi Hh. pose proof Hqi as [Hq Hg]. unfold mpmc_try_pop_impl.
  eapply swp_seq_value; [by eapply seq_live|]. cbv beta iota.
  cbn [bind plain_load trigger swp sev].
  rewrite (qi_payload _ _ _ Hq), Z.eqb_refl. cbn [negb bind plain_load trigger swp sev].
  rewrite (qi_capacity _ _ _ Hq).
  eapply swp_seq_value; [apply seq_positions|]. cbv beta iota.
  rewrite (seq_validate_positions k m xs) by done. cbn [bind lift].
  rewrite (seq_ticket_bounds k m xs) by done. cbn [bind lift].
  destruct (qi_order _ _ _ Hq) as (? & ? & ? & ?).
  bdestr (pos_of false m =? pos_of true m).
  { destruct xs as [|x xs]; [|simpl in *; lia].
    eapply swp_mono; [by eapply seq_pop_empty|]. intros r m' [-> ->]. eexists.
    split; [done|]. apply is_later; [lia|done]. }
  destruct xs as [|x xs]; [simpl in *; lia|].
  eapply swp_seq_value; [by eapply seq_drain_budget|]. cbv beta iota.
  pose proof (budget_large k m Hk (proj2 (Hg false))). unfold kMpmcMaxCapacity in *.
  bdestr (budget_of m =? 0); [lia|].
  eapply swp_seq; [by eapply seq_claim_gate|]. intros r m1 [-> ->]. cbv beta iota.
  eapply swp_mono; [apply (seq_pop_claimed k _ x xs); try done|].
  - eapply (body_gate _ _ _ _ false Hq). intros l Hl. apply upd_ne. intros ->. by simpl in Hl.
  - destruct (Hg true). split; by rewrite upd_ne.
  - rewrite upd_ne by done. apply Hg.
  - intros r m' [-> Hq']. eauto.
Qed.
End Queue.

(** * Any sequence of calls *)

Inductive queue_call : Type := CallPush (bytes : list Z) | CallPop.
Inductive queue_answer : Type :=
| AnsPush (r : Result unit)
| AnsPop (r : Result (list Z)).

Definition call_impl (h : MpmcQueueHandle) (ps : Z) (c : queue_call) : mprog queue_answer :=
  match c with
  | CallPush bytes =>
      let! r := mpmc_try_push_impl (Some h) (Some bytes) ps in Ret (AnsPush r)
  | CallPop => let! r := mpmc_try_pop_impl (Some h) false ps in Ret (AnsPop r)
  end.

Fixpoint calls_impl (h : MpmcQueueHandle) (ps : Z) (cs : list queue_call)
    : mprog (list queue_answer) :=
  match cs with
  | [] => Ret []
  | c :: cs' =>
      let! a := call_impl h ps c in
      let! answers := calls_impl h ps cs' in
      Ret (a :: answers)
  end.

Definition call_spec (cap : Z) (xs : list (list Z)) (c : queue_call)
    : queue_answer * list (list Z) :=
  match c with
  | CallPush bytes => let '(r, xs') := spec_push cap xs bytes in (AnsPush r, xs')
  | CallPop => let '(r, xs') := spec_pop xs in (AnsPop r, xs')
  end.

Fixpoint calls_spec (cap : Z) (xs : list (list Z)) (cs : list queue_call)
    : list queue_answer * list (list Z) :=
  match cs with
  | [] => ([], xs)
  | c :: cs' =>
      let '(a, xs1) := call_spec cap xs c in
      let '(answers, xs') := calls_spec cap xs1 cs' in
      (a :: answers, xs')
  end.

(** Messages of the element type. *)
Definition call_sized (ps : Z) (c : queue_call) : Prop :=
  match c with CallPush bytes => length bytes = Z.to_nat ps | CallPop => True end.

Section Calls.
Context (cap ps stride : Z) (h : MpmcQueueHandle).
Hypothesis cap_range : 0 < cap <= kMpmcMaxCapacity.
Hypothesis ps_range : 0 < ps <= kMpmcMaxPayloadSize.
Hypothesis stride_eq : mpmc_stride ps = Some stride.
Hypothesis h_ok : handle_ok stride h.

Lemma seq_call k m xs c :
  0 <= k < kSeqOps -> queue_is cap ps k m xs -> call_sized ps c ->
  swp (call_impl h ps c) (fun a m' =>
    exists xs', call_spec cap xs c = (a, xs') /\ queue_is cap ps (k + 1) m' xs') m.
Proof.
  intros Hk Hq Hc. destruct c as [bytes|]; simpl in Hc |- *.
  - eapply swp_seq; [by eapply (seq_try_push cap ps stride)|].
    intros r m' (xs' & -> & Hq'). simpl. eauto.
  - eapply swp_seq; [by eapply (seq_try_pop cap ps stride)|].
    intros r m' (xs' & -> & Hq'). simpl. eauto.
Qed.

Lemma seq_calls k m xs cs :
  0 <= k -> k + Z.of_nat (length cs) <= kSeqOps -> queue_is cap ps k m xs ->
  Forall (call_sized ps) cs ->
  swp (calls_impl h ps cs) (fun answers m' =>
    exists xs', calls_spec cap xs cs = (answers, xs') /\
                queue_is cap ps (k + Z.of_nat (length cs)) m' xs') m.
Proof.
  revert k m xs. induction cs as [|c cs IH]; intros k m xs Hk Hb Hq Hc.
  { simpl. exists xs. by rewrite Z.add_0_r. }
  apply Forall_cons in Hc as [Hc Hcs]. cbn [length] in Hb. cbn [calls_impl calls_spec].
  eapply swp_seq; [eapply (seq_call k m xs c); [lia|done|done]|].
  intros a m1 (xs1 & -> & Hq1).
  eapply swp_seq; [eapply (IH (k + 1) m1 xs1); [lia|lia|done|done]|].
  intros answers m2 (xs2 & -> & Hq2). cbn [swp length]. exists xs2. split; [done|].
  replace (k + Z.of_nat (S (length cs))) with (k + 1 + Z.of_nat (length cs)) by lia. done.
Qed.
End Calls.

(** C9: used by one thread at a time, the queue is a bounded first-in first-out
    list. For every sequence of pushes and pops on a segment that holds the
    messages [xs], under every behaviour of the operating system, the calls
    return exactly what the list returns - success with the oldest message,
    [kQueueFull] or [kQueueEmpty] - and leave a segment that holds what the list
    holds. The bound of [2^60] calls keeps the owner epochs away from their end. *)
Theorem mpmc_sequential_refinement cap ps stride h OS (os : os_model OS) o m xs cs :
  0 < cap <= kMpmcMaxCapacity -> 0 < ps <= kMpmcMaxPayloadSize ->
  mpmc_stride ps = Some stride -> handle_ok stride h -> queue_is cap ps 0 m xs ->
  Forall (call_sized ps) cs -> Z.of_nat (length cs) <= kSeqOps ->
  let '(answers, w) := run os (calls_impl h ps cs) (mkWorld m o) in
  answers = (calls_spec cap xs cs).1 /\
  queue_is cap ps (Z.of_nat (length cs)) (w_mem w) (calls_spec cap xs cs).2.
Proof.
  intros Hc Hp Hs Hh Hq Hcs Hb.
  pose proof (swp_run os (calls_impl h ps cs) _ m o
    (seq_calls cap ps stride h Hc Hp Hs Hh 0 m xs cs ltac:(lia) Hb Hq Hcs)) as H.
  destruct (run os _ _) as [answers w]. destruct H as (xs' & Hspec & Hq'). by rewrite Hspec.
Qed.

(** A queue of two one-byte slots. *)
Module SeqDemo.
Definition handle : MpmcQueueHandle :=
  mkHandle (mkShmObject "/edgeruntime.mpmc.1000.q" 3 1 1 576) "/edgeruntime.mpmc.1000.q"
    (mkIdentity 100 7 5 9) 128 true false.
Definition memory (l : mloc) : Z :=
  match l with
  | HField hf_capacity => 2
  | HField hf_payload_size => 1
  | HField hf_init_state => mi_kReady
  | SSequence i => i
  | _ => 0
  end.
Definition os : os_model unit := fun X c _ => (sys_default c, tt).
Definition calls : list queue_call :=
  [CallPop; CallPush [7]; CallPush [8]; CallPush [9]; CallPop; CallPush [10]; CallPop; CallPop].

Lemma empty : queue_is 2 1 0 memory [].
Proof.
  split; [|by intros []]. split; try done.
  intros T HT. simpl in *. unfold pos_of in HT. simpl in HT. rewrite Z.mod_small by lia. done.
Qed.
End SeqDemo.

Lemma mpmc_sequential_refinement_witness :
  (calls_spec 2 [] SeqDemo.calls).1 =
    [AnsPop (Err (make_error kQueueEmpty op_pop "queue is empty"));
     AnsPush (Ok tt); AnsPush (Ok tt);
     AnsPush (Err (make_error kQueueFull op_push "queue is full"));
     AnsPop (Ok [7]); AnsPush (Ok tt); AnsPop (Ok [8]); AnsPop (Ok [10])] /\
  let '(answers, w) := run SeqDemo.os (calls_impl SeqDemo.handle 1 SeqDemo.calls)
                         (mkWorld SeqDemo.memory tt) in
  answers = (calls_spec 2 [] SeqDemo.calls).1 /\
  queue_is 2 1 (Z.of_nat (length SeqDemo.calls)) (w_mem w) (calls_spec 2 [] SeqDemo.calls).2.
Proof.
  split; [reflexivity|].
  apply (mpmc_sequential_refinement 2 1 128 SeqDemo.handle unit SeqDemo.os tt SeqDemo.memory []
           SeqDemo.calls).
  - unfold kMpmcMaxCapacity. lia.
  - unfold kMpmcMaxPayloadSize. lia.
  - reflexivity.
  - split; reflexivity.
  - exact SeqDemo.empty.
  - repeat constructor.
  - unfold kSeqOps. simpl. lia.
Defined.
