(* ===== verification/MpmcClient.v ===== *)
(** The queue seen by its users: any number of threads, in any number of
    processes, that push, pop, wait and ask for the status of one queue.

    The theorems say that the successful operations of all threads together
    behave like one first-in first-out list of bounded length: every message is
    delivered at most once, unchanged and in order, also when threads or
    processes stop in the middle of an operation. *)
From S2P Require Import Prelude Errors CheckedMath Prog Concur ProcIdentity OwnerSnapshot.
From S2P Require Import ChannelLayout MpmcLayout MpmcQueue MpmcApi MpmcProtocol MpmcSafety MpmcSnapshot.

Lemma fill_status_owner_readonly h side : readonly (fill_status_owner h side).
Proof. unfold fill_status_owner. solve_readonly. Qed.
#[global] Hint Resolve fill_status_owner_readonly : prog_db.

Lemma mpmc_status_readonly h : readonly (mpmc_status_impl h).
Proof. unfold mpmc_status_impl. solve_readonly. Qed.
#[global] Hint Resolve mpmc_status_readonly : prog_db.

Lemma deadline_has_time_readonly d : readonly (deadline_has_time d).
Proof. unfold deadline_has_time. solve_readonly. Qed.
Lemma wait_on_notify_epoch_readonly d e : readonly (wait_on_notify_epoch d e).
Proof. unfold wait_on_notify_epoch, remaining_wait_ns. solve_readonly. Qed.
Lemma pop_budget_exhausted_readonly h c : readonly (pop_budget_exhausted h c).
Proof. unfold pop_budget_exhausted. solve_readonly. Qed.
#[global] Hint Resolve deadline_has_time_readonly wait_on_notify_epoch_readonly
  pop_budget_exhausted_readonly : prog_db.

(** * Users *)

(** The bytes of a value of the queue's element type. *)
Definition message (ps : Z) : Type := { bytes : list Z | length bytes = Z.to_nat ps }.

Inductive mpmc_op (ps : Z) : Type :=
| OpPush (m : message ps)
| OpPop
| OpWaitPush (fuel : nat) (m : message ps) (deadline : Z)
| OpWaitPop (fuel : nat) (deadline : Z)
| OpStatus
| OpGateOwner (enqueue : bool)
| OpPositions.
Arguments OpPush {ps} m.
Arguments OpPop {ps}.
Arguments OpWaitPush {ps} fuel m deadline.
Arguments OpWaitPop {ps} fuel deadline.
Arguments OpStatus {ps}.
Arguments OpGateOwner {ps} enqueue.
Arguments OpPositions {ps}.

Inductive mpmc_res : Type :=
| ResPush (r : option (Result unit))
| ResPop (r : option (Result (list Z)))
| ResStatus (r : Result MpmcQueueStatus)
| ResOwner (r : OwnerSnapshot)
| ResPositions (r : Result (Z * Z)).

(** The member functions of [MpmcQueue<T>] as thread [t] calls them on its
    handle, and the two internal readers all of them rely on. *)
Definition mpmc_impl (ps : Z) (hdl : tid -> MpmcQueueHandle) (t : tid) (op : mpmc_op ps)
    : mprog mpmc_res :=
  match op with
  | OpPush m => let! r := mpmc_try_push_impl (Some (hdl t)) (Some (`m)) ps in
                Ret (ResPush (Some r))
  | OpPop => let! r := mpmc_try_pop_impl (Some (hdl t)) false ps in Ret (ResPop (Some r))
  | OpWaitPush fuel m deadline =>
      let! r := mpmc_wait_push_until_impl fuel (Some (hdl t)) (Some (`m)) ps deadline in
      Ret (ResPush r)
  | OpWaitPop fuel deadline =>
      let! r := mpmc_wait_pop_until_impl fuel (Some (hdl t)) false ps deadline in
      Ret (ResPop r)
  | OpStatus => let! r := mpmc_status_impl (Some (hdl t)) in Ret (ResStatus r)
  | OpGateOwner enqueue => let! r := snapshot_gate_owner enqueue in Ret (ResOwner r)
  | OpPositions => let! r := snapshot_queue_positions "" in Ret (ResPositions r)
  end.

(** The message a call put into the queue, and the message it took out. *)
Definition call_pushed {ps} (c : mpmc_op ps * mpmc_res) : list (list Z) :=
  match c with
  | (OpPush m, ResPush (Some (Ok _))) | (OpWaitPush _ m _, ResPush (Some (Ok _))) => [`m]
  | _ => []
  end.
Definition call_popped {ps} (c : mpmc_op ps * mpmc_res) : list (list Z) :=
  match c with
  | (OpPop, ResPop (Some (Ok bytes))) | (OpWaitPop _ _, ResPop (Some (Ok bytes))) => [bytes]
  | _ => []
  end.

Definition pushes_of {ps} (h : list (mpmc_op ps * mpmc_res)) : list (list Z) :=
  concat (map call_pushed h).
Definition pops_of {ps} (h : list (mpmc_op ps * mpmc_res)) : list (list Z) :=
  concat (map call_popped h).

(** The memory of a queue that was just created. *)
Record fresh_queue (cap ps : Z) (m : mloc -> Z) : Prop := {
  fq_capacity : m (HField hf_capacity) = cap;
  fq_payload : m (HField hf_payload_size) = ps;
  fq_ready : m (HField hf_init_state) = mi_kReady;
  fq_pos : forall side, m (HField (pos_field side)) = 0;
  fq_lock : forall side, m (HLock side) = ml_kFree;
  fq_epoch : forall side, m (HOwnerEpoch side) = 0;
  fq_owner : forall side f, m (HOwner side f) = 0;
  fq_seq : forall i, 0 <= i < cap -> m (SSequence i) = i;
  fq_state : forall i, 0 <= i < cap -> m (SState i) = ms_kFree
}.

Definition ghost0 : mghost :=
  mkGhost (fun _ => None) (fun _ => false) [] [] (fun _ _ => None).

Lemma fresh_inv cap ps ident m :
  0 < cap <= kMpmcMaxCapacity -> fresh_queue cap ps m -> minv cap ps ident (mkCst m ghost0).
Proof.
  intros Hc [Hcap Hps Hr Hp Hl He Ho Hs Hst].
  assert (forall side, pos side (mkCst m ghost0) = 0) as Hpos by apply Hp.
  split; rewrite ?Hpos; try done; try lia.
  - intros T HT. right; right. unfold slot_ok. rewrite Hpos, decide_False by lia. simpl.
    rewrite Z.mod_small by lia. rewrite Hs, Hst by lia. auto.
  - intros side. unfold gate_inv. simpl. rewrite Hl. auto.
  - intros side. unfold owner_inv, epoch. simpl. rewrite He. split; [lia|split; [done|]].
    intros _. left. auto.
Qed.

Section Client.
Context (cap ps stride : Z) (ident : tid -> ProcessIdentity) (hdl : tid -> MpmcQueueHandle).
Hypothesis cap_range : 0 < cap <= kMpmcMaxCapacity.
Hypothesis ps_range : 0 < ps <= kMpmcMaxPayloadSize.
Hypothesis stride_eq : mpmc_stride ps = Some stride.
Hypothesis hdl_self : forall t, h_self (hdl t) = ident t.
Hypothesis hdl_stride : forall t, h_slot_stride (hdl t) = stride.

#[local] Hint Extern 0 (Protocol mloc mghost) =>
  exact (mpmc_protocol cap ps ident) : typeclass_instances.

Definition opt_push_post t P Q bytes (r : option (Result unit)) (s : mst) : Prop :=
  match r with Some (Ok _) => Free t (P ++ [bytes]) Q s | _ => Free t P Q s end.
Definition opt_pop_post t P Q (r : option (Result (list Z))) (s : mst) : Prop :=
  match r with Some (Ok bytes) => Free t P (Q ++ [bytes]) s | _ => Free t P Q s end.

Lemma stable_free t P Q : stable t (Free t P Q).
Proof. apply Free_stable. Qed.

Lemma wp_wait_push t P Q fuel bytes deadline s :
  length bytes = Z.to_nat ps -> Free t P Q s ->
  wp t (mpmc_wait_push_until_impl fuel (Some (hdl t)) (Some bytes) ps deadline)
    (opt_push_post t P Q bytes) s.
Proof.
  intros Hlen. revert s. induction fuel as [|fuel IH]; intros s HF;
    cbn [mpmc_wait_push_until_impl].
  { eapply wp_ret; [apply stable_free|exact HF|by intros]. }
  eapply wp_seq; [by eapply (wp_try_push cap ps stride)|].
  intros [[]|e] s1 Hi1 H1; simpl in H1.
  { eapply wp_ret; [apply stable_free|exact H1|by intros]. }
  destruct (negb (is_push_waitable _)).
  { eapply wp_ret; [apply stable_free|exact H1|by intros]. }
  eapply wp_readonly_bind; [by solve_readonly|apply stable_free|exact H1|].
  intros b s2 Hi2 H2. destruct (negb b).
  { eapply wp_ret; [apply stable_free|exact H2|by intros]. }
  eapply wp_readonly_bind; [by solve_readonly|apply stable_free|exact H2|].
  intros before s3 Hi3 H3.
  eapply wp_seq; [by eapply (wp_try_push cap ps stride)|].
  intros [[]|e'] s4 Hi4 H4; simpl in H4.
  { eapply wp_ret; [apply stable_free|exact H4|by intros]. }
  destruct (negb (is_push_waitable _)).
  { eapply wp_ret; [apply stable_free|exact H4|by intros]. }
  eapply wp_readonly_bind; [by solve_readonly|apply stable_free|exact H4|].
  intros after s5 Hi5 H5. destruct (negb (before =? after)); [by apply IH|].
  eapply wp_readonly_bind; [by solve_readonly|apply stable_free|exact H5|].
  intros [[]|e''] s6 Hi6 H6; [by apply IH|].
  eapply wp_ret; [apply stable_free|exact H6|]. intros. by case_bool_decide.
Qed.

Lemma wp_wait_pop t P Q fuel deadline s :
  Free t P Q s ->
  wp t (mpmc_wait_pop_until_impl fuel (Some (hdl t)) false ps deadline)
    (opt_pop_post t P Q) s.
Proof.
  revert s. induction fuel as [|fuel IH]; intros s HF; cbn [mpmc_wait_pop_until_impl].
  { eapply wp_ret; [apply stable_free|exact HF|by intros]. }
  eapply wp_seq; [by eapply (wp_try_pop cap ps stride)|].
  intros [bytes|e] s1 Hi1 H1; simpl in H1.
  { eapply wp_ret; [apply stable_free|exact H1|by intros]. }
  destruct (negb (is_pop_waitable _)).
  { eapply wp_ret; [apply stable_free|exact H1|by intros]. }
  eapply wp_readonly_bind; [by solve_readonly|apply stable_free|exact H1|].
  intros [ex|] s1' Hi1' H1'. { eapply wp_ret; [apply stable_free|exact H1'|by intros]. }
  eapply wp_readonly_bind; [by solve_readonly|apply stable_free|exact H1'|].
  intros b s2 Hi2 H2. destruct (negb b).
  { eapply wp_ret; [apply stable_free|exact H2|by intros]. }
  eapply wp_readonly_bind; [by solve_readonly|apply stable_free|exact H2|].
  intros before s3 Hi3 H3.
  eapply wp_seq; [by eapply (wp_try_pop cap ps stride)|].
  intros [bytes|e'] s4 Hi4 H4; simpl in H4.
  { eapply wp_ret; [apply stable_free|exact H4|by intros]. }
  destruct (negb (is_pop_waitable _)).
  { eapply wp_ret; [apply stable_free|exact H4|by intros]. }
  eapply wp_readonly_bind; [by solve_readonly|apply stable_free|exact H4|].
  intros [ex|] s4' Hi4' H4'. { eapply wp_ret; [apply stable_free|exact H4'|by intros]. }
  eapply wp_readonly_bind; [by solve_readonly|apply stable_free|exact H4'|].
  intros after s5 Hi5 H5. destruct (negb (before =? after)); [by apply IH|].
  eapply wp_readonly_bind; [by solve_readonly|apply stable_free|exact H5|].
  intros [[]|e''] s6 Hi6 H6; [by apply IH|].
  eapply wp_ret; [apply stable_free|exact H6|]. intros. by case_bool_decide.
Qed.

(** What a returned observation may claim, whatever happened meanwhile. *)
Definition call_true (c : mpmc_op ps * mpmc_res) : Prop :=
  match snd c with
  | ResOwner o => os_kind o = osk_Stable -> exists u, os_owner o = ident u
  | ResPositions (Ok (e, d)) => 0 <= d <= e /\ e <= d + cap /\ e <= UINT64_MAX
  | ResStatus (Ok st) =>
      pid_real ident (qs_enqueue_owner_pid st) /\ pid_real ident (qs_dequeue_owner_pid st)
  | _ => True
  end.

Definition mpmc_idle (t : tid) (h : list (mpmc_op ps * mpmc_res)) (s : mst) : Prop :=
  Free t (pushes_of h) (pops_of h) s /\ Forall call_true h.

Lemma mpmc_idle_stable t h : stable t (mpmc_idle t h).
Proof. intros s s' [HF HT] Hr Hi. split; [by eapply Free_stable|done]. Qed.

Lemma pushes_of_snoc (h : list (mpmc_op ps * mpmc_res)) c :
  pushes_of (h ++ [c]) = pushes_of h ++ call_pushed c.
Proof. unfold pushes_of. rewrite map_app, concat_app. simpl. by rewrite app_nil_r. Qed.
Lemma pops_of_snoc (h : list (mpmc_op ps * mpmc_res)) c :
  pops_of (h ++ [c]) = pops_of h ++ call_popped c.
Proof. unfold pops_of. rewrite map_app, concat_app. simpl. by rewrite app_nil_r. Qed.

(** A reader of the queue. *)
Lemma wp_reader {A} t (p : mprog A) (f : A -> mpmc_res) (op : mpmc_op ps) h s :
  readonly p -> (forall a, call_pushed (op, f a) = [] /\ call_popped (op, f a) = []) ->
  Free t (pushes_of h) (pops_of h) s ->
  wp t (let! r := p in Ret (f r))
    (fun r s' => Free t (pushes_of (h ++ [(op, r)])) (pops_of (h ++ [(op, r)])) s') s.
Proof.
  intros Hp Hf HF. eapply wp_readonly_bind; [done|apply stable_free|exact HF|].
  intros a s1 _ H1. eapply wp_ret; [apply stable_free|exact H1|]. intros s2 _.
  destruct (Hf a) as [E1 E2]. by rewrite pushes_of_snoc, pops_of_snoc, E1, E2, !app_nil_r.
Qed.

(** What one call does to what its thread has pushed and taken. *)
Lemma mpmc_op_moves t op h s :
  Free t (pushes_of h) (pops_of h) s ->
  wp t (mpmc_impl ps hdl t op)
    (fun r s' => Free t (pushes_of (h ++ [(op, r)])) (pops_of (h ++ [(op, r)])) s') s.
Proof.
  intros HF. destruct op as [[m Hm]| |fuel [m Hm] dl|fuel dl| |side|]; cbn [mpmc_impl proj1_sig];
    [eapply wp_seq..|apply (wp_reader t _ ResStatus OpStatus)
    |apply (wp_reader t _ ResOwner (OpGateOwner side))
    |apply (wp_reader t _ ResPositions OpPositions)]; try solve_readonly; try done.
  - by eapply (wp_try_push cap ps stride).
  - intros r s1 _ H1. unfold push_post in H1. destruct r as [[]|e];
      (eapply wp_ret; [apply stable_free|exact H1|]); intros s2 _;
      by rewrite pushes_of_snoc, pops_of_snoc, ?app_nil_r.
  - by eapply (wp_try_pop cap ps stride).
  - intros r s1 _ H1. unfold pop_post in H1. destruct r as [b|e];
      (eapply wp_ret; [apply stable_free|exact H1|]); intros s2 _;
      by rewrite pushes_of_snoc, pops_of_snoc, ?app_nil_r.
  - by eapply wp_wait_push.
  - intros r s1 _ H1. unfold opt_push_post in H1. destruct r as [[[]|e]|];
      (eapply wp_ret; [apply stable_free|exact H1|]); intros s2 _;
      by rewrite pushes_of_snoc, pops_of_snoc, ?app_nil_r.
  - by eapply wp_wait_pop.
  - intros r s1 _ H1. unfold opt_pop_post in H1. destruct r as [[b|e]|];
      (eapply wp_ret; [apply stable_free|exact H1|]); intros s2 _;
      by rewrite pushes_of_snoc, pops_of_snoc, ?app_nil_r.
Qed.

(** The positions of one instant respect the bounds of the queue. *)
Lemma positions_at_bounds t e d s :
  positions_at cap ps ident t e d s -> 0 <= d <= e /\ e <= d + cap /\ e <= UINT64_MAX.
Proof.
  intros (s0 & Hi & _ & <- & <-). pose proof (inv_order _ _ _ _ Hi).
  pose proof (inv_window _ _ _ _ Hi).
  pose proof (inv_u64 _ _ _ _ Hi). lia.
Qed.

Lemma mpmc_op_true t op (h : list (mpmc_op ps * mpmc_res)) s :
  Free t (pushes_of h) (pops_of h) s ->
  wp t (mpmc_impl ps hdl t op) (fun r _ => call_true (op, r)) s.
Proof.
  intros HF. destruct op as [m| |fuel m dl|fuel dl| |side|].
  1-4: eapply wp_leaves; [|by apply mpmc_op_moves]; by apply leaves_bind_any.
  - eapply wp_seq; [apply (wp_status_owners cap ps ident)|]. intros r s1 _ Hr s2 _ _.
    by destruct r.
  - eapply wp_seq; [apply (wp_snapshot_gate_owner cap ps ident)|].
    intros r s1 _ Hr s2 _ _ Hk. destruct (Hr Hk) as (u & _ & Hu). by exists u.
  - eapply wp_seq; [apply (wp_snapshot_instant cap ps ident)|].
    intros [[e d]|e] s1 _ Hr s2 _ _; [|done]. by eapply positions_at_bounds.
Qed.

Lemma mpmc_op_wp t op h s :
  mpmc_idle t h s ->
  wp t (mpmc_impl ps hdl t op) (fun r s' => mpmc_idle t (h ++ [(op, r)]) s') s.
Proof.
  intros [HF HT]. eapply wp_mono; [|apply wp_and; [by apply mpmc_op_moves|by eapply mpmc_op_true]].
  intros r s' _ [H1 H2]. split; [done|]. apply Forall_app. by repeat constructor.
Qed.
End Client.

(** ** Histories only grow *)

Lemma pushed_by_prefix t lg lg' : lg `prefix_of` lg' -> pushed_by t lg `prefix_of` pushed_by t lg'.
Proof.
  intros [k ->]. unfold pushed_by. rewrite filter_app, fmap_app. by eexists.
Qed.

Lemma zip_prefix_of {A B} (l l' : list A) (k k' : list B) :
  l `prefix_of` l' -> k `prefix_of` k' -> zip l k `prefix_of` zip l' k'.
Proof.
  intros [l2 ->] [k2 ->]. revert k. induction l as [|x l IH]; intros [|y k]; simpl;
    try apply prefix_nil. by apply prefix_cons.
Qed.

Lemma popped_by_prefix t pp pp' lg lg' :
  pp `prefix_of` pp' -> lg `prefix_of` lg' ->
  popped_by t pp lg `prefix_of` popped_by t pp' lg'.
Proof.
  intros Hp Hl. destruct (zip_prefix_of _ _ _ _ Hp Hl) as [k Hk]. unfold popped_by.
  rewrite Hk, filter_app, fmap_app. by eexists.
Qed.

(** [grows s s']: the history of [s'] extends that of [s]. *)
Definition grows (s s' : mst) : Prop := log s `prefix_of` log s' /\ pops s `prefix_of` pops s'.

Lemma grows_refl s : grows s s.
Proof. by split. Qed.
Lemma grows_trans s1 s2 s3 : grows s1 s2 -> grows s2 s3 -> grows s1 s3.
Proof. intros [] []. split; by etrans. Qed.

Lemma grows_write cap ps ident t l v s : grows s (write (P := mpmc_protocol cap ps ident) t l v s).
Proof.
  unfold grows, log, pops. rewrite write_gh. destruct l as [| |[]| |lk|ep| | | | | | | |]; simpl;
    repeat case_match; simpl; split; try done; by eexists.
Qed.

Lemma grows_estep cap ps ident t X (e : ev mloc X) x s s' :
  estep (P := mpmc_protocol cap ps ident) t e s x s' -> grows s s'.
Proof.
  destruct e; simpl; intros H.
  - destruct H as [_ ->]. apply grows_refl.
  - rewrite H. apply grows_write.
  - destruct H as [(_ & _ & ->)|(_ & _ & ->)]; [apply grows_write|apply grows_refl].
  - destruct H as [_ ->]. apply grows_write.
  - rewrite H. apply grows_refl.
  - rewrite H. apply grows_refl.
  - rewrite H. apply grows_refl.
Qed.

(** * The queue is a bounded first-in first-out list *)

(** Handles to a queue of this shape. *)
Record users_ok (cap ps : Z) (hdl : tid -> MpmcQueueHandle) : Prop := {
  uo_capacity : 0 < cap <= kMpmcMaxCapacity;
  uo_payload : 0 < ps <= kMpmcMaxPayloadSize;
  uo_stride : forall t, mpmc_stride ps = Some (h_slot_stride (hdl t))
}.

Definition users_ident (hdl : tid -> MpmcQueueHandle) (t : tid) : ProcessIdentity :=
  h_self (hdl t).

Definition mpmc_config (ps : Z) : Type := @config mloc mghost (mpmc_op ps) mpmc_res.

(** The configurations that users of a queue created in memory [m0] can reach. *)
Definition mpmc_reachable (cap ps : Z) (hdl : tid -> MpmcQueueHandle) (m0 : mloc -> Z)
    (c : mpmc_config ps) : Prop :=
  reachable (P := mpmc_protocol cap ps (users_ident hdl)) (fun t _ op => mpmc_impl ps hdl t op)
    (mkCst m0 ghost0) c.

Definition mem_of {ps} (c : mpmc_config ps) : mloc -> Z := c_mem (cf_st c).
Definition hist_of {ps} (c : mpmc_config ps) (t : tid) : list (mpmc_op ps * mpmc_res) :=
  th_hist (cf_threads c t).
Definition is_idle {ps} (c : mpmc_config ps) (t : tid) : Prop := th_run (cf_threads c t) = None.

(** [fifo c lg pp]: [lg] is the sequence of all messages ever published, with the
    thread that pushed each, and [pp] lists the threads that took the first
    [length pp] of them, in order. *)
Record fifo (cap ps : Z) (c : mpmc_config ps) (lg : list (tid * list Z)) (pp : list tid)
    : Prop := {
  ff_enqueue : mem_of c (HField hf_enqueue_position) = Z.of_nat (length lg);
  ff_dequeue : mem_of c (HField hf_dequeue_position) = Z.of_nat (length pp);
  ff_bound : (length pp <= length lg)%nat /\
             Z.of_nat (length lg) <= Z.of_nat (length pp) + cap;
  ff_idle : forall t, is_idle c t ->
    pushes_of (hist_of c t) = pushed_by t lg /\ pops_of (hist_of c t) = popped_by t pp lg;
  ff_busy : forall t,
    pushes_of (hist_of c t) `prefix_of` pushed_by t lg /\
    (length (pushed_by t lg) <= S (length (pushes_of (hist_of c t))))%nat /\
    pops_of (hist_of c t) `prefix_of` popped_by t pp lg /\
    (length (popped_by t pp lg) <= S (length (pops_of (hist_of c t))))%nat
}.

Section Reachable.
Context (cap ps : Z) (hdl : tid -> MpmcQueueHandle) (m0 : mloc -> Z).
Hypothesis users : users_ok cap ps hdl.
Hypothesis fresh : fresh_queue cap ps m0.

#[local] Hint Extern 0 (Protocol mloc mghost) =>
  exact (mpmc_protocol cap ps (users_ident hdl)) : typeclass_instances.

Lemma users_op_wp t op h s :
  minv cap ps (users_ident hdl) s -> mpmc_idle cap ps (users_ident hdl) t h s ->
  wp t (mpmc_impl ps hdl t op) (fun r s' => mpmc_idle cap ps (users_ident hdl) t (h ++ [(op, r)]) s') s.
Proof.
  intros _. destruct users as [Hc Hp Hs].
  apply (mpmc_op_wp cap ps (h_slot_stride (hdl t)) (users_ident hdl)); try done.
  intros u. pose proof (Hs t). pose proof (Hs u). congruence.
Qed.

Lemma reachable_ok c :
  mpmc_reachable cap ps hdl m0 c ->
  config_ok (P := mpmc_protocol cap ps (users_ident hdl)) (mpmc_idle cap ps (users_ident hdl)) c.
Proof.
  intros Hr. eapply (client_reachable (fun t _ op => mpmc_impl ps hdl t op)); [| | | |exact Hr].
  - intros t h s s' H Hrl Hi. by eapply (mpmc_idle_stable cap ps (users_ident hdl)).
  - apply users_op_wp.
  - by apply fresh_inv; [apply users|].
  - by intros t.
Qed.

(** What a thread inside a call has already done. *)
Definition mpmc_past (t : tid) (h : list (mpmc_op ps * mpmc_res)) (s : mst) : Prop :=
  pushes_of h `prefix_of` pushed_by t (log s) /\
  pops_of h `prefix_of` popped_by t (pops s) (log s) /\
  Forall (call_true cap ps (users_ident hdl)) h.

Lemma reachable_past c :
  mpmc_reachable cap ps hdl m0 c -> forall t, mpmc_past t (hist_of c t) (cf_st c).
Proof.
  intros Hr t.
  refine (client_past (fun t _ op => mpmc_impl ps hdl t op) (mpmc_idle cap ps (users_ident hdl)) _ _ mpmc_past _ _ _ c _ _ Hr t).
  - intros u h s s' H Hrl Hi. by eapply (mpmc_idle_stable cap ps (users_ident hdl)).
  - apply users_op_wp.
  - intros u h s [[_ HP HQ] HT]. unfold mpmc_past. by rewrite HP, HQ.
  - intros u w h X e x s s' He _ (HP & HQ & HT). apply grows_estep in He as [Hl Hpp].
    split; [etrans; [exact HP|by apply pushed_by_prefix]
           |split; [etrans; [exact HQ|by apply popped_by_prefix]|done]].
  - by apply fresh_inv; [apply users|].
  - by intros u.
Qed.

(** A thread inside a call has at most one message more than its finished calls
    account for. *)
Lemma running_bound t op p h s :
  minv cap ps (users_ident hdl) s ->
  wp t p (fun r s' => mpmc_idle cap ps (users_ident hdl) t (h ++ [(op, r)]) s') s ->
  (length (pushed_by t (log s)) <= S (length (pushes_of h)))%nat /\
  (length (popped_by t (pops s) (log s)) <= S (length (pops_of h)))%nat.
Proof.
  intros Hi Hw. destruct (wp_final t p _ s grows grows_refl grows_trans
    (grows_estep cap ps _ t) Hi Hw) as (r & s' & [[_ HP HQ] _] & [Hl Hpp]).
  pose proof (prefix_length _ _ (pushed_by_prefix t _ _ Hl)) as H1.
  pose proof (prefix_length _ _ (popped_by_prefix t _ _ _ _ Hpp Hl)) as H2.
  rewrite HP, pushes_of_snoc, length_app in H1. rewrite HQ, pops_of_snoc, length_app in H2.
  assert (length (call_pushed (op, r)) <= 1 /\ length (call_popped (op, r)) <= 1)%nat
    by (destruct op, r; simpl; repeat case_match; simpl; lia).
  lia.
Qed.

Lemma reachable_fifo c :
  mpmc_reachable cap ps hdl m0 c -> fifo cap ps c (log (cf_st c)) (pops (cf_st c)).
Proof.
  intros Hr. pose proof (reachable_past c Hr) as Hpast.
  destruct (reachable_ok c Hr) as [Hi Ht].
  pose proof (inv_log _ _ _ _ Hi) as Hll. pose proof (inv_pops _ _ _ _ Hi) as Hlp.
  pose proof (inv_order _ _ _ _ Hi). pose proof (inv_window _ _ _ _ Hi).
  split.
  - by rewrite Hll.
  - by rewrite Hlp.
  - lia.
  - intros t Hidle. specialize (Ht t). unfold thread_ok in Ht. rewrite Hidle in Ht.
    by destruct Ht as [[_ -> ->] _].
  - intros t. destruct (Hpast t) as (HP & HQ & _). specialize (Ht t). unfold thread_ok in Ht.
    unfold hist_of in *. destruct (th_run (cf_threads c t)) as [[op p]|].
    + destruct (running_bound t op p _ _ Hi Ht) as [H1 H2]. by repeat split.
    + destruct Ht as [[_ H1 H2] _]. rewrite H1, H2. repeat split; try done; lia.
Qed.
End Reachable.
