(* ===== verification/MpmcCreate.v ===== *)
(** Creating and opening an MPMC queue.

    A successful [mpmc_create_impl] leaves an empty queue in the segment, whatever
    bytes it held before, with a header that [validate_header] accepts for the
    same options and schema; a header with one corrupted byte is refused. *)
From S2P Require Import Prelude Errors CheckedMath Checksum Prog SeqLogic Concur ProcIdentity.
From S2P Require Import OwnerSnapshot ShmObject ChannelLayout MpmcLayout MpmcQueue MpmcApi.
From S2P Require Import MpmcProtocol MpmcSafety MpmcSequential MpmcClient.

(** * Stores of the creation *)

(** The header stores of [init_header]. *)
Definition init_loc (l : mloc) : bool :=
  match l with
  | HMagic _ | HFingerprint _ | HCreator _ | HOwnerEpoch _ => true
  | HField f =>
      match f with
      | hf_abi_major | hf_abi_minor | hf_header_size | hf_endian_marker | hf_capacity
      | hf_payload_size | hf_schema_version | hf_mapping_size | hf_generation
      | hf_notify_epoch | hf_init_state => true
      | _ => false
      end
  | _ => false
  end.

Lemma magic_nodup : NoDup magic_locs.
Proof. apply (bool_decide_unpack _). by vm_compute. Qed.
Lemma fingerprint_nodup : NoDup fingerprint_locs.
Proof. apply (bool_decide_unpack _). by vm_compute. Qed.
Lemma magic_locs_only l : l ∈ magic_locs -> exists i, l = HMagic i.
Proof. intros (i & -> & _)%list_elem_of_fmap. eauto. Qed.
Lemma fingerprint_locs_only l : l ∈ fingerprint_locs -> exists i, l = HFingerprint i.
Proof. intros (i & -> & _)%list_elem_of_fmap. eauto. Qed.

Record header_is (options : MpmcQueueOptions) (schema : SchemaDescriptor)
    (payload_size mapping_size : Z) (m : mem) : Prop := {
  hi_magic : map m magic_locs = string_codes kMpmcHeaderMagic;
  hi_fingerprint : map m fingerprint_locs = sd_fingerprint schema;
  hi_major : m (HField hf_abi_major) = kMpmcAbiMajor;
  hi_minor : m (HField hf_abi_minor) = kMpmcAbiMinor;
  hi_header_size : m (HField hf_header_size) = kMpmcHeaderSize;
  hi_endian : m (HField hf_endian_marker) = kMpmcEndianMarker;
  hi_capacity : m (HField hf_capacity) = mo_capacity options;
  hi_payload : m (HField hf_payload_size) = payload_size;
  hi_version : m (HField hf_schema_version) = sd_version schema;
  hi_mapping : m (HField hf_mapping_size) = mapping_size;
  hi_generation : m (HField hf_generation) = 1
}.

Lemma header_is_ext options schema ps size m m' :
  (forall l, mloc_slot l = None -> m' l = m l) ->
  header_is options schema ps size m -> header_is options schema ps size m'.
Proof.
  intros H []. split; rewrite ?H by done; try done.
  - rewrite <- hi_magic0. apply map_ext_in. intros l Hl%list_elem_of_In.
    apply H. by apply magic_locs_only in Hl as [i ->].
  - rewrite <- hi_fingerprint0. apply map_ext_in. intros l Hl%list_elem_of_In.
    apply H. by apply fingerprint_locs_only in Hl as [i ->].
Qed.

(** [not_in_kind]: [l] is not one of the locations of a list of one kind. *)
Ltac not_in_kind :=
  match goal with
  | |- ?l ∉ magic_locs => intros [? ?]%magic_locs_only; discriminate
  | |- ?l ∉ fingerprint_locs => intros [? ?]%fingerprint_locs_only; discriminate
  end.

Lemma seq_init_header options schema ps size self m :
  length (sd_fingerprint schema) = 32%nat ->
  swp (init_header options schema ps size self) (fun _ m' =>
    header_is options schema ps size m' /\
    m' (HField hf_init_state) = mi_kInitializing /\ m' (HOwnerEpoch true) = 0 /\
    m' (HOwnerEpoch false) = 0 /\ forall l, init_loc l = false -> m' l = m l) m.
Proof.
  intros Hfp. unfold init_header.
  eapply swp_seq; [apply swp_store_list; [apply magic_nodup|by vm_compute]|].
  intros _ m1 [Hmagic H1].
  cbn -[upd store_list sd_fingerprint fingerprint_locs].
  eapply swp_seq; [apply swp_store_list; [apply fingerprint_nodup|done]|].
  intros _ m2 [Hprint H2]. cbn -[upd magic_locs fingerprint_locs map string_codes].
  split; [|split; [by upd_simpl|split; [by upd_simpl|split; [by upd_simpl|]]]].
  - split; upd_simpl; try (rewrite H2 by not_in_kind); upd_simpl; try done.
    + rewrite <- Hmagic. apply map_ext_in. intros l Hl%list_elem_of_In.
      apply magic_locs_only in Hl as [i ->]. upd_simpl. rewrite H2 by not_in_kind. by upd_simpl.
  - intros l Hl. rewrite !upd_ne by (intros ->; by simpl in Hl).
    rewrite H2 by (intros (i & ->)%fingerprint_locs_only; by simpl in Hl).
    rewrite !upd_ne by (intros ->; by simpl in Hl).
    apply H1. intros (i & ->)%magic_locs_only. by simpl in Hl.
Qed.

(** The slot stores. *)
Lemma seq_init_slots cap ps stride ixs m :
  0 < cap <= kMpmcMaxCapacity -> 0 < ps <= kMpmcMaxPayloadSize -> mpmc_stride ps = Some stride ->
  NoDup ixs -> Forall (fun i => 0 <= i < cap) ixs ->
  swp (init_slots cap stride ixs) (fun ok m' => ok = true /\
    (forall i, i ∈ ixs ->
       m' (SSequence i) = i /\ m' (SState i) = ms_kFree /\ m' (SOwnerEpoch i) = 0) /\
    (forall l, (forall i, mloc_slot l = Some i -> i ∉ ixs) -> m' l = m l)) m.
Proof.
  intros Hc Hp Hs. revert m. induction ixs as [|i ixs IH]; intros m Hnd Hr.
  { simpl. split; [done|]. split; [|done]. intros i Hi. by apply elem_of_nil in Hi. }
  apply NoDup_cons in Hnd as [Hi Hnd]. apply Forall_cons in Hr as [Hri Hr].
  cbn [init_slots]. rewrite (mpmc_slot_offset_ok i cap ps stride) by (done || lia).
  cbn -[upd]. eapply swp_mono; [by apply IH|]. intros ok m' (-> & Hin & Hout).
  split; [done|]. split.
  - intros i' Hi'. apply elem_of_cons in Hi' as [->|Hi']; [|by apply Hin].
    rewrite !Hout by (intros ? [= <-]; done). by upd_simpl.
  - intros l Hl. rewrite Hout by (intros i' Hi' Hin'; apply (Hl i' Hi'); by right).
    rewrite !upd_ne; [done|..]; intros ->; apply (Hl i eq_refl); by left.
Qed.

(** The bytes the checksum covers. *)
Definition image_of (fields : list (nat * mloc)) (m : mem) : list Z :=
  concat (map (fun '(width, l) => le_bytes width (m l)) fields).

Lemma seq_load_image fields m :
  swp (load_image fields) (fun bs m' => bs = image_of fields m /\ m' = m) m.
Proof.
  induction fields as [|[w l] fields IH]; simpl; [done|].
  eapply swp_seq; [exact IH|]. by intros bs m' [-> ->].
Qed.

Lemma seq_header_checksum m :
  swp header_checksum (fun c m' => c = fnv1a64 (image_of header_prefix m) /\ m' = m) m.
Proof.
  unfold header_checksum. eapply swp_seq; [apply seq_load_image|]. by intros bs m' [-> ->].
Qed.

Lemma image_of_ext fields m m' :
  (forall l, l ∈ map snd fields -> m' l = m l) -> image_of fields m' = image_of fields m.
Proof.
  intros H. unfold image_of. f_equal. apply map_ext_in. intros [w l] Hl.
  rewrite H; [done|]. apply list_elem_of_In, (in_map snd _ _ Hl).
Qed.

(** * A created segment *)

Record created (options : MpmcQueueOptions) (schema : SchemaDescriptor)
    (payload_size mapping_size : Z) (m : mem) : Prop := {
  cr_header : header_is options schema payload_size mapping_size m;
  cr_checksum : m (HField hf_header_checksum) = fnv1a64 (image_of header_prefix m);
  cr_ready : m (HField hf_init_state) = mi_kReady;
  cr_pos : forall side, m (HField (pos_field side)) = 0;
  cr_lock : forall side, m (HLock side) = ml_kFree;
  cr_epoch : forall side, m (HOwnerEpoch side) = 0;
  cr_owner : forall side f, m (HOwner side f) = 0;
  cr_slot : forall i, 0 <= i < mo_capacity options ->
    m (SSequence i) = i /\ m (SState i) = ms_kFree /\ m (SOwnerEpoch i) = 0
}.

Lemma indices_elem n i : i ∈ indices n <-> 0 <= i < n.
Proof.
  unfold indices. rewrite list_elem_of_fmap. split.
  - intros (j & -> & Hj%elem_of_seq). lia.
  - intros Hi. exists (Z.to_nat i). split; [lia|]. apply elem_of_seq. lia.
Qed.

Lemma indices_nodup n : NoDup (indices n).
Proof. apply NoDup_fmap_2; [intros ? ?; lia|apply NoDup_seq]. Qed.

Lemma header_in_segment cap ps l : l ∈ header_locs -> l ∈ segment_locs cap ps.
Proof. intros H. apply elem_of_app. by left. Qed.

(** The words that stay zero from the initial [memset]. *)
Definition zero_loc (l : mloc) : bool :=
  match l with
  | HField hf_enqueue_position | HField hf_dequeue_position | HLock _ | HOwner _ _ => true
  | _ => false
  end.

Lemma zero_in_header l : zero_loc l = true -> l ∈ header_locs.
Proof.
  destruct l as [| |[]| |[]| |[] []| | | | | | |]; simpl; try done; intros _;
    apply (bool_decide_unpack _); by vm_compute.
Qed.

Lemma zero_not_written l :
  zero_loc l = true -> init_loc l = false /\ mloc_slot l = None /\
  l <> HField hf_header_checksum /\ l <> HField hf_init_state /\
  l <> HField hf_instance_nonce_hi /\ l <> HField hf_instance_nonce_lo.
Proof. by destruct l as [| |[]| |[]| |[] []| | | | | | |]; simpl. Qed.

(** The final two stores complete a segment whose header and slots are set. *)
Lemma created_commit options schema ps size m m0 c :
  header_is options schema ps size m -> c = fnv1a64 (image_of header_prefix m) ->
  (forall l, zero_loc l = true -> m l = 0) -> (forall side, m (HOwnerEpoch side) = 0) ->
  (forall i, 0 <= i < mo_capacity options ->
     m (SSequence i) = i /\ m (SState i) = ms_kFree /\ m (SOwnerEpoch i) = 0) ->
  m0 = upd (HField hf_init_state) mi_kReady (upd (HField hf_header_checksum) c m) ->
  created options schema ps size m0.
Proof.
  intros Hh Hc Hz He Hs ->.
  assert (forall l, l <> HField hf_init_state -> l <> HField hf_header_checksum ->
    upd (HField hf_init_state) mi_kReady (upd (HField hf_header_checksum) c m) l = m l) as Hu
    by (intros; by rewrite !upd_ne).
  split.
  - destruct Hh. split; rewrite ?Hu by done; done.
  - rewrite upd_ne, upd_eq by done. rewrite Hc. reflexivity.
  - apply upd_eq.
  - intros side. rewrite Hu by (by destruct side). apply Hz. by destruct side.
  - intros side. rewrite Hu by done. by apply Hz.
  - intros side. by rewrite Hu.
  - intros side f. rewrite Hu by done. by apply Hz.
  - intros i Hi. rewrite !Hu by done. auto.
Qed.

Definition create_post (options : MpmcQueueOptions) (schema : SchemaDescriptor) (ps size : Z)
    (r : Result MpmcQueueHandle) (m : mem) : Prop :=
  match r with
  | Ok h => created options schema ps size m /\ h_removed h = false /\ h_created h = true /\
            mpmc_stride ps = Some (h_slot_stride h)
  | Err _ => True
  end.

Lemma create_post_err {options schema ps size} (p : mprog (Result MpmcQueueHandle)) m :
  leaves is_err p -> swp p (create_post options schema ps size) m.
Proof.
  intros Hl. eapply swp_mono; [by apply swp_leaves|]. by intros r m' [e ->].
Qed.

Lemma cleanup_err shm_name dev ino e :
  leaves is_err (@cleanup_and_fail MpmcQueueHandle shm_name dev ino e).
Proof. unfold cleanup_and_fail. solve_leaves. Qed.
#[local] Hint Resolve cleanup_err : prog_db.

Lemma seq_random_u64 l m :
  swp (random_u64_into l) (fun _ m' => forall l', l' <> l -> m' l' = m l') m.
Proof.
  unfold random_u64_into. eapply swp_seq; [by apply swp_readonly; solve_readonly|].
  intros bs m' ->. destruct bs; simpl; [|done]. intros l' Hl. by rewrite upd_ne.
Qed.

Definition nonce_loc (l : mloc) : Prop :=
  l = HField hf_instance_nonce_hi \/ l = HField hf_instance_nonce_lo.

(** The nonces. *)
Lemma seq_seed self m :
  swp (if (pid self =? 0) || (proc_start_ticks self =? 0) || (boot_id_hash_hi self =? 0)
          || (boot_id_hash_lo self =? 0) then Ret false
       else
         let! hi := random_u64_into (HField hf_instance_nonce_hi) in
         if negb hi then Ret false else random_u64_into (HField hf_instance_nonce_lo))
    (fun _ m' => forall l, ~ nonce_loc l -> m' l = m l) m.
Proof.
  destruct (_ || _); [done|]. eapply swp_seq; [apply seq_random_u64|].
  intros [] m1 H1; cbn [negb].
  - eapply swp_mono; [apply seq_random_u64|]. intros ? m2 H2 l Hl. unfold nonce_loc in Hl.
    rewrite H2, H1 by tauto. done.
  - intros l Hl. apply H1. unfold nonce_loc in Hl. tauto.
Qed.

Section Create.
Context (options : MpmcQueueOptions) (schema : SchemaDescriptor) (ps size : Z).
Hypothesis cap_range : 0 < mo_capacity options <= kMpmcMaxCapacity.
Hypothesis ps_range : 0 < ps <= kMpmcMaxPayloadSize.
Hypothesis fingerprint_len : length (sd_fingerprint schema) = 32%nat.

Lemma seq_create_mapped self object m :
  swp (create_mapped options schema ps size self object) (create_post options schema ps size) m.
Proof.
  unfold create_mapped. eapply swp_seq; [apply swp_zero|]. intros _ m1 [Hz _].
  eapply swp_seq; [apply seq_seed|]. intros seeded m2 H2.
  destruct (negb seeded); [apply create_post_err, cleanup_err|].
  eapply swp_seq; [by apply seq_init_header|]. intros _ m3 (Hh & _ & He1 & He2 & H3).
  destruct (mpmc_stride ps) as [stride|] eqn:Hs; [|apply create_post_err, cleanup_err].
  eapply swp_seq; [apply (seq_init_slots _ ps); try done; [apply indices_nodup|]|].
  { apply Forall_forall. intros i Hi. by apply indices_elem. }
  intros ok m4 (-> & Hslots & H4). cbn [negb].
  assert (forall l, mloc_slot l = None -> m4 l = m3 l) as H4'
    by (intros l Hl; apply H4; by rewrite Hl).
  eapply swp_seq; [apply seq_header_checksum|]. intros c m5 [-> ->].
  cbn [bind plain_store shared_store_release trigger swp sev create_post h_removed h_created
       h_slot_stride].
  split; [|by rewrite Hs].
  eapply (created_commit options schema ps size m4); [|reflexivity| | | |reflexivity].
  - by eapply header_is_ext.
  - intros l Hl. pose proof (zero_not_written l Hl) as (N1 & N2 & N3 & N4 & N5 & N6).
    rewrite H4', H3, H2 by (done || (unfold nonce_loc; tauto)).
    apply Hz. by apply header_in_segment, zero_in_header.
  - intros []; by rewrite H4'.
  - intros i Hi. apply Hslots. by apply indices_elem.
Qed.
End Create.

(** What [validate_options] guarantees of 32-bit values. *)
Lemma validate_options_ok options schema ps :
  is_u32 (mo_capacity options) -> is_u32 ps -> validate_options options schema ps = Ok tt ->
  0 < mo_capacity options <= kMpmcMaxCapacity /\ 0 < ps <= kMpmcMaxPayloadSize /\
  sd_version schema <> 0 /\ validate_channel_name (mo_name options) = true.
Proof.
  intros Hc Hp. unfold validate_options. destruct (_ || _) eqn:E1; [done|].
  destruct (_ || _ || _) eqn:E2; [done|]. intros _. bprop. autounfold with machine in *.
  repeat split; try lia; try done.
Qed.

Section CreateImpl.
Context (options : MpmcQueueOptions) (schema : SchemaDescriptor) (ps : Z).
Hypothesis cap_u32 : is_u32 (mo_capacity options).
Hypothesis ps_u32 : is_u32 ps.
Hypothesis fingerprint_len : length (sd_fingerprint schema) = 32%nat.

Definition create_ok (r : Result MpmcQueueHandle) (m : mem) : Prop :=
  match r with
  | Ok _ => 0 < mo_capacity options <= kMpmcMaxCapacity /\ 0 < ps <= kMpmcMaxPayloadSize /\
            exists size, mpmc_mapping_size_for (mo_capacity options) ps = Some size /\
                         create_post options schema ps size r m
  | Err _ => True
  end.

Lemma create_ok_err (p : mprog (Result MpmcQueueHandle)) m :
  leaves is_err p -> swp p create_ok m.
Proof.
  intros Hl. eapply swp_mono; [by apply swp_leaves|]. by intros r m' [e ->].
Qed.

(** A step whose error ends the creation. *)
Lemma create_step {A} (p : mprog (Result A)) (f : A -> mprog (Result MpmcQueueHandle)) m :
  (forall a m', swp (f a) create_ok m') ->
  swp (let? a := p in f a) create_ok m.
Proof.
  intros Hf. eapply swp_seq; [apply (swp_leaves (fun _ => True)), leaves_true|].
  intros [a|e] m' _; [apply Hf|done].
Qed.

Lemma seq_create m : swp (mpmc_create_impl options schema ps) create_ok m.
Proof.
  unfold mpmc_create_impl. destruct (validate_options options schema ps) as [[]|e] eqn:Hv; [|done].
  apply validate_options_ok in Hv as (Hc & Hp & _); [|done..]. cbn [lift bind].
  apply create_step. intros self m1.
  destruct (mpmc_mapping_size_for _ _) as [size|] eqn:Hm; [|done].
  eapply swp_seq; [apply (swp_leaves (fun _ => True)), leaves_true|]. intros name m2 _.
  apply create_step. intros fd m3.
  eapply swp_seq; [apply (swp_leaves (fun _ => True)), leaves_true|].
  intros [[[dev ino] sz]|e] m4 _.
  2: { apply create_ok_err. solve_leaves. }
  eapply swp_seq; [apply (swp_leaves (fun _ => True)), leaves_true|].
  intros [[]|e] m5 _; [|apply create_ok_err, cleanup_err].
  eapply swp_seq; [apply (swp_leaves (fun _ => True)), leaves_true|].
  intros [addr|e] m6 _; [|apply create_ok_err, cleanup_err].
  eapply swp_mono; [by apply seq_create_mapped|]. intros [h|e] m7 Hpost; [|done].
  split; [done|]. split; [done|]. exists size. done.
Qed.
End CreateImpl.

(** A created segment is an empty queue. *)
Lemma created_queue_is options schema ps size m :
  0 < mo_capacity options <= kMpmcMaxCapacity -> created options schema ps size m ->
  queue_is (mo_capacity options) ps 0 m [].
Proof.
  intros Hc [Hh _ Hr Hp Hl He _ Hs]. destruct Hh.
  assert (forall side, pos_of side m = 0) as Hpos by apply Hp.
  split.
  - split; rewrite ?Hpos; try done; try (simpl; lia).
    + intros i Hi. destruct (Hs i Hi) as (_ & _ & ->). by split.
    + intros T HT. rewrite Z.mod_small by lia.
      destruct (Hs T) as (-> & -> & _); [lia|done].
  - intros side. split; [apply Hl|]. rewrite He. by split.
Qed.

Lemma created_fresh options schema ps size m :
  created options schema ps size m -> fresh_queue (mo_capacity options) ps m.
Proof.
  intros [Hh _ Hr Hp Hl He Ho Hs]. destruct Hh. split; try done; intros i Hi; apply Hs; done.
Qed.

(** * Validation *)

(** The headers [validate_header] accepts. *)
Record header_accepted (actual_size : Z) (options : MpmcQueueOptions)
    (schema : SchemaDescriptor) (payload_size : Z) (m : mem) : Prop := {
  ha_magic : map m magic_locs = string_codes kMpmcHeaderMagic;
  ha_major : m (HField hf_abi_major) = kMpmcAbiMajor;
  ha_minor : m (HField hf_abi_minor) = kMpmcAbiMinor;
  ha_header_size : m (HField hf_header_size) = kMpmcHeaderSize;
  ha_endian : m (HField hf_endian_marker) = kMpmcEndianMarker;
  ha_capacity : m (HField hf_capacity) = mo_capacity options;
  ha_payload : m (HField hf_payload_size) = payload_size;
  ha_shape : mo_capacity options <> 0 /\ mo_capacity options <= kMpmcMaxCapacity /\
             payload_size <> 0 /\ payload_size <= kMpmcMaxPayloadSize;
  ha_generation : m (HField hf_generation) <> 0;
  ha_mapping : mpmc_mapping_size_for (mo_capacity options) payload_size
               = Some (m (HField hf_mapping_size)) /\
               actual_size = m (HField hf_mapping_size);
  ha_checksum : m (HField hf_header_checksum) = fnv1a64 (image_of header_prefix m);
  ha_version : m (HField hf_schema_version) = sd_version schema;
  ha_fingerprint : map m fingerprint_locs = sd_fingerprint schema;
  ha_ready : m (HField hf_init_state) = mi_kReady
}.

Lemma seq_legacy_magic m :
  swp legacy_header_magic (fun b m' =>
    b = bool_decide (map m magic_locs = string_codes kMpmcLegacyHeaderMagic) /\ m' = m) m.
Proof.
  unfold legacy_header_magic. eapply swp_seq; [apply swp_load_list|]. by intros ? ? [-> ->].
Qed.
Lemma seq_valid_magic m :
  swp valid_header_magic (fun b m' =>
    b = bool_decide (map m magic_locs = string_codes kMpmcHeaderMagic) /\ m' = m) m.
Proof.
  unfold valid_header_magic. eapply swp_seq; [apply swp_load_list|]. by intros ? ? [-> ->].
Qed.
Lemma seq_same_schema schema m :
  swp (same_schema schema) (fun b m' =>
    b = bool_decide (m (HField hf_schema_version) = sd_version schema /\
                     map m fingerprint_locs = sd_fingerprint schema) /\ m' = m) m.
Proof.
  unfold same_schema. cbn [bind plain_load trigger swp sev].
  bdestr (m (HField hf_schema_version) =? sd_version schema); cbn [negb].
  - eapply swp_seq; [apply swp_load_list|]. intros ? ? [-> ->]. cbn [swp]. split; [|done].
    apply bool_decide_ext. tauto.
  - cbn [swp]. split; [|done]. symmetry. apply bool_decide_eq_false. tauto.
Qed.

Lemma seq_validate_header size options schema ps m :
  swp (validate_header size options schema ps) (fun r m' =>
    (r = Ok tt <-> header_accepted size options schema ps m) /\ m' = m) m.
Proof.
  unfold validate_header. eapply swp_seq_value; [apply seq_legacy_magic|].
  case_bool_decide as Hleg; [refuse; by rewrite Hleg in *|].
  eapply swp_seq_value; [apply seq_valid_magic|].
  case_bool_decide as Hmagic; cbn [negb]; [|by refuse]. loads.
  cond E1; [refuse; bprop; lia|]. loads.
  cond E2; [refuse; bprop; lia|]. loads.
  cond E3; [refuse; bprop; lia|]. loads.
  cond E4.
  { refuse. bprop. destruct E4 as [E4|E4]; bprop; [|lia].
    apply bool_decide_eq_false in E4. destruct ha_mapping0. congruence. }
  apply orb_false_iff in E4 as [E4 E4']. apply negb_false_iff, bool_decide_eq_true in E4.
  loads. eapply swp_seq_value; [apply seq_header_checksum|].
  bdestr (m (HField hf_header_checksum) =? fnv1a64 (image_of header_prefix m)); cbn [negb];
    [|by refuse].
  cond E5; [refuse; bprop; lia|].
  eapply swp_seq_value; [apply seq_same_schema|].
  case_bool_decide as Hsch; cbn [negb]; [|refuse; tauto]. loads.
  bdestr (m (HField hf_init_state) =? mi_kReady); cbn [negb]; [|by refuse].
  cbn [swp]. split; [|done]. split; [intros _|done]. bprop.
  destruct Hsch as [Hver Hfp]. split; try done; try lia.
  split; congruence.
Qed.

(** * Theorems *)

(** What [create] writes, [open] accepts: the header check of [open], for the
    same options, payload size and schema and the size of the created mapping,
    succeeds on every segment that [create] returned. *)
Lemma mpmc_created_header_accepted options schema ps OS (os : os_model OS) OS' (os' : os_model OS') o o' m h w size :
  is_u32 (mo_capacity options) -> is_u32 ps -> length (sd_fingerprint schema) = 32%nat ->
  mpmc_mapping_size_for (mo_capacity options) ps = Some size ->
  run os (mpmc_create_impl options schema ps) (mkWorld m o) = (Ok h, w) ->
  (run os' (validate_header size options schema ps) (mkWorld (w_mem w) o')).1 = Ok tt.
Proof.
  intros Hc Hp Hf Hsize Hrun.
  pose proof (swp_run os _ _ m o (seq_create options schema ps Hc Hp Hf m)) as H.
  rewrite Hrun in H. simpl in H.
  destruct H as (Hc' & Hp' & size' & Hsize' & [[] Hck Hrd _ _ _ _ _] & _).
  rewrite Hsize in Hsize'. injection Hsize' as <-.
  pose proof (swp_run os' _ _ (w_mem w) o' (seq_validate_header size options schema ps (w_mem w)))
    as [Hv _].
  apply Hv. split; try done; try lia. by rewrite hi_mapping0.
Qed.

(** C10: a successful [create] leaves an empty queue. Whatever the segment held
    before and whatever the operating system answered on the way, if
    [mpmc_create_impl] returns a handle then the segment is a fresh queue of the
    requested shape - the starting point of the concurrent theorems and of the
    sequential refinement - and the handle is one of its users. And what [create] wrote,
    [open] accepts: its header check succeeds for the same options, payload size and schema
    and the size of the mapping. *)
Theorem mpmc_create_fresh options schema ps OS (os : os_model OS) o m h w :
  is_u32 (mo_capacity options) -> is_u32 ps -> length (sd_fingerprint schema) = 32%nat ->
  run os (mpmc_create_impl options schema ps) (mkWorld m o) = (Ok h, w) ->
  fresh_queue (mo_capacity options) ps (w_mem w) /\
  queue_is (mo_capacity options) ps 0 (w_mem w) [] /\
  users_ok (mo_capacity options) ps (fun _ => h) /\
  handle_ok (h_slot_stride h) h /\ h_created h = true /\
  forall OS' (os' : os_model OS') o' size,
    mpmc_mapping_size_for (mo_capacity options) ps = Some size ->
    (run os' (validate_header size options schema ps) (mkWorld (w_mem w) o')).1 = Ok tt.
Proof.
  intros Hc Hp Hf Hrun.
  pose proof (swp_run os _ _ m o (seq_create options schema ps Hc Hp Hf m)) as H.
  rewrite Hrun in H. simpl in H. destruct H as (Hc' & Hp' & size & _ & Hcr & Hrem & Hcreated & Hs).
  split; [by eapply created_fresh|]. split; [by eapply created_queue_is|].
  split; [by split|]. split; [by split|]. split; [done|].
  intros OS' os' o' size' Hsize. by eapply mpmc_created_header_accepted.
Qed.

(** A kernel on which creation succeeds. *)
Module CreateDemo.
Definition options : MpmcQueueOptions := mkMpmcOptions "q" 1.
Definition schema : SchemaDescriptor := mkSchema (replicate 32 9) 1.
Definition stat_line : list Z :=
  string_codes "100 (p) S 1 1 1 1 1 1 1 1 1 1 1 1 1 1 1 1 1 1 7 0".
Definition boot_id : list Z := string_codes "0123abcd-0000-4000-8000-0123456789ab".
Definition os : os_model unit := fun X c _ =>
  (match c in sys Y return Y with
   | sys_getpid => 100
   | sys_getuid | sys_geteuid => 1000
   | sys_open _ => SysOk 3
   | sys_read _ count => SysOk (if count =? 63 then boot_id else stat_line)
   | sys_getrandom n => SysOk (replicate (Z.to_nat n) 1)
   | sys_shm_open _ _ => SysOk 4
   | sys_fstat _ => SysOk (mkStat 33152 1000 1 2 0 1)
   | sys_ftruncate _ _ => SysOk tt
   | sys_mmap _ _ _ => SysOk 0
   | c => sys_default c
   end, tt).
(** The segment before: garbage. *)
Definition garbage : mem := fun _ => 77.
Definition after : Result MpmcQueueHandle * world mloc unit :=
  run os (mpmc_create_impl options schema 1) (mkWorld garbage tt).
Definition handle : MpmcQueueHandle :=
  match after.1 with
  | Ok h => h
  | Err _ => mkHandle (mkShmObject "" 0 0 0 0) "" zero_identity 0 false false
  end.
Lemma succeeds : after.1 = Ok handle.
Proof. by vm_compute. Qed.
Lemma returns : run os (mpmc_create_impl options schema 1) (mkWorld garbage tt) = (Ok handle, after.2).
Proof. rewrite <- succeeds. unfold after. by destruct (run _ _ _). Qed.
End CreateDemo.

Lemma mpmc_create_fresh_witness :
  fresh_queue 1 1 (w_mem CreateDemo.after.2) /\ queue_is 1 1 0 (w_mem CreateDemo.after.2) [] /\
  users_ok 1 1 (fun _ => CreateDemo.handle) /\
  handle_ok (h_slot_stride CreateDemo.handle) CreateDemo.handle /\
  h_created CreateDemo.handle = true /\
  (run CreateDemo.os (validate_header 448 CreateDemo.options CreateDemo.schema 1)
     (mkWorld (w_mem CreateDemo.after.2) tt)).1 = Ok tt.
Proof.
  destruct (mpmc_create_fresh CreateDemo.options CreateDemo.schema 1 unit CreateDemo.os tt
           CreateDemo.garbage CreateDemo.handle CreateDemo.after.2) as (H1 & H2 & H3 & H4 & H5 & H6).
  - unfold is_u32, UINT32_MAX. simpl. lia.
  - unfold is_u32, UINT32_MAX. lia.
  - reflexivity.
  - exact CreateDemo.returns.
  - repeat (split; [assumption|]). exact (H6 unit CreateDemo.os tt 448 eq_refl).
Defined.

(** C12: [open] refuses a header with a corrupted byte. If the bytes the checksum
    covers differ from an accepted header's in exactly one byte, wherever it is
    and whatever its new value, and the stored checksum is unchanged, the header
    check fails for every expectation of the opener. *)
Theorem mpmc_corrupt_header_refused size size' options options' schema schema' ps ps' m m'
    OS (os : os_model OS) o pre b b' post :
  header_accepted size options schema ps m ->
  image_of header_prefix m = pre ++ b :: post ->
  image_of header_prefix m' = pre ++ b' :: post -> b <> b' ->
  m' (HField hf_header_checksum) = m (HField hf_header_checksum) ->
  (run os (validate_header size' options' schema' ps') (mkWorld m' o)).1 <> Ok tt.
Proof.
  intros Ha Him Him' Hne Hck Hok.
  pose proof (swp_run os _ _ m' o (seq_validate_header size' options' schema' ps' m')) as [Hv _].
  apply Hv in Hok. pose proof (ha_checksum _ _ _ _ _ Ha) as H1.
  pose proof (ha_checksum _ _ _ _ _ Hok) as H2. rewrite Hck, H1, Him, Him' in H2.
  assert (forall m0 x y z, image_of header_prefix m0 = x ++ y :: z -> is_byte y) as Hbyte.
  { intros m0 x y z Hi. assert (Forall is_byte (image_of header_prefix m0)) as Hall.
    { unfold image_of. apply Forall_concat, Forall_forall. intros l Hl.
      apply list_elem_of_fmap in Hl as ([wd l'] & -> & _). apply le_bytes_are_bytes. }
    rewrite Hi, Forall_app, Forall_cons in Hall. tauto. }
  by apply (fnv1a64_single_byte pre b b' post) in H2; eauto.
Qed.

(** An accepted header, and the same with a flipped bit in [reserved0]. *)
Module CorruptDemo.
Definition base (l : mloc) : Z :=
  match l with
  | HMagic i => default 0 (string_codes kMpmcHeaderMagic !! i)
  | HFingerprint _ => 9
  | HField hf_abi_major => kMpmcAbiMajor
  | HField hf_header_size => kMpmcHeaderSize
  | HField hf_endian_marker => kMpmcEndianMarker
  | HField hf_capacity | HField hf_payload_size | HField hf_schema_version
  | HField hf_generation => 1
  | HField hf_mapping_size => 448
  | HField hf_init_state => mi_kReady
  | _ => 0
  end.
Definition good : mem := upd (HField hf_header_checksum) (fnv1a64 (image_of header_prefix base)) base.
Definition bad : mem := upd (HField hf_reserved0) 1 good.
Definition image : list Z := Eval vm_compute in image_of header_prefix base.

Lemma accepted : header_accepted 448 CreateDemo.options CreateDemo.schema 1 good.
Proof. split; try (by vm_compute); try discriminate. Qed.
End CorruptDemo.

Lemma mpmc_corrupt_header_refused_witness :
  header_accepted 448 CreateDemo.options CreateDemo.schema 1 CorruptDemo.good /\
  (run CreateDemo.os (validate_header 448 CreateDemo.options CreateDemo.schema 1)
     (mkWorld CorruptDemo.bad tt)).1 <> Ok tt.
Proof.
  split; [exact CorruptDemo.accepted|].
  apply (mpmc_corrupt_header_refused 448 448 CreateDemo.options CreateDemo.options
           CreateDemo.schema CreateDemo.schema 1 1 CorruptDemo.good CorruptDemo.bad unit
           CreateDemo.os tt (take 32 CorruptDemo.image) 0 1 (drop 33 CorruptDemo.image)
           CorruptDemo.accepted); [vm_compute; reflexivity|vm_compute; reflexivity|discriminate|reflexivity].
Defined.

(** * Removal *)

(** The process of the handle created the queue in memory. *)
Definition mpmc_creator (h : MpmcQueueHandle) (m : mem) : bool :=
  owner_matches (mkIdentity (m (HCreator of_pid)) (m (HCreator of_start))
                   (m (HCreator of_boot_hi)) (m (HCreator of_boot_lo))) (h_self h).

Lemma validate_live_handle_loads h op : loads_only (validate_live_handle h op).
Proof. unfold validate_live_handle. solve_loads. Qed.

Lemma validate_live_handle_same h op :
  leaves (fun r => forall h', r = Ok h' -> h' = h) (validate_live_handle (Some h) op).
Proof.
  unfold validate_live_handle. destruct (h_removed h); cbn -[Z.eqb]; [by intros|].
  intros x. destruct (negb _); cbn; [by intros|]. by intros h' [= <-].
Qed.

Lemma mpmc_remove_readonly h : readonly (mpmc_remove_if_creator_impl h).
Proof.
  unfold mpmc_remove_if_creator_impl, remove_check_gate, load_owner_seq_cst. solve_readonly.
Qed.

(** Only the creator removes a queue. For a handle of any other process
    [remove_if_creator] returns an error without a single system call, so the name
    stays; and in every case the segment's bytes are left as they are, so the
    users that still have it mapped can go on. *)
Theorem mpmc_remove_only_creator {OS} (os : os_model OS) o m h :
  (mpmc_creator h m = false ->
     exists e, run os (mpmc_remove_if_creator_impl (Some h)) (mkWorld m o)
               = (Err e, mkWorld m o)) /\
  w_mem (run os (mpmc_remove_if_creator_impl (Some h)) (mkWorld m o)).2 = m.
Proof.
  split; [|exact (swp_run os _ _ m o (swp_readonly _ m (mpmc_remove_readonly (Some h))))].
  intros Hc. unfold mpmc_remove_if_creator_impl. rewrite run_bind.
  pose proof (loads_only_run os _ (mkWorld m o) (validate_live_handle_loads (Some h) op_remove)) as Hv.
  pose proof (swp_run os _ _ m o (swp_leaves _ _ m (validate_live_handle_same h op_remove))) as Hh.
  cbn beta in Hh.
  destruct (run os (validate_live_handle _ _) _) as [[h'|e] w']; cbn [fst snd] in *; subst w';
    [|by eexists]. rewrite (Hh h' eq_refl). clear Hh h'. rewrite run_bind.
  cbn -[owner_matches]. unfold mpmc_creator in Hc. rewrite Hc. cbn [negb]. by eexists.
Qed.
