(* ===== verification/MpmcTheorems.v ===== *)
(** The properties of the MPMC queue under concurrency.

    A small queue with two users ([Demo]) runs the operations on concrete
    inputs; the theorems are applied to what it reaches. *)
From S2P Require Import Prelude Errors CheckedMath Prog Concur ProcIdentity OwnerSnapshot.
From S2P Require Import ShmObject ChannelLayout MpmcLayout MpmcQueue MpmcApi MpmcProtocol.
From S2P Require Import MpmcSafety MpmcSnapshot MpmcClient.

(** * A concrete queue *)

Module Demo.
Definition identity (t : tid) : ProcessIdentity := mkIdentity (100 + Z.of_nat t) 7 5 9.
Definition handle (t : tid) : MpmcQueueHandle :=
  mkHandle (mkShmObject "/edgeruntime.mpmc.1000.q" 3 1 1 576) "/edgeruntime.mpmc.1000.q"
    (identity t) 128 true false.
Definition memory (l : mloc) : Z :=
  match l with
  | HField hf_capacity => 2
  | HField hf_payload_size => 1
  | HField hf_init_state => mi_kReady
  | SSequence i => i
  | _ => 0
  end.
Definition quiet_os : os_model unit := fun X c _ => (sys_default c, tt).
Definition seven : message 1 := exist _ [7] eq_refl.

Lemma users : users_ok 2 1 handle.
Proof. split; [by vm_compute..|]. intros t. by vm_compute. Qed.

Lemma fresh : fresh_queue 2 1 memory.
Proof. split; try done; by intros []. Qed.

Abbreviation run_op t op s :=
  (solo (P := mpmc_protocol 2 1 (users_ident handle)) quiet_os t (mpmc_impl 1 handle t op) s tt).

Abbreviation s1 := (run_op 0%nat (OpPush seven) (mkCst memory ghost0)).1.2.

Lemma push_returns :
  (run_op 0%nat (OpPush seven) (mkCst memory ghost0)).1.1 = ResPush (Some (Ok tt)).
Proof. by vm_compute. Qed.
Lemma pop_returns : (run_op 1%nat OpPop s1).1.1 = ResPop (Some (Ok [7])).
Proof. by vm_compute. Qed.

(** Thread 0 has pushed [7] and thread 1 has taken it. *)
Lemma reached :
  exists c, mpmc_reachable 2 1 handle memory c /\
    hist_of c 0%nat = [(OpPush seven, ResPush (Some (Ok tt)))] /\
    hist_of c 1%nat = [(OpPop, ResPop (Some (Ok [7])))] /\
    (forall t, is_idle c t) /\ (forall t, t <> 0%nat -> t <> 1%nat -> hist_of c t = []).
Proof.
  destruct (solo_reachable (P := mpmc_protocol 2 1 (users_ident handle)) quiet_os
    (fun t _ op => mpmc_impl 1 handle t op) (mkCst memory ghost0) (initial (mkCst memory ghost0)) 0%nat
    (OpPush seven) [] tt) as (c1 & Hr1 & Hs1 & Ht1 & Hu1); [apply rtc_refl|done|].
  cbn [cf_st initial] in Hs1, Ht1. rewrite push_returns in Ht1.
  destruct (solo_reachable (P := mpmc_protocol 2 1 (users_ident handle)) quiet_os
    (fun t _ op => mpmc_impl 1 handle t op) (mkCst memory ghost0) c1 1%nat OpPop [] tt)
    as (c2 & Hr2 & Hs2 & Ht2 & Hu2); [done|by rewrite Hu1|].
  rewrite Hs1, pop_returns in Ht2.
  exists c2. split; [exact Hr2|]. unfold hist_of, is_idle. rewrite (Hu2 0%nat) by discriminate.
  rewrite Ht1, Ht2. split; [reflexivity|]. split; [reflexivity|]. clear Hs1 Hs2 Hr1 Hr2.
  split; intros t.
  - destruct (decide (t = 1%nat)) as [->|H1]; [by rewrite Ht2|]. rewrite (Hu2 t) by exact H1.
    destruct (decide (t = 0%nat)) as [->|H0]; [by rewrite Ht1|]. by rewrite (Hu1 t).
  - intros H0 H1. by rewrite (Hu2 t), (Hu1 t).
Qed.

(** Thread 0 has stopped for good inside a push, with the enqueue gate taken. *)
Abbreviation s_stopped :=
  (solo_n (P := mpmc_protocol 2 1 (users_ident handle)) quiet_os 50 0%nat
     (mpmc_impl 1 handle 0%nat (OpPush seven)) (mkCst memory ghost0) tt).2.

Definition seen_owner : OwnerSnapshot := mkSnapshot osk_Stable ml_kOwned (identity 0%nat) 2.

Lemma owner_returns : (run_op 1%nat (OpGateOwner true) s_stopped).1.1 = ResOwner seen_owner.
Proof. by vm_compute. Qed.
Lemma positions_returns :
  (run_op 1%nat OpPositions s_stopped).1.1 = ResPositions (Ok (0, 0)).
Proof. by vm_compute. Qed.

(** Thread 1 looks at the queue meanwhile. *)
Lemma observed op r :
  (run_op 1%nat op s_stopped).1.1 = r ->
  exists c, mpmc_reachable 2 1 handle memory c /\ hist_of c 1%nat = [(op, r)].
Proof.
  intros Hop.
  destruct (solo_n_reachable (P := mpmc_protocol 2 1 (users_ident handle)) quiet_os
    (fun t _ op => mpmc_impl 1 handle t op) 50 (mkCst memory ghost0) (initial (mkCst memory ghost0)) 0%nat
    (OpPush seven) [] tt) as (c1 & Hr1 & Hs1 & Ht1 & Hu1); [apply rtc_refl|done|].
  destruct (solo_reachable (P := mpmc_protocol 2 1 (users_ident handle)) quiet_os
    (fun t _ op => mpmc_impl 1 handle t op) (mkCst memory ghost0) c1 1%nat op [] tt)
    as (c2 & Hr2 & Hs2 & Ht2 & Hu2); [exact Hr1|by rewrite Hu1|].
  cbn [cf_st initial] in Hs1. rewrite Hs1, Hop in Ht2. exists c2. split; [exact Hr2|].
  unfold hist_of. by rewrite Ht2.
Qed.
End Demo.

(** * First in, first out *)

(** C1: every reachable configuration of any number of users of a queue, however
    their accesses interleave and wherever threads stop, has one global sequence
    of published messages such that: its length is the enqueue position and at
    most [capacity] ahead of the dequeue position; the messages taken so far are
    its first ones, in order; the finished pushes and pops of an idle thread are
    exactly its share of the sequence, in order; and a thread inside a call has
    at most one message more than its finished calls returned. *)
Theorem mpmc_fifo cap ps hdl m0 c :
  users_ok cap ps hdl -> fresh_queue cap ps m0 -> mpmc_reachable cap ps hdl m0 c ->
  exists lg pp, fifo cap ps c lg pp.
Proof. intros Hu Hf Hr. eexists _, _. by eapply reachable_fifo. Qed.

Lemma mpmc_fifo_witness :
  exists c : mpmc_config 1, hist_of c 1%nat = [(OpPop, ResPop (Some (Ok [7])))] /\ exists lg pp, fifo 2 1 c lg pp.
Proof.
  destruct Demo.reached as (c & Hr & _ & Hh & _). exists c. split; [exact Hh|].
  exact (mpmc_fifo 2 1 Demo.handle Demo.memory c Demo.users Demo.fresh Hr).
Defined.

(** * Nothing is lost, duplicated or altered *)

(** The messages in the slots of the tickets that are published and not taken. *)
Definition pending (cap ps : Z) (m : mloc -> Z) : list (list Z) :=
  let d := m (HField hf_dequeue_position) in
  map (fun i => payload_of ps m ((d + i) mod cap))
    (indices (m (HField hf_enqueue_position) - d)).

(** Splitting a list by owner and putting the parts together again. *)
Definition owned {A} (xs : list (tid * A)) (t : tid) : list A :=
  snd <$> filter (fun x => fst x = t) xs.

Lemma owned_cons {A} u (a : A) xs t :
  owned ((u, a) :: xs) t = (if decide (u = t) then [a] else []) ++ owned xs t.
Proof. unfold owned. rewrite filter_cons. simpl. by case_decide. Qed.

Lemma owned_skip {A} u (a : A) xs ts :
  u ∉ ts -> map (owned ((u, a) :: xs)) ts = map (owned xs) ts.
Proof.
  intros Hu. apply map_ext_in. intros t Ht. rewrite owned_cons, decide_False; [done|].
  intros ->. apply Hu. by apply list_elem_of_In.
Qed.

Lemma split_by_owner {A} (ts : list tid) (xs : list (tid * A)) :
  NoDup ts -> (forall x, x ∈ xs -> fst x ∈ ts) ->
  concat (map (owned xs) ts) ≡ₚ snd <$> xs.
Proof.
  intros Hnd. induction xs as [|[u a] xs IH]; intros Hin.
  - clear Hnd Hin. by induction ts.
  - cbn [fmap list_fmap]. rewrite <- IH by (intros x Hx; apply Hin; by right).
    assert (u ∈ ts) as Hu by (apply (Hin (u, a)); by left).
    clear IH Hin. induction ts as [|t ts IHt]; [by apply elem_of_nil in Hu|].
    apply NoDup_cons in Hnd as [Hnt Hnd]. cbn [map concat]. rewrite owned_cons.
    case_decide as Hut.
    + subst t. by rewrite owned_skip.
    + apply elem_of_cons in Hu as [Hu|Hu]; [congruence|].
      rewrite (IHt Hnd Hu). simpl. by rewrite Permutation_middle.
Qed.

Lemma popped_by_owner t pp lg :
  popped_by t pp lg = owned ((fun x => (x.1, x.2.2)) <$> zip pp lg) t.
Proof.
  unfold popped_by, owned. generalize (zip pp lg). intros l. induction l as [|[u x] l IH]; [done|].
  rewrite fmap_cons, !filter_cons. cbn [fst snd].
  case_decide; rewrite ?fmap_cons; cbn [fst snd]; by rewrite IH.
Qed.

Lemma zip_snd_take {A B C} (l : list A) (k : list (B * C)) :
  (length l <= length k)%nat -> snd <$> ((fun x => (x.1, x.2.2)) <$> zip l k) = take (length l) (snd <$> k).
Proof.
  revert k. induction l as [|x l IH]; intros [|y k] H; simpl in *; try done; try lia.
  f_equal. apply IH. lia.
Qed.

(** A thread without entries owns nothing. *)
Lemma filter_owner_nil {A} t (xs : list (tid * A)) x :
  owned xs t = [] -> x ∈ xs -> fst x <> t.
Proof.
  unfold owned. intros H Hx Heq. apply fmap_nil_inv in H.
  assert (x ∈ filter (fun x => fst x = t) xs) as Hf by (by apply list_elem_of_filter).
  rewrite H in Hf. by apply elem_of_nil in Hf.
Qed.

Lemma owned_all {A} (xs : list (tid * A)) v :
  (forall w, w <> v -> owned xs w = []) -> owned xs v = snd <$> xs.
Proof.
  induction xs as [|[u a] xs IH]; intros Hv; [done|]. rewrite owned_cons.
  destruct (decide (u = v)) as [->|Hne].
  - simpl. f_equal. apply IH. intros w Hw. specialize (Hv w Hw). rewrite owned_cons in Hv.
    by apply app_eq_nil in Hv as [_ ?].
  - specialize (Hv u Hne). by rewrite owned_cons, decide_True in Hv.
Qed.

(** No thread is inside a call. *)
Definition quiescent {ps} (c : mpmc_config ps) : Prop := forall t, is_idle c t.

Section Quiescent.
Context (cap ps : Z) (hdl : tid -> MpmcQueueHandle) (m0 : mloc -> Z) (c : mpmc_config ps).
Hypothesis users : users_ok cap ps hdl.
Hypothesis fresh : fresh_queue cap ps m0.
Hypothesis reach : mpmc_reachable cap ps hdl m0 c.
Hypothesis quiet : quiescent c.

(** In a quiescent queue the slots hold the messages of the log. *)
Lemma quiescent_pending :
  pending cap ps (mem_of c) = drop (length (pops (cf_st c))) (snd <$> log (cf_st c)).
Proof.
  destruct (reachable_ok cap ps hdl m0 users fresh c reach) as [Hi Ht].
  set (s := cf_st c) in *.
  pose proof (inv_log _ _ _ _ Hi) as Hll. pose proof (inv_pops _ _ _ _ Hi) as Hlp.
  pose proof (inv_order _ _ _ _ Hi) as Hord. pose proof (inv_window _ _ _ _ Hi) as Hwin.
  assert (forall side, dirty side s = false) as Hd.
  { intros side. pose proof (inv_gate _ _ _ _ Hi side) as Hg. unfold gate_inv in Hg.
    destruct (holder side s) as [t|] eqn:Hh; [|by destruct Hg].
    specialize (Ht t). unfold thread_ok in Ht. rewrite (quiet t) in Ht.
    by destruct (fr_holder _ _ _ _ (proj1 Ht) side). }
  unfold pending, mem_of. fold s. change (c_mem s (HField hf_dequeue_position)) with (pos false s).
  change (c_mem s (HField hf_enqueue_position)) with (pos true s).
  apply list_eq. intros i. unfold indices. rewrite lookup_drop, map_map, !list_lookup_fmap.
  destruct (decide (i < Z.to_nat (pos true s - pos false s))%nat) as [Hlt|Hge].
  - rewrite lookup_seq_lt by done. simpl.
    destruct (inv_slots _ _ _ _ Hi (pos false s + Z.of_nat i) ltac:(lia))
      as [[_ Hb]|[[[_ Hb] _]|Hok]]; [by rewrite Hd in Hb..|].
    unfold slot_ok in Hok. rewrite decide_True in Hok by lia. destruct Hok as (_ & _ & u & Hu).
    replace (length (pops s) + i)%nat with (Z.to_nat (pos false s + Z.of_nat i)) by lia.
    by rewrite Hu.
  - rewrite lookup_seq_ge by lia. simpl.
    rewrite (lookup_ge_None_2 (log s)) by lia. done.
Qed.

Lemma owners_in_threads {A} (ts : list tid) (xs : list (tid * A)) :
  (forall t, t ∉ ts -> owned xs t = []) -> forall x, x ∈ xs -> fst x ∈ ts.
Proof.
  intros H x Hx. destruct (decide (fst x ∈ ts)) as [|Hn]; [done|].
  by destruct (filter_owner_nil (fst x) xs x (H _ Hn) Hx).
Qed.

Lemma quiescent_conservation (ts : list tid) :
  NoDup ts -> (forall t, t ∉ ts -> hist_of c t = []) ->
  concat (map (fun t => pops_of (hist_of c t)) ts) ++ pending cap ps (mem_of c)
    ≡ₚ concat (map (fun t => pushes_of (hist_of c t)) ts).
Proof.
  intros Hnd Hts. destruct (reachable_fifo cap ps hdl m0 users fresh c reach)
    as [_ _ [Hle _] Hidle _].
  set (lg := log (cf_st c)) in *. set (pp := pops (cf_st c)) in *.
  assert (map (fun t => pushes_of (hist_of c t)) ts = map (owned lg) ts) as ->.
  { apply map_ext. intros t. by destruct (Hidle t (quiet t)). }
  assert (map (fun t => pops_of (hist_of c t)) ts
          = map (owned ((fun x => (x.1, x.2.2)) <$> zip pp lg)) ts) as ->.
  { apply map_ext. intros t. destruct (Hidle t (quiet t)) as [_ ->]. apply popped_by_owner. }
  rewrite quiescent_pending. fold lg pp. rewrite !split_by_owner; try done.
  - rewrite zip_snd_take by done. by rewrite take_drop.
  - apply owners_in_threads. intros t Ht. destruct (Hidle t (quiet t)) as [H _].
    rewrite (Hts t Ht) in H. exact (eq_sym H).
  - apply owners_in_threads. intros t Ht. destruct (Hidle t (quiet t)) as [_ H].
    rewrite (Hts t Ht) in H. rewrite <- popped_by_owner. by rewrite <- H.
Qed.

Lemma quiescent_one_producer_one_consumer (u t : tid) :
  (forall w, w <> u -> pushes_of (hist_of c w) = []) ->
  (forall w, w <> t -> pops_of (hist_of c w) = []) ->
  pops_of (hist_of c t) ++ pending cap ps (mem_of c) = pushes_of (hist_of c u).
Proof.
  intros Hu Ht. destruct (reachable_fifo cap ps hdl m0 users fresh c reach)
    as [_ _ [Hle _] Hidle _].
  set (lg := log (cf_st c)) in *. set (pp := pops (cf_st c)) in *.
  rewrite quiescent_pending. fold lg pp.
  destruct (Hidle u (quiet u)) as [-> _]. destruct (Hidle t (quiet t)) as [_ ->].
  change (pushed_by u lg) with (owned lg u). rewrite (owned_all lg u), popped_by_owner.
  - rewrite owned_all, zip_snd_take, take_drop; [done|done|].
    intros w Hw. destruct (Hidle w (quiet w)) as [_ H]. rewrite (Ht w Hw) in H.
    by rewrite <- popped_by_owner.
  - intros w Hw. destruct (Hidle w (quiet w)) as [H _]. by rewrite (Hu w Hw) in H.
Qed.
End Quiescent.

(** C2: when no thread is inside a call, the messages taken by all threads and
    the messages still in the queue's slots are together exactly the messages
    that were pushed: none is lost, delivered twice or altered. *)
Theorem mpmc_conservation cap ps hdl m0 c ts :
  users_ok cap ps hdl -> fresh_queue cap ps m0 -> mpmc_reachable cap ps hdl m0 c ->
  quiescent c -> NoDup ts -> (forall t, t ∉ ts -> hist_of c t = []) ->
  concat (map (fun t => pops_of (hist_of c t)) ts) ++ pending cap ps (mem_of c)
    ≡ₚ concat (map (fun t => pushes_of (hist_of c t)) ts).
Proof. intros. by eapply quiescent_conservation. Qed.

Lemma mpmc_conservation_witness :
  exists c : mpmc_config 1, hist_of c 1%nat = [(OpPop, ResPop (Some (Ok [7])))] /\
    concat (map (fun t => pops_of (hist_of c t)) [0%nat; 1%nat]) ++ pending 2 1 (mem_of c)
      ≡ₚ concat (map (fun t => pushes_of (hist_of c t)) [0%nat; 1%nat]).
Proof.
  destruct Demo.reached as (c & Hr & _ & Hh & Hq & Hn). exists c. split; [exact Hh|].
  apply (mpmc_conservation 2 1 Demo.handle Demo.memory c [0%nat; 1%nat] Demo.users Demo.fresh
           Hr Hq).
  - apply (bool_decide_unpack _). by vm_compute.
  - intros t Ht. rewrite !not_elem_of_cons in Ht. apply Hn; tauto.
Defined.

(** With one pushing and one popping thread, what was taken followed by what
    is still in the queue is the sequence of pushes, in the order of the pushes. *)
Theorem mpmc_order cap ps hdl m0 c u t :
  users_ok cap ps hdl -> fresh_queue cap ps m0 -> mpmc_reachable cap ps hdl m0 c ->
  quiescent c -> (forall w, w <> u -> pushes_of (hist_of c w) = []) ->
  (forall w, w <> t -> pops_of (hist_of c w) = []) ->
  pops_of (hist_of c t) ++ pending cap ps (mem_of c) = pushes_of (hist_of c u).
Proof. intros. by eapply quiescent_one_producer_one_consumer. Qed.

Lemma mpmc_order_witness :
  exists c : mpmc_config 1, hist_of c 1%nat = [(OpPop, ResPop (Some (Ok [7])))] /\
    pops_of (hist_of c 1%nat) ++ pending 2 1 (mem_of c) = pushes_of (hist_of c 0%nat).
Proof.
  destruct Demo.reached as (c & Hr & Hh0 & Hh & Hq & Hn). exists c. split; [exact Hh|].
  apply (mpmc_order 2 1 Demo.handle Demo.memory c 0%nat 1%nat Demo.users Demo.fresh Hr Hq).
  - intros w Hw. destruct (decide (w = 1%nat)) as [->|H1]; [by rewrite Hh|].
    by rewrite (Hn w Hw H1).
  - intros w Hw. destruct (decide (w = 0%nat)) as [->|H0]; [by rewrite Hh0|].
    by rewrite (Hn w H0 Hw).
Defined.

(** * What observers see *)

(** C4: the owner snapshot of a gate is never torn. When it reports a stable
    owner, the four identity fields, read one by one while other processes take
    and release the gate, are together the identity of one user of the queue; and
    the owner pids that [status] reports are 0 or the pid of a user. *)
Theorem mpmc_owner_untorn cap ps hdl m0 c t :
  users_ok cap ps hdl -> fresh_queue cap ps m0 -> mpmc_reachable cap ps hdl m0 c ->
  (forall side o, (OpGateOwner side, ResOwner o) ∈ hist_of c t -> os_kind o = osk_Stable ->
     exists u, os_owner o = h_self (hdl u)) /\
  (forall st, (OpStatus, ResStatus (Ok st)) ∈ hist_of c t ->
     pid_real (users_ident hdl) (qs_enqueue_owner_pid st) /\
     pid_real (users_ident hdl) (qs_dequeue_owner_pid st)).
Proof.
  intros Hu Hf Hr. destruct (reachable_past cap ps hdl m0 Hu Hf c Hr t) as (_ & _ & HT).
  rewrite Forall_forall in HT. split.
  - intros side o Ho. exact (HT _ Ho).
  - intros st Hst. exact (HT _ Hst).
Qed.

Lemma mpmc_owner_untorn_witness :
  exists c : mpmc_config 1,
    (OpGateOwner true, ResOwner Demo.seen_owner) ∈ hist_of c 1%nat /\
    exists u, os_owner Demo.seen_owner = h_self (Demo.handle u).
Proof.
  destruct (Demo.observed (OpGateOwner true) _ Demo.owner_returns) as (c & Hr & Hh).
  assert ((OpGateOwner true, ResOwner Demo.seen_owner) ∈ hist_of c 1%nat) as Hin
    by (rewrite Hh; by left).
  exists c. split; [exact Hin|].
  exact (proj1 (mpmc_owner_untorn 2 1 Demo.handle Demo.memory c 1%nat Demo.users Demo.fresh Hr)
           true Demo.seen_owner Hin eq_refl).
Defined.

(** C5: the two positions a snapshot returns are ordered and at most [capacity]
    apart, although they are read by four separate loads while others move them:
    [validate_queue_positions] never reports a healthy queue as inconsistent. *)
Theorem mpmc_positions_consistent cap ps hdl m0 c t e d operation :
  users_ok cap ps hdl -> fresh_queue cap ps m0 -> mpmc_reachable cap ps hdl m0 c ->
  (OpPositions, ResPositions (Ok (e, d))) ∈ hist_of c t ->
  validate_queue_positions e d cap operation = Ok tt.
Proof.
  intros Hu Hf Hr Hin. destruct (reachable_past cap ps hdl m0 Hu Hf c Hr t) as (_ & _ & HT).
  rewrite Forall_forall in HT. specialize (HT _ Hin). unfold call_true in HT. simpl in HT.
  pose proof (uo_capacity _ _ _ Hu). unfold validate_queue_positions. rewrite u64_small by mlia.
  bdestr (e <? d); [lia|]. bdestr (cap <? e - d); [lia|done].
Qed.

Lemma mpmc_positions_consistent_witness :
  exists c : mpmc_config 1,
    (OpPositions, ResPositions (Ok (0, 0))) ∈ hist_of c 1%nat /\
    validate_queue_positions 0 0 2 op_push = Ok tt.
Proof.
  destruct (Demo.observed OpPositions _ Demo.positions_returns) as (c & Hr & Hh).
  assert ((OpPositions, ResPositions (Ok (0, 0))) ∈ hist_of c 1%nat) as Hin
    by (rewrite Hh; by left).
  exists c. split; [exact Hin|].
  exact (mpmc_positions_consistent 2 1 Demo.handle Demo.memory c 1%nat 0 0 op_push Demo.users
           Demo.fresh Hr Hin).
Defined.
