(* ===== verification/MpmcBenchPayload.v ===== *)
(** The self-checking messages of the queue's benchmark,
    [tools/include/edge_runtime_tool/mpmc_bench_payload.hpp], and what they share with
    those of the pool's benchmark.

    A message has a header of 40 bytes with a checksum at offset 32 and a body whose bytes
    follow from the sender and the sequence number; the receivers refuse a message that is
    not one of those. *)
From S2P Require Import Prelude ByteFields Checksum ChannelLayout.

Definition kPatternProducer : Z := 11400714819323198485. (* 0x9E3779B97F4A7C15 *)
Definition kPatternSequence : Z := 15111065706836454659. (* 0xD1B54A32D192ED03 *)
Definition kChecksumOffset : Z := 32.

(** The loop of both [checksum] functions: the eight bytes of the checksum itself are
    passed over. *)
Fixpoint checksum_loop (bytes : list Z) (i result : Z) : Z :=
  match bytes with
  | [] => result
  | byte :: bytes' =>
      checksum_loop bytes' (i + 1)
        (if (kChecksumOffset <=? i) && (i <? kChecksumOffset + 8) then result
         else fnv_step result byte)
  end.

Definition body_byte (producer sequence offset : Z) : Z :=
  Z.land (u64 (producer * kPatternProducer + sequence * kPatternSequence + offset)) 255.

(** One round of the generators of [fingerprint] and [schema_fingerprint], and the bytes it
    gives: none of them is 0. *)
Definition fingerprint_round (state : Z) : Z :=
  let state := Z.lxor state (Z.shiftr state 29) in
  let state := u64 (state * 10723151780598845931) in (* 0x94D049BB133111EB *)
  Z.lxor state (Z.shiftr state 31).
Fixpoint fingerprint_loop (n i : nat) (state : Z) : list Z :=
  match n with
  | O => []
  | S n' =>
      let state := fingerprint_round state in
      let value := Z.land (Z.shiftr state (Z.of_nat (i mod 8) * 8)) 255 in
      (if value =? 0 then 167 else value) :: fingerprint_loop n' (S i) state
  end.

(** * The queue's messages *)

Definition kPayloadMagic : Z := 4995139943829160497. (* 0x45524D50434D4231 *)
Definition kPayloadHeaderBytes : nat := 40.

Record Payload : Type := mkPayload {
  pl_magic : Z;
  pl_producer : Z;
  pl_reserved : Z;
  pl_sequence : Z;
  pl_send_time_ns : Z;
  pl_checksum : Z;
  pl_body : list Z
}.

(** The object representation. *)
Definition payload_bytes (p : Payload) : list Z :=
  le_bytes 8 (pl_magic p) ++ le_bytes 4 (pl_producer p) ++ le_bytes 4 (pl_reserved p) ++
  le_bytes 8 (pl_sequence p) ++ le_bytes 8 (pl_send_time_ns p) ++ le_bytes 8 (pl_checksum p) ++
  pl_body p.
Definition payload_of_bytes (bs : list Z) : Payload :=
  mkPayload (field_at bs 0 8) (field_at bs 8 4) (field_at bs 12 4) (field_at bs 16 8)
    (field_at bs 24 8) (field_at bs 32 8) (drop 40 bs).

Definition checksum (p : Payload) : Z := checksum_loop (payload_bytes p) 0 kOffsetBasis.

Definition make_payload (kSize : nat) (producer sequence send_time_ns : Z) : Payload :=
  let body := map (fun i => body_byte producer sequence (Z.of_nat i))
                (seq 0 (kSize - kPayloadHeaderBytes)) in
  let payload sum := mkPayload kPayloadMagic producer 0 sequence send_time_ns sum body in
  payload (checksum (payload 0)).

(** [*latency_ns], when the payload is valid. *)
Definition valid_payload (kSize : nat) (p : Payload) (producer_count messages_per_producer now_ns : Z)
    : option Z :=
  if negb (pl_magic p =? kPayloadMagic) || negb (pl_reserved p =? 0)
     || (producer_count <=? pl_producer p) || (messages_per_producer <=? pl_sequence p)
     || (pl_send_time_ns p =? 0) || (now_ns <? pl_send_time_ns p)
  then None
  else
  let expected := make_payload kSize (pl_producer p) (pl_sequence p) (pl_send_time_ns p) in
  if negb (bool_decide (pl_body expected = pl_body p)) || negb (pl_checksum expected =? pl_checksum p)
  then None
  else Some (now_ns - pl_send_time_ns p).

Definition schema_seed (payload_size : Z) : Z := foldl fnv_step kOffsetBasis (le_bytes 8 payload_size).
Definition schema_fingerprint (payload_size : Z) : list Z :=
  fingerprint_loop 32 0 (schema_seed payload_size).
Definition schema (kSize : Z) : SchemaDescriptor := mkSchema (schema_fingerprint kSize) 1.

(** * Sealed frames *)

(** A frame whose checksum field holds the checksum of the rest. *)
Definition frame_checksum (bs : list Z) : Z := checksum_loop bs 0 kOffsetBasis.
Definition sealed (bs : list Z) : Prop := bytes_at bs 32 8 = le_bytes 8 (frame_checksum bs).

Lemma checksum_loop_skip bs i result :
  32 <= i -> checksum_loop bs i result = foldl fnv_step result (drop (Z.to_nat (40 - i)) bs).
Proof.
  revert i result. induction bs as [|b bs IH]; intros i result Hi; [by rewrite drop_nil|].
  cbn [checksum_loop]. unfold kChecksumOffset. destruct (decide (i < 40)).
  - replace ((32 <=? i) && (i <? 32 + 8)) with true by lia.
    rewrite IH by lia. replace (Z.to_nat (40 - i)) with (S (Z.to_nat (40 - (i + 1)))) by lia. done.
  - replace ((32 <=? i) && (i <? 32 + 8)) with false by lia.
    rewrite IH by lia. by replace (Z.to_nat (40 - i)) with 0%nat by lia;
      replace (Z.to_nat (40 - (i + 1))) with 0%nat by lia.
Qed.

Lemma checksum_loop_before bs i result :
  0 <= i <= 32 ->
  checksum_loop bs i result =
  foldl fnv_step result (take (Z.to_nat (32 - i)) bs ++ drop (Z.to_nat (40 - i)) bs).
Proof.
  revert i result. induction bs as [|b bs IH]; intros i result Hi; [by rewrite take_nil, drop_nil|].
  destruct (decide (i = 32)) as [->|]; [by rewrite checksum_loop_skip|].
  cbn [checksum_loop]. unfold kChecksumOffset.
  replace ((32 <=? i) && (i <? 32 + 8)) with false by lia. rewrite IH by lia.
  replace (Z.to_nat (32 - i)) with (S (Z.to_nat (32 - (i + 1)))) by lia.
  by replace (Z.to_nat (40 - i)) with (S (Z.to_nat (40 - (i + 1)))) by lia.
Qed.

(** The loop is FNV-1a of the bytes around the field. *)
Lemma frame_checksum_eq bs : frame_checksum bs = fnv1a64 (take 32 bs ++ drop 40 bs).
Proof. unfold frame_checksum, fnv1a64. by rewrite checksum_loop_before. Qed.

Lemma frame_checksum_range bs : is_u64 (frame_checksum bs).
Proof. rewrite frame_checksum_eq. apply fnv1a64_range. Qed.

(** Writing the checksum into its field seals a frame. *)
Lemma seal_sealed bs :
  (40 <= length bs)%nat -> sealed (take 32 bs ++ le_bytes 8 (frame_checksum bs) ++ drop 40 bs).
Proof.
  intros Hl. unfold sealed. rewrite bytes_at_skip by (rewrite length_take; lia).
  rewrite length_take, Nat.min_l by lia. rewrite bytes_at_here by apply le_bytes_length.
  f_equal. rewrite !frame_checksum_eq. f_equal.
  rewrite take_app_le by (rewrite length_take; lia). rewrite take_take, Nat.min_id. f_equal.
  rewrite drop_app_ge by (rewrite length_take; lia). rewrite length_take, Nat.min_l by lia.
  rewrite drop_app_ge by (rewrite le_bytes_length; lia). by rewrite le_bytes_length.
Qed.

(** Changing one byte of a message changes its FNV-1a sum. *)
Lemma fnv1a64_insert (bs : list Z) p b b' :
  bs !! p = Some b -> is_byte b -> is_byte b' -> fnv1a64 (<[p:=b']> bs) = fnv1a64 bs -> b' = b.
Proof.
  intros Hp Hb Hb' He. apply lookup_lt_Some in Hp as Hlt.
  destruct (decide (b' = b)) as [|Hne]; [done|]. exfalso.
  rewrite insert_take_drop in He by done. rewrite <- (take_drop_middle bs p b Hp) in He at 3.
  by apply fnv1a64_single_byte in He.
Qed.

(** The bytes around the field after a change outside it. *)
Lemma around_insert (bs : list Z) p b b' :
  (40 <= length bs)%nat -> bs !! p = Some b -> ~ (32 <= p < 40)%nat ->
  exists q, (take 32 bs ++ drop 40 bs) !! q = Some b /\
    take 32 (<[p:=b']> bs) ++ drop 40 (<[p:=b']> bs) = <[q:=b']> (take 32 bs ++ drop 40 bs).
Proof.
  intros Hl Hp Hout. destruct (decide (p < 32)%nat).
  - exists p. rewrite lookup_app_l by (rewrite length_take; lia). rewrite lookup_take_lt by lia.
    split; [done|]. rewrite take_insert_lt, drop_insert_lt by lia.
    rewrite insert_app_l by (rewrite length_take; lia). done.
  - exists (p - 8)%nat. rewrite lookup_app_r by (rewrite length_take; lia).
    rewrite length_take, Nat.min_l, lookup_drop by lia. replace (40 + (p - 8 - 32))%nat with p by lia.
    split; [done|]. rewrite take_insert_ge, drop_insert_ge by lia.
    rewrite insert_app_r_alt by (rewrite length_take; lia). rewrite length_take, Nat.min_l by lia.
    by replace (p - 8 - 32)%nat with (p - 40)%nat by lia.
Qed.

(** Two sealed frames never differ in exactly one byte. *)
Lemma sealed_one_byte (bs : list Z) p b b' :
  (40 <= length bs)%nat -> bs !! p = Some b -> is_byte b -> is_byte b' ->
  sealed bs -> sealed (<[p:=b']> bs) -> b' = b.
Proof.
  intros Hl Hp Hb Hb' Hs Hs'. apply lookup_lt_Some in Hp as Hlt.
  unfold sealed, bytes_at in *. destruct (decide (32 <= p < 40)%nat) as [Hin|Hout].
  - assert (frame_checksum (<[p:=b']> bs) = frame_checksum bs) as He.
    { rewrite !frame_checksum_eq. rewrite take_insert_ge by lia. by rewrite drop_insert_lt by lia. }
    rewrite He, <- Hs in Hs'. apply (f_equal (fun l => l !! (p - 32)%nat)) in Hs'.
    rewrite !lookup_take_lt, !lookup_drop in Hs' by lia. replace (32 + (p - 32))%nat with p in Hs' by lia.
    rewrite list_lookup_insert_eq in Hs' by done. congruence.
  - assert (take 8 (drop 32 (<[p:=b']> bs)) = take 8 (drop 32 bs)) as Hf.
    { destruct (decide (p < 32)%nat); [by rewrite drop_insert_lt by lia|].
      rewrite drop_insert_ge by lia. by rewrite take_insert_ge by lia. }
    rewrite Hf, Hs in Hs'. pose proof (frame_checksum_range bs). pose proof (frame_checksum_range (<[p:=b']> bs)).
    apply le_bytes_inj in Hs'; [|mlia|mlia]. rewrite !frame_checksum_eq in Hs'.
    destruct (around_insert bs p b b' Hl Hp Hout) as (q & Hq & Hx). rewrite Hx in Hs'.
    by apply (fnv1a64_insert _ q b b' Hq).
Qed.

(** ** The queue's messages are sealed *)

#[local] Opaque checksum_loop.

Lemma body_byte_byte producer sequence i : is_byte (body_byte producer sequence i).
Proof.
  unfold body_byte. change 255 with (Z.ones 8). rewrite Z.land_ones by lia.
  pose proof (Z.mod_pos_bound (u64 (producer * kPatternProducer + sequence * kPatternSequence + i)) (2 ^ 8)).
  unfold is_byte. lia.
Qed.

Ltac payload_fields :=
  cbn [pl_magic pl_producer pl_reserved pl_sequence pl_send_time_ns pl_checksum pl_body] in *.

(** The fields have their widths and the body its length. *)
Record payload_ok (kSize : nat) (p : Payload) : Prop := {
  po_magic : is_u64 (pl_magic p);
  po_producer : is_u32 (pl_producer p);
  po_reserved : is_u32 (pl_reserved p);
  po_sequence : is_u64 (pl_sequence p);
  po_time : is_u64 (pl_send_time_ns p);
  po_checksum : is_u64 (pl_checksum p);
  po_body : length (pl_body p) = (kSize - kPayloadHeaderBytes)%nat
}.

Lemma payload_bytes_length kSize p :
  (40 <= kSize)%nat -> payload_ok kSize p -> length (payload_bytes p) = kSize.
Proof.
  intros Hk []. unfold payload_bytes, kPayloadHeaderBytes in *. rewrite !length_app, !le_bytes_length. lia.
Qed.

Lemma payload_roundtrip kSize p : payload_ok kSize p -> payload_of_bytes (payload_bytes p) = p.
Proof.
  intros []. destruct p as [magic producer reserved sequence time sum body].
  unfold payload_of_bytes, payload_bytes. payload_fields.
  f_equal; seek; cbn [Nat.sub]; apply field_at_here; mlia.
Qed.

Lemma payload_checksum_frame p : checksum p = frame_checksum (payload_bytes p).
Proof. reflexivity. Qed.

Lemma make_payload_ok kSize producer sequence time :
  is_u32 producer -> is_u64 sequence -> is_u64 time -> payload_ok kSize (make_payload kSize producer sequence time).
Proof.
  intros Hp Hs Ht. unfold make_payload.
  split; payload_fields;
    try assumption; try (unfold kPayloadMagic; mlia).
  - rewrite payload_checksum_frame. apply frame_checksum_range.
  - by rewrite length_map, length_seq.
Qed.

(** The receiver accepts exactly the messages that are made. *)
Lemma valid_payload_made kSize p producers messages now latency :
  valid_payload kSize p producers messages now = Some latency <->
  p = make_payload kSize (pl_producer p) (pl_sequence p) (pl_send_time_ns p) /\
  pl_producer p < producers /\ pl_sequence p < messages /\
  pl_send_time_ns p <> 0 /\ pl_send_time_ns p <= now /\ latency = now - pl_send_time_ns p.
Proof.
  destruct p as [magic producer reserved sequence time sum body]. unfold valid_payload.
  payload_fields.
  assert (forall e, pl_magic e = kPayloadMagic -> pl_producer e = producer -> pl_reserved e = 0 ->
    pl_sequence e = sequence -> pl_send_time_ns e = time ->
    mkPayload magic producer reserved sequence time sum body = e <->
    magic = kPayloadMagic /\ reserved = 0 /\ pl_body e = body /\ pl_checksum e = sum) as He.
  { intros [] H1 H2 H3 H4 H5. payload_fields. split; [intros [=]; by subst|]. intros (-> & -> & -> & ->). by subst. }
  rewrite (He (make_payload kSize producer sequence time)) by reflexivity. clear He.
  set (e := make_payload kSize producer sequence time).
  destruct (Z.eqb_spec magic kPayloadMagic); cbn [negb orb]; [|split; [done|tauto]].
  destruct (Z.eqb_spec reserved 0); cbn [negb orb]; [|split; [done|tauto]].
  destruct (Z.leb_spec producers producer); cbn [orb]; [split; [done|lia]|].
  destruct (Z.leb_spec messages sequence); cbn [orb]; [split; [done|lia]|].
  destruct (Z.eqb_spec time 0); cbn [orb]; [split; [done|tauto]|].
  destruct (Z.ltb_spec now time); [split; [done|lia]|].
  destruct (decide (pl_body e = body)); [rewrite bool_decide_true by done|rewrite bool_decide_false by done];
    cbn [negb orb]; [|split; [done|tauto]].
  destruct (Z.eqb_spec (pl_checksum e) sum); cbn [negb]; [|split; [done|tauto]].
  split; [intros [= <-]; tauto|]. by intros (_ & _ & _ & _ & _ & ->).
Qed.

Lemma valid_made kSize producer sequence time producers messages now :
  producer < producers -> sequence < messages -> 0 < time <= now ->
  valid_payload kSize (make_payload kSize producer sequence time) producers messages now = Some (now - time).
Proof.
  intros Hp Hs Ht. apply valid_payload_made. set (made := make_payload kSize producer sequence time).
  change (pl_producer made) with producer. change (pl_sequence made) with sequence.
  change (pl_send_time_ns made) with time. split; [reflexivity|lia].
Qed.

(** The bytes of a message with its checksum written in. *)
Lemma payload_bytes_checksum magic producer reserved sequence time sum sum' body :
  payload_bytes (mkPayload magic producer reserved sequence time sum' body) =
  take 32 (payload_bytes (mkPayload magic producer reserved sequence time sum body)) ++
  le_bytes 8 sum' ++ drop 40 (payload_bytes (mkPayload magic producer reserved sequence time sum body)).
Proof. reflexivity. Qed.

Lemma made_sealed kSize producer sequence time :
  sealed (payload_bytes (make_payload kSize producer sequence time)).
Proof.
  unfold make_payload. rewrite (payload_bytes_checksum _ _ _ _ _ 0), payload_checksum_frame.
  apply seal_sealed. unfold payload_bytes. rewrite !length_app, !le_bytes_length. lia.
Qed.

(** The bytes of a message that was read from bytes. *)
Lemma payload_of_bytes_bytes bs :
  Forall is_byte bs -> (40 <= length bs)%nat -> payload_bytes (payload_of_bytes bs) = bs.
Proof.
  intros Hb Hl. unfold payload_bytes, payload_of_bytes.
  payload_fields.
  rewrite !field_bytes by (done || lia). rewrite !app_assoc. rewrite !bytes_at_split.
  unfold bytes_at. cbn [Nat.add]. by rewrite drop_0, take_drop.
Qed.

Lemma payload_bytes_byte p : Forall is_byte (pl_body p) -> Forall is_byte (payload_bytes p).
Proof. intros H. unfold payload_bytes. rewrite !Forall_app. auto 10 using le_bytes_are_bytes. Qed.

Lemma made_bytes_byte kSize producer sequence time :
  Forall is_byte (payload_bytes (make_payload kSize producer sequence time)).
Proof.
  apply payload_bytes_byte. unfold make_payload. cbn [pl_body]. apply Forall_fmap, Forall_true. intros. apply body_byte_byte.
Qed.

(** A valid message is sealed, so it is no other valid message with one byte changed. *)
Lemma valid_sealed kSize bs producers messages now latency :
  Forall is_byte bs -> (40 <= length bs)%nat ->
  valid_payload kSize (payload_of_bytes bs) producers messages now = Some latency -> sealed bs.
Proof.
  intros Hb Hl (Hm & _)%valid_payload_made. rewrite <- (payload_of_bytes_bytes bs Hb Hl), Hm. apply made_sealed.
Qed.

Lemma valid_one_byte kSize (bs : list Z) p b b' producers messages now :
  Forall is_byte bs -> (40 <= length bs)%nat -> sealed bs -> bs !! p = Some b -> is_byte b' -> b' <> b ->
  valid_payload kSize (payload_of_bytes (<[p:=b']> bs)) producers messages now = None.
Proof.
  intros Hb Hl Hs Hp Hb' Hne. destruct (valid_payload _ _ _ _ _) as [latency|] eqn:Hv; [|done].
  apply valid_sealed in Hv; [|by apply Forall_insert|by rewrite length_insert].
  destruct Hne. eapply (sealed_one_byte bs p b b'); eauto. by eapply Forall_lookup_1 in Hp.
Qed.

(** None of the bytes of a fingerprint is 0, so the all-zero schema that the runtime refuses
    is never one of these. *)
Lemma fingerprint_loop_nonzero n i state : Forall (fun v => 0 < v < 256) (fingerprint_loop n i state).
Proof.
  revert i state. induction n as [|n IH]; intros i state; constructor; [|apply IH].
  change 255 with (Z.ones 8). rewrite Z.land_ones by lia.
  pose proof (Z.mod_pos_bound (Z.shiftr (fingerprint_round state) (Z.of_nat (i mod 8) * 8)) (2 ^ 8)).
  destruct (Z.eqb_spec (Z.shiftr (fingerprint_round state) (Z.of_nat (i mod 8) * 8) mod 2 ^ 8) 0); lia.
Qed.
Lemma fingerprint_loop_length n i state : length (fingerprint_loop n i state) = n.
Proof. revert i state. induction n; intros; cbn [fingerprint_loop length]; auto. Qed.
