(* ===== verification/PoolBenchPayload.v ===== *)
(** The self-checking messages of the pool's benchmark,
    [tools/include/edge_runtime_tool/buffer_pool_bench_payload.hpp]. *)
From S2P Require Import Prelude ByteFields Checksum ChannelLayout MpmcBenchPayload.

Definition kPayloadMagic : Z := 4995127849184543537. (* 0x45524250424E4331 *)
Definition kHeaderSize : nat := 40.

Record PayloadHeader : Type := mkPayloadHeader {
  ph_magic : Z;
  ph_producer : Z;
  ph_reserved : Z;
  ph_sequence : Z;
  ph_send_time_ns : Z;
  ph_checksum : Z
}.

Definition header_bytes (h : PayloadHeader) : list Z :=
  le_bytes 8 (ph_magic h) ++ le_bytes 4 (ph_producer h) ++ le_bytes 4 (ph_reserved h) ++
  le_bytes 8 (ph_sequence h) ++ le_bytes 8 (ph_send_time_ns h) ++ le_bytes 8 (ph_checksum h).
Definition header_of_bytes (bs : list Z) : PayloadHeader :=
  mkPayloadHeader (field_at bs 0 8) (field_at bs 8 4) (field_at bs 12 4) (field_at bs 16 8)
    (field_at bs 24 8) (field_at bs 32 8).

Definition checksum (data : list Z) : Z := checksum_loop data 0 kOffsetBasis.

(** What [fill] writes to the [size] bytes at [data]; [None] when it refuses, for a null
    pointer too. *)
Definition fill (data_null : bool) (size : nat) (producer sequence send_time_ns : Z)
    : option (list Z) :=
  if data_null || bool_decide (size < kHeaderSize)%nat || (send_time_ns =? 0) then None
  else
  let header := mkPayloadHeader kPayloadMagic producer 0 sequence send_time_ns 0 in
  let body := map (fun i => body_byte producer sequence (Z.of_nat i)) (seq kHeaderSize (size - kHeaderSize)) in
  let data := header_bytes header ++ body in
  let value := checksum data in
  Some (take 32 data ++ le_bytes 8 value ++ drop 40 data).

(** [*latency_ns], [*producer] and [*sequence], when the bytes are valid. *)
Definition validate (data : list Z) (producer_count messages_per_producer now_ns : Z)
    : option (Z * Z * Z) :=
  if bool_decide (length data < kHeaderSize)%nat then None
  else
  let header := header_of_bytes data in
  if negb (ph_magic header =? kPayloadMagic) || negb (ph_reserved header =? 0)
     || (producer_count <=? ph_producer header) || (messages_per_producer <=? ph_sequence header)
     || (ph_send_time_ns header =? 0) || (now_ns <? ph_send_time_ns header)
     || negb (checksum data =? ph_checksum header)
  then None
  else if negb (forallb (fun i => nth i data 0 =? body_byte (ph_producer header) (ph_sequence header) (Z.of_nat i))
                  (seq kHeaderSize (length data - kHeaderSize)))
  then None
  else Some (now_ns - ph_send_time_ns header, ph_producer header, ph_sequence header).

Definition fingerprint (seed : Z) : list Z := fingerprint_loop 32 0 (Z.lxor kOffsetBasis seed).
Definition pool_schema (block_size : Z) : SchemaDescriptor :=
  mkSchema (fingerprint (Z.lxor 1347374924 block_size)) 1. (* 0x504F4F4C *)
Definition queue_schema : SchemaDescriptor := mkSchema (fingerprint 89358225200453) 1. (* 0x514555455545 *)


(** * What the receivers accept *)

#[local] Opaque checksum_loop.

Lemma checksum_frame data : checksum data = frame_checksum data.
Proof. reflexivity. Qed.

(** [fill] writes a sealed frame: the header with the checksum, and the pattern. *)
Lemma fill_data size producer sequence time :
  (40 <= size)%nat -> time <> 0 ->
  exists sum body,
    is_u64 sum /\ length body = (size - 40)%nat /\
    (forall i, (40 <= i < size)%nat ->
      body !! (i - 40)%nat = Some (body_byte producer sequence (Z.of_nat i))) /\
    let data := header_bytes (mkPayloadHeader kPayloadMagic producer 0 sequence time sum) ++ body in
    fill false size producer sequence time = Some data /\ sealed data.
Proof.
  intros Hs Ht. set (body := map (fun i => body_byte producer sequence (Z.of_nat i)) (seq 40 (size - 40))).
  set (zero := header_bytes (mkPayloadHeader kPayloadMagic producer 0 sequence time 0) ++ body).
  exists (frame_checksum zero), body. split; [apply frame_checksum_range|].
  split; [by unfold body; rewrite length_map, length_seq|]. split.
  { intros i Hi. unfold body. rewrite list_lookup_fmap, lookup_seq_lt by lia. cbn. do 3 f_equal. lia. }
  assert (header_bytes (mkPayloadHeader kPayloadMagic producer 0 sequence time (frame_checksum zero)) ++ body
          = take 32 zero ++ le_bytes 8 (frame_checksum zero) ++ drop 40 zero) as He by reflexivity.
  cbv zeta. rewrite He. split.
  - unfold fill. cbn [orb]. rewrite bool_decide_false by (unfold kHeaderSize; lia).
    rewrite (proj2 (Z.eqb_neq _ _) Ht). cbv zeta. rewrite checksum_frame. reflexivity.
  - apply seal_sealed. unfold zero, header_bytes. rewrite !length_app, !le_bytes_length. lia.
Qed.

Lemma header_roundtrip h rest :
  is_u64 (ph_magic h) -> is_u32 (ph_producer h) -> is_u32 (ph_reserved h) -> is_u64 (ph_sequence h) ->
  is_u64 (ph_send_time_ns h) -> is_u64 (ph_checksum h) -> header_of_bytes (header_bytes h ++ rest) = h.
Proof.
  destruct h. unfold header_of_bytes, header_bytes. rewrite <- !app_assoc.
  cbn [ph_magic ph_producer ph_reserved ph_sequence ph_send_time_ns ph_checksum]. intros.
  f_equal; seek; cbn [Nat.sub]; apply field_at_here; mlia.
Qed.

(** Valid bytes are sealed. *)
Lemma validate_sealed data producers messages now r :
  Forall is_byte data -> validate data producers messages now = Some r -> sealed data.
Proof.
  intros Hb. unfold validate. case_bool_decide as Hl; [done|]. unfold kHeaderSize in Hl.
  destruct (_ || _) eqn:Hc; [done|]. intros _. apply orb_false_iff in Hc as [_ Hc].
  apply negb_false_iff, Z.eqb_eq in Hc. rewrite checksum_frame in Hc. cbn [ph_checksum header_of_bytes] in Hc.
  unfold sealed. rewrite Hc. symmetry. apply field_bytes; [done|lia].
Qed.

Lemma validate_one_byte (data : list Z) p b b' producers messages now :
  Forall is_byte data -> (40 <= length data)%nat -> sealed data -> data !! p = Some b -> is_byte b' -> b' <> b ->
  validate (<[p:=b']> data) producers messages now = None.
Proof.
  intros Hb Hl Hs Hp Hb' Hne. destruct (validate _ _ _ _) eqn:Hv; [|done].
  apply validate_sealed in Hv; [|by apply Forall_insert]. destruct Hne.
  eapply (sealed_one_byte data p b b'); eauto. by eapply Forall_lookup_1 in Hp.
Qed.

(** The receiver accepts what [fill] wrote. *)
Lemma validate_filled producer sequence time sum body producers messages now :
  let data := header_bytes (mkPayloadHeader kPayloadMagic producer 0 sequence time sum) ++ body in
  is_u32 producer -> is_u64 sequence -> is_u64 time -> is_u64 sum ->
  Forall is_byte data -> sealed data ->
  (forall i, (40 <= i < 40 + length body)%nat ->
    body !! (i - 40)%nat = Some (body_byte producer sequence (Z.of_nat i))) ->
  producer < producers -> sequence < messages -> time <> 0 -> time <= now ->
  validate data producers messages now = Some (now - time, producer, sequence).
Proof.
  intros data Hp Hs Ht Hsum Hb Hseal Hbody Hpp Hss Ht0 Htn.
  assert (length data = 40 + length body)%nat as Hl.
  { unfold data, header_bytes. rewrite !length_app, !le_bytes_length. lia. }
  assert (checksum data = sum) as Hc.
  { rewrite checksum_frame. pose proof (frame_checksum_range data). unfold sealed in Hseal.
    symmetry. apply (le_bytes_inj 8); [mlia|mlia|]. rewrite <- Hseal. reflexivity. }
  unfold validate. rewrite bool_decide_false by (unfold kHeaderSize; lia).
  assert (header_of_bytes data = mkPayloadHeader kPayloadMagic producer 0 sequence time sum) as ->
    by (apply header_roundtrip; cbn; unfold kPayloadMagic; mlia).
  cbn [ph_magic ph_producer ph_reserved ph_sequence ph_send_time_ns ph_checksum].
  rewrite Hc, !Z.eqb_refl. cbn [negb orb].
  replace (producers <=? producer) with false by lia. replace (messages <=? sequence) with false by lia.
  replace (time =? 0) with false by lia. replace (now <? time) with false by lia. cbn [orb].
  rewrite (proj2 (forallb_forall _ _)); [reflexivity|]. intros i Hi%in_seq.
  unfold kHeaderSize in Hi. apply Z.eqb_eq, nth_lookup_Some. unfold data.
  rewrite lookup_app_r by (unfold header_bytes; rewrite !length_app, !le_bytes_length; lia).
  by rewrite <- (Hbody i) by lia.
Qed.

Lemma filled_bytes producer sequence time sum body size :
  length body = (size - 40)%nat ->
  (forall i, (40 <= i < size)%nat ->
    body !! (i - 40)%nat = Some (body_byte producer sequence (Z.of_nat i))) ->
  Forall is_byte (header_bytes (mkPayloadHeader kPayloadMagic producer 0 sequence time sum) ++ body).
Proof.
  intros Hl Hbody. apply Forall_app. split.
  - unfold header_bytes. rewrite !Forall_app. auto 10 using le_bytes_are_bytes.
  - apply Forall_lookup. intros j b Hj. apply lookup_lt_Some in Hj as Hlt.
    specialize (Hbody (j + 40)%nat ltac:(lia)). replace (j + 40 - 40)%nat with j in Hbody by lia.
    rewrite Hj in Hbody. injection Hbody as ->. apply body_byte_byte.
Qed.

(** C18: the benchmarks' messages check themselves. What a sender makes is accepted by the
    receiver, as the message of that sender, with that number and with the time it took;
    and when any single byte of the message is changed on the way, of header, checksum or
    body, the receiver refuses it, whatever number of senders and messages it expects and
    whatever time it is. For the queue's messages and for the pool's. *)
Theorem bench_payloads_self_check size producer sequence time producers messages now :
  (40 <= size)%nat -> is_u32 producer -> is_u64 sequence -> is_u64 time ->
  producer < producers -> sequence < messages -> 0 < time <= now ->
  (let sent := payload_bytes (make_payload size producer sequence time) in
   length sent = size /\
   payload_of_bytes sent = make_payload size producer sequence time /\
   valid_payload size (payload_of_bytes sent) producers messages now = Some (now - time) /\
   forall p b b', sent !! p = Some b -> is_byte b' -> b' <> b -> forall producers messages now,
     valid_payload size (payload_of_bytes (<[p:=b']> sent)) producers messages now = None) /\
  (exists sent, fill false size producer sequence time = Some sent /\ length sent = size /\
   validate sent producers messages now = Some (now - time, producer, sequence) /\
   forall p b b', sent !! p = Some b -> is_byte b' -> b' <> b -> forall producers messages now,
     validate (<[p:=b']> sent) producers messages now = None).
Proof.
  intros Hk Hp Hs Ht Hpp Hss Htn. split.
  - pose proof (make_payload_ok size _ _ _ Hp Hs Ht) as Hok.
    assert (length (payload_bytes (make_payload size producer sequence time)) = size) as Hl
      by by apply payload_bytes_length.
    cbv zeta. rewrite (payload_roundtrip size _ Hok). split; [exact Hl|]. split; [reflexivity|]. split.
    + by apply valid_made.
    + intros. eapply valid_one_byte; eauto using made_sealed, made_bytes_byte. lia.
  - destruct (fill_data size producer sequence time) as (sum & body & Hsum & Hl & Hbody & Hfill & Hseal);
      [done|lia|].
    pose proof (filled_bytes producer sequence time sum body size Hl Hbody) as Hbytes.
    assert (length (header_bytes (mkPayloadHeader kPayloadMagic producer 0 sequence time sum) ++ body) = size)
      as Hlen by (unfold header_bytes; rewrite !length_app, !le_bytes_length; lia).
    eexists. split; [exact Hfill|]. split; [exact Hlen|]. split.
    + apply validate_filled; [exact Hp|exact Hs|exact Ht|exact Hsum|exact Hbytes|exact Hseal| |lia..].
      intros i Hi. apply Hbody. lia.
    + intros p b b' Hpb Hb' Hne ps ms n.
      apply (validate_one_byte _ p b b' ps ms n Hbytes ltac:(lia) Hseal Hpb Hb' Hne).
Qed.

Lemma bench_payloads_self_check_witness :
  valid_payload 64 (payload_of_bytes (payload_bytes (make_payload 64 2 7 1000))) 4 10 1500 = Some 500 /\
  valid_payload 64 (payload_of_bytes (<[63%nat:=0]> (payload_bytes (make_payload 64 2 7 1000)))) 4 10 1500 = None.
Proof.
  destruct (bench_payloads_self_check 64 2 7 1000 4 10 1500) as [(_ & _ & H & Hone) _]; try mlia; try lia.
  split; [exact H|]. eapply Hone; [vm_compute; reflexivity|mlia|]. vm_compute. congruence.
Defined.
