(* ===== verification/ToolCommon.v ===== *)
(** What the command-line tools share: their output and exit status, and the reading of
    their arguments ([tools/include/edge_runtime_tool/tool_common.hpp]).

    A tool is a program that prints lines and ends with an exit status. *)
From stdpp Require Import pretty.
From S2P Require Import Prelude Errors Prog ProcIdentity ChannelLayout ChannelSegment.

(** * Tools *)

Inductive line : Type :=
| Out (text : string)
| ErrOut (text : string).

(** The lines printed, and a value or the exit status. *)
Definition tool (A : Type) : Type := cprog (list line * (A + Z)).

Definition tbind {A B} (m : tool A) (k : A -> tool B) : tool B :=
  let! (ls, r) := m in
  match r with
  | inl a => let! (ls', r') := k a in Ret (ls ++ ls', r')
  | inr status => Ret (ls, inr status)
  end.

Declare Scope tool_scope.
Delimit Scope tool_scope with tool.
Notation "'let$' x := c 'in' k" := (tbind c (fun x => k))
  (at level 200, x pattern, c at level 200, k at level 200) : tool_scope.
Notation "'do$' c ';' k" := (tbind c (fun _ => k))
  (at level 200, c at level 200, k at level 200) : tool_scope.
#[global] Open Scope tool_scope.

Definition tret {A} (a : A) : tool A := Ret ([], inl a).
(** A call of the library. *)
Definition call {A} (p : cprog A) : tool A := let! a := p in Ret ([], inl a).
Definition print (text : string) : tool unit := Ret ([Out text], inl tt).
Definition eprint (text : string) : tool unit := Ret ([ErrOut text], inl tt).
Definition exit {A} (status : Z) : tool A := Ret ([], inr status).
(** [printf(...); return status;]. *)
Definition stop {A} (status : Z) (text : string) : tool A := do$ print text; exit status.

(** * Text *)

Definition cat (parts : list string) : string := foldr String.append "" parts.
(** [%u], [%d], [PRIu64]. *)
Definition dec (z : Z) : string := pretty z.

Definition digit_char (d : Z) : Ascii.ascii :=
  Ascii.ascii_of_nat (Z.to_nat (if d <? 10 then 48 + d else 87 + d)).
(** [n] digits in base [b]: [%016x] of a 64-bit value, [%04o] of twelve bits. *)
Fixpoint digits (b : Z) (n : nat) (v : Z) : list Ascii.ascii :=
  match n with
  | O => []
  | S n' => digits b n' (v / b) ++ [digit_char (v mod b)]
  end.
Definition hex16 (v : Z) : string := String.string_of_list_ascii (digits 16 16 v).
Definition oct4 (v : Z) : string := String.string_of_list_ascii (digits 8 4 v).

(** * Numbers *)

Definition isspace (c : Z) : bool := (c =? 32) || ((9 <=? c) && (c <=? 13)).
Fixpoint skip_space (s : list Z) : list Z :=
  match s with
  | c :: s' => if isspace c then skip_space s' else s
  | [] => []
  end.

(** What [strtoull] reads in base 10, and [sscanf] for an unsigned number: the value and
    the text after it. A number that is too large gives the largest one; a minus sign
    negates modulo 2^64. *)
Definition scan_u64 (s : list Z) : option (Z * list Z) :=
  let s := skip_space s in
  let '(minus, s) :=
    match s with
    | c :: s' => if c =? 45 then (true, s') else if c =? 43 then (false, s') else (false, s)
    | [] => (false, s)
    end in
  match span_digits s with
  | ([], _) => None
  | (ds, rest) =>
      let v := dec_value ds in
      Some (if UINT64_MAX <? v then UINT64_MAX else if minus then u64 (- v) else v, rest)
  end.

(** * Arguments *)

(** [argv] without its first element. *)
Fixpoint arg_value (args : list string) (name : string) : option string :=
  match args with
  | a :: ((v :: _) as rest) => if bool_decide (a = name) then Some v else arg_value rest name
  | _ => None
  end.
Definition arg_flag (args : list string) (name : string) : bool :=
  existsb (fun a => bool_decide (a = name)) args.

Definition arg_u64 (args : list string) (name : string) (fallback : Z) : tool Z :=
  match arg_value args name with
  | None => tret fallback
  | Some v =>
      match scan_u64 (string_codes v) with
      | Some (parsed, []) => tret parsed
      | _ => do$ eprint (cat ["bad numeric value for "; name; ": "; v]); exit 2
      end
  end.

Definition mandatory_payload_checksum (args : list string) : tool bool :=
  if arg_flag args "--checksum-off"
     || (arg_flag args "--checksum"
         && negb (bool_decide (arg_value args "--checksum" = Some "1"%string))) then
    do$ eprint "payload checksum is mandatory; only --checksum 1 is supported"; exit 2
  else tret true.
