(* ===== verification/ShmCtl.v ===== *)
(** The diagnostic tool: [tools/src/edge_shm_ctl.cpp].

    [inspect] prints what the journal and the segment of a channel say; [remove] unlinks
    the object of a channel whose producer is gone. *)
From stdpp Require Import pretty.
From S2P Require Import Prelude Errors CheckedMath Prog Checksum ProcIdentity ProcessSpawn ShmObject Clock.
From S2P Require Import ChannelLayout ChannelSegment SlotProtocol ChannelAbi ControlLock FdBroker ToolCommon.

(** * Names of states *)

Definition init_state_name (v : Z) : string :=
  if v =? is_kEmpty then "empty"
  else if v =? is_kInitializing then "initializing"
  else if v =? is_kReady then "ready"
  else if v =? is_kAborted then "aborted"
  else "unknown".

Definition endpoint_state_name (v : Z) : string :=
  if v =? es_kOffline then "offline"
  else if v =? es_kOnline then "online"
  else if v =? es_kStopping then "stopping"
  else if v =? es_kFault then "fault"
  else "unknown".

Definition slot_state_name (v : Z) : string :=
  if v =? ss_kFree then "free"
  else if v =? ss_kWriting then "writing"
  else if v =? ss_kPublished then "published"
  else if v =? ss_kReadingClaiming then "reading_claiming"
  else if v =? ss_kReading then "reading"
  else "unknown".

Definition journal_state_name (v : Z) : string :=
  if v =? js_kIdle then "idle"
  else if v =? js_kCreatingPreObject then "creating_pre_object"
  else if v =? js_kCreatingObject then "creating_object"
  else if v =? js_kReplacing then "replacing"
  else if v =? js_kRemoving then "removing"
  else "unknown".

Definition liveness_name (v : Liveness) : string :=
  match v with
  | kAlive => "alive"
  | kExited => "exited"
  | kPidReused => "pid_reused"
  | kUnverifiable => "unverifiable"
  end.

(** [%016x%016x] of a nonce. *)
Definition nonce_text (hi lo : Z) : string := (hex16 hi +:+ hex16 lo)%string.

(** * Inspecting *)

Definition print_identity_line (tag : string) (id : Result ProcessIdentityAbi) (endpoint_state : Z)
    : tool unit :=
  match id with
  | Err e => print (cat [tag; " snapshot_error code="; to_string (err_code e)])
  | Ok p =>
      if ia_pid p =? 0 then
        print (cat [tag; " pid=0 epoch="; dec (ia_role_epoch p); " state=";
                    endpoint_state_name endpoint_state; " liveness=unset"])
      else
      let$ lv := call (probe_liveness (ia_pid p) (ia_proc_start_ticks p)) in
      print (cat [tag; " pid="; dec (ia_pid p); " start="; dec (ia_proc_start_ticks p); " boot=";
                  nonce_text (ia_boot_id_hash_hi p) (ia_boot_id_hash_lo p); " epoch=";
                  dec (ia_role_epoch p); " state="; endpoint_state_name endpoint_state;
                  " liveness="; liveness_name lv])
  end.

Definition journal_line (j : ControlJournalV1) : string :=
  cat ["JOURNAL state="; journal_state_name (cj_state j); " target_ino="; dec (cj_target_ino j);
       " gen_old="; dec (cj_old_generation j); " gen_new="; dec (cj_new_generation j);
       " nonce_old="; nonce_text (cj_old_nonce_hi j) (cj_old_nonce_lo j);
       " nonce_new="; nonce_text (cj_new_nonce_hi j) (cj_new_nonce_lo j);
       " creator_pid="; dec (ia_pid (cj_creator j)); " transport=";
       if cj_transport j =? transport_value tr_kMemfdFdPass then "fd_pass" else "posix"].

(** The journal's line, and its transport, 0 when it cannot be read. *)
Definition inspect_journal (lock : ControlLock) : tool Z :=
  let$ jr := call (read_journal lock) in
  match jr with
  | Ok j => do$ print (journal_line j); tret (cj_transport j)
  | Err e => do$ print (cat ["JOURNAL read_failed code="; to_string (err_code e)]); tret 0
  end.

(** A descriptor of the object, under its name or from the producer's broker. *)
Definition inspect_open (fuel : nat) (channel_name shm_name socket_path : string) (journal_transport : Z)
    : tool (Z * bool) :=
  let$ fd_res := call (shm_open_existing shm_name) in
  match fd_res with
  | Ok fd => tret (fd, false)
  | Err e =>
      if bool_decide (err_code e = kNotFound) then
        let$ is_fd_channel :=
          if journal_transport =? transport_value tr_kMemfdFdPass then tret true
          else
            let$ r := call (syscall (sys_access socket_path)) in
            tret (match r with SysOk _ => true | SysErr _ => false end) in
        if (is_fd_channel : bool) then
          let any := mkSchema (repeat 0 32) 0 in
          let hash := channel_name_hash (string_codes channel_name) in
          let$ rf := call (fd_broker_request_fd fuel socket_path hash any true 500) in
          match rf with
          | Err e => stop 1 (cat ["STATUS broker_failed code="; to_string (err_code e);
              " (fd-pass channel; the producer process is gone — journal-only report)"])
          | Ok (fd, _) => tret (fd, true)
          end
        else stop 1 "STATUS not_found"
      else stop 1 (cat ["STATUS open_failed code="; to_string (err_code e); " errno=";
                        dec (err_errno e); " op="; err_operation e])
  end.

(** The first eight bytes of the fingerprint, most significant first. *)
Definition fingerprint_head (bytes : list Z) : Z :=
  foldl (fun acc b => Z.lor (u64 (Z.shiftl acc 8)) b) 0 (take 8 bytes).

Definition inspect_header_line (base : cloc -> chloc) : tool Z :=
  let field f := call (plain_load (base (Head f))) in
  let$ payload_size := field ch_payload_size in
  let$ abi_major := field ch_abi_major in
  let$ abi_minor := field ch_abi_minor in
  let$ endian := field ch_endian_marker in
  let$ slot_count := field ch_slot_count in
  let$ max_payload := field ch_max_payload_size in
  let$ mapping := field ch_mapping_size in
  let$ generation := field ch_generation in
  let$ hi := field ch_instance_nonce_hi in
  let$ lo := field ch_instance_nonce_lo in
  let$ version := field ch_schema_version in
  let$ fp := call (load_list (map (fun i => base (HeadFingerprint i)) (seq 0 8))) in
  do$ print (cat ["HEADER abi="; dec abi_major; "."; dec abi_minor; " endian=";
                  if endian =? kEndianMarker then "ok" else "wrong"; " slot_count="; dec slot_count;
                  " payload="; dec payload_size; " max="; dec max_payload; " map="; dec mapping;
                  " gen="; dec generation; " nonce="; nonce_text hi lo; " schema_v="; dec version;
                  " fp="; hex16 (fingerprint_head fp)]);
  tret payload_size.

Definition inspect_state (base : cloc -> chloc) : tool unit :=
  let field f := call (shared_load_acquire (base (Head f))) in
  let$ init_state := field ch_init_state in
  let$ pstate := field ch_producer_state in
  let$ cstate := field ch_consumer_state in
  let$ ticket := field ch_latest_ticket in
  let$ publish_count := field ch_publish_count in
  let$ read_count := field ch_read_count in
  let$ last_pub := field ch_last_publish_boot_ns in
  let$ notify := field ch_notify_epoch in
  do$ print (cat ["STATE init="; init_state_name init_state; " producer="; endpoint_state_name pstate;
                  " consumer="; endpoint_state_name cstate; " notify="; dec notify]);
  do$ print (cat ["COUNTERS publish="; dec publish_count; " read="; dec read_count; " last_pub_ns=";
                  dec last_pub]);
  do$ print (cat ["TICKET seq="; dec (ticket_sequence ticket); " slot="; dec (ticket_slot ticket)]);
  let$ p := call (identity_snapshot_read (fun f => base (Ident r_producer f))) in
  do$ print_identity_line "PRODUCER" p pstate;
  let$ c := call (identity_snapshot_read (fun f => base (Ident r_consumer f))) in
  print_identity_line "CONSUMER" c cstate.

(** The slots [i], [i + 1], ...; [n] are left. *)
Fixpoint inspect_slots (n : nat) (i slot_stride size : Z) (base : cloc -> chloc) : tool unit :=
  match n with
  | O => tret tt
  | S n' =>
      match slot_byte_offset i slot_stride with
      | None => tret tt
      | Some off =>
          if size <? u64 (off + kSlotHeaderSize) then print (cat ["SLOT i="; dec i; " truncated"])
          else
          let$ state := call (shared_load_relaxed (base (SlotState i))) in
          let$ sequence := call (shared_load_relaxed (base (SlotSequence i))) in
          let$ publish_ns := call (shared_load_relaxed (base (SlotPublishNs i))) in
          let$ reader := call (shared_load_relaxed (base (SlotReader i))) in
          do$ print (cat ["SLOT i="; dec i; " state="; slot_state_name state; " seq="; dec sequence;
                          " publish_ns="; dec publish_ns; " reader_epoch="; dec reader]);
          inspect_slots n' (i + 1) slot_stride size base
      end
  end.

(** The object behind [fd], part by part, as far as it is there. *)
Definition inspect_object (fd : Z) (fd_mode : bool) : tool unit :=
  let$ st := call (syscall (sys_fstat fd)) in
  do$ match st with
      | SysOk st =>
          print (cat ["OBJECT inode="; dec (st_ino st); " dev="; dec (st_dev st); " size=";
                      dec (st_size st); " mode="; oct4 (Z.land (st_mode st) 4095); " uid=";
                      dec (st_uid st); " transport="; if fd_mode then "fd_pass" else "posix"])
      | SysErr _ => tret tt
      end;
  let$ fst_ := call (if fd_mode then memfd_fstat_and_capture fd else shm_fstat_and_capture fd) in
  match fst_ with
  | Err e => stop 1 (cat ["STATUS fstat_failed code="; to_string (err_code e)])
  | Ok (dev, ino, size) =>
      let base := Obj dev ino in
      let$ rboot := call (pread_full fd kBootstrapHeaderSize 0) in
      match rboot with
      | Err _ => stop 0 (cat ["BOOT unreadable size="; dec size])
      | Ok _ =>
          let$ boot := call (load_bootstrap base) in
          match validate_bootstrap_parse boot size with
          | Err e => stop 0 (cat ["BOOT invalid code="; to_string (err_code e)])
          | Ok _ =>
              do$ print (cat ["BOOT abi="; dec (bo_abi_major boot); "."; dec (bo_abi_minor boot);
                              " map="; dec (bo_expected_mapping_size boot); " init=";
                              init_state_name (bo_init_state boot); " nonce=";
                              nonce_text (bo_creator_nonce_hi boot) (bo_creator_nonce_lo boot); " pid=";
                              dec (bo_creator_pid boot); " start="; dec (bo_creator_proc_start_ticks boot)]);
              if size <? kChannelHeaderOffset + kChannelHeaderSize then
                stop 0 "HEADER absent (partial object)"
              else
              let$ mm := call (if fd_mode then mmap_region_readonly fd size else mmap_region fd size) in
              match mm with
              | Err e => stop 1 (cat ["STATUS mmap_failed code="; to_string (err_code e); " errno=";
                                      dec (err_errno e)])
              | Ok _ =>
                  let$ magic := call (load_list (map (fun i => base (HeadMagic i)) (seq 0 8))) in
                  if negb (bool_decide (magic = string_codes kChannelHeaderMagic)) then
                    stop 0 "HEADER magic_mismatch"
                  else
                  let$ payload_size := inspect_header_line base in
                  do$ inspect_state base;
                  if (0 <? payload_size) && (payload_size <=? kMaxPayloadSize) then
                    match round_up_to_multiple_u64 (kSlotHeaderSize + payload_size) 64 with
                    | Some slot_stride => inspect_slots (Z.to_nat kSlotCount) 0 slot_stride size base
                    | None => tret tt
                    end
                  else tret tt
              end
          end
      end
  end.

(** [body] with the lock, which is given back however it ends. *)
Definition with_lock {A} (lock : ControlLock) (body : tool A) : tool A :=
  let! r := body in
  do! control_lock_release lock;
  Ret r.

Definition cmd_inspect (fuel : nat) (channel_name : string) : tool unit :=
  let$ shm_name := call (channel_shm_name channel_name) in
  let$ lock_path := call (channel_lock_path channel_name) in
  let$ socket_path := call (channel_socket_path channel_name) in
  do$ print (cat ["OBJECT name="; shm_name]);
  let$ lock_res := call (control_lock_acquire lock_path) in
  match lock_res with
  | Err e => stop 1 (cat ["JOURNAL lock_failed code="; to_string (err_code e); " errno=";
                          dec (err_errno e); " op="; err_operation e])
  | Ok lock =>
      with_lock lock
        (let$ journal_transport := inspect_journal lock in
         let$ (fd, fd_mode) := inspect_open fuel channel_name shm_name socket_path journal_transport in
         inspect_object fd fd_mode)
  end.

(** * Reading the arguments *)

Definition hex_digit (c : Z) : option Z :=
  if (48 <=? c) && (c <=? 57) then Some (c - 48)
  else if (97 <=? c) && (c <=? 102) then Some (c - 97 + 10)
  else if (65 <=? c) && (c <=? 70) then Some (c - 65 + 10)
  else None.

(** The loop over the sixteen characters: [n] are left, [v] is read. *)
Fixpoint parse_hex_loop (n : nat) (s : list Z) (v : Z) : option Z :=
  match n with
  | O => Some v
  | S n' =>
      match s with
      | [] => None
      | c :: s' =>
          match hex_digit c with
          | None => None
          | Some digit => parse_hex_loop n' s' (Z.lor (u64 (Z.shiftl v 4)) digit)
          end
      end
  end.
Definition parse_u64_hex16 (s : list Z) : option Z := parse_hex_loop 16 s 0.

Definition parse_nonce_hex (hex : option string) : option (Z * Z) :=
  match hex with
  | None => None
  | Some hex =>
      let s := string_codes hex in
      if negb (bool_decide (length s = 32%nat)) then None
      else match parse_u64_hex16 s, parse_u64_hex16 (drop 16 s) with
           | Some hi, Some lo => Some (hi, lo)
           | _, _ => None
           end
  end.

(** * Removing *)

(** [--expect-generation] and [--expect-nonce], where given. *)
Record expectation : Type := mkExpect { ex_generation : option Z; ex_nonce : option (Z * Z) }.

(** What identifies the object: [ready], [obj_gen], [obj_nonce_hi], [obj_nonce_lo], and
    [prod_pid] and [prod_start] when [has_prod_id]. *)
Record bound_object : Type := mkBound {
  bd_ready : bool;
  bd_generation : Z;
  bd_nonce_hi : Z;
  bd_nonce_lo : Z;
  bd_producer : option (Z * Z)
}.

(** The idle record of a channel without an instance. *)
Definition idle_journal (channel_name : string) : cprog ControlJournalV1 :=
  let! self := current_process_identity in
  Ret (make_control_journal channel_name js_kIdle 0 0 0 0 0 0 self).

(** [REFUSE producer_alive] and [REFUSE producer_unverifiable]. *)
Definition refuse_live (p start : Z) (note : string) : tool Liveness :=
  let$ lv := call (probe_liveness p start) in
  match lv with
  | kAlive => stop 2 (cat ["REFUSE producer_alive pid="; dec p; note])
  | kUnverifiable => stop 2 "REFUSE producer_unverifiable"
  | _ => tret lv
  end.

(** A channel whose object goes away with its creator: only the journal is left. *)
Definition remove_fd_pass {A} (lock : ControlLock) (channel_name : string) (journal : ControlJournalV1)
    : tool A :=
  do$ (if negb (ia_pid (cj_creator journal) =? 0) then
         let$ _ := refuse_live (ia_pid (cj_creator journal)) (ia_proc_start_ticks (cj_creator journal))
                     " (fd-pass channel: object dies with creator)" in
         tret tt
       else tret tt);
  let$ idle := call (idle_journal channel_name) in
  let$ _ := call (write_journal lock (with_transport idle (transport_value tr_kMemfdFdPass))) in
  stop 0 (cat ["REMOVED fd_pass channel="; channel_name;
               " (object dies with creator; journal reconciled)"]).

(** The object is complete: its header says what it is. *)
Definition bind_ready (expect : expectation) (fd dev ino size : Z) : tool bound_object :=
  let base := Obj dev ino in
  let$ mm := call (mmap_region fd size) in
  match mm with
  | Err e => stop 2 (cat ["REMOVE mmap_failed code="; to_string (err_code e); " errno=";
                          dec (err_errno e)])
  | Ok _ =>
      let$ magic := call (load_list (map (fun i => base (HeadMagic i)) (seq 0 8))) in
      if negb (bool_decide (magic = string_codes kChannelHeaderMagic)) then
        stop 2 "REFUSE header_magic_mismatch"
      else
      let$ generation := call (shared_load_acquire (base (Head ch_generation))) in
      let$ hi := call (shared_load_acquire (base (Head ch_instance_nonce_hi))) in
      let$ lo := call (shared_load_acquire (base (Head ch_instance_nonce_lo))) in
      let$ id := call (identity_snapshot_read (fun f => base (Ident r_producer f))) in
      let producer := match id with Ok p => Some (ia_pid p, ia_proc_start_ticks p) | Err _ => None end in
      match ex_generation expect with
      | Some want =>
          if negb (generation =? want) then
            stop 2 (cat ["REFUSE generation_mismatch want="; dec want; " got="; dec generation])
          else tret (mkBound true generation hi lo producer)
      | None => tret (mkBound true generation hi lo producer)
      end
  end.

(** The creation of the object did not get to its end. *)
Definition bind_partial (journal : ControlJournalV1) (boot : BootstrapHeaderAbi) (size : Z)
    : tool bound_object :=
  do$ print (cat ["REMOVE partial_object size="; dec size; " init="; init_state_name (bo_init_state boot)]);
  if negb (cj_state journal =? js_kIdle) && negb (cj_new_nonce_hi journal =? 0)
     && (negb (cj_new_nonce_hi journal =? bo_creator_nonce_hi boot)
         || negb (cj_new_nonce_lo journal =? bo_creator_nonce_lo boot)) then
    stop 2 "REFUSE journal_nonce_mismatch"
  else tret (mkBound false 0 (bo_creator_nonce_hi boot) (bo_creator_nonce_lo boot) None).

(** The object is empty: the journal or the caller says which one it is. *)
Definition bind_empty (journal : ControlJournalV1) (expect : expectation) : tool bound_object :=
  do$ print "REMOVE preobject size=0";
  if negb (cj_new_nonce_hi journal =? 0) || negb (cj_new_nonce_lo journal =? 0) then
    tret (mkBound false 0 (cj_new_nonce_hi journal) (cj_new_nonce_lo journal) None)
  else match ex_nonce expect with
       | Some (hi, lo) => tret (mkBound false 0 hi lo None)
       | None => stop 2 (cat ["REFUSE preobject_no_binding ";
                              "(journal has no nonce; pass --expect-nonce to confirm removal)"])
       end.

Definition bind_object (journal : ControlJournalV1) (expect : expectation) (fd dev ino size : Z)
    : tool bound_object :=
  let$ rboot := call (pread_full fd kBootstrapHeaderSize 0) in
  let$ boot :=
    match rboot with
    | Err _ => tret None
    | Ok _ =>
        let$ boot := call (load_bootstrap (Obj dev ino)) in
        tret (match validate_bootstrap_parse boot size with Ok _ => Some boot | Err _ => None end)
    end in
  match boot with
  | Some boot =>
      if (bo_init_state boot =? is_kReady) && (kChannelHeaderOffset + kChannelHeaderSize <=? size) then
        bind_ready expect fd dev ino size
      else bind_partial journal boot size
  | None => if size =? 0 then bind_empty journal expect else stop 2 "REFUSE object_corrupt"
  end.

(** The checks on a bound object; [bound] is true on every path that gets here. *)
Definition check_bound (journal : ControlJournalV1) (expect : expectation) (b : bound_object) : tool unit :=
  if match ex_nonce expect with
     | Some (hi, lo) => negb (bd_nonce_hi b =? hi) || negb (bd_nonce_lo b =? lo)
     | None => false
     end then stop 2 "REFUSE nonce_mismatch"
  else if bd_ready b && (cj_state journal =? js_kIdle) && negb (cj_new_generation journal =? 0)
          && (negb (cj_new_generation journal =? bd_generation b)
              || negb (cj_new_nonce_hi journal =? bd_nonce_hi b)
              || negb (cj_new_nonce_lo journal =? bd_nonce_lo b)) then
    stop 2 "REFUSE journal_instance_mismatch"
  else if bd_ready b then
    match bd_producer b with
    | Some (p, start) =>
        if negb (p =? 0) then
          let$ lv := refuse_live p start "" in
          if bool_decide (lv = kPidReused) then print "PRODUCER pid_reused_proceed" else tret tt
        else tret tt
    | None => tret tt
    end
  else tret tt.

(** The removal itself, between its two records. *)
Definition commit_removal {A} (lock : ControlLock) (channel_name shm_name : string) (dev ino : Z)
    (b : bound_object) : tool A :=
  let$ self := call current_process_identity in
  let remove_rec :=
    with_target (make_control_journal channel_name js_kRemoving (bd_generation b) 0 (bd_nonce_hi b)
                   (bd_nonce_lo b) 0 0 self) dev ino in
  let$ wr := call (write_journal lock remove_rec) in
  match wr with
  | Err e => stop 2 (cat ["REMOVE journal_write_failed code="; to_string (err_code e)])
  | Ok _ =>
      let$ un := call (shm_unlink_checked shm_name dev ino) in
      match un with
      | Err e =>
          let$ idle := call (idle_journal channel_name) in
          let$ _ := call (write_journal lock idle) in
          stop 2 (cat ["REMOVE unlink_failed code="; to_string (err_code e)])
      | Ok _ =>
          let$ self := call current_process_identity in
          let done :=
            with_target (make_control_journal channel_name js_kIdle (bd_generation b) (bd_generation b)
                           (bd_nonce_hi b) (bd_nonce_lo b) (bd_nonce_hi b) (bd_nonce_lo b) self) dev ino in
          let$ _ := call (write_journal lock done) in
          stop 0 (cat ["REMOVED name="; shm_name; " inode="; dec ino; " generation=";
                       dec (bd_generation b); " nonce="; nonce_text (bd_nonce_hi b) (bd_nonce_lo b)])
      end
  end.

Definition remove_object {A} (lock : ControlLock) (channel_name shm_name : string)
    (journal : ControlJournalV1) (expect : expectation) : tool A :=
  let$ fd_res := call (shm_open_existing shm_name) in
  match fd_res with
  | Err e =>
      if bool_decide (err_code e = kNotFound) then stop 0 "REMOVED already_absent"
      else stop 2 (cat ["OPEN_FAIL code="; to_string (err_code e); " errno="; dec (err_errno e); " op=";
                        err_operation e])
  | Ok fd =>
      let$ fst_ := call (shm_fstat_and_capture fd) in
      match fst_ with
      | Err e => stop 2 (cat ["REMOVE fstat_failed code="; to_string (err_code e)])
      | Ok (dev, ino, size) =>
          if negb (cj_state journal =? js_kIdle) && negb (cj_target_ino journal =? 0)
             && negb (cj_target_ino journal =? ino) then
            stop 2 (cat ["REFUSE inode_mismatch journal_target="; dec (cj_target_ino journal); " obj=";
                         dec ino])
          else
          let$ b := bind_object journal expect fd dev ino size in
          do$ check_bound journal expect b;
          commit_removal lock channel_name shm_name dev ino b
      end
  end.

Definition ctl_remove_locked {A} (lock : ControlLock) (channel_name shm_name : string) (expect : expectation)
    : tool A :=
  let$ jr := call (read_journal lock) in
  match jr with
  | Err e => stop 2 (cat ["REMOVE journal_read_failed code="; to_string (err_code e)])
  | Ok journal =>
      if negb (cj_channel_hash journal =? 0)
         && negb (cj_channel_hash journal =? channel_name_hash (string_codes channel_name)) then
        stop 2 "REFUSE journal_channel_mismatch"
      else if cj_transport journal =? transport_value tr_kMemfdFdPass then
        remove_fd_pass lock channel_name journal
      else remove_object lock channel_name shm_name journal expect
  end.

Definition cmd_remove {A} (channel_name : string) (expect : expectation) : tool A :=
  let$ shm_name := call (channel_shm_name channel_name) in
  let$ lock_path := call (channel_lock_path channel_name) in
  let$ lock_res := call (control_lock_acquire lock_path) in
  match lock_res with
  | Err e => stop 2 (cat ["REMOVE lock_failed code="; to_string (err_code e); " errno=";
                          dec (err_errno e); " op="; err_operation e])
  | Ok lock => with_lock lock (ctl_remove_locked lock channel_name shm_name expect)
  end.

(** * The command line *)

Definition usage : tool unit :=
  do$ eprint "usage: self_ipcs_shm_ctl inspect <name>";
  eprint "       self_ipcs_shm_ctl remove  <name> [--expect-generation N] [--expect-nonce HEX32]".

(** [main], with the arguments after the program's name; ending it without an exit status
    is [return 0]. *)
Definition ctl_main (fuel : nat) (args : list string) : tool unit :=
  match args with
  | sub :: name :: _ =>
      if arg_flag args "--help" then do$ usage; exit 0
      else if bool_decide (sub = "inspect"%string) then cmd_inspect fuel name
      else if bool_decide (sub = "remove"%string) then
        let gen := arg_value args "--expect-generation" in
        let expect_gen :=
          match gen with Some g => option_map fst (scan_u64 (string_codes g)) | None => None end in
        if match gen, expect_gen with Some _, None => true | _, _ => false end then
          do$ eprint (cat ["bad --expect-generation: "; default ""%string gen]); exit 2
        else
        let nonce := arg_value args "--expect-nonce" in
        let expect_nonce := parse_nonce_hex nonce in
        if match nonce, expect_nonce with Some _, None => true | _, _ => false end then
          do$ eprint (cat ["bad --expect-nonce (need 32 hex chars, 128-bit): "; default ""%string nonce]);
          exit 2
        else cmd_remove name (mkExpect expect_gen expect_nonce)
      else do$ eprint (cat ["unknown subcommand: "; sub]); exit 2
  | _ => do$ usage; exit (if arg_flag args "--help" then 0 else 2)
  end.
