(* ===== verification/ShmCtlTheorems.v ===== *)
(** What [remove] of the diagnostic tool removes.

    The kernel's answers about processes and names are those of [ProcTheorems]; the tool
    runs alone. Its lines and its exit status are those of [ShmCtl]. *)
From S2P Require Import Prelude ByteFields Errors CheckedMath Prog SeqLogic Checksum ProcIdentity ProcTheorems.
From S2P Require Import ProcessSpawn ShmObject OwnerSnapshot Clock ChannelLayout ChannelSegment SlotProtocol ChannelAbi ControlLock.
From S2P Require Import FdBroker ChannelFrames ToolCommon ShmCtl.

(** * Nonces as text *)

Lemma hex_digit_char d : 0 <= d < 16 -> hex_digit (ascii_code (digit_char d)) = Some d.
Proof.
  intros Hd. assert (d ∈ map Z.of_nat (seq 0 16)) as Hin.
  { apply list_elem_of_fmap. exists (Z.to_nat d). split; [lia|]. apply elem_of_seq. lia. }
  clear Hd. revert d Hin. apply Forall_forall. apply (bool_decide_unpack _). by vm_compute.
Qed.

Lemma lor_low q d : 0 <= d < 16 -> Z.lor (q * 16) d = q * 16 + d.
Proof.
  intros Hd. assert (Z.land (q * 16) d = 0) as Hz.
  { rewrite <- (Z.mod_small d (2 ^ 4)) by lia. rewrite <- Z.land_ones by lia.
    rewrite (Z.land_comm d), Z.land_assoc, Z.land_ones by lia. change (2 ^ 4) with 16.
    by rewrite Z_mod_mult. }
  pose proof (Z.add_lor_land (q * 16) d). lia.
Qed.

Lemma digits_length b n v : length (digits b n v) = n.
Proof. revert v. induction n as [|n IH]; intros v; cbn [digits]; [done|]. rewrite length_app, IH. cbn. lia. Qed.

Lemma parse_hex_loop_app n s t acc :
  length s = n ->
  forall m, parse_hex_loop (n + m) (s ++ t) acc =
  match parse_hex_loop n s acc with Some v => parse_hex_loop m t v | None => None end.
Proof.
  intros <- m. revert acc. induction s as [|c s IH]; intros acc; [done|]. cbn.
  by destruct (hex_digit c).
Qed.

(** The text of a number is read back, after any text of another number. *)
Lemma parse_digits n v rest :
  (n <= 16)%nat -> 0 <= v < 16 ^ Z.of_nat n ->
  parse_hex_loop n (map ascii_code (digits 16 n v) ++ rest) 0 = Some v.
Proof.
  revert v rest. induction n as [|n IH]; intros v rest Hn Hv; [cbn in *; f_equal; lia|].
  cbn [digits]. rewrite map_app, <- app_assoc. rewrite Nat2Z.inj_succ, Z.pow_succ_r in Hv by lia.
  pose proof (Z.div_mod v 16 ltac:(lia)). pose proof (Z.mod_pos_bound v 16 ltac:(lia)).
  assert (0 <= v / 16 < 16 ^ Z.of_nat n) as Hq by lia.
  replace (S n) with (n + 1)%nat by lia.
  rewrite parse_hex_loop_app by (by rewrite length_map, digits_length).
  rewrite <- (app_nil_r (map ascii_code (digits 16 n (v / 16)))), IH by lia.
  cbn [map app parse_hex_loop]. rewrite hex_digit_char by lia. f_equal.
  assert (16 ^ Z.of_nat n <= 16 ^ 15) by (apply Z.pow_le_mono_r; lia).
  rewrite Z.shiftl_mul_pow2 by lia. change (2 ^ 4) with 16.
  rewrite u64_small by (change (16 ^ 15) with 1152921504606846976 in *; mlia).
  rewrite lor_low by lia. lia.
Qed.

Lemma list_ascii_app (s t : string) :
  String.list_ascii_of_string (s +:+ t) = String.list_ascii_of_string s ++ String.list_ascii_of_string t.
Proof. induction s as [|c s IH]; [done|]. cbn. by rewrite <- IH. Qed.

Lemma nonce_roundtrip hi lo :
  is_u64 hi -> is_u64 lo -> parse_nonce_hex (Some (nonce_text hi lo)) = Some (hi, lo).
Proof.
  intros Hh Hl. unfold parse_nonce_hex, nonce_text, hex16, string_codes, parse_u64_hex16.
  rewrite list_ascii_app, !String.list_ascii_of_string_of_list_ascii, map_app.
  rewrite bool_decide_true by (rewrite length_app, !length_map, !digits_length; lia). cbn [negb].
  rewrite parse_digits by mlia.
  rewrite drop_app_length' by (by rewrite length_map, digits_length).
  rewrite <- (app_nil_r (map _ (digits 16 16 lo))), parse_digits by mlia. done.
Qed.

(** * Programs that leave names and objects alone *)

Definition sys_renames {X} (c : sys X) : bool :=
  match c with sys_shm_unlink _ | sys_shm_open _ true => true | _ => false end.

(** Only the journals are written. *)
Definition ev_calm {X} (e : ev chloc X) : Prop :=
  match e with
  | Store (Jrn _ _) _ | Load _ | FutexWait _ _ _ _ | FutexWake _ _ => True
  | Sys c => sys_renames c = false
  | _ => False
  end.
Fixpoint calm {A} (p : cprog A) : Prop :=
  match p with
  | Ret _ => True
  | Vis e k => ev_calm e /\ forall x, calm (k x)
  end.

Lemma calm_bind {A B} (p : cprog A) (f : A -> cprog B) : calm p -> (forall a, calm (f a)) -> calm (bind p f).
Proof.
  induction p as [a|X e k IH]; simpl; intros Hp Hf; [done|].
  destruct Hp as [He Hk]. split; [done|]. intros x. by apply IH.
Qed.
Lemma calm_trigger {X} (e : ev chloc X) : ev_calm e -> calm (trigger e).
Proof. by split. Qed.
Lemma calm_tbind {A B} (m : tool A) (k : A -> tool B) : calm m -> (forall a, calm (k a)) -> calm (tbind m k).
Proof.
  intros Hm Hk. apply calm_bind; [done|]. intros [ls [a|st]]; [|done]. apply calm_bind; [apply Hk|].
  by intros [].
Qed.
Lemma calm_call {A} (p : cprog A) : calm p -> calm (call p).
Proof. intros Hp. by apply calm_bind. Qed.
Lemma calm_stop {A} st text : calm (@stop A st text).
Proof. done. Qed.

Create HintDb calm_db.
#[local] Hint Resolve calm_stop : calm_db.
Ltac solve_calm_step :=
  match goal with
  | |- calm (tbind _ _) => apply calm_tbind; [|intros ?]
  | |- calm (call _) => apply calm_call
  | |- calm (bind _ _) => apply calm_bind; [|intros ?]
  | |- calm (Ret _) => exact I
  | |- calm (tret _) => exact I
  | |- calm (exit _) => exact I
  | |- calm (print _) => exact I
  | |- calm (eprint _) => exact I
  | |- calm (fail _ _ _) => exact I
  | |- calm (lift _) => exact I
  | |- calm (match ?x with _ => _ end) => destruct x
  | |- calm (let _ := _ in _) => cbv zeta
  | |- calm _ => solve [auto with calm_db]
  | |- calm _ => apply calm_trigger; (exact I || reflexivity)
  end.
Ltac solve_calm := repeat solve_calm_step.

Lemma load_list_calm ls : calm (load_list ls).
Proof. induction ls as [|l ls IH]; cbn [load_list]; solve_calm. Qed.
Lemma retry_calm {X} n (c : sys (sysres X)) last : sys_renames c = false -> calm (retry_eintr n c last).
Proof.
  intros Hc. revert last. induction n as [|n IH]; intros last; cbn [retry_eintr]; [done|].
  apply calm_bind; [by apply calm_trigger|]. intros [x|e]; [done|]. by destruct (e =? EINTR).
Qed.
#[local] Hint Resolve load_list_calm : calm_db.
#[local] Hint Extern 1 (calm (retry_eintr _ _ _)) => apply retry_calm; reflexivity : calm_db.
Lemma proc_stat_calm p : calm (proc_stat_starttime p).
Proof. unfold proc_stat_starttime. solve_calm. Qed.
#[local] Hint Resolve proc_stat_calm : calm_db.
Lemma probe_calm p s : calm (probe_liveness p s).
Proof. unfold probe_liveness. solve_calm. Qed.
Lemma boot_id_calm : calm current_boot_id_hash.
Proof. unfold current_boot_id_hash. solve_calm. Qed.
#[local] Hint Resolve probe_calm boot_id_calm : calm_db.
Lemma self_calm : calm current_process_identity.
Proof. unfold current_process_identity, read_current_process_identity. solve_calm. Qed.
Lemma pread_loop_calm fuel op fd size offset got : calm (pread_loop fuel op fd size offset got).
Proof. revert got. induction fuel as [|n IH]; intros got; cbn [pread_loop]; solve_calm. Qed.
#[local] Hint Resolve self_calm pread_loop_calm : calm_db.
Lemma pread_full_calm fd size offset : calm (pread_full fd size offset).
Proof. unfold pread_full. solve_calm. Qed.
Lemma snapshot_loop_calm abi n : calm (identity_snapshot_loop abi n).
Proof. induction n as [|n IH]; cbn [identity_snapshot_loop]; solve_calm. Qed.
Lemma snapshot_calm abi : calm (identity_snapshot_read abi).
Proof. apply snapshot_loop_calm. Qed.
Lemma load_bootstrap_calm base : calm (load_bootstrap base).
Proof. unfold load_bootstrap. solve_calm. Qed.
Lemma fstat_calm fd : calm (shm_fstat_and_capture fd).
Proof. unfold shm_fstat_and_capture, bounded_fstat. solve_calm. Qed.
Lemma shm_open_calm n : calm (shm_open_existing n).
Proof. unfold shm_open_existing. solve_calm. Qed.
Lemma mmap_calm fd size : calm (mmap_region fd size).
Proof. unfold mmap_region. solve_calm. Qed.
Lemma acquire_calm path : calm (control_lock_acquire path).
Proof. unfold control_lock_acquire. solve_calm. Qed.
Lemma release_calm lock : calm (control_lock_release lock).
Proof. unfold control_lock_release. solve_calm. Qed.
Lemma read_journal_calm lock : calm (read_journal lock).
Proof. unfold read_journal. solve_calm. Qed.
#[local] Hint Resolve pread_full_calm snapshot_calm load_bootstrap_calm fstat_calm shm_open_calm
  mmap_calm acquire_calm release_calm read_journal_calm : calm_db.

Lemma store_journal_calm (ls : list (chloc * Z)) :
  Forall (fun x => exists p i, x.1 = Jrn p i) ls -> calm (store_list ls).
Proof.
  induction 1 as [|[l v] ls (p & i & Hl) _ IH]; cbn [store_list]; [done|]. cbn in Hl. subst l.
  apply calm_bind; [by apply calm_trigger|]. done.
Qed.
Lemma journal_write_calm fuel op lock (stores : list (chloc * Z)) written :
  Forall (fun x => exists p i, x.1 = Jrn p i) stores -> calm (journal_write_loop fuel op lock stores written).
Proof.
  revert stores written. induction fuel as [|n IH]; intros stores written Hs; cbn [journal_write_loop].
  - by destruct (_ <=? _).
  - destruct (_ <=? _); [done|]. apply calm_bind; [by apply calm_trigger|]. intros [k|e].
    + apply calm_bind; [by apply store_journal_calm, Forall_take|]. intros _. by apply IH, Forall_drop.
    + destruct (e =? EINTR); [by apply IH|done].
Qed.
Lemma write_journal_calm lock j : calm (write_journal lock j).
Proof.
  unfold write_journal. destruct (_ && _); [done|]. cbv zeta. apply calm_bind.
  - apply journal_write_calm. apply Forall_lookup. intros i [l v] Hi.
    apply list_elem_of_lookup_2, elem_of_zip_l in Hi.
    unfold journal_locs in Hi. apply list_elem_of_fmap in Hi as (k & -> & _). by eexists _, _.
  - intros [[]|e]; solve_calm.
Qed.
#[local] Hint Resolve write_journal_calm : calm_db.

(** * What [remove] reads from an object *)

Definition stored_boot (m : chloc -> Z) (dev ino : Z) : BootstrapHeaderAbi :=
  let f x := m (Obj dev ino (Boot x)) in
  mkBootstrap (map (fun i => m (Obj dev ino (BootMagic i))) (seq 0 8)) (f bf_abi_major) (f bf_abi_minor)
    (f bf_header_size) (f bf_expected_mapping_size) (f bf_creator_nonce_hi) (f bf_creator_nonce_lo)
    (f bf_creator_pid) (f bf_creator_proc_start_ticks) (f bf_creator_boot_id_hash_hi)
    (f bf_creator_boot_id_hash_lo) (f bf_init_state) (f bf_reserved0) (f bf_bootstrap_checksum)
    (map (fun i => m (Obj dev ino (BootReserved i))) (seq 0 40)).

(** The pid and start time of the producer, unless they are being written. *)
Definition stored_producer (m : chloc -> Z) (dev ino : Z) : option (Z * Z) :=
  let f x := m (Obj dev ino (Ident r_producer x)) in
  if epoch_odd (f id_role_epoch) then None else Some (f id_pid, f id_proc_start_ticks).

(** The creation of the object was finished. *)
Definition complete (m : chloc -> Z) (dev ino size : Z) : Prop :=
  validate_bootstrap_parse (stored_boot m dev ino) size = Ok tt /\
  m (Obj dev ino (Boot bf_init_state)) = is_kReady /\
  kChannelHeaderOffset + kChannelHeaderSize <= size.

Lemma swp_boot dev ino m :
  swp (load_bootstrap (Obj dev ino)) (fun b m' => b = stored_boot m dev ino /\ m' = m) m.
Proof.
  unfold load_bootstrap. eapply swp_seq; [apply swp_load_list|]. intros magic m1 [-> ->]. cbn [bind].
  repeat (cbn [swp sev bind plain_load trigger]).
  apply swp_bind. eapply swp_mono; [apply swp_load_list|]. intros reserved m1 [-> ->]. cbn [swp].
  unfold stored_boot. by rewrite !map_map.
Qed.

Lemma swp_producer dev ino m :
  swp (identity_snapshot_read (fun f => Obj dev ino (Ident r_producer f)))
    (fun r m' => m' = m /\
       match r with Ok p => Some (ia_pid p, ia_proc_start_ticks p) | Err _ => None end
       = stored_producer m dev ino) m.
Proof.
  unfold identity_snapshot_read, stored_producer, kIdentitySnapshotRetries.
  set (epoch := m (Obj dev ino (Ident r_producer id_role_epoch))).
  destruct (epoch_odd epoch) eqn:Ho.
  - generalize 8%nat. intros n. induction n as [|n IH]; cbn -[epoch_odd]; [done|]. fold epoch. by rewrite Ho.
  - change 8%nat with (S 7). generalize 7%nat. intros n. cbn -[epoch_odd]. fold epoch. rewrite Ho. cbn -[epoch_odd]. fold epoch.
    rewrite Ho, Z.eqb_refl. by cbn.
Qed.

(** [swp] of a tool: what holds when it goes on. *)
Definition tswp {A} (t : tool A) (Q : A -> (chloc -> Z) -> Prop) (m : chloc -> Z) : Prop :=
  swp t (fun r m' => match r.2 with inl a => Q a m' | inr _ => True end) m.

Lemma tswp_bind {A B} (t : tool A) (k : A -> tool B) Q m :
  tswp t (fun a m' => tswp (k a) Q m') m -> tswp (tbind t k) Q m.
Proof.
  intros Ht. apply swp_bind. eapply swp_mono; [exact Ht|]. intros [ls [a|st]] m' H; [|exact I].
  apply swp_bind. eapply swp_mono; [exact H|]. intros [ls' [b|st]] m'' H'; [exact H'|exact I].
Qed.
Lemma tswp_call {A} (p : cprog A) Q m : swp p Q m -> tswp (call p) Q m.
Proof. intros Hp. apply swp_bind. eapply swp_mono; [exact Hp|]. done. Qed.
Lemma tswp_call_value {A} (p : cprog A) (Q : A -> (chloc -> Z) -> Prop) a m :
  swp p (fun a' m' => a' = a /\ m' = m) m -> Q a m -> tswp (call p) Q m.
Proof. intros Hp HQ. apply tswp_call. eapply swp_mono; [exact Hp|]. by intros ? ? [-> ->]. Qed.
Lemma tswp_tret {A} (a : A) (Q : A -> (chloc -> Z) -> Prop) m : Q a m -> tswp (tret a) Q m.
Proof. done. Qed.
Lemma tswp_stop {A} st text (Q : A -> (chloc -> Z) -> Prop) m : tswp (stop st text) Q m.
Proof. exact I. Qed.
Lemma tswp_readonly {A B} (p : cprog A) (k : A -> tool B) Q m :
  readonly p -> (forall a, tswp (k a) Q m) -> tswp (tbind (call p) k) Q m.
Proof.
  intros Hp Hk. apply tswp_bind, tswp_call. eapply swp_mono; [by apply swp_readonly|]. intros a ? ->. apply Hk.
Qed.

(** What is known of an object that [bind_object] accepts. *)
Definition bound_as (m : chloc -> Z) (expect : expectation) (dev ino size : Z) (b : bound_object) : Prop :=
  complete m dev ino size ->
  let f x := m (Obj dev ino (Head x)) in
  bd_ready b = true /\ bd_generation b = f ch_generation /\ bd_nonce_hi b = f ch_instance_nonce_hi /\
  bd_nonce_lo b = f ch_instance_nonce_lo /\ bd_producer b = stored_producer m dev ino /\
  forall g, ex_generation expect = Some g -> g = f ch_generation.

Lemma tswp_bind_ready expect fd dev ino size m :
  tswp (bind_ready expect fd dev ino size) (fun b _ => bound_as m expect dev ino size b) m.
Proof.
  unfold bind_ready. apply tswp_readonly; [unfold mmap_region; solve_readonly|]. intros [mm|e]; [|apply tswp_stop].
  eapply tswp_bind, tswp_call_value; [apply swp_load_list|]. destruct (negb _); [apply tswp_stop|].
  do 3 (eapply tswp_bind, tswp_call_value; [cbn; done|]).
  eapply tswp_bind, tswp_call, swp_mono; [apply swp_producer|]. intros id ? [-> Hid]. cbv zeta. rewrite Hid.
  destruct (ex_generation expect) as [want|] eqn:Hw.
  - destruct (Z.eqb_spec (m (Obj dev ino (Head ch_generation))) want) as [<-|]; [|apply tswp_stop].
    cbn. intros _. cbn. repeat split. rewrite Hw. by intros g [= <-].
  - cbn. intros _. cbn. repeat split. rewrite Hw. done.
Qed.

Lemma tswp_bind_object journal expect fd dev ino size m :
  tswp (bind_object journal expect fd dev ino size) (fun b _ => bound_as m expect dev ino size b) m.
Proof.
  unfold bind_object. apply tswp_readonly; [apply pread_full_readonly|]. intros rboot.
  assert (forall boot, tswp (bind_partial journal boot size)
    (fun b _ => ~ complete m dev ino size -> bound_as m expect dev ino size b) m) as Hpart.
  { intros boot. unfold bind_partial. apply tswp_bind. cbn. destruct (_ && _); [apply tswp_stop|]. cbn. done. }
  assert (tswp (bind_empty journal expect)
    (fun b _ => ~ complete m dev ino size -> bound_as m expect dev ino size b) m) as Hempty.
  { unfold bind_empty. apply tswp_bind. cbn. destruct (_ || _); [done|].
    destruct (ex_nonce expect) as [[hi lo]|]; [done|apply tswp_stop]. }
  assert (forall (t : tool bound_object), tswp t (fun b _ => ~ complete m dev ino size -> bound_as m expect dev ino size b) m ->
    ~ complete m dev ino size -> tswp t (fun b _ => bound_as m expect dev ino size b) m) as Hweak.
  { intros t Ht Hn. eapply swp_mono; [exact Ht|]. intros [ls [b|]] ?; cbn; auto. }
  destruct rboot as [[]|e].
  - apply tswp_bind, tswp_bind. eapply tswp_call_value; [apply swp_boot|]. apply tswp_tret.
    destruct (validate_bootstrap_parse (stored_boot m dev ino) size) as [[]|e] eqn:Hv.
    + destruct (_ && _) eqn:Hc; [apply tswp_bind_ready|]. apply Hweak; [done|]. intros (_ & Hi & Hs).
      apply andb_false_iff in Hc as [Hc|Hc]; [apply Z.eqb_neq in Hc; destruct Hc; exact Hi|]. lia.
    + destruct (size =? 0); [|apply tswp_stop]. apply Hweak; [done|]. intros [Hv' _]. congruence.
  - apply tswp_bind, tswp_tret. destruct (Z.eqb_spec size 0) as [->|]; [|apply tswp_stop].
    apply Hweak; [done|]. intros (_ & _ & Hs). by vm_compute in Hs.
Qed.

(** * On a kernel with processes and names *)

(** Names change only when they are made or removed; an object has a size; the user is
    [uid]. *)
Record steady_kernel {OS} (os : os_model OS) (names : OS -> string -> option (Z * Z))
    (opened : OS -> Z -> option (Z * Z)) (uid : Z) (size_of : Z * Z -> Z) : Prop := {
  sk_names : forall X (c : sys X) o n, sys_renames c = false -> names (os X c o).2 n = names o n;
  sk_size : forall fd id o st, opened o fd = Some id -> (os _ (sys_fstat fd) o).1 = SysOk st ->
    st_size st = size_of id;
  sk_uid : forall o, (os _ sys_getuid o).1 = uid
}.

(** The name of a channel's object. *)
Definition object_name (uid : Z) (channel_name : string) : string :=
  ("/edgeruntime." +:+ pretty.pretty uid +:+ "." +:+ channel_name)%string.

(** A finished object whose recorded producer is running. *)
Definition in_service (procs : Z -> option process) (m : chloc -> Z) (dev ino size : Z) : Prop :=
  complete m dev ino size /\
  exists p start, stored_producer m dev ino = Some (p, start) /\ 0 < p <= INT32_MAX /\ start <> 0 /\
    liveness_of procs p start = kAlive.

(** The expectations of the caller hold of a finished object. *)
Definition as_expected (expect : expectation) (m : chloc -> Z) (dev ino size : Z) : Prop :=
  complete m dev ino size ->
  let f x := m (Obj dev ino (Head x)) in
  (forall g, ex_generation expect = Some g -> g = f ch_generation) /\
  (forall hi lo, ex_nonce expect = Some (hi, lo) -> hi = f ch_instance_nonce_hi /\ lo = f ch_instance_nonce_lo).

Section Removal.
Context {OS : Type} (os : os_model OS) (procs : Z -> option process) (pidfd statfd : Z -> Z).
Context (names : OS -> string -> option (Z * Z)) (opened : OS -> Z -> option (Z * Z)) (uid : Z).
Context (size_of : Z * Z -> Z).
Hypothesis Hk : kernel_answers os procs pidfd statfd.
Hypothesis Hn : names_answer os names opened uid.
Hypothesis Hs : steady_kernel os names opened uid size_of.
Context (w0 : world chloc OS).

(** The names and objects are those of the start. *)
Definition untouched (w : world chloc OS) : Prop :=
  (forall n, names (w_os w) n = names (w_os w0) n) /\
  (forall d i l, w_mem w (Obj d i l) = w_mem w0 (Obj d i l)).

Definition rwp {A} (p : cprog A) (Q : A -> world chloc OS -> Prop) (w : world chloc OS) : Prop :=
  Q (run os p w).1 (run os p w).2.

Lemma rwp_seq {A B} (p : cprog A) (f : A -> cprog B) Q1 Q w :
  rwp p Q1 w -> (forall a w', Q1 a w' -> rwp (f a) Q w') -> rwp (bind p f) Q w.
Proof.
  unfold rwp. intros Hp Hf. rewrite run_bind. specialize (Hf _ _ Hp). by destruct (run os p w) as [a w'].
Qed.
Lemma rwp_mono {A} (p : cprog A) (Q Q' : A -> world chloc OS -> Prop) w :
  rwp p Q w -> (forall a w', Q a w' -> Q' a w') -> rwp p Q' w.
Proof. unfold rwp. auto. Qed.

Lemma calm_keeps {A} (p : cprog A) w :
  calm p -> rwp p (fun _ w' => (forall n, names (w_os w') n = names (w_os w) n) /\
                               (forall d i l, w_mem w' (Obj d i l) = w_mem w (Obj d i l))) w.
Proof.
  unfold rwp. revert w. induction p as [a|X e k IH]; intros w; [done|]. intros [He Hc]. cbn [run].
  assert (forall n, names (w_os (run_ev os e w).2) n = names (w_os w) n) as H1.
  { destruct e as [l|l v|l a b|q l v|l a b c|l c|X c]; cbn in *; try done; intros n.
    - destruct (_ =? _); [|done]. by apply (sk_names _ _ _ _ _ Hs).
    - by apply (sk_names _ _ _ _ _ Hs).
    - by apply (sk_names _ _ _ _ _ Hs). }
  assert (forall d i l, w_mem (run_ev os e w).2 (Obj d i l) = w_mem w (Obj d i l)) as H2.
  { destruct e as [l|l v|l a b|q l v|l a b c|l c|X c]; cbn in *; try done; intros d i l'.
    - by destruct l.
    - by destruct (_ =? _). }
  destruct (run_ev os e w) as [x w'] eqn:E. cbn [snd fst] in *. destruct (IH x w' (Hc x)) as [H3 H4].
  split; intros; [by rewrite H3, H1|by rewrite H4, H2].
Qed.

Lemma rwp_calm {A} (p : cprog A) w : calm p -> untouched w -> rwp p (fun _ => untouched) w.
Proof.
  intros Hp [H1 H2]. eapply rwp_mono; [by apply calm_keeps|]. intros a w' [H3 H4].
  split; intros; [by rewrite H3|by rewrite H4].
Qed.

(** Tools: what holds when it goes on, and when it ends. *)
Definition twp {A} (t : tool A) (Q : A -> world chloc OS -> Prop) (E : world chloc OS -> Prop)
    (w : world chloc OS) : Prop :=
  rwp t (fun r w' => match r.2 with inl a => Q a w' | inr _ => E w' end) w.

Lemma twp_bind {A B} (t : tool A) (k : A -> tool B) Q1 Q E w :
  twp t Q1 E w -> (forall a w', Q1 a w' -> twp (k a) Q E w') -> twp (tbind t k) Q E w.
Proof.
  intros Ht Hk'. eapply (rwp_seq _ _ (fun r w' => match r.2 with inl a => Q1 a w' | inr _ => E w' end));
    [exact Ht|]. intros [ls [a|st]] w' H; [|exact H].
  eapply (rwp_seq _ _ (fun r w' => match r.2 with inl a => Q a w' | inr _ => E w' end)); [by apply Hk'|]. intros [ls' [b|st]] w'' H'; exact H'.
Qed.
Lemma twp_call {A} (p : cprog A) Q E w : rwp p Q w -> twp (call p) Q E w.
Proof. intros Hp. by eapply (rwp_seq _ _ Q). Qed.
Lemma twp_calm {A} (t : tool A) w : calm t -> untouched w -> twp t (fun _ => untouched) untouched w.
Proof. intros Ht Hw. eapply rwp_mono; [by apply rwp_calm|]. by intros [ls [a|st]] w'. Qed.
Lemma twp_tret {A} (a : A) (Q : A -> world chloc OS -> Prop) (E : world chloc OS -> Prop) w :
  Q a w -> twp (tret a) Q E w.
Proof. done. Qed.
Lemma twp_stop {A} st text (Q : A -> world chloc OS -> Prop) (E : world chloc OS -> Prop) w :
  E w -> twp (stop st text) Q E w.
Proof. done. Qed.
Lemma twp_mono {A} (t : tool A) (Q Q' : A -> world chloc OS -> Prop) (E E' : world chloc OS -> Prop) w :
  twp t Q E w -> (forall a w', Q a w' -> Q' a w') -> (forall w', E w' -> E' w') -> twp t Q' E' w.
Proof.
  intros Ht HQ HE. eapply (rwp_mono _ (fun r w' => match r.2 with inl a => Q a w' | inr _ => E w' end)); [exact Ht|].
  intros [ls [a|st]] w'; cbn; auto. Qed.

(** What the removal may do to the names: nothing, or removing the one name of an object
    that is not in service and is the expected one. *)
Definition outcome (shm_name : string) (expect : expectation) (w : world chloc OS) : Prop :=
  (forall n, names (w_os w) n = names (w_os w0) n) \/
  exists dev ino, names (w_os w0) shm_name = Some (dev, ino) /\
    ~ in_service procs (w_mem w0) dev ino (size_of (dev, ino)) /\
    as_expected expect (w_mem w0) dev ino (size_of (dev, ino)) /\
    forall n, names (w_os w) n = if decide (n = shm_name) then None else names (w_os w0) n.

Lemma untouched_outcome shm_name expect w : untouched w -> outcome shm_name expect w.
Proof. intros [H _]. by left. Qed.
Lemma outcome_calm {A} shm_name expect (p : cprog A) w :
  calm p -> outcome shm_name expect w -> rwp p (fun _ => outcome shm_name expect) w.
Proof.
  intros Hp Ho. eapply rwp_mono; [by apply calm_keeps|]. intros a w' [H _].
  destruct Ho as [Ho|(dev & ino & H1 & H2 & H3 & H4)]; [left; intros n; by rewrite H, Ho|].
  right. exists dev, ino. split; [done|]. split; [done|]. split; [done|]. intros n. by rewrite H, H4.
Qed.

Lemma rwp_open shm_name w :
  untouched w ->
  rwp (shm_open_existing shm_name) (fun r w' => untouched w' /\
    match r with
    | Ok fd => exists id, names (w_os w0) shm_name = Some id /\ opened (w_os w') fd = Some id
    | Err _ => True
    end) w.
Proof.
  intros Hw. pose proof (rwp_calm (shm_open_existing shm_name) w (shm_open_calm _) Hw) as Hu.
  destruct Hw as [Hw _]. unfold rwp in *. destruct (na_open _ _ _ _ Hn shm_name (w_os w)) as [_ Ho].
  split; [exact Hu|]. unfold shm_open_existing in *. cbn in *. rewrite Hw in Ho.
  destruct (names (w_os w0) shm_name) as [id|].
  - destruct Ho as (fd & Hfd & Hid). rewrite Hfd. by exists id.
  - by rewrite Ho.
Qed.

Lemma rwp_fstat fd dev ino w :
  untouched w -> opened (w_os w) fd = Some (dev, ino) ->
  rwp (shm_fstat_and_capture fd) (fun r w' => untouched w' /\ r = Ok (dev, ino, size_of (dev, ino))) w.
Proof.
  intros Hw Hfd. pose proof (rwp_calm (shm_fstat_and_capture fd) w (fstat_calm _) Hw) as Hu.
  unfold rwp in *. destruct (run_fstat_capture (L := chloc) os names opened uid Hn fd dev ino w Hfd)
    as (size & o' & E & _ & st & Hst & Hsize).
  rewrite E in *. cbn [fst snd] in *. split; [done|].
  by rewrite <- Hsize, (sk_size _ _ _ _ _ Hs fd _ _ st Hfd Hst).
Qed.

Lemma twp_tswp {A} (t : tool A) Q (phi : A -> Prop) E w :
  twp t Q E w -> tswp t (fun a _ => phi a) (w_mem w) -> twp t (fun a w' => Q a w' /\ phi a) E w.
Proof.
  unfold twp, rwp. intros H1 H2. destruct w as [m o]. apply (swp_run os t _ m o) in H2. cbn [w_mem] in H2.
  by destruct (run os t (mkWorld m o)) as [[ls [b|st]] w'].
Qed.
Lemma bind_object_calm journal expect fd dev ino size : calm (bind_object journal expect fd dev ino size).
Proof. unfold bind_object, bind_ready, bind_partial, bind_empty. solve_calm. Qed.
Lemma twp_bind_object journal expect fd dev ino size w :
  untouched w ->
  twp (bind_object journal expect fd dev ino size)
    (fun b w' => untouched w' /\ bound_as (w_mem w) expect dev ino size b) untouched w.
Proof.
  intros Hw. apply twp_tswp; [|apply tswp_bind_object]. apply twp_calm; [apply bind_object_calm|done].
Qed.

(** What the checks before the removal establish. *)
Definition may_go (expect : expectation) (b : bound_object) : Prop :=
  (forall hi lo, ex_nonce expect = Some (hi, lo) -> hi = bd_nonce_hi b /\ lo = bd_nonce_lo b) /\
  (bd_ready b = true -> forall p start, bd_producer b = Some (p, start) -> 0 < p <= INT32_MAX ->
   start <> 0 -> liveness_of procs p start <> kAlive).

Lemma rwp_probe p start w :
  0 < p <= INT32_MAX -> start <> 0 -> untouched w ->
  rwp (probe_liveness p start) (fun lv w' => untouched w' /\ lv = liveness_of procs p start) w.
Proof.
  intros Hp He Hw. pose proof (rwp_calm _ w (probe_calm p start) Hw) as Hu. unfold rwp in *.
  destruct (run_probe_liveness (L := chloc) os procs pidfd statfd Hk p start w Hp He) as [o' E].
  rewrite E in *. done.
Qed.

Lemma twp_check_bound journal expect b w :
  untouched w ->
  twp (check_bound journal expect b) (fun _ w' => untouched w' /\ may_go expect b) untouched w.
Proof.
  intros Hw. unfold check_bound.
  set (mismatch := match ex_nonce expect with
                   | Some (hi, lo) => negb (bd_nonce_hi b =? hi) || negb (bd_nonce_lo b =? lo)
                   | None => false
                   end).
  destruct mismatch eqn:Hnonce; [by apply twp_stop|]. unfold mismatch in Hnonce.
  assert (forall hi lo, ex_nonce expect = Some (hi, lo) -> hi = bd_nonce_hi b /\ lo = bd_nonce_lo b) as Hexp.
  { intros hi lo He. rewrite He in Hnonce. apply orb_false_iff in Hnonce as [H1 H2].
    apply negb_false_iff, Z.eqb_eq in H1. apply negb_false_iff, Z.eqb_eq in H2. done. }
  destruct (_ && _ && _ && _); [by apply twp_stop|]. unfold may_go.
  destruct (bd_ready b); [|by apply twp_tret].
  destruct (bd_producer b) as [[p start]|]; [|by apply twp_tret].
  destruct (Z.eqb_spec p 0) as [->|Hp0]; cbn [negb].
  { apply twp_tret. split; [done|]. split; [done|]. intros _ p s [= <- <-]. lia. }
  destruct (decide (0 < p <= INT32_MAX /\ start <> 0)) as [[Hp Hs0]|Hbad].
  - eapply twp_bind with (Q1 := fun lv w' => untouched w' /\ liveness_of procs p start <> kAlive).
    + unfold refuse_live. eapply twp_bind; [apply twp_call, rwp_probe; [exact Hp|exact Hs0|exact Hw]|].
      cbv beta. intros lv w' [Hw' ->]. by destruct (liveness_of procs p start); [apply twp_stop| | |apply twp_stop].
    + intros lv w' [Hw' Hl].
      assert (may_go expect (mkBound true 0 (bd_nonce_hi b) (bd_nonce_lo b) (Some (p, start)))) as Hgo.
      { split; [done|]. intros _ p' s' [= <- <-] _ _. done. }
      destruct (bool_decide _); exact (conj Hw' Hgo).
  - eapply twp_bind; [apply (twp_calm (refuse_live p start "")); [unfold refuse_live; solve_calm|exact Hw]|].
    intros lv w' Hw'.
    assert (may_go expect (mkBound true 0 (bd_nonce_hi b) (bd_nonce_lo b) (Some (p, start)))) as Hgo.
    { split; [done|]. intros _ p' s' [= <- <-] Hp' Hs'. destruct Hbad. done. }
    destruct (bool_decide _); exact (conj Hw' Hgo).
Qed.

Lemma twp_calm_outcome {A} shm_name expect (t : tool A) w :
  calm t -> outcome shm_name expect w -> twp t (fun _ => outcome shm_name expect) (outcome shm_name expect) w.
Proof. intros Ht Hw. eapply rwp_mono; [by apply outcome_calm|]. by intros [ls [a|st]] w'. Qed.

Lemma idle_journal_calm channel_name : calm (idle_journal channel_name).
Proof. unfold idle_journal. solve_calm. Qed.
#[local] Hint Resolve idle_journal_calm : calm_db.

Lemma rwp_unlink shm_name expect dev ino w :
  untouched w -> names (w_os w0) shm_name = Some (dev, ino) ->
  ~ in_service procs (w_mem w0) dev ino (size_of (dev, ino)) ->
  as_expected expect (w_mem w0) dev ino (size_of (dev, ino)) ->
  rwp (shm_unlink_checked shm_name dev ino) (fun _ => outcome shm_name expect) w.
Proof.
  intros [Hw _] Hname Hnot Hexp. unfold rwp.
  destruct (run_unlink_checked (L := chloc) os names opened uid Hn shm_name dev ino w) as (r & o' & E & Ho).
  rewrite E. cbn [snd w_os]. unfold unlink_outcome in Ho. rewrite Hw, Hname, decide_True in Ho by done.
  destruct Ho as [_ Ho]. right. exists dev, ino. split; [done|]. split; [done|]. split; [done|].
  intros n. cbn [w_os]. rewrite Ho. by case_decide.
Qed.

(** The calls [remove] makes end with a good outcome. *)
Abbreviation ends_well t shm_name expect w := (twp t (fun _ => outcome shm_name expect) (outcome shm_name expect) w).

Lemma twp_commit {A} lock channel_name shm_name expect dev ino b w :
  untouched w -> names (w_os w0) shm_name = Some (dev, ino) ->
  ~ in_service procs (w_mem w0) dev ino (size_of (dev, ino)) ->
  as_expected expect (w_mem w0) dev ino (size_of (dev, ino)) ->
  ends_well (@commit_removal A lock channel_name shm_name dev ino b) shm_name expect w.
Proof.
  intros Hw Hname Hnot Hexp. unfold commit_removal.
  eapply twp_bind; [apply twp_call, rwp_calm; [apply self_calm|exact Hw]|]. clear w Hw. intros self w Hw.
  eapply twp_bind; [apply twp_call, rwp_calm; [apply write_journal_calm|exact Hw]|]. clear w Hw. intros [[]|e] w Hw;
    [|apply twp_stop; by apply untouched_outcome].
  eapply twp_bind; [apply twp_call; by eapply rwp_unlink|]. clear w Hw. intros [[]|e] w Hw;
    apply twp_calm_outcome; try done; solve_calm.
Qed.

Lemma bound_not_in_service expect b dev ino size w :
  untouched w -> bound_as (w_mem w) expect dev ino size b -> may_go expect b ->
  ~ in_service procs (w_mem w0) dev ino size /\ as_expected expect (w_mem w0) dev ino size.
Proof.
  intros [_ Hm] Hb [Hgo1 Hgo2].
  assert (stored_boot (w_mem w) dev ino = stored_boot (w_mem w0) dev ino) as Hboot
    by (unfold stored_boot; rewrite !Hm; f_equal; apply map_ext; intros; apply Hm).
  assert (stored_producer (w_mem w) dev ino = stored_producer (w_mem w0) dev ino) as Hprod
    by (unfold stored_producer; by rewrite !Hm).
  unfold bound_as, complete in Hb. rewrite Hboot, !Hm, Hprod in Hb. split.
  - intros [Hc (p & start & Hp & Hr & H0 & Hl)]. destruct (Hb Hc) as (Hready & _ & _ & _ & Hid & _).
    by apply (Hgo2 Hready p start); [congruence| | |].
  - intros Hc. destruct (Hb Hc) as (_ & _ & H2 & H3 & _ & H4). split; [done|].
    intros hi lo He. destruct (Hgo1 hi lo He) as [-> ->]. done.
Qed.

Lemma twp_remove_object {A} lock channel_name shm_name journal expect w :
  untouched w -> ends_well (@remove_object A lock channel_name shm_name journal expect) shm_name expect w.
Proof.
  intros Hw. unfold remove_object.
  eapply twp_bind; [apply twp_call, rwp_open; exact Hw|]. cbv beta. clear w Hw. intros [fd|e] w [Hw Hfd].
  2:{ apply twp_calm_outcome; [solve_calm|by apply untouched_outcome]. }
  destruct Hfd as ([dev ino] & Hname & Hfd).
  eapply twp_bind; [apply twp_call, rwp_fstat; [exact Hw|exact Hfd]|]. cbv beta. clear w Hw Hfd.
  intros r w [Hw ->]. destruct (_ && _ && _); [apply twp_stop; by apply untouched_outcome|].
  eapply twp_bind.
  { eapply twp_mono; [by apply twp_bind_object|intros b w' H; exact H|by apply untouched_outcome]. }
  cbv beta. intros b w' [Hw' Hb]. eapply twp_bind.
  { eapply twp_mono; [by apply (twp_check_bound journal expect b)|intros x w2 H; exact H|by apply untouched_outcome]. }
  cbv beta. intros [] w2 [Hw2 Hgo]. destruct (bound_not_in_service _ _ _ _ _ _ Hw Hb Hgo) as [Hnot Hexp].
  by apply twp_commit.
Qed.

Lemma twp_with_lock {A} lock (t : tool A) shm_name expect w :
  ends_well t shm_name expect w -> ends_well (with_lock lock t) shm_name expect w.
Proof.
  intros Ht. unfold with_lock. eapply (rwp_seq _ _ (fun _ => outcome shm_name expect)).
  - unfold twp, rwp in *. by destruct (run os t w) as [[ls [a|st]] w'].
  - intros r w' Ho. eapply rwp_seq; [apply outcome_calm; [apply release_calm|exact Ho]|].
    intros [] w2 Ho2. destruct r as [ls [a|st]]; exact Ho2.
Qed.

Lemma twp_remove_locked {A} lock channel_name shm_name expect w :
  untouched w -> ends_well (@ctl_remove_locked A lock channel_name shm_name expect) shm_name expect w.
Proof.
  intros Hw. unfold ctl_remove_locked.
  eapply twp_bind; [apply twp_call, rwp_calm; [apply read_journal_calm|exact Hw]|]. clear w Hw. intros [j|e] w Hw.
  2:{ apply twp_stop. by apply untouched_outcome. }
  destruct (_ && _); [apply twp_stop; by apply untouched_outcome|]. destruct (_ =? _); [|by apply twp_remove_object].
  apply twp_calm_outcome; [|by apply untouched_outcome]. unfold remove_fd_pass, refuse_live. solve_calm.
Qed.

Lemma rwp_shm_name channel_name w :
  untouched w ->
  rwp (channel_shm_name channel_name) (fun n w' => untouched w' /\ n = object_name uid channel_name) w.
Proof.
  intros Hw. pose proof (rwp_calm (channel_shm_name channel_name) w) as Hu. split.
  - apply Hu; [unfold channel_shm_name; solve_calm|done].
  - cbn. by rewrite (sk_uid _ _ _ _ _ Hs).
Qed.

Lemma twp_cmd_remove {A} channel_name expect w :
  untouched w -> ends_well (@cmd_remove A channel_name expect) (object_name uid channel_name) expect w.
Proof.
  intros Hw. unfold cmd_remove. eapply twp_bind; [apply twp_call, rwp_shm_name; exact Hw|].
  cbv beta. clear w Hw. intros n w [Hw ->].
  eapply twp_bind; [apply twp_call, rwp_calm; [unfold channel_lock_path; solve_calm|exact Hw]|].
  clear w Hw. intros path w Hw.
  eapply twp_bind; [apply twp_call, rwp_calm; [apply acquire_calm|exact Hw]|]. clear w Hw. intros [lock|e] w Hw.
  - by apply twp_with_lock, twp_remove_locked.
  - apply twp_stop. by apply untouched_outcome.
Qed.
End Removal.

(** The nonce that [inspect] prints, given to [remove], is the nonce that is expected. *)
Lemma ctl_main_remove fuel name hi lo :
  is_u64 hi -> is_u64 lo ->
  name ∉ ["--help"; "--expect-generation"; "--expect-nonce"]%string ->
  ctl_main fuel ["remove"%string; name; "--expect-nonce"%string; nonce_text hi lo] =
  cmd_remove name (mkExpect None (Some (hi, lo))).
Proof.
  intros Hh Hl Hname. rewrite !not_elem_of_cons in Hname. destruct Hname as (H1 & H2 & H3 & _).
  pose proof (nonce_roundtrip hi lo Hh Hl) as Hn. revert Hn. generalize (nonce_text hi lo). intros text Hn.
  assert (arg_flag ["remove"%string; name; "--expect-nonce"%string; text] "--help" = false) as Hflag.
  { unfold arg_flag. cbn [existsb]. rewrite (bool_decide_false (name = _)) by done.
    rewrite (bool_decide_false (text = _)); [reflexivity|]. intros ->. by vm_compute in Hn. }
  assert (arg_value ["remove"%string; name; "--expect-nonce"%string; text] "--expect-generation" = None) as Hgen.
  { cbn [arg_value]. by rewrite (bool_decide_false (name = _)) by done. }
  assert (arg_value ["remove"%string; name; "--expect-nonce"%string; text] "--expect-nonce" = Some text) as Hval.
  { cbn [arg_value]. by rewrite (bool_decide_false (name = _)) by done. }
  unfold ctl_main. rewrite Hflag, Hgen, Hval, Hn.
  rewrite (bool_decide_false ("remove"%string = "inspect"%string)) by discriminate.
  rewrite (bool_decide_true ("remove"%string = "remove"%string)) by reflexivity. reflexivity.
Qed.


(** A machine with one object, whose producer is process 42. *)
Module CtlDemo.
Definition name : string := "/edgeruntime.1000.cam0".
Definition procs : Z -> option process := LivenessDemo.procs.
Definition names (present : bool) (n : string) : option (Z * Z) :=
  if present && bool_decide (n = name) then Some (1, 2) else None.
Definition opened (_ : bool) (fd : Z) : option (Z * Z) := if fd =? 7 then Some (1, 2) else None.
Definition os : os_model bool := fun X c present =>
  match c in sys Y return Y * bool with
  | sys_getuid => (1000, present)
  | sys_geteuid => (1000, present)
  | sys_getpid => (50, present)
  | sys_mkdir _ _ => (SysOk tt, present)
  | sys_open_create _ _ => (SysOk 3, present)
  | sys_flock _ _ => (SysOk tt, present)
  | sys_fstat fd => (SysOk (mkStat (S_IFREG + kExpectedShmMode) 1000 1 (if fd =? 7 then 2 else 5) 448 1), present)
  | sys_pread fd count _ => (SysOk (if fd =? 7 then count else 0), present)
  | sys_mmap _ _ _ => (SysOk 4096, present)
  | sys_shm_open n _ => (if present && bool_decide (n = name) then SysOk 7 else SysErr ENOENT, present)
  | sys_shm_unlink n => if present && bool_decide (n = name) then (SysOk tt, false) else (SysErr ENOENT, present)
  | sys_pidfd_open p => (if p =? 42 then SysOk 5 else SysErr ESRCH, present)
  | sys_poll _ _ _ => (SysOk (0, 0), present)
  | sys_open _ => (SysOk 6, present)
  | sys_read _ _ => (SysOk LivenessDemo.stat_text, present)
  | c => (sys_default c, present)
  end.

Definition boot (sum : Z) : BootstrapHeaderAbi :=
  mkBootstrap (string_codes kBootstrapMagic) 1 0 128 448 11 12 42 4711 5 9 is_kReady 0 sum (repeat 0 40).
Definition memory (l : chloc) : Z :=
  match l with
  | Obj 1 2 (BootMagic i) => nth i (string_codes kBootstrapMagic) 0
  | Obj 1 2 (Boot bf_abi_major) => 1
  | Obj 1 2 (Boot bf_header_size) => 128
  | Obj 1 2 (Boot bf_expected_mapping_size) => 448
  | Obj 1 2 (Boot bf_creator_nonce_hi) | Obj 1 2 (Head ch_instance_nonce_hi) => 11
  | Obj 1 2 (Boot bf_creator_nonce_lo) | Obj 1 2 (Head ch_instance_nonce_lo) => 12
  | Obj 1 2 (Boot bf_creator_pid) | Obj 1 2 (Ident r_producer id_pid) => 42
  | Obj 1 2 (Boot bf_creator_proc_start_ticks) | Obj 1 2 (Ident r_producer id_proc_start_ticks) => 4711
  | Obj 1 2 (Boot bf_creator_boot_id_hash_hi) => 5
  | Obj 1 2 (Boot bf_creator_boot_id_hash_lo) => 9
  | Obj 1 2 (Boot bf_init_state) => is_kReady
  | Obj 1 2 (Boot bf_bootstrap_checksum) => bootstrap_checksum_of (boot 0)
  | Obj 1 2 (HeadMagic i) => nth i (string_codes kChannelHeaderMagic) 0
  | Obj 1 2 (Head ch_generation) => 3
  | Obj 1 2 (Ident r_producer id_role_epoch) => 2
  | _ => 0
  end.

Lemma ctl_processes : kernel_answers os procs (fun _ => 5) (fun _ => 6).
Proof.
  split; unfold procs, LivenessDemo.procs; intros p; cbn -[Z.eqb LivenessDemo.stat_text];
    [by destruct (p =? 42)|..]; intros pr o; by destruct (p =? 42); intros [= <-].
Qed.
Lemma ctl_names : names_answer os names opened 1000.
Proof.
  split.
  - intros n o. split; [done|]. unfold names. cbn. destruct (o && bool_decide (n = name)); [|done].
    exists 7. split; [done|]. done.
  - intros fd dev ino o. unfold opened. cbn. destruct (Z.eqb_spec fd 7); [|done]. intros [= <- <-].
    split; [done|]. by eexists _, _.
  - done.
  - intros n id o. unfold names. cbn. destruct o; [|done]. case_bool_decide as E; [|done]. intros _.
    split; [done|]. intros n'. subst n. cbn. destruct (decide (n' = name)); [done|]. by rewrite bool_decide_false.
Qed.
Lemma ctl_steady : steady_kernel os names opened 1000 (fun _ => 448).
Proof.
  split; [|intros fd id o st _ [= <-]; done|done].
  intros X c o n. destruct c; cbn; try done; by destruct create_exclusive.
Qed.
Lemma ctl_in_service : in_service procs memory 1 2 448.
Proof.
  split.
  - split; [by vm_compute|]. split; [reflexivity|]. by vm_compute.
  - exists 42, 4711. split; [reflexivity|]. split; [unfold INT32_MAX; lia|]. split; [lia|]. by vm_compute.
Qed.
End CtlDemo.

