(* ===== verification/MpmcBench.v ===== *)
(** The benchmark of the queue, [tools/src/edge_mpmc_bench.cpp]: what its workers count,
    the reports they leave, and the verdict of the parent.

    A worker's loop is a function of what happens in it, round by round: the answers of the
    queue, the clock and the stop flag of the signal handler. A report is the bytes of its
    file. *)
From S2P Require Import Prelude ByteFields Errors ChannelLayout ToolCommon MpmcBenchPayload.

Definition kReportMagic : Z := 1163021634. (* 0x45524D42 *)
Definition kReportVersion : Z := 2.
Definition kNoErrorCode : Z := UINT32_MAX.
Definition kMaxWorkers : Z := 16.
Definition kMaxMessagesPerProducer : Z := 10000000.
Definition kMaxRuns : Z := 1000.

Inductive ChildRole : Type := cr_kProducer | cr_kConsumer.
#[global] Instance ChildRole_eq_dec : EqDecision ChildRole.
Proof. solve_decision. Defined.
Definition role_value (role : ChildRole) : Z := match role with cr_kProducer => 1 | cr_kConsumer => 2 end.

Inductive RetryPolicy : Type := rp_kYield | rp_kSpin.
Inductive WaitPolicy : Type := wp_kBusy | wp_kBlocking.
#[global] Instance WaitPolicy_eq_dec : EqDecision WaitPolicy.
Proof. solve_decision. Defined.

Definition parse_retry_policy (value : option string) : option RetryPolicy :=
  match value with
  | None => Some rp_kYield
  | Some v => if bool_decide (v = "yield"%string) then Some rp_kYield
              else if bool_decide (v = "spin"%string) then Some rp_kSpin else None
  end.
Definition parse_wait_policy (value : option string) : option WaitPolicy :=
  match value with
  | None => Some wp_kBusy
  | Some v => if bool_decide (v = "busy"%string) then Some wp_kBusy
              else if bool_decide (v = "blocking"%string) then Some wp_kBlocking else None
  end.

(** * Reports *)

Record ReportHeader : Type := mkReport {
  rh_magic : Z;
  rh_version : Z;
  rh_role : Z;
  rh_published : Z;
  rh_delivered : Z;
  rh_queue_full : Z;
  rh_queue_empty : Z;
  rh_queue_contention : Z;
  rh_recovery : Z;
  rh_errors : Z;
  rh_invalid_payload : Z;
  rh_first_error_code : Z;
  rh_reserved : Z;
  rh_record_count : Z;
  rh_wait_calls : Z;
  rh_wait_timeouts : Z;
  rh_perf_available : Z;
  rh_reserved2 : Z;
  rh_perf_context_switches : Z
}.

Record DeliveryRecord : Type := mkDelivered {
  dr_producer : Z;
  dr_reserved : Z;
  dr_sequence : Z;
  dr_latency_ns : Z
}.

(** [sizeof] of the two. *)
Definition kReportHeaderSize : nat := 120.
Definition kDeliveryRecordSize : nat := 24.

Definition report_header_bytes (h : ReportHeader) : list Z :=
  le_bytes 4 (rh_magic h) ++ le_bytes 2 (rh_version h) ++ le_bytes 2 (rh_role h) ++
  le_bytes 8 (rh_published h) ++ le_bytes 8 (rh_delivered h) ++ le_bytes 8 (rh_queue_full h) ++
  le_bytes 8 (rh_queue_empty h) ++ le_bytes 8 (rh_queue_contention h) ++ le_bytes 8 (rh_recovery h) ++
  le_bytes 8 (rh_errors h) ++ le_bytes 8 (rh_invalid_payload h) ++ le_bytes 4 (rh_first_error_code h) ++
  le_bytes 4 (rh_reserved h) ++ le_bytes 8 (rh_record_count h) ++ le_bytes 8 (rh_wait_calls h) ++
  le_bytes 8 (rh_wait_timeouts h) ++ le_bytes 4 (rh_perf_available h) ++ le_bytes 4 (rh_reserved2 h) ++
  le_bytes 8 (rh_perf_context_switches h).
Definition report_header_of_bytes (bs : list Z) : ReportHeader :=
  mkReport (field_at bs 0 4) (field_at bs 4 2) (field_at bs 6 2) (field_at bs 8 8) (field_at bs 16 8)
    (field_at bs 24 8) (field_at bs 32 8) (field_at bs 40 8) (field_at bs 48 8) (field_at bs 56 8)
    (field_at bs 64 8) (field_at bs 72 4) (field_at bs 76 4) (field_at bs 80 8) (field_at bs 88 8)
    (field_at bs 96 8) (field_at bs 104 4) (field_at bs 108 4) (field_at bs 112 8).

Definition record_bytes (r : DeliveryRecord) : list Z :=
  le_bytes 4 (dr_producer r) ++ le_bytes 4 (dr_reserved r) ++ le_bytes 8 (dr_sequence r) ++
  le_bytes 8 (dr_latency_ns r).
Definition record_of_bytes (bs : list Z) : DeliveryRecord :=
  mkDelivered (field_at bs 0 4) (field_at bs 4 4) (field_at bs 8 8) (field_at bs 16 8).
(** [n] records. *)
Fixpoint records_of_bytes (n : nat) (bs : list Z) : list DeliveryRecord :=
  match n with
  | O => []
  | S n' => record_of_bytes bs :: records_of_bytes n' (drop kDeliveryRecordSize bs)
  end.

Definition with_record_count (h : ReportHeader) (n : Z) : ReportHeader :=
  mkReport (rh_magic h) (rh_version h) (rh_role h) (rh_published h) (rh_delivered h) (rh_queue_full h)
    (rh_queue_empty h) (rh_queue_contention h) (rh_recovery h) (rh_errors h) (rh_invalid_payload h)
    (rh_first_error_code h) (rh_reserved h) n (rh_wait_calls h) (rh_wait_timeouts h)
    (rh_perf_available h) (rh_reserved2 h) (rh_perf_context_switches h).

(** The file [write_report] makes, when all its transfers succeed. *)
Definition write_report (header : ReportHeader) (records : list DeliveryRecord) : list Z :=
  report_header_bytes (with_record_count header (Z.of_nat (length records))) ++
  concat (map record_bytes records).

Record ParsedReport : Type := mkParsed {
  pr_header : ReportHeader;
  pr_records : list DeliveryRecord;
  pr_valid : bool
}.

Definition zero_report : ReportHeader :=
  mkReport kReportMagic kReportVersion 0 0 0 0 0 0 0 0 0 kNoErrorCode 0 0 0 0 0 0 0.

Definition role_shape_ok (role : ChildRole) (h : ReportHeader) : bool :=
  match role with
  | cr_kProducer => (rh_record_count h =? 0) && (rh_delivered h =? 0)
  | cr_kConsumer => (rh_published h =? 0) && (rh_record_count h =? rh_delivered h)
  end.

(** The records of a report that is not valid are not used. [file] is the content of a regular file, [None] when it cannot be opened. *)
Definition read_report (file : option (list Z)) (expected_role : ChildRole) (expected_records : Z)
    : ParsedReport :=
  match file with
  | None => mkParsed zero_report [] false
  | Some bytes =>
      if bool_decide (length bytes < kReportHeaderSize)%nat then mkParsed zero_report [] false
      else
      let header := report_header_of_bytes bytes in
      if negb (rh_magic header =? kReportMagic) || negb (rh_version header =? kReportVersion)
         || negb (rh_role header =? role_value expected_role) || negb (rh_reserved header =? 0)
         || negb (rh_reserved2 header =? 0) || (1 <? rh_perf_available header)
         || (expected_records <? rh_record_count header) || negb (role_shape_ok expected_role header)
         || (UINT64_MAX / Z.of_nat kDeliveryRecordSize <? rh_record_count header)
      then mkParsed header [] false
      else
      let count := Z.to_nat (rh_record_count header) in
      if bool_decide (length bytes < kReportHeaderSize + count * kDeliveryRecordSize)%nat then
        mkParsed header [] false
      else
      let records := records_of_bytes count (drop kReportHeaderSize bytes) in
      mkParsed header records
        (bool_decide (length bytes = kReportHeaderSize + count * kDeliveryRecordSize)%nat
         && forallb (fun r => dr_reserved r =? 0) records)
  end.

(** * The workers *)

Inductive counter : Type :=
| ct_published | ct_delivered | ct_queue_full | ct_queue_empty | ct_queue_contention | ct_recovery
| ct_errors | ct_invalid_payload | ct_wait_calls | ct_wait_timeouts.
#[global] Instance counter_eq_dec : EqDecision counter.
Proof. solve_decision. Defined.

(** [++header->...]. *)
Definition bump (c : counter) (h : ReportHeader) : ReportHeader :=
  let inc c' v := if bool_decide (c = c') then u64 (v + 1) else v in
  mkReport (rh_magic h) (rh_version h) (rh_role h) (inc ct_published (rh_published h))
    (inc ct_delivered (rh_delivered h)) (inc ct_queue_full (rh_queue_full h))
    (inc ct_queue_empty (rh_queue_empty h)) (inc ct_queue_contention (rh_queue_contention h))
    (inc ct_recovery (rh_recovery h)) (inc ct_errors (rh_errors h))
    (inc ct_invalid_payload (rh_invalid_payload h)) (rh_first_error_code h) (rh_reserved h)
    (rh_record_count h) (inc ct_wait_calls (rh_wait_calls h)) (inc ct_wait_timeouts (rh_wait_timeouts h))
    (rh_perf_available h) (rh_reserved2 h) (rh_perf_context_switches h).
Definition bump_if (b : bool) (c : counter) (h : ReportHeader) : ReportHeader := if b then bump c h else h.

Definition with_first_error (h : ReportHeader) (code : Z) : ReportHeader :=
  mkReport (rh_magic h) (rh_version h) (rh_role h) (rh_published h) (rh_delivered h) (rh_queue_full h)
    (rh_queue_empty h) (rh_queue_contention h) (rh_recovery h) (rh_errors h) (rh_invalid_payload h)
    code (rh_reserved h) (rh_record_count h) (rh_wait_calls h) (rh_wait_timeouts h)
    (rh_perf_available h) (rh_reserved2 h) (rh_perf_context_switches h).

Definition note_error (h : ReportHeader) (code : ErrorCode) : ReportHeader :=
  let h := bump ct_errors h in
  let h := bump_if (bool_decide (code = kRecoveryBlocked)) ct_recovery h in
  if rh_first_error_code h =? kNoErrorCode then with_first_error h (error_value code) else h.

Definition new_report (role : ChildRole) : ReportHeader :=
  mkReport kReportMagic kReportVersion (role_value role) 0 0 0 0 0 0 0 0 kNoErrorCode 0 0 0 0 0 0 0.

Definition has_code {A} (r : Result A) (c : ErrorCode) : bool :=
  match r with Err e => bool_decide (err_code e = c) | Ok _ => false end.

(** One round of the producer: the stop flag as the outer loop, the inner loop and the code
    after the push find it, what [try_push] and [wait_push_until] answered. *)
Record push_round : Type := mkPushRound {
  pu_stop_outer : bool;
  pu_stop_before : bool;
  pu_try : Result unit;
  pu_stop_after : bool;
  pu_wait : Result unit
}.

(** [ps_head]: the next thing is the condition of the outer loop. *)
Record push_state : Type := mkPushState {
  ps_head : bool;
  ps_sequence : Z;
  ps_header : ReportHeader;
  ps_success : bool
}.

(** The inner loop's body. *)
Definition push_body (policy : WaitPolicy) (messages : Z) (r : push_round) (s : push_state) : push_state :=
  if pu_stop_before r || pu_stop_after r then mkPushState true (ps_sequence s) (ps_header s) false
  else
  let blocking := bool_decide (policy = wp_kBlocking) in
  let full := has_code (pu_try r) kQueueFull in
  let contention := has_code (pu_try r) kQueueContention in
  let waits := blocking && (full || contention) in
  let h := if waits then
             bump_if (has_code (pu_wait r) kTimeout) ct_wait_timeouts
               (bump ct_wait_calls (bump_if contention ct_queue_contention
                  (bump_if full ct_queue_full (ps_header s))))
           else ps_header s in
  match (if waits then pu_wait r else pu_try r) with
  | Ok _ => mkPushState true (ps_sequence s + 1) (bump ct_published h) (ps_success s)
  | Err e =>
      if blocking && bool_decide (err_code e = kTimeout) then
        mkPushState true messages (note_error h (err_code e)) false
      else if bool_decide (err_code e = kQueueFull) then
        mkPushState (negb (ps_success s)) (ps_sequence s) (bump ct_queue_full h) (ps_success s)
      else if bool_decide (err_code e = kQueueContention) then
        mkPushState (negb (ps_success s)) (ps_sequence s) (bump ct_queue_contention h) (ps_success s)
      else mkPushState true messages (note_error h (err_code e)) false
  end.

(** The two loops of [run_child_producer], after the queue was opened. *)
Fixpoint producer_loop (policy : WaitPolicy) (messages : Z) (rounds : list push_round) (s : push_state)
    : push_state :=
  match rounds with
  | [] => s
  | r :: rounds' =>
      if ps_head s && (negb (ps_sequence s <? messages) || pu_stop_outer r) then s
      else producer_loop policy messages rounds' (push_body policy messages r s)
  end.

(** One round of the consumer, likewise; [po_receive_ns] is the clock after the message. *)
Record pop_round : Type := mkPopRound {
  po_stop_loop : bool;
  po_stop_before : bool;
  po_try : Result Payload;
  po_stop_after : bool;
  po_wait : Result Payload;
  po_receive_ns : Z
}.

(** [delivered] of the loop, the report so far, [success], and whether the loop was left. *)
Record pop_state : Type := mkPopState {
  po_delivered : Z;
  po_header : ReportHeader;
  po_records : list DeliveryRecord;
  po_success : bool;
  po_left : bool
}.

Definition pop_body (kSize : nat) (policy : WaitPolicy) (producer_count messages target : Z)
    (r : pop_round) (s : pop_state) : pop_state :=
  if po_stop_before r || po_stop_after r then
    mkPopState (po_delivered s) (po_header s) (po_records s) false true
  else
  let blocking := bool_decide (policy = wp_kBlocking) in
  let empty := has_code (po_try r) kQueueEmpty in
  let contention := has_code (po_try r) kQueueContention in
  let waits := blocking && (empty || contention) in
  let h := if waits then
             bump_if (has_code (po_wait r) kTimeout) ct_wait_timeouts
               (bump ct_wait_calls (bump_if contention ct_queue_contention
                  (bump_if empty ct_queue_empty (po_header s))))
           else po_header s in
  match (if waits then po_wait r else po_try r) with
  | Ok payload =>
      match valid_payload kSize payload producer_count messages (po_receive_ns r) with
      | None =>
          mkPopState (po_delivered s) (note_error (bump ct_invalid_payload h) kPayloadCorrupt)
            (po_records s) false true
      | Some latency =>
          mkPopState (po_delivered s + 1) (bump ct_delivered h)
            (po_records s ++ [mkDelivered (pl_producer payload) 0 (pl_sequence payload) latency])
            (po_success s) false
      end
  | Err e =>
      if blocking && bool_decide (err_code e = kTimeout) then
        mkPopState target (note_error h (err_code e)) (po_records s) false false
      else if bool_decide (err_code e = kQueueEmpty) then
        mkPopState (po_delivered s) (bump ct_queue_empty h) (po_records s) (po_success s) false
      else if bool_decide (err_code e = kQueueContention) then
        mkPopState (po_delivered s) (bump ct_queue_contention h) (po_records s) (po_success s) false
      else mkPopState target (note_error h (err_code e)) (po_records s) false false
  end.

(** The loop of [run_child_consumer]. *)
Fixpoint consumer_loop (kSize : nat) (policy : WaitPolicy) (producer_count messages target : Z)
    (rounds : list pop_round) (s : pop_state) : pop_state :=
  match rounds with
  | [] => s
  | r :: rounds' =>
      if po_left s || negb (po_delivered s <? target) || po_stop_loop r then s
      else consumer_loop kSize policy producer_count messages target rounds'
             (pop_body kSize policy producer_count messages target r s)
  end.

(** [perf] is what the counter of context switches read, [None] when it is not available. *)
Definition with_perf (h : ReportHeader) (perf : option Z) : ReportHeader :=
  mkReport (rh_magic h) (rh_version h) (rh_role h) (rh_published h) (rh_delivered h)
    (rh_queue_full h) (rh_queue_empty h) (rh_queue_contention h) (rh_recovery h) (rh_errors h)
    (rh_invalid_payload h) (rh_first_error_code h) (rh_reserved h) (rh_record_count h)
    (rh_wait_calls h) (rh_wait_timeouts h) (match perf with Some _ => 1 | None => 0 end) (rh_reserved2 h)
    (default 0 perf).

(** What a worker does with its rounds, from the answer of [open] on: the report it leaves and
    its exit status, when the report can be written. *)
Definition run_child_producer (policy : WaitPolicy) (messages : Z) (opened : Result unit)
    (rounds : list push_round) (perf : option Z) : list Z * Z :=
  let h := new_report cr_kProducer in
  let s := match opened with
           | Err e => mkPushState true 0 (note_error h (err_code e)) false
           | Ok _ => producer_loop policy messages rounds (mkPushState true 0 h true)
           end in
  (write_report (with_perf (ps_header s) perf) [], if ps_success s then 0 else 3).

Definition run_child_consumer (kSize : nat) (policy : WaitPolicy) (producer_count messages target : Z)
    (opened : Result unit) (rounds : list pop_round) (perf : option Z) : list Z * Z :=
  let h := new_report cr_kConsumer in
  let s := match opened with
           | Err e => mkPopState 0 (note_error h (err_code e)) [] false true
           | Ok _ => consumer_loop kSize policy producer_count messages target rounds (mkPopState 0 h [] true false)
           end in
  (write_report (with_perf (po_header s) perf) (po_records s), if po_success s then 0 else 4).

(** * The parent *)

Record Config : Type := mkConfig {
  cf_payload_size : Z;
  cf_producers : Z;
  cf_consumers : Z;
  cf_messages : Z;
  cf_capacity : Z;
  cf_runs : Z;
  cf_timeout_ms : Z;
  cf_test_consumer_hold_ms : Z;
  cf_test_consumer_delay_us : Z;
  cf_test_ignore_term_consumer : bool;
  cf_keep_worker_reports : bool;
  cf_retry_policy : RetryPolicy;
  cf_wait_policy : WaitPolicy;
  cf_out_dir : string;
  cf_ready_file : string
}.

(** [parse_config]; [None] is [return false] after a line to [stderr]. *)
Definition parse_config (args : list string) : tool (option Config) :=
  let refuse text := do$ eprint text; tret None in
  let$ payload_size := arg_u64 args "--payload-size" 64 in
  if negb (payload_size =? 64) && negb (payload_size =? 1024) && negb (payload_size =? 4096) then
    refuse "--payload-size must be 64, 1024, or 4096"%string
  else
  let$ producers := arg_u64 args "--producers" 1 in
  let$ consumers := arg_u64 args "--consumers" 1 in
  let$ messages := arg_u64 args "--messages" 1000 in
  let$ capacity := arg_u64 args "--capacity" 64 in
  let$ runs := arg_u64 args "--runs" 1 in
  let$ timeout_ms := arg_u64 args "--timeout-ms" 30000 in
  let$ hold_ms := arg_u64 args "--test-consumer-hold-ms" 0 in
  let$ delay_us := arg_u64 args "--test-consumer-delay-us" 0 in
  match parse_retry_policy (arg_value args "--retry-policy") with
  | None => refuse "--retry-policy must be yield or spin"%string
  | Some retry_policy =>
  match parse_wait_policy (arg_value args "--wait-policy") with
  | None => refuse "--wait-policy must be busy or blocking"%string
  | Some wait_policy =>
      let out_dir := default ""%string (arg_value args "--out-dir") in
      let keep := arg_flag args "--keep-worker-reports" in
      if keep && bool_decide (out_dir = ""%string) then
        refuse "--keep-worker-reports requires --out-dir"%string
      else if (producers =? 0) || (kMaxWorkers <? producers) || (consumers =? 0)
              || (kMaxWorkers <? consumers) || (messages =? 0) || (kMaxMessagesPerProducer <? messages)
              || (capacity =? 0) || (4096 <? capacity) || (runs =? 0) || (kMaxRuns <? runs)
              || (timeout_ms =? 0) || (10000 <? hold_ms) || (1000000 <? delay_us) then
        refuse "invalid benchmark bounds"%string
      else if UINT64_MAX / producers <? messages then refuse "expected message count overflows"%string
      else tret (Some (mkConfig payload_size producers consumers messages capacity runs timeout_ms hold_ms
                         delay_us (arg_flag args "--test-ignore-term-consumer") keep retry_policy wait_policy
                         out_dir (default ""%string (arg_value args "--ready-file"))))
  end
  end.

(** How many messages consumer [i] is to take. *)
Definition consumer_target (expected consumers i : Z) : Z :=
  expected / consumers + (if i <? expected mod consumers then 1 else 0).

(** A child that was started: its role, whether it was waited for and the status [wait4] gave,
    and its report as the parent reads it. *)
Record ChildProcess : Type := mkChild {
  ch_role : ChildRole;
  ch_waited : bool;
  ch_status : Z;
  ch_report : ParsedReport
}.

(** [WIFEXITED] and [WEXITSTATUS] written out. *)
Definition child_succeeded (child : ChildProcess) : bool :=
  ch_waited child && (Z.land (ch_status child) 127 =? 0)
  && (Z.land (Z.shiftr (ch_status child) 8) 255 =? 0).

(** What the verdict depends on; the times and the flags that are only printed are left out. *)
Record RunAggregate : Type := mkAggregate {
  ag_published : Z;
  ag_delivered : Z;
  ag_queue_full : Z;
  ag_queue_empty : Z;
  ag_queue_contention : Z;
  ag_recovery : Z;
  ag_errors : Z;
  ag_wait_calls : Z;
  ag_wait_timeouts : Z;
  ag_perf_context_switches : Z;
  ag_perf_available : bool;
  ag_latency_ns : list Z
}.

Definition add_errors (a : RunAggregate) (n : Z) : RunAggregate :=
  mkAggregate (ag_published a) (ag_delivered a) (ag_queue_full a) (ag_queue_empty a)
    (ag_queue_contention a) (ag_recovery a) (u64 (ag_errors a + n)) (ag_wait_calls a) (ag_wait_timeouts a)
    (ag_perf_context_switches a) (ag_perf_available a) (ag_latency_ns a).
Definition without_perf (a : RunAggregate) : RunAggregate :=
  mkAggregate (ag_published a) (ag_delivered a) (ag_queue_full a) (ag_queue_empty a)
    (ag_queue_contention a) (ag_recovery a) (ag_errors a) (ag_wait_calls a) (ag_wait_timeouts a)
    (ag_perf_context_switches a) false (ag_latency_ns a).

Definition add_report (a : RunAggregate) (c : ChildProcess) : RunAggregate :=
  let r := ch_report c in
  let h := pr_header r in
  if negb (pr_valid r) then without_perf (add_errors a 1)
  else
  mkAggregate (u64 (ag_published a + rh_published h)) (u64 (ag_delivered a + rh_delivered h))
    (u64 (ag_queue_full a + rh_queue_full h)) (u64 (ag_queue_empty a + rh_queue_empty h))
    (u64 (ag_queue_contention a + rh_queue_contention h)) (u64 (ag_recovery a + rh_recovery h))
    (u64 (ag_errors a + rh_errors h)) (u64 (ag_wait_calls a + rh_wait_calls h))
    (u64 (ag_wait_timeouts a + rh_wait_timeouts h))
    (if rh_perf_available h =? 0 then ag_perf_context_switches a
     else u64 (ag_perf_context_switches a + rh_perf_context_switches h))
    (if rh_perf_available h =? 0 then false else ag_perf_available a)
    (match ch_role c with
     | cr_kConsumer => ag_latency_ns a ++ map dr_latency_ns (pr_records r)
     | cr_kProducer => ag_latency_ns a
     end).

(** The sums over the children, with [launch_errors] from the starting of them. *)
Definition aggregate_children (children : list ChildProcess) (launch_errors : Z) (timed_out : bool)
    : RunAggregate :=
  let a := mkAggregate 0 0 0 0 0 0 (u64 launch_errors) 0 0 0 true [] in
  let a := foldl (fun a c => if child_succeeded c then a else add_errors a 1) a children in
  let a := foldl add_report a children in
  if timed_out then add_errors a 1 else a.

(** One record against the messages [seen] so far; [ids_valid] goes along. *)
Definition see_record (producers messages expected : Z) (s : list Z * bool) (r : DeliveryRecord)
    : list Z * bool :=
  let '(seen, ids_valid) := s in
  if (producers <=? dr_producer r) || (messages <=? dr_sequence r) then (seen, false)
  else
  let index := u64 (dr_producer r * messages + dr_sequence r) in
  if (expected <=? index) || negb (nth (Z.to_nat index) seen 0 =? 0) then (seen, false)
  else (<[Z.to_nat index:=1]> seen, ids_valid).

(** The records of the consumers whose report is valid, in the order of the children. *)
Definition consumer_records (children : list ChildProcess) : list DeliveryRecord :=
  concat (map (fun c => if negb (bool_decide (ch_role c = cr_kConsumer)) || negb (pr_valid (ch_report c))
                        then [] else pr_records (ch_report c)) children).

(** The verdict on a run: the children, the errors of starting them, whether they were stopped,
    whether the output (where asked for) could be written, and whether the queue could be
    removed and was gone. *)
Definition judge (config : Config) (children : list ChildProcess) (launch_errors : Z)
    (timed_out output_ok removed : bool) : RunAggregate * bool :=
  let expected := u64 (cf_messages config * cf_producers config) in
  let a := aggregate_children children launch_errors timed_out in
  let ids_valid := (ag_delivered a =? expected) && (ag_published a =? expected) && negb timed_out
                   && (Z.of_nat (length (ag_latency_ns a)) =? expected) in
  let '(seen, ids_valid) :=
    foldl (see_record (cf_producers config) (cf_messages config) expected)
      (repeat 0 (Z.to_nat expected), ids_valid) (consumer_records children) in
  let ids_valid := ids_valid && forallb (fun v => negb (v =? 0)) seen in
  let a := if output_ok then a else add_errors a 1 in
  let ids_valid := ids_valid && output_ok && removed in
  (a, ids_valid && (ag_errors a =? 0)).

Definition percentile_nearest_rank (sorted : list Z) (numerator denominator : Z) : Z :=
  match sorted with
  | [] => 0
  | _ =>
      let count := Z.of_nat (length sorted) in
      let rank := u64 (count * numerator + denominator - 1) / denominator in
      let rank := if rank =? 0 then 1 else rank in
      let rank := if count <? rank then count else rank in
      nth (Z.to_nat (rank - 1)) sorted 0
  end.
