(* ===== verification/MpmcBenchTheorems.v ===== *)
(** What the verdict of the queue's benchmark means, and that the reports it is made from say
    what the workers did. *)
From S2P Require Import Prelude ByteFields Errors ChannelLayout ToolCommon MpmcBenchPayload MpmcBench.

(** * Messages delivered exactly once *)

Definition message_of (r : DeliveryRecord) : Z * Z := (dr_producer r, dr_sequence r).

(** The messages of a run: number [i] is message [i mod messages] of producer [i / messages]. *)
Definition all_messages (producers messages : Z) : list (Z * Z) :=
  map (fun i => (Z.of_nat i / messages, Z.of_nat i mod messages)) (seq 0 (Z.to_nat (producers * messages))).

Lemma all_messages_spec producers messages p s :
  0 < messages -> (p, s) ∈ all_messages producers messages <-> 0 <= p < producers /\ 0 <= s < messages.
Proof.
  intros Hm. unfold all_messages. rewrite list_elem_of_fmap. split.
  - intros (i & [= -> ->] & Hi%elem_of_seq). pose proof (Z.mod_pos_bound (Z.of_nat i) messages Hm).
    split; [|done]. split; [apply Z.div_pos; lia|]. apply Z.div_lt_upper_bound; [done|]. nia.
  - intros [Hp Hs]. exists (Z.to_nat (p * messages + s)). rewrite Z2Nat.id by nia. split.
    + rewrite Z.div_add_l, Z.div_small by lia. rewrite (Z.add_comm (p * messages)), Z.mod_add, Z.mod_small by lia. f_equal; lia.
    + apply elem_of_seq. split; [lia|]. apply Nat2Z.inj_lt. cbn. rewrite !Z2Nat.id by nia. nia.
Qed.

Lemma all_messages_once producers messages : 0 < messages -> NoDup (all_messages producers messages).
Proof.
  intros Hm. apply NoDup_fmap_2_strong; [|apply NoDup_seq]. intros i j _ _ [= H1 H2].
  apply Nat2Z.inj. rewrite (Z.div_mod (Z.of_nat i) messages), (Z.div_mod (Z.of_nat j) messages) by lia. congruence.
Qed.

(** ** The table of messages seen *)

Section Seen.
Context (producers messages expected : Z).
Hypothesis producers_ok : 0 < producers <= kMaxWorkers.
Hypothesis messages_ok : 0 < messages <= kMaxMessagesPerProducer.
Hypothesis expected_eq : expected = producers * messages.

Definition record_ok (r : DeliveryRecord) : Prop := 0 <= dr_producer r /\ 0 <= dr_sequence r.
Definition in_range (r : DeliveryRecord) : Prop := dr_producer r < producers /\ dr_sequence r < messages.
Definition index_of (r : DeliveryRecord) : nat := Z.to_nat (dr_producer r * messages + dr_sequence r).

Lemma index_bound r : record_ok r -> in_range r -> (index_of r < Z.to_nat expected)%nat.
Proof.
  intros [Hp Hs] [Hp' Hs']. unfold index_of. apply Nat2Z.inj_lt. rewrite !Z2Nat.id by nia. nia.
Qed.
Lemma index_inj r r' :
  record_ok r -> in_range r -> record_ok r' -> in_range r' -> index_of r = index_of r' ->
  message_of r = message_of r'.
Proof.
  intros [Hp Hs] [_ Hs'] [Hp2 Hs2] [_ Hs2'] H. unfold index_of in H. apply Z2Nat.inj in H; [|nia..].
  unfold message_of. assert (dr_producer r = dr_producer r') by nia. f_equal; nia.
Qed.

Definition free (seen : list Z) (i : nat) : Prop := nth i seen 0 = 0.

Lemma see_record_spec seen v r seen' v' :
  record_ok r -> length seen = Z.to_nat expected ->
  see_record producers messages expected (seen, v) r = (seen', v') ->
  (in_range r /\ free seen (index_of r) /\ seen' = <[index_of r:=1]> seen /\ v' = v) \/
  (~ (in_range r /\ free seen (index_of r)) /\ seen' = seen /\ v' = false).
Proof.
  intros [Hp Hs] Hl. unfold see_record, in_range, free, index_of.
  destruct (Z.leb_spec producers (dr_producer r)); cbn [orb].
  { intros [= <- <-]. right. split; [lia|done]. }
  destruct (Z.leb_spec messages (dr_sequence r)); cbn [orb].
  { intros [= <- <-]. right. split; [lia|done]. }
  rewrite u64_small by (unfold kMaxWorkers, kMaxMessagesPerProducer in *; unfold is_u64, UINT64_MAX; nia).
  destruct (Z.leb_spec expected (dr_producer r * messages + dr_sequence r)); cbn [orb]; [nia|].
  destruct (Z.eqb_spec (nth (Z.to_nat (dr_producer r * messages + dr_sequence r)) seen 0) 0); cbn [negb];
    intros [= <- <-]; [by left|]. right. split; [tauto|done].
Qed.

Lemma free_insert seen i j : (i < length seen)%nat -> free (<[i:=1]> seen) j <-> i <> j /\ free seen j.
Proof.
  intros Hi. unfold free. destruct (decide (i = j)) as [<-|Hne].
  - rewrite (nth_lookup_Some _ _ _ 1); [|by apply list_lookup_insert_eq]. split; [done|]. by intros [].
  - rewrite !nth_lookup, list_lookup_insert_ne by done. tauto.
Qed.

(** The whole fold: the verdict stays true exactly when every record is in range and its
    message was not seen before. *)
Lemma see_records recs seen v seen' v' :
  Forall record_ok recs -> length seen = Z.to_nat expected ->
  foldl (see_record producers messages expected) (seen, v) recs = (seen', v') ->
  length seen' = length seen /\
  (v' = true <-> v = true /\ Forall in_range recs /\ NoDup (map index_of recs) /\
                 Forall (fun r => free seen (index_of r)) recs) /\
  (v' = true -> forall i, free seen' i <-> free seen i /\ i ∉ map index_of recs).
Proof.
  intros Hok. revert seen v. induction Hok as [|r recs Hr Hok IH]; intros seen v Hl; cbn [foldl].
  { intros [= <- <-]. split; [done|]. split.
    - split; [|tauto]. intros ->. repeat split; [constructor..].
    - intros _ i. split; [|tauto]. intros H. split; [done|]. apply not_elem_of_nil. }
  destruct (see_record producers messages expected (seen, v) r) as [seen1 v1] eqn:E. intros Hf.
  destruct (see_record_spec _ _ _ _ _ Hr Hl E) as [(Hin & Hfr & -> & ->)|(Hno & -> & ->)].
  - pose proof (index_bound r Hr Hin) as Hb. rewrite <- Hl in Hb.
    destruct (IH (<[index_of r:=1]> seen) v) as (Hl' & Hv & Hfree); [by rewrite length_insert|done|].
    rewrite length_insert in Hl'. split; [done|]. split.
    + rewrite Hv. cbn [map]. rewrite !Forall_cons, NoDup_cons.
      assert (Forall (fun r0 => free (<[index_of r:=1]> seen) (index_of r0)) recs <->
        (index_of r ∉ map index_of recs) /\ Forall (fun r0 => free seen (index_of r0)) recs) as ->; [|tauto].
      rewrite !Forall_forall, list_elem_of_fmap. setoid_rewrite (free_insert _ _ _ Hb). split.
      * intros H. split; [intros (y & Hy & Hy'); by destruct (H y Hy')|]. intros x Hx. by destruct (H x Hx).
      * intros [Hn H] x Hx. split; [|auto]. intros He. apply Hn. by exists x.
    + intros Hv'. specialize (Hfree Hv'). intros i. rewrite Hfree, (free_insert _ _ _ Hb). cbn [map].
      rewrite not_elem_of_cons. split; [intros [[? ?] ?]|intros (? & ? & ?)]; auto.
  - destruct (IH seen false) as (Hl' & Hv & _); [done|done|]. split; [done|].
    assert (v' <> true) as Hv' by (intros H; apply Hv in H as [? _]; done). split; [|done].
    split; [done|]. intros (_ & Hin & _ & Hfr). destruct Hno. apply Forall_cons in Hin as [? _].
    by apply Forall_cons in Hfr as [? _].
Qed.

Definition message_index (m : Z * Z) : nat := Z.to_nat (m.1 * messages + m.2).
Lemma map_index recs : map index_of recs = map message_index (map message_of recs).
Proof. by rewrite map_map. Qed.

Lemma message_in_range recs :
  Forall record_ok recs -> map message_of recs ≡ₚ all_messages producers messages -> Forall in_range recs.
Proof.
  intros Hok Hp. rewrite Forall_forall in *. intros r Hr.
  assert (message_of r ∈ all_messages producers messages) as Hin.
  { rewrite <- Hp. apply list_elem_of_fmap. by exists r. }
  unfold message_of in Hin. apply all_messages_spec in Hin; [|lia]. unfold in_range. lia.
Qed.

Lemma index_of_message i :
  (i < Z.to_nat expected)%nat -> message_index (Z.of_nat i / messages, Z.of_nat i mod messages) = i.
Proof.
  intros Hi. unfold message_index. cbn [fst snd]. rewrite Z.mul_comm, <- Z.div_mod by lia. lia.
Qed.

Lemma once_indices recs :
  Forall record_ok recs -> Forall in_range recs ->
  map message_of recs ≡ₚ all_messages producers messages <->
  NoDup (map index_of recs) /\ forall i, (i < Z.to_nat expected)%nat -> i ∈ map index_of recs.
Proof.
  intros Hok Hin. rewrite map_index. split.
  - intros Hp. split.
    + rewrite Hp. apply NoDup_fmap_2_strong; [|by apply all_messages_once; lia]. intros [p s] [p' s'].
      rewrite !all_messages_spec by lia. unfold message_index. cbn [fst snd]. intros Hps Hps2 He.
      apply Z2Nat.inj in He; [|nia..]. assert (p = p') by nia. f_equal; nia.
    + intros i Hi. apply list_elem_of_fmap. exists (Z.of_nat i / messages, Z.of_nat i mod messages).
      split; [by rewrite index_of_message|]. rewrite Hp. apply list_elem_of_fmap. exists i. split; [done|]. apply elem_of_seq. rewrite <- expected_eq. lia.
  - intros [Hnd Hall]. apply NoDup_Permutation; [by eapply NoDup_fmap_1|by apply all_messages_once; lia|].
    intros [p s]. rewrite all_messages_spec by lia. rewrite Forall_forall in Hok, Hin. split.
    + intros (r & [= -> ->] & Hr)%list_elem_of_fmap. destruct (Hok r Hr), (Hin r Hr). lia.
    + intros [Hp Hs]. assert (message_index (p, s) < Z.to_nat expected)%nat as Hb.
      { unfold message_index. cbn. apply Nat2Z.inj_lt. rewrite !Z2Nat.id by nia. nia. }
      apply Hall in Hb. rewrite <- map_index in Hb. apply list_elem_of_fmap in Hb as (r & He & Hr).
      apply list_elem_of_fmap. exists r. split; [|done].
      assert (message_of (mkDelivered p 0 s 0) = message_of r) as H; [|exact H].
      apply index_inj; [split; cbn; lia|split; cbn; lia|auto|auto|done].
Qed.

(** What the whole table tells. *)
Lemma seen_verdict recs v seen' v' :
  Forall record_ok recs ->
  foldl (see_record producers messages expected) (repeat 0 (Z.to_nat expected), v) recs = (seen', v') ->
  v' && forallb (fun x => negb (x =? 0)) seen' = true <->
  v = true /\ map message_of recs ≡ₚ all_messages producers messages.
Proof.
  intros Hok Hf. destruct (see_records recs _ v seen' v' Hok ltac:(apply repeat_length) Hf) as (Hl & Hv & Hfree).
  rewrite repeat_length in Hl.
  assert (forall i, free (repeat 0 (Z.to_nat expected)) i) as H0
    by (intros i; unfold free; apply nth_repeat).
  assert (forallb (fun x => negb (x =? 0)) seen' = true <-> forall i, (i < Z.to_nat expected)%nat -> ~ free seen' i) as Hall.
  { rewrite forallb_forall, <- Hl. unfold free. split.
    - intros H i Hi Hz. specialize (H (nth i seen' 0) (nth_In _ _ Hi)). rewrite Hz in H. done.
    - intros H x Hx. apply (In_nth _ _ 0) in Hx as (i & Hi & <-). specialize (H i Hi). by destruct (Z.eqb_spec (nth i seen' 0) 0). }
  rewrite andb_true_iff, Hall. split.
  - intros [Hv' Hno]. destruct (proj1 Hv Hv') as (-> & Hin & Hnd & _). split; [done|].
    apply once_indices; [done|done|]. split; [done|]. intros i Hi. specialize (Hno i Hi).
    rewrite (Hfree Hv') in Hno. destruct (decide (i ∈ map index_of recs)); [done|]. destruct Hno. by split.
  - intros [-> Hp]. pose proof (message_in_range recs Hok Hp) as Hin.
    destruct (proj1 (once_indices recs Hok Hin) Hp) as [Hnd Hcov].
    assert (v' = true) as Hv' by (apply Hv; repeat split; try done; by apply Forall_true).
    split; [done|]. intros i Hi Hz. apply (Hfree Hv') in Hz as [_ Hz]. apply Hz, Hcov, Hi.
Qed.
End Seen.

(** * Errors *)

Definition Zsum (l : list Z) : Z := foldr Z.add 0 l.
Definition bz (b : bool) : Z := if b then 1 else 0.

(** What a child adds to the errors. *)
Definition child_errors (c : ChildProcess) : Z :=
  bz (negb (child_succeeded c)) + (if pr_valid (ch_report c) then rh_errors (pr_header (ch_report c)) else 1).
Definition error_sum (children : list ChildProcess) (launch_errors : Z) (timed_out output_ok : bool) : Z :=
  launch_errors + Zsum (map child_errors children) + bz timed_out + bz (negb output_ok).

Lemma u64_add_l a b : u64 (u64 a + b) = u64 (a + b).
Proof. unfold u64. by rewrite Zplus_mod_idemp_l. Qed.

(** The errors are summed up modulo 2^64. *)
Lemma fold_errors {A} (f : RunAggregate -> A -> RunAggregate) (g : A -> Z) l a e :
  (forall a x e, ag_errors a = u64 e -> ag_errors (f a x) = u64 (e + g x)) ->
  ag_errors a = u64 e -> ag_errors (foldl f a l) = u64 (e + Zsum (map g l)).
Proof.
  intros Hf. unfold Zsum. revert a e. induction l as [|x l IH]; intros a e Ha; cbn [map foldl foldr]; [by rewrite Ha, Z.add_0_r|].
  rewrite (IH _ (e + g x)) by auto. f_equal. lia.
Qed.

Lemma Zsum_add {A} (f g : A -> Z) l : Zsum (map (fun x => f x + g x) l) = Zsum (map f l) + Zsum (map g l).
Proof. unfold Zsum. induction l as [|x l IH]; [done|]. cbn [map foldr]. lia. Qed.

Lemma judge_errors children launch_errors (timed_out output_ok : bool) :
  ag_errors (if output_ok then aggregate_children children launch_errors timed_out
             else add_errors (aggregate_children children launch_errors timed_out) 1) =
  u64 (error_sum children launch_errors timed_out output_ok).
Proof.
  unfold aggregate_children, error_sum.
  set (a0 := mkAggregate _ _ _ _ _ _ _ _ _ _ _ _). set (a1 := foldl _ a0 children). set (a2 := foldl _ a1 children).
  assert (ag_errors a1 = u64 (launch_errors + Zsum (map (fun c => bz (negb (child_succeeded c))) children))) as H1.
  { apply fold_errors; [|done]. intros a c e Ha. destruct (child_succeeded c); cbn; [by rewrite Z.add_0_r|].
    by rewrite Ha, u64_add_l. }
  assert (ag_errors a2 = u64 (launch_errors + Zsum (map (fun c => bz (negb (child_succeeded c))) children) +
    Zsum (map (fun c => if pr_valid (ch_report c) then rh_errors (pr_header (ch_report c)) else 1) children))) as H2.
  { apply fold_errors; [|done]. intros a c e Ha. unfold add_report.
    destruct (pr_valid (ch_report c)); cbn; by rewrite Ha, u64_add_l. }
  destruct timed_out, output_ok; cbn [ag_errors add_errors bz negb]; rewrite ?H2, ?u64_add_l, <- ?Z.add_assoc, ?u64_add_l; f_equal;
    change (map child_errors children) with (map (fun c => bz (negb (child_succeeded c)) +
      (if pr_valid (ch_report c) then rh_errors (pr_header (ch_report c)) else 1)) children);
    rewrite Zsum_add; lia.
Qed.

(** * Reports *)

Definition header_ok (h : ReportHeader) : Prop :=
  is_u32 (rh_magic h) /\ 0 <= rh_version h < 65536 /\ 0 <= rh_role h < 65536 /\ is_u64 (rh_published h) /\
  is_u64 (rh_delivered h) /\ is_u64 (rh_queue_full h) /\ is_u64 (rh_queue_empty h) /\
  is_u64 (rh_queue_contention h) /\ is_u64 (rh_recovery h) /\ is_u64 (rh_errors h) /\
  is_u64 (rh_invalid_payload h) /\ is_u32 (rh_first_error_code h) /\ is_u32 (rh_reserved h) /\
  is_u64 (rh_record_count h) /\ is_u64 (rh_wait_calls h) /\ is_u64 (rh_wait_timeouts h) /\
  is_u32 (rh_perf_available h) /\ is_u32 (rh_reserved2 h) /\ is_u64 (rh_perf_context_switches h).
Definition record_wf (r : DeliveryRecord) : Prop :=
  is_u32 (dr_producer r) /\ dr_reserved r = 0 /\ is_u64 (dr_sequence r) /\ is_u64 (dr_latency_ns r).

Lemma report_header_roundtrip h rest :
  header_ok h -> report_header_of_bytes (report_header_bytes h ++ rest) = h.
Proof.
  intros H. destruct h as [m ve ro pu de qf qe qc re er ip fe rs rc wc wt pa r2 pc]. unfold header_ok in H. cbn in H. unfold report_header_of_bytes, report_header_bytes.
  cbn [rh_magic rh_version rh_role rh_published rh_delivered rh_queue_full rh_queue_empty rh_queue_contention
    rh_recovery rh_errors rh_invalid_payload rh_first_error_code rh_reserved rh_record_count rh_wait_calls
    rh_wait_timeouts rh_perf_available rh_reserved2 rh_perf_context_switches].
  rewrite <- !app_assoc. destruct_and!.
  f_equal; seek; apply field_at_here; unfold is_u32, is_u64, UINT32_MAX, UINT64_MAX in *; lia.
Qed.

Lemma record_bytes_length r : length (record_bytes r) = kDeliveryRecordSize.
Proof. unfold record_bytes. by rewrite !length_app, !le_bytes_length. Qed.
Lemma report_header_bytes_length h : length (report_header_bytes h) = kReportHeaderSize.
Proof. unfold report_header_bytes. by rewrite !length_app, !le_bytes_length. Qed.

Lemma record_roundtrip r rest : record_wf r -> record_of_bytes (record_bytes r ++ rest) = r.
Proof.
  intros H. destruct r as [p z n l]. unfold record_wf in H. cbn in H. destruct_and!. subst. unfold record_of_bytes, record_bytes.
  cbn [dr_producer dr_reserved dr_sequence dr_latency_ns]. rewrite <- !app_assoc.
  f_equal; seek; apply field_at_here; unfold is_u32, is_u64, UINT32_MAX, UINT64_MAX in *; lia.
Qed.

Lemma records_roundtrip rs : Forall record_wf rs -> records_of_bytes (length rs) (concat (map record_bytes rs)) = rs.
Proof.
  induction 1 as [|r rs Hr _ IH]; [done|]. cbn [length records_of_bytes map concat].
  rewrite record_roundtrip by done. rewrite drop_app_length' by by rewrite record_bytes_length. by rewrite IH.
Qed.

Lemma records_length rs : length (concat (map record_bytes rs)) = (length rs * kDeliveryRecordSize)%nat.
Proof. induction rs as [|r rs IH]; [done|]. cbn [map concat length]. rewrite length_app, record_bytes_length, IH. lia. Qed.

(** A report whose header has the shape of its role is read back as it was written. *)
Lemma read_written role target h rs :
  let h' := with_record_count h (Z.of_nat (length rs)) in
  header_ok h' -> Forall record_wf rs -> Z.of_nat (length rs) <= target ->
  Z.of_nat (length rs) <= UINT64_MAX / 24 ->
  rh_magic h = kReportMagic -> rh_version h = kReportVersion -> rh_role h = role_value role ->
  rh_reserved h = 0 -> rh_reserved2 h = 0 -> rh_perf_available h <= 1 -> role_shape_ok role h' = true ->
  read_report (Some (write_report h rs)) role target = mkParsed h' rs true.
Proof.
  intros h' Hok Hrs Ht Hsz Hm Hv Hr H1 H2 Hp Hshape. unfold read_report, write_report. fold h'.
  rewrite bool_decide_false by (rewrite length_app, report_header_bytes_length; lia).
  rewrite report_header_roundtrip by done.
  change (rh_magic h') with (rh_magic h). change (rh_version h') with (rh_version h).
  change (rh_role h') with (rh_role h). change (rh_reserved h') with (rh_reserved h).
  change (rh_reserved2 h') with (rh_reserved2 h). change (rh_perf_available h') with (rh_perf_available h).
  change (rh_record_count h') with (Z.of_nat (length rs)). rewrite Hm, Hv, Hr, H1, H2, Hshape, !Z.eqb_refl.
  rewrite (proj2 (Z.ltb_ge 1 _)), (proj2 (Z.ltb_ge target _)) by lia.
  change (Z.of_nat kDeliveryRecordSize) with 24. rewrite (proj2 (Z.ltb_ge _ _)) by lia. cbn [negb orb].
  rewrite Nat2Z.id, !length_app, report_header_bytes_length, records_length.
  rewrite bool_decide_false, bool_decide_true by lia.
  rewrite drop_app_length' by by rewrite report_header_bytes_length. rewrite records_roundtrip by done.
  f_equal. cbn [andb]. apply forallb_forall. intros r Hin. rewrite <- list_elem_of_In in Hin.
  rewrite Forall_forall in Hrs. destruct (Hrs r Hin) as (_ & -> & _). done.
Qed.

(** ** What the workers leave *)

Definition base (role : ChildRole) (h : ReportHeader) : Prop :=
  header_ok h /\ rh_magic h = kReportMagic /\ rh_version h = kReportVersion /\ rh_role h = role_value role /\
  rh_reserved h = 0 /\ rh_reserved2 h = 0 /\ rh_perf_available h = 0.
Definition tracked (h : ReportHeader) : Z * Z * Z := (rh_published h, rh_delivered h, rh_errors h).

Lemma base_bump role c h : base role h -> base role (bump c h).
Proof.
  intros (H & Hb). split; [|exact Hb]. unfold header_ok, bump in *. 
  cbn [rh_magic rh_version rh_role rh_published rh_delivered rh_queue_full rh_queue_empty rh_queue_contention
    rh_recovery rh_errors rh_invalid_payload rh_first_error_code rh_reserved rh_record_count rh_wait_calls
    rh_wait_timeouts rh_perf_available rh_reserved2 rh_perf_context_switches].
  assert (forall (b : bool) v, is_u64 v -> is_u64 (if b then u64 (v + 1) else v)) as Hc
    by (intros [] v Hv; [apply u64_range|done]).
  destruct_and!. repeat match goal with |- _ /\ _ => split end; first [done|by apply Hc|lia].
Qed.
Lemma base_bump_if role b c h : base role h -> base role (bump_if b c h).
Proof. destruct b; [apply base_bump|done]. Qed.
Lemma base_note role h code : base role h -> base role (note_error h code).
Proof.
  intros H. unfold note_error. set (h1 := bump_if _ _ _).
  assert (base role h1) as H1 by by apply base_bump_if, base_bump.
  destruct (_ =? _); [|done]. clearbody h1. destruct H1 as (Hok & Hb). split; [|exact Hb].
  unfold header_ok in *. cbn. assert (is_u32 (error_value code)) by (destruct code; done).
  destruct_and!. repeat match goal with |- _ /\ _ => split end; first [done|lia].
Qed.
Lemma base_new role : base role (new_report role).
Proof. unfold base, header_ok. destruct role; cbn; repeat split; done. Qed.

Lemma tracked_bump c h :
  c <> ct_published -> c <> ct_delivered -> c <> ct_errors -> tracked (bump c h) = tracked h.
Proof. by destruct c. Qed.
Lemma tracked_bump_if b c h :
  c <> ct_published -> c <> ct_delivered -> c <> ct_errors -> tracked (bump_if b c h) = tracked h.
Proof. destruct b; [apply tracked_bump|done]. Qed.
Lemma tracked_delivered h :
  tracked (bump ct_delivered h) = (rh_published h, u64 (rh_delivered h + 1), rh_errors h).
Proof. done. Qed.
Lemma tracked_published h :
  tracked (bump ct_published h) = (u64 (rh_published h + 1), rh_delivered h, rh_errors h).
Proof. done. Qed.
Lemma tracked_note h code : (tracked (note_error h code)).1 = (tracked h).1.
Proof. unfold note_error. destruct (bool_decide (code = _)); cbn [bump_if]; by destruct (_ =? _). Qed.

(** The errors of a report. *)
Lemma errors_bump c h : c <> ct_errors -> rh_errors (bump c h) = rh_errors h.
Proof. by destruct c. Qed.
Lemma errors_bump_if b c h : c <> ct_errors -> rh_errors (bump_if b c h) = rh_errors h.
Proof. destruct b; [apply errors_bump|done]. Qed.
Lemma errors_note h code : rh_errors (note_error h code) = u64 (rh_errors h + 1).
Proof.
  unfold note_error. destruct (bool_decide (code = _)); cbn [bump_if]; by destruct (_ =? _).
Qed.

Lemma header_ok_final h n perf :
  header_ok h -> is_u64 n -> is_u64 (default 0 perf) -> header_ok (with_record_count (with_perf h perf) n).
Proof.
  intros Hh Hn Hp. unfold header_ok in *.
  cbn [with_record_count with_perf rh_magic rh_version rh_role rh_published rh_delivered rh_queue_full rh_queue_empty
    rh_queue_contention rh_recovery rh_errors rh_invalid_payload rh_first_error_code rh_reserved rh_record_count
    rh_wait_calls rh_wait_timeouts rh_perf_available rh_reserved2 rh_perf_context_switches].
  assert (is_u32 (match perf with Some _ => 1 | None => 0 end)) as Ha by by destruct perf.
  decompose [and] Hh. repeat match goal with |- _ /\ _ => split end; first [assumption|lia].
Qed.

(** The counters of the branch that waits. *)
Lemma wait_counters role (waits : bool) b1 b2 b3 c h :
  c <> ct_published -> c <> ct_delivered -> c <> ct_errors -> base role h ->
  let h' := if waits then bump_if b1 ct_wait_timeouts
              (bump ct_wait_calls (bump_if b2 ct_queue_contention (bump_if b3 c h))) else h in
  base role h' /\ tracked h' = tracked h.
Proof.
  intros H1 H2 H3 Hb. destruct waits; cbv zeta; [|done]. split.
  - by apply base_bump_if, base_bump, base_bump_if, base_bump_if.
  - by rewrite tracked_bump_if, tracked_bump, !tracked_bump_if.
Qed.

Section Consumer.
Context (kSize : nat) (policy : WaitPolicy) (producer_count messages target : Z).
Hypothesis target_ok : 0 <= target <= UINT64_MAX / 24.

Definition received_ok (r : Result Payload) : Prop :=
  match r with
  | Ok p => is_u32 (pl_producer p) /\ is_u64 (pl_sequence p) /\ is_u64 (pl_send_time_ns p)
  | Err _ => True
  end.
Definition pop_round_ok (r : pop_round) : Prop :=
  received_ok (po_try r) /\ received_ok (po_wait r) /\ is_u64 (po_receive_ns r).

Definition pop_inv (s : pop_state) : Prop :=
  base cr_kConsumer (po_header s) /\
  (tracked (po_header s)).1 = (0, Z.of_nat (length (po_records s))) /\
  Forall (fun r => record_wf r /\ dr_producer r < producer_count /\ dr_sequence r < messages) (po_records s) /\
  Z.of_nat (length (po_records s)) <= po_delivered s <= target /\
  (po_success s = true -> po_delivered s = Z.of_nat (length (po_records s)) /\ rh_errors (po_header s) = 0).

Lemma valid_payload_latency p now latency :
  valid_payload kSize p producer_count messages now = Some latency -> is_u64 (pl_send_time_ns p) -> is_u64 now ->
  is_u64 latency /\ pl_producer p < producer_count /\ pl_sequence p < messages.
Proof.
  intros (_ & Hp & Hs & _ & Ht & ->)%valid_payload_made Ht64 Hn. unfold is_u64 in *. split; [lia|done].
Qed.

Lemma pop_body_inv r s :
  pop_round_ok r -> po_delivered s < target -> pop_inv s ->
  pop_inv (pop_body kSize policy producer_count messages target r s).
Proof.
  intros (Hr1 & Hr2 & Hn) Hlt (Hb & Ht & Hrec & Hd & Hs). unfold pop_body.
  destruct (po_stop_before r || po_stop_after r); [by refine (conj Hb (conj Ht (conj Hrec (conj Hd _))))|].
  set (waits := bool_decide (policy = wp_kBlocking) && _).
  destruct (wait_counters cr_kConsumer waits (has_code (po_wait r) kTimeout) (has_code (po_try r) kQueueContention)
    (has_code (po_try r) kQueueEmpty) ct_queue_empty (po_header s)) as [Hb' Ht']; [done..|].
  set (h := if waits then _ else _) in *. clearbody h.
  assert (po_success s = true -> rh_errors h = 0) as He.
  { intros H. destruct (Hs H) as [_ He]. unfold tracked in Ht'. congruence. }
  rewrite <- Ht' in Ht.
  assert (received_ok (if waits then po_wait r else po_try r)) as Hrx by by destruct waits.
  destruct (if waits then po_wait r else po_try r) as [p|e].
  - destruct Hrx as (Hp & Hq & Hst).
    destruct (valid_payload kSize p producer_count messages (po_receive_ns r)) as [latency|] eqn:Hv.
    + destruct (valid_payload_latency _ _ _ Hv Hst Hn) as (Hlat & Hpr & Hsq).
      unfold pop_inv. cbn [po_header po_records po_delivered po_success]. rewrite length_app. cbn [length].
      split; [by apply base_bump|]. split.
      { rewrite tracked_delivered. cbn [fst tracked] in *. injection Ht as -> ->. f_equal.
        rewrite u64_small; [lia|]. unfold is_u64. assert (UINT64_MAX / 24 < UINT64_MAX) by done. lia. }
      split; [|split; [lia|intros H; destruct (Hs H); split; [lia|by apply He]]].
      apply Forall_app. split; [done|]. apply Forall_singleton. done.
    + unfold pop_inv. cbn [po_header po_records po_delivered po_success].
      rewrite tracked_note, tracked_bump by done.
      refine (conj _ (conj Ht (conj Hrec (conj Hd _)))); [by apply base_note, base_bump|done].
  - assert (forall d n, Z.of_nat (length (po_records s)) <= d <= target ->
      pop_inv (mkPopState d (note_error h (err_code e)) (po_records s) false n)) as Hbad.
    { intros d n Hdn. unfold pop_inv. cbn [po_header po_records po_delivered po_success].
      rewrite tracked_note. refine (conj _ (conj Ht (conj Hrec (conj Hdn _)))); [by apply base_note|done]. }
    assert (forall c, c <> ct_published -> c <> ct_delivered -> c <> ct_errors ->
      pop_inv (mkPopState (po_delivered s) (bump c h) (po_records s) (po_success s) false)) as Hagain.
    { intros c H1 H2 H3. unfold pop_inv. cbn [po_header po_records po_delivered po_success].
      split; [by apply base_bump|]. rewrite (tracked_bump c) by done. split; [done|]. split; [done|].
      split; [done|]. intros H. destruct (Hs H). split; [done|].
      assert (rh_errors (bump c h) = rh_errors h) as -> by by destruct c. by apply He. }
    destruct (bool_decide (policy = wp_kBlocking) && bool_decide (err_code e = kTimeout)); [apply Hbad; lia|].
    destruct (bool_decide (err_code e = kQueueEmpty)); [by apply Hagain|].
    destruct (bool_decide (err_code e = kQueueContention)); [by apply Hagain|]. apply Hbad; lia.
Qed.

Lemma consumer_loop_inv rounds s :
  Forall pop_round_ok rounds -> pop_inv s ->
  pop_inv (consumer_loop kSize policy producer_count messages target rounds s).
Proof.
  intros Hr. revert s. induction Hr as [|r rounds Hr _ IH]; intros s Hs; [done|]. cbn [consumer_loop].
  destruct (po_left s); cbn [orb]; [done|].
  destruct (Z.ltb_spec (po_delivered s) target) as [Hlt|]; cbn [negb orb]; [|done].
  destruct (po_stop_loop r); [done|]. apply IH. by apply pop_body_inv.
Qed.

(** A consumer that goes on has noted no error. *)
Definition pop_few (s : pop_state) : Prop :=
  0 <= rh_errors (po_header s) <= 1 /\
  (po_left s = false -> po_delivered s < target -> rh_errors (po_header s) = 0).

Lemma pop_body_few r s :
  rh_errors (po_header s) = 0 -> pop_few (pop_body kSize policy producer_count messages target r s).
Proof.
  intros H0. unfold pop_body. destruct (po_stop_before r || po_stop_after r); [by split; cbn; [lia|]|].
  set (waits := bool_decide (policy = wp_kBlocking) && _).
  set (h := if waits then bump_if _ _ _ else _).
  assert (rh_errors h = 0) as Hh.
  { subst h. destruct waits; [|done]. by rewrite errors_bump_if, errors_bump, !errors_bump_if. }
  clearbody h. unfold pop_few. destruct (if waits then po_wait r else po_try r) as [p|e].
  - destruct (valid_payload _ _ _ _ _); cbn [po_header po_left po_delivered];
      rewrite ?errors_note, errors_bump, Hh by done; by split.
  - destruct (bool_decide (policy = wp_kBlocking) && bool_decide (err_code e = kTimeout));
      [|destruct (bool_decide (err_code e = kQueueEmpty)); [|destruct (bool_decide (err_code e = kQueueContention))]];
      cbn [po_header po_left po_delivered]; rewrite ?errors_note, ?errors_bump, ?Hh by done;
      (split; [done|]); intros; try done; lia.
Qed.

Lemma consumer_loop_few rounds s :
  pop_few s -> pop_few (consumer_loop kSize policy producer_count messages target rounds s).
Proof.
  revert s. induction rounds as [|r rounds IH]; intros s Hs; [done|]. cbn [consumer_loop].
  destruct (po_left s) eqn:Hl; cbn [orb]; [done|].
  destruct (Z.ltb_spec (po_delivered s) target) as [Hlt|]; cbn [negb orb]; [|done].
  destruct (po_stop_loop r); [done|]. apply IH, pop_body_few. by apply Hs.
Qed.

(** The report of a consumer is accepted by the parent, and the records read are its records:
    messages of the run, as many as it says. It has at most one error, and none when the
    worker exits with 0. *)
Lemma consumer_report opened rounds perf :
  Forall pop_round_ok rounds -> is_u64 (default 0 perf) ->
  let '(report, status) := run_child_consumer kSize policy producer_count messages target opened rounds perf in
  exists h records,
    read_report (Some report) cr_kConsumer target = mkParsed h records true /\
    rh_published h = 0 /\ rh_delivered h = Z.of_nat (length records) /\
    Forall (fun r => dr_producer r < producer_count /\ dr_sequence r < messages) records /\
    rh_errors h <= 1 /\ (status = 0 -> rh_errors h = 0).
Proof.
  intros Hr Hperf. unfold run_child_consumer. set (s := match opened with Ok _ => _ | Err _ => _ end).
  assert (pop_few s) as [[_ Hfew] _].
  { subst s. destruct opened as [[]|e]; [by apply consumer_loop_few|].
    unfold pop_few. cbn [po_header po_left]. by rewrite errors_note. }
  assert (pop_inv s) as (Hb & Ht & Hrec & Hd & Hs).
  { subst s. destruct opened as [[]|e].
    - apply consumer_loop_inv; [done|].
      refine (conj (base_new _) (conj eq_refl (conj (Forall_nil_2 _) (conj _ _)))); cbn; [lia|done].
    - refine (conj (base_note _ _ _ (base_new _)) (conj _ (conj (Forall_nil_2 _) (conj _ _)))); cbn [po_header po_records po_success po_delivered length]; [by rewrite tracked_note|lia|done]. }
  clearbody s. cbn [tracked fst] in Ht. injection Ht as Hpub Hdel.
  assert (Z.of_nat (length (po_records s)) <= UINT64_MAX / 24) as Hn by lia.
  assert (UINT64_MAX / 24 < UINT64_MAX) by done.
  destruct Hb as (Hok & Hm & Hv & Hro & H1 & H2 & Hp).
  exists (with_record_count (with_perf (po_header s) perf) (Z.of_nat (length (po_records s)))), (po_records s).
  split; [|split; [exact Hpub|split; [exact Hdel|split; [|split;
    [exact Hfew|by destruct (po_success s); [intros _; apply Hs|]]]]]].
  2: { eapply Forall_impl; [exact Hrec|]. by intros r []. }
  apply read_written; [| |lia|exact Hn|exact Hm|exact Hv|exact Hro|exact H1|exact H2| |].
  - apply header_ok_final; [done| |done]. unfold is_u64. lia.
  - eapply Forall_impl; [exact Hrec|]. by intros r [].
  - by destruct perf.
  - cbn [role_shape_ok with_record_count with_perf rh_published rh_delivered rh_record_count]. by rewrite Hpub, Hdel, !Z.eqb_refl.
Qed.
End Consumer.

Section Producer.
Context (policy : WaitPolicy) (messages : Z).
Hypothesis messages_ok : 0 <= messages <= UINT64_MAX.

Definition push_inv (s : push_state) : Prop :=
  base cr_kProducer (ps_header s) /\ rh_delivered (ps_header s) = 0 /\
  0 <= rh_published (ps_header s) <= ps_sequence s /\ ps_sequence s <= messages /\
  (ps_head s = false -> ps_sequence s < messages) /\
  (ps_success s = true -> rh_published (ps_header s) = ps_sequence s /\ rh_errors (ps_header s) = 0).

Lemma push_body_inv r s :
  ps_sequence s < messages -> push_inv s -> push_inv (push_body policy messages r s).
Proof.
  intros Hlt (Hb & Hd & Hp & Hm & _ & Hs). unfold push_body.
  destruct (pu_stop_before r || pu_stop_after r); [by refine (conj Hb (conj Hd (conj Hp (conj Hm _))))|].
  set (waits := bool_decide (policy = wp_kBlocking) && _).
  destruct (wait_counters cr_kProducer waits (has_code (pu_wait r) kTimeout) (has_code (pu_try r) kQueueContention)
    (has_code (pu_try r) kQueueFull) ct_queue_full (ps_header s)) as [Hb' Ht']; [done..|].
  set (h := if waits then _ else _) in *. clearbody h. injection Ht' as Hp' Hd' He'.
  rewrite <- Hd' in Hd. rewrite <- Hp' in Hp, Hs. rewrite <- He' in Hs.
  assert (forall code, push_inv (mkPushState true messages (note_error h code) false)) as Hbad.
  { intros code. pose proof (tracked_note h code) as [= Hn1 Hn2]. unfold push_inv. cbn [ps_header ps_sequence ps_head ps_success].
    rewrite Hn1, Hn2. refine (conj (base_note _ _ _ Hb') (conj Hd (conj _ (conj _ (conj _ _))))); [lia|lia|done|done]. }
  assert (forall c hd, c <> ct_published -> c <> ct_delivered -> c <> ct_errors ->
    push_inv (mkPushState hd (ps_sequence s) (bump c h) (ps_success s))) as Hagain.
  { intros c hd H1 H2 H3. injection (tracked_bump c h H1 H2 H3) as E1 E2 E3. unfold push_inv.
    cbn [ps_header ps_sequence ps_head ps_success].
    assert (rh_published (bump c h) = rh_published h) as -> by by destruct c.
    assert (rh_delivered (bump c h) = rh_delivered h) as -> by by destruct c.
    assert (rh_errors (bump c h) = rh_errors h) as -> by by destruct c.
    by refine (conj (base_bump _ _ _ Hb') (conj Hd (conj Hp (conj Hm (conj _ Hs))))). }
  destruct (if waits then pu_wait r else pu_try r) as [[]|e].
  - unfold push_inv. cbn [ps_header ps_sequence ps_head ps_success].
    refine (conj (base_bump _ _ _ Hb') (conj Hd _)).
    change (rh_published (bump ct_published h)) with (u64 (rh_published h + 1)).
    change (rh_errors (bump ct_published h)) with (rh_errors h).
    rewrite u64_small by (unfold is_u64; lia). split; [lia|]. split; [lia|]. split; [done|].
    intros H. destruct (Hs H). split; [lia|done].
  - destruct (bool_decide (policy = wp_kBlocking) && bool_decide (err_code e = kTimeout)); [apply Hbad|].
    destruct (bool_decide (err_code e = kQueueFull)); [by apply Hagain|].
    destruct (bool_decide (err_code e = kQueueContention)); [by apply Hagain|]. apply Hbad.
Qed.

Lemma producer_loop_inv rounds s : push_inv s -> push_inv (producer_loop policy messages rounds s).
Proof.
  revert s. induction rounds as [|r rounds IH]; intros s Hs; [done|]. cbn [producer_loop].
  assert (ps_sequence s < messages -> push_inv (producer_loop policy messages rounds (push_body policy messages r s))) as Hgo.
  { intros Hlt. by apply IH, push_body_inv. }
  destruct (ps_head s) eqn:Hh; cbn [andb]; [|apply Hgo; by apply Hs].
  destruct (Z.ltb_spec (ps_sequence s) messages) as [Hlt|]; cbn [negb orb]; [|done].
  destruct (pu_stop_outer r); [done|]. by apply Hgo.
Qed.

(** A producer that goes on has noted no error. *)
Definition push_few (s : push_state) : Prop :=
  0 <= rh_errors (ps_header s) <= 1 /\ (ps_sequence s < messages -> rh_errors (ps_header s) = 0).

Lemma push_body_few r s :
  rh_errors (ps_header s) = 0 -> push_few (push_body policy messages r s).
Proof.
  intros H0. unfold push_body. destruct (pu_stop_before r || pu_stop_after r); [by split; cbn; [lia|]|].
  set (waits := bool_decide (policy = wp_kBlocking) && _). set (h := if waits then bump_if _ _ _ else _).
  assert (rh_errors h = 0) as Hh.
  { subst h. destruct waits; [|done]. by rewrite errors_bump_if, errors_bump, !errors_bump_if. }
  clearbody h. unfold push_few. destruct (if waits then pu_wait r else pu_try r) as [[]|e].
  - cbn [ps_header ps_sequence]. by rewrite errors_bump, Hh.
  - destruct (bool_decide (policy = wp_kBlocking) && bool_decide (err_code e = kTimeout));
      [|destruct (bool_decide (err_code e = kQueueFull)); [|destruct (bool_decide (err_code e = kQueueContention))]];
      cbn [ps_header ps_sequence]; rewrite ?errors_note, ?errors_bump, ?Hh by done;
      (split; [done|]); intros; try done; lia.
Qed.

Lemma producer_loop_few rounds s :
  push_inv s -> push_few s -> push_few (producer_loop policy messages rounds s).
Proof.
  revert s. induction rounds as [|r rounds IH]; intros s Hi Hs; [done|]. cbn [producer_loop].
  assert (ps_sequence s < messages -> push_few (producer_loop policy messages rounds (push_body policy messages r s))) as Hgo.
  { intros Hlt. apply IH; [by apply push_body_inv|]. by apply push_body_few, Hs. }
  destruct (ps_head s) eqn:Hh; cbn [andb]; [|apply Hgo; by apply Hi].
  destruct (Z.ltb_spec (ps_sequence s) messages) as [Hlt|]; cbn [negb orb]; [|done].
  destruct (pu_stop_outer r); [done|]. by apply Hgo.
Qed.

(** The report of a producer is accepted by the parent; it has at most one error, and none
    when the worker exits with 0. *)
Lemma producer_report opened rounds perf :
  is_u64 (default 0 perf) ->
  let '(report, status) := run_child_producer policy messages opened rounds perf in
  exists h,
    read_report (Some report) cr_kProducer 0 = mkParsed h [] true /\
    rh_delivered h = 0 /\ 0 <= rh_published h <= messages /\ rh_errors h <= 1 /\
    (status = 0 -> rh_errors h = 0).
Proof.
  intros Hperf. unfold run_child_producer. set (s := match opened with Ok _ => _ | Err _ => _ end).
  assert (push_inv (mkPushState true 0 (new_report cr_kProducer) true)) as Hnew
    by (refine (conj (base_new _) (conj eq_refl (conj _ (conj _ (conj _ _))))); cbn; [lia|lia|done|done]).
  assert (rh_errors (ps_header s) <= 1) as Hfew.
  { subst s. destruct opened as [[]|e]; [by apply producer_loop_few|].
    cbn [ps_header]. by rewrite errors_note. }
  assert (push_inv s) as (Hb & Hd & Hp & Hm & _ & Hs).
  { subst s. destruct opened as [[]|e].
    - by apply producer_loop_inv.
    - pose proof (tracked_note (new_report cr_kProducer) (err_code e)) as [= Hn1 Hn2]. unfold push_inv.
      cbn [ps_header ps_sequence ps_head ps_success]. rewrite Hn1, Hn2.
      refine (conj (base_note _ _ _ (base_new _)) (conj eq_refl (conj _ (conj _ (conj _ _))))); cbn; [lia|lia|done|done]. }
  clearbody s. destruct Hb as (Hok & Hmg & Hv & Hro & H1 & H2 & Hpf).
  exists (with_record_count (with_perf (ps_header s) perf) 0).
  split; [|split; [exact Hd|split; [cbn; lia|split;
    [exact Hfew|by destruct (ps_success s); [intros _; apply Hs|]]]]].
  apply (read_written cr_kProducer 0 _ []);
    [|constructor|done|done|exact Hmg|exact Hv|exact Hro|exact H1|exact H2| |].
  - by apply header_ok_final.
  - by destruct perf.
  - cbn [role_shape_ok with_record_count with_perf rh_delivered rh_record_count length]. by rewrite Hd.
Qed.
End Producer.

(** * The verdict *)

(** A child whose report is what the parent reads from its file. *)
Definition reported (c : ChildProcess) : Prop :=
  exists file target,
    match file with Some bytes => Forall is_byte bytes | None => True end /\
    ch_report c = read_report file (ch_role c) target.

Lemma le_value_nonneg bs : Forall is_byte bs -> 0 <= le_value bs.
Proof. induction 1 as [|b bs Hb _ IH]; cbn [le_value]; [done|]. unfold is_byte in Hb. lia. Qed.
Lemma field_nonneg bs offset width : Forall is_byte bs -> 0 <= field_at bs offset width.
Proof. intros H. apply le_value_nonneg. by apply Forall_take, Forall_drop. Qed.

Lemma records_ok n bs : Forall is_byte bs -> Forall record_ok (records_of_bytes n bs).
Proof.
  revert bs. induction n as [|n IH]; intros bs H; [constructor|]. cbn [records_of_bytes]. constructor.
  - split; by apply field_nonneg.
  - apply IH. by apply Forall_drop.
Qed.

Lemma reported_wf c :
  reported c -> 0 <= rh_errors (pr_header (ch_report c)) /\ Forall record_ok (pr_records (ch_report c)).
Proof.
  intros (file & target & Hb & ->). destruct file as [bytes|]; [|split; [done|constructor]].
  unfold read_report. case_bool_decide; [split; [done|constructor]|]. cbv zeta.
  assert (0 <= rh_errors (report_header_of_bytes bytes)) as He by by apply field_nonneg.
  destruct (_ || _); [split; [done|constructor]|]. case_bool_decide; [split; [done|constructor]|].
  split; [done|]. cbn [pr_records]. by apply records_ok, Forall_drop.
Qed.

(** Sums over the children whose report is valid. *)
Definition reported_sum (f : ReportHeader -> Z) (children : list ChildProcess) : Z :=
  Zsum (map (fun c => if pr_valid (ch_report c) then f (pr_header (ch_report c)) else 0) children).

Lemma fold_keeps {A} (P : RunAggregate -> A) (children : list ChildProcess) a :
  (forall a, P (add_errors a 1) = P a) ->
  P (foldl (fun a c => if child_succeeded c then a else add_errors a 1) a children) = P a.
Proof.
  intros H. revert a. induction children as [|c children IH]; intros a; cbn [foldl]; [done|].
  rewrite IH. by destruct (child_succeeded c).
Qed.

Lemma fold_sum (P : RunAggregate -> Z) (f : ReportHeader -> Z) children a e :
  (forall a c, P (add_report a c) =
    if pr_valid (ch_report c) then u64 (P a + f (pr_header (ch_report c))) else P a) ->
  P a = u64 e -> P (foldl add_report a children) = u64 (e + reported_sum f children).
Proof.
  intros H. unfold reported_sum, Zsum. revert a e. induction children as [|c children IH]; intros a e Ha.
  { cbn [map foldl foldr]. by rewrite Ha, Z.add_0_r. }
  cbn [map foldl foldr]. specialize (H a c). destruct (pr_valid (ch_report c)).
  - rewrite (IH _ (e + f (pr_header (ch_report c)))); [f_equal; lia|]. by rewrite H, Ha, u64_add_l.
  - rewrite (IH _ e); [f_equal; lia|]. congruence.
Qed.

Lemma fold_latency children a :
  ag_latency_ns (foldl add_report a children) = ag_latency_ns a ++ map dr_latency_ns (consumer_records children).
Proof.
  revert a. induction children as [|c children IH]; intros a; [by rewrite app_nil_r|]. cbn [foldl]. rewrite IH.
  unfold consumer_records. cbn [map concat]. rewrite map_app, app_assoc. f_equal. unfold add_report.
  destruct (pr_valid (ch_report c)); cbn [negb orb]; [|rewrite orb_true_r; cbn; by rewrite app_nil_r].
  destruct (ch_role c) eqn:Hr; cbn; by rewrite ?app_nil_r.
Qed.

Lemma aggregate_totals children launch_errors timed_out :
  let a := aggregate_children children launch_errors timed_out in
  ag_published a = u64 (reported_sum rh_published children) /\
  ag_delivered a = u64 (reported_sum rh_delivered children) /\
  ag_latency_ns a = map dr_latency_ns (consumer_records children).
Proof.
  cbv zeta. unfold aggregate_children. set (a0 := mkAggregate _ _ _ _ _ _ _ _ _ _ _ _).
  set (a1 := foldl _ a0 children).
  assert (ag_published a1 = u64 0) as Hp by by (subst a1; rewrite (fold_keeps ag_published)).
  assert (ag_delivered a1 = u64 0) as Hd by by (subst a1; rewrite (fold_keeps ag_delivered)).
  assert (ag_latency_ns a1 = []) as Hl by by (subst a1; rewrite (fold_keeps ag_latency_ns)).
  set (a2 := foldl add_report a1 children).
  assert (ag_published a2 = u64 (0 + reported_sum rh_published children)) as Hp2
    by (apply (fold_sum ag_published); [intros a c; unfold add_report; by destruct (pr_valid _)|done]).
  assert (ag_delivered a2 = u64 (0 + reported_sum rh_delivered children)) as Hd2
    by (apply (fold_sum ag_delivered); [intros a c; unfold add_report; by destruct (pr_valid _)|done]).
  assert (ag_latency_ns a2 = map dr_latency_ns (consumer_records children)) as Hl2
    by (subst a2; by rewrite fold_latency, Hl).
  clearbody a2. destruct timed_out; cbn [ag_published ag_delivered ag_latency_ns add_errors]; done.
Qed.

Definition clean (c : ChildProcess) : Prop :=
  child_succeeded c = true /\ pr_valid (ch_report c) = true /\ rh_errors (pr_header (ch_report c)) = 0.

Lemma child_errors_clean c : reported c -> 0 <= child_errors c /\ (child_errors c = 0 <-> clean c).
Proof.
  intros (He & _)%reported_wf. unfold child_errors, clean.
  destruct (child_succeeded c), (pr_valid (ch_report c)); cbn [bz negb]; split; try lia; split; try lia; by intros (? & ? & ?).
Qed.

Lemma errors_clean children :
  Forall reported children ->
  0 <= Zsum (map child_errors children) /\ (Zsum (map child_errors children) = 0 <-> Forall clean children).
Proof.
  unfold Zsum. induction 1 as [|c children Hc _ [IH1 IH2]]; cbn [map foldr].
  { split; [done|]. split; [constructor|done]. }
  destruct (child_errors_clean c Hc) as [H1 H2]. rewrite Forall_cons, <- H2, <- IH2. lia.
Qed.

Lemma error_sum_none children launch_errors timed_out output_ok :
  Forall reported children -> 0 <= launch_errors ->
  error_sum children launch_errors timed_out output_ok <= UINT64_MAX ->
  (u64 (error_sum children launch_errors timed_out output_ok) =? 0) = true <->
  Forall clean children /\ launch_errors = 0 /\ timed_out = false /\ output_ok = true.
Proof.
  intros Hc Hl Hmax. destruct (errors_clean children Hc) as [H1 <-]. unfold error_sum in *.
  assert (forall b, 0 <= bz b) as Hbz by by intros []. pose proof (Hbz timed_out). pose proof (Hbz (negb output_ok)).
  rewrite u64_small by (unfold is_u64; lia). rewrite Z.eqb_eq.
  destruct timed_out, output_ok; cbn [bz negb] in *; split; try lia; by intros (? & ? & ? & ?).
Qed.

(** A child whose report, if it is valid, has at most one error, as the workers' have. *)
Definition few_errors (c : ChildProcess) : Prop :=
  pr_valid (ch_report c) = true -> rh_errors (pr_header (ch_report c)) <= 1.

(** The errors of as many children as a run has do not wrap. *)
Lemma few_errors_sum children launch_errors timed_out output_ok :
  Forall few_errors children -> Z.of_nat (length children) <= 2 * kMaxWorkers ->
  launch_errors <= 2 * kMaxWorkers ->
  error_sum children launch_errors timed_out output_ok <= UINT64_MAX.
Proof.
  intros Hc Hn Hl.
  assert (Zsum (map child_errors children) <= 2 * Z.of_nat (length children)) as Hs.
  { unfold Zsum. clear Hn. induction Hc as [|c children Hc _ IH]; [done|]. cbn [map foldr length].
    assert (child_errors c <= 2); [|lia]. unfold child_errors, few_errors in *.
    destruct (child_succeeded c), (pr_valid (ch_report c)); cbn [bz negb]; try lia; specialize (Hc eq_refl); lia. }
  unfold error_sum, kMaxWorkers in *.
  assert (forall b, bz b <= 1) as Hbz by by intros []. pose proof (Hbz timed_out). pose proof (Hbz (negb output_ok)).
  unfold UINT64_MAX. lia.
Qed.

Lemma consumer_records_ok children : Forall reported children -> Forall record_ok (consumer_records children).
Proof.
  unfold consumer_records. induction 1 as [|c children Hc _ IH]; cbn [map concat]; [constructor|].
  apply Forall_app. split; [|done]. destruct (_ || _); [constructor|]. by apply reported_wf.
Qed.

Lemma all_messages_length producers messages :
  length (all_messages producers messages) = Z.to_nat (producers * messages).
Proof. unfold all_messages. by rewrite length_map, length_seq. Qed.

(** ** Shares and percentiles *)

(** The consumers' targets add up to the messages of the run. *)
Lemma consumer_targets_sum expected consumers :
  0 < consumers -> 0 <= expected ->
  Zsum (map (fun i => consumer_target expected consumers (Z.of_nat i)) (seq 0 (Z.to_nat consumers))) = expected.
Proof.
  intros Hc He. pose proof (Z.mod_pos_bound expected consumers Hc).
  assert (forall n m, Zsum (map (fun i => consumer_target expected consumers (Z.of_nat i)) (seq m n)) =
    Z.of_nat n * (expected / consumers) +
    Z.max 0 (Z.min (Z.of_nat n) (expected mod consumers - Z.of_nat m))) as Hn.
  { unfold Zsum. induction n as [|n IH]; intros m; cbn [seq map foldr]; [lia|]. rewrite IH. unfold consumer_target.
    destruct (Z.ltb_spec (Z.of_nat m) (expected mod consumers)); lia. }
  rewrite Hn, Z2Nat.id by lia. pose proof (Z.div_mod expected consumers). lia.
Qed.

(** The percentile is the sample of the smallest rank that at least that share of the samples
    reaches. *)
Lemma percentile_nearest_rank_spec sorted numerator denominator :
  sorted <> [] -> 0 < numerator <= denominator ->
  Z.of_nat (length sorted) * numerator + denominator - 1 <= UINT64_MAX ->
  exists rank, 1 <= rank <= Z.of_nat (length sorted) /\
    (rank - 1) * denominator < Z.of_nat (length sorted) * numerator <= rank * denominator /\
    percentile_nearest_rank sorted numerator denominator = nth (Z.to_nat (rank - 1)) sorted 0.
Proof.
  intros Hs Hn Hmax. unfold percentile_nearest_rank. destruct sorted as [|x l]; [done|]. cbv zeta.
  set (count := Z.of_nat (length (x :: l))) in *. assert (0 < count) by (subst count; cbn [length]; lia).
  rewrite u64_small by (unfold is_u64; nia).
  set (rank := (count * numerator + denominator - 1) / denominator).
  assert (rank * denominator <= count * numerator + denominator - 1 < (rank + 1) * denominator) as Hr.
  { subst rank. pose proof (Z.div_mod (count * numerator + denominator - 1) denominator).
    pose proof (Z.mod_pos_bound (count * numerator + denominator - 1) denominator). nia. }
  assert (1 <= rank) by nia. assert (rank <= count) by nia.
  destruct (Z.eqb_spec rank 0); [lia|]. destruct (Z.ltb_spec count rank); [lia|].
  exists rank. split; [lia|]. split; [nia|done].
Qed.

(** The records of the consumers are all the messages of the run, each exactly once, and the
    64-bit sums of the counts in the reports are their number. *)
Definition all_delivered (config : Config) (children : list ChildProcess) : Prop :=
  map message_of (consumer_records children) ≡ₚ all_messages (cf_producers config) (cf_messages config) /\
  u64 (reported_sum rh_published children) = cf_producers config * cf_messages config /\
  u64 (reported_sum rh_delivered children) = cf_producers config * cf_messages config.

Lemma judge_exact config children launch_errors timed_out output_ok removed :
  0 < cf_producers config <= kMaxWorkers ->
  0 < cf_messages config <= kMaxMessagesPerProducer -> Forall reported children ->
  (judge config children launch_errors timed_out output_ok removed).2 = true <->
  all_delivered config children /\
  u64 (error_sum children launch_errors timed_out output_ok) = 0 /\
  timed_out = false /\ output_ok = true /\ removed = true.
Proof.
  intros Hp Hm Hc. unfold judge, all_delivered.
  destruct (aggregate_totals children launch_errors timed_out) as (Hpub & Hdel & Hlat).
  rewrite Hpub, Hdel, Hlat, length_map. rewrite Z.mul_comm.
  rewrite (u64_small (_ * _)) by (unfold kMaxWorkers, kMaxMessagesPerProducer in *; unfold is_u64, UINT64_MAX; nia).
  set (expected := cf_producers config * cf_messages config) in *.
  set (v := _ && _ && _ && (Z.of_nat _ =? expected)).
  destruct (foldl _ _ (consumer_records children)) as [seen v'] eqn:Hf.
  apply (seen_verdict _ _ _ Hp Hm eq_refl) in Hf; [|by apply consumer_records_ok].
  cbn [snd]. rewrite !andb_true_iff, judge_errors, Z.eqb_eq, <- andb_true_iff, Hf.
  subst v. rewrite !andb_true_iff, !Z.eqb_eq, negb_true_iff. split; [tauto|].
  intros ((Hperm & H1 & H2) & H3 & H4 & H5 & H6). repeat split; try done.
  rewrite <- (length_map message_of), Hperm, all_messages_length. subst expected. lia.
Qed.

(** C15: the benchmark says PASS exactly when it should. For the children of a run, with
    whatever their report files hold, the verdict of the parent is true iff the messages in the
    consumers' records are all the messages of the run, each exactly once; the sums of the
    producers' and the consumers' own counts, in 64 bits, are their number; the 64-bit sum of
    the errors is 0; no child was stopped, and the output and the queue's removal were in order.
    That sum is 0 exactly when every child ended well and left a valid report without errors
    and none failed to start, unless the sum wraps around. It cannot wrap in a run whose
    workers wrote their own reports: these are accepted, whatever happened to the worker, a
    consumer's with as many records as it says, all of messages of the run; and they hold at
    most one error, and none when the worker exits with 0. *)
Theorem mpmc_bench_verdict config children launch_errors timed_out output_ok removed :
  0 < cf_producers config <= kMaxWorkers ->
  0 < cf_messages config <= kMaxMessagesPerProducer ->
  Forall reported children -> 0 <= launch_errors ->
  let verdict := (judge config children launch_errors timed_out output_ok removed).2 in
  let errors := error_sum children launch_errors timed_out output_ok in
  (verdict = true <->
   all_delivered config children /\ u64 errors = 0 /\
   timed_out = false /\ output_ok = true /\ removed = true) /\
  (errors <= UINT64_MAX ->
   (verdict = true <->
    all_delivered config children /\ Forall clean children /\ launch_errors = 0 /\
    timed_out = false /\ output_ok = true /\ removed = true)) /\
  (Forall few_errors children -> Z.of_nat (length children) <= 2 * kMaxWorkers ->
   launch_errors <= 2 * kMaxWorkers -> errors <= UINT64_MAX) /\
  (forall kSize policy producer_count messages target opened rounds perf,
     0 <= target <= UINT64_MAX / 24 -> Forall pop_round_ok rounds -> is_u64 (default 0 perf) ->
     let '(report, status) := run_child_consumer kSize policy producer_count messages target opened rounds perf in
     exists h records,
       read_report (Some report) cr_kConsumer target = mkParsed h records true /\
       rh_published h = 0 /\ rh_delivered h = Z.of_nat (length records) /\
       Forall (fun r => dr_producer r < producer_count /\ dr_sequence r < messages) records /\
       rh_errors h <= 1 /\ (status = 0 -> rh_errors h = 0)) /\
  (forall policy messages opened rounds perf,
     0 <= messages <= UINT64_MAX -> is_u64 (default 0 perf) ->
     let '(report, status) := run_child_producer policy messages opened rounds perf in
     exists h,
       read_report (Some report) cr_kProducer 0 = mkParsed h [] true /\
       rh_delivered h = 0 /\ 0 <= rh_published h <= messages /\
       rh_errors h <= 1 /\ (status = 0 -> rh_errors h = 0)).
Proof.
  intros Hp Hm Hc Hl verdict errors.
  pose proof (judge_exact config children launch_errors timed_out output_ok removed Hp Hm Hc) as Hj.
  split; [exact Hj|]. split; [|split; [by apply few_errors_sum|
    split; [intros; by apply consumer_report|intros; by apply producer_report]]].
  intros Hmax. pose proof (error_sum_none children launch_errors timed_out output_ok Hc Hl Hmax) as He.
  rewrite Z.eqb_eq in He. subst verdict. rewrite Hj, He. tauto.
Qed.

(** Two producers with a message each, and a consumer that finds the queue empty once. *)
Module BenchDemo.
Definition config : Config :=
  mkConfig 64 2 1 1 4 1 1000 0 0 false false rp_kYield wp_kBusy "" "".
Definition no_payload : Result Payload := Err (mkError kQueueEmpty 0 "" "").
Definition received (producer time : Z) : pop_round :=
  mkPopRound false false (Ok (make_payload 64 producer 0 time)) false no_payload (time + 5).
Definition rounds : list pop_round :=
  [received 1 20; mkPopRound false false no_payload false no_payload 0; received 0 10].
Definition consumer : list Z * Z := run_child_consumer 64 wp_kBusy 2 1 2 (Ok tt) rounds None.
Definition producer : list Z * Z :=
  run_child_producer wp_kBusy 1 (Ok tt) [mkPushRound false false (Ok tt) false (Ok tt)] (Some 3).
Definition child (role : ChildRole) (run : list Z * Z) (target : Z) : ChildProcess :=
  mkChild role true (Z.shiftl run.2 8) (read_report (Some run.1) role target).
Definition children : list ChildProcess :=
  [child cr_kConsumer consumer 2; child cr_kProducer producer 0; child cr_kProducer producer 0].
End BenchDemo.

Lemma mpmc_bench_verdict_witness :
  (judge BenchDemo.config BenchDemo.children 0 false true true).2 = true /\
  map message_of (consumer_records BenchDemo.children) ≡ₚ [(0, 0); (1, 0)].
Proof.
  assert (forallb (fun run => forallb (fun b => (0 <=? b) && (b <? 256)) run.1) [BenchDemo.consumer; BenchDemo.producer] = true) as Hb
    by (vm_compute; reflexivity).
  assert (forall run role target, In run [BenchDemo.consumer; BenchDemo.producer] ->
    reported (BenchDemo.child role run target)) as Hr.
  { intros run role target Hin. exists (Some run.1), target. split; [|reflexivity].
    rewrite forallb_forall in Hb. specialize (Hb run Hin). rewrite forallb_forall in Hb.
    apply Forall_forall. intros b Hin'. apply list_elem_of_In in Hin'. specialize (Hb b Hin').
    unfold is_byte. lia. }
  assert ((judge BenchDemo.config BenchDemo.children 0 false true true).2 = true) as Hv by (vm_compute; reflexivity).
  split; [exact Hv|].
  refine (proj1 (proj1 (proj1 (proj1 (mpmc_bench_verdict BenchDemo.config BenchDemo.children 0 false true true _ _ _ _)) Hv))).
  - vm_compute. split; [reflexivity|discriminate].
  - vm_compute. split; [reflexivity|discriminate].
  - unfold BenchDemo.children. apply Forall_cons. split; [apply Hr; left; reflexivity|].
    apply Forall_cons. split; [apply Hr; right; left; reflexivity|].
    apply Forall_cons. split; [apply Hr; right; left; reflexivity|]. apply Forall_nil. exact I.
  - lia.
Defined.
