(* ===== verification/Failpoint.v ===== *)
(** The failpoints and the futex trace of the builds for fault injection
    ([utility/failpoint.cpp], and the part of [sync/futex.cpp] that such builds have): when a
    failpoint fires, and that the counters of the trace account for every event.

    The counters of the trace are atomics that all threads of the process use.
    [trace_step] is one atomic action of a thread inside [trace_event]; [trace_event] itself is
    a thread that runs alone, which [trace_event_steps] shows to be a run of such actions. A
    compare-and-exchange loop acts once, when the exchange succeeds; its failed attempts change
    nothing.

    The release build that the other files model has neither. *)
From stdpp Require Import gmap.
From S2P Require Import Prelude ProcIdentity ChannelLayout ToolCommon.

(** * Failpoints *)

(** A record of the linker section: its address, and the name it holds. *)
Record FailpointRecord : Type := mkFailpoint {
  fp_address : nat;
  fp_id : string
}.

Inductive Mode : Type := fm_kStop | fm_kCrash | fm_kLog.

Record Activation : Type := mkActivation {
  ac_enabled : bool;
  ac_wildcard : bool;
  ac_single : string;
  ac_count : Z;
  ac_mode : Mode
}.

Definition environment : Type := string -> option string.

(** The name is the string that [getenv] returned, which the code keeps without a copy: it is
    taken not to be overwritten later. *)
Definition read_activation (getenv : environment) : Activation :=
  match getenv "EDGE_FAILPOINT"%string with
  | None | Some ""%string => mkActivation false false "" 1 fm_kStop
  | Some fp =>
      let mode :=
        if bool_decide (getenv "EDGE_FAILPOINT_MODE"%string = Some "crash"%string) then fm_kCrash
        else if bool_decide (getenv "EDGE_FAILPOINT_MODE"%string = Some "log"%string) then fm_kLog
        else fm_kStop in
      let count :=
        match getenv "EDGE_FAILPOINT_COUNT"%string with
        | None => 1
        | Some text =>
            match scan_u64 (string_codes text) with
            | Some (v, _) => if 0 <? v then v else 1
            | None => 1
            end
        end in
      mkActivation true (bool_decide (fp = "*"%string)) fp count mode
  end.

(** The statics of the file: the activation, once it was read, and the hits by record. *)
Record failpoint_state : Type := mkFailpoints {
  fs_activation : option Activation;
  fs_hits : gmap nat Z
}.
Definition no_hits : failpoint_state := mkFailpoints None ∅.

(** What a failpoint that fires does to the process. *)
Inductive firing : Type :=
| Stopped
| Crashed (status : Z)
| Logged (id : string) (nth : Z).

Definition matches (act : Activation) (fp : FailpointRecord) : bool :=
  ac_enabled act && (ac_wildcard act || bool_decide (ac_single act = fp_id fp)).

Definition failpoint_trigger (getenv : environment) (fp : FailpointRecord) (s : failpoint_state)
    : failpoint_state * option firing :=
  let act := default (read_activation getenv) (fs_activation s) in
  let s := mkFailpoints (Some act) (fs_hits s) in
  if negb (matches act fp) then (s, None)
  else
  let nth := u64 (default 0 (fs_hits s !! fp_address fp) + 1) in
  let s := mkFailpoints (Some act) (<[fp_address fp:=nth]> (fs_hits s)) in
  if negb (nth =? ac_count act) then (s, None)
  else
  (s, Some match ac_mode act with
           | fm_kStop => Stopped
           | fm_kCrash => Crashed 134
           | fm_kLog => Logged (fp_id fp) nth
           end).

(** The names of the section, in its order. *)
Definition failpoint_list (section : list FailpointRecord) : list string := map fp_id section.

(** The triggers a process passes, in their order; the environment may change on the way. *)
Fixpoint run_triggers (calls : list (environment * FailpointRecord)) (s : failpoint_state)
    : failpoint_state * list (option firing) :=
  match calls with
  | [] => (s, [])
  | (getenv, fp) :: calls' =>
      let '(s, f) := failpoint_trigger getenv fp s in
      let '(s, fs) := run_triggers calls' s in
      (s, f :: fs)
  end.

(** * The trace *)

Record trace_state : Type := mkTrace {
  trace_dropped : Z;
  trace_attempted : Z;
  trace_emitted : Z;
  trace_dropped_total : Z;
  trace_counter_overflow : bool
}.
Definition no_trace : trace_state := mkTrace 0 0 0 0 false.

(** The new value, and whether the counter was full. *)
Definition increment_trace_counter (counter : Z) : Z * bool :=
  if counter =? UINT64_MAX then (counter, true) else (counter + 1, false).

(** [increment_trace_counter] of each of the three counters. *)
Definition count_attempt (s : trace_state) : trace_state :=
  let '(attempted, full) := increment_trace_counter (trace_attempted s) in
  mkTrace (trace_dropped s) attempted (trace_emitted s) (trace_dropped_total s)
    (trace_counter_overflow s || full).
Definition count_emitted (s : trace_state) : trace_state :=
  let '(emitted, full) := increment_trace_counter (trace_emitted s) in
  mkTrace (trace_dropped s) (trace_attempted s) emitted (trace_dropped_total s)
    (trace_counter_overflow s || full).
Definition count_drop (s : trace_state) : trace_state :=
  let '(total, full) := increment_trace_counter (trace_dropped_total s) in
  mkTrace (trace_dropped s) (trace_attempted s) (trace_emitted s) total
    (trace_counter_overflow s || full).

(** [trace_dropped.exchange(0)]. *)
Definition take_dropped (s : trace_state) : trace_state :=
  mkTrace 0 (trace_attempted s) (trace_emitted s) (trace_dropped_total s) (trace_counter_overflow s).

Definition trace_drop_with_current (pending : Z) : Z :=
  if pending =? UINT32_MAX then UINT32_MAX else u32 (pending + 1).

(** The second half of [note_current_trace_drop]: what was taken, and the event itself, go back
    to what is to be announced. *)
Definition restore_dropped (pending : Z) (s : trace_state) : trace_state :=
  let current := trace_dropped s in
  let dropped :=
    if current =? UINT32_MAX then current
    else
    let available := UINT32_MAX - current in
    let restore := trace_drop_with_current pending in
    if available <? restore then UINT32_MAX else u32 (current + restore) in
  mkTrace dropped (trace_attempted s) (trace_emitted s) (trace_dropped_total s)
    (trace_counter_overflow s).

Definition note_current_trace_drop (pending : Z) (s : trace_state) : trace_state :=
  restore_dropped pending (count_drop s).

(** [strtol] in base 10, as far as [trace_fd] uses it: the whole text is the number of a
    descriptor. *)
Definition parse_fd (text : option string) : option Z :=
  match text with
  | None | Some ""%string => None
  | Some text =>
      let s := skip_space (string_codes text) in
      let '(minus, s) :=
        match s with
        | c :: s' => if c =? 45 then (true, s') else if c =? 43 then (false, s') else (false, s)
        | [] => (false, s)
        end in
      match span_digits s with
      | ([], _) => None
      | (ds, []) =>
          let value := if minus : bool then - dec_value ds else dec_value ds in
          if (value <? 0) || (2147483647 <? value) then None else Some value
      | (_, _ :: _) => None
      end
  end.

(** What the system answers: the flags of the descriptor ([None] when it has none), whether
    they could be changed. *)
Record fd_answers : Type := mkFdAnswers {
  fa_flags : option Z;
  fa_set : bool
}.
Definition O_NONBLOCK : Z := 2048.
Definition trace_fd (text : option string) (answers : fd_answers) : option Z :=
  match parse_fd text with
  | None => None
  | Some fd =>
      match fa_flags answers with
      | None => None
      | Some flags =>
          if (Z.land flags O_NONBLOCK =? 0) && negb (fa_set answers) then None else Some fd
      end
  end.

(** One [snprintf] into what is left of a buffer, then one [write]: the lengths they give. *)
Record event_answers : Type := mkEventAnswers {
  ea_prefix : Z;
  ea_event : Z;
  ea_written : Z
}.

(** The announcement of the drops before an event is the result; [None] when nothing was
    written. *)
Definition trace_event (fd : option Z) (answers : event_answers) (s : trace_state)
    : trace_state * option Z :=
  match fd with
  | None => (s, None)
  | Some _ =>
      let s := count_attempt s in
      let pending := trace_dropped s in
      let s := take_dropped s in
      let offset := if pending =? 0 then 0 else ea_prefix answers in
      if negb (pending =? 0) && ((offset <=? 0) || (512 <=? offset)) then
        (note_current_trace_drop pending s, None)
      else if (ea_event answers <=? 0) || (512 <=? offset + ea_event answers) then
        (note_current_trace_drop pending s, None)
      else if negb (ea_written answers =? offset + ea_event answers) then
        (note_current_trace_drop pending s, None)
      else (count_emitted s, Some pending)
  end.

(** ** Threads inside [trace_event] *)

(** Where a thread is: outside; before the attempt is counted; before the exchange; with the
    drops it has taken, before the line is formatted and written; before the drop is counted;
    before the taken drops go back; after the line was written, before that is counted. *)
Inductive in_event : Type :=
| te_outside
| te_entered
| te_attempted
| te_taken (pending : Z)
| te_dropping (pending : Z)
| te_restoring (pending : Z)
| te_written (pending : Z).

(** The shared counters, the threads, and the drops that the lines written so far announce. *)
Record trace_config : Type := mkTraceConfig {
  tc_state : trace_state;
  tc_threads : list in_event;
  tc_announced : Z
}.

(** One action of a thread. Whether the line fits and is written is up to the system. *)
Inductive thread_step : in_event -> trace_state -> in_event -> trace_state -> Z -> Prop :=
| ts_enter s : thread_step te_outside s te_entered s 0
| ts_attempt s : thread_step te_entered s te_attempted (count_attempt s) 0
| ts_take s : thread_step te_attempted s (te_taken (trace_dropped s)) (take_dropped s) 0
| ts_fail p s : thread_step (te_taken p) s (te_dropping p) s 0
| ts_write p s : thread_step (te_taken p) s (te_written p) s p
| ts_count_drop p s : thread_step (te_dropping p) s (te_restoring p) (count_drop s) 0
| ts_restore p s : thread_step (te_restoring p) s te_outside (restore_dropped p s) 0
| ts_emitted p s : thread_step (te_written p) s te_outside (count_emitted s) 0.

Inductive trace_step : trace_config -> trace_config -> Prop :=
| trace_step_thread i t t' s s' threads n announced :
    threads !! i = Some t -> thread_step t s t' s' n ->
    trace_step (mkTraceConfig s threads announced)
      (mkTraceConfig s' (<[i:=t']> threads) (announced + n)).

Definition trace_start (threads : nat) : trace_config :=
  mkTraceConfig no_trace (replicate threads te_outside) 0.
Definition trace_reaches (threads : nat) : trace_config -> Prop := rtc trace_step (trace_start threads).

(** Whether a variable is set to something. *)
Definition fd_env_configured (text : option string) : bool :=
  match text with None | Some ""%string => false | Some _ => true end.

(** The two descriptors as the variables and the system give them, the answers to the last
    event, and whether the line of the status could be formatted and written. *)
Definition futex_trace_flush (trace_text status_text : option string)
    (trace_answers status_answers : fd_answers) (event : event_answers) (status_written : bool)
    (s : trace_state) : trace_state * bool :=
  if negb (fd_env_configured trace_text) && negb (fd_env_configured status_text) then (s, true)
  else if fd_env_configured trace_text && bool_decide (trace_fd trace_text trace_answers = None) then (s, false)
  else
  match trace_fd status_text status_answers with
  | None => (s, false)
  | Some _ =>
      let '(s, _) := trace_event (trace_fd trace_text trace_answers) event s in
      let counters_valid :=
        negb (trace_counter_overflow s) && (trace_emitted s <=? trace_attempted s)
        && (trace_attempted s - trace_emitted s =? trace_dropped_total s) in
      (s, status_written && counters_valid)
  end.

(** * When a failpoint fires *)

(** How often the record at [address] was passed by the calls that match. *)
Definition passes (act : Activation) (address : nat) (calls : list (environment * FailpointRecord)) : Z :=
  Z.of_nat (length (List.filter (fun c => matches act c.2 && (fp_address c.2 =? address)%nat) calls)).

Definition effect (act : Activation) (fp : FailpointRecord) : firing :=
  match ac_mode act with
  | fm_kStop => Stopped
  | fm_kCrash => Crashed 134
  | fm_kLog => Logged (fp_id fp) (ac_count act)
  end.
Definition fires (act : Activation) (fp : FailpointRecord) (before : Z) : option firing :=
  if matches act fp && (before + 1 =? ac_count act) then Some (effect act fp) else None.

Definition hits_at (s : failpoint_state) (address : nat) : Z := default 0 (fs_hits s !! address).

Lemma passes_cons act address c calls :
  passes act address (c :: calls) =
  (if matches act c.2 && (fp_address c.2 =? address)%nat then 1 else 0) + passes act address calls.
Proof. unfold passes. cbn [List.filter]. destruct (_ && _); cbn [length]; lia. Qed.

(** One trigger, once the activation is known. *)
Lemma trigger_spec act getenv fp s s' f :
  default (read_activation getenv) (fs_activation s) = act ->
  is_u64 (hits_at s (fp_address fp) + 1) ->
  failpoint_trigger getenv fp s = (s', f) ->
  fs_activation s' = Some act /\ f = fires act fp (hits_at s (fp_address fp)) /\
  forall address, hits_at s' address =
    (if matches act fp && (fp_address fp =? address)%nat then 1 else 0) + hits_at s address.
Proof.
  intros Ha Hn. unfold failpoint_trigger, fires, hits_at in *. rewrite Ha. cbn [fs_hits].
  destruct (matches act fp); cbn [negb andb]; [|intros [= <- <-]; by cbn [fs_activation fs_hits]].
  rewrite u64_small by done. set (n := default 0 (fs_hits s !! fp_address fp)) in *.
  assert (forall address, default 0 (<[fp_address fp:=n + 1]> (fs_hits s) !! address) =
    (if (fp_address fp =? address)%nat then 1 else 0) + default 0 (fs_hits s !! address)) as Hh.
  { intros address. destruct (Nat.eqb_spec (fp_address fp) address) as [<-|Hne].
    - rewrite lookup_insert_eq. cbn [default]. fold n. cbn. lia.
    - by rewrite lookup_insert_ne. }
  destruct (Z.eqb_spec (n + 1) (ac_count act)) as [He|]; cbn [negb]; intros [= <- <-]; [|done].
  split; [done|]. split; [|done]. unfold effect. by rewrite He.
Qed.

Lemma run_triggers_spec act calls s i getenv fp :
  fs_activation s = Some act ->
  (forall address, 0 <= hits_at s address /\ hits_at s address + Z.of_nat (length calls) <= UINT64_MAX) ->
  calls !! i = Some (getenv, fp) ->
  (run_triggers calls s).2 !! i =
  Some (fires act fp (hits_at s (fp_address fp) + passes act (fp_address fp) (take i calls))).
Proof.
  revert s i. induction calls as [|[e c] calls IH]; intros s i Ha Hn Hi; [done|]. cbn [run_triggers].
  destruct (failpoint_trigger e c s) as [s1 f] eqn:Ht. cbn [length] in Hn.
  destruct (trigger_spec act e c s s1 f) as (Ha1 & -> & Hh); [by rewrite Ha| |done|].
  { destruct (Hn (fp_address c)). unfold is_u64. lia. }
  destruct (run_triggers calls s1) as [s2 fs] eqn:Hr. cbn [snd]. destruct i as [|i].
  - cbn in Hi. injection Hi as -> ->. cbn. do 2 f_equal. unfold passes. cbn. lia.
  - change (((e, c) :: calls) !! S i) with (calls !! i) in Hi.
    match goal with |- (?x :: fs) !! S i = _ => change ((x :: fs) !! S i) with (fs !! i) end.
    cbn [take]. rewrite passes_cons. cbn [snd].
    specialize (IH s1 i Ha1). rewrite Hr in IH. cbn [snd] in IH. rewrite IH; [|clear IH|exact Hi].
    + do 2 f_equal. rewrite Hh. lia.
    + intros address. rewrite Hh. destruct (Hn address). destruct (_ && _); lia.
Qed.

(** The activation is the one of the environment at the first trigger, however the environment
    changes later; from then on a trigger fires exactly when it matches and the record was
    passed one time less than the count before. *)
Lemma failpoint_fires_at_count getenv0 fp0 calls i getenv fp :
  Z.of_nat (length ((getenv0, fp0) :: calls)) <= UINT64_MAX ->
  ((getenv0, fp0) :: calls) !! i = Some (getenv, fp) ->
  (run_triggers ((getenv0, fp0) :: calls) no_hits).2 !! i =
  Some (fires (read_activation getenv0) fp
          (passes (read_activation getenv0) (fp_address fp) (take i ((getenv0, fp0) :: calls)))).
Proof.
  set (act := read_activation getenv0). set (all := (getenv0, fp0) :: calls). intros Hl Hi.
  assert (run_triggers all no_hits = run_triggers all (mkFailpoints (Some act) ∅)) as -> by done.
  rewrite (run_triggers_spec act _ _ _ getenv fp); [done|done| |done].
  intros address. unfold hits_at. cbn [fs_hits]. rewrite lookup_empty. cbn [default from_option]. change (id 0) with 0. lia.
Qed.

(** * What the trace accounts for *)

Definition total {A} (f : A -> Z) (l : list A) : Z := foldr (fun x n => f x + n) 0 l.

Lemma total_insert {A} (f : A -> Z) l i x y :
  l !! i = Some x -> total f (<[i:=y]> l) = total f l - f x + f y.
Proof.
  revert i. induction l as [|z l IH]; intros [|i] Hi; try done.
  - injection Hi as ->. cbn. lia.
  - change (l !! i = Some x) in Hi.
    change (f z + total f (<[i:=y]> l) = f z + total f l - f x + f y). rewrite (IH i) by done. lia.
Qed.
Lemma total_zero {A} (f : A -> Z) l : Forall (fun x => f x = 0) l -> total f l = 0.
Proof. unfold total. induction 1 as [|x l Hx _ IH]; cbn [foldr]; lia. Qed.
Lemma total_nonneg {A} (f : A -> Z) l : Forall (fun x => 0 <= f x) l -> 0 <= total f l.
Proof. unfold total. induction 1 as [|x l Hx _ IH]; cbn [foldr]; lia. Qed.

(** An attempt that is neither emitted nor counted as dropped yet. *)
Definition unsettled (t : in_event) : Z :=
  match t with te_attempted | te_taken _ | te_dropping _ | te_written _ => 1 | _ => 0 end.
(** The counted drops that a thread has in hand. *)
Definition in_hand (t : in_event) : Z :=
  match t with te_taken p | te_dropping p => p | te_restoring p => p + 1 | _ => 0 end.
Definition hand_ok (t : in_event) : Prop :=
  match t with
  | te_taken p | te_dropping p | te_restoring p | te_written p => 0 <= p <= UINT32_MAX
  | _ => True
  end.

(** The drops that were announced or are still to be. *)
Definition accounted (c : trace_config) : Z :=
  tc_announced c + trace_dropped (tc_state c) + total in_hand (tc_threads c).

(** No count was lost; or the attempts are at the end of their range. *)
Definition exact_counts (c : trace_config) : Prop :=
  let s := tc_state c in
  trace_attempted s = trace_emitted s + trace_dropped_total s + total unsettled (tc_threads c) /\
  Z.min (trace_dropped_total s) UINT32_MAX <= accounted c <= trace_dropped_total s.

Record trace_inv (c : trace_config) : Prop := {
  ti_hand : Forall hand_ok (tc_threads c);
  ti_dropped : 0 <= trace_dropped (tc_state c) <= UINT32_MAX;
  ti_announced : 0 <= tc_announced c;
  ti_attempted : 0 <= trace_attempted (tc_state c) <= UINT64_MAX;
  ti_emitted : 0 <= trace_emitted (tc_state c);
  ti_total : 0 <= trace_dropped_total (tc_state c);
  ti_counts : trace_counter_overflow (tc_state c) = true /\ trace_attempted (tc_state c) = UINT64_MAX \/
    trace_counter_overflow (tc_state c) = false /\ exact_counts c
}.

Lemma increment_spec z :
  (z = UINT64_MAX /\ increment_trace_counter z = (z, true)) \/
  (z <> UINT64_MAX /\ increment_trace_counter z = (z + 1, false)).
Proof. unfold increment_trace_counter. destruct (Z.eqb_spec z UINT64_MAX); auto. Qed.

Lemma restored_dropped p s :
  0 <= p <= UINT32_MAX -> 0 <= trace_dropped s <= UINT32_MAX ->
  trace_dropped (restore_dropped p s) = Z.min UINT32_MAX (trace_dropped s + p + 1).
Proof.
  intros Hp Hs. unfold restore_dropped, trace_drop_with_current. cbn [trace_dropped].
  destruct (Z.eqb_spec (trace_dropped s) UINT32_MAX); [lia|].
  destruct (Z.eqb_spec p UINT32_MAX).
  - destruct (Z.ltb_spec (UINT32_MAX - trace_dropped s) UINT32_MAX); [lia|].
    rewrite u32_small by (unfold is_u32; lia). lia.
  - rewrite (u32_small (p + 1)) by (unfold is_u32; lia).
    destruct (Z.ltb_spec (UINT32_MAX - trace_dropped s) (p + 1)); [lia|].
    rewrite u32_small by (unfold is_u32; lia). lia.
Qed.

(** What an action does to the thread's share. *)
Lemma hand_step t s t' s' n :
  thread_step t s t' s' n -> hand_ok t -> 0 <= trace_dropped s <= UINT32_MAX ->
  hand_ok t' /\ 0 <= trace_dropped s' <= UINT32_MAX /\ 0 <= n.
Proof.
  intros Hs Ht Hd. destruct Hs; cbn [hand_ok] in *;
    unfold count_attempt, count_drop, count_emitted, take_dropped;
    try destruct (increment_trace_counter _); try rewrite restored_dropped by done; cbn [trace_dropped];
    repeat match goal with |- _ /\ _ => split end; mlia.
Qed.

(** The counters with what the other threads have: [u] attempts that are not settled and [h]
    drops in hand, [a] announced. *)
Definition counts (t : in_event) (s : trace_state) (u h a : Z) : Prop :=
  0 <= trace_attempted s <= UINT64_MAX /\ 0 <= trace_emitted s /\ 0 <= trace_dropped_total s /\
  (trace_counter_overflow s = true /\ trace_attempted s = UINT64_MAX \/
   trace_counter_overflow s = false /\
   trace_attempted s = trace_emitted s + trace_dropped_total s + (u + unsettled t) /\
   Z.min (trace_dropped_total s) UINT32_MAX <= a + trace_dropped s + (h + in_hand t)
     <= trace_dropped_total s).

Ltac counters :=
  unfold count_attempt, count_drop, count_emitted;
  match goal with |- context [increment_trace_counter ?z] =>
    destruct (increment_spec z) as [[? ->]|[? ->]] end.

Lemma counts_step t s t' s' n u h a :
  thread_step t s t' s' n -> hand_ok t -> 0 <= trace_dropped s <= UINT32_MAX -> 0 <= u ->
  0 <= h -> 0 <= a -> counts t s u h a -> counts t' s' u h (a + n).
Proof.
  intros Hs Ht Hd Hu Hh Ha (Hat & He & Hto & Hc). unfold counts.
  destruct Hs; cbn [unsettled in_hand hand_ok] in *; rewrite ?restored_dropped by done;
    try counters; unfold take_dropped;
    cbn [restore_dropped trace_attempted trace_emitted trace_dropped_total trace_dropped
         trace_counter_overflow]; rewrite ?orb_true_r, ?orb_false_r;
    (split; [mlia|]; split; [mlia|]; split; [mlia|]);
    destruct Hc as [[Ho Hc]|(Ho & Hc1 & Hc2)];
    first [left; split; [done|mlia]|right; split; [done|mlia]|exfalso; mlia].
Qed.

(** The others' share. *)
Lemma counts_config c i t :
  tc_threads c !! i = Some t ->
  (counts t (tc_state c) (total unsettled (tc_threads c) - unsettled t)
     (total in_hand (tc_threads c) - in_hand t) (tc_announced c) <->
   0 <= trace_attempted (tc_state c) <= UINT64_MAX /\ 0 <= trace_emitted (tc_state c) /\
   0 <= trace_dropped_total (tc_state c) /\
   (trace_counter_overflow (tc_state c) = true /\ trace_attempted (tc_state c) = UINT64_MAX \/
    trace_counter_overflow (tc_state c) = false /\ exact_counts c)).
Proof.
  intros _. unfold counts, exact_counts, accounted.
  rewrite !Z.sub_add. tauto.
Qed.

Lemma others_nonneg (f : in_event -> Z) threads i t :
  threads !! i = Some t -> Forall (fun x => 0 <= f x) threads -> 0 <= total f threads - f t.
Proof.
  intros Hi Hf. revert i Hi. induction Hf as [|x l Hx Hl IH]; intros [|i] Hi; try done.
  - injection Hi as ->. change (0 <= f t + total f l - f t). pose proof (total_nonneg f l Hl). lia.
  - specialize (IH i Hi). change (0 <= f x + total f l - f t). lia.
Qed.

Lemma trace_step_inv c c' : trace_inv c -> trace_step c c' -> trace_inv c'.
Proof.
  intros [Hh Hd Ha Hat He Ht Hc] Hstep.
  destruct Hstep as [i t t' s s' threads n announced Hi Hs].
  cbn [tc_state tc_threads tc_announced] in *.
  assert (hand_ok t) as Hht by (eapply Forall_lookup_1; [exact Hh|exact Hi]).
  destruct (hand_step t s t' s' n Hs Hht Hd) as (Hht' & Hd' & Hn).
  assert (<[i:=t']> threads !! i = Some t') as Hi'.
  { apply list_lookup_insert_eq. by eapply lookup_lt_Some. }
  set (c' := mkTraceConfig s' (<[i:=t']> threads) (announced + n)).
  assert (counts t' (tc_state c') (total unsettled (tc_threads c') - unsettled t')
    (total in_hand (tc_threads c') - in_hand t') (tc_announced c')) as Hc'.
  { cbn [c' tc_state tc_threads tc_announced]. rewrite !(total_insert _ threads i t t') by done.
    replace (total unsettled threads - unsettled t + unsettled t' - unsettled t')
      with (total unsettled threads - unsettled t) by lia.
    replace (total in_hand threads - in_hand t + in_hand t' - in_hand t')
      with (total in_hand threads - in_hand t) by lia.
    apply (counts_step t s t' s' n); [done|done|done| | |done|].
    - apply (others_nonneg unsettled threads i t Hi), Forall_forall. intros x _. by destruct x.
    - apply (others_nonneg in_hand threads i t Hi).
      eapply Forall_impl; [exact Hh|]. intros x Hx. destruct x; cbn in *; lia.
    - by apply (counts_config (mkTraceConfig s threads announced) i t Hi). }
  apply (counts_config c' i t' Hi') in Hc' as (H1 & H2 & H3 & H4).
  split; [by apply Forall_insert|exact Hd'|cbn; lia|exact H1|exact H2|exact H3|exact H4].
Qed.

Lemma trace_reaches_inv threads c : trace_reaches threads c -> trace_inv c.
Proof.
  intros Hr. assert (trace_inv (trace_start threads)) as H0.
  { split; unfold trace_start; cbn [tc_state tc_threads tc_announced no_trace trace_attempted
      trace_emitted trace_dropped trace_dropped_total trace_counter_overflow];
      [by apply Forall_replicate|mlia..|]. right. split; [done|].
    unfold exact_counts, accounted. cbn [tc_state tc_threads tc_announced no_trace trace_attempted
      trace_emitted trace_dropped trace_dropped_total].
    rewrite !total_zero by by apply Forall_replicate. mlia. }
  unfold trace_reaches in Hr. revert H0. generalize (trace_start threads) as c0, Hr.
  clear Hr. intros c0 Hr. induction Hr as [|c0 c1 c2 Hs _ IH]; [done|]. intros H0. apply IH.
  by eapply trace_step_inv.
Qed.

(** ** A thread that runs alone *)

Lemma thread_runs i t t' s s' threads n announced :
  threads !! i = Some t -> thread_step t s t' s' n ->
  rtc trace_step (mkTraceConfig s threads announced)
    (mkTraceConfig s' (<[i:=t']> threads) (announced + n)).
Proof. intros Hi Hs. apply rtc_once. by econstructor. Qed.

(** [steps] of one thread, with what they announce. *)
Inductive thread_steps : in_event -> trace_state -> in_event -> trace_state -> Z -> Prop :=
| tss_nil t s : thread_steps t s t s 0
| tss_cons t s t' s' n t'' s'' n' :
    thread_step t s t' s' n -> thread_steps t' s' t'' s'' n' -> thread_steps t s t'' s'' (n + n').

Lemma thread_steps_run i t t' s s' threads n announced :
  thread_steps t s t' s' n -> threads !! i = Some t ->
  rtc trace_step (mkTraceConfig s threads announced)
    (mkTraceConfig s' (<[i:=t']> threads) (announced + n)).
Proof.
  intros Hs. revert threads announced. induction Hs as [t s|t s t1 s1 n1 t2 s2 n2 H1 _ IH];
    intros threads announced Hi.
  - rewrite list_insert_id, Z.add_0_r by done. apply rtc_refl.
  - eapply rtc_l; [by econstructor|]. rewrite Z.add_assoc.
    rewrite <- (list_insert_insert_eq threads i t2 t1). apply IH.
    apply list_lookup_insert_eq. by eapply lookup_lt_Some.
Qed.

(** An event of a thread, from its beginning to its end, when no other thread acts. *)
Lemma trace_event_thread fd answers s :
  fd <> None ->
  thread_steps te_outside s te_outside (trace_event fd answers s).1
    (default 0 (trace_event fd answers s).2).
Proof.
  destruct fd as [fd|]; [intros _|done]. cbn [trace_event]. cbv zeta.
  set (s1 := count_attempt s). set (p := trace_dropped s1).
  assert (forall s' n, thread_steps (te_taken p) (take_dropped s1) te_outside s' n ->
    thread_steps te_outside s te_outside s' n) as Hstart.
  { intros s' n H. replace n with (0 + (0 + (0 + n))) by lia.
    econstructor; [apply ts_enter|]. econstructor; [apply ts_attempt|].
    econstructor; [apply ts_take|exact H]. }
  assert (thread_steps te_outside s te_outside
    (note_current_trace_drop p (take_dropped s1)) (default 0 None)) as Hdrop.
  { apply Hstart. change (default 0 None) with (0 + (0 + (0 + 0))).
    econstructor; [apply ts_fail|]. econstructor; [apply ts_count_drop|].
    econstructor; [apply ts_restore|constructor]. }
  generalize (if p =? 0 then 0 else ea_prefix answers) as offset. intros offset.
  destruct (negb (p =? 0) && _); [exact Hdrop|]. destruct ((ea_event answers <=? 0) || _); [exact Hdrop|].
  destruct (negb (ea_written answers =? _)); [exact Hdrop|].
  apply Hstart. cbn [fst snd default]. change (default 0 (Some p)) with p.
  replace p with (p + (0 + 0)) at 2 by lia.
  econstructor; [apply ts_write|]. econstructor; [apply ts_emitted|constructor].
Qed.

Lemma trace_event_steps fd answers s threads i announced :
  threads !! i = Some te_outside ->
  rtc trace_step (mkTraceConfig s threads announced)
    (mkTraceConfig (trace_event fd answers s).1 threads
       (announced + default 0 (trace_event fd answers s).2)).
Proof.
  intros Hi. destruct fd as [fd|].
  - pose proof (thread_steps_run i _ _ _ _ threads _ announced
      (trace_event_thread (Some fd) answers s ltac:(done)) Hi) as H.
    by rewrite list_insert_id in H by done.
  - cbn. change (id 0) with 0. rewrite Z.add_0_r. apply rtc_refl.
Qed.

(** ** The flush *)

(** When no thread is inside an event. *)
Lemma quiet_counts c :
  trace_inv c -> Forall (fun t => t = te_outside) (tc_threads c) ->
  trace_counter_overflow (tc_state c) = false ->
  trace_attempted (tc_state c) = trace_emitted (tc_state c) + trace_dropped_total (tc_state c) /\
  Z.min (trace_dropped_total (tc_state c)) UINT32_MAX <= tc_announced c + trace_dropped (tc_state c)
    <= trace_dropped_total (tc_state c).
Proof.
  intros Hi Hq Ho. destruct (ti_counts _ Hi) as [[Ho' _]|[_ [H1 H2]]]; [congruence|].
  unfold accounted in H2. rewrite !total_zero in H1, H2 by (eapply Forall_impl; [exact Hq|]; by intros ? ->).
  lia.
Qed.

Lemma event_attempted fd answers s :
  trace_attempted (trace_event fd answers s).1 <= trace_attempted s + 1.
Proof.
  assert (trace_attempted (count_attempt s) <= trace_attempted s + 1) as H.
  { unfold count_attempt. destruct (increment_spec (trace_attempted s)) as [[_ ->]|[_ ->]]; cbn; lia. }
  assert (forall s', trace_attempted (count_drop s') = trace_attempted s') as H1
    by (intros s'; unfold count_drop; by destruct (increment_trace_counter _)).
  assert (forall s', trace_attempted (count_emitted s') = trace_attempted s') as H2
    by (intros s'; unfold count_emitted; by destruct (increment_trace_counter _)).
  unfold trace_event, note_current_trace_drop. destruct fd; [|cbn [fst]; lia].
  repeat case_match; cbn [fst restore_dropped trace_attempted]; rewrite ?H1, ?H2; exact H.
Qed.

Lemma flush_written threads c i trace_text status_text trace_answers status_answers event status_written :
  trace_reaches threads c -> tc_threads c !! i = Some te_outside ->
  Forall (fun t => t = te_outside) (tc_threads c) -> trace_attempted (tc_state c) < UINT64_MAX - 1 ->
  fd_env_configured trace_text = true -> trace_fd trace_text trace_answers <> None ->
  trace_fd status_text status_answers <> None ->
  (futex_trace_flush trace_text status_text trace_answers status_answers event status_written
     (tc_state c)).2 = status_written.
Proof.
  intros Hr Hi Hq Hmax H1 H2 H3. unfold futex_trace_flush. rewrite H1, bool_decide_false by done.
  cbn [negb andb]. destruct (trace_fd status_text status_answers); [|done].
  set (fd := trace_fd trace_text trace_answers). pose proof (event_attempted fd event (tc_state c)) as Ha.
  pose proof (trace_event_steps fd event (tc_state c) (tc_threads c) i (tc_announced c) Hi) as Hs.
  destruct (trace_event fd event (tc_state c)) as [s' a]. cbn [fst snd] in *.
  set (c' := mkTraceConfig s' (tc_threads c) (tc_announced c + default 0 a)) in *.
  assert (trace_inv c') as Hinv.
  { apply (trace_reaches_inv threads). unfold trace_reaches. etrans; [exact Hr|]. by destruct c. }
  assert (trace_counter_overflow s' = false) as Ho.
  { destruct (ti_counts _ Hinv) as [[_ H]|[H _]]; [cbn in H; lia|exact H]. }
  destruct (quiet_counts c' Hinv Hq Ho) as [Hsum _]. cbn [c' tc_state] in Hsum.
  pose proof (ti_total _ Hinv) as Ht. cbn [c' tc_state] in Ht.
  rewrite Ho, (proj2 (Z.leb_le _ _)), (proj2 (Z.eqb_eq _ _)) by lia. by destruct status_written.
Qed.

(** C37: fault injection does exactly what it was told, and its trace loses nothing unseen. Of
    the triggers that the threads of a process pass, in the order in which they count their
    hits, the [i]-th fires exactly when its name matches the activation and its record was
    passed one time less than the count before; the activation is what the environment held at
    the first trigger, however it changes later.

    For any number of threads inside the futex trace, their atomic actions interleaved in any
    way: unless the 64-bit counter of the attempts is full, no counter has overflowed, every
    attempted event is emitted, counted as dropped, or of a thread that is still inside its
    event; and the drops that were announced, are to be announced or are in the hand of a
    thread are never more than the drops counted, are all of them while these are at most
    [UINT32_MAX], and are at least that many afterwards, when the counter of the drops to
    announce saturates. A call of [trace_event] is such a run of its thread. When no thread is
    inside an event, the flush of a trace that is configured succeeds exactly when the line of
    its status was written (with a thread inside an event it may also fail). *)
Theorem injection_exact :
  (forall getenv0 fp0 calls i getenv fp,
     let all := (getenv0, fp0) :: calls in
     let act := read_activation getenv0 in
     Z.of_nat (length all) <= UINT64_MAX -> all !! i = Some (getenv, fp) ->
     (run_triggers all no_hits).2 !! i =
     Some (fires act fp (passes act (fp_address fp) (take i all)))) /\
  (forall threads c,
     trace_reaches threads c ->
     let s := tc_state c in
     (trace_attempted s < UINT64_MAX -> trace_counter_overflow s = false) /\
     (trace_counter_overflow s = false ->
        trace_attempted s = trace_emitted s + trace_dropped_total s + total unsettled (tc_threads c) /\
        Z.min (trace_dropped_total s) UINT32_MAX <=
          tc_announced c + trace_dropped s + total in_hand (tc_threads c) <= trace_dropped_total s) /\
     (forall i fd answers,
        tc_threads c !! i = Some te_outside ->
        trace_reaches threads
          (mkTraceConfig (trace_event fd answers s).1 (tc_threads c)
             (tc_announced c + default 0 (trace_event fd answers s).2))) /\
     (forall i trace_text status_text trace_answers status_answers event status_written,
        tc_threads c !! i = Some te_outside -> Forall (fun t => t = te_outside) (tc_threads c) ->
        trace_attempted s < UINT64_MAX - 1 ->
        fd_env_configured trace_text = true -> trace_fd trace_text trace_answers <> None ->
        trace_fd status_text status_answers <> None ->
        (futex_trace_flush trace_text status_text trace_answers status_answers event status_written s).2 =
        status_written)).
Proof.
  split.
  - intros getenv0 fp0 calls i getenv fp all act Hl Hi. by apply (failpoint_fires_at_count _ _ _ _ getenv).
  - intros threads c Hr s. pose proof (trace_reaches_inv threads c Hr) as Hinv.
    split; [|split; [|split]].
    + intros Hmax. destruct (ti_counts _ Hinv) as [[_ H]|[H _]]; [fold s in H; lia|exact H].
    + intros Ho. subst s. destruct (ti_counts _ Hinv) as [[H _]|[_ H]]; [congruence|exact H].
    + intros i fd answers Hi. unfold trace_reaches. etrans; [exact Hr|].
      pose proof (trace_event_steps fd answers s (tc_threads c) i (tc_announced c) Hi) as H.
      subst s. by destruct c.
    + intros. by apply (flush_written threads c i).
Qed.

(** The second hit of a failpoint crashes; of three events the middle one does not fit in the
    pipe. *)
Module InjectionDemo.
Definition env : environment := fun name =>
  if bool_decide (name = "EDGE_FAILPOINT"%string) then Some "A"%string
  else if bool_decide (name = "EDGE_FAILPOINT_MODE"%string) then Some "crash"%string
  else if bool_decide (name = "EDGE_FAILPOINT_COUNT"%string) then Some "2"%string
  else None.
Definition unset : environment := fun _ => None.
Definition a : FailpointRecord := mkFailpoint 0 "A".
Definition b : FailpointRecord := mkFailpoint 1 "B".
(** Two threads: the second has attempted an event when the first writes one. *)
Definition both : trace_config :=
  mkTraceConfig (mkTrace 0 2 1 0 false) [te_outside; te_attempted] 0.
Lemma both_reached : trace_reaches 2 both.
Proof.
  unfold trace_reaches, trace_start.
  etrans; [apply (thread_runs 1 te_outside te_entered); [reflexivity|apply ts_enter]|].
  etrans; [apply (thread_runs 1 te_entered te_attempted); [reflexivity|apply ts_attempt]|].
  etrans; [apply (trace_event_steps (Some 3) (mkEventAnswers 0 40 40) _ _ 0); reflexivity|].
  apply rtc_refl.
Qed.
End InjectionDemo.

Lemma injection_exact_witness :
  (run_triggers [(InjectionDemo.env, InjectionDemo.a); (InjectionDemo.unset, InjectionDemo.b);
                 (InjectionDemo.unset, InjectionDemo.a)] no_hits).2 !! 2%nat = Some (Some (Crashed 134)) /\
  trace_attempted (tc_state InjectionDemo.both) =
    trace_emitted (tc_state InjectionDemo.both) + trace_dropped_total (tc_state InjectionDemo.both) + 1.
Proof.
  split.
  - refine (eq_trans (proj1 injection_exact InjectionDemo.env InjectionDemo.a _ 2%nat InjectionDemo.unset InjectionDemo.a _ _) _).
    + vm_compute. discriminate.
    + reflexivity.
    + reflexivity.
  - exact (proj1 (proj1 (proj2 (proj2 injection_exact 2%nat InjectionDemo.both InjectionDemo.both_reached)) eq_refl)).
Defined.
